(* ===== verification/_CoqProject ===== *)
-Q . S2P
Prelude.v
Bytes.v
Types.v
Consensus.v
Encoding.v
Store.v
Ledger.v
Validation.v
MemoryStore.v
SledStore.v
Reliable.v
Mempool.v
DebugEvent.v
Node.v
Handler.v
Protocol.v
Genesis.v
SlotTicker.v
Gossip.v
Flood.v
Fork.v
Ibd.v
Api.v
Http.v
Connector.v
Startup.v
System.v
Laggard.v
Concurrent.v
Schedule.v
EventBus.v
Wallet.v
Rpc.v
World.v
Split.v
Scenarios.v
VisServer.v
Stream.v
Keystore.v
Cli.v
Network.v
Payment.v
Testnet.v
Concrete.v
Witnesses.v
AppWitnesses.v
GossipWitnesses.v
ToolWitnesses.v
