(* ===== verification/Prelude.v ===== *)
(** * BetterCallChain: a verification library

    A shallow embedding of the BetterCallChain proof-of-stake UTXO chain (a Rust
    workspace) with the theorems that make it correct.  The workspace has a core
    library [bcc-core] (types, election, validation, storage traits), a node
    [bcc-node] (persistent store, mempool, peer protocol, genesis, block
    production, initial download, HTTP API), a wallet [bcc-client] and a
    demonstration tool [bcc-visualizer].

    ** How the program works

    A node stores a chain of blocks, the unspent outputs and the validators
    behind three storage traits.  At start-up it applies the genesis
    configuration and downloads the chain of a bootstrap peer.  In every slot the
    election picks one validator by stake from the hash of the tip and the slot
    number; if that is the node's own address, the slot ticker drains the mempool
    into a signed block, stores it, applies it and broadcasts it.  Each
    connection runs a handler that validates blocks and transactions from its
    peer: a block at the tip's height plus one extends the chain, a block at the
    tip's height competes with the tip (the lower hash wins, the loser is rolled
    back), anything further ahead triggers a request for blocks.  Gossip excludes
    the source of a message.  The HTTP API reads the chain and accepts
    transactions; the wallet selects outputs over that API, signs a transfer and
    posts it.

    ** Files

    The base:
    - [Prelude]: results with panics ([Res]), the state monad [ST] of operations
      that return a result and the state they leave, the overflow-check switch of
      the build ([BuildProfile], checked or wrapping [u64] sums), hints, tactics,
      lemmas on lists, sums and sorting.
    - [Bytes]: big-endian and little-endian integers, the order on bytes.

    The core library:
    - [Types]: [types/*.rs] and [crypto/*.rs].  The crates [sha2],
      [ed25519-dalek], [hex] and [serde_json] are the classes [Crypto],
      [CoreJson] and [Json], with their documented laws (digest length, a
      signature verifies under its own key, parsing inverts printing).
    - [Consensus]: [consensus/pos.rs].
    - [Store]: [store/mod.rs].  The traits are the classes [BlockStore],
      [UtxoStore] and [ValidatorStore] over a store state; the abstract state of
      a store is a ledger (blocks by height, unspent outputs, undo data,
      validators), and [StoreLaws] says how each operation acts on it, whether
      it succeeds or fails.  Validation and node code is proved against the
      laws only.
    - [Ledger]: what transactions and blocks do to the unspent outputs and to the
      amount in circulation, on the abstract ledger.
    - [Validation]: [validation/transaction.rs], [validation/block.rs].
    - [MemoryStore]: [store/memory.rs], an instance of the traits and laws.  The
      iteration order of [HashMap] is a parameter ([HashOrder]).

    The node:
    - [Encoding], [SledStore]: [storage/sled_store.rs].  The [sled] crate is the
      class [Sled], an ordered byte map whose calls may fail and whose
      transactions commit entirely or not at all; the store is proved to be an
      instance of the same laws, by an abstraction of its trees.
    - [Reliable]: stores whose calls succeed, as a class that both stores
      implement ([memory_reliable], [sled_reliable]), for the statements that
      say that a result is produced.
    - [Mempool]: [mempool.rs] and [error.rs].
    - [DebugEvent]: [debug_event.rs].
    - [Node]: [config.rs], [state.rs], [p2p/protocol.rs]; what a node sends and
      reports is a trace of effects.  The [config] crate is the class [ConfigCrate]
      (a file overridden by the environment), the [toml] crate of [node init] the
      class [ConfigToml] of [Cli].
    - [Handler]: [p2p/handler.rs], one connection task with its frame limit;
      [Protocol]: its theorems.
    - [Genesis]: [genesis.rs].
    - [SlotTicker]: [slot_ticker.rs], an iteration and the loop, whose next reading of
      the clock comes from the sleep it computes.
    - [Gossip]: a network of nodes and the frames on their way; the deliveries in
      any order, and an interface [Spreads] for a block that is passed on from
      node to node, with its invariant, its bound and its completion.
      [Flood]: a new block satisfies it, slot after slot; [Fork]: so does the
      block with the lower hash of two competing ones.
    - [Ibd]: [ibd.rs], the download as a loop over the outcomes of connections
      and requests, and what a running node sends on such a connection: its
      greeting, then the answers, in frames of limited length.
    - [Api], [Http]: [api.rs]; the handlers and responses, and the bytes of a
      connection parsed into a request.
    - [Connector]: [p2p/connector.rs] and [p2p/server.rs], with the dial loop and
      the tasks it spawns as a transition system over time.
    - [Startup]: [main.rs] up to the spawning of its tasks, and the snapshot of
      [debug_ws.rs].
    - [System]: all tasks of a node as one transition system, one handler per
      step.  [Laggard]: those of its runs in which the block after the tip was
      missed.
    - [Concurrent]: the same tasks as programs of single calls, of which the
      handlers above are the uninterrupted runs; [Schedule]: pools of such
      programs under an arbitrary scheduler.

    The client and the tool:
    - [World]: a network of nodes as a client sees it, with clock, sleep and
      concurrent requests, as a class; requests, [join_all], polling loops and
      early returns over it.
    - [Wallet], [Split]: [wallet.rs], [split.rs], the latter on given answers and
      over a [World].
    - [Rpc]: [rpc.rs], the responses decoded from JSON values.
    - [Keystore]: [keystore.rs] over a file system whose calls may fail.
    - [Cli]: [config.rs] and [cli.rs].
    - [Network]: the client's transport instantiated by the modelled node.
    - [Payment]: a payment from the wallet's command to the balances on all nodes.
    - [Testnet]: the [World] of modelled nodes behind their HTTP servers.
    - [EventBus], [Scenarios], [VisServer]: [event_bus.rs], [scenarios.rs] and
      [server.rs], [main.rs], [node_client.rs] of the visualizer.
    - [Stream]: the event streams of [debug_ws.rs] and of the visualizer's server,
      over an interface for the broadcast channel.

    Applications:
    - [Concrete]: executable instances of every interface, with their laws.
    - [Witnesses], [AppWitnesses], [GossipWitnesses], [ToolWitnesses]: small networks
      computed with them, and for each property with hypotheses an application to it.

    Operations keep their Rust names; a method of a struct is in a Module of the
    struct's name ([Mempool.add], [SledStore.apply_block]).  A method taking
    [&mut self] returns its result and the new state; a failing call still
    returns the state it leaves.

    ** What the theorems show

    - Validation accepts exactly the blocks and transactions of its documented
      conditions and reports the first offence; an accepted block without
      duplicate spends creates no money.
    - The election is total for positive stake and picks each validator with
      exactly its share of the draws.
    - Both stores implement the ledger: apply and rollback are inverse, an
      interrupted [apply_block] of the sled store is all or nothing, and the two
      stores list active validators alike.
    - The mempool keeps its in-flight index and cap on every branch of [add], and
      [drain] takes the most valuable transactions.
    - The handler keeps the chain linked and the unspent outputs equal to the
      replay of the chain, through extension and reorganisation; two nodes with
      competing tips converge when the lower block is valid at both; peers are registered once per IP address.
    - Only the transactions of a produced block can make a peer with the same
      store refuse it; the slot loop has one iteration per slot and a node produces
      at most one block per slot.  Genesis initialises an empty store to the
      configured state.
    - In a network whose nodes agree, a valid block of the elected node reaches every
      node connected to it, under every order of deliveries, with at most one
      frame per end of a connection, and the network agrees again; of two
      competing blocks the one with the lower hash remains everywhere, and a
      payment made at one node has changed the balances on all of them.  A node
      that missed a block stays where it is until it is restarted.
    - A bootstrap peer that is not connected is dialled again, after back-offs of 2
      to 64 seconds;
      dials to a peer that does not answer pile up and share one back-off.
    - The download from a peer that sends only its answers ends with the peer's
      chain, with a bounded number of requests; a node started on an empty store joins a network of at
      most 255 blocks above genesis.  A longer chain is not joined in one start,
      and a batch longer than a frame never arrives.
    - In every state a node can reach, the chain is linked from the configured
      genesis block and the mempool, peers and validators keep their invariants;
      two nodes with one genesis configuration elect the same proposers.
    - Under every interleaving of the tasks the genesis block and the validators
      stay, and every further block was signed by the validator elected on its
      parent; the handlers run alone are those of [Handler].
    - A well-formed HTTP request is parsed back and served, any other stream of
      bytes is harmless; a posted transaction reaches every peer once.
    - A [send] command ends with a transaction in the mempool of the node and on
      its way to every peer.  Coin selection, splitting and the key store do what
      they document, failing file systems included; splitting over a polled
      network refines splitting on the answers that were heard meanwhile.  What
      [node init] writes the node accepts if the addresses parse.
    - A scenario of the visualizer ends whatever the nodes answer, publishes its
      start and its verdict, and has heard what a pass claims, in each of the six; on a network of
      modelled nodes the scenario of invalid transactions passes.
    - The event streams account for every event: delivered in order, or counted
      as dropped; a lag does not end them.
    - Where the code does not do what it means to, the theorem states what it does
      instead: duplicate inputs, wrapped output totals, reorganisations that
      mint, racing blocks, stale mempool entries, stale hash index, unfinished
      genesis runs, an unvalidated genesis block in the download, an inbound
      limit that can be exceeded.

    ** Bounds and fuel

    The merkle loop halves its layer, so the length of the first layer is enough
    fuel ([merkle_loop_fuel]); the year loop of the calendar takes at most one
    step per 365 days, so [days / 365 + 1] is enough.  The header loop of a
    request consumes at least one byte a turn, so the number of bytes and one is
    enough.  The download from an honest peer takes one request per 256 blocks
    and one more, and gives up after six attempts per peer; splitting to [n <=
    2^k] outputs takes [k] rounds, each of which adds an output; a polling loop
    takes at most one turn per interval and two more, since every turn sleeps
    for the interval ([ends_loop]).  The deliveries of a block are bounded by the
    ends of the connections, so they end without fuel.  After [n] steps of a node its chain is at
    most [n] blocks high.  Integers are [Z] with their range stated where it
    matters; [u64] arithmetic is checked or wraps as the build profile says.

    ** Not modelled

    What is left of the source is input and output around the modelled code, or
    has no behaviour of its own:
    - sockets, timers, the accept loops and the spawning of tasks: what they
      deliver is an input of the definitions (a frame, a clock reading, an
      outcome of a connection or a write), and the order in which tasks run is
      arbitrary;
    - the TOML, environment and command-line parsers, whose results are the
      configurations and commands the definitions take;
    - tracing, the signal handlers, the printing of the command line, the HTML
      page and the JSON text of events;
    - module declarations, imports, re-exports and derived traits other than
      the comparisons and encodings the code relies on.

    In the network of [Gossip] connections stay, and the queue of 64 messages of a
    connection has room: a full queue drops the message in the code, which is
    the starting point of [Laggard].  The properties of the network are stated
    for [Reliable] stores; what a failing store does is in [SledStore],
    [Handler] and [SlotTicker].  The locks of the in-memory store are not
    modelled, since no code poisons them.  [Schedule] interleaves calls of the
    store traits, each of which is one step: what happens between the trees of
    one call is in [SledStore]. *)

From stdpp Require Export base tactics numbers list gmap strings sorting pretty fin_maps.
From Stdlib Require Export ZArith Lia.
From Stdlib Require Export Strings.Byte.

#[global] Open Scope Z_scope.

Declare Scope bcc_scope.
Delimit Scope bcc_scope with bcc.

(** ** Results: [Result<T, E>] and panics *)

(** The outcome of a Rust call returning [Result<A, E>].  [Panic] is the third
    possibility of every call: an arithmetic overflow in a build with overflow
    checks, a slice index or a division by zero. *)
Inductive Res (E A : Type) : Type :=
| Ok (a : A)
| Err (e : E)
| Panic.
Arguments Ok {E A} a.
Arguments Err {E A} e.
Arguments Panic {E A}.

#[global] Instance Res_ret E : MRet (Res E) := fun A a => Ok a.
#[global] Instance Res_bind E : MBind (Res E) := fun A B f m =>
  match m with
  | Ok a => f a
  | Err e => Err e
  | Panic => Panic
  end.

#[global] Instance Res_fmap E : FMap (Res E) := fun A B f m => a ← m; Ok (f a).

(** [Result::map_err]. *)
Definition map_err {E F A : Type} (g : E → F) (m : Res E A) : Res F A :=
  match m with
  | Ok a => Ok a
  | Err e => Err (g e)
  | Panic => Panic
  end.

(** [Option::ok_or]. *)
Definition ok_or {E A : Type} (e : E) (o : option A) : Res E A :=
  match o with
  | Some a => Ok a
  | None => Err e
  end.

(** A [Result] of code that cannot panic, as used for external calls. *)
Definition of_sum {E A : Type} (r : E + A) : Res E A :=
  match r with
  | inl e => Err e
  | inr a => Ok a
  end.

(** A result of code that has no error value can be used under any error type. *)
Definition no_err {E A : Type} (m : Res Empty_set A) : Res E A :=
  match m with
  | Ok a => Ok a
  | Err e => match e with end
  | Panic => Panic
  end.

(** ** Stateful fallible code

    A Rust method that mutates its receiver keeps the mutations made before an
    early [return Err(..)] or a [?]: the state is returned in every case. *)
Definition ST (S E A : Type) : Type := S → Res E A * S.

#[global] Instance ST_ret S E : MRet (ST S E) := fun A a s => (Ok a, s).
#[global] Instance ST_bind S E : MBind (ST S E) := fun A B f m s =>
  match m s with
  | (Ok a, s') => f a s'
  | (Err e, s') => (Err e, s')
  | (Panic, s') => (Panic, s')
  end.

#[global] Instance ST_fmap S E : FMap (ST S E) := fun A B f m s =>
  let '(r, s') := m s in (f <$> r, s').

(** A call that reads the state and may fail. *)
Definition reads {S E A : Type} (f : S → Res E A) : ST S E A := fun s => (f s, s).
(** An unconditional state update. *)
Definition modifies {S E : Type} (f : S → S) : ST S E unit := fun s => (Ok tt, f s).
(** Early return with an error. *)
Definition throw {S E A : Type} (e : E) : ST S E A := fun s => (Err e, s).
(** [map_err] on a stateful call. *)
Definition st_map_err {S E F A : Type} (g : E → F) (m : ST S E A) : ST S F A := fun s =>
  let '(r, s') := m s in (map_err g r, s').

(** ** Machine integers

    Integers are [Z]; every arithmetic operation of the source that can leave
    its type's range goes through one of the functions below.  Whether an
    overflow panics or wraps is a property of the build profile: [cargo test]
    and debug builds check, [cargo build --release] (the Dockerfile) wraps. *)
Class BuildProfile := { overflow_checks : bool }.

Definition u64_max : Z := 2 ^ 64 - 1.
Definition u64 (z : Z) : Prop := 0 ≤ z < 2 ^ 64.
Definition i64 (z : Z) : Prop := - 2 ^ 63 ≤ z < 2 ^ 63.
#[global] Instance u64_dec z : Decision (u64 z).
Proof. unfold u64. apply _. Defined.
#[global] Instance i64_dec z : Decision (i64 z).
Proof. unfold i64. apply _. Defined.

Definition wrap_u64 (z : Z) : Z := z `mod` 2 ^ 64.
Definition wrap_u32 (z : Z) : Z := z `mod` 2 ^ 32.
Definition wrap_i64 (z : Z) : Z := (z + 2 ^ 63) `mod` 2 ^ 64 - 2 ^ 63.

Section arith.
Context `{BuildProfile} {E : Type}.

(** The result of a [u64] operation whose mathematical value is [z]. *)
Definition arith_u64 (z : Z) : Res E Z :=
  if decide (u64 z) then Ok z
  else if overflow_checks then Panic else Ok (wrap_u64 z).
(** The same for [i64]. *)
Definition arith_i64 (z : Z) : Res E Z :=
  if decide (i64 z) then Ok z
  else if overflow_checks then Panic else Ok (wrap_i64 z).

Definition u64_add (a b : Z) : Res E Z := arith_u64 (a + b).
Definition u64_sub (a b : Z) : Res E Z := arith_u64 (a - b).
Definition i64_add (a b : Z) : Res E Z := arith_i64 (a + b).
Definition i64_mul (a b : Z) : Res E Z := arith_i64 (a * b).

(** [Iterator::sum::<u64>()]: the partial sums are checked like [+]. *)
Fixpoint u64_sum_from (acc : Z) (l : list Z) : Res E Z :=
  match l with
  | [] => Ok acc
  | x :: l' => acc' ← u64_add acc x; u64_sum_from acc' l'
  end.
Definition u64_sum (l : list Z) : Res E Z := u64_sum_from 0 l.

End arith.

(** [u64::saturating_add] and [u64::saturating_sub]. *)
Definition saturating_add (a b : Z) : Z := Z.min (a + b) u64_max.
Definition saturating_sub (a b : Z) : Z := Z.max 0 (a - b).

(** ** Bytes *)

#[global] Instance byte_eqdec : EqDecision byte := byte_eq_dec.
#[global] Program Instance byte_countable : Countable byte :=
  inj_countable Byte.to_N Byte.of_N _.
Next Obligation. intros b. apply Byte.of_to_N. Qed.

Definition byte_to_Z (b : byte) : Z := Z.of_N (Byte.to_N b).
(** [z as u8]. *)
Definition byte_of_Z (z : Z) : byte :=
  default x00 (Byte.of_N (Z.to_N (z `mod` 256))).

(** [to_le_bytes] of an [n]-byte integer, and [from_le_bytes]. *)
Fixpoint to_le_bytes (n : nat) (z : Z) : list byte :=
  match n with
  | O => []
  | S n' => byte_of_Z z :: to_le_bytes n' (z `div` 256)
  end.
Fixpoint from_le_bytes (bs : list byte) : Z :=
  match bs with
  | [] => 0
  | b :: bs' => byte_to_Z b + 256 * from_le_bytes bs'
  end.
(** [to_be_bytes] and [from_be_bytes]. *)
Definition to_be_bytes (n : nat) (z : Z) : list byte := reverse (to_le_bytes n z).
Definition from_be_bytes (bs : list byte) : Z := from_le_bytes (reverse bs).

(** Lexicographic comparison, the [Ord] of byte arrays and of strings. *)
Fixpoint lex_lt (a b : list byte) : bool :=
  match a, b with
  | _, [] => false
  | [], _ :: _ => true
  | x :: a', y :: b' =>
      (byte_to_Z x <? byte_to_Z y)
      || ((byte_to_Z x =? byte_to_Z y) && lex_lt a' b')
  end.
Definition lex_le (a b : list byte) : bool := negb (lex_lt b a).

(** ** Iteration orders and sorts the standard library leaves unspecified *)

(** The iteration order of [HashMap]: some enumeration of the entries, which no
    caller may rely on. *)
Class HashOrder := {
  hash_iter {K A : Type} `{Countable K} : gmap K A → list (K * A);
  hash_iter_perm {K A : Type} `{Countable K} (m : gmap K A) :
    hash_iter m ≡ₚ map_to_list m;
}.

(** [slice::sort_unstable_by] with a comparison given by the boolean order
    [le]: the result is sorted, the order of equal elements is unspecified. *)
Class UnstableSort := {
  sort_unstable {A : Type} (le : A → A → bool) : list A → list A;
  sort_unstable_perm {A : Type} (le : A → A → bool) (l : list A) :
    sort_unstable le l ≡ₚ l;
  sort_unstable_sorted {A : Type} (le : A → A → bool) (l : list A) :
    (∀ x y, le x y ∨ le y x) → (∀ x y z, le x y → le y z → le x z) →
    StronglySorted (fun x y => le x y) (sort_unstable le l);
}.

(** ** Sums *)

Fixpoint sumZ (l : list Z) : Z :=
  match l with
  | [] => 0
  | x :: l' => x + sumZ l'
  end.
(** [saturating_add] folded over a list, as the validation loop does. *)
Definition sat_sum (l : list Z) : Z := foldl saturating_add 0 l.
(** The sum of [f] over the values of a map. *)
Definition map_sum {K A : Type} `{Countable K} (f : A → Z) (m : gmap K A) : Z :=
  map_fold (fun _ a acc => f a + acc) 0 m.

(** * Lemmas *)

Create HintDb bcc.

(** ** Automation *)

(** Decides the [if]s and [match]es of the goal and of hypothesis [H]. *)
Ltac break_match_hyp H :=
  match type of H with
  | context [match ?x with _ => _ end] =>
      lazymatch x with
      | context [match _ with _ => _ end] => fail
      | _ => destruct x eqn:?
      end
  end.
Ltac break_hyp H := repeat (break_match_hyp H; simplify_eq/=).

(** Turns the boolean comparisons of [Z] in the context into propositions. *)
Ltac Zbool :=
  repeat match goal with
  | H : (_ <? _) = true |- _ => apply Z.ltb_lt in H
  | H : (_ <? _) = false |- _ => apply Z.ltb_ge in H
  | H : (_ <=? _) = true |- _ => apply Z.leb_le in H
  | H : (_ <=? _) = false |- _ => apply Z.leb_gt in H
  | H : (_ =? _) = true |- _ => apply Z.eqb_eq in H
  | H : (_ =? _) = false |- _ => apply Z.eqb_neq in H
  end.

(** ** The result monad *)

Section res.
Context {E F A B : Type}.

Lemma res_bind_Ok (m : Res E A) (f : A → Res E B) b :
  m ≫= f = Ok b ↔ ∃ a, m = Ok a ∧ f a = Ok b.
Proof. destruct m; simpl; naive_solver. Qed.

Lemma res_bind_Err (m : Res E A) (f : A → Res E B) e :
  m ≫= f = Err e ↔ m = Err e ∨ ∃ a, m = Ok a ∧ f a = Err e.
Proof. destruct m; simpl; naive_solver. Qed.

Lemma res_fmap_Ok (f : A → B) (m : Res E A) b :
  f <$> m = Ok b ↔ ∃ a, m = Ok a ∧ b = f a.
Proof. destruct m; cbn; naive_solver. Qed.

Lemma fmap_Ok_inj (l k : list A) : Ok (E := E) <$> l = Ok <$> k → l = k.
Proof.
  revert k. induction l as [|x l IH]; intros [|y k]; cbn; try done.
  intros [= -> Hl]. f_equal. auto.
Qed.

Lemma map_err_Ok (g : E → F) (m : Res E A) a : map_err g m = Ok a ↔ m = Ok a.
Proof. destruct m; simpl; naive_solver. Qed.

Lemma ok_or_Ok (e : E) (o : option A) a : ok_or e o = Ok a ↔ o = Some a.
Proof. destruct o; simpl; naive_solver. Qed.

Lemma of_sum_Ok (r : E + A) a : of_sum r = Ok a ↔ r = inr a.
Proof. destruct r; simpl; naive_solver. Qed.

Lemma no_err_Ok (m : Res Empty_set A) a : @no_err E A m = Ok a ↔ m = Ok a.
Proof. destruct m as [|[]|]; simpl; naive_solver. Qed.
End res.

(** ** The state monad *)

Section st.
Context {S E F A B : Type}.

Lemma st_bind_Ok (m : ST S E A) (f : A → ST S E B) s b s'' :
  (m ≫= f) s = (Ok b, s'') ↔ ∃ a s', m s = (Ok a, s') ∧ f a s' = (Ok b, s'').
Proof. unfold mbind, ST_bind. destruct (m s) as [[] ?]; naive_solver. Qed.

Lemma st_map_err_Ok (g : E → F) (m : ST S E A) s a s' :
  st_map_err g m s = (Ok a, s') ↔ m s = (Ok a, s').
Proof. unfold st_map_err. destruct (m s) as [[] ?]; naive_solver. Qed.

(** A property of states that both parts keep is kept by the sequence. *)
Lemma st_bind_inv (P Q R : S → Prop) (m : ST S E A) (f : A → ST S E B) :
  (∀ s r s', P s → m s = (r, s') → match r with Ok a => Q s' | _ => R s' end) →
  (∀ a s r s', Q s → f a s = (r, s') → R s') →
  ∀ s r s', P s → (m ≫= f) s = (r, s') → R s'.
Proof.
  intros Hm Hf s r s' HP. unfold mbind, ST_bind.
  destruct (m s) as [[a|e|] s1] eqn:Em; specialize (Hm _ _ _ HP Em); naive_solver.
Qed.
End st.

(** ** Machine integers *)

Section arith_lemmas.
Context `{BuildProfile} {E : Type}.

Lemma arith_u64_Ok z : u64 z → @arith_u64 _ E z = Ok z.
Proof. intros. unfold arith_u64. by rewrite decide_True. Qed.

Lemma arith_i64_Ok z : i64 z → @arith_i64 _ E z = Ok z.
Proof. intros. unfold arith_i64. by rewrite decide_True. Qed.

Lemma u64_add_Ok a b : u64 (a + b) → @u64_add _ E a b = Ok (a + b).
Proof. apply arith_u64_Ok. Qed.

(** With overflow checks on, a returned value is the exact one. *)
Lemma u64_add_checked a b c :
  overflow_checks = true → @u64_add _ E a b = Ok c → c = a + b ∧ u64 c.
Proof.
  unfold u64_add, arith_u64. intros ->. case_decide; naive_solver.
Qed.

Lemma u64_sum_from_Ok acc l :
  0 ≤ acc → Forall (fun x => 0 ≤ x) l → acc + sumZ l < 2 ^ 64 →
  @u64_sum_from _ E acc l = Ok (acc + sumZ l).
Proof.
  revert acc. induction l as [|x l IH]; intros acc Hacc Hl Hlt; simpl in *.
  - f_equal; lia.
  - apply Forall_cons in Hl as [Hx Hl].
    assert (0 ≤ sumZ l).
    { clear -Hl. induction Hl; simpl; lia. }
    rewrite u64_add_Ok by (unfold u64; lia). simpl.
    rewrite IH by (auto; lia). f_equal; lia.
Qed.

Lemma u64_sum_Ok l :
  Forall (fun x => 0 ≤ x) l → sumZ l < 2 ^ 64 → @u64_sum _ E l = Ok (sumZ l).
Proof. intros. unfold u64_sum. by rewrite u64_sum_from_Ok. Qed.

Lemma u64_sum_from_checked acc l t :
  overflow_checks = true → u64 acc → @u64_sum_from _ E acc l = Ok t →
  t = acc + sumZ l ∧ u64 t.
Proof.
  intros Hc. revert acc. induction l as [|x l IH]; intros acc Hacc; simpl.
  - intros [= <-]. split; [lia|done].
  - intros (a' & [-> Ha]%(u64_add_checked _ _ _ Hc) & [-> ?]%IH)%res_bind_Ok; [|done].
    split; [lia|done].
Qed.

Lemma u64_sum_checked l t :
  overflow_checks = true → @u64_sum _ E l = Ok t → t = sumZ l ∧ u64 t.
Proof.
  intros Hc Ht. apply u64_sum_from_checked in Ht as [-> ?]; [|done|unfold u64; lia].
  split; [lia|done].
Qed.

(** A result is the same under every error type. *)
Lemma u64_add_error_type {F} a b c : @u64_add _ E a b = Ok c → @u64_add _ F a b = Ok c.
Proof. unfold u64_add, arith_u64. repeat case_match; naive_solver. Qed.

Lemma u64_sum_from_error_type {F} acc l t :
  @u64_sum_from _ E acc l = Ok t → @u64_sum_from _ F acc l = Ok t.
Proof.
  revert acc. induction l as [|x l IH]; intros acc; cbn; [naive_solver|].
  intros (a & Ha%(u64_add_error_type (F := F)) & Hl%IH)%res_bind_Ok. by rewrite Ha.
Qed.

Lemma u64_sum_error_type {F} l t : @u64_sum _ E l = Ok t → @u64_sum _ F l = Ok t.
Proof. apply u64_sum_from_error_type. Qed.

(** Arithmetic has no error value. *)
Lemma u64_sum_from_not_Err acc l e : @u64_sum_from _ E acc l ≠ Err e.
Proof.
  revert acc. induction l as [|x l IH]; intros acc; simpl; [done|].
  rewrite res_bind_Err. intros [Ha|(a & _ & Ha)]; [|by apply IH in Ha].
  unfold u64_add, arith_u64 in Ha. case_decide; [done|]. by destruct overflow_checks.
Qed.

Lemma u64_sum_not_Err l e : @u64_sum _ E l ≠ Err e.
Proof. apply u64_sum_from_not_Err. Qed.

(** In every build a sum that returns agrees with the exact one modulo 2^64. *)
Lemma u64_sum_from_mod acc l t :
  @u64_sum_from _ E acc l = Ok t → t `mod` 2 ^ 64 = (acc + sumZ l) `mod` 2 ^ 64.
Proof.
  revert acc. induction l as [|x l IH]; intros acc; simpl.
  - intros [= <-]. f_equal; lia.
  - intros (a & Ha & Ht)%res_bind_Ok. rewrite (IH _ Ht).
    unfold u64_add, arith_u64 in Ha. case_decide.
    + simplify_eq. f_equal; lia.
    + destruct overflow_checks; simplify_eq. unfold wrap_u64.
      rewrite Zplus_mod_idemp_l. f_equal; lia.
Qed.
End arith_lemmas.

(** ** Sums *)

Lemma sumZ_app l1 l2 : sumZ (l1 ++ l2) = sumZ l1 + sumZ l2.
Proof. induction l1; cbn; lia. Qed.

#[global] Instance sumZ_perm : Proper ((≡ₚ) ==> (=)) sumZ.
Proof. intros l1 l2 Hl. induction Hl; cbn; lia. Qed.

Lemma sumZ_nonneg l : Forall (fun x => 0 ≤ x) l → 0 ≤ sumZ l.
Proof. induction 1; cbn; lia. Qed.

Lemma saturating_add_le a b : saturating_add a b ≤ a + b.
Proof. unfold saturating_add. lia. Qed.

Lemma saturating_add_exact a b : a + b < 2 ^ 64 → saturating_add a b = a + b.
Proof. unfold saturating_add, u64_max. lia. Qed.

Lemma sat_sum_from_le acc l : foldl saturating_add acc l ≤ acc + sumZ l.
Proof.
  revert acc. induction l as [|x l IH]; intros acc; cbn; [lia|].
  specialize (IH (saturating_add acc x)). pose proof (saturating_add_le acc x). lia.
Qed.

(** A saturated total never exceeds the exact one. *)
Lemma sat_sum_le l : sat_sum l ≤ sumZ l.
Proof. apply sat_sum_from_le. Qed.

Lemma sat_sum_from_exact acc l :
  0 ≤ acc → Forall (fun x => 0 ≤ x) l → acc + sumZ l < 2 ^ 64 →
  foldl saturating_add acc l = acc + sumZ l.
Proof.
  intros Hacc Hl. revert acc Hacc. induction Hl as [|x l Hx Hl IH]; intros acc Hacc Hlt; cbn in *; [lia|].
  pose proof (sumZ_nonneg l Hl). rewrite saturating_add_exact by lia. rewrite IH; lia.
Qed.

Lemma sat_sum_exact l :
  Forall (fun x => 0 ≤ x) l → sumZ l < 2 ^ 64 → sat_sum l = sumZ l.
Proof. intros. unfold sat_sum. rewrite sat_sum_from_exact; lia || done. Qed.

(** A saturated total is the exact one, capped. *)
Lemma sat_sum_from_min acc l :
  0 ≤ acc ≤ u64_max → Forall (fun x => 0 ≤ x) l →
  foldl saturating_add acc l = Z.min (acc + sumZ l) u64_max.
Proof.
  intros Hacc Hl. revert acc Hacc. induction Hl as [|x l Hx Hl IH]; intros acc Hacc; cbn [foldl sumZ].
  - lia.
  - pose proof (sumZ_nonneg l Hl). rewrite IH; unfold saturating_add; lia.
Qed.

Lemma sat_sum_min l : Forall (fun x => 0 ≤ x) l → sat_sum l = Z.min (sumZ l) u64_max.
Proof. intros. unfold sat_sum. rewrite sat_sum_from_min; [done|unfold u64_max; lia|done]. Qed.

(** ** Sorted lists *)

Lemma StronglySorted_weaken {A} (R1 R2 : A → A → Prop) (l : list A) :
  (∀ x y, R1 x y → R2 x y) → StronglySorted R1 l → StronglySorted R2 l.
Proof. intros HR. induction 1; constructor; [done|]. eapply Forall_impl; eauto. Qed.

(** Sublists. *)
Lemma fmap_sublist {A B} (f : A → B) l k : l `sublist_of` k → f <$> l `sublist_of` f <$> k.
Proof. induction 1; cbn; by constructor. Qed.

Lemma StronglySorted_sublist {A} (R : relation A) l k : l `sublist_of` k → StronglySorted R k → StronglySorted R l.
Proof.
  induction 1 as [|x l k Hsub IH|x l k Hsub IH]; intros Hs; [constructor|..].
  - apply StronglySorted_inv in Hs as [Hs Hall]. constructor; [auto|].
    rewrite Forall_forall in Hall |- *. intros y Hy. eapply Hall, elem_of_sublist; [exact Hy|done].
  - apply StronglySorted_inv in Hs as [Hs _]. auto.
Qed.
Lemma StronglySorted_filter {A} (R : A → A → Prop) (P : A → Prop) `{∀ x, Decision (P x)} l :
  StronglySorted R l → StronglySorted R (filter P l).
Proof.
  induction 1 as [|x l Hs IH Hx]; [constructor|]. rewrite filter_cons. case_decide; [|done].
  constructor; [done|]. rewrite Forall_forall in *. intros y [_ Hy]%list_elem_of_filter. auto.
Qed.

Lemma StronglySorted_take_drop {A} (R : A → A → Prop) (l : list A) n x y :
  StronglySorted R l → x ∈ take n l → y ∈ drop n l → R x y.
Proof.
  intros Hl. rewrite <- (take_drop n l) in Hl. apply StronglySorted_app in Hl as (Hl & _ & _).
  by apply Hl.
Qed.

Lemma StronglySorted_take {A} (R : A → A → Prop) (l : list A) n :
  StronglySorted R l → StronglySorted R (take n l).
Proof.
  intros Hl. rewrite <- (take_drop n l) in Hl. by apply StronglySorted_app in Hl as (_ & ? & _).
Qed.

Lemma StronglySorted_fmap_2 {A B} (R : B → B → Prop) (f : A → B) (l : list A) :
  StronglySorted (fun x y => R (f x) (f y)) l → StronglySorted R (f <$> l).
Proof. induction 1 as [|x l Hl IH Hx]; cbn; constructor; [done|]. by apply Forall_fmap. Qed.

Lemma StronglySorted_seqZ m n : StronglySorted Z.le (seqZ m n).
Proof.
  unfold seqZ. apply StronglySorted_fmap_2. generalize 0%nat.
  induction (Z.to_nat n) as [|k IH]; intros i; cbn; constructor; [apply IH|].
  apply Forall_forall. intros j Hj%elem_of_seq. lia.
Qed.
