(* ===== verification/Bytes.v ===== *)
(** * Byte strings

    Round trips of the fixed-width integer encodings, and the lexicographic
    order on byte strings: the order of array comparisons, of string
    comparisons and of the keys of an ordered key-value store. *)

From S2P Require Import Prelude.

(** ** Bytes as integers *)

Lemma byte_to_Z_range b : 0 ≤ byte_to_Z b < 256.
Proof.
  unfold byte_to_Z. pose proof (Byte.to_N_bounded b). lia.
Qed.

Lemma byte_to_of_Z z : byte_to_Z (byte_of_Z z) = z `mod` 256.
Proof.
  unfold byte_to_Z, byte_of_Z. pose proof (Z.mod_pos_bound z 256 eq_refl).
  destruct (Byte.of_N _) as [b|] eqn:Hb; simpl.
  - apply Byte.to_of_N in Hb. rewrite Hb. lia.
  - apply Byte.of_N_None_iff in Hb. lia.
Qed.

#[global] Instance byte_to_Z_inj : Inj (=) (=) byte_to_Z.
Proof.
  intros b b' Hb. unfold byte_to_Z in Hb. apply N2Z.inj in Hb.
  pose proof (Byte.of_to_N b) as H1. pose proof (Byte.of_to_N b') as H2. congruence.
Qed.

Lemma byte_of_to_Z b : byte_of_Z (byte_to_Z b) = b.
Proof.
  apply (inj byte_to_Z). rewrite byte_to_of_Z. pose proof (byte_to_Z_range b).
  by rewrite Z.mod_small by lia.
Qed.

(** ** Fixed-width encodings *)

Lemma length_to_le_bytes n z : length (to_le_bytes n z) = n.
Proof. revert z. induction n; intros; simpl; auto. Qed.

Lemma length_to_be_bytes n z : length (to_be_bytes n z) = n.
Proof. unfold to_be_bytes. by rewrite length_reverse, length_to_le_bytes. Qed.

Lemma from_le_bytes_range bs : 0 ≤ from_le_bytes bs < 256 ^ Z.of_nat (length bs).
Proof.
  induction bs as [|b bs IH]; [done|].
  pose proof (byte_to_Z_range b). cbn [from_le_bytes length].
  rewrite Nat2Z.inj_succ, Z.pow_succ_r by lia. lia.
Qed.

Lemma from_to_le_bytes n z :
  from_le_bytes (to_le_bytes n z) = z `mod` 256 ^ Z.of_nat n.
Proof.
  revert z. induction n as [|n IH]; intros z.
  - by rewrite Z.mod_1_r.
  - cbn [to_le_bytes from_le_bytes]. rewrite IH, byte_to_of_Z.
    rewrite Nat2Z.inj_succ, Z.pow_succ_r by lia.
    rewrite Z.rem_mul_r by lia. lia.
Qed.

Lemma from_to_be_bytes n z :
  from_be_bytes (to_be_bytes n z) = z `mod` 256 ^ Z.of_nat n.
Proof.
  unfold from_be_bytes, to_be_bytes. by rewrite reverse_involutive, from_to_le_bytes.
Qed.

Lemma from_to_be_bytes_u64 z : u64 z → from_be_bytes (to_be_bytes 8 z) = z.
Proof.
  intros Hz. rewrite from_to_be_bytes. apply Z.mod_small. unfold u64 in Hz.
  change (256 ^ Z.of_nat 8) with (2 ^ 64). lia.
Qed.

Lemma to_be_bytes_inj_u64 a b :
  u64 a → u64 b → to_be_bytes 8 a = to_be_bytes 8 b → a = b.
Proof.
  intros Ha Hb Heq. apply (f_equal from_be_bytes) in Heq.
  by rewrite !from_to_be_bytes_u64 in Heq.
Qed.

(** ** The lexicographic order *)

Lemma lex_lt_irrefl a : lex_lt a a = false.
Proof.
  induction a as [|x a IH]; [done|]. cbn. rewrite IH, Z.ltb_irrefl. by rewrite andb_false_r.
Qed.

Lemma lex_lt_cons x a y b :
  lex_lt (x :: a) (y :: b) ↔
  byte_to_Z x < byte_to_Z y ∨ (x = y ∧ lex_lt a b).
Proof.
  cbn. rewrite orb_True, andb_True, !Is_true_true, Z.ltb_lt, Z.eqb_eq.
  split; intros [?|[??]]; auto; right; split; auto; [by apply (inj byte_to_Z)|congruence].
Qed.

Lemma lex_lt_trans a b c : lex_lt a b → lex_lt b c → lex_lt a c.
Proof.
  revert b c. induction a as [|x a IH]; intros [|y b] [|z c]; try done.
  rewrite !lex_lt_cons. intros [?|[-> ?]] [?|[-> ?]]; [left; lia|auto|auto|].
  right. split; [done|]. by eapply IH.
Qed.

Lemma lex_lt_trichotomy a b : lex_lt a b ∨ a = b ∨ lex_lt b a.
Proof.
  revert b. induction a as [|x a IH]; intros [|y b]; try (by simpl; auto).
  rewrite !lex_lt_cons. destruct (Z.lt_trichotomy (byte_to_Z x) (byte_to_Z y)) as [?|[Hxy|?]];
    auto.
  apply (inj byte_to_Z) in Hxy as ->. destruct (IH b) as [?|[->|?]]; auto.
Qed.

Lemma lex_le_total a b : lex_le a b ∨ lex_le b a.
Proof.
  unfold lex_le. destruct (lex_lt b a) eqn:Hba; [|by left].
  right. destruct (lex_lt a b) eqn:Hab; [|done].
  assert (Hc : lex_lt a a) by (apply (lex_lt_trans a b a); by rewrite ?Hab, ?Hba).
  by rewrite lex_lt_irrefl in Hc.
Qed.

Lemma lex_le_alt a b : lex_le a b ↔ lex_lt a b ∨ a = b.
Proof.
  unfold lex_le. rewrite negb_True. split.
  - intros Hn. destruct (lex_lt_trichotomy a b) as [|[|]]; auto. done.
  - intros [Hab|<-] Hba; [|by rewrite lex_lt_irrefl in Hba].
    assert (Hc : lex_lt a a) by by apply (lex_lt_trans a b a).
    by rewrite lex_lt_irrefl in Hc.
Qed.

Lemma lex_le_trans a b c : lex_le a b → lex_le b c → lex_le a c.
Proof.
  rewrite !lex_le_alt. intros [?| ->] [?| ->]; auto. left. by eapply lex_lt_trans.
Qed.

Lemma lex_le_antisym a b : lex_le a b → lex_le b a → a = b.
Proof.
  rewrite !lex_le_alt. intros [Hab|?] [Hba|?]; auto.
  assert (Hc : lex_lt a a) by by apply (lex_lt_trans a b a).
  by rewrite lex_lt_irrefl in Hc.
Qed.

Lemma lex_lt_app a b c d :
  length a = length b → lex_lt (a ++ c) (b ++ d) ↔ lex_lt a b ∨ (a = b ∧ lex_lt c d).
Proof.
  revert b. induction a as [|x a IH]; intros [|y b] Hl; try done.
  - cbn [app]. split; [auto|]. by intros [Hf|[Hf ?]].
  - injection Hl as Hl. cbn [app]. rewrite !lex_lt_cons, IH by done. naive_solver.
Qed.

(** The big-endian encoding is monotone: numeric order is key order. *)
Lemma to_be_bytes_succ n z :
  to_be_bytes (S n) z = to_be_bytes n (z `div` 256) ++ [byte_of_Z z].
Proof. unfold to_be_bytes. cbn [to_le_bytes]. by rewrite reverse_cons. Qed.

Lemma to_be_bytes_lt n a b :
  0 ≤ a < 256 ^ Z.of_nat n → 0 ≤ b < 256 ^ Z.of_nat n →
  lex_lt (to_be_bytes n a) (to_be_bytes n b) ↔ a < b.
Proof.
  revert a b. induction n as [|n IH]; intros a b Ha Hb.
  - simpl in *. split; [done|lia].
  - rewrite Nat2Z.inj_succ, Z.pow_succ_r in Ha, Hb by lia.
    rewrite !to_be_bytes_succ, lex_lt_app by by rewrite !length_to_be_bytes.
    pose proof (Z.div_mod a 256 ltac:(lia)). pose proof (Z.mod_pos_bound a 256 eq_refl).
    pose proof (Z.div_mod b 256 ltac:(lia)). pose proof (Z.mod_pos_bound b 256 eq_refl).
    assert (0 ≤ a `div` 256 < 256 ^ Z.of_nat n) by lia.
    assert (0 ≤ b `div` 256 < 256 ^ Z.of_nat n) by lia.
    rewrite IH, lex_lt_cons, !byte_to_of_Z by done.
    split.
    + intros [?|(Heq & [?|[_ Hf]])]; [lia| |done].
      apply (f_equal from_be_bytes) in Heq. rewrite !from_to_be_bytes, !Z.mod_small in Heq by lia.
      lia.
    + intros. destruct (decide (a `div` 256 = b `div` 256)) as [Hd|]; [|left; lia].
      right. rewrite Hd. split; [done|left; lia].
Qed.
