(* ===== verification/Types.v ===== *)
(** * Domain types ([bcc-core/src/types], [bcc-core/src/crypto])

    Addresses, transactions, blocks and validators as the source declares them,
    the hashes that identify them, and the interfaces of the external crates
    they rely on: [sha2], [ed25519-dalek], [hex] and [serde_json]. *)

From S2P Require Import Prelude Bytes.

(** ** Keys and signatures ([ed25519-dalek])

    The key and signature types are represented by their documented byte
    encodings: 32 bytes for keys, 64 bytes for signatures. *)
Record VerifyingKey := mkVerifyingKey { vk_as_bytes : list byte }.
Record SigningKey := mkSigningKey { sk_to_bytes : list byte }.
Record Signature := mkSignature { sig_to_bytes : list byte }.

(** ** The data of [types/] *)

(** [pub type BlockHash = [u8; 32]], [pub type TxHash = BlockHash]. *)
Notation BlockHash := (list byte) (only parsing).
Notation TxHash := (list byte) (only parsing).
(** [[0u8; 32]] *)
Definition zero_hash : BlockHash := replicate 32 x00.

(** [pub struct Address(String)] with [Address::as_str]. *)
Record Address := mkAddress { as_str : string }.

Record TxOutRef := mkTxOutRef { tx_hash : TxHash; index : Z }.
Record TxInput := mkTxInput {
  out_ref : TxOutRef;
  in_signature : Signature;
  in_pubkey : VerifyingKey;
}.
Record TxOutput := mkTxOutput { amount : Z; out_address : Address }.
Inductive TxKind :=
| Transfer
| Stake (stake_amount : Z)
| Unstake (unstake_amount : Z).
Record Transaction := mkTransaction {
  kind : TxKind;
  inputs : list TxInput;
  outputs : list TxOutput;
}.

Record BlockHeader := mkBlockHeader {
  prev_hash : BlockHash;
  merkle_root : BlockHash;
  timestamp : Z;
  height : Z;
  slot : Z;
  proposer : Address;
}.
Record Block := mkBlock {
  header : BlockHeader;
  block_signature : Signature;
  txs : list Transaction;
}.

Record Validator := mkValidator {
  v_address : Address;
  v_pubkey : VerifyingKey;
  stake : Z;
  active_since : Z;
}.

(** The part of a transaction a spender signs
    ([validation/transaction.rs], [struct TxSigningData]). *)
Record TxSigningData := mkTxSigningData {
  sd_kind : TxKind;
  sd_inputs : list TxOutRef;
  sd_outputs : list TxOutput;
}.

(** ** Decidable equality and countability *)

#[global] Instance VerifyingKey_eqdec : EqDecision VerifyingKey.
Proof. solve_decision. Defined.
#[global] Instance SigningKey_eqdec : EqDecision SigningKey.
Proof. solve_decision. Defined.
#[global] Instance Signature_eqdec : EqDecision Signature.
Proof. solve_decision. Defined.
#[global] Instance Address_eqdec : EqDecision Address.
Proof. solve_decision. Defined.
#[global] Instance TxOutRef_eqdec : EqDecision TxOutRef.
Proof. solve_decision. Defined.
#[global] Instance TxInput_eqdec : EqDecision TxInput.
Proof. solve_decision. Defined.
#[global] Instance TxOutput_eqdec : EqDecision TxOutput.
Proof. solve_decision. Defined.
#[global] Instance TxKind_eqdec : EqDecision TxKind.
Proof. solve_decision. Defined.
#[global] Instance Transaction_eqdec : EqDecision Transaction.
Proof. solve_decision. Defined.
#[global] Instance BlockHeader_eqdec : EqDecision BlockHeader.
Proof. solve_decision. Defined.
#[global] Instance Block_eqdec : EqDecision Block.
Proof. solve_decision. Defined.
#[global] Instance Validator_eqdec : EqDecision Validator.
Proof. solve_decision. Defined.

#[global] Program Instance Address_countable : Countable Address :=
  inj_countable' as_str mkAddress _.
Next Obligation. by intros []. Qed.
#[global] Program Instance TxOutRef_countable : Countable TxOutRef :=
  inj_countable' (fun r => (tx_hash r, index r)) (fun '(h, i) => mkTxOutRef h i) _.
Next Obligation. by intros []. Qed.

(** ** External code *)

(** [sha2], [ed25519-dalek] and [hex]: the functions the source calls, with the
    documented facts the development relies on. *)
Class Crypto := {
  (** [Sha256::digest] *)
  sha256_digest : list byte → list byte;
  length_sha256_digest d : length (sha256_digest d) = 32%nat;
  (** [SigningKey::verifying_key], [Signer::sign], [Verifier::verify] and
      [VerifyingKey::from_bytes]; errors are given by their message. *)
  verifying_key : SigningKey → VerifyingKey;
  sign : SigningKey → list byte → Signature;
  ed25519_verify : VerifyingKey → list byte → Signature → string + unit;
  vk_from_bytes : list byte → string + VerifyingKey;
  verify_sign sk msg : ed25519_verify (verifying_key sk) msg (sign sk msg) = inr tt;
  vk_from_as_bytes sk : vk_from_bytes (vk_as_bytes (verifying_key sk)) = inr (verifying_key sk);
  vk_from_bytes_as_bytes bs vk : vk_from_bytes bs = inr vk → vk_as_bytes vk = bs;
  (** [hex::encode] and [hex::decode] *)
  hex_encode : list byte → string;
  hex_decode : string → string + list byte;
  hex_decode_encode bs : hex_decode (hex_encode bs) = inr bs;
  length_hex_encode bs : String.length (hex_encode bs) = (2 * length bs)%nat;
  hex_encode_digits bs :
    Forall (fun c => c ∈ String.list_ascii_of_string "0123456789abcdef")
      (String.list_ascii_of_string (hex_encode bs));
}.

(** [serde_json::to_vec] and [serde_json::from_slice] at one type: serialisation
    of the derived implementations cannot fail, and what was serialised is read
    back. *)
Class Json (A : Type) := {
  to_vec : A → list byte;
  from_slice : list byte → string + A;
  from_slice_to_vec x : from_slice (to_vec x) = inr x;
}.

(** The types the core serialises. *)
Class CoreJson := {
  json_header :: Json BlockHeader;
  json_transaction :: Json Transaction;
  json_signing_data :: Json TxSigningData;
  json_out_ref :: Json TxOutRef;
  json_output :: Json TxOutput;
  json_block :: Json Block;
  json_validator :: Json Validator;
  json_tip :: Json (Z * BlockHash);
}.

#[global] Instance to_vec_inj {A} `{Json A} : Inj (=) (=) to_vec.
Proof.
  intros x y Heq. apply (f_equal from_slice) in Heq.
  rewrite !from_slice_to_vec in Heq. congruence.
Qed.

(** ** Hashes ([crypto/hash.rs], [crypto/signature.rs]) *)

(** [error.rs] *)
Inductive BccError :=
| Crypto_error (msg : string)
| Address_error (msg : string)
| BlockValidation_error (msg : string)
| TxValidation_error (msg : string)
| Store_error (msg : string)
| Consensus_error (msg : string).

Section hashing.
Context `{Crypto}.

Definition sha256d (data : list byte) : BlockHash :=
  let first := sha256_digest data in
  sha256_digest first.

Definition sha256 (data : list byte) : BlockHash := sha256_digest data.

Definition verify (pubkey : VerifyingKey) (msg : list byte) (sig : Signature) :
    Res BccError unit :=
  map_err Crypto_error (of_sum (ed25519_verify pubkey msg sig)).

End hashing.

(** ** Addresses ([types/address.rs]) *)

Inductive AddressError := InvalidPrefix | InvalidLength | InvalidCharacter.

Definition PREFIX : string := "bcs1".

(** [char::is_ascii_hexdigit] *)
Definition is_ascii_hexdigit (c : Ascii.ascii) : bool :=
  let n := Ascii.nat_of_ascii c in
  ((48 <=? n) && (n <=? 57) || (65 <=? n) && (n <=? 70) || (97 <=? n) && (n <=? 102))%nat.

(** [Display] of [AddressError], from its [#[error]] attributes. *)
Definition AddressError_to_string (e : AddressError) : string :=
  match e with
  | InvalidPrefix => "address must start with '" +:+ PREFIX +:+ "'"
  | InvalidLength => "address payload must be 40 hex characters"
  | InvalidCharacter => "address contains non-hex character"
  end.

Module Address.
Section address.
Context `{Crypto}.

Definition from_pubkey_bytes (pubkey_bytes : list byte) : Address :=
  let hash := sha256 pubkey_bytes in
  let payload := hex_encode (take 20 hash) in
  mkAddress (PREFIX +:+ payload).

(** Strings are their UTF-8 bytes: a character that is not ASCII has only bytes
    that are no hexadecimal digits, so testing bytes is testing characters. *)
Definition validate (s : string) : Res AddressError Address :=
  if negb (String.prefix PREFIX s) then Err InvalidPrefix
  else
    let payload := String.substring (String.length PREFIX)
                     (String.length s - String.length PREFIX) s in
    if negb (String.length payload =? 40)%nat then Err InvalidLength
    else if existsb (fun c => negb (is_ascii_hexdigit c)) (String.list_ascii_of_string payload)
    then Err InvalidCharacter
    else Ok (mkAddress s).

End address.
End Address.

(** ** Block and transaction identifiers ([types/block.rs], [types/transaction.rs]) *)

Section identifiers.
Context `{Crypto} `{CoreJson}.

(** [Transaction::hash] *)
Definition Transaction_hash (tx : Transaction) : TxHash := sha256d (to_vec tx).

(** [Block::hash]: the signature and the transactions are excluded. *)
Definition Block_hash (b : Block) : BlockHash := sha256d (to_vec (header b)).

(** [layer.chunks(2).map(..)] on a layer of even length.  A trailing chunk of
    one element would make [pair[1]] panic; the caller has padded the layer. *)
Fixpoint merkle_pairs (layer : list BlockHash) : list BlockHash :=
  match layer with
  | l :: r :: layer' => sha256d (l ++ r) :: merkle_pairs layer'
  | _ => []
  end.

(** One iteration of the [while] loop of [compute_merkle_root]. *)
Definition merkle_layer (layer : list BlockHash) : list BlockHash :=
  let padded :=
    if Nat.odd (length layer)
    then match last layer with Some h => layer ++ [h] | None => layer end
    else layer in
  merkle_pairs padded.

(** [while layer.len() > 1], with a bound on the number of iterations. *)
Fixpoint merkle_loop (fuel : nat) (layer : list BlockHash) : list BlockHash :=
  match fuel with
  | O => layer
  | S fuel' =>
      if (1 <? length layer)%nat then merkle_loop fuel' (merkle_layer layer) else layer
  end.

(** [Block::compute_merkle_root]; a layer halves at each iteration, so its
    length bounds their number ([merkle_loop_done]). *)
Definition compute_merkle_root (txs : list Transaction) : BlockHash :=
  match txs with
  | [] => zero_hash
  | _ =>
      let layer := Transaction_hash <$> txs in
      default [] (head (merkle_loop (length layer) layer))
  end.

End identifiers.

(** * Properties of addresses *)

(** ** Strings *)

Lemma string_app_cons c p s : String c p +:+ s = String c (p +:+ s).
Proof. done. Qed.

Lemma string_prefix_app p s : String.prefix p (p +:+ s) = true.
Proof.
  induction p as [|c p IH]; [by destruct s|].
  rewrite string_app_cons. cbn. destruct (Ascii.ascii_dec c c); [apply IH|done].
Qed.

Lemma string_substring_all s : String.substring 0 (String.length s) s = s.
Proof. induction s as [|c s IH]; [done|]. cbn. by rewrite IH. Qed.

Lemma string_substring_app p s :
  String.substring (String.length p) (String.length (p +:+ s) - String.length p) (p +:+ s) = s.
Proof.
  induction p as [|c p IH]; rewrite ?string_app_cons; cbn.
  - rewrite Nat.sub_0_r. apply string_substring_all.
  - apply IH.
Qed.

Lemma string_prefix_inv p s : String.prefix p s = true → ∃ s', s = p +:+ s'.
Proof.
  revert s. induction p as [|c p IH]; intros s Hs; [by exists s|].
  destruct s as [|c' s]; [done|]. cbn in Hs.
  destruct (Ascii.ascii_dec c c') as [<-|]; [|done].
  apply IH in Hs as [s' ->]. by exists s'.
Qed.

Lemma length_string_app s1 s2 :
  String.length (s1 +:+ s2) = (String.length s1 + String.length s2)%nat.
Proof. induction s1; rewrite ?string_app_cons; cbn; auto. Qed.

Lemma existsb_false_Forall {A} (f : A → bool) l :
  existsb (fun x => negb (f x)) l = false ↔ Forall (fun x => f x = true) l.
Proof.
  induction l as [|x l IH]; cbn; [by split|].
  rewrite orb_false_iff, negb_false_iff, IH, Forall_cons. done.
Qed.

Section address_facts.
Context `{Crypto}.

(** The strings [Address::validate] accepts. *)
Definition address_string (s : string) : Prop :=
  ∃ payload, s = PREFIX +:+ payload ∧ String.length payload = 40%nat ∧
    Forall (fun c => is_ascii_hexdigit c = true) (String.list_ascii_of_string payload).

Lemma validate_app payload :
  Address.validate (PREFIX +:+ payload) =
  if negb (String.length payload =? 40)%nat then Err InvalidLength
  else if existsb (fun c => negb (is_ascii_hexdigit c)) (String.list_ascii_of_string payload)
  then Err InvalidCharacter else Ok (mkAddress (PREFIX +:+ payload)).
Proof.
  unfold Address.validate. by rewrite string_prefix_app, string_substring_app.
Qed.

Lemma validate_Ok s a :
  Address.validate s = Ok a ↔ address_string s ∧ a = mkAddress s.
Proof.
  destruct (String.prefix PREFIX s) eqn:Hp.
  - apply string_prefix_inv in Hp as [p ->]. rewrite validate_app. split.
    + destruct (_ =? _)%nat eqn:Hl; [|done]. apply Nat.eqb_eq in Hl.
      destruct (existsb _ _) eqn:He; [done|]. intros [= <-]. split; [|done].
      exists p. by apply existsb_false_Forall in He.
    + intros [(p' & Hpp & Hl & Hd) ->]. apply (inj (String.app PREFIX)) in Hpp as ->.
      rewrite Hl. cbn [negb Nat.eqb]. apply existsb_false_Forall in Hd. by rewrite Hd.
  - unfold Address.validate. rewrite Hp. split; [done|].
    intros [(p & -> & _) _]. by rewrite string_prefix_app in Hp.
Qed.

Lemma hex_digits_ascii bs :
  Forall (fun c => is_ascii_hexdigit c = true) (String.list_ascii_of_string (hex_encode bs)).
Proof.
  eapply Forall_impl; [apply hex_encode_digits|]. intros c Hc.
  repeat (apply elem_of_cons in Hc as [->|Hc]; [reflexivity|]). by apply not_elem_of_nil in Hc.
Qed.

Lemma from_pubkey_bytes_string pk : address_string (as_str (Address.from_pubkey_bytes pk)).
Proof.
  unfold Address.from_pubkey_bytes. cbn [as_str]. eexists. split; [done|]. split.
  - rewrite length_hex_encode, length_take. unfold sha256. by rewrite length_sha256_digest.
  - apply hex_digits_ascii.
Qed.
End address_facts.

(** * Properties of the Merkle root *)

Section merkle.
Context `{Crypto} `{CoreJson}.

Lemma length_sha256d d : length (sha256d d) = 32%nat.
Proof. apply length_sha256_digest. Qed.

(** The layer padded to even length. *)
Definition merkle_pad (layer : list BlockHash) : list BlockHash :=
  if Nat.odd (length layer)
  then match last layer with Some h => layer ++ [h] | None => layer end
  else layer.

Lemma merkle_layer_pad layer : merkle_layer layer = merkle_pairs (merkle_pad layer).
Proof. done. Qed.

Lemma length_merkle_pad layer :
  length (merkle_pad layer) = (length layer + length layer mod 2)%nat.
Proof.
  unfold merkle_pad. rewrite <- Nat.bit0_mod, Nat.bit0_odd.
  destruct (Nat.odd (length layer)) eqn:Ho; cbn [Nat.b2n]; [|lia].
  destruct (last layer) as [h|] eqn:Hl; [by rewrite length_app|].
  apply last_None in Hl as ->. done.
Qed.

Lemma length_merkle_pairs layer : length (merkle_pairs layer) = (length layer / 2)%nat.
Proof.
  induction layer as [layer IH] using (induction_ltof1 _ (@length _)).
  destruct layer as [|l [|r layer]]; [done..|]. cbn [merkle_pairs length].
  rewrite IH by (unfold ltof; simpl; lia).
  replace (S (S (length layer))) with (length layer + 1 * 2)%nat by lia.
  rewrite Nat.div_add by lia. lia.
Qed.

Lemma length_merkle_layer layer :
  length (merkle_layer layer) = ((length layer + 1) / 2)%nat.
Proof.
  rewrite merkle_layer_pad, length_merkle_pairs, length_merkle_pad.
  pose proof (Nat.div_mod_eq (length layer) 2) as Hd.
  pose proof (Nat.mod_upper_bound (length layer) 2 ltac:(lia)) as Hm.
  set (q := (length layer / 2)%nat) in *. set (r := (length layer mod 2)%nat) in *.
  rewrite Hd. replace (2 * q + r + r)%nat with (r + r + q * 2)%nat by lia.
  replace (2 * q + r + 1)%nat with ((r + 1) + q * 2)%nat by lia.
  rewrite !Nat.div_add by lia. destruct r as [|[|]]; [done..|lia].
Qed.

(** The loop ends with one hash: the fuel given is enough. *)
Lemma merkle_loop_done fuel layer :
  layer ≠ [] → (length layer ≤ fuel)%nat → length (merkle_loop fuel layer) = 1%nat.
Proof.
  revert layer. induction fuel as [|fuel IH]; intros layer Hne Hlen.
  - destruct layer; simpl in *; [done|lia].
  - cbn [merkle_loop]. destruct (Nat.ltb_spec 1 (length layer)).
    + pose proof (length_merkle_layer layer) as Hl.
      pose proof (Nat.div_mod_eq (length layer + 1) 2).
      pose proof (Nat.mod_upper_bound (length layer + 1) 2 ltac:(lia)).
      apply IH; [|lia]. intros Hnil. rewrite Hnil in Hl. cbn [length] in Hl. lia.
    + destruct layer; [done|]. simpl in *. lia.
Qed.

(** More fuel changes nothing. *)
Lemma merkle_loop_fuel fuel fuel' layer :
  (length layer ≤ fuel)%nat → (fuel ≤ fuel')%nat →
  merkle_loop fuel' layer = merkle_loop fuel layer.
Proof.
  revert fuel' layer. induction fuel as [|fuel IH]; intros fuel' layer Hlen Hle.
  - destruct layer; simpl in *; [|lia]. by destruct fuel'.
  - destruct fuel' as [|fuel']; [lia|]. cbn [merkle_loop].
    destruct (Nat.ltb_spec 1 (length layer)); [|done].
    pose proof (length_merkle_layer layer).
    pose proof (Nat.div_mod_eq (length layer + 1) 2). apply IH; lia.
Qed.

(** ** What the hashes of a Merkle computation are applied to *)

Fixpoint pair_preimages (layer : list BlockHash) : list (list byte) :=
  match layer with
  | l :: r :: layer' => (l ++ r) :: pair_preimages layer'
  | _ => []
  end.
Fixpoint loop_preimages (fuel : nat) (layer : list BlockHash) : list (list byte) :=
  match fuel with
  | O => []
  | S fuel' =>
      if (1 <? length layer)%nat
      then pair_preimages (merkle_pad layer) ++ loop_preimages fuel' (merkle_layer layer)
      else []
  end.
(** Every byte string [compute_merkle_root] hashes. *)
Definition merkle_preimages (txs : list Transaction) : list (list byte) :=
  (to_vec <$> txs) ++ loop_preimages (length txs) (Transaction_hash <$> txs).

(** [sha256d] is injective on a list of byte strings. *)
Definition no_collision (l : list (list byte)) : Prop :=
  ∀ a b, a ∈ l → b ∈ l → sha256d a = sha256d b → a = b.

#[global] Instance no_collision_proper : Proper ((⊆@{list (list byte)}) --> impl) no_collision.
Proof. intros l l' Hl Hnc a b Ha Hb. apply Hnc; by apply Hl. Qed.

Lemma merkle_pairs_inj l1 l2 :
  no_collision (pair_preimages l1 ++ pair_preimages l2) →
  length l1 = length l2 → Nat.even (length l1) →
  Forall (fun h => length h = 32%nat) l1 → Forall (fun h => length h = 32%nat) l2 →
  merkle_pairs l1 = merkle_pairs l2 → l1 = l2.
Proof.
  revert l2. induction l1 as [l1 IH] using (induction_ltof1 _ (@length _)).
  intros l2 Hnc Hlen Hev H1 H2 Heq.
  destruct l1 as [|a [|b l1]], l2 as [|a' [|b' l2]]; try done.
  cbn [merkle_pairs] in Heq. injection Heq as Hab Hrest.
  apply Forall_cons in H1 as [Ha H1]. apply Forall_cons in H1 as [Hb H1].
  apply Forall_cons in H2 as [Ha' H2]. apply Forall_cons in H2 as [Hb' H2].
  apply Hnc in Hab; [|cbn; set_solver..].
  apply app_inj_1 in Hab as [-> ->]; [|congruence]. do 2 f_equal.
  apply IH; try done.
  - unfold ltof; simpl; lia.
  - intros x y Hx Hy. apply Hnc; cbn; set_solver.
  - simpl in Hlen. lia.
Qed.

Lemma merkle_pad_inj l1 l2 : length l1 = length l2 → merkle_pad l1 = merkle_pad l2 → l1 = l2.
Proof.
  unfold merkle_pad. intros Hlen. rewrite <- Hlen. destruct (Nat.odd (length l1)); [|done].
  destruct (last l1) eqn:E1, (last l2) eqn:E2; try done.
  - intros Heq. by apply app_inj_1 in Heq as [? _].
  - apply last_None in E2 as ->. by destruct l1.
  - apply last_None in E1 as ->. by destruct l2.
Qed.

Lemma merkle_pad_even l : Nat.even (length (merkle_pad l)).
Proof.
  rewrite length_merkle_pad. rewrite <- Nat.bit0_mod, Nat.bit0_odd.
  destruct (Nat.odd (length l)) eqn:Ho; cbn [Nat.b2n].
  - rewrite Nat.add_1_r, Nat.even_succ. by rewrite Ho.
  - rewrite Nat.add_0_r, <- Nat.negb_odd. by rewrite Ho.
Qed.

Lemma Forall_merkle_pad (P : BlockHash → Prop) l : Forall P l → Forall P (merkle_pad l).
Proof.
  intros HP. unfold merkle_pad. destruct (Nat.odd _); [|done].
  destruct (last l) as [h|] eqn:Hl; [|done].
  apply Forall_app. split; [done|]. constructor; [|done].
  rewrite Forall_forall in HP. apply HP. apply last_Some in Hl as [l' ->]. set_solver.
Qed.

Lemma Forall_merkle_layer l : Forall (fun h => length h = 32%nat) (merkle_layer l).
Proof.
  rewrite merkle_layer_pad. generalize (merkle_pad l). clear l.
  intros l. induction l as [l IH] using (induction_ltof1 _ (@length _)).
  destruct l as [|a [|b l]]; cbn; [by constructor..|].
  constructor; [apply length_sha256d|]. apply IH. unfold ltof; simpl; lia.
Qed.

Lemma merkle_loop_inj fuel l1 l2 :
  no_collision (loop_preimages fuel l1 ++ loop_preimages fuel l2) →
  length l1 = length l2 →
  Forall (fun h => length h = 32%nat) l1 → Forall (fun h => length h = 32%nat) l2 →
  merkle_loop fuel l1 = merkle_loop fuel l2 → l1 = l2.
Proof.
  revert l1 l2. induction fuel as [|fuel IH]; intros l1 l2 Hnc Hlen H1 H2 Heq; [done|].
  cbn [merkle_loop loop_preimages] in *. rewrite <- Hlen in *.
  destruct (1 <? length l1)%nat; [|done].
  apply IH in Heq.
  - rewrite !merkle_layer_pad in Heq. apply merkle_pairs_inj in Heq.
    + by apply merkle_pad_inj.
    + intros x y Hx Hy. apply Hnc; set_solver.
    + by rewrite !length_merkle_pad, Hlen.
    + apply merkle_pad_even.
    + by apply Forall_merkle_pad.
    + by apply Forall_merkle_pad.
  - intros x y Hx Hy. apply Hnc; set_solver.
  - by rewrite !length_merkle_layer, Hlen.
  - apply Forall_merkle_layer.
  - apply Forall_merkle_layer.
Qed.

Lemma Transaction_hashes_length l :
  Forall (fun h => length h = 32%nat) (Transaction_hash <$> l).
Proof. apply Forall_fmap, Forall_true. intros. apply length_sha256d. Qed.
End merkle.

(** ** The properties *)

Section properties.
Context `{Crypto} `{CoreJson}.

(** Derived addresses are valid, and validation is exact: the address of any
    public key passes [Address::validate] unchanged, so what a wallet derives is
    accepted by every parser of the system. *)
Theorem from_pubkey_bytes_validates pk :
  Address.validate (as_str (Address.from_pubkey_bytes pk)) = Ok (Address.from_pubkey_bytes pk).
Proof.
  apply validate_Ok. split; [apply from_pubkey_bytes_string|]. by destruct (Address.from_pubkey_bytes pk).
Qed.

(** The Merkle root commits to the transactions: two lists of the same
    length with the same root are the same list, unless the two computations
    hash two different byte strings to the same digest. *)
Theorem merkle_root_binding txs1 txs2 :
  length txs1 = length txs2 →
  no_collision (merkle_preimages txs1 ++ merkle_preimages txs2) →
  compute_merkle_root txs1 = compute_merkle_root txs2 → txs1 = txs2.
Proof.
  intros Hlen Hnc Hroot.
  destruct txs1 as [|t1 txs1], txs2 as [|t2 txs2]; try done.
  unfold compute_merkle_root in Hroot. unfold merkle_preimages in Hnc.
  revert Hlen Hnc Hroot. generalize (t1 :: txs1) (t2 :: txs2)
    (nil_cons (x:=t1) (l:=txs1)) (nil_cons (x:=t2) (l:=txs2)).
  intros l1 l2 Hl1 Hl2 Hlen Hnc Hroot. rewrite !length_fmap in Hroot. rewrite <- Hlen in *.
  assert (Hloop : merkle_loop (length l1) (Transaction_hash <$> l1) =
                  merkle_loop (length l1) (Transaction_hash <$> l2)).
  { pose proof (merkle_loop_done (length l1) (Transaction_hash <$> l1)) as D1.
    pose proof (merkle_loop_done (length l1) (Transaction_hash <$> l2)) as D2.
    rewrite length_fmap in D1, D2. rewrite <- Hlen in D2.
    specialize (D1 ltac:(by destruct l1) ltac:(done)).
    specialize (D2 ltac:(by destruct l2) ltac:(done)).
    destruct (merkle_loop (length l1) (Transaction_hash <$> l1)) as [|a1 [|]],
      (merkle_loop (length l1) (Transaction_hash <$> l2)) as [|a2 [|]]; try done. cbn in Hroot. by rewrite Hroot. }
  apply merkle_loop_inj in Hloop.
  - apply list_eq. intros i. apply (f_equal (.!! i)) in Hloop.
    rewrite !list_lookup_fmap in Hloop.
    destruct (l1 !! i) as [x|] eqn:E1, (l2 !! i) as [y|] eqn:E2; simplify_eq/=; [|done].
    apply Hnc in Hloop; [by apply (inj to_vec) in Hloop as ->|..];
      rewrite !elem_of_app, !list_elem_of_fmap;
      [left; left|right; left]; eexists; split; eauto using list_elem_of_lookup_2.
  - intros x y Hx Hy. apply Hnc; set_solver.
  - by rewrite !length_fmap.
  - apply Transaction_hashes_length.
  - apply Transaction_hashes_length.
Qed.

(** The root does not commit to the number of transactions: repeating the
    last transaction of an odd list of at least two keeps the root, as the
    padding rule the code takes from Bitcoin does there. *)
Theorem merkle_root_duplicate_last l tx :
  Nat.even (length l) → l ≠ [] →
  compute_merkle_root (l ++ [tx; tx]) = compute_merkle_root (l ++ [tx]).
Proof.
  intros Hev Hne. unfold compute_merkle_root.
  assert (Hstep : ∀ n L, (1 < length L)%nat →
      merkle_loop (S n) L = merkle_loop n (merkle_layer L)).
  { intros n L HL. cbn [merkle_loop]. by apply Nat.ltb_lt in HL as ->. }
  destruct l as [|t l]; [done|]. cbn [app].
  change (t :: l ++ [tx; tx]) with ((t :: l) ++ [tx; tx]).
  change (t :: l ++ [tx]) with ((t :: l) ++ [tx]).
  set (L := t :: l) in *. rewrite !fmap_app. cbn [fmap list_fmap].
  set (hs := Transaction_hash <$> L). set (h := Transaction_hash tx).
  assert (Hhs : length hs = length L) by apply length_fmap.
  rewrite !length_app. cbn [length]. rewrite Hhs.
  assert (HL : (1 ≤ length L)%nat) by (simpl; lia).
  assert (Hlayer : merkle_layer (hs ++ [h]) = merkle_layer (hs ++ [h; h])).
  { unfold merkle_layer. rewrite !length_app, Hhs. cbn [length].
    rewrite !Nat.odd_add, <- !Nat.negb_even. rewrite Is_true_true in Hev. rewrite Hev.
    change (xorb (negb true) (negb (Nat.even 1))) with true.
    change (xorb (negb true) (negb (Nat.even 2))) with false.
    by rewrite last_snoc, <- app_assoc. }
  replace (length L + 2)%nat with (S (length L + 1)) by lia.
  rewrite Hstep by (rewrite length_app; simpl; lia). rewrite <- Hlayer.
  replace (length L + 1)%nat with (S (length L)) at 2 by lia.
  rewrite Hstep by (rewrite length_app; simpl; lia). f_equal. f_equal.
  apply merkle_loop_fuel; [|lia]. rewrite length_merkle_layer, length_app, Hhs. cbn [length].
  pose proof (Nat.div_mod_eq (length L + 1 + 1) 2). lia.
Qed.
End properties.
