(* ===== verification/Consensus.v ===== *)
(** * Proposer election ([bcc-core/src/consensus/pos.rs])

    The stake-weighted election, its characterisation as an interval lookup,
    and the proportionality of the number of winning draws to the stake. *)

From S2P Require Import Prelude Bytes Types.

Section election.
Context `{Crypto} `{BuildProfile} {E : Type}.

(** The weighted linear scan: [acc += validator.stake; if pick < acc]. *)
Fixpoint weighted_scan (pick acc : Z) (validators : list Validator) :
    Res E (option Validator) :=
  match validators with
  | [] => Ok None
  | validator :: validators' =>
      acc' ← u64_add acc (stake validator);
      if pick <? acc' then Ok (Some validator) else weighted_scan pick acc' validators'
  end.

(** The point of [0, total_stake) drawn for a slot: the first 8 bytes of
    [sha256d(prev_hash || slot)] as a little-endian integer. *)
Definition election_pick (slot : Z) (prev_hash : BlockHash) (total_stake : Z) : Z :=
  let seed_input := prev_hash ++ to_le_bytes 8 slot in
  let seed := sha256d seed_input in
  from_le_bytes (take 8 seed) `mod` total_stake.

Definition elect_proposer (slot : Z) (prev_hash : BlockHash) (validators : list Validator) :
    Res E (option Validator) :=
  match validators with
  | [] => Ok None
  | _ =>
      total_stake ← u64_sum (stake <$> validators);
      if total_stake =? 0 then Ok None
      else weighted_scan (election_pick slot prev_hash total_stake) 0 validators
  end.

End election.

(** Whether a result names the validator [v]. *)
Definition elects {E} (r : Res E (option Validator)) (v : Validator) : bool :=
  match r with
  | Ok (Some w) => bool_decide (w = v)
  | _ => false
  end.

(** ** Lemmas *)

Lemma elects_iff {E} (r : Res E (option Validator)) v : elects r v ↔ r = Ok (Some v).
Proof.
  destruct r as [[w|]| |]; cbn; try (split; [done|congruence]).
  rewrite bool_decide_spec. split; congruence.
Qed.

(** Filters by predicates that agree on the list are equal. *)
Lemma list_filter_iff' {A} (P Q : A → Prop) `{∀ x, Decision (P x), ∀ x, Decision (Q x)} l :
  Forall (fun x => P x ↔ Q x) l → filter P l = filter Q l.
Proof.
  induction 1 as [|x l Hx Hl IH]; [done|]. rewrite !filter_cons, IH.
  destruct (decide (P x)), (decide (Q x)); tauto.
Qed.

Definition total_stake (vs : list Validator) : Z := sumZ (stake <$> vs).

(** The stakes of an active set: non-negative integers with a sum in range. *)
Definition stakes_ok (vs : list Validator) : Prop :=
  Forall (fun v => 0 ≤ stake v) vs ∧ total_stake vs < 2 ^ 64.

Lemma total_stake_cons v vs : total_stake (v :: vs) = stake v + total_stake vs.
Proof. done. Qed.

Lemma total_stake_nil : total_stake [] = 0.
Proof. done. Qed.

Lemma total_stake_nonneg vs : Forall (fun v => 0 ≤ stake v) vs → 0 ≤ total_stake vs.
Proof. induction 1; rewrite ?total_stake_cons, ?total_stake_nil; lia. Qed.

Lemma stakes_ok_cons v vs : stakes_ok (v :: vs) → 0 ≤ stake v ∧ stakes_ok vs.
Proof.
  intros [[Hv Hvs]%Forall_cons Ht]. split; [done|]. split; [done|].
  rewrite total_stake_cons in Ht. lia.
Qed.

Lemma election_pick_range `{Crypto} slot prev_hash t :
  0 < t → 0 ≤ election_pick slot prev_hash t < t.
Proof. intros. unfold election_pick. by apply Z.mod_pos_bound. Qed.

Section scan.
Context `{BuildProfile} {E : Type}.

(** The scan finds the validator whose segment contains the pick. *)
Lemma weighted_scan_segment pick acc vs :
  0 ≤ acc → acc ≤ pick → Forall (fun v => 0 ≤ stake v) vs →
  acc + total_stake vs < 2 ^ 64 → pick < acc + total_stake vs →
  ∃ i v, vs !! i = Some v ∧ @weighted_scan _ E pick acc vs = Ok (Some v) ∧
    acc + total_stake (take i vs) ≤ pick < acc + total_stake (take i vs) + stake v.
Proof.
  revert acc. induction vs as [|w vs IH]; intros acc Hacc Hle Hvs Hlt Hpick.
  - rewrite total_stake_nil in Hpick. lia.
  - apply Forall_cons in Hvs as [Hw Hvs]. pose proof (total_stake_nonneg _ Hvs).
    rewrite total_stake_cons in *.
    cbn [weighted_scan]. rewrite u64_add_Ok by (unfold u64; lia). cbn.
    destruct (Z.ltb_spec pick (acc + stake w)).
    + exists 0%nat, w. rewrite take_0, total_stake_nil. split; [done|]. split; [done|lia].
    + destruct (IH (acc + stake w)) as (i & v & Hi & -> & Hseg); [lia..|done|lia|lia|].
      exists (S i), v. split; [done|]. split; [done|]. cbn [take].
      rewrite total_stake_cons. lia.
Qed.

(** Segments of distinct positions are disjoint. *)
Lemma segment_unique vs i j v w pick :
  Forall (fun v => 0 ≤ stake v) vs → vs !! i = Some v → vs !! j = Some w →
  total_stake (take i vs) ≤ pick < total_stake (take i vs) + stake v →
  total_stake (take j vs) ≤ pick < total_stake (take j vs) + stake w → i = j.
Proof.
  intros Hvs. revert i j pick. induction vs as [|x vs IH]; intros i j pick Hi Hj; [done|].
  apply Forall_cons in Hvs as [Hx Hvs].
  assert (Hnn : ∀ n, 0 ≤ total_stake (take n vs)).
  { intros n. by apply total_stake_nonneg, Forall_take. }
  assert (Hcons : ∀ n, total_stake (take (S n) (x :: vs)) = stake x + total_stake (take n vs))
    by done.
  destruct i as [|i], j as [|j]; rewrite ?Hcons; cbn in Hi, Hj; simplify_eq.
  - done.
  - specialize (Hnn j). rewrite take_0, total_stake_nil. lia.
  - specialize (Hnn i). rewrite take_0, total_stake_nil. lia.
  - intros H1 H2. f_equal. apply (IH Hvs i j (pick - stake x)); [done..| |]; lia.
Qed.

Lemma weighted_scan_iff pick vs i v :
  NoDup vs → stakes_ok vs → 0 ≤ pick < total_stake vs → vs !! i = Some v →
  @weighted_scan _ E pick 0 vs = Ok (Some v) ↔
  total_stake (take i vs) ≤ pick < total_stake (take i vs) + stake v.
Proof.
  intros Hnd [Hvs Ht] Hpick Hi.
  destruct (weighted_scan_segment pick 0 vs) as (j & w & Hj & Hw & Hseg); [lia..|done|lia|lia|].
  rewrite Hw. split.
  - intros [= ->]. assert (i = j) as -> by by eapply NoDup_lookup. lia.
  - intros Hseg'. assert (i = j) as <- by (eapply segment_unique; eauto; lia). congruence.
Qed.

Lemma elect_proposer_scan `{Crypto} slot prev_hash vs :
  vs ≠ [] → stakes_ok vs → 0 < total_stake vs →
  @elect_proposer _ _ E slot prev_hash vs =
  weighted_scan (election_pick slot prev_hash (total_stake vs)) 0 vs.
Proof.
  intros Hne [Hvs Ht] Hpos. unfold elect_proposer. destruct vs as [|v vs]; [done|].
  rewrite u64_sum_Ok.
  - cbn [mbind Res_bind]. fold (total_stake (v :: vs)).
    destruct (Z.eqb_spec (total_stake (v :: vs)) 0); [lia|done].
  - by apply Forall_fmap.
  - done.
Qed.
End scan.

(** The number of integers of [0, n) that lie in [a, b). *)
Lemma count_segment (n : nat) (a b : Z) :
  0 ≤ a ≤ b →
  Z.of_nat (length (filter (fun p => a ≤ p < b) (seqZ 0 (Z.of_nat n)))) =
  Z.max 0 (Z.min (Z.of_nat n) b - a).
Proof.
  intros Hab. induction n as [|n IH].
  { rewrite seqZ_nil by lia. rewrite filter_nil. cbn [length]. lia. }
  rewrite seqZ_S, filter_app, length_app, Nat2Z.inj_add, IH, filter_cons, filter_nil, Z.add_0_l.
  case_decide; cbn [length]; lia.
Qed.

Lemma total_stake_take vs i v :
  Forall (fun v => 0 ≤ stake v) vs → vs !! i = Some v →
  total_stake (take i vs) + stake v ≤ total_stake vs.
Proof.
  intros Hvs. revert i. induction Hvs as [|w vs Hw Hvs IH]; intros i Hi; [done|].
  destruct i as [|i]; cbn in Hi; cbn [take]; rewrite ?total_stake_cons, ?total_stake_nil.
  - simplify_eq. pose proof (total_stake_nonneg _ Hvs). lia.
  - specialize (IH _ Hi). lia.
Qed.

(** ** The properties *)

Section properties.
Context `{Crypto} `{BuildProfile} {E : Type}.

Lemma elect_proposer_picks slot prev_hash vs :
  stakes_ok vs → 0 < total_stake vs →
  ∃ i v, vs !! i = Some v ∧ 0 < stake v ∧
    @elect_proposer _ _ E slot prev_hash vs = Ok (Some v) ∧
    total_stake (take i vs) ≤ election_pick slot prev_hash (total_stake vs)
      < total_stake (take i vs) + stake v.
Proof.
  intros Hok Hpos. rewrite elect_proposer_scan by (by destruct vs). destruct Hok as [Hvs Ht].
  pose proof (election_pick_range slot prev_hash _ Hpos).
  destruct (weighted_scan_segment (E := E) (election_pick slot prev_hash (total_stake vs)) 0 vs)
    as (i & v & Hi & Hw & Hseg); [lia..|done|lia|lia|].
  exists i, v. split; [done|]. split; [lia|]. split; [done|lia].
Qed.

(** With a positive total stake in range, the election always returns a
    validator of the set with positive stake, the one whose stake segment
    contains the draw; the final [None] of the function is unreachable. *)
Theorem elect_proposer_total slot prev_hash vs :
  stakes_ok vs → 0 < total_stake vs →
  ∃ i v, vs !! i = Some v ∧ 0 < stake v ∧
    @elect_proposer _ _ E slot prev_hash vs = Ok (Some v) ∧
    total_stake (take i vs) ≤ election_pick slot prev_hash (total_stake vs)
      < total_stake (take i vs) + stake v.
Proof. apply elect_proposer_picks. Qed.

(** C25: Elections are proportional to stake: of the [total_stake] possible
    draws, exactly [stake v] elect the validator [v]. *)
Theorem elections_proportional vs v :
  NoDup vs → stakes_ok vs → v ∈ vs →
  Z.of_nat (length (filter (fun pick => elects (@weighted_scan _ E pick 0 vs) v)
                      (seqZ 0 (total_stake vs)))) = stake v.
Proof.
  intros Hnd Hok [i Hi]%list_elem_of_lookup.
  pose proof (total_stake_take vs i v (proj1 Hok) Hi) as Htake.
  assert (Hpos : 0 ≤ total_stake (take i vs)) by apply total_stake_nonneg, Forall_take, Hok.
  assert (Hv : 0 ≤ stake v) by (destruct Hok as [Hf _]; rewrite Forall_lookup in Hf; eauto).
  rewrite (list_filter_iff' _
    (fun p => total_stake (take i vs) ≤ p < total_stake (take i vs) + stake v)).
  - rewrite <- (Z2Nat.id (total_stake vs)) by lia. rewrite count_segment by lia. lia.
  - apply Forall_forall. intros p Hp%elem_of_seqZ. rewrite elects_iff.
    apply weighted_scan_iff; [done..|lia|done].
Qed.

(** Only the stakes decide whether there is a proposer: none for an empty set
    or a zero total, in every build. *)
Theorem elect_proposer_none slot prev_hash vs :
  stakes_ok vs →
  @elect_proposer _ _ E slot prev_hash vs = Ok None ↔ total_stake vs = 0.
Proof.
  intros Hok. pose proof (total_stake_nonneg vs (proj1 Hok)).
  destruct (decide (total_stake vs = 0)) as [Hz|Hz].
  - split; [done|]. intros _. unfold elect_proposer. destruct vs as [|v vs]; [done|].
    rewrite u64_sum_Ok; [|by apply Forall_fmap, Hok|apply Hok].
    cbn [mbind Res_bind]. unfold total_stake in Hz. by rewrite Hz.
  - split; [|done]. intros Hn.
    destruct (elect_proposer_picks slot prev_hash vs) as (i & v & _ & _ & He & _); [done|lia|].
    congruence.
Qed.
End properties.
