(* ===== verification/Encoding.v ===== *)
(** * Maps stored as bytes

    [SledStore] keeps its data in ordered maps from bytes to bytes.  This file
    relates such a map to the typed map it encodes; reading, inserting,
    removing and iterating commute with the encoding. *)

From S2P Require Import Prelude Bytes Types.

Notation bytes_map := (gmap (list byte) (list byte)) (only parsing).

(** [collect::<Result<Vec<_>, _>>()]: stops at the first error. *)
Fixpoint collect_res {E A : Type} (l : list (Res E A)) : Res E (list A) :=
  match l with
  | [] => Ok []
  | r :: l' => a ← r; k ← collect_res l'; Ok (a :: k)
  end.

Lemma collect_res_Ok {E A} (l : list (Res E A)) k : collect_res l = Ok k ↔ l = Ok <$> k.
Proof.
  revert k. induction l as [|r l IH]; intros k; cbn.
  - destruct k; cbn; naive_solver.
  - rewrite res_bind_Ok. setoid_rewrite res_bind_Ok. split.
    + intros (a & -> & k' & ->%IH & [= <-]). done.
    + destruct k as [|a k]; cbn; [done|]. intros [= -> ->]. exists a. split; [done|].
      exists k. by rewrite IH.
Qed.

(** An encoding of the entries of a map: keys that satisfy [codec_key] and all
    values are read back. *)
Record Codec (K V : Type) := mkCodec {
  codec_key : K → Prop;
  enc_key : K → list byte;
  dec_key : list byte → option K;
  enc_val : V → list byte;
  dec_val : list byte → option V;
  dec_enc_key k : codec_key k → dec_key (enc_key k) = Some k;
  dec_enc_val v : dec_val (enc_val v) = Some v;
}.
Arguments codec_key {K V}.
Arguments enc_key {K V}.
Arguments dec_key {K V}.
Arguments enc_val {K V}.
Arguments dec_val {K V}.
Arguments dec_enc_key {K V}.
Arguments dec_enc_val {K V}.

Section encoding.
Context {K V : Type} `{Countable K} (c : Codec K V).
Implicit Types (t : bytes_map) (m : gmap K V) (k : K) (v : V).

(** The entries of a tree that decode. *)
Definition dec_entry (kv : list byte * list byte) : option (K * V) :=
  k ← dec_key c kv.1; v ← dec_val c kv.2; Some (k, v).
Definition decoded t : gmap K V := list_to_map (omap dec_entry (map_to_list t)).

(** The tree [t] holds exactly the encoded entries of [m]. *)
Definition encodes t m : Prop :=
  (∀ k, codec_key c k → t !! enc_key c k = enc_val c <$> m !! k) ∧
  (∀ kb, is_Some (t !! kb) → ∃ k, codec_key c k ∧ kb = enc_key c k) ∧
  (∀ k, is_Some (m !! k) → codec_key c k).
Definition encoded t : Prop := encodes t (decoded t).

Lemma enc_key_inj k k' :
  codec_key c k → codec_key c k' → enc_key c k = enc_key c k' → k = k'.
Proof.
  intros Hk Hk' Heq. apply (f_equal (dec_key c)) in Heq.
  rewrite !dec_enc_key in Heq by done. congruence.
Qed.

Lemma encodes_empty : encodes ∅ ∅.
Proof. split_and!; intros ?; rewrite ?lookup_empty; [done|by intros [??]..]. Qed.

Lemma encodes_insert t m k v :
  codec_key c k → encodes t m → encodes (<[enc_key c k := enc_val c v]> t) (<[k := v]> m).
Proof.
  intros Hk (Hl & Hb & Hm). split_and!.
  - intros k' Hk'. destruct (decide (k = k')) as [<-|Hne]; [by rewrite !lookup_insert_eq|].
    rewrite !lookup_insert_ne; [by apply Hl|done|].
    intros Heq. by apply Hne, enc_key_inj.
  - intros kb. rewrite lookup_insert_is_Some. intros [<-|[_ Hkb]]; eauto.
  - intros k'. rewrite lookup_insert_is_Some. intros [<-|[_ ?]]; auto.
Qed.

Lemma encodes_delete t m k :
  codec_key c k → encodes t m → encodes (delete (enc_key c k) t) (delete k m).
Proof.
  intros Hk (Hl & Hb & Hm). split_and!.
  - intros k' Hk'. destruct (decide (k = k')) as [<-|Hne]; [by rewrite !lookup_delete_eq|].
    rewrite !lookup_delete_ne; [by apply Hl|done|].
    intros Heq. by apply Hne, enc_key_inj.
  - intros kb. rewrite lookup_delete_is_Some. intros [_ ?]; auto.
  - intros k'. rewrite lookup_delete_is_Some. intros [_ ?]; auto.
Qed.

Lemma encodes_lookup t m k :
  codec_key c k → encodes t m → t !! enc_key c k = enc_val c <$> m !! k.
Proof. intros Hk (Hl & _). by apply Hl. Qed.

(** The entries of the tree are the encoded entries of the map. *)
Lemma encodes_to_list t m :
  encodes t m → map_to_list t ≡ₚ prod_map (enc_key c) (enc_val c) <$> map_to_list m.
Proof.
  intros (Hl & Hb & Hm). apply NoDup_Permutation.
  - apply NoDup_map_to_list.
  - apply NoDup_fmap_2_strong; [|apply NoDup_map_to_list].
    intros [k v] [k' v'] Hkv%elem_of_map_to_list Hkv'%elem_of_map_to_list. cbn. intros [= Hk Hv].
    apply enc_key_inj in Hk as <-; [congruence|apply Hm; by eexists..].
  - intros [kb vb]. rewrite elem_of_map_to_list, list_elem_of_fmap. split.
    + intros Hkv. destruct (Hb kb) as (k & Hk & ->); [by eexists|].
      rewrite Hl in Hkv by done. apply fmap_Some in Hkv as (v & Hv & ->).
      exists (k, v). by rewrite elem_of_map_to_list.
    + intros ([k v] & [= -> ->] & Hkv%elem_of_map_to_list). cbn.
      rewrite Hl by (apply Hm; by eexists). by rewrite Hkv.
Qed.

Lemma omap_dec_entry l :
  Forall (fun kv => codec_key c kv.1) l →
  omap dec_entry (prod_map (enc_key c) (enc_val c) <$> l) = l.
Proof.
  induction 1 as [|[k v] l Hk Hl IH]; [done|]. cbn in *. unfold dec_entry at 1. cbn.
  rewrite dec_enc_key, dec_enc_val by done. cbn. by f_equal.
Qed.

Lemma encodes_keys t m : encodes t m → Forall (fun kv => codec_key c kv.1) (map_to_list m).
Proof.
  intros (_ & _ & Hm). apply Forall_forall. intros [k v] Hkv%elem_of_map_to_list.
  apply Hm. by eexists.
Qed.

Lemma encodes_decoded t m : encodes t m → decoded t = m.
Proof.
  intros Hm. unfold decoded. transitivity (list_to_map (map_to_list m) : gmap K V).
  - assert (omap dec_entry (map_to_list t) ≡ₚ map_to_list m) as Hp.
    { rewrite (encodes_to_list _ _ Hm). by rewrite omap_dec_entry by by eapply encodes_keys. }
    apply list_to_map_proper; [|done]. rewrite Hp. apply NoDup_fst_map_to_list.
  - apply list_to_map_to_list.
Qed.

Lemma encodes_encoded t m : encodes t m → encoded t ∧ decoded t = m.
Proof. intros Hm. unfold encoded. by rewrite (encodes_decoded _ _ Hm). Qed.

(** Any listing of the tree is the encoding of a listing of the map. *)
Lemma encoded_listing t l :
  encoded t → l ≡ₚ map_to_list t →
  ∃ l', l = prod_map (enc_key c) (enc_val c) <$> l' ∧ l' ≡ₚ map_to_list (decoded t) ∧
    Forall (fun kv => codec_key c kv.1) l'.
Proof.
  intros Ht Hl. rewrite (encodes_to_list _ _ Ht) in Hl.
  apply Permutation_map_inv in Hl as (l' & -> & Hp).
  exists l'. split_and!; [done|done|]. rewrite <- Hp. by eapply encodes_keys.
Qed.

End encoding.
