(* ===== verification/Store.v ===== *)
(** * Storage interfaces ([bcc-core/src/store/mod.rs])

    The three storage traits as type classes over a store state, the abstract
    ledger that a store represents, and the laws an implementation promises to
    the validation and node code.  [MemoryStore] and [SledStore] are proved to
    satisfy the laws in their own files. *)

From S2P Require Import Prelude Bytes Types.

(** ** The traits *)

Inductive StoreError :=
| NotFound
| Backend (msg : string).

#[global] Instance StoreError_eqdec : EqDecision StoreError.
Proof. solve_decision. Defined.

(** [Display] of [StoreError], from its [#[error]] attributes. *)
Definition StoreError_to_string (e : StoreError) : string :=
  match e with
  | NotFound => "entry not found"
  | Backend msg => "storage backend error: " +:+ msg
  end.

Class BlockStore (S : Type) := {
  get_by_height : Z → S → Res StoreError (option Block);
  get_by_hash : BlockHash → S → Res StoreError (option Block);
  insert_block : Block → ST S StoreError unit;
  tip : S → Res StoreError (option (Z * BlockHash));
  iter_from : Z → S → Res StoreError (list Block);
}.

Class UtxoStore (S : Type) := {
  utxo_get : TxOutRef → S → Res StoreError (option TxOutput);
  apply_block : Block → ST S StoreError unit;
  rollback_block : Block → ST S StoreError unit;
  balance : Address → S → Res StoreError Z;
  list_utxos : Address → S → Res StoreError (list (TxOutRef * TxOutput));
}.

Class ValidatorStore (S : Type) := {
  validator_get : Address → S → Res StoreError (option Validator);
  all_active : Z → S → Res StoreError (list Validator);
  upsert : Validator → ST S StoreError unit;
}.

(** ** The abstract ledger *)

Record Ledger := mkLedger {
  chain : gmap Z Block;
  utxos : gmap TxOutRef TxOutput;
  validators : gmap Address Validator;
}.

Section ledger.
Context `{Crypto} `{CoreJson}.
Implicit Types (u : gmap TxOutRef TxOutput) (tx : Transaction) (b : Block).

(** The reference of the [i]-th output of a transaction ([index as u32]). *)
Definition output_ref (tx : Transaction) (i : nat) : TxOutRef :=
  mkTxOutRef (Transaction_hash tx) (wrap_u32 (Z.of_nat i)).

Definition created_refs (tx : Transaction) : list TxOutRef :=
  output_ref tx <$> seq 0 (length (outputs tx)).
Definition spent_refs (tx : Transaction) : list TxOutRef := out_ref <$> inputs tx.

(** The effect of a transaction on the unspent outputs: its inputs are removed,
    then its outputs are inserted in order. *)
Definition remove_refs (rs : list TxOutRef) (u : gmap TxOutRef TxOutput) :=
  foldl (fun u r => delete r u) u rs.
Definition insert_outputs (kvs : list (TxOutRef * TxOutput)) (u : gmap TxOutRef TxOutput) :=
  foldl (fun u kv => <[kv.1 := kv.2]> u) u kvs.
Definition new_outputs (tx : Transaction) : list (TxOutRef * TxOutput) :=
  zip (created_refs tx) (outputs tx).
Definition ledger_tx (u : gmap TxOutRef TxOutput) (tx : Transaction) :=
  insert_outputs (new_outputs tx) (remove_refs (spent_refs tx) u).
Definition ledger_txs (l : list Transaction) (u : gmap TxOutRef TxOutput) :=
  foldl ledger_tx u l.
Definition ledger_block (b : Block) (u : gmap TxOutRef TxOutput) := ledger_txs (txs b) u.

Definition block_created (b : Block) : list TxOutRef := txs b ≫= created_refs.
Definition block_spent (b : Block) : list TxOutRef := txs b ≫= spent_refs.

(** A transaction that spends distinct existing outputs and creates new ones. *)
Definition tx_applies (tx : Transaction) (u : gmap TxOutRef TxOutput) : Prop :=
  NoDup (created_refs tx) ∧ NoDup (spent_refs tx) ∧
  (∀ r, r ∈ created_refs tx → u !! r = None) ∧
  (∀ r, r ∈ spent_refs tx → is_Some (u !! r)).

(** A sequence of transactions of which each applies after the previous ones;
    a later transaction may spend an output of an earlier one. *)
Fixpoint txs_apply (l : list Transaction) (u : gmap TxOutRef TxOutput) : Prop :=
  match l with
  | [] => True
  | tx :: l' => tx_applies tx u ∧ txs_apply l' (ledger_tx u tx)
  end.

(** Independent transactions: what the transactions of a block validated one
    by one against the unspent outputs before the block are, when the block
    neither spends an output twice nor reuses an output reference. *)
Definition txs_independent (l : list Transaction) (u : gmap TxOutRef TxOutput) : Prop :=
  NoDup (l ≫= created_refs) ∧ NoDup (l ≫= spent_refs) ∧
  (∀ r, r ∈ l ≫= created_refs → u !! r = None) ∧
  (∀ r, r ∈ l ≫= spent_refs → is_Some (u !! r)).
Definition block_applies (b : Block) (u : gmap TxOutRef TxOutput) : Prop :=
  txs_independent (txs b) u.

(** Total amount in circulation, and the balance of an address. *)
Definition supply (u : gmap TxOutRef TxOutput) : Z := map_sum amount u.
Definition balance_of (a : Address) (u : gmap TxOutRef TxOutput) : Z :=
  map_sum (fun o => if decide (out_address o = a) then amount o else 0) u.

(** The byte order on addresses used for the canonical validator order. *)
Definition address_le (a b : Address) : bool :=
  lex_le (String.list_byte_of_string (as_str a)) (String.list_byte_of_string (as_str b)).

(** [validator.active_since <= slot && validator.stake > 0] *)
Definition is_active (slot : Z) (v : Validator) : bool :=
  (active_since v <=? slot) && (0 <? stake v).

(** The highest block of a chain. *)
Definition is_tip (c : gmap Z Block) (h : Z) : Prop :=
  is_Some (c !! h) ∧ ∀ h', is_Some (c !! h') → h' ≤ h.

(** The tip a store reports. *)
Definition tip_of (c : gmap Z Block) (t : option (Z * BlockHash)) : Prop :=
  match t with
  | None => c = ∅
  | Some (h, hash) => is_tip c h ∧ ∃ b, c !! h = Some b ∧ hash = Block_hash b
  end.

(** [bs] are the blocks of a chain from height [h] on, in ascending order. *)
Definition chain_range (c : gmap Z Block) (h : Z) (bs : list Block) : Prop :=
  ∃ l : list (Z * Block), bs = l.*2 ∧ l ≡ₚ filter (fun hb => h ≤ hb.1) (map_to_list c) ∧
    StronglySorted (fun x y => x.1 ≤ y.1) l.

(** Every validator is stored under its address, which its key derives. *)
Definition validators_ok (m : gmap Address Validator) : Prop :=
  map_Forall (fun a v => v_address v = a ∧
    a = Address.from_pubkey_bytes (vk_as_bytes (v_pubkey v))) m.

(** Every block is stored at its height. *)
Definition chain_heights (c : gmap Z Block) : Prop :=
  ∀ h b, c !! h = Some b → height (header b) = h ∧ u64 h.
End ledger.

(** ** What an implementation promises *)

(** The laws of a store [S], stated on the ledger it represents.  [store_ok]
    is the implementation's own invariant, [undoable b u s] says that the store
    remembers how to roll [b] back to the unspent outputs [u]. *)
Class StoreLaws (S : Type) `{Crypto} `{CoreJson} `{!BlockStore S} `{!UtxoStore S}
    `{!ValidatorStore S} := {
  view : S → Ledger;
  store_ok : S → Prop;
  undoable : Block → gmap TxOutRef TxOutput → S → Prop;

  (** The tip is the highest block. *)
  tip_law s t : store_ok s → tip s = Ok t → tip_of (chain (view s)) t;
  height_law s h r : store_ok s → u64 h → get_by_height h s = Ok r → r = chain (view s) !! h;
  get_law s r o : store_ok s → utxo_get r s = Ok o → o = utxos (view s) !! r;
  iter_law s h bs : store_ok s → u64 h → iter_from h s = Ok bs →
    chain_range (chain (view s)) h bs;
  active_law s slot vs : store_ok s → all_active slot s = Ok vs →
    vs ≡ₚ filter (is_active slot) (map_to_list (validators (view s))).*2 ∧
    StronglySorted (fun v w => address_le (v_address v) (v_address w)) vs;

  balance_law s a t : store_ok s → map_Forall (fun _ o => 0 ≤ amount o) (utxos (view s)) →
    balance_of a (utxos (view s)) < 2 ^ 64 → balance a s = Ok t →
    t = balance_of a (utxos (view s));
  list_law s a l : store_ok s → list_utxos a s = Ok l →
    l ≡ₚ filter (fun ro => out_address ro.2 = a) (map_to_list (utxos (view s)));

  (** A validator is registered under the address its key derives, only. *)
  keys_law s : store_ok s → validators_ok (validators (view s));
  upsert_law s v r s' : store_ok s → upsert v s = (r, s') →
    store_ok s' ∧ chain (view s') = chain (view s) ∧ utxos (view s') = utxos (view s) ∧
    (∀ b u, undoable b u s → undoable b u s') ∧
    (r = Ok tt → validators (view s') = <[v_address v := v]> (validators (view s))) ∧
    (validators (view s') = validators (view s) ∨
     validators (view s') = <[v_address v := v]> (validators (view s)) ∧
     v_address v = Address.from_pubkey_bytes (vk_as_bytes (v_pubkey v)));

  (** Storing a block at or above the tip. *)
  insert_law s b r s' : store_ok s → u64 (height (header b)) →
    (∀ h, is_Some (chain (view s) !! h) → h ≤ height (header b)) →
    insert_block b s = (r, s') →
    store_ok s' ∧
    utxos (view s') = utxos (view s) ∧ validators (view s') = validators (view s) ∧
    (∀ b0 u, undoable b0 u s → undoable b0 u s') ∧
    chain (view s') =
      match r with
      | Ok _ => <[height (header b) := b]> (chain (view s))
      | _ => chain (view s)
      end;

  (** Applying a block; an error may be reported after the update. *)
  apply_law s b r s' : store_ok s → u64 (height (header b)) → apply_block b s = (r, s') →
    store_ok s' ∧
    chain (view s') = chain (view s) ∧ validators (view s') = validators (view s) ∧
    (r = Ok tt → utxos (view s') = ledger_block b (utxos (view s))) ∧
    (utxos (view s') = utxos (view s) ∨
     utxos (view s') = ledger_block b (utxos (view s))) ∧
    (r = Ok tt → block_applies b (utxos (view s)) → undoable b (utxos (view s)) s');

  (** Rolling back the tip: its block may be dropped from the chain. *)
  rollback_law s b h r s' : store_ok s → is_tip (chain (view s)) h →
    (0 < h → is_Some (chain (view s) !! (h - 1))) →
    chain (view s) !! h = Some b → u64 h → height (header b) = h →
    rollback_block b s = (r, s') →
    store_ok s' ∧ validators (view s') = validators (view s) ∧
    (chain (view s') = chain (view s) ∨ chain (view s') = delete h (chain (view s))) ∧
    (∀ u, r = Ok tt → undoable b u s → utxos (view s') = u);
}.

(** *** What holds under concurrent callers

    The laws above describe callers that store a block on top of the chain and
    roll back the tip.  Tasks that run at the same time call the operations out
    of order; what a store still promises them: [blocks_safe D s] says that [s]
    holds blocks satisfying [D] only, each at its height, and that the tip it
    reports is the hash of such a block. *)
Class StoreSafety (S : Type) `{StoreLaws S} := {
  blocks_safe : (Block → Prop) → S → Prop;

  safe_intro (D : Block → Prop) s : store_ok s →
    (∀ h b, chain (view s) !! h = Some b → height (header b) = h ∧ u64 h ∧ D b) →
    blocks_safe D s;
  safe_mono (D D' : Block → Prop) s : (∀ b, D b → D' b) → blocks_safe D s → blocks_safe D' s;

  safe_chain D s h b : blocks_safe D s → chain (view s) !! h = Some b →
    height (header b) = h ∧ u64 h ∧ D b;
  safe_tip D s h hash : blocks_safe D s → tip s = Ok (Some (h, hash)) →
    ∃ p, D p ∧ height (header p) = h ∧ Block_hash p = hash;
  safe_height D s h r : blocks_safe D s → u64 h → get_by_height h s = Ok r →
    r = chain (view s) !! h;
  safe_active D s slot vs : blocks_safe D s → all_active slot s = Ok vs →
    vs ≡ₚ filter (is_active slot) (map_to_list (validators (view s))).*2 ∧
    StronglySorted (fun v w => address_le (v_address v) (v_address w)) vs;
  safe_keys D s : blocks_safe D s → validators_ok (validators (view s));

  safe_insert D s b r s' : blocks_safe D s → D b → u64 (height (header b)) →
    insert_block b s = (r, s') →
    blocks_safe D s' ∧ validators (view s') = validators (view s) ∧
    (chain (view s') = chain (view s) ∨
     chain (view s') = <[height (header b) := b]> (chain (view s)));
  safe_apply D s b r s' : blocks_safe D s → u64 (height (header b)) → apply_block b s = (r, s') →
    blocks_safe D s' ∧ validators (view s') = validators (view s) ∧
    chain (view s') = chain (view s);
  safe_rollback D s b r s' : blocks_safe D s → u64 (height (header b)) → rollback_block b s = (r, s') →
    blocks_safe D s' ∧ validators (view s') = validators (view s) ∧
    (chain (view s') = chain (view s) ∨
     chain (view s') = delete (height (header b)) (chain (view s)));
}.
