(* ===== verification/Ledger.v ===== *)
(** * The abstract ledger: effect and value of transactions

    Lemmas on the ledger functions of [Store]: what a transaction does to each
    output, and how it changes the amount in circulation.  The validation and
    storage files build on them. *)

From S2P Require Import Prelude Bytes Types Store.

(** ** Sums over maps *)

Section map_sum.
Context {K A : Type} `{Countable K} (f : A → Z).
Implicit Types m : gmap K A.

Lemma map_sum_empty : map_sum f (∅ : gmap K A) = 0.
Proof. apply map_fold_empty. Qed.

Lemma map_sum_insert m k a :
  m !! k = None → map_sum f (<[k := a]> m) = f a + map_sum f m.
Proof. intros Hk. unfold map_sum. rewrite map_fold_insert_L; [done|lia|done]. Qed.

Lemma map_sum_delete m k a :
  m !! k = Some a → map_sum f (delete k m) = map_sum f m - f a.
Proof.
  intros Hk. rewrite <- (insert_delete_id m k a Hk) at 2.
  rewrite map_sum_insert by apply lookup_delete_eq. lia.
Qed.

Lemma map_sum_nonneg m : map_Forall (fun _ a => 0 ≤ f a) m → 0 ≤ map_sum f m.
Proof.
  induction m as [|k a m Hk IH] using map_ind; intros Hm; [by rewrite map_sum_empty|].
  rewrite map_sum_insert by done. apply map_Forall_insert in Hm as [? ?]; [|done].
  specialize (IH ltac:(done)). lia.
Qed.

(** The sum over the entries in any enumeration. *)
Lemma map_sum_list m l : l ≡ₚ map_to_list m → map_sum f m = sumZ (f <$> l.*2).
Proof.
  revert l. induction m as [|k a m Hk IH] using map_ind; intros l Hl.
  - rewrite map_to_list_empty, Permutation_nil_r in Hl. subst. apply map_sum_empty.
  - rewrite map_to_list_insert in Hl by done. rewrite map_sum_insert by done.
    rewrite (IH (map_to_list m)) by done.
    by rewrite Hl.
Qed.
End map_sum.

(** ** The effect of a transaction *)

Section effect.
Context `{Crypto} `{CoreJson}.
Implicit Types (u : gmap TxOutRef TxOutput) (tx : Transaction).

Lemma lookup_remove_refs rs u r :
  remove_refs rs u !! r = if decide (r ∈ rs) then None else u !! r.
Proof.
  revert u. induction rs as [|r' rs IH]; intros u; cbn.
  - case_decide; [set_solver|done].
  - fold (remove_refs rs (delete r' u)). rewrite IH.
    destruct (decide (r = r')) as [->|].
    + rewrite lookup_delete_eq. repeat case_decide; set_solver.
    + rewrite lookup_delete_ne by done. repeat case_decide; set_solver.
Qed.

Lemma lookup_insert_outputs kvs u r :
  r ∉ kvs.*1 → insert_outputs kvs u !! r = u !! r.
Proof.
  revert u. induction kvs as [|[k v] kvs IH]; intros u Hr; [done|].
  cbn in *. fold (insert_outputs kvs (<[k:=v]> u)).
  rewrite IH by set_solver. apply lookup_insert_ne. set_solver.
Qed.

Lemma lookup_insert_outputs_Some kvs u r v :
  NoDup kvs.*1 → (r, v) ∈ kvs → insert_outputs kvs u !! r = Some v.
Proof.
  revert u. induction kvs as [|[k w] kvs IH]; intros u Hnd Hr; [set_solver|].
  cbn in *. fold (insert_outputs kvs (<[k:=w]> u)).
  apply NoDup_cons in Hnd as [Hk Hnd]. apply elem_of_cons in Hr as [[= <- <-]|Hr].
  - rewrite lookup_insert_outputs by done. apply lookup_insert_eq.
  - by apply IH.
Qed.

Lemma fst_new_outputs tx : (new_outputs tx).*1 = created_refs tx.
Proof.
  unfold new_outputs. apply fst_zip. unfold created_refs. by rewrite length_fmap, length_seq.
Qed.

Lemma snd_new_outputs tx : (new_outputs tx).*2 = outputs tx.
Proof.
  unfold new_outputs. apply snd_zip. unfold created_refs. by rewrite length_fmap, length_seq.
Qed.

(** Enumerating the outputs, as both stores do. *)
Lemma imap_new_outputs tx :
  imap (fun i output => (mkTxOutRef (Transaction_hash tx) (wrap_u32 (Z.of_nat i)), output))
    (outputs tx) = new_outputs tx.
Proof.
  apply list_eq. intros i. unfold new_outputs, created_refs.
  rewrite list_lookup_imap, lookup_zip_with, list_lookup_fmap.
  destruct (outputs tx !! i) as [o|] eqn:Ho; cbn.
  - rewrite lookup_seq_lt by by eapply lookup_lt_Some. done.
  - apply lookup_ge_None in Ho. by rewrite lookup_seq_ge.
Qed.

(** What a transaction leaves at each reference it does not create. *)
Lemma lookup_ledger_tx u tx r :
  r ∉ created_refs tx →
  ledger_tx u tx !! r = if decide (r ∈ spent_refs tx) then None else u !! r.
Proof.
  intros Hr. unfold ledger_tx. rewrite lookup_insert_outputs by by rewrite fst_new_outputs.
  apply lookup_remove_refs.
Qed.

(** The outputs of a transaction are unspent after it. *)
Lemma lookup_ledger_tx_created u tx r o :
  NoDup (created_refs tx) → (r, o) ∈ new_outputs tx → ledger_tx u tx !! r = Some o.
Proof. intros. apply lookup_insert_outputs_Some; by rewrite ?fst_new_outputs. Qed.

Lemma tx_applies_disjoint tx u r :
  tx_applies tx u → r ∈ spent_refs tx → r ∉ created_refs tx.
Proof.
  intros (_ & _ & Hc & Hs) Hr Hr'. apply Hs in Hr as [??]. apply Hc in Hr'. congruence.
Qed.

(** Independent transactions apply in sequence, and none changes what a later
    one spends. *)
Lemma txs_independent_cons tx l u :
  txs_independent (tx :: l) u →
  tx_applies tx u ∧ txs_independent l (ledger_tx u tx) ∧
  (∀ r, r ∈ l ≫= spent_refs → ledger_tx u tx !! r = u !! r).
Proof.
  intros (Hnc & Hns & Hc & Hs). cbn in Hnc, Hns.
  apply NoDup_app in Hnc as (Hnc1 & Hnc2 & Hnc3).
  apply NoDup_app in Hns as (Hns1 & Hns2 & Hns3).
  assert (Happ : tx_applies tx u).
  { split; [done|]. split; [done|]. split; intros r Hr; [apply Hc|apply Hs]; cbn; set_solver. }
  assert (Hkeep : ∀ r, r ∈ l ≫= spent_refs → ledger_tx u tx !! r = u !! r).
  { intros r Hr. assert (is_Some (u !! r)) as [o Ho] by (apply Hs; cbn; set_solver).
    rewrite lookup_ledger_tx.
    - rewrite decide_False; [done|]. intros Hr'. by apply (Hns2 r).
    - intros Hr'. rewrite Hc in Ho by (cbn; set_solver). done. }
  split; [done|]. split; [|done].
  split; [done|]. split; [done|]. split.
  - intros r Hr. rewrite lookup_ledger_tx by (intros Hr'; by apply (Hnc2 r)).
    case_decide; [done|]. apply Hc. cbn. set_solver.
  - intros r Hr. rewrite Hkeep by done. apply Hs. cbn. set_solver.
Qed.

Lemma txs_independent_apply l u : txs_independent l u → txs_apply l u.
Proof.
  revert u. induction l as [|tx l IH]; intros u Hl; [done|].
  apply txs_independent_cons in Hl as (? & ? & _). split; auto.
Qed.

(** What a sequence of transactions leaves at each reference it does not create. *)
Lemma lookup_ledger_txs l u r :
  r ∉ l ≫= created_refs →
  ledger_txs l u !! r = if decide (r ∈ l ≫= spent_refs) then None else u !! r.
Proof.
  revert u. induction l as [|tx l IH]; intros u Hr; cbn in *.
  - by rewrite decide_False by set_solver.
  - fold (ledger_txs l (ledger_tx u tx)). rewrite IH by set_solver.
    rewrite lookup_ledger_tx by set_solver. repeat case_decide; set_solver.
Qed.

(** ** Value *)

(** Sums of a function of the outputs: the amounts, or those of one address. *)
Section sums.
Context (f : TxOutput → Z).

Definition ref_sum (u : gmap TxOutRef TxOutput) (r : TxOutRef) : Z :=
  match u !! r with Some o => f o | None => 0 end.
Definition sum_in (u : gmap TxOutRef TxOutput) (tx : Transaction) : Z :=
  sumZ (ref_sum u <$> spent_refs tx).
Definition sum_out (tx : Transaction) : Z := sumZ (f <$> outputs tx).

Lemma sum_remove_refs rs u :
  NoDup rs → map_sum f (remove_refs rs u) = map_sum f u - sumZ (ref_sum u <$> rs).
Proof.
  revert u. induction rs as [|r rs IH]; intros u Hnd; cbn; [lia|].
  apply NoDup_cons in Hnd as [Hr Hnd]. fold (remove_refs rs (delete r u)). rewrite IH by done.
  assert (ref_sum (delete r u) <$> rs = ref_sum u <$> rs) as ->.
  { apply list_fmap_ext. intros i r' Hr'. unfold ref_sum.
    rewrite lookup_delete_ne; [done|]. intros ->. apply Hr. by eapply list_elem_of_lookup_2. }
  unfold ref_sum at 2. destruct (u !! r) as [o|] eqn:Hu.
  - rewrite (map_sum_delete _ _ _ _ Hu). lia.
  - rewrite delete_id by done. lia.
Qed.

Lemma sum_insert_outputs kvs u :
  NoDup kvs.*1 → (∀ r, r ∈ kvs.*1 → u !! r = None) →
  map_sum f (insert_outputs kvs u) = map_sum f u + sumZ (f <$> kvs.*2).
Proof.
  revert u. induction kvs as [|[k v] kvs IH]; intros u Hnd Hf; cbn in *; [lia|].
  apply NoDup_cons in Hnd as [Hk Hnd]. fold (insert_outputs kvs (<[k:=v]> u)).
  rewrite IH; [|done|].
  - rewrite map_sum_insert by (apply Hf; set_solver). lia.
  - intros r Hr. rewrite lookup_insert_ne by set_solver. apply Hf. set_solver.
Qed.

(** A transaction that applies takes what it spends and adds what it pays. *)
Lemma sum_ledger_tx u tx :
  tx_applies tx u → map_sum f (ledger_tx u tx) = map_sum f u - sum_in u tx + sum_out tx.
Proof.
  intros (Hnc & Hns & Hc & Hs). unfold ledger_tx, sum_in, sum_out.
  rewrite sum_insert_outputs, sum_remove_refs, snd_new_outputs;
    rewrite ?fst_new_outputs; [lia|done..|].
  intros r Hr. rewrite lookup_remove_refs. case_decide; auto.
Qed.

Lemma sum_ledger_txs l u :
  txs_independent l u →
  map_sum f (ledger_txs l u) = map_sum f u - sumZ (sum_in u <$> l) + sumZ (sum_out <$> l).
Proof.
  revert u. induction l as [|tx l IH]; intros u Hl; cbn; [lia|].
  apply txs_independent_cons in Hl as (Htx & Hl & Hkeep).
  fold (ledger_txs l (ledger_tx u tx)). rewrite IH by done. rewrite sum_ledger_tx by done.
  assert (sum_in (ledger_tx u tx) <$> l = sum_in u <$> l) as ->; [|lia].
  apply list_fmap_ext. intros i tx' Htx'. unfold sum_in. f_equal.
  apply list_fmap_ext. intros j r Hr. unfold ref_sum. rewrite Hkeep; [done|].
  apply list_elem_of_bind. exists tx'. split; eauto using list_elem_of_lookup_2.
Qed.
End sums.

(** The amount at a reference, what a transaction spends and what it pays. *)
Definition ref_value (u : gmap TxOutRef TxOutput) (r : TxOutRef) : Z :=
  match u !! r with Some o => amount o | None => 0 end.
Definition value_in (u : gmap TxOutRef TxOutput) (tx : Transaction) : Z :=
  sumZ (ref_value u <$> spent_refs tx).
Definition value_out (tx : Transaction) : Z := sumZ (amount <$> outputs tx).

Lemma supply_insert_outputs kvs u :
  NoDup kvs.*1 → (∀ r, r ∈ kvs.*1 → u !! r = None) →
  supply (insert_outputs kvs u) = supply u + sumZ (amount <$> kvs.*2).
Proof. apply (sum_insert_outputs amount). Qed.

(** A transaction that applies changes the supply by what it pays out. *)
Lemma supply_ledger_tx u tx :
  tx_applies tx u → supply (ledger_tx u tx) = supply u - value_in u tx + value_out tx.
Proof. apply (sum_ledger_tx amount). Qed.

Lemma supply_ledger_txs l u :
  txs_independent l u →
  supply (ledger_txs l u) =
    supply u - sumZ (value_in u <$> l) + sumZ (value_out <$> l).
Proof. apply (sum_ledger_txs amount). Qed.

(** The share of an address in an output. *)
Definition owned_by (a : Address) (o : TxOutput) : Z :=
  if decide (out_address o = a) then amount o else 0.

(** The balance of an address after a sequence of independent transactions:
    what its outputs among the spent ones held goes, what it is paid comes. *)
Lemma balance_ledger_txs a l u :
  txs_independent l u →
  balance_of a (ledger_txs l u) =
    balance_of a u - sumZ (sum_in (owned_by a) u <$> l) + sumZ (sum_out (owned_by a) <$> l).
Proof. apply (sum_ledger_txs (owned_by a)). Qed.
End effect.

(** ** The canonical validator order *)

#[global] Instance address_le_trans : Transitive (fun v w : Validator => address_le (v_address v) (v_address w)).
Proof. intros x y z. unfold address_le. apply lex_le_trans. Qed.

Lemma address_le_antisym a b : address_le a b → address_le b a → a = b.
Proof.
  unfold address_le. intros Hab Hba. pose proof (lex_le_antisym _ _ Hab Hba) as Heq.
  apply (f_equal String.string_of_list_byte) in Heq.
  rewrite !String.string_of_list_byte_of_string in Heq.
  destruct a, b; cbn in Heq; congruence.
Qed.

(** The active validators in canonical order are determined by the registered ones. *)
Lemma active_unique `{Crypto} (m : gmap Address Validator) slot vs ws :
  validators_ok m →
  vs ≡ₚ filter (is_active slot) (map_to_list m).*2 →
  ws ≡ₚ filter (is_active slot) (map_to_list m).*2 →
  StronglySorted (fun v w => address_le (v_address v) (v_address w)) vs →
  StronglySorted (fun v w => address_le (v_address v) (v_address w)) ws →
  vs = ws.
Proof.
  intros Hm Hv Hw Hsv Hsw.
  refine (StronglySorted_unique_strong _ _ _ _ Hsv Hsw _); [|by rewrite Hv, Hw].
  assert (∀ v, v ∈ vs ++ ws → m !! v_address v = Some v) as Hin.
  { intros v. rewrite elem_of_app, Hv, Hw. intros Hin.
    assert (v ∈ (map_to_list m).*2) as ([a v'] & -> & Hav%elem_of_map_to_list)%list_elem_of_fmap.
    { destruct Hin as [Hin|Hin]; by apply list_elem_of_filter in Hin as [_ ?]. }
    cbn. by rewrite (proj1 (Hm _ _ Hav)). }
  intros v w Hv' Hw' H1 H2. pose proof (address_le_antisym _ _ H1 H2) as Heq.
  assert (Some v = Some w) by (rewrite <- (Hin v), <- (Hin w), Heq by set_solver; done).
  congruence.
Qed.

(** ** Balances *)

Lemma amounts_filter (a : Address) (l : list TxOutput) :
  sumZ (amount <$> filter (fun o => out_address o = a) l) =
  sumZ ((fun o => if decide (out_address o = a) then amount o else 0) <$> l).
Proof. induction l as [|o l IH]; [done|]. rewrite filter_cons. cbn. case_decide; cbn; lia. Qed.

(** Any two stores that satisfy the laws and hold the same validators list
    the same active validators in the same order, so the in-memory store and
    the persistent one elect the same proposers. *)
Lemma active_lists_agree `{Crypto} `{CoreJson} {S1 S2 : Type}
    `{!BlockStore S1, !UtxoStore S1, !ValidatorStore S1, !StoreLaws S1}
    `{!BlockStore S2, !UtxoStore S2, !ValidatorStore S2, !StoreLaws S2}
    (s1 : S1) (s2 : S2) (slot : Z) (vs1 vs2 : list Validator) :
  store_ok s1 → store_ok s2 → validators (view s1) = validators (view s2) →
  all_active slot s1 = Ok vs1 → all_active slot s2 = Ok vs2 → vs1 = vs2.
Proof.
  intros Hs1 Hs2 Hv [Hp1 Hsort1]%active_law [Hp2 Hsort2]%active_law; [|done..].
  rewrite <- Hv in Hp2. eapply active_unique; try done. by apply keys_law.
Qed.
