(* ===== verification/Validation.v ===== *)
(** * Validation ([bcc-core/src/validation])

    [validate_transaction] and [validate_block] over the storage interfaces,
    their exact acceptance conditions, the error reported on each branch, and
    what acceptance means for the amount in circulation. *)

From S2P Require Import Prelude Bytes Types Consensus Store Ledger.

(** ** Transactions ([validation/transaction.rs]) *)

Inductive TxValidationError :=
| EmptyOutputs
| ZeroValueOutput (i : nat)
| InputNotFound
| InvalidOwner (i : nat)
| InvalidSignature (i : nat)
| InsufficientFunds (total_in total_out : Z)
| TxStore (e : StoreError).

(** [Display], from the [#[error]] attributes. *)
Definition TxValidationError_to_string (e : TxValidationError) : string :=
  match e with
  | EmptyOutputs => "transaction has no outputs"
  | ZeroValueOutput i => "output at index " +:+ pretty i +:+ " has zero value"
  | InputNotFound => "input references an unknown or already spent UTXO"
  | InvalidOwner i => "input " +:+ pretty i +:+ " pubkey does not match UTXO owner address"
  | InvalidSignature i => "input " +:+ pretty i +:+ " signature is invalid"
  | InsufficientFunds inputs outputs =>
      "sum of inputs (" +:+ pretty inputs +:+ ") is less than sum of outputs ("
      +:+ pretty outputs +:+ ")"
  | TxStore e => "store error: " +:+ StoreError_to_string e
  end.

(** The bytes every input of a transaction signs. *)
Definition tx_signing_bytes `{CoreJson} (tx : Transaction) : list byte :=
  to_vec (mkTxSigningData (kind tx) (out_ref <$> inputs tx) (outputs tx)).

Section transaction.
Context `{Crypto} `{CoreJson} `{BuildProfile} {St : Type} `{!UtxoStore St}.

(** The zero-value loop over [tx.outputs.iter().enumerate()]. *)
Fixpoint check_outputs (i : nat) (os : list TxOutput) : Res TxValidationError unit :=
  match os with
  | [] => Ok tt
  | output :: os' =>
      if amount output =? 0 then Err (ZeroValueOutput i) else check_outputs (S i) os'
  end.

(** The loop over [tx.inputs.iter().enumerate()], accumulating [total_in]. *)
Fixpoint check_inputs (utxo : St) (msg : list byte) (idx : nat) (total_in : Z)
    (ins : list TxInput) : Res TxValidationError Z :=
  match ins with
  | [] => Ok total_in
  | input :: ins' =>
      found ← map_err TxStore (utxo_get (out_ref input) utxo);
      unspent ← ok_or InputNotFound found;
      let expected := Address.from_pubkey_bytes (vk_as_bytes (in_pubkey input)) in
      if bool_decide (out_address unspent ≠ expected) then Err (InvalidOwner idx)
      else
        _ ← map_err (fun _ => InvalidSignature idx)
              (verify (in_pubkey input) msg (in_signature input));
        check_inputs utxo msg (S idx) (saturating_add total_in (amount unspent)) ins'
  end.

Definition validate_transaction (tx : Transaction) (utxo : St) : Res TxValidationError unit :=
  if bool_decide (outputs tx = []) then Err EmptyOutputs
  else
    _ ← check_outputs 0 (outputs tx);
    let msg := tx_signing_bytes tx in
    total_in ← check_inputs utxo msg 0 0 (inputs tx);
    total_out ← u64_sum (amount <$> outputs tx);
    if total_in <? total_out then Err (InsufficientFunds total_in total_out) else Ok tt.

End transaction.

(** ** Blocks ([validation/block.rs]) *)

Inductive BlockValidationError :=
| BadSignature
| ProposerMismatch (expected got : string)
| NoValidators (slot : Z)
| BadParentHash
| BadHeight
| BadTimestamp
| TimestampBeyondSlot (ts slot slot_end : Z)
| InvalidTransaction (msg : string)
| BadMerkleRoot
| BlockStoreError (e : StoreError)
| Serialization (msg : string).

(** [Display], from the [#[error]] attributes. *)
Definition BlockValidationError_to_string (e : BlockValidationError) : string :=
  match e with
  | BadSignature => "block signature is invalid"
  | ProposerMismatch expected got =>
      "proposer mismatch: expected " +:+ expected +:+ ", got " +:+ got
  | NoValidators slot => "no eligible validators for slot " +:+ pretty slot
  | BadParentHash => "parent hash does not match"
  | BadHeight => "block height is not monotonically increasing"
  | BadTimestamp => "block timestamp is before parent timestamp"
  | TimestampBeyondSlot ts slot slot_end =>
      "block timestamp " +:+ pretty ts +:+ " is past the end of slot " +:+ pretty slot
      +:+ " (slot ends at " +:+ pretty slot_end +:+ ")"
  | InvalidTransaction msg => "transaction validation failed: " +:+ msg
  | BadMerkleRoot => "merkle root mismatch"
  | BlockStoreError e => "storage error: " +:+ StoreError_to_string e
  | Serialization msg => "serialization error: " +:+ msg
  end.

Section block.
Context `{Crypto} `{CoreJson} `{BuildProfile}.
Context {SU SV : Type} `{!UtxoStore SU} `{!ValidatorStore SV}.

(** [(slot as i64 + 1) * slot_duration_secs as i64] *)
Definition slot_end_of {E} (slot slot_duration_secs : Z) : Res E Z :=
  next ← i64_add (wrap_i64 slot) 1;
  i64_mul next (wrap_i64 slot_duration_secs).

(** The transaction loop. *)
Fixpoint check_transactions (utxo : SU) (l : list Transaction) :
    Res BlockValidationError unit :=
  match l with
  | [] => Ok tt
  | tx :: l' =>
      _ ← map_err (fun e => InvalidTransaction (TxValidationError_to_string e))
            (validate_transaction tx utxo);
      check_transactions utxo l'
  end.

(** Serialising the header cannot fail, so the [Serialization] error of the
    source is not produced. *)
Definition validate_block (block parent : Block) (utxo : SU) (validators : SV)
    (slot_duration_secs : Z) : Res BlockValidationError unit :=
  next_height ← u64_add (height (header parent)) 1;
  if negb (height (header block) =? next_height) then Err BadHeight
  else if bool_decide (prev_hash (header block) ≠ Block_hash parent) then Err BadParentHash
  else if timestamp (header block) <? timestamp (header parent) then Err BadTimestamp
  else
    slot_end ← slot_end_of (slot (header block)) slot_duration_secs;
    if slot_end <=? timestamp (header block)
    then Err (TimestampBeyondSlot (timestamp (header block)) (slot (header block)) slot_end)
    else
      active ← map_err BlockStoreError (all_active (slot (header block)) validators);
      elected_opt ← elect_proposer (slot (header block)) (Block_hash parent) active;
      elected ← ok_or (NoValidators (slot (header block))) elected_opt;
      if bool_decide (v_address elected ≠ proposer (header block))
      then Err (ProposerMismatch (as_str (v_address elected)) (as_str (proposer (header block))))
      else
        let header_bytes := to_vec (header block) in
        _ ← map_err (fun _ => BadSignature)
              (verify (v_pubkey elected) header_bytes (block_signature block));
        let computed := compute_merkle_root (txs block) in
        if bool_decide (merkle_root (header block) ≠ computed) then Err BadMerkleRoot
        else check_transactions utxo (txs block).

End block.

(** ** Lemmas on transactions *)

Section transaction_facts.
Context `{Crypto} `{CoreJson} `{BuildProfile} {St : Type} `{!UtxoStore St}.
Implicit Types (utxo : St) (msg : list byte) (input : TxInput).

(** An input that passes: it exists, its key owns it, its signature is valid. *)
Definition input_ok utxo msg input (o : TxOutput) : Prop :=
  utxo_get (out_ref input) utxo = Ok (Some o) ∧
  out_address o = Address.from_pubkey_bytes (vk_as_bytes (in_pubkey input)) ∧
  verify (in_pubkey input) msg (in_signature input) = Ok tt.

(** The error the [i]-th input is rejected with. *)
Inductive input_rejected utxo msg (i : nat) input : TxValidationError → Prop :=
| rejected_store e :
    utxo_get (out_ref input) utxo = Err e →
    input_rejected utxo msg i input (TxStore e)
| rejected_not_found :
    utxo_get (out_ref input) utxo = Ok None →
    input_rejected utxo msg i input InputNotFound
| rejected_owner o :
    utxo_get (out_ref input) utxo = Ok (Some o) →
    out_address o ≠ Address.from_pubkey_bytes (vk_as_bytes (in_pubkey input)) →
    input_rejected utxo msg i input (InvalidOwner i)
| rejected_signature o e :
    utxo_get (out_ref input) utxo = Ok (Some o) →
    out_address o = Address.from_pubkey_bytes (vk_as_bytes (in_pubkey input)) →
    verify (in_pubkey input) msg (in_signature input) = Err e →
    input_rejected utxo msg i input (InvalidSignature i).

Lemma check_outputs_Ok i os :
  check_outputs i os = Ok tt ↔ Forall (fun o => amount o ≠ 0) os.
Proof.
  revert i. induction os as [|o os IH]; intros i; cbn; [by split|].
  rewrite Forall_cons. destruct (Z.eqb_spec (amount o) 0); [naive_solver|].
  rewrite IH. naive_solver.
Qed.

Lemma check_outputs_Err i os e :
  check_outputs i os = Err e ↔
  ∃ k o, os !! k = Some o ∧ amount o = 0 ∧ e = ZeroValueOutput (i + k) ∧
    Forall (fun o => amount o ≠ 0) (take k os).
Proof.
  revert i. induction os as [|o os IH]; intros i; cbn; [naive_solver|].
  destruct (Z.eqb_spec (amount o) 0) as [Ho|Ho].
  - split.
    + intros [= <-]. exists 0%nat, o. rewrite Nat.add_0_r, take_0. done.
    + intros ([|k] & o' & Hk & Hz & -> & Hf); [by rewrite Nat.add_0_r|].
      cbn in Hf. by apply Forall_cons in Hf as [? _].
  - rewrite IH. split.
    + intros (k & o' & Hk & Hz & -> & Hf). exists (S k), o'. rewrite Nat.add_succ_r.
      split; [done|]. split; [done|]. split; [done|]. by constructor.
    + intros ([|k] & o' & Hk & Hz & -> & Hf); cbn in Hk; [simplify_eq|].
      exists k, o'. rewrite Nat.add_succ_r. apply Forall_cons in Hf as [_ ?]. done.
Qed.

Lemma check_inputs_step utxo msg idx t input ins o :
  input_ok utxo msg input o →
  check_inputs utxo msg idx t (input :: ins) =
  check_inputs utxo msg (S idx) (saturating_add t (amount o)) ins.
Proof.
  intros (Hget & Haddr & Hver). cbn [check_inputs]. rewrite Hget. cbn.
  rewrite bool_decide_false by (intros Hn; by apply Hn). by rewrite Hver.
Qed.

(** Every input either passes, is rejected, or is one on which a call panics. *)
Lemma input_cases utxo msg idx t input ins :
  (∃ o, input_ok utxo msg input o) ∨
  (∃ e, input_rejected utxo msg idx input e ∧
     check_inputs utxo msg idx t (input :: ins) = Err e) ∨
  ((∀ o, ¬ input_ok utxo msg input o) ∧
     check_inputs utxo msg idx t (input :: ins) = Panic).
Proof.
  cbn [check_inputs]. destruct (utxo_get (out_ref input) utxo) as [[o|]|e|] eqn:Hg; cbn.
  - case_bool_decide as Ha.
    + right; left. eexists. split; [by eapply rejected_owner|done].
    + destruct (verify (in_pubkey input) msg (in_signature input)) as [[]|e|] eqn:Hv; cbn.
      * left. by exists o.
      * right; left. eexists. split; [by eapply rejected_signature|done].
      * right; right. split; [|done]. intros o' (_ & _ & ?). congruence.
  - right; left. eexists. split; [by eapply rejected_not_found|done].
  - right; left. eexists. split; [by eapply rejected_store|done].
  - right; right. split; [|done]. intros o' (? & _ & _). congruence.
Qed.

Lemma input_ok_not_rejected utxo msg i input o e :
  input_ok utxo msg input o → ¬ input_rejected utxo msg i input e.
Proof. intros (?&?&?) Hr. destruct Hr; congruence. Qed.

Lemma check_inputs_Ok utxo msg idx t ins t' :
  check_inputs utxo msg idx t ins = Ok t' ↔
  ∃ os, Forall2 (input_ok utxo msg) ins os ∧ t' = foldl saturating_add t (amount <$> os).
Proof.
  revert idx t. induction ins as [|input ins IH]; intros idx t.
  - cbn. split; [intros [= <-]; by exists []|].
    intros (os & Hos & ->). by apply Forall2_nil_inv_l in Hos as ->.
  - destruct (input_cases utxo msg idx t input ins) as [[o Ho]|[(e & Hr & He)|[Hno He]]].
    + rewrite (check_inputs_step _ _ _ _ _ _ o), IH by done. split.
      * intros (os & Hos & ->). exists (o :: os). split; [by constructor|done].
      * intros (os & Hos & ->). apply Forall2_cons_inv_l in Hos as (o' & os' & Ho' & Hos & ->).
        assert (o' = o) as -> by (destruct Ho, Ho'; congruence). by exists os'.
    + rewrite He. split; [done|]. intros (os & Hos & _).
      apply Forall2_cons_inv_l in Hos as (o' & os' & Ho' & _).
      exfalso. by eapply input_ok_not_rejected.
    + rewrite He. split; [done|]. intros (os & Hos & _).
      apply Forall2_cons_inv_l in Hos as (o' & os' & Ho' & _). by apply Hno in Ho'.
Qed.

Lemma check_inputs_Err utxo msg idx t ins e :
  check_inputs utxo msg idx t ins = Err e ↔
  ∃ pre input post os, ins = pre ++ input :: post ∧ Forall2 (input_ok utxo msg) pre os ∧
    input_rejected utxo msg (idx + length pre) input e.
Proof.
  revert idx t. induction ins as [|input ins IH]; intros idx t.
  - cbn. split; [done|]. by intros ([] & ? & ? & ? & ? & _).
  - destruct (input_cases utxo msg idx t input ins) as [[o Ho]|[(e' & Hr & He)|[Hno He]]].
    + rewrite (check_inputs_step _ _ _ _ _ _ o), IH by done. split.
      * intros (pre & i & post & os & -> & Hos & Hr). exists (input :: pre), i, post, (o :: os).
        cbn [length]. rewrite Nat.add_succ_r. split; [done|]. split; [by constructor|done].
      * intros ([|x pre] & i & post & os & Heq & Hos & Hr); cbn in Heq; simplify_eq.
        { exfalso. by eapply input_ok_not_rejected. }
        apply Forall2_cons_inv_l in Hos as (o' & os' & Ho' & Hos & ->).
        exists pre, i, post, os'. cbn in Hr. rewrite Nat.add_succ_r in Hr. done.
    + rewrite He. split.
      * intros [= <-]. exists [], input, ins, []. rewrite Nat.add_0_r. by split_and!.
      * intros ([|x pre] & i & post & os & Heq & Hos & Hr'); cbn in Heq; simplify_eq.
        { f_equal. rewrite Nat.add_0_r in Hr'. destruct Hr, Hr'; congruence. }
        apply Forall2_cons_inv_l in Hos as (o' & os' & Ho' & _).
        exfalso. by eapply input_ok_not_rejected.
    + rewrite He. split; [done|].
      intros ([|x pre] & i & post & os & Heq & Hos & Hr'); cbn in Heq; simplify_eq.
      * cbn [check_inputs] in He. destruct Hr' as [? Hg|Hg|? Hg|? ? Hg Ha Hv];
          rewrite Hg in He; cbn in He; try done; case_bool_decide; try done; try congruence.
        by rewrite Hv in He.
      * apply Forall2_cons_inv_l in Hos as (o' & os' & Ho' & _). by apply Hno in Ho'.
Qed.
End transaction_facts.

(** The rejections of [validate_transaction], in the order of its checks. *)
Inductive tx_rejected `{Crypto} `{CoreJson} `{BuildProfile} {St} `{!UtxoStore St}
    (utxo : St) (tx : Transaction) : TxValidationError → Prop :=
| reject_empty : outputs tx = [] → tx_rejected utxo tx EmptyOutputs
| reject_zero k o :
    outputs tx !! k = Some o → amount o = 0 →
    Forall (fun o => amount o ≠ 0) (take k (outputs tx)) →
    tx_rejected utxo tx (ZeroValueOutput k)
| reject_input pre input post spent e :
    outputs tx ≠ [] → Forall (fun o => amount o ≠ 0) (outputs tx) →
    inputs tx = pre ++ input :: post →
    Forall2 (input_ok utxo (tx_signing_bytes tx)) pre spent →
    input_rejected utxo (tx_signing_bytes tx) (length pre) input e →
    tx_rejected utxo tx e
| reject_funds spent total_out :
    outputs tx ≠ [] → Forall (fun o => amount o ≠ 0) (outputs tx) →
    Forall2 (input_ok utxo (tx_signing_bytes tx)) (inputs tx) spent →
    u64_sum (E := TxValidationError) (amount <$> outputs tx) = Ok total_out →
    sat_sum (amount <$> spent) < total_out →
    tx_rejected utxo tx (InsufficientFunds (sat_sum (amount <$> spent)) total_out).

(** ** Lemmas on blocks *)

Section block_facts.
Context `{Crypto} `{CoreJson} `{BuildProfile}.
Context {SU SV : Type} `{!UtxoStore SU} `{!ValidatorStore SV}.

(** The acceptance conditions of a block, in the order they are checked. *)
Record block_valid (block parent : Block) (utxo : SU) (vals : SV) (d : Z) : Prop := {
  bv_height : u64_add (E := BlockValidationError) (height (header parent)) 1
              = Ok (height (header block));
  bv_parent : prev_hash (header block) = Block_hash parent;
  bv_after : timestamp (header parent) ≤ timestamp (header block);
  bv_slot : ∃ slot_end, slot_end_of (E := BlockValidationError) (slot (header block)) d
              = Ok slot_end ∧ timestamp (header block) < slot_end;
  bv_proposer : ∃ active elected,
    all_active (slot (header block)) vals = Ok active ∧
    elect_proposer (E := BlockValidationError) (slot (header block)) (Block_hash parent) active
      = Ok (Some elected) ∧
    v_address elected = proposer (header block) ∧
    verify (v_pubkey elected) (to_vec (header block)) (block_signature block) = Ok tt;
  bv_merkle : merkle_root (header block) = compute_merkle_root (txs block);
  bv_txs : Forall (fun tx => validate_transaction tx utxo = Ok tt) (txs block);
}.

Lemma check_transactions_Ok utxo l :
  check_transactions (SU := SU) utxo l = Ok tt ↔
  Forall (fun tx => validate_transaction tx utxo = Ok tt) l.
Proof.
  induction l as [|tx l IH]; cbn; [by split|]. rewrite Forall_cons, <- IH.
  destruct (validate_transaction tx utxo) as [[]| |]; cbn; naive_solver.
Qed.
End block_facts.

(** ** The properties *)

Section properties.
Context `{Crypto} `{CoreJson} `{BuildProfile}.

Lemma validate_transaction_spec {St} `{!UtxoStore St} (tx : Transaction) (utxo : St) :
  validate_transaction tx utxo = Ok tt ↔
  outputs tx ≠ [] ∧ Forall (fun o => amount o ≠ 0) (outputs tx) ∧
  ∃ spent total_out,
    Forall2 (input_ok utxo (tx_signing_bytes tx)) (inputs tx) spent ∧
    u64_sum (E := TxValidationError) (amount <$> outputs tx) = Ok total_out ∧
    total_out ≤ sat_sum (amount <$> spent).
Proof.
  unfold validate_transaction. case_bool_decide as Hne; [naive_solver|].
  split.
  - intros ([] & Hco & Hrest)%res_bind_Ok. apply check_outputs_Ok in Hco.
    apply res_bind_Ok in Hrest as (ti & (os & Hos & ->)%check_inputs_Ok & Hrest).
    apply res_bind_Ok in Hrest as (to & Hto & Hrest).
    destruct (Z.ltb_spec (foldl saturating_add 0 (amount <$> os)) to); [done|].
    split; [done|]. split; [done|]. by exists os, to.
  - intros (_ & Hz & os & to & Hos & Hto & Hle).
    apply (check_outputs_Ok 0) in Hz as ->. cbn.
    rewrite (proj2 (check_inputs_Ok utxo (tx_signing_bytes tx) 0 0 (inputs tx)
      (sat_sum (amount <$> os)))) by (exists os; done). cbn.
    rewrite Hto. cbn. destruct (Z.ltb_spec (sat_sum (amount <$> os)) to); [lia|done].
Qed.

(** C11: [validate_transaction] accepts exactly the transactions with at least
    one output, no zero output, all of whose inputs refer to an existing output
    owned by the signing key with a valid signature, and whose (saturated)
    input total covers the output total. *)
Theorem validate_transaction_iff {St} `{!UtxoStore St} (tx : Transaction) (utxo : St) :
  validate_transaction tx utxo = Ok tt ↔
  outputs tx ≠ [] ∧ Forall (fun o => amount o ≠ 0) (outputs tx) ∧
  ∃ spent total_out,
    Forall2 (input_ok utxo (tx_signing_bytes tx)) (inputs tx) spent ∧
    u64_sum (E := TxValidationError) (amount <$> outputs tx) = Ok total_out ∧
    total_out ≤ sat_sum (amount <$> spent).
Proof. apply validate_transaction_spec. Qed.

(** When a transaction is rejected, the error names the first offence in the
    order of the checks: the first zero output, else the first bad input (and
    whether it is unknown, not owned, or wrongly signed), else the shortfall. *)
Theorem validate_transaction_rejects {St} `{!UtxoStore St} (tx : Transaction) (utxo : St) e :
  validate_transaction tx utxo = Err e ↔ tx_rejected utxo tx e.
Proof.
  unfold validate_transaction. split.
  - case_bool_decide as Hne; [intros [= <-]; by constructor|].
    intros [(k & o & Hk & Ho & -> & Hf)%check_outputs_Err
           |([] & Hz%check_outputs_Ok & Hrest)]%res_bind_Err; [by eapply reject_zero|].
    apply res_bind_Err in Hrest as [(pre & i & post & os & ? & ? & ?)%check_inputs_Err
           |(ti & (os & Hos & ->)%check_inputs_Ok & Hrest)]; [by eapply reject_input|].
    apply res_bind_Err in Hrest as [Hs|(to & Hto & Hrest)]; [by apply u64_sum_not_Err in Hs|].
    fold (sat_sum (amount <$> os)) in Hrest.
    destruct (Z.ltb_spec (sat_sum (amount <$> os)) to); simplify_eq.
    by apply reject_funds.
  - intros Hr. case_bool_decide as Hne.
    { destruct Hr; try done. by rewrite Hne in *. }
    destruct Hr as [|k o Hk Ho Hf|pre i post os e _ Hz Hins Hos Hr|os to _ Hz Hos Hto Hlt].
    + done.
    + by rewrite (proj2 (check_outputs_Err 0 _ (ZeroValueOutput k))) by (exists k, o; done).
    + apply (check_outputs_Ok 0) in Hz as ->. cbn [mbind Res_bind].
      by rewrite (proj2 (check_inputs_Err utxo _ 0 0 (inputs tx) e)) by (exists pre, i, post, os; done).
    + apply (check_outputs_Ok 0) in Hz as ->. cbn [mbind Res_bind].
      rewrite (proj2 (check_inputs_Ok utxo _ 0 0 (inputs tx) (sat_sum (amount <$> os))))
        by (exists os; done). cbn [mbind Res_bind].
      rewrite Hto. cbn [mbind Res_bind]. by apply Z.ltb_lt in Hlt as ->.
Qed.

Lemma validate_block_spec {SU SV} `{!UtxoStore SU} `{!ValidatorStore SV}
    (block parent : Block) (utxo : SU) (vals : SV) (d : Z) :
  validate_block block parent utxo vals d = Ok tt ↔ block_valid block parent utxo vals d.
Proof.
  unfold validate_block. split.
  - intros (nh & Hnh & Hrest)%res_bind_Ok.
    destruct (Z.eqb_spec (height (header block)) nh) as [<-|]; [|done]. cbn [negb] in Hrest.
    case_bool_decide as Hp; [done|].
    destruct (Z.ltb_spec (timestamp (header block)) (timestamp (header parent))); [done|].
    apply res_bind_Ok in Hrest as (se & Hse & Hrest).
    destruct (Z.leb_spec se (timestamp (header block))); [done|].
    apply res_bind_Ok in Hrest as (act & Hact%map_err_Ok & Hrest).
    apply res_bind_Ok in Hrest as (el & Hel & Hrest).
    apply res_bind_Ok in Hrest as (v & ->%ok_or_Ok & Hrest).
    case_bool_decide as Hv; [done|].
    apply res_bind_Ok in Hrest as ([] & Hver%map_err_Ok & Hrest).
    case_bool_decide as Hm; [done|].
    apply check_transactions_Ok in Hrest. split; eauto 10.
  - intros [Hh Hp Ha (se & Hse & Hts) (act & v & Hact & Hel & Hv & Hver) Hm Htxs].
    rewrite Hh. cbn [mbind Res_bind]. rewrite Z.eqb_refl. cbn [negb].
    rewrite bool_decide_false by (intros Hn; by apply Hn).
    rewrite (proj2 (Z.ltb_ge _ _)) by lia. rewrite Hse. cbn [mbind Res_bind].
    rewrite (proj2 (Z.leb_gt _ _)) by lia. rewrite Hact. cbn [map_err mbind Res_bind].
    rewrite Hel. cbn [mbind Res_bind ok_or].
    rewrite bool_decide_false by (intros Hn; by apply Hn). rewrite Hver. cbn [map_err mbind Res_bind].
    rewrite bool_decide_false by (intros Hn; by apply Hn). by apply check_transactions_Ok.
Qed.

(** C2: [validate_block] accepts exactly the blocks that extend the parent's
    height and hash, are not older than it, carry a timestamp before the end of
    their slot, are proposed and signed by the elected validator, commit to
    their transactions, and whose transactions are each valid against the
    unspent outputs before the block. *)
Theorem validate_block_iff {SU SV} `{!UtxoStore SU} `{!ValidatorStore SV}
    (block parent : Block) (utxo : SU) (vals : SV) (d : Z) :
  validate_block block parent utxo vals d = Ok tt ↔ block_valid block parent utxo vals d.
Proof. apply validate_block_spec. Qed.
End properties.

(** ** Value: what acceptance means for the amount in circulation *)

(** A transfer that names the output [r] twice as its input and pays out twice
    its amount. *)
Definition double_input_tx `{Crypto} `{CoreJson} (sk : SigningKey) (r : TxOutRef)
    (a : Z) (to : Address) : Transaction :=
  let outs := [mkTxOutput (2 * a) to] in
  let msg := to_vec (mkTxSigningData Transfer [r; r] outs) in
  let input := mkTxInput r (sign sk msg) (verifying_key sk) in
  mkTransaction Transfer [input; input] outs.

(** A transfer without inputs whose two outputs add up to 2^64. *)
Definition overflow_tx (to : Address) : Transaction :=
  mkTransaction Transfer [] [mkTxOutput (2 ^ 63) to; mkTxOutput (2 ^ 63) to].

Section value.
Context {S : Type} `{StoreLaws S} `{BuildProfile}.

Lemma valid_tx_value (s : S) tx :
  store_ok s → validate_transaction tx s = Ok tt →
  overflow_checks = true ∨ (Forall (fun o => 0 ≤ amount o) (outputs tx) ∧ value_out tx < 2 ^ 64) →
  value_out tx ≤ value_in (utxos (view s)) tx ∧
  (∀ r, r ∈ spent_refs tx → is_Some (utxos (view s) !! r)).
Proof.
  intros Hs (_ & _ & os & to & Hos & Hto & Hle)%validate_transaction_spec Hrange.
  assert (to = value_out tx) as ->.
  { destruct Hrange as [Hc|[Hnn Hlt]].
    - by apply (u64_sum_checked _ _ Hc) in Hto as [-> _].
    - rewrite u64_sum_Ok in Hto; [by simplify_eq|by apply Forall_fmap|done]. }
  assert (Hin : ∀ i inp o, inputs tx !! i = Some inp → os !! i = Some o →
      utxos (view s) !! out_ref inp = Some o).
  { intros i inp o Hi Ho. destruct (Forall2_lookup_lr _ _ _ _ _ _ Hos Hi Ho) as [Hg _].
    symmetry. by eapply get_law. }
  assert (amount <$> os = ref_value (utxos (view s)) <$> spent_refs tx) as Heq.
  { unfold spent_refs. rewrite <- list_fmap_compose.
    apply list_eq. intros i. rewrite !list_lookup_fmap.
    destruct (inputs tx !! i) as [inp|] eqn:Hi.
    - destruct (Forall2_lookup_l _ _ _ _ _ Hos Hi) as (o & Ho & _). rewrite Ho. cbn.
      unfold ref_value. by rewrite (Hin _ _ _ Hi Ho).
    - apply lookup_ge_None in Hi. rewrite (Forall2_length _ _ _ Hos) in Hi.
      by apply lookup_ge_None in Hi as ->. }
  split.
  - unfold value_in. rewrite <- Heq. pose proof (sat_sum_le (amount <$> os)). lia.
  - intros r [inp [-> [i Hi]%list_elem_of_lookup]]%list_elem_of_fmap.
    destruct (Forall2_lookup_l _ _ _ _ _ Hos Hi) as (o & Ho & _). by rewrite (Hin _ _ _ Hi Ho).
Qed.

(** C12: No inflation: a block accepted against the current unspent outputs, that
    spends no output twice and creates fresh references, does not increase the
    amount in circulation.  The exactness of the output sums is either checked
    by the build or assumed. *)
Theorem valid_block_no_inflation (s : S) {SV} `{!ValidatorStore SV} (vals : SV) block parent d :
  store_ok s → validate_block block parent s vals d = Ok tt →
  overflow_checks = true ∨ (∀ tx, tx ∈ txs block →
    Forall (fun o => 0 ≤ amount o) (outputs tx) ∧ value_out tx < 2 ^ 64) →
  NoDup (block_created block) → NoDup (block_spent block) →
  (∀ r, r ∈ block_created block → utxos (view s) !! r = None) →
  supply (ledger_block block (utxos (view s))) ≤ supply (utxos (view s)).
Proof.
  intros Hs Hv%validate_block_spec Hrange Hnc Hns Hf. apply bv_txs in Hv.
  rewrite Forall_forall in Hv.
  assert (Htx : ∀ tx, tx ∈ txs block → value_out tx ≤ value_in (utxos (view s)) tx ∧
      (∀ r, r ∈ spent_refs tx → is_Some (utxos (view s) !! r))).
  { intros tx Htx. apply valid_tx_value; [done|by apply Hv|]. naive_solver. }
  unfold ledger_block. rewrite supply_ledger_txs.
  - assert (sumZ (value_out <$> txs block) ≤ sumZ (value_in (utxos (view s)) <$> txs block));
      [|lia].
    clear -Htx. induction (txs block) as [|tx l IH]; [done|]. cbn.
    destruct (Htx tx) as [? _]; [set_solver|].
    specialize (IH ltac:(intros; apply Htx; set_solver)). lia.
  - split; [done|]. split; [done|]. split; [done|].
    intros r (tx & Hr & Htx')%list_elem_of_bind. by eapply (Htx tx).
Qed.

(** A transaction may name the same output twice: such a transfer of twice
    the output's amount is accepted, and applying it creates the amount anew. *)
Theorem duplicate_input_inflates (s : S) sk r o to :
  store_ok s → utxo_get r s = Ok (Some o) →
  out_address o = Address.from_pubkey_bytes (vk_as_bytes (verifying_key sk)) →
  0 < amount o → 2 * amount o < 2 ^ 64 →
  let tx := double_input_tx sk r (amount o) to in
  validate_transaction tx s = Ok tt ∧
  (utxos (view s) !! output_ref tx 0 = None →
   supply (ledger_tx (utxos (view s)) tx) = supply (utxos (view s)) + amount o).
Proof.
  intros Hs Hg Ha Hpos Hlt tx. split.
  - apply validate_transaction_spec. split; [done|]. split.
    { constructor; [cbn; lia|constructor]. }
    exists [o; o], (2 * amount o). split; [|split].
    + assert (Hok : input_ok s (tx_signing_bytes tx)
          (mkTxInput r (sign sk (tx_signing_bytes tx)) (verifying_key sk)) o).
      { split; [done|]. split; [done|]. unfold verify. cbn [in_pubkey in_signature].
        by rewrite verify_sign. }
      by repeat (constructor; [exact Hok|]).
    + cbn. rewrite u64_add_Ok by (unfold u64; lia). done.
    + rewrite sat_sum_exact; cbn; [lia|repeat constructor; lia|lia].
  - intros Hfresh. assert (utxos (view s) !! r = Some o) as Hr.
    { symmetry. by eapply get_law. }
    unfold ledger_tx. rewrite supply_insert_outputs.
    + rewrite snd_new_outputs.
      change (spent_refs tx) with [r; r]. change (remove_refs [r; r] (utxos (view s))) with
        (delete r (delete r (utxos (view s)))). rewrite delete_delete_eq.
      unfold supply. rewrite (map_sum_delete _ _ _ _ Hr). cbn. lia.
    + rewrite fst_new_outputs. cbn. apply NoDup_singleton.
    + rewrite fst_new_outputs. intros r' Hr'. cbn in Hr'. apply list_elem_of_singleton in Hr' as ->.
      rewrite lookup_remove_refs. by case_decide.
Qed.

(** Without overflow checks, as in the release build, a transfer with no
    input at all is accepted by every store when its outputs add up to 2^64,
    and applying it creates 2^64 units. *)
Theorem unchecked_overflow_mints (s : S) to :
  overflow_checks = false →
  validate_transaction (overflow_tx to) s = Ok tt ∧
  ((∀ r, r ∈ created_refs (overflow_tx to) → utxos (view s) !! r = None) →
   supply (ledger_tx (utxos (view s)) (overflow_tx to)) = supply (utxos (view s)) + 2 ^ 64).
Proof.
  intros Hoc. split.
  - apply validate_transaction_spec. split; [done|]. split; [by repeat constructor|].
    exists [], 0. split; [constructor|]. split; [|done].
    cbn. rewrite u64_add_Ok by done. cbn. unfold u64_add, arith_u64.
    rewrite decide_False by (unfold u64; lia). by rewrite Hoc.
  - intros Hfresh. rewrite supply_ledger_tx.
    + unfold value_in, value_out. cbn [overflow_tx inputs outputs spent_refs fmap list_fmap sumZ]. cbn. lia.
    + split; [|split; [constructor|split; [done|]]].
      * cbn. repeat constructor; [|set_solver].
        intros Hin%list_elem_of_singleton. by injection Hin.
      * cbn. set_solver.
Qed.
End value.
