(* ===== verification/MemoryStore.v ===== *)
(** * The in-memory store ([bcc-core/src/store/memory.rs])

    [MemoryStore] with its three trait implementations, the round trip of
    [apply_block] and [rollback_block], the independence of [all_active] from
    hash iteration order, and the proof that it satisfies the storage laws. *)

From S2P Require Import Prelude Bytes Types Store Ledger.

(** ** State

    The fields without their [RwLock]s: no code of the source panics while it
    holds one of the write locks, so they are never poisoned and [lock_err] is
    not reached. *)
Record MemoryStore := mkMemoryStore {
  ms_blocks : gmap Z Block;
  ms_index : gmap BlockHash Z;
  ms_utxo : gmap TxOutRef TxOutput;
  ms_spent : gmap Z (list (TxOutRef * TxOutput));
  ms_validators : gmap Address Validator;
}.

Module MemoryStore.

(** [MemoryStore::new] *)
Definition new : MemoryStore := mkMemoryStore ∅ ∅ ∅ ∅ ∅.

(** The entries of a [BTreeMap<u64, _>] in key order. *)
Definition key_le {A} (x y : Z * A) : Prop := x.1 ≤ y.1.
#[global] Instance key_le_dec {A} (x y : Z * A) : Decision (key_le x y).
Proof. unfold key_le. apply _. Defined.
Definition btree_iter {A} (m : gmap Z A) : list (Z * A) := merge_sort key_le (map_to_list m).

Section operations.
Context `{Crypto} `{CoreJson} `{BuildProfile} `{HashOrder} `{UnstableSort}.

(** *** [impl BlockStore for MemoryStore] *)

Definition get_by_height (h : Z) (s : MemoryStore) : Res StoreError (option Block) :=
  Ok (ms_blocks s !! h).

Definition get_by_hash (hash : BlockHash) (s : MemoryStore) : Res StoreError (option Block) :=
  Ok (h ← ms_index s !! hash; ms_blocks s !! h).

Definition insert (block : Block) : ST MemoryStore StoreError unit :=
  let hash := Block_hash block in
  let h := height (header block) in
  _ ← modifies (fun s => mkMemoryStore (<[h := block]> (ms_blocks s)) (ms_index s)
                  (ms_utxo s) (ms_spent s) (ms_validators s));
  modifies (fun s => mkMemoryStore (ms_blocks s) (<[hash := h]> (ms_index s))
              (ms_utxo s) (ms_spent s) (ms_validators s)).

Definition tip (s : MemoryStore) : Res StoreError (option (Z * BlockHash)) :=
  Ok ((fun hb => (hb.1, Block_hash hb.2)) <$> last (btree_iter (ms_blocks s))).

Definition iter_from (h : Z) (s : MemoryStore) : Res StoreError (list Block) :=
  Ok (filter (fun hb => h ≤ hb.1) (btree_iter (ms_blocks s))).*2.

(** *** [impl UtxoStore for MemoryStore] *)

Definition get (r : TxOutRef) (s : MemoryStore) : Res StoreError (option TxOutput) :=
  Ok (ms_utxo s !! r).

(** The unspent outputs and the outputs the block has spent so far. *)
Definition apply_input (acc : gmap TxOutRef TxOutput * list (TxOutRef * TxOutput))
    (input : TxInput) : gmap TxOutRef TxOutput * list (TxOutRef * TxOutput) :=
  let '(utxo, block_spent) := acc in
  match utxo !! out_ref input with
  | Some prev_out => (delete (out_ref input) utxo, block_spent ++ [(out_ref input, prev_out)])
  | None => (utxo, block_spent)
  end.
Definition apply_tx (acc : gmap TxOutRef TxOutput * list (TxOutRef * TxOutput))
    (tx : Transaction) : gmap TxOutRef TxOutput * list (TxOutRef * TxOutput) :=
  let hash := Transaction_hash tx in
  let '(utxo, block_spent) := foldl apply_input acc (inputs tx) in
  (foldl (fun u kv => <[kv.1 := kv.2]> u) utxo
     (imap (fun i output => (mkTxOutRef hash (wrap_u32 (Z.of_nat i)), output)) (outputs tx)),
   block_spent).

Definition apply_block (block : Block) : ST MemoryStore StoreError unit :=
  modifies (fun s =>
    let '(utxo, block_spent) := foldl apply_tx (ms_utxo s, []) (txs block) in
    mkMemoryStore (ms_blocks s) (ms_index s) utxo
      (<[height (header block) := block_spent]> (ms_spent s)) (ms_validators s)).

(** Deletes the outputs a transaction created. *)
Definition undo_tx (utxo : gmap TxOutRef TxOutput) (tx : Transaction) : gmap TxOutRef TxOutput :=
  let hash := Transaction_hash tx in
  foldl (fun u i => delete (mkTxOutRef hash (wrap_u32 (Z.of_nat i))) u) utxo
    (seq 0 (length (outputs tx))).

Definition rollback_block (block : Block) : ST MemoryStore StoreError unit :=
  modifies (fun s =>
    let utxo := foldl undo_tx (ms_utxo s) (reverse (txs block)) in
    match ms_spent s !! height (header block) with
    | Some restored =>
        mkMemoryStore (ms_blocks s) (ms_index s)
          (foldl (fun u kv => <[kv.1 := kv.2]> u) utxo restored)
          (delete (height (header block)) (ms_spent s)) (ms_validators s)
    | None =>
        mkMemoryStore (ms_blocks s) (ms_index s) utxo (ms_spent s) (ms_validators s)
    end).

Definition balance (a : Address) (s : MemoryStore) : Res StoreError Z :=
  u64_sum (amount <$> filter (fun o => out_address o = a) (hash_iter (ms_utxo s)).*2).

Definition list_utxos (a : Address) (s : MemoryStore) :
    Res StoreError (list (TxOutRef * TxOutput)) :=
  Ok (filter (fun ro => out_address ro.2 = a) (hash_iter (ms_utxo s))).

(** *** [impl ValidatorStore for MemoryStore] *)

Definition validator_get (a : Address) (s : MemoryStore) : Res StoreError (option Validator) :=
  Ok (ms_validators s !! a).

Definition all_active (slot : Z) (s : MemoryStore) : Res StoreError (list Validator) :=
  let active := filter (is_active slot) (hash_iter (ms_validators s)).*2 in
  Ok (sort_unstable (fun a b => address_le (v_address a) (v_address b)) active).

Definition upsert (v : Validator) : ST MemoryStore StoreError unit :=
  let expected := Address.from_pubkey_bytes (vk_as_bytes (v_pubkey v)) in
  if bool_decide (v_address v ≠ expected)
  then throw (Backend ("validator address " +:+ as_str (v_address v)
                +:+ " does not match pubkey (expected " +:+ as_str expected +:+ ")"))
  else modifies (fun s => mkMemoryStore (ms_blocks s) (ms_index s) (ms_utxo s) (ms_spent s)
                   (<[v_address v := v]> (ms_validators s))).

End operations.
End MemoryStore.

#[global] Instance memory_block_store `{Crypto} `{CoreJson} : BlockStore MemoryStore := {|
  get_by_height := MemoryStore.get_by_height;
  get_by_hash := MemoryStore.get_by_hash;
  insert_block := MemoryStore.insert;
  tip := MemoryStore.tip;
  iter_from := MemoryStore.iter_from;
|}.

#[global] Instance memory_utxo_store `{Crypto} `{CoreJson} `{BuildProfile} `{HashOrder} :
    UtxoStore MemoryStore := {|
  utxo_get := MemoryStore.get;
  apply_block := MemoryStore.apply_block;
  rollback_block := MemoryStore.rollback_block;
  balance := MemoryStore.balance;
  list_utxos := MemoryStore.list_utxos;
|}.

#[global] Instance memory_validator_store `{Crypto} `{HashOrder} `{UnstableSort} :
    ValidatorStore MemoryStore := {|
  validator_get := MemoryStore.validator_get;
  all_active := MemoryStore.all_active;
  upsert := MemoryStore.upsert;
|}.

(** ** Lemmas on the block map *)

Section btree.
Context {A : Type}.
Implicit Types m : gmap Z A.

#[global] Instance key_le_trans : Transitive (@MemoryStore.key_le A).
Proof. intros x y z. unfold MemoryStore.key_le. lia. Qed.
#[global] Instance key_le_total : Total (@MemoryStore.key_le A).
Proof. intros x y. unfold MemoryStore.key_le. lia. Qed.

Lemma btree_iter_perm m : MemoryStore.btree_iter m ≡ₚ map_to_list m.
Proof. apply merge_sort_Permutation. Qed.

Lemma btree_iter_sorted m : StronglySorted MemoryStore.key_le (MemoryStore.btree_iter m).
Proof. apply StronglySorted_merge_sort; apply _. Qed.

Lemma elem_of_btree_iter m k a : (k, a) ∈ MemoryStore.btree_iter m ↔ m !! k = Some a.
Proof. rewrite btree_iter_perm. apply elem_of_map_to_list. Qed.

Lemma StronglySorted_last (l : list (Z * A)) x y :
  StronglySorted MemoryStore.key_le l → last l = Some x → y ∈ l → y.1 ≤ x.1.
Proof.
  intros Hs [l' ->]%last_Some. apply StronglySorted_app in Hs as (Hlt & _ & _).
  rewrite elem_of_app, list_elem_of_singleton. intros [Hy| ->]; [|lia].
  apply (Hlt y x); [done|set_solver].
Qed.

Lemma btree_last m :
  match last (MemoryStore.btree_iter m) with
  | None => m = ∅
  | Some (k, a) => m !! k = Some a ∧ ∀ k', is_Some (m !! k') → k' ≤ k
  end.
Proof.
  destruct (last (MemoryStore.btree_iter m)) as [[k a]|] eqn:Hl.
  - split.
    + apply elem_of_btree_iter. apply last_Some in Hl as [l' ->]. set_solver.
    + intros k' [a' Ha']. apply elem_of_btree_iter in Ha'.
      apply (StronglySorted_last _ (k, a) (k', a') (btree_iter_sorted m) Hl Ha').
  - apply last_None in Hl. apply map_eq. intros k. rewrite lookup_empty.
    destruct (m !! k) as [a|] eqn:Hk; [|done]. apply elem_of_btree_iter in Hk.
    rewrite Hl in Hk. by apply not_elem_of_nil in Hk.
Qed.

Lemma btree_range m h :
  filter (fun hb : Z * A => h ≤ hb.1) (MemoryStore.btree_iter m) ≡ₚ
    filter (fun hb => h ≤ hb.1) (map_to_list m).
Proof. by rewrite btree_iter_perm. Qed.
End btree.

(** ** Lemmas on applying and rolling back *)

Section undo.
Context `{Crypto} `{CoreJson}.
Implicit Types (u : gmap TxOutRef TxOutput).

(** The outputs captured while a list of references, or of transactions, is spent. *)
Fixpoint captured_refs u (rs : list TxOutRef) : list (TxOutRef * TxOutput) :=
  match rs with
  | [] => []
  | r :: rs' =>
      match u !! r with
      | Some o => (r, o) :: captured_refs (delete r u) rs'
      | None => captured_refs u rs'
      end
  end.
Fixpoint captured_txs u (l : list Transaction) : list (TxOutRef * TxOutput) :=
  match l with
  | [] => []
  | tx :: l' => captured_refs u (spent_refs tx) ++ captured_txs (ledger_tx u tx) l'
  end.

Lemma apply_inputs_eq u sp ins :
  foldl MemoryStore.apply_input (u, sp) ins =
  (remove_refs (out_ref <$> ins) u, sp ++ captured_refs u (out_ref <$> ins)).
Proof.
  revert u sp. induction ins as [|i ins IH]; intros u sp; cbn [foldl fmap list_fmap].
  - by rewrite app_nil_r.
  - cbn [captured_refs]. unfold MemoryStore.apply_input at 2.
    change (remove_refs (out_ref i :: (out_ref <$> ins)) u)
      with (remove_refs (out_ref <$> ins) (delete (out_ref i) u)).
    destruct (u !! out_ref i) as [o|] eqn:Hu; rewrite IH.
    + by rewrite <- app_assoc.
    + by rewrite delete_id by done.
Qed.

Lemma apply_tx_eq u sp tx :
  MemoryStore.apply_tx (u, sp) tx = (ledger_tx u tx, sp ++ captured_refs u (spent_refs tx)).
Proof.
  unfold MemoryStore.apply_tx. rewrite apply_inputs_eq. by rewrite imap_new_outputs.
Qed.

Lemma apply_txs_eq u sp l :
  foldl MemoryStore.apply_tx (u, sp) l = (ledger_txs l u, sp ++ captured_txs u l).
Proof.
  revert u sp. induction l as [|tx l IH]; intros u sp; cbn [foldl captured_txs].
  - by rewrite app_nil_r.
  - rewrite apply_tx_eq, IH. by rewrite <- app_assoc.
Qed.

Lemma captured_refs_spec u rs :
  NoDup rs → (∀ r, r ∈ rs → is_Some (u !! r)) →
  (captured_refs u rs).*1 = rs ∧ ∀ r o, (r, o) ∈ captured_refs u rs → u !! r = Some o.
Proof.
  revert u. induction rs as [|r rs IH]; intros u Hnd Hs; cbn; [split; [done|set_solver]|].
  apply NoDup_cons in Hnd as [Hr Hnd].
  destruct (Hs r) as [o Ho]; [set_solver|]. rewrite Ho.
  destruct (IH (delete r u)) as [Hfst Hin]; [done| |].
  { intros r' Hr'. rewrite lookup_delete_ne by set_solver. apply Hs. set_solver. }
  split; [by cbn; rewrite Hfst|].
  intros r' o' [[= -> ->]|Hin']%elem_of_cons; [done|].
  apply Hin in Hin'. by apply lookup_delete_Some in Hin' as [_ ?].
Qed.

Lemma captured_txs_spec u l :
  txs_independent l u →
  (captured_txs u l).*1 = l ≫= spent_refs ∧
  ∀ r o, (r, o) ∈ captured_txs u l → u !! r = Some o.
Proof.
  revert u. induction l as [|tx l IH]; intros u Hl; cbn; [split; [done|set_solver]|].
  apply txs_independent_cons in Hl as ((_ & Hns & _ & Hs) & Hl & Hkeep).
  destruct (captured_refs_spec u (spent_refs tx) Hns Hs) as [Hf1 Hi1].
  destruct (IH _ Hl) as [Hf2 Hi2].
  split; [by rewrite fmap_app, Hf1, Hf2|].
  intros r o [Hin|Hin]%elem_of_app; [auto|]. rewrite <- Hkeep; [auto|].
  rewrite <- Hf2. apply list_elem_of_fmap. by exists (r, o).
Qed.

Lemma undo_tx_eq u tx : MemoryStore.undo_tx u tx = remove_refs (created_refs tx) u.
Proof.
  unfold MemoryStore.undo_tx, created_refs, remove_refs, output_ref.
  generalize (seq 0 (length (outputs tx))). intros l. revert u.
  induction l as [|i l IH]; intros u; cbn; auto.
Qed.

Lemma lookup_undo_txs u l r :
  foldl MemoryStore.undo_tx u l !! r =
  if decide (r ∈ l ≫= created_refs) then None else u !! r.
Proof.
  revert u. induction l as [|tx l IH]; intros u; cbn.
  - by rewrite decide_False by set_solver.
  - rewrite IH, undo_tx_eq, lookup_remove_refs. repeat case_decide; set_solver.
Qed.

Lemma elem_of_reverse_bind {A B} (f : A → list B) l x :
  x ∈ reverse l ≫= f ↔ x ∈ l ≫= f.
Proof. rewrite !list_elem_of_bind. by setoid_rewrite elem_of_reverse. Qed.

(** What rolling back leaves, from the unspent outputs and the captured ones. *)
Definition rolled_back (b : Block) (u : gmap TxOutRef TxOutput)
    (sp : option (list (TxOutRef * TxOutput))) : gmap TxOutRef TxOutput :=
  insert_outputs (default [] sp) (foldl MemoryStore.undo_tx u (reverse (txs b))).

Lemma rolled_back_applied b u :
  block_applies b u → rolled_back b (ledger_block b u) (Some (captured_txs u (txs b))) = u.
Proof.
  intros Hb. destruct (captured_txs_spec _ _ Hb) as [Hfst Hin].
  destruct Hb as (Hnc & Hns & Hc & Hs).
  apply map_eq. intros r. unfold rolled_back.
  change (default [] (Some (captured_txs u (txs b)))) with (captured_txs u (txs b)).
  destruct (decide (r ∈ txs b ≫= spent_refs)) as [Hr|Hr].
  - rewrite <- Hfst in Hr. apply list_elem_of_fmap in Hr as ([r' o] & -> & Hro). cbn.
    rewrite (Hin _ _ Hro). apply lookup_insert_outputs_Some; [by rewrite Hfst|done].
  - rewrite lookup_insert_outputs by by rewrite Hfst.
    rewrite lookup_undo_txs. case_decide as Hcr; rewrite elem_of_reverse_bind in Hcr.
    + symmetry. by apply Hc.
    + unfold ledger_block. rewrite lookup_ledger_txs by done. by rewrite decide_False.
Qed.
End undo.

(** ** The storage laws *)

Section laws.
Context `{Crypto} `{CoreJson} `{BuildProfile} `{HashOrder} `{UnstableSort}.
Implicit Types (s : MemoryStore).

Definition memory_view (s : MemoryStore) : Ledger :=
  mkLedger (ms_blocks s) (ms_utxo s) (ms_validators s).
Definition memory_ok (s : MemoryStore) : Prop := validators_ok (ms_validators s).
Definition memory_undoable (b : Block) (u : gmap TxOutRef TxOutput) (s : MemoryStore) : Prop :=
  rolled_back b (ms_utxo s) (ms_spent s !! height (header b)) = u.

Lemma memory_tip s t : MemoryStore.tip s = Ok t → tip_of (ms_blocks s) t.
Proof.
  unfold MemoryStore.tip. intros [= <-]. pose proof (btree_last (ms_blocks s)) as Hl.
  destruct (last _) as [[h b]|]; cbn; [|done]. destruct Hl as [Hb Hmax].
  split; [split; [by eexists|done]|by exists b].
Qed.

Lemma memory_iter_from s h bs :
  MemoryStore.iter_from h s = Ok bs → chain_range (ms_blocks s) h bs.
Proof.
  unfold MemoryStore.iter_from. intros [= <-]. eexists. split; [done|]. split.
  - apply btree_range.
  - apply StronglySorted_filter, btree_iter_sorted.
Qed.

Lemma memory_all_active s slot vs :
  MemoryStore.all_active slot s = Ok vs →
  vs ≡ₚ filter (is_active slot) (map_to_list (ms_validators s)).*2 ∧
  StronglySorted (fun v w => address_le (v_address v) (v_address w)) vs.
Proof.
  unfold MemoryStore.all_active. intros [= <-]. split.
  - by rewrite sort_unstable_perm, hash_iter_perm.
  - apply (sort_unstable_sorted (fun v w => address_le (v_address v) (v_address w))).
    + intros v w. apply lex_le_total.
    + intros v w x. apply lex_le_trans.
Qed.

Lemma memory_balance_sum s a :
  sumZ (amount <$> filter (fun o => out_address o = a) (hash_iter (ms_utxo s)).*2) =
  balance_of a (ms_utxo s).
Proof.
  rewrite amounts_filter. unfold balance_of. symmetry. apply map_sum_list, hash_iter_perm.
Qed.

Lemma memory_balance s a :
  map_Forall (fun _ o => 0 ≤ amount o) (ms_utxo s) → balance_of a (ms_utxo s) < 2 ^ 64 →
  MemoryStore.balance a s = Ok (balance_of a (ms_utxo s)).
Proof.
  intros Hpos Hlt. rewrite <- memory_balance_sum in *. apply u64_sum_Ok; [|done].
  apply Forall_fmap, Forall_forall. intros o [_ Ho]%list_elem_of_filter.
  apply list_elem_of_fmap in Ho as ([r o'] & -> & Hro). cbn.
  rewrite hash_iter_perm, elem_of_map_to_list in Hro. by apply Hpos in Hro.
Qed.

Lemma memory_upsert s v r s' :
  memory_ok s → MemoryStore.upsert v s = (r, s') →
  memory_ok s' ∧ ms_blocks s' = ms_blocks s ∧ ms_utxo s' = ms_utxo s ∧
  ms_spent s' = ms_spent s ∧
  ms_validators s' = match r with
    | Ok _ => <[v_address v := v]> (ms_validators s)
    | _ => ms_validators s
    end.
Proof.
  intros Hs. unfold MemoryStore.upsert. case_bool_decide as Hv; intros [= <- <-]; [done|].
  split; [|done]. unfold memory_ok. cbn. apply map_Forall_insert_2; [|done].
  by split.
Qed.

#[global] Program Instance memory_laws : StoreLaws MemoryStore := {|
  view := memory_view;
  store_ok := memory_ok;
  undoable := memory_undoable;
|}.
Next Obligation. intros s t _. apply memory_tip. Qed.
Next Obligation. by intros s h r _ _ [= <-]. Qed.
Next Obligation. by intros s r o _ [= <-]. Qed.
Next Obligation. intros s h bs _ _. apply memory_iter_from. Qed.
Next Obligation. intros s slot vs _. apply memory_all_active. Qed.
Next Obligation.
  intros s a t _ Hpos Hlt. cbn. rewrite memory_balance by done. by intros [= <-].
Qed.
Next Obligation. intros s a l _ [= <-]. cbn. by rewrite hash_iter_perm. Qed.
Next Obligation. done. Qed.
Next Obligation.
  intros s v r s' Hs Hu. destruct (memory_upsert s v r s' Hs Hu) as (? & ? & Hut & Hsp & ?).
  split_and!; try done.
  - intros b u. unfold memory_undoable. by rewrite Hut, Hsp.
  - by intros ->.
  - cbn in *. unfold MemoryStore.upsert in Hu.
    case_bool_decide as Hv; injection Hu as <- <-; cbn; auto.
Qed.
Next Obligation. by intros s b r s' Hs _ _ [= <- <-]. Qed.
Next Obligation.
  intros s b r s' Hs _. cbn. unfold MemoryStore.apply_block, modifies.
  rewrite apply_txs_eq. intros [= <- <-]. cbn. split_and!; try done; [by right|].
  intros _ Hb. unfold memory_undoable. cbn. rewrite lookup_insert_eq.
  by apply rolled_back_applied.
Qed.
Next Obligation.
  intros s b h r s' Hs _ _ _ _ _. cbn. unfold MemoryStore.rollback_block, modifies.
  intros [= <- <-]. split_and!.
  - by destruct (ms_spent s !! _).
  - by destruct (ms_spent s !! _).
  - left. by destruct (ms_spent s !! _).
  - intros u _ <-. unfold memory_undoable, rolled_back. by destruct (ms_spent s !! _).
Qed.

(** *** Concurrent callers *)

Definition memory_safe (D : Block → Prop) (s : MemoryStore) : Prop :=
  memory_ok s ∧
  ∀ h b, chain (memory_view s) !! h = Some b → height (header b) = h ∧ u64 h ∧ D b.

#[global] Program Instance memory_safety : StoreSafety MemoryStore := {|
  blocks_safe := memory_safe;
|}.
Next Obligation. done. Qed.
Next Obligation. intros D D' s HD [Hs Hc]. split; [done|]. intros h b Hb. destruct (Hc _ _ Hb) as (? & ? & ?). auto. Qed.
Next Obligation. intros D s h b [_ Hc]. apply Hc. Qed.
Next Obligation.
  intros D s h hash [_ Hc] (_ & b & Hb & ->)%memory_tip. destruct (Hc _ _ Hb) as (<- & _ & HD). by exists b.
Qed.
Next Obligation. by intros D s h r _ _ [= <-]. Qed.
Next Obligation. intros D s slot vs _. apply memory_all_active. Qed.
Next Obligation. by intros D s []. Qed.
Next Obligation.
  intros D s b r s' [Hs Hc] HD Hu [= <- <-]. split_and!; [|done|by right]. split; [done|].
  intros h b' Hb'. cbn in Hb'. apply lookup_insert_Some in Hb' as [[<- <-]|[_ Hb']]; [done|by apply Hc].
Qed.
Next Obligation.
  intros D s b r s' [Hs Hc] Hu Ha. destruct (apply_law (StoreLaws := memory_laws) s b r s' Hs Hu Ha) as (Hs' & Hc' & Hv & _).
  split_and!; [|done|done]. split; [done|]. intros h b' Hb'.
  change (chain (view s') !! h = Some b') in Hb'. rewrite Hc' in Hb'. by apply Hc.
Qed.
Next Obligation.
  intros D s b r s' Hs _. cbn. unfold MemoryStore.rollback_block, modifies. intros [= <- <-].
  destruct (ms_spent s !! _); (split; [exact Hs|split; [done|by left]]).
Qed.
End laws.

(** ** Properties *)

Section properties.
Context `{Crypto} `{CoreJson} `{BuildProfile}.

(** Rolling back a block right after applying it restores the whole store,
    when the transactions of the block spend and create distinct outputs and
    no undo data was stored for the height before. *)
Theorem memory_apply_rollback (s : MemoryStore) (b : Block) :
  block_applies b (ms_utxo s) → ms_spent s !! height (header b) = None →
  (_ ← MemoryStore.apply_block b; MemoryStore.rollback_block b) s = (Ok tt, s).
Proof.
  intros Hb Hn. pose proof (rolled_back_applied b _ Hb) as Hu.
  unfold mbind, ST_bind, MemoryStore.apply_block, MemoryStore.rollback_block, modifies.
  rewrite apply_txs_eq. cbn. rewrite lookup_insert_eq. unfold rolled_back in Hu. cbn in Hu.
  unfold insert_outputs, ledger_block in Hu. rewrite Hu, delete_insert_id by done.
  by destruct s.
Qed.

(** The list of active validators depends neither on the iteration order of
    the hash map nor on how the unstable sort orders equal elements: every node
    that stores the same validators elects from the same list. *)
Theorem memory_all_active_canonical (ho1 ho2 : HashOrder) (us1 us2 : UnstableSort)
    (s : MemoryStore) (slot : Z) :
  memory_ok s →
  @MemoryStore.all_active ho1 us1 slot s = @MemoryStore.all_active ho2 us2 slot s.
Proof.
  intros Hs.
  destruct (@MemoryStore.all_active ho1 us1 slot s) as [vs| |] eqn:Hvs; [|done..].
  destruct (@MemoryStore.all_active ho2 us2 slot s) as [ws| |] eqn:Hws; [|done..].
  apply memory_all_active in Hvs as [??], Hws as [??].
  f_equal. by eapply active_unique.
Qed.

(** A chained spend is not undone: when a block creates an output in one
    transaction and spends it in the next, the undo data lists it among the
    outputs to restore, and rolling the block back leaves it unspent although
    it did not exist before the block. *)
Theorem memory_rollback_resurrects (s : MemoryStore) (b : Block) (t1 t2 : Transaction)
    (i : TxInput) (o : TxOutput) (r : Res StoreError unit) (s' : MemoryStore) :
  txs b = [t1; t2] → inputs t1 = [] → inputs t2 = [i] → outputs t1 = [o] →
  out_ref i = output_ref t1 0 →
  ms_utxo s !! out_ref i = None →
  (_ ← MemoryStore.apply_block b; MemoryStore.rollback_block b) s = (r, s') →
  ms_utxo s' !! out_ref i = Some o.
Proof.
  intros Hb Hi1 Hi2 Ho1 Hi Hu.
  unfold mbind, ST_bind, MemoryStore.apply_block, MemoryStore.rollback_block, modifies.
  rewrite apply_txs_eq, Hb. cbn [captured_txs]. unfold spent_refs. rewrite Hi1, Hi2. cbn.
  assert (ledger_tx (ms_utxo s) t1 !! out_ref i = Some o) as Ht1.
  { unfold ledger_tx, spent_refs, new_outputs, created_refs. rewrite Hi1, Ho1, Hi.
    cbn. apply lookup_insert_eq. }
  rewrite Ht1. cbn. rewrite lookup_insert_eq. intros [= <- <-]. cbn. apply lookup_insert_eq.
Qed.

(** The hash index keeps the entries of overwritten blocks: after a second
    block is stored at the same height, looking the first one up by its hash
    returns the second. *)
Theorem memory_stale_hash_index (s : MemoryStore) (b1 b2 : Block) :
  height (header b1) = height (header b2) → Block_hash b1 ≠ Block_hash b2 →
  (_ ← MemoryStore.insert b1; _ ← MemoryStore.insert b2;
   reads (MemoryStore.get_by_hash (Block_hash b1))) s =
  (Ok (Some b2), snd ((_ ← MemoryStore.insert b1; MemoryStore.insert b2) s)).
Proof.
  intros Hh Hne. unfold MemoryStore.insert, MemoryStore.get_by_hash, reads, modifies.
  cbn -[Block_hash]. unfold mbind, ST_bind. cbn -[Block_hash]. do 2 f_equal.
  rewrite lookup_insert_ne by done. rewrite lookup_insert_eq. cbn.
  rewrite Hh. apply lookup_insert_eq.
Qed.
End properties.
