(* ===== verification/SledStore.v ===== *)
(** * The persistent store ([bcc-node/src/storage/sled_store.rs])

    [SledStore] over an interface for the [sled] database, its three trait
    implementations with the transaction bodies as written, and the proof that
    it satisfies the storage laws: the trees always encode a ledger, whatever
    call fails. *)

From S2P Require Import Prelude Bytes Types Encoding Store Ledger.

(** ** The [sled] crate *)

(** Trees are handles on ordered byte maps.  A call that fails reports its
    error as text (the source only prints errors); a single-key update that
    fails may or may not have taken effect, a multi-tree transaction is atomic. *)
Class Sled := {
  Tree : Type;
  tree_map : Tree → bytes_map;

  sled_get : list byte → Tree → string + option (list byte);
  sled_get_inr k t v : sled_get k t = inr v → v = tree_map t !! k;
  sled_contains_key : list byte → Tree → string + bool;
  sled_contains_key_inr k t b :
    sled_contains_key k t = inr b → b = bool_decide (is_Some (tree_map t !! k));

  sled_insert : list byte → list byte → Tree → (string + unit) * Tree;
  sled_insert_inr k v t x t' :
    sled_insert k v t = (inr x, t') → tree_map t' = <[k := v]> (tree_map t);
  sled_insert_inl k v t e t' : sled_insert k v t = (inl e, t') →
    tree_map t' = tree_map t ∨ tree_map t' = <[k := v]> (tree_map t);
  sled_remove : list byte → Tree → (string + unit) * Tree;
  sled_remove_inr k t x t' :
    sled_remove k t = (inr x, t') → tree_map t' = delete k (tree_map t);
  sled_remove_inl k t e t' : sled_remove k t = (inl e, t') →
    tree_map t' = tree_map t ∨ tree_map t' = delete k (tree_map t);

  (** Iteration is in key order; each step may fail. *)
  sled_iter : Tree → list (string + (list byte * list byte));
  sled_iter_inr t l : sled_iter t = inr <$> l →
    l ≡ₚ map_to_list (tree_map t) ∧ StronglySorted (fun x y => lex_le x.1 y.1) l;
  sled_range : list byte → Tree → list (string + (list byte * list byte));
  sled_range_inr k t l : sled_range k t = inr <$> l →
    l ≡ₚ filter (fun kv => lex_le k kv.1) (map_to_list (tree_map t)) ∧
    StronglySorted (fun x y => lex_le x.1 y.1) l;

  (** Transactions over two and three trees.  The body is run against the
      current contents; it is aborted as a whole when one of its calls fails. *)
  sled_transaction2 : (bytes_map * bytes_map → bytes_map * bytes_map) →
    Tree * Tree → (string + unit) * (Tree * Tree);
  sled_transaction2_inr f t1 t2 x t1' t2' :
    sled_transaction2 f (t1, t2) = (inr x, (t1', t2')) →
    (tree_map t1', tree_map t2') = f (tree_map t1, tree_map t2);
  sled_transaction2_inl f t1 t2 e t1' t2' :
    sled_transaction2 f (t1, t2) = (inl e, (t1', t2')) →
    tree_map t1' = tree_map t1 ∧ tree_map t2' = tree_map t2;
  sled_transaction3 : (bytes_map * bytes_map * bytes_map → bytes_map * bytes_map * bytes_map) →
    Tree * Tree * Tree → (string + unit) * (Tree * Tree * Tree);
  sled_transaction3_inr f t1 t2 t3 x t1' t2' t3' :
    sled_transaction3 f (t1, t2, t3) = (inr x, (t1', t2', t3')) →
    (tree_map t1', tree_map t2', tree_map t3') = f (tree_map t1, tree_map t2, tree_map t3);
  sled_transaction3_inl f t1 t2 t3 e t1' t2' t3' :
    sled_transaction3 f (t1, t2, t3) = (inl e, (t1', t2', t3')) →
    tree_map t1' = tree_map t1 ∧ tree_map t2' = tree_map t2 ∧ tree_map t3' = tree_map t3;

  Db : Type;
  sled_open : string → string + Db;
  sled_open_temporary : string + Db;
  sled_open_tree : list byte → Db → string + Tree;
  sled_open_tree_temporary db name t :
    sled_open_temporary = inr db → sled_open_tree name db = inr t → tree_map t = ∅;
}.

(** ** State and encoding helpers *)

Definition TREE_BLOCKS_H : list byte := String.list_byte_of_string "blocks_h".
Definition TREE_BLOCKS_IDX : list byte := String.list_byte_of_string "blocks_idx".
Definition TREE_UTXO : list byte := String.list_byte_of_string "utxo".
Definition TREE_VALIDATORS : list byte := String.list_byte_of_string "validators".
Definition TREE_META : list byte := String.list_byte_of_string "meta".
Definition TREE_SPENT : list byte := String.list_byte_of_string "spent_h".

Definition META_TIP : list byte := String.list_byte_of_string "tip".
Definition META_APPLY_IN_PROGRESS : list byte :=
  String.list_byte_of_string "apply_in_progress".

#[global] Arguments META_TIP : simpl never.
#[global] Arguments META_APPLY_IN_PROGRESS : simpl never.

Record SledStore `{Sled} := mkSledStore {
  blocks_h : Tree;
  blocks_idx : Tree;
  utxo_tree : Tree;
  validators_tree : Tree;
  meta : Tree;
  spent_h : Tree;
}.

Definition height_key (height : Z) : list byte := to_be_bytes 8 height.

Definition encode {A} `{Json A} (value : A) : Res StoreError (list byte) := Ok (to_vec value).
Definition decode {A} `{Json A} (bytes : list byte) : Res StoreError A :=
  map_err Backend (of_sum (from_slice bytes)).

Definition spent_key `{CoreJson} (height : Z) (r : TxOutRef) : list byte :=
  to_be_bytes 8 height ++ to_vec r.

Module SledStore.
Section operations.
Context `{Crypto} `{CoreJson} `{Sled}.

(** The trees of a database; both constructors of the store open them. *)
Definition open_trees (db : Db) : Res string SledStore :=
  blocks_h ← of_sum (sled_open_tree TREE_BLOCKS_H db);
  blocks_idx ← of_sum (sled_open_tree TREE_BLOCKS_IDX db);
  utxo ← of_sum (sled_open_tree TREE_UTXO db);
  validators ← of_sum (sled_open_tree TREE_VALIDATORS db);
  meta ← of_sum (sled_open_tree TREE_META db);
  spent_h ← of_sum (sled_open_tree TREE_SPENT db);
  Ok (mkSledStore _ blocks_h blocks_idx utxo validators meta spent_h).

Definition open (path : string) : Res string SledStore :=
  db ← of_sum (sled_open path); open_trees db.

Definition new_temporary : Res string SledStore :=
  db ← of_sum sled_open_temporary; open_trees db.

Definition apply_in_progress_flag (s : SledStore) : bool :=
  match sled_contains_key META_APPLY_IN_PROGRESS (meta s) with
  | inr b => b
  | inl _ => false
  end.

(** *** [impl BlockStore for SledStore] *)

Definition get_by_height (height : Z) (s : SledStore) : Res StoreError (option Block) :=
  match sled_get (height_key height) (blocks_h s) with
  | inr (Some bytes) => Some <$> decode bytes
  | inr None => Ok None
  | inl e => Err (Backend e)
  end.

Definition get_by_hash (hash : BlockHash) (s : SledStore) : Res StoreError (option Block) :=
  match sled_get hash (blocks_idx s) with
  | inr (Some height_bytes) =>
      if (length height_bytes =? 8)%nat
      then get_by_height (from_be_bytes height_bytes) s
      else Err (Backend "corrupt height index")
  | inr None => Ok None
  | inl e => Err (Backend e)
  end.

(** The body of the transaction of [insert]. *)
Definition insert_body (height_be : list byte) (block_hash : BlockHash)
    (encoded tip_bytes : list byte) (trees : bytes_map * bytes_map * bytes_map) :
    bytes_map * bytes_map * bytes_map :=
  let '(bh, bi, meta) := trees in
  (<[height_be := encoded]> bh, <[block_hash := height_be]> bi, <[META_TIP := tip_bytes]> meta).

Definition insert (block : Block) : ST SledStore StoreError unit := fun s =>
  let height_be := height_key (height (header block)) in
  let block_hash := Block_hash block in
  let '(r, (bh, bi, m)) :=
    sled_transaction3
      (insert_body height_be block_hash (to_vec block)
         (to_vec (height (header block), block_hash)))
      (blocks_h s, blocks_idx s, meta s) in
  (map_err Backend (of_sum r),
   mkSledStore _ bh bi (utxo_tree s) (validators_tree s) m (spent_h s)).

Definition tip (s : SledStore) : Res StoreError (option (Z * BlockHash)) :=
  match sled_get META_TIP (meta s) with
  | inr (Some bytes) => Some <$> decode bytes
  | inr None => Ok None
  | inl e => Err (Backend e)
  end.

Definition iter_from (height : Z) (s : SledStore) : Res StoreError (list Block) :=
  collect_res ((fun res => kv ← map_err Backend (of_sum res); decode kv.2)
    <$> sled_range (height_key height) (blocks_h s)).

(** *** [impl UtxoStore for SledStore] *)

Definition get (r : TxOutRef) (s : SledStore) : Res StoreError (option TxOutput) :=
  key ← encode r;
  match sled_get key (utxo_tree s) with
  | inr (Some bytes) => Some <$> decode bytes
  | inr None => Ok None
  | inl e => Err (Backend e)
  end.

(** The body of the transaction of [apply_block], on the unspent outputs and
    the undo data. *)
Definition apply_input (block_height : Z) (acc : bytes_map * bytes_map) (input : TxInput) :
    bytes_map * bytes_map :=
  let '(utxo_txn, spent_txn) := acc in
  let spent_txn' :=
    match utxo_txn !! to_vec (out_ref input) with
    | Some prev_out => <[spent_key block_height (out_ref input) := prev_out]> spent_txn
    | None => spent_txn
    end in
  (delete (to_vec (out_ref input)) utxo_txn, spent_txn').
Definition apply_tx (block_height : Z) (acc : bytes_map * bytes_map) (tx : Transaction) :
    bytes_map * bytes_map :=
  let hash := Transaction_hash tx in
  let '(utxo_txn, spent_txn) := foldl (apply_input block_height) acc (inputs tx) in
  (foldl (fun u kv => <[to_vec kv.1 := to_vec kv.2]> u) utxo_txn
     (imap (fun idx output => (mkTxOutRef hash (wrap_u32 (Z.of_nat idx)), output)) (outputs tx)),
   spent_txn).
Definition apply_body (block_height : Z) (txs : list Transaction) (trees : bytes_map * bytes_map) :=
  foldl (apply_tx block_height) trees txs.

Definition set_meta (s : SledStore) (m : Tree) : SledStore :=
  mkSledStore _ (blocks_h s) (blocks_idx s) (utxo_tree s) (validators_tree s) m (spent_h s).
Definition set_utxo (s : SledStore) (ts : Tree * Tree) : SledStore :=
  mkSledStore _ (blocks_h s) (blocks_idx s) ts.1 (validators_tree s) (meta s) ts.2.

(** 1. Write the crash sentinel.  2. Update the unspent outputs and record the
    spent ones.  3. Clear the sentinel. *)
Definition write_sentinel (block : Block) : ST SledStore StoreError unit := fun s =>
  let '(r, m) := sled_insert META_APPLY_IN_PROGRESS (height_key (height (header block))) (meta s) in
  (map_err Backend (of_sum r), set_meta s m).
Definition update_utxo (block : Block) : ST SledStore StoreError unit := fun s =>
  let '(r, ts) := sled_transaction2 (apply_body (height (header block)) (txs block))
                    (utxo_tree s, spent_h s) in
  (map_err Backend (of_sum r), set_utxo s ts).
Definition clear_sentinel : ST SledStore StoreError unit := fun s =>
  let '(r, m) := sled_remove META_APPLY_IN_PROGRESS (meta s) in
  (map_err Backend (of_sum r), set_meta s m).
Definition apply_block (block : Block) : ST SledStore StoreError unit :=
  _ ← write_sentinel block;
  _ ← update_utxo block;
  clear_sentinel.

(** The body of the first transaction of [rollback_block]. *)
Definition restore_input (block_height : Z) (acc : bytes_map * bytes_map) (input : TxInput) :
    bytes_map * bytes_map :=
  let '(utxo_txn, spent_txn) := acc in
  let skey := spent_key block_height (out_ref input) in
  match spent_txn !! skey with
  | Some prev_bytes => (<[to_vec (out_ref input) := prev_bytes]> utxo_txn, delete skey spent_txn)
  | None => (utxo_txn, spent_txn)
  end.
Definition undo_tx (block_height : Z) (acc : bytes_map * bytes_map) (tx : Transaction) :
    bytes_map * bytes_map :=
  let hash := Transaction_hash tx in
  let '(utxo_txn, spent_txn) := acc in
  foldl (restore_input block_height)
    (foldl (fun u idx => delete (to_vec (mkTxOutRef hash (wrap_u32 (Z.of_nat idx)))) u) utxo_txn
       (seq 0 (length (outputs tx))), spent_txn) (inputs tx).
Definition undo_body (block_height : Z) (txs : list Transaction) (trees : bytes_map * bytes_map) :=
  foldl (undo_tx block_height) trees (reverse txs).

Definition undo_utxo (block : Block) : ST SledStore StoreError unit := fun s =>
  let '(r, ts) := sled_transaction2 (undo_body (height (header block)) (txs block))
                    (utxo_tree s, spent_h s) in
  (map_err Backend (of_sum r), set_utxo s ts).

(** The encoded new tip, computed before the second transaction. *)
Definition parent_tip (block : Block) (s : SledStore) : Res StoreError (option (list byte)) :=
  if height (header block) =? 0 then Ok None
  else
    let parent_height := height (header block) - 1 in
    parent ← get_by_height parent_height s;
    match parent with
    | Some parent => Some <$> encode (parent_height, Block_hash parent)
    | None => Ok None
    end.

(** The body of the second transaction of [rollback_block]. *)
Definition unlink_body (height_be : list byte) (block_hash : BlockHash)
    (new_tip : option (list byte)) (trees : bytes_map * bytes_map * bytes_map) :
    bytes_map * bytes_map * bytes_map :=
  let '(bh, bi, meta) := trees in
  (delete height_be bh, delete block_hash bi,
   match new_tip with
   | Some tip_bytes => <[META_TIP := tip_bytes]> meta
   | None => delete META_TIP meta
   end).
Definition unlink_block (block : Block) (new_tip : option (list byte)) :
    ST SledStore StoreError unit := fun s =>
  let '(r, (bh, bi, m)) :=
    sled_transaction3
      (unlink_body (height_key (height (header block))) (Block_hash block) new_tip)
      (blocks_h s, blocks_idx s, meta s) in
  (map_err Backend (of_sum r),
   mkSledStore _ bh bi (utxo_tree s) (validators_tree s) m (spent_h s)).

Definition rollback_block (block : Block) : ST SledStore StoreError unit :=
  _ ← undo_utxo block;
  new_tip ← reads (parent_tip block);
  unlink_block block new_tip.

(** [try_fold] over the unspent outputs. *)
Fixpoint balance_fold (address : Address) (acc : Z)
    (l : list (string + (list byte * list byte))) : Res StoreError Z :=
  match l with
  | [] => Ok acc
  | res :: l' =>
      kv ← map_err Backend (of_sum res);
      output ← decode kv.2;
      balance_fold address
        (if bool_decide (out_address output = address)
         then saturating_add acc (amount output) else acc) l'
  end.
Definition balance (address : Address) (s : SledStore) : Res StoreError Z :=
  balance_fold address 0 (sled_iter (utxo_tree s)).

Definition list_entry (address : Address) (res : string + (list byte * list byte)) :
    option (Res StoreError (TxOutRef * TxOutput)) :=
  match res with
  | inl e => Some (Err (Backend e))
  | inr (k, v) =>
      match decode k with
      | Ok r =>
          match decode v with
          | Ok output => if bool_decide (out_address output = address)
                         then Some (Ok (r, output)) else None
          | Err e => Some (Err e)
          | Panic => Some Panic
          end
      | Err e => Some (Err e)
      | Panic => Some Panic
      end
  end.
Definition list_utxos (address : Address) (s : SledStore) :
    Res StoreError (list (TxOutRef * TxOutput)) :=
  collect_res (omap (list_entry address) (sled_iter (utxo_tree s))).

(** *** [impl ValidatorStore for SledStore] *)

Definition validator_key (a : Address) : list byte := String.list_byte_of_string (as_str a).

Definition validator_get (a : Address) (s : SledStore) : Res StoreError (option Validator) :=
  match sled_get (validator_key a) (validators_tree s) with
  | inr (Some bytes) => Some <$> decode bytes
  | inr None => Ok None
  | inl e => Err (Backend e)
  end.

Definition active_entry (slot : Z) (res : string + (list byte * list byte)) :
    option (Res StoreError Validator) :=
  match res with
  | inr (_, v) =>
      match decode v with
      | Ok validator => if is_active slot validator then Some (Ok validator) else None
      | Err e => Some (Err e)
      | Panic => Some Panic
      end
  | inl e => Some (Err (Backend e))
  end.
Definition all_active (slot : Z) (s : SledStore) : Res StoreError (list Validator) :=
  collect_res (omap (active_entry slot) (sled_iter (validators_tree s))).

Definition upsert (v : Validator) : ST SledStore StoreError unit := fun s =>
  let expected := Address.from_pubkey_bytes (vk_as_bytes (v_pubkey v)) in
  if bool_decide (v_address v ≠ expected)
  then (Err (Backend ("validator address " +:+ as_str (v_address v)
              +:+ " does not match pubkey (expected " +:+ as_str expected +:+ ")")), s)
  else
    let '(r, t) := sled_insert (validator_key (v_address v)) (to_vec v) (validators_tree s) in
    (map_err Backend (of_sum r),
     mkSledStore _ (blocks_h s) (blocks_idx s) (utxo_tree s) t (meta s) (spent_h s)).

End operations.
End SledStore.

#[global] Instance sled_block_store `{Crypto} `{CoreJson} `{Sled} : BlockStore SledStore := {|
  get_by_height := SledStore.get_by_height;
  get_by_hash := SledStore.get_by_hash;
  insert_block := SledStore.insert;
  tip := SledStore.tip;
  iter_from := SledStore.iter_from;
|}.

#[global] Instance sled_utxo_store `{Crypto} `{CoreJson} `{Sled} : UtxoStore SledStore := {|
  utxo_get := SledStore.get;
  apply_block := SledStore.apply_block;
  rollback_block := SledStore.rollback_block;
  balance := SledStore.balance;
  list_utxos := SledStore.list_utxos;
|}.

#[global] Instance sled_validator_store `{Crypto} `{CoreJson} `{Sled} : ValidatorStore SledStore := {|
  validator_get := SledStore.validator_get;
  all_active := SledStore.all_active;
  upsert := SledStore.upsert;
|}.

(** ** Undo data as a typed map

    The transaction bodies on typed maps: [sp] holds what each height has
    spent.  The byte level follows below. *)

Section undo_log.
Context `{Crypto} `{CoreJson} (h : Z).
Notation outs := (gmap TxOutRef TxOutput).
Notation log := (gmap (Z * TxOutRef) TxOutput).
Implicit Types (u : outs) (sp : log) (acc : outs * log).

Definition spend_ref acc (r : TxOutRef) : outs * log :=
  (delete r acc.1, match acc.1 !! r with Some o => <[(h, r) := o]> acc.2 | None => acc.2 end).
Definition log_apply_tx acc (tx : Transaction) : outs * log :=
  let acc' := foldl spend_ref acc (spent_refs tx) in
  (insert_outputs (new_outputs tx) acc'.1, acc'.2).
Definition restore_ref acc (r : TxOutRef) : outs * log :=
  match acc.2 !! (h, r) with
  | Some o => (<[r := o]> acc.1, delete (h, r) acc.2)
  | None => acc
  end.
Definition log_undo_tx acc (tx : Transaction) : outs * log :=
  foldl restore_ref (remove_refs (created_refs tx) acc.1, acc.2) (spent_refs tx).
Definition drop_spent (rs : list TxOutRef) sp : log := foldl (fun sp r => delete (h, r) sp) sp rs.

Lemma lookup_drop_spent rs sp k r :
  drop_spent rs sp !! (k, r) = if decide (k = h ∧ r ∈ rs) then None else sp !! (k, r).
Proof.
  revert sp. induction rs as [|r' rs IH]; intros sp; cbn.
  - by rewrite decide_False by set_solver.
  - fold (drop_spent rs (delete (h, r') sp)). rewrite IH.
    destruct (decide ((k, r) = (h, r'))) as [[= -> ->]|Hne].
    + rewrite lookup_delete_eq. rewrite (decide_True (P := h = h ∧ r' ∈ r' :: rs)) by set_solver.
      by case_decide.
    + rewrite lookup_delete_ne by done. repeat case_decide; set_solver.
Qed.

Lemma drop_spent_app rs1 rs2 sp : drop_spent (rs1 ++ rs2) sp = drop_spent rs2 (drop_spent rs1 sp).
Proof. apply foldl_app. Qed.

Lemma spend_refs_fst rs acc : (foldl spend_ref acc rs).1 = remove_refs rs acc.1.
Proof. revert acc. induction rs as [|r rs IH]; intros acc; cbn; [done|]. by rewrite IH. Qed.

Lemma spend_refs_log_other rs acc k r :
  ¬ (k = h ∧ r ∈ rs) → (foldl spend_ref acc rs).2 !! (k, r) = acc.2 !! (k, r).
Proof.
  revert acc. induction rs as [|r' rs IH]; intros acc Hr; cbn; [done|].
  rewrite IH by set_solver. cbn. destruct (acc.1 !! r'); [|done].
  apply lookup_insert_ne. set_solver.
Qed.

Lemma spend_refs_log rs acc r :
  NoDup rs → r ∈ rs → is_Some (acc.1 !! r) →
  (foldl spend_ref acc rs).2 !! (h, r) = acc.1 !! r.
Proof.
  revert acc. induction rs as [|r' rs IH]; intros acc Hnd Hr [o Ho]; [set_solver|].
  apply NoDup_cons in Hnd as [Hr' Hnd]. cbn. apply elem_of_cons in Hr as [->|Hr].
  - rewrite spend_refs_log_other by naive_solver. cbn. rewrite Ho. by rewrite lookup_insert_eq.
  - assert (r' ≠ r) by set_solver. rewrite IH; cbn; rewrite ?lookup_delete_ne by done; eauto.
Qed.

Lemma log_apply_txs_fst l acc : (foldl log_apply_tx acc l).1 = ledger_txs l acc.1.
Proof.
  revert acc. induction l as [|tx l IH]; intros acc; cbn; [done|].
  rewrite IH. cbn. by rewrite spend_refs_fst.
Qed.

Lemma restore_refs rs u sp :
  NoDup rs → (∀ r, r ∈ rs → is_Some (sp !! (h, r))) →
  (∀ r, (foldl restore_ref (u, sp) rs).1 !! r =
     if decide (r ∈ rs) then sp !! (h, r) else u !! r) ∧
  (foldl restore_ref (u, sp) rs).2 = drop_spent rs sp.
Proof.
  revert u sp. induction rs as [|r' rs IH]; intros u sp Hnd Hs; cbn; [done|].
  apply NoDup_cons in Hnd as [Hr' Hnd]. destruct (Hs r') as [o Ho]; [set_solver|].
  unfold restore_ref at 2 4. cbn. rewrite Ho.
  destruct (IH (<[r':=o]> u) (delete (h, r') sp) Hnd) as [IH1 IH2].
  { intros r Hr. rewrite lookup_delete_ne by set_solver. apply Hs. set_solver. }
  split; [|by rewrite IH2]. intros r. rewrite IH1.
  destruct (decide (r = r')) as [->|Hne].
  - rewrite decide_False, decide_True by set_solver. by rewrite lookup_insert_eq.
  - rewrite lookup_delete_ne, lookup_insert_ne by congruence. repeat case_decide; set_solver.
Qed.

(** Undoing a transaction from the log entries of its inputs. *)
Lemma log_undo_tx_applied tx u sp :
  tx_applies tx u → (∀ r, r ∈ spent_refs tx → sp !! (h, r) = u !! r) →
  log_undo_tx (ledger_tx u tx, sp) tx = (u, drop_spent (spent_refs tx) sp).
Proof.
  intros Htx Hsp. pose proof Htx as (Hnc & Hns & Hc & Hs).
  destruct (restore_refs (spent_refs tx) (remove_refs (created_refs tx) (ledger_tx u tx)) sp)
    as [H1 H2]; [done|intros r Hr; rewrite Hsp; auto|].
  unfold log_undo_tx. cbn. apply injective_projections; [|by rewrite H2]. cbn.
  apply map_eq. intros r. rewrite H1. case_decide as Hr; [by apply Hsp|].
  rewrite lookup_remove_refs. case_decide as Hr'; [symmetry; by apply Hc|].
  rewrite lookup_ledger_tx by done. by rewrite decide_False.
Qed.

(** Undoing a sequence of transactions, of which a later one may spend what an
    earlier one created. *)
Lemma log_undo_applied l u sp :
  txs_apply l u → NoDup (l ≫= spent_refs) →
  foldl log_undo_tx (foldl log_apply_tx (u, sp) l) (reverse l) =
  (u, drop_spent (l ≫= spent_refs) sp).
Proof.
  revert u sp. induction l as [|tx l IH]; intros u sp Hl Hnd; [done|].
  destruct Hl as [Htx Hl]. cbn in Hnd. apply NoDup_app in Hnd as (Hnd1 & Hdis & Hnd2).
  rewrite reverse_cons, foldl_app.
  change (foldl log_apply_tx (u, sp) (tx :: l))
    with (foldl log_apply_tx (log_apply_tx (u, sp) tx) l).
  remember (foldl spend_ref (u, sp) (spent_refs tx)).2 as sp1 eqn:Hsp1.
  assert (log_apply_tx (u, sp) tx = (ledger_tx u tx, sp1)) as ->.
  { unfold log_apply_tx. cbv zeta. by rewrite spend_refs_fst, <- Hsp1. }
  rewrite (IH _ _ Hl Hnd2). cbn [foldl].
  rewrite log_undo_tx_applied; [|done|].
  - f_equal. change ((tx :: l) ≫= spent_refs) with (spent_refs tx ++ (l ≫= spent_refs)).
    apply map_eq. intros [k r]. rewrite drop_spent_app, !lookup_drop_spent.
    repeat case_decide; try done. subst sp1. by rewrite spend_refs_log_other.
  - intros r Hr. rewrite lookup_drop_spent, decide_False by set_solver.
    destruct Htx as (_ & _ & _ & Hs). subst sp1. rewrite spend_refs_log; auto.
Qed.
End undo_log.

(** ** What the trees encode *)

Definition sum_opt {E A} (r : E + A) : option A :=
  match r with inr a => Some a | inl _ => None end.

Section codecs.
Context `{Crypto} `{CoreJson} `{Sled}.

#[global, program] Definition blocks_codec : Codec Z Block := {|
  codec_key := u64;
  enc_key := height_key;
  dec_key := fun bs => Some (from_be_bytes bs);
  enc_val := to_vec;
  dec_val := fun bs => sum_opt (from_slice bs);
|}.
Next Obligation. intros h Hh. unfold height_key. by rewrite from_to_be_bytes_u64. Qed.
Next Obligation. intros b. cbn. by rewrite from_slice_to_vec. Qed.

#[global, program] Definition utxo_codec : Codec TxOutRef TxOutput := {|
  codec_key := fun _ => True;
  enc_key := to_vec;
  dec_key := fun bs => sum_opt (from_slice bs);
  enc_val := to_vec;
  dec_val := fun bs => sum_opt (from_slice bs);
|}.
Next Obligation. intros r _. cbn. by rewrite from_slice_to_vec. Qed.
Next Obligation. intros o. cbn. by rewrite from_slice_to_vec. Qed.

#[global, program] Definition validators_codec : Codec Address Validator := {|
  codec_key := fun _ => True;
  enc_key := SledStore.validator_key;
  dec_key := fun bs => Some (mkAddress (String.string_of_list_byte bs));
  enc_val := to_vec;
  dec_val := fun bs => sum_opt (from_slice bs);
|}.
Next Obligation.
  intros [a] _. unfold SledStore.validator_key. cbn [as_str].
  by rewrite String.string_of_list_byte_of_string.
Qed.
Next Obligation. intros o. cbn. by rewrite from_slice_to_vec. Qed.

#[global, program] Definition spent_codec : Codec (Z * TxOutRef) TxOutput := {|
  codec_key := fun hr => u64 hr.1;
  enc_key := fun hr => spent_key hr.1 hr.2;
  dec_key := fun bs => r ← sum_opt (from_slice (drop 8 bs)); Some (from_be_bytes (take 8 bs), r);
  enc_val := to_vec;
  dec_val := fun bs => sum_opt (from_slice bs);
|}.
Next Obligation.
  intros [h r] Hh. unfold spent_key. cbn -[from_be_bytes to_be_bytes] in *.
  rewrite drop_app_length', take_app_length' by by rewrite length_to_be_bytes.
  rewrite from_slice_to_vec. cbn -[from_be_bytes to_be_bytes]. by rewrite from_to_be_bytes_u64.
Qed.
Next Obligation. intros o. cbn. by rewrite from_slice_to_vec. Qed.

(** The ledger the trees encode, and what is remembered of spent outputs. *)
Definition sled_chain (s : SledStore) : gmap Z Block := decoded blocks_codec (tree_map (blocks_h s)).
Definition sled_utxos (s : SledStore) : gmap TxOutRef TxOutput :=
  decoded utxo_codec (tree_map (utxo_tree s)).
Definition sled_validators (s : SledStore) : gmap Address Validator :=
  decoded validators_codec (tree_map (validators_tree s)).
Definition sled_spent (s : SledStore) : gmap (Z * TxOutRef) TxOutput :=
  decoded spent_codec (tree_map (spent_h s)).
Definition sled_view (s : SledStore) : Ledger :=
  mkLedger (sled_chain s) (sled_utxos s) (sled_validators s).

(** What the trees are well formed for; [T] relates the stored tip to the chain. *)
Record sled_ok_for (T : option (list byte) → gmap Z Block → Prop) (s : SledStore) : Prop := mkSledOk {
  ok_blocks : encoded blocks_codec (tree_map (blocks_h s));
  ok_utxo : encoded utxo_codec (tree_map (utxo_tree s));
  ok_spent : encoded spent_codec (tree_map (spent_h s));
  ok_validators : encoded validators_codec (tree_map (validators_tree s));
  ok_validator_keys : validators_ok (sled_validators s);
  ok_tip : T (tree_map (meta s) !! META_TIP) (sled_chain s);
}.
#[global] Arguments ok_blocks {T} s.
#[global] Arguments ok_utxo {T} s.
#[global] Arguments ok_spent {T} s.
#[global] Arguments ok_validators {T} s.
#[global] Arguments ok_validator_keys {T} s.
#[global] Arguments ok_tip {T} s.

(** The stored tip is the highest block. *)
Definition tip_ok (stored : option (list byte)) (c : gmap Z Block) : Prop :=
  match stored with
  | None => c = ∅
  | Some bs => ∃ t : Z * BlockHash, bs = to_vec t ∧ tip_of c (Some t)
  end.

Definition sled_ok : SledStore → Prop := sled_ok_for tip_ok.

Definition sled_undoable (b : Block) (u : gmap TxOutRef TxOutput) (s : SledStore) : Prop :=
  (foldl (log_undo_tx (height (header b))) (sled_utxos s, sled_spent s) (reverse (txs b))).1 = u.

(** *** The transaction bodies on encoded maps *)

Definition encodes2 (t : bytes_map * bytes_map)
    (m : gmap TxOutRef TxOutput * gmap (Z * TxOutRef) TxOutput) : Prop :=
  encodes utxo_codec t.1 m.1 ∧ encodes spent_codec t.2 m.2.

Lemma foldl_rel {A B X Y} (R : A → B → Prop) (g : X → Y) (f1 : A → X → A) (f2 : B → Y → B) l :
  (∀ a b x, R a b → R (f1 a x) (f2 b (g x))) →
  ∀ a b, R a b → R (foldl f1 a l) (foldl f2 b (g <$> l)).
Proof. intros Hf. induction l as [|x l IH]; intros a b Hab; cbn; auto. Qed.

Lemma encodes_insert_outputs kvs t m :
  encodes utxo_codec t m →
  encodes utxo_codec (foldl (fun u kv => <[to_vec kv.1 := to_vec kv.2]> u) t kvs)
    (insert_outputs kvs m).
Proof.
  intros Hm. unfold insert_outputs. rewrite <- (list_fmap_id kvs) at 2.
  apply foldl_rel; [|done]. intros a b kv Hab. by apply (encodes_insert utxo_codec).
Qed.

Lemma encodes_remove_created t m tx :
  encodes utxo_codec t m →
  encodes utxo_codec
    (foldl (fun u idx => delete (to_vec (mkTxOutRef (Transaction_hash tx) (wrap_u32 (Z.of_nat idx)))) u)
       t (seq 0 (length (outputs tx)))) (remove_refs (created_refs tx) m).
Proof.
  intros Hm. unfold remove_refs, created_refs.
  apply foldl_rel; [|done]. intros a b i Hab. by apply (encodes_delete utxo_codec).
Qed.

Lemma encodes_apply_input h t m i :
  u64 h → encodes2 t m → encodes2 (SledStore.apply_input h t i) (spend_ref h m (out_ref i)).
Proof.
  intros Hh [Hu Hsp]. destruct t as [tu ts], m as [mu ms]. cbn in *.
  pose proof (encodes_lookup utxo_codec _ _ (out_ref i) I Hu) as Hl. cbn in Hl. rewrite Hl.
  split; cbn; [by apply (encodes_delete utxo_codec)|].
  destruct (mu !! out_ref i) as [o|]; cbn; [|done].
  by apply (encodes_insert spent_codec _ _ (h, out_ref i)).
Qed.

Lemma encodes_apply_tx h t m tx :
  u64 h → encodes2 t m → encodes2 (SledStore.apply_tx h t tx) (log_apply_tx h m tx).
Proof.
  intros Hh Hm. unfold SledStore.apply_tx, log_apply_tx, spent_refs.
  assert (encodes2 (foldl (SledStore.apply_input h) t (inputs tx))
            (foldl (spend_ref h) m (out_ref <$> inputs tx))) as Hin.
  { apply foldl_rel; [|done]. intros. by apply encodes_apply_input. }
  destruct (foldl (SledStore.apply_input h) t (inputs tx)) as [tu ts]. destruct Hin as [Hu Hsp].
  split; [|done]. cbn. rewrite imap_new_outputs. by apply encodes_insert_outputs.
Qed.

Lemma encodes_apply_body h t m l :
  u64 h → encodes2 t m → encodes2 (SledStore.apply_body h l t) (foldl (log_apply_tx h) m l).
Proof.
  intros Hh Hm. unfold SledStore.apply_body. rewrite <- (list_fmap_id l) at 2.
  apply foldl_rel; [|done]. intros. by apply encodes_apply_tx.
Qed.

Lemma encodes_restore_input h t m i :
  u64 h → encodes2 t m → encodes2 (SledStore.restore_input h t i) (restore_ref h m (out_ref i)).
Proof.
  intros Hh [Hu Hsp]. destruct t as [tu ts], m as [mu ms]. cbn in *.
  pose proof (encodes_lookup spent_codec _ _ (h, out_ref i) Hh Hsp) as Hl. cbn in Hl.
  unfold restore_ref. cbn. rewrite Hl. destruct (ms !! (h, out_ref i)) as [o|]; cbn; [|done].
  split; cbn; [by apply (encodes_insert utxo_codec)|].
  by apply (encodes_delete spent_codec _ _ (h, out_ref i)).
Qed.

Lemma encodes_undo_body h t m l :
  u64 h → encodes2 t m →
  encodes2 (SledStore.undo_body h l t) (foldl (log_undo_tx h) m (reverse l)).
Proof.
  intros Hh Hm. unfold SledStore.undo_body. rewrite <- (list_fmap_id (reverse l)) at 2.
  apply foldl_rel; [|done]. intros [tu ts] [mu ms] tx [Hu Hsp].
  unfold SledStore.undo_tx, log_undo_tx, spent_refs. cbn in *.
  apply foldl_rel; [intros; by apply encodes_restore_input|].
  split; [|done]. by apply encodes_remove_created.
Qed.
End codecs.

(** ** Reading *)

Section reading.
Context `{Crypto} `{CoreJson} `{Sled}.
Context {T : option (list byte) → gmap Z Block → Prop}.
Implicit Types (s : SledStore).

Lemma decode_to_vec {A} `{Json A} (x : A) : decode (to_vec x) = Ok x.
Proof. unfold decode. by rewrite from_slice_to_vec. Qed.

(** Looking a key up in a tree that encodes a map. *)
Lemma read_encoded {K V} `{Countable K} `{Json V} (c : Codec K V) (t : Tree) k (r : option V) :
  (∀ v, enc_val c v = to_vec v) → encoded c (tree_map t) → codec_key c k →
  match sled_get (enc_key c k) t with
  | inr (Some bytes) => Some <$> decode bytes
  | inr None => Ok None
  | inl e => Err (Backend e)
  end = Ok r → r = decoded c (tree_map t) !! k.
Proof.
  intros Hval Ht Hk. destruct (sled_get _ t) as [e|[bs|]] eqn:Hg; [done|..];
    apply sled_get_inr in Hg; rewrite (encodes_lookup c _ _ k Hk Ht) in Hg;
    destruct (decoded c (tree_map t) !! k) as [v|]; cbn in Hg; simplify_eq.
  - rewrite Hval, decode_to_vec. cbn. by intros [= <-].
  - by intros [= <-].
Qed.

(** Listing a tree that encodes a map. *)
Lemma iter_encoded {K V} `{Countable K} (c : Codec K V) (t : Tree) l :
  encoded c (tree_map t) → sled_iter t = inr <$> l →
  ∃ l', l = prod_map (enc_key c) (enc_val c) <$> l' ∧
    l' ≡ₚ map_to_list (decoded c (tree_map t)) ∧ Forall (fun kv => codec_key c kv.1) l' ∧
    StronglySorted (fun x y => lex_le (enc_key c x.1) (enc_key c y.1)) l'.
Proof.
  intros Ht [Hp Hs]%sled_iter_inr. destruct (encoded_listing c _ _ Ht Hp) as (l' & -> & Hl' & Hk).
  exists l'. split_and!; try done. clear -Hs. induction l' as [|kv l' IH]; [constructor|].
  rewrite fmap_cons in Hs. apply StronglySorted_inv in Hs as [Hs Hkv].
  constructor; [by apply IH|].
  rewrite Forall_fmap in Hkv. exact Hkv.
Qed.

Lemma sled_read_height s h r :
  sled_ok_for T s → u64 h → SledStore.get_by_height h s = Ok r → r = sled_chain s !! h.
Proof. intros Hs Hh. apply (read_encoded blocks_codec); [done|apply Hs|done]. Qed.

Lemma sled_read_out s r o :
  sled_ok_for T s → SledStore.get r s = Ok o → o = sled_utxos s !! r.
Proof. intros Hs. apply (read_encoded utxo_codec); [done|apply Hs|done]. Qed.

Lemma sled_read_validator s a r :
  sled_ok_for T s → SledStore.validator_get a s = Ok r → r = sled_validators s !! a.
Proof. intros Hs. apply (read_encoded validators_codec); [done|apply Hs|done]. Qed.

Lemma sled_read_tip s t : sled_ok s → SledStore.tip s = Ok t → tip_of (sled_chain s) t.
Proof.
  intros Hs. pose proof (ok_tip s Hs) as Ht. unfold SledStore.tip.
  destruct (sled_get META_TIP (meta s)) as [e|[bs|]] eqn:Hg; [done|..];
    apply sled_get_inr in Hg; rewrite <- Hg in Ht; cbn in Ht.
  - destruct Ht as (t' & -> & Ht'). rewrite decode_to_vec. by intros [= <-].
  - by intros [= <-].
Qed.

(** Collecting the entries of an iteration that all succeed. *)
Lemma collect_iter {A B} (f : string + A → option (Res StoreError B)) (l : list (string + A)) k :
  (∀ e, ∃ e', f (inl e) = Some (Err e')) →
  collect_res (omap f l) = Ok k →
  ∃ l', l = inr <$> l' ∧ omap (f ∘ inr) l' = Ok <$> k.
Proof.
  intros Hf. rewrite collect_res_Ok. revert k. induction l as [|[e|a] l IH]; intros k; cbn.
  - intros Hk. by exists [].
  - destruct (Hf e) as [e' ->]. destruct k; naive_solver.
  - destruct (f (inr a)) as [b|] eqn:Hfa.
    + destruct k as [|b' k]; cbn; [done|]. intros [= -> (l' & -> & Hl')%IH].
      exists (a :: l'). split; [done|]. cbn. by rewrite Hfa, Hl'.
    + intros (l' & -> & Hl')%IH. exists (a :: l'). split; [done|]. cbn. by rewrite Hfa.
Qed.

Lemma omap_filter_Ok {A B E} (f : A → option (Res E B)) (g : A → B) (P : A → Prop)
    `{∀ x, Decision (P x)} (l : list A) k :
  (∀ x, f x = if decide (P x) then Some (Ok (g x)) else None) →
  omap f l = Ok <$> k → k = g <$> filter P l.
Proof.
  intros Hf. revert k. induction l as [|x l IH]; intros k; [by destruct k|].
  rewrite filter_cons. cbn [omap list_omap]. rewrite Hf. case_decide; [|apply IH].
  destruct k as [|b k]; [done|]. rewrite !fmap_cons. intros [= -> Hk]. f_equal. by apply IH.
Qed.

Lemma omap_fmap_comp {A B C} (f : B → option C) (g : A → B) (l : list A) :
  omap f (g <$> l) = omap (f ∘ g) l.
Proof. induction l as [|x l IH]; cbn; [done|]. by rewrite IH. Qed.

Lemma filter_fmap_snd {K V} (P : K * V → Prop) (Q : V → Prop)
    `{∀ x, Decision (P x)} `{∀ x, Decision (Q x)} (l : list (K * V)) :
  (∀ kv, P kv ↔ Q kv.2) → (filter P l).*2 = filter Q l.*2.
Proof.
  intros HPQ. induction l as [|kv l IH]; [done|].
  rewrite fmap_cons, !filter_cons. pose proof (HPQ kv).
  repeat case_decide; try tauto. by rewrite fmap_cons, IH.
Qed.

Lemma sled_read_active s slot vs :
  sled_ok_for T s → SledStore.all_active slot s = Ok vs →
  vs ≡ₚ filter (is_active slot) (map_to_list (sled_validators s)).*2 ∧
  StronglySorted (fun v w => address_le (v_address v) (v_address w)) vs.
Proof.
  intros Hs. unfold SledStore.all_active. intros (l & Hl & Hvs)%collect_iter; [|by eexists].
  destruct (iter_encoded validators_codec _ _ (ok_validators s Hs) Hl)
    as (l' & -> & Hp & _ & Hsort).
  rewrite omap_fmap_comp in Hvs.
  apply (omap_filter_Ok _ snd (fun kv => is_active slot kv.2)) in Hvs as ->.
  2:{ intros [a v]. cbn. rewrite decode_to_vec. by repeat case_match. }
  split.
  - rewrite <- Hp. apply reflexive_eq. by apply filter_fmap_snd.
  - assert (Forall (fun kv => v_address kv.2 = kv.1) l') as Hkeys.
    { apply Forall_forall. intros [a v]. rewrite Hp, elem_of_map_to_list.
      intros Hav. by apply (ok_validator_keys s Hs) in Hav as [? _]. }
    clear -Hsort Hkeys. induction Hsort as [|[a v] l' Hsort IH Hle]; [constructor|].
    apply Forall_cons in Hkeys as [Ha Hkeys]. rewrite filter_cons. case_decide; [|auto].
    cbn. constructor; [by apply IH|].
    rewrite Forall_forall in Hkeys. rewrite Forall_forall in Hle. apply Forall_forall.
    intros w ([a' w'] & -> & [_ Hin]%list_elem_of_filter)%list_elem_of_fmap. cbn in *.
    unfold address_le. rewrite Ha. pose proof (Hkeys _ Hin) as Hw. cbn in Hw. rewrite Hw.
    apply (Hle _ Hin).
Qed.

Lemma sled_read_list s a l :
  sled_ok_for T s → SledStore.list_utxos a s = Ok l →
  l ≡ₚ filter (fun ro => out_address ro.2 = a) (map_to_list (sled_utxos s)).
Proof.
  intros Hs. unfold SledStore.list_utxos. intros (k & Hk & Hl)%collect_iter; [|by eexists].
  destruct (iter_encoded utxo_codec _ _ (ok_utxo s Hs) Hk) as (k' & -> & Hp & _ & _).
  rewrite omap_fmap_comp in Hl.
  apply (omap_filter_Ok _ id (fun ro => out_address ro.2 = a)) in Hl as ->.
  2:{ intros [r o]. cbn. rewrite !decode_to_vec.
      case_bool_decide; case_decide; done. }
  rewrite list_fmap_id. by rewrite Hp.
Qed.

Lemma balance_fold_Ok a acc l t :
  SledStore.balance_fold a acc l = Ok t →
  ∃ l', l = inr <$> l' ∧ ∀ (k : list (TxOutRef * TxOutput)),
    l' = prod_map to_vec to_vec <$> k →
    t = foldl saturating_add acc (amount <$> filter (fun o => out_address o = a) k.*2).
Proof.
  revert acc. induction l as [|[e|[kb vb]] l IH]; intros acc; cbn.
  - intros [= <-]. exists []. split; [done|]. by intros [|??].
  - done.
  - intros (o & Ho & Hl)%res_bind_Ok. destruct (IH _ Hl) as (l' & -> & Hl').
    exists ((kb, vb) :: l'). split; [done|]. intros [|[r o'] k]; [done|].
    intros [= -> -> Hk]. rewrite decode_to_vec in Ho. injection Ho as <-.
    rewrite (Hl' k Hk), fmap_cons, filter_cons. cbn [snd].
    case_bool_decide; case_decide; done.
Qed.

Lemma sled_read_balance s a t :
  sled_ok_for T s → map_Forall (fun _ o => 0 ≤ amount o) (sled_utxos s) →
  balance_of a (sled_utxos s) < 2 ^ 64 →
  SledStore.balance a s = Ok t → t = balance_of a (sled_utxos s).
Proof.
  intros Hs Hpos Hlt. unfold SledStore.balance. intros (l & Hl & Ht)%balance_fold_Ok.
  destruct (iter_encoded utxo_codec _ _ (ok_utxo s Hs) Hl) as (k & -> & Hp & _ & _).
  rewrite (Ht k eq_refl).
  assert (balance_of a (sled_utxos s) =
    sumZ (amount <$> filter (fun o => out_address o = a) k.*2)) as Heq.
  { rewrite amounts_filter. unfold balance_of. by apply map_sum_list. }
  rewrite Heq in *. apply sat_sum_exact; [|done].
  apply Forall_fmap, Forall_forall. intros o [_ Ho]%list_elem_of_filter.
  apply list_elem_of_fmap in Ho as ([r o'] & -> & Hro). rewrite Hp, elem_of_map_to_list in Hro.
  by apply Hpos in Hro.
Qed.

Lemma height_key_le a b : u64 a → u64 b → lex_le (height_key a) (height_key b) ↔ a ≤ b.
Proof.
  intros Ha Hb. rewrite lex_le_alt. unfold height_key. rewrite to_be_bytes_lt by apply Ha || apply Hb.
  split; [|destruct (decide (a = b)); [naive_solver|lia]].
  intros [?|?%to_be_bytes_inj_u64]; [lia|lia|done..].
Qed.

Lemma filter_fmap_key h (k : list (Z * Block)) :
  u64 h → Forall (fun hb => u64 hb.1) k →
  filter (fun kv => lex_le (height_key h) kv.1) (prod_map height_key to_vec <$> k) =
  prod_map height_key to_vec <$> filter (fun hb => h ≤ hb.1) k.
Proof.
  intros Hh. induction 1 as [|[x b] k Hx Hk IH]; [done|].
  rewrite fmap_cons, !filter_cons. pose proof (height_key_le h x Hh Hx).
  cbn [fst prod_map] in *. repeat case_decide; try tauto. by rewrite fmap_cons, IH.
Qed.

Lemma sled_read_range s h bs :
  sled_ok_for T s → u64 h → SledStore.iter_from h s = Ok bs → chain_range (sled_chain s) h bs.
Proof.
  intros Hs Hh. unfold SledStore.iter_from. rewrite collect_res_Ok. intros Hbs.
  assert (∃ l, sled_range (height_key h) (blocks_h s) = inr <$> l ∧
            (fun kv => decode kv.2) <$> l = Ok <$> bs) as (l & Hl & Hdec).
  { revert bs Hbs. generalize (sled_range (height_key h) (blocks_h s)) as l.
    induction l as [|[e|[k v]] l IH]; intros [|b bs]; cbn; try done.
    - intros _. by exists [].
    - intros [= Hb Hbs]. destruct (IH _ Hbs) as (l' & -> & Hl').
      exists ((k, v) :: l'). cbn. by rewrite Hl', <- Hb. }
  apply sled_range_inr in Hl as [Hp Hsort].
  destruct (encoded_listing blocks_codec _ (map_to_list (tree_map (blocks_h s)))
    (ok_blocks s Hs) (reflexivity _)) as (k & Hk & Hkp & Hkeys).
  rewrite Hk, filter_fmap_key in Hp by done.
  apply Permutation_map_inv in Hp as (l' & -> & Hl').
  assert (Forall (fun hb => u64 hb.1) l') as Hl64.
  { rewrite <- Hl'. rewrite Forall_forall in Hkeys. apply Forall_forall.
    intros hb [_ Hin]%list_elem_of_filter. by apply (Hkeys hb). }
  exists l'. split_and!.
  - apply (fmap_Ok_inj (E := StoreError)). rewrite <- Hdec.
    rewrite <- (list_fmap_compose _ _ l'), <- list_fmap_compose.
    apply list_fmap_ext. intros i [x b] _. cbn. by rewrite decode_to_vec.
  - rewrite <- Hl'. by rewrite Hkp.
  - clear -Hsort Hl64. induction l' as [|[x b] l' IH]; [constructor|].
    apply Forall_cons in Hl64 as [Hx Hl64]. rewrite fmap_cons in Hsort.
    apply StronglySorted_inv in Hsort as [Hsort Hle]. constructor; [by apply IH|].
    rewrite Forall_fmap, Forall_forall in Hle. rewrite Forall_forall in Hl64.
    apply Forall_forall. intros [y b'] Hy. cbn.
    apply height_key_le; [done|by apply (Hl64 _ Hy)|by apply (Hle _ Hy)].
Qed.
End reading.

(** ** Writing *)

Section writing.
Context `{Crypto} `{CoreJson} `{Sled}.
Context {T : option (list byte) → gmap Z Block → Prop}.
Implicit Types (s : SledStore).

Lemma encodes2_ok s :
  sled_ok_for T s → encodes2 (tree_map (utxo_tree s), tree_map (spent_h s)) (sled_utxos s, sled_spent s).
Proof. intros Hs. split; apply Hs. Qed.

(** The two ways in which the state changes: the [meta] tree outside the tip,
    and the pair of output trees. *)
Lemma sled_set_meta s m :
  sled_ok_for T s → tree_map m !! META_TIP = tree_map (meta s) !! META_TIP →
  sled_ok_for T (SledStore.set_meta s m).
Proof. intros [] Hm. constructor; try done. cbn. by rewrite Hm. Qed.

Lemma sled_set_utxo s ts ms :
  sled_ok_for T s → encodes2 (tree_map ts.1, tree_map ts.2) ms →
  sled_ok_for T (SledStore.set_utxo s ts) ∧ sled_utxos (SledStore.set_utxo s ts) = ms.1 ∧
  sled_spent (SledStore.set_utxo s ts) = ms.2.
Proof.
  intros [] [Hu Hsp]. destruct (encodes_encoded _ _ _ Hu), (encodes_encoded _ _ _ Hsp).
  split_and!; [by constructor|done..].
Qed.

(** *** [insert] *)

Lemma tip_of_insert c b h :
  (∀ h', is_Some (c !! h') → h' ≤ h) → tip_of (<[h := b]> c) (Some (h, Block_hash b)).
Proof.
  intros Hmax. split; [split|].
  - rewrite lookup_insert_eq. by eexists.
  - intros h' [<-|[_ Hh']]%lookup_insert_is_Some; [lia|auto].
  - exists b. by rewrite lookup_insert_eq.
Qed.

Lemma sled_insert_for s b r s' :
  sled_ok_for T s → u64 (height (header b)) →
  T (Some (to_vec (height (header b), Block_hash b))) (<[height (header b) := b]> (sled_chain s)) →
  SledStore.insert b s = (r, s') →
  sled_ok_for T s' ∧ sled_utxos s' = sled_utxos s ∧ sled_validators s' = sled_validators s ∧
  sled_spent s' = sled_spent s ∧
  sled_chain s' = match r with
    | Ok _ => <[height (header b) := b]> (sled_chain s)
    | _ => sled_chain s
    end.
Proof.
  intros Hs Hh HT. unfold SledStore.insert.
  destruct (sled_transaction3 _ _) as [[e|[]] [[bh bi] m]] eqn:Ht; intros [= <- <-].
  - apply sled_transaction3_inl in Ht as (Hbh & _ & Hm).
    assert (sled_chain (mkSledStore _ bh bi (utxo_tree s) (validators_tree s) m (spent_h s))
            = sled_chain s) as Hc by (unfold sled_chain; cbn; by rewrite Hbh).
    split_and!; try done. destruct Hs. constructor; try done; cbn; rewrite ?Hbh, ?Hm, ?Hc; done.
  - apply sled_transaction3_inr in Ht. injection Ht as Hbh _ Hm.
    destruct (encodes_encoded blocks_codec _ _
      (encodes_insert blocks_codec _ _ _ b Hh (ok_blocks s Hs))) as [Henc Hdec].
    change (tree_map bh = <[enc_key blocks_codec (height (header b)) := enc_val blocks_codec b]>
      (tree_map (blocks_h s))) in Hbh. rewrite <- Hbh in Henc, Hdec.
    split_and!; try done. destruct Hs. constructor; try done. cbn. rewrite Hm, lookup_insert_eq.
    unfold sled_chain at 1. cbn. by rewrite Hdec.
Qed.

Lemma tip_ok_insert c b h :
  (∀ h', is_Some (c !! h') → h' ≤ h) → tip_ok (Some (to_vec (h, Block_hash b))) (<[h := b]> c).
Proof. intros Hmax. eexists. split; [done|]. by apply tip_of_insert. Qed.

(** *** [apply_block] *)

Lemma sentinel_not_tip : META_APPLY_IN_PROGRESS ≠ META_TIP.
Proof. done. Qed.

Lemma write_sentinel_spec b s r s' :
  sled_ok_for T s → SledStore.write_sentinel b s = (r, s') →
  sled_ok_for T s' ∧ (∃ m, s' = SledStore.set_meta s m) ∧
  (r = Ok tt → is_Some (tree_map (meta s') !! META_APPLY_IN_PROGRESS)).
Proof.
  intros Hs. unfold SledStore.write_sentinel.
  destruct (sled_insert _ _ _) as [r' m] eqn:Hm. intros [= <- <-].
  split_and!; [|by exists m|].
  - apply sled_set_meta; [done|].
    destruct r' as [e|[]]; [apply sled_insert_inl in Hm as [->| ->]|apply sled_insert_inr in Hm as ->];
      rewrite ?lookup_insert_ne by apply sentinel_not_tip; done.
  - destruct r' as [|[]]; [done|]. intros _. apply sled_insert_inr in Hm. cbn.
    rewrite Hm, lookup_insert_eq. by eexists.
Qed.

Lemma clear_sentinel_spec s r s' :
  sled_ok_for T s → SledStore.clear_sentinel s = (r, s') →
  sled_ok_for T s' ∧ (∃ m, s' = SledStore.set_meta s m) ∧
  (r = Ok tt → tree_map (meta s') = delete META_APPLY_IN_PROGRESS (tree_map (meta s))).
Proof.
  intros Hs. unfold SledStore.clear_sentinel.
  destruct (sled_remove _ _) as [r' m] eqn:Hm. intros [= <- <-].
  split_and!; [|by exists m|].
  - apply sled_set_meta; [done|].
    destruct r' as [e|[]]; [apply sled_remove_inl in Hm as [->| ->]|apply sled_remove_inr in Hm as ->];
      rewrite ?lookup_delete_ne by apply sentinel_not_tip; done.
  - destruct r' as [|[]]; [done|]. intros _. by apply sled_remove_inr in Hm.
Qed.

Lemma update_utxo_spec b s r s' :
  sled_ok_for T s → u64 (height (header b)) → SledStore.update_utxo b s = (r, s') →
  sled_ok_for T s' ∧ (∃ ts, s' = SledStore.set_utxo s ts) ∧
  (sled_utxos s', sled_spent s') =
    match r with
    | Ok _ => foldl (log_apply_tx (height (header b))) (sled_utxos s, sled_spent s) (txs b)
    | _ => (sled_utxos s, sled_spent s)
    end.
Proof.
  intros Hs Hh. unfold SledStore.update_utxo.
  destruct (sled_transaction2 _ _) as [r' [tu ts]] eqn:Ht. intros [= <- <-].
  pose proof (encodes2_ok s Hs) as He.
  destruct r' as [e|[]]; cbn [of_sum map_err].
  - apply sled_transaction2_inl in Ht as [Hu Hsp].
    destruct (sled_set_utxo s (tu, ts) (sled_utxos s, sled_spent s)) as (? & Hu' & Hsp');
      [done|by cbn; rewrite Hu, Hsp|]. rewrite Hu', Hsp'. eauto.
  - apply sled_transaction2_inr in Ht.
    apply (encodes_apply_body _ _ _ (txs b) Hh) in He. rewrite <- Ht in He.
    destruct (sled_set_utxo s (tu, ts) _ Hs He) as (? & Hu' & Hsp').
    rewrite Hu', Hsp', <- surjective_pairing. eauto.
Qed.

(** The outcome of [apply_block]: the output trees are updated as a whole or
    not at all, and success means updated with the sentinel cleared. *)
Lemma sled_apply_spec b s r s' :
  sled_ok_for T s → u64 (height (header b)) → SledStore.apply_block b s = (r, s') →
  let applied := foldl (log_apply_tx (height (header b))) (sled_utxos s, sled_spent s) (txs b) in
  sled_ok_for T s' ∧ sled_chain s' = sled_chain s ∧ sled_validators s' = sled_validators s ∧
  ((sled_utxos s', sled_spent s') = (sled_utxos s, sled_spent s) ∧ r ≠ Ok tt ∨
   (sled_utxos s', sled_spent s') = applied) ∧
  (r = Ok tt → tree_map (meta s') !! META_APPLY_IN_PROGRESS = None).
Proof.
  intros Hs Hh. unfold SledStore.apply_block, mbind, ST_bind.
  destruct (SledStore.write_sentinel b s) as [r1 s1] eqn:Hw.
  apply write_sentinel_spec in Hw as (Hs1 & [m1 ->] & _); [|done].
  destruct r1 as [[]|e|]; [|intros [= <- <-]; split_and!; auto; done..].
  destruct (SledStore.update_utxo b _) as [r2 s2] eqn:Hx.
  apply update_utxo_spec in Hx as (Hs2 & [ts ->] & Hu2); [|done..].
  destruct r2 as [[]|e|]; [|intros [= <- <-]; split_and!; auto; done..].
  intros (Hs3 & [m3 ->] & Hf)%clear_sentinel_spec; [|done].
  split_and!; try done; [by right|].
  intros ->. rewrite Hf by done. apply lookup_delete_eq.
Qed.

(** *** [rollback_block] *)

Lemma undo_utxo_spec b s r s' :
  sled_ok_for T s → u64 (height (header b)) → SledStore.undo_utxo b s = (r, s') →
  sled_ok_for T s' ∧ (∃ ts, s' = SledStore.set_utxo s ts) ∧
  (sled_utxos s', sled_spent s') =
    match r with
    | Ok _ => foldl (log_undo_tx (height (header b))) (sled_utxos s, sled_spent s) (reverse (txs b))
    | _ => (sled_utxos s, sled_spent s)
    end.
Proof.
  intros Hs Hh. unfold SledStore.undo_utxo.
  destruct (sled_transaction2 _ _) as [r' [tu ts]] eqn:Ht. intros [= <- <-].
  pose proof (encodes2_ok s Hs) as He.
  destruct r' as [e|[]]; cbn [of_sum map_err].
  - apply sled_transaction2_inl in Ht as [Hu Hsp].
    destruct (sled_set_utxo s (tu, ts) (sled_utxos s, sled_spent s)) as (? & Hu' & Hsp');
      [done|by cbn; rewrite Hu, Hsp|]. rewrite Hu', Hsp'. eauto.
  - apply sled_transaction2_inr in Ht.
    apply (encodes_undo_body _ _ _ (txs b) Hh) in He. rewrite <- Ht in He.
    destruct (sled_set_utxo s (tu, ts) _ Hs He) as (? & Hu' & Hsp').
    rewrite Hu', Hsp', <- surjective_pairing. eauto.
Qed.

(** The tip bytes prepared for the chain without its highest block. *)
Lemma parent_tip_spec b s t :
  sled_ok s → u64 (height (header b)) → is_tip (sled_chain s) (height (header b)) →
  (0 < height (header b) → is_Some (sled_chain s !! (height (header b) - 1))) →
  SledStore.parent_tip b s = Ok t →
  tip_ok t (delete (height (header b)) (sled_chain s)).
Proof.
  intros Hs Hh [_ Hmax] Hp. unfold SledStore.parent_tip. case_match eqn:Hz; Zbool.
  - intros [= <-]. cbn. apply map_eq. intros k. rewrite lookup_empty.
    destruct (decide (k = height (header b))) as [->|Hk]; [apply lookup_delete_eq|].
    rewrite lookup_delete_ne by done. destruct (sled_chain s !! k) as [b'|] eqn:Hb'; [|done].
    assert (u64 k) as [] by (apply (ok_blocks s Hs); by eexists).
    specialize (Hmax k ltac:(by eexists)). lia.
  - assert (u64 (height (header b) - 1)) by (unfold u64 in *; lia).
    intros (p & Hg & Ht)%res_bind_Ok. apply (sled_read_height (T := tip_ok)) in Hg; [|done..].
    destruct Hp as [b' Hb']; [unfold u64 in *; lia|]. rewrite Hb' in Hg. subst p. cbn in Ht.
    injection Ht as <-. eexists. split; [done|]. split; [split|].
    + rewrite lookup_delete_ne by lia. by eexists.
    + intros k [Hk Hk']%lookup_delete_is_Some. specialize (Hmax k Hk'). lia.
    + exists b'. rewrite lookup_delete_ne by lia. done.
Qed.

Lemma unlink_block_spec b t s r s' :
  sled_ok_for T s → u64 (height (header b)) →
  T t (delete (height (header b)) (sled_chain s)) →
  SledStore.unlink_block b t s = (r, s') →
  sled_ok_for T s' ∧ sled_utxos s' = sled_utxos s ∧ sled_validators s' = sled_validators s ∧
  sled_spent s' = sled_spent s ∧
  sled_chain s' = match r with
    | Ok _ => delete (height (header b)) (sled_chain s)
    | _ => sled_chain s
    end.
Proof.
  intros Hs Hh Htip. unfold SledStore.unlink_block.
  destruct (sled_transaction3 _ _) as [[e|[]] [[bh bi] m]] eqn:Ht; intros [= <- <-].
  - apply sled_transaction3_inl in Ht as (Hbh & _ & Hm).
    assert (sled_chain (mkSledStore _ bh bi (utxo_tree s) (validators_tree s) m (spent_h s))
            = sled_chain s) as Hc by (unfold sled_chain; cbn; by rewrite Hbh).
    split_and!; try done. destruct Hs. constructor; try done; cbn; rewrite ?Hbh, ?Hm, ?Hc; done.
  - apply sled_transaction3_inr in Ht. injection Ht as Hbh _ Hm.
    destruct (encodes_encoded blocks_codec _ _
      (encodes_delete blocks_codec _ _ _ Hh (ok_blocks s Hs))) as [Henc Hdec].
    change (tree_map bh = delete (enc_key blocks_codec (height (header b)))
      (tree_map (blocks_h s))) in Hbh. rewrite <- Hbh in Henc, Hdec.
    split_and!; try done. destruct Hs. constructor; try done. cbn. rewrite Hm.
    unfold sled_chain at 1. cbn. rewrite Hdec.
    destruct t as [bs|]; by rewrite ?lookup_insert_eq, ?lookup_delete_eq.
Qed.
End writing.

(** ** The storage laws *)

Section laws.
Context `{Crypto} `{CoreJson} `{Sled}.
Implicit Types (s : SledStore).

Lemma sled_rollback_for T b s r s' :
  sled_ok_for T s → u64 (height (header b)) →
  (∀ ts t, SledStore.parent_tip b (SledStore.set_utxo s ts) = Ok t →
     T t (delete (height (header b)) (sled_chain s))) →
  SledStore.rollback_block b s = (r, s') →
  let undone := foldl (log_undo_tx (height (header b))) (sled_utxos s, sled_spent s)
                  (reverse (txs b)) in
  sled_ok_for T s' ∧ sled_validators s' = sled_validators s ∧
  (sled_chain s' = sled_chain s ∧ r ≠ Ok tt ∨
   sled_chain s' = delete (height (header b)) (sled_chain s)) ∧
  ((sled_utxos s', sled_spent s') = (sled_utxos s, sled_spent s) ∧ r ≠ Ok tt ∨
   (sled_utxos s', sled_spent s') = undone).
Proof.
  intros Hs Hh Hpar. unfold SledStore.rollback_block, mbind, ST_bind, reads.
  destruct (SledStore.undo_utxo b s) as [r1 s1] eqn:Hu.
  apply (undo_utxo_spec (T := T)) in Hu as (Hs1 & [ts ->] & Hu); [|done..].
  destruct r1 as [[]|e|]; [|intros [= <- <-]; split_and!; auto; done..].
  destruct (SledStore.parent_tip b _) as [t|e|] eqn:Ht;
    [|intros [= <- <-]; split_and!; auto; done..].
  apply Hpar in Ht. intros Hun.
  apply (unlink_block_spec (T := T)) in Hun as (Hs2 & Hut & Hv & Hsp & Hc); [|done..].
  rewrite Hut, Hv, Hsp. split_and!; try done; [|by right].
  destruct r as [[]|e|]; rewrite Hc; auto; by left.
Qed.

Lemma rollback_keeps_tip b s :
  sled_ok s → u64 (height (header b)) → is_tip (sled_chain s) (height (header b)) →
  (0 < height (header b) → is_Some (sled_chain s !! (height (header b) - 1))) →
  ∀ ts t, SledStore.parent_tip b (SledStore.set_utxo s ts) = Ok t →
    tip_ok t (delete (height (header b)) (sled_chain s)).
Proof. intros Hs Hh Htip Hpar ts t Ht. exact (parent_tip_spec b s t Hs Hh Htip Hpar Ht). Qed.

Lemma sled_upsert_spec v s r s' :
  sled_ok s → SledStore.upsert v s = (r, s') →
  sled_ok s' ∧ sled_chain s' = sled_chain s ∧ sled_utxos s' = sled_utxos s ∧
  sled_spent s' = sled_spent s ∧
  (r = Ok tt → sled_validators s' = <[v_address v := v]> (sled_validators s)) ∧
  (sled_validators s' = sled_validators s ∨
   sled_validators s' = <[v_address v := v]> (sled_validators s) ∧
   v_address v = Address.from_pubkey_bytes (vk_as_bytes (v_pubkey v))).
Proof.
  intros Hs. unfold SledStore.upsert. case_bool_decide as Hv.
  { intros [= <- <-]. split_and!; auto; done. }
  destruct (sled_insert _ _ _) as [r' t] eqn:Ht. intros [= <- <-].
  assert (tree_map t = tree_map (validators_tree s) ∧ r' ≠ inr tt ∨
    tree_map t = <[enc_key validators_codec (v_address v) := enc_val validators_codec v]>
      (tree_map (validators_tree s))) as [[Hm Hr]|Hm].
  { destruct r' as [e|[]]; [apply sled_insert_inl in Ht as []; auto|].
    right. by apply sled_insert_inr in Ht. }
  - assert (sled_validators (mkSledStore _ (blocks_h s) (blocks_idx s) (utxo_tree s) t (meta s)
      (spent_h s)) = sled_validators s) as Hvs by (unfold sled_validators; cbn; by rewrite Hm).
    split_and!; try done; [|destruct r' as [|[]]; done|by left].
    destruct Hs. constructor; try done; cbn; by rewrite ?Hm, ?Hvs.
  - destruct (encodes_encoded validators_codec _ _
      (encodes_insert validators_codec _ _ (v_address v) v I (ok_validators s Hs))) as [Henc Hdec].
    rewrite <- Hm in Henc, Hdec.
    split_and!; try done; [|by right].
    destruct Hs. constructor; try done. unfold sled_validators. cbn. rewrite Hdec.
    by apply map_Forall_insert_2.
Qed.

Lemma sled_undoable_applied b s s' :
  txs_apply (txs b) (sled_utxos s) → NoDup (block_spent b) →
  (sled_utxos s', sled_spent s') =
    foldl (log_apply_tx (height (header b))) (sled_utxos s, sled_spent s) (txs b) →
  sled_undoable b (sled_utxos s) s'.
Proof. intros Hb Hnd Hu. unfold sled_undoable. by rewrite Hu, log_undo_applied. Qed.

#[global] Program Instance sled_laws : StoreLaws SledStore := {|
  view := sled_view;
  store_ok := sled_ok;
  undoable := sled_undoable;
|}.
Next Obligation. intros s t. apply sled_read_tip. Qed.
Next Obligation. intros s h r. apply sled_read_height. Qed.
Next Obligation. intros s r o. apply sled_read_out. Qed.
Next Obligation. intros s h bs. apply sled_read_range. Qed.
Next Obligation. intros s slot vs. apply sled_read_active. Qed.
Next Obligation. intros s a t. apply sled_read_balance. Qed.
Next Obligation. intros s a l. apply sled_read_list. Qed.
Next Obligation. intros s Hs. apply Hs. Qed.
Next Obligation.
  intros s v r s' Hs Hu. destruct (sled_upsert_spec v s r s' Hs Hu) as (? & ? & Hut & Hsp & ? & ?).
  split_and!; try done. intros b u. unfold sled_undoable. by rewrite Hut, Hsp.
Qed.
Next Obligation.
  intros s b r s' Hs Hh Hmax Hi.
  destruct (sled_insert_for s b r s' Hs Hh (tip_ok_insert _ b _ Hmax) Hi) as (? & Hut & ? & Hsp & ?).
  split_and!; try done. intros b0 u. unfold sled_undoable. by rewrite Hut, Hsp.
Qed.
Next Obligation.
  intros s b r s' Hs Hh Ha.
  destruct (sled_apply_spec b s r s' Hs Hh Ha) as (? & ? & ? & Hu & _).
  assert ((sled_utxos s', sled_spent s') =
    foldl (log_apply_tx (height (header b))) (sled_utxos s, sled_spent s) (txs b) →
    sled_utxos s' = ledger_block b (sled_utxos s)) as Hfst.
  { intros Heq. apply (f_equal fst) in Heq. by rewrite log_apply_txs_fst in Heq. }
  split_and!; try done.
  - intros Hr. destruct Hu as [[_ ?]|Hu]; [done|auto].
  - destruct Hu as [[Hu _]|Hu]; [left; by injection Hu|right; auto].
  - intros Hr Hb. destruct Hu as [[_ ?]|Hu]; [done|].
    apply sled_undoable_applied; [by apply txs_independent_apply|apply Hb|done].
Qed.
Next Obligation.
  intros s b h r s' Hs Htip Hpar Hb Hh Hbh Hr. subst h.
  destruct (sled_rollback_for _ b s r s' Hs Hh (rollback_keeps_tip b s Hs Hh Htip Hpar) Hr) as (? & ? & Hc & Hu).
  split_and!; try done; [naive_solver|].
  intros u -> <-. destruct Hu as [[_ ?]|Hu]; [done|]. unfold sled_undoable. by rewrite <- Hu.
Qed.
End laws.

(** *** Concurrent callers

    The stored tip may lag behind or run ahead of the chain, but is the hash of a
    block that was stored. *)

Section safety.
Context `{Crypto} `{CoreJson} `{Sled}.
Implicit Types (D : Block → Prop) (s : SledStore).

Definition tip_safe D (stored : option (list byte)) (c : gmap Z Block) : Prop :=
  (∀ h b, c !! h = Some b → height (header b) = h ∧ u64 h ∧ D b) ∧
  match stored with
  | None => True
  | Some bs => ∃ p, bs = to_vec (height (header p), Block_hash p) ∧ D p
  end.
Definition sled_safe D : SledStore → Prop := sled_ok_for (tip_safe D).

Lemma tip_safe_insert D stored c b :
  tip_safe D stored c → D b → u64 (height (header b)) →
  tip_safe D (Some (to_vec (height (header b), Block_hash b))) (<[height (header b) := b]> c).
Proof.
  intros [Hc _] Hb Hu. split; [|by exists b].
  intros h b' [[<- <-]|[_ Hb']]%lookup_insert_Some; [done|by apply Hc].
Qed.

Lemma tip_safe_rollback D s b ts t :
  sled_safe D s → u64 (height (header b)) →
  SledStore.parent_tip b (SledStore.set_utxo s ts) = Ok t →
  tip_safe D t (delete (height (header b)) (sled_chain s)).
Proof.
  intros Hs Hu Ht. destruct (ok_tip s Hs) as [Hc _]. split.
  { intros h b' [_ Hb']%lookup_delete_Some. by apply Hc. }
  change (SledStore.parent_tip b s = Ok t) in Ht. unfold SledStore.parent_tip in Ht.
  case_match eqn:Hz; [by injection Ht as <-|]. Zbool.
  assert (u64 (height (header b) - 1)) by (unfold u64 in *; lia).
  apply res_bind_Ok in Ht as (p & Hg & Ht).
  apply (sled_read_height (T := tip_safe D)) in Hg as ->; [|done..].
  destruct (sled_chain s !! _) as [p|] eqn:Hp; cbn in Ht; injection Ht as <-; [|done].
  destruct (Hc _ _ Hp) as (Hh & _ & HD). exists p. by rewrite Hh.
Qed.

#[global] Program Instance sled_safety : StoreSafety SledStore := {|
  blocks_safe := sled_safe;
|}.
Next Obligation.
  intros D s [] Hc. constructor; [done..|]. split; [done|].
  destruct (tree_map (meta s) !! META_TIP) as [bs|]; [|done].
  destruct ok_tip0 as ([h hash] & -> & _ & b & Hb & ->). destruct (Hc _ _ Hb) as (Hh & _ & HD).
  exists b. by rewrite Hh.
Qed.
Next Obligation.
  intros D D' s HD []. destruct ok_tip0 as [Hc Ht]. constructor; [done..|].
  split; [intros h b Hb; destruct (Hc _ _ Hb) as (? & ? & ?); auto|].
  destruct (tree_map _ !! _); [|done]. destruct Ht as (p & -> & Hp). exists p. auto.
Qed.
Next Obligation. intros D s h b Hs. apply (ok_tip s Hs). Qed.
Next Obligation.
  intros D s h hash Hs. destruct (ok_tip s Hs) as [_ Ht]. cbn. unfold SledStore.tip.
  destruct (sled_get META_TIP (meta s)) as [e|[bs|]] eqn:Hg; [done| |done].
  apply sled_get_inr in Hg. rewrite <- Hg in Ht. destruct Ht as (p & -> & HD).
  rewrite decode_to_vec. intros [= <- <-]. by exists p.
Qed.
Next Obligation. intros D s h r. apply sled_read_height. Qed.
Next Obligation. intros D s slot vs. apply sled_read_active. Qed.
Next Obligation. intros D s Hs. apply (ok_validator_keys s Hs). Qed.
Next Obligation.
  intros D s b r s' Hs HD Hu Hi.
  destruct (sled_insert_for s b r s' Hs Hu (tip_safe_insert D _ _ b (ok_tip s Hs) HD Hu) Hi)
    as (? & _ & ? & _ & Hc).
  split_and!; [done|done|]. cbn. rewrite Hc. destruct r; auto.
Qed.
Next Obligation.
  intros D s b r s' Hs Hu Ha. by destruct (sled_apply_spec b s r s' Hs Hu Ha) as (? & ? & ? & _).
Qed.
Next Obligation.
  intros D s b r s' Hs Hu Hr.
  destruct (sled_rollback_for _ b s r s' Hs Hu (fun ts t => tip_safe_rollback D s b ts t Hs Hu) Hr)
    as (? & ? & [[? _]|?] & _); auto.
Qed.
End safety.

(** A freshly created database represents the empty ledger. *)
Lemma new_temporary_ok `{Crypto} `{CoreJson} `{Sled} s :
  SledStore.new_temporary = Ok s → sled_ok s ∧ sled_view s = mkLedger ∅ ∅ ∅.
Proof.
  unfold SledStore.new_temporary, SledStore.open_trees.
  intros (db & Hdb%of_sum_Ok & Ht)%res_bind_Ok.
  repeat (apply res_bind_Ok in Ht as (? & ?%of_sum_Ok%(sled_open_tree_temporary _ _ _ Hdb) & Ht)).
  injection Ht as <-.
  assert (Hmap : ∀ {K V} `{Countable K} (c : Codec K V) (t : Tree), tree_map t = ∅ →
    encoded c (tree_map t) ∧ decoded c (tree_map t) = ∅).
  { intros K V ?? c t ->. apply encodes_encoded, encodes_empty. }
  destruct (Hmap _ _ _ _ blocks_codec x) as [? Hc]; [done|].
  destruct (Hmap _ _ _ _ utxo_codec x1) as [? Hu]; [done|].
  destruct (Hmap _ _ _ _ validators_codec x2) as [? Hv]; [done|].
  destruct (Hmap _ _ _ _ spent_codec x4) as [? _]; [done|].
  split.
  - constructor; try done; unfold sled_validators, sled_chain; cbn.
    + rewrite Hv. apply map_Forall_empty.
    + rewrite Hc. match goal with Hm : tree_map x3 = ∅ |- _ => by rewrite Hm, lookup_empty end.
  - unfold sled_view, sled_chain, sled_utxos, sled_validators. cbn. by rewrite Hc, Hu, Hv.
Qed.

(** ** Properties *)

Section properties.
Context `{Crypto} `{CoreJson} `{Sled}.
Implicit Types (s : SledStore).

(** C21: [apply_block] is atomic and leaves the store consistent whatever call
    fails: the unspent outputs are those before the block or those after it,
    the chain and the validators are untouched, and on success the outputs are
    updated and the crash sentinel is cleared. *)
Theorem sled_apply_atomic b s r s' :
  sled_ok s → u64 (height (header b)) → SledStore.apply_block b s = (r, s') →
  sled_ok s' ∧ sled_chain s' = sled_chain s ∧ sled_validators s' = sled_validators s ∧
  (sled_utxos s' = sled_utxos s ∨ sled_utxos s' = ledger_block b (sled_utxos s)) ∧
  (r = Ok tt → sled_utxos s' = ledger_block b (sled_utxos s) ∧
               tree_map (meta s') !! META_APPLY_IN_PROGRESS = None).
Proof.
  intros Hs Hh Ha. destruct (sled_apply_spec b s r s' Hs Hh Ha) as (? & ? & ? & _ & Hf).
  destruct (apply_law (StoreLaws := sled_laws) s b r s' Hs Hh Ha) as (_ & _ & _ & Hok & Hor & _).
  split_and!; try done. intros Hr. split; auto.
Qed.

(** C20: applying a block and rolling it back restores the unspent outputs and
    the undo data, even when a transaction of the block spends an output that
    an earlier one created; the block leaves the chain, and the stored tip is
    its parent. *)
Theorem sled_apply_rollback b s s1 s2 :
  sled_ok s → u64 (height (header b)) →
  is_tip (sled_chain s) (height (header b)) →
  (0 < height (header b) → is_Some (sled_chain s !! (height (header b) - 1))) →
  txs_apply (txs b) (sled_utxos s) → NoDup (block_spent b) →
  (∀ r, r ∈ block_spent b → sled_spent s !! (height (header b), r) = None) →
  SledStore.apply_block b s = (Ok tt, s1) → SledStore.rollback_block b s1 = (Ok tt, s2) →
  sled_utxos s2 = sled_utxos s ∧ sled_spent s2 = sled_spent s ∧
  sled_chain s2 = delete (height (header b)) (sled_chain s) ∧
  (∀ t, SledStore.tip s2 = Ok t → tip_of (delete (height (header b)) (sled_chain s)) t).
Proof.
  intros Hs Hh Htip Hpar Hb Hnd Hno Ha Hr.
  destruct (sled_apply_spec b s _ _ Hs Hh Ha) as (Hs1 & Hc1 & _ & [[_ ?]|Hu1] & _); [done|].
  rewrite <- Hc1 in Htip, Hpar |- *.
  destruct (sled_rollback_for _ b s1 _ _ Hs1 Hh (rollback_keeps_tip b s1 Hs1 Hh Htip Hpar) Hr) as (Hs2 & _ & [[_ ?]|Hc2] & [[_ ?]|Hu2]);
    [done..|].
  rewrite Hu1, log_undo_applied in Hu2 by done. injection Hu2 as Hut Hsp.
  split_and!; [done| |done|intros t Ht; rewrite <- Hc2; by apply sled_read_tip].
  rewrite Hsp. apply map_eq. intros [k r]. rewrite lookup_drop_spent.
  case_decide as Hk; [|done]. destruct Hk as [-> Hr']. symmetry. by apply Hno.
Qed.
End properties.
