(* ===== verification/Reliable.v ===== *)
(** * Stores whose calls succeed

    The storage laws allow every call to fail.  [Reliable] says that none does;
    the in-memory store is reliable, and the persistent one is when its database
    is.  On a reliable store validation depends on the represented ledger only,
    so that a block found valid by one node is valid for every node that has the
    same ledger, whichever store it uses. *)

From S2P Require Import Prelude Bytes Types Encoding Consensus Store Ledger Validation MemoryStore SledStore.

(** ** The interface *)

Class Reliable (S : Type) `{StoreLaws S} := {
  rel_tip s : store_ok s → ∃ t, tip s = Ok t;
  rel_height h s : store_ok s → u64 h → ∃ x, get_by_height h s = Ok x;
  rel_hash k s : get_by_hash k s ≠ Panic;
  rel_rollback b s : store_ok s → u64 (height (header b)) → ∃ s', rollback_block b s = (Ok tt, s');

  (** The hash of a block that has never been stored. *)
  unknown : BlockHash → S → Prop;
  unknown_hash k s : unknown k s → get_by_hash k s = Ok None;
  unknown_insert k b s r s' : insert_block b s = (r, s') → k ≠ Block_hash b → unknown k s → unknown k s';
  unknown_apply k b s r s' : apply_block b s = (r, s') → unknown k s → unknown k s';
  rel_get r s : store_ok s → ∃ o, utxo_get r s = Ok o;
  rel_active sl s : store_ok s → ∃ vs, all_active sl s = Ok vs;
  rel_insert b s : ∃ s', insert_block b s = (Ok tt, s');
  rel_apply b s : ∃ s', apply_block b s = (Ok tt, s');
}.

(** A call that returns what the represented ledger holds. *)
Section reads.
Context {S : Type} `{Reliable S}.
Implicit Types s : S.

Lemma get_view r s : store_ok s → utxo_get r s = Ok (utxos (view s) !! r).
Proof. intros Hs. destruct (rel_get r s Hs) as [o Ho]. by rewrite Ho, (get_law s r o Hs Ho). Qed.

Lemma height_view h s : store_ok s → u64 h → get_by_height h s = Ok (chain (view s) !! h).
Proof. intros Hs Hh. destruct (rel_height h s Hs Hh) as [x Hx]. by rewrite Hx, (height_law s h x Hs Hh Hx). Qed.
End reads.

(** ** The in-memory store *)

#[global, program] Instance memory_reliable `{Crypto} `{CoreJson} `{BuildProfile} `{HashOrder} `{UnstableSort} :
  Reliable MemoryStore := {| unknown k s := ms_index s !! k = None |}.
Solve Obligations with try (by eexists); try done.
Next Obligation. intros ????? k s Hk. cbn. unfold MemoryStore.get_by_hash. by rewrite Hk. Qed.
Next Obligation. intros ????? k b s r s' [= <- <-] Hne Hk. cbn. by rewrite lookup_insert_ne. Qed.
Next Obligation. intros ????? k b s r s' [= <- <-] Hk. cbn. by destruct (foldl _ _ _). Qed.

(** ** The persistent store *)

(** A database no call of which fails. *)
Class SledUp `{Sled} := {
  up_get k t : ∃ v, sled_get k t = inr v;
  up_insert k v t : ∃ t', sled_insert k v t = (inr tt, t');
  up_remove k t : ∃ t', sled_remove k t = (inr tt, t');
  up_iter t : ∃ l, sled_iter t = inr <$> l;
  up_transaction2 f ts : ∃ ts', sled_transaction2 f ts = (inr tt, ts');
  up_transaction3 f ts : ∃ ts', sled_transaction3 f ts = (inr tt, ts');
}.

Section sled.
Context `{Crypto} `{CoreJson} `{SledUp}.
Implicit Types (s : SledStore).

Lemma decode_returns {A} `{Json A} bs : decode (A := A) bs ≠ Panic.
Proof. unfold decode. by destruct (from_slice bs). Qed.

(** A present entry of a tree that encodes a map is decoded. *)
Lemma lookup_encoded {K V} `{Countable K} `{Json V} (c : Codec K V) (t : Tree) k :
  (∀ v, enc_val c v = to_vec v) → encoded c (tree_map t) → codec_key c k →
  ∃ r : option V, match sled_get (enc_key c k) t with
  | inr (Some bytes) => Some <$> decode bytes
  | inr None => Ok None
  | inl e => Err (Backend e)
  end = Ok r.
Proof.
  intros Hval Ht Hk. destruct (up_get (enc_key c k) t) as [v Hv]. rewrite Hv.
  apply sled_get_inr in Hv. rewrite (encodes_lookup c _ _ k Hk Ht) in Hv. subst v.
  destruct (decoded c (tree_map t) !! k) as [x|]; cbn; [|by eexists].
  rewrite Hval, decode_to_vec. by eexists.
Qed.

(** Collecting a list of results none of which fails. *)
Lemma collect_Ok {A E} (l : list (Res E A)) : Forall (fun r => ∃ a, r = Ok a) l → ∃ k, collect_res l = Ok k.
Proof.
  intros Hl. assert (∃ k, l = Ok <$> k) as [k Hk].
  { induction Hl as [|r l [a ->] _ [k ->]]; [by exists []|by exists (a :: k)]. }
  exists k. by apply collect_res_Ok.
Qed.

Lemma sled_active_Ok sl s : sled_ok s → ∃ vs, SledStore.all_active sl s = Ok vs.
Proof.
  intros Hs. unfold SledStore.all_active. destruct (up_iter (validators_tree s)) as [l Hl]. rewrite Hl.
  destruct (iter_encoded validators_codec _ _ (ok_validators s Hs) Hl) as (l' & -> & _ & _ & _).
  apply collect_Ok, Forall_forall. intros r Hr. apply list_elem_of_omap in Hr as (x & Hx & Hr).
  apply list_elem_of_fmap in Hx as (y & -> & Hy). apply list_elem_of_fmap in Hy as ([a v] & -> & _).
  cbn in Hr. rewrite decode_to_vec in Hr. destruct (is_active sl v); [|done]. injection Hr as <-. by eexists.
Qed.

Lemma sled_tip_Ok s : sled_ok s → ∃ t, SledStore.tip s = Ok t.
Proof.
  intros Hs. pose proof (ok_tip s Hs) as Ht. unfold SledStore.tip.
  destruct (up_get META_TIP (meta s)) as [v Hv]. rewrite Hv. apply sled_get_inr in Hv. rewrite <- Hv in Ht.
  destruct v as [bs|]; [|by eexists]. destruct Ht as (t & -> & _). rewrite decode_to_vec. by eexists.
Qed.

Lemma sled_apply_Ok b s : ∃ s', SledStore.apply_block b s = (Ok tt, s').
Proof.
  unfold SledStore.apply_block, SledStore.write_sentinel, SledStore.update_utxo, SledStore.clear_sentinel, mbind, ST_bind.
  destruct (up_insert META_APPLY_IN_PROGRESS (height_key (height (header b))) (meta s)) as [t1 ->]. cbn.
  destruct (up_transaction2 (SledStore.apply_body (height (header b)) (txs b))
    (utxo_tree s, spent_h s)) as [ts ->]. cbn.
  destruct (up_remove META_APPLY_IN_PROGRESS t1) as [t2 ->]. by eexists.
Qed.
Lemma sled_hash_Ok k s : SledStore.get_by_hash k s ≠ Panic.
Proof.
  unfold SledStore.get_by_hash, SledStore.get_by_height. destruct (sled_get k _) as [e|[hb|]]; [done| |done].
  destruct (_ =? 8)%nat; [|done]. destruct (sled_get _ _) as [e|[bs|]]; [done| |done].
  pose proof (decode_returns (A := Block) bs) as Hd. by destruct (decode bs).
Qed.

Lemma sled_height_Ok h s : sled_ok s → u64 h → ∃ x, SledStore.get_by_height h s = Ok x.
Proof. intros Hs Hh. apply (lookup_encoded blocks_codec); [done|apply Hs|done]. Qed.

Lemma sled_rollback_Ok b s : sled_ok s → u64 (height (header b)) → ∃ s', SledStore.rollback_block b s = (Ok tt, s').
Proof.
  intros Hs Hh. unfold SledStore.rollback_block, SledStore.undo_utxo, reads, mbind, ST_bind.
  destruct (up_transaction2 (SledStore.undo_body (height (header b)) (txs b)) (utxo_tree s, spent_h s)) as [ts ->]. cbn [of_sum map_err].
  assert (∃ x, SledStore.parent_tip b (SledStore.set_utxo s ts) = Ok x) as [x ->].
  { unfold SledStore.parent_tip. destruct (Z.eqb_spec (height (header b)) 0); [by eexists|].
    destruct (sled_height_Ok (height (header b) - 1) s Hs) as [p Hp]; [unfold u64 in *; lia|].
    change (SledStore.get_by_height (height (header b) - 1) (SledStore.set_utxo s ts))
      with (SledStore.get_by_height (height (header b) - 1) s).
    rewrite Hp. cbn [mbind Res_bind]. destruct p; by eexists. }
  unfold SledStore.unlink_block.
  destruct (up_transaction3 (SledStore.unlink_body (height_key (height (header b))) (Block_hash b) x)
    (blocks_h s, blocks_idx s, meta s)) as [[[bh bi] m] Ht].
  cbn [SledStore.set_utxo blocks_h blocks_idx meta]. rewrite Ht. by eexists.
Qed.

Lemma sled_insert_index b s r s' : SledStore.insert b s = (r, s') →
  tree_map (blocks_idx s') = tree_map (blocks_idx s) ∨
  tree_map (blocks_idx s') = <[Block_hash b := height_key (height (header b))]> (tree_map (blocks_idx s)).
Proof.
  unfold SledStore.insert. destruct (sled_transaction3 _ _) as [[e|x] [[bh bi] m]] eqn:Ht; intros [= <- <-]; cbn.
  - apply sled_transaction3_inl in Ht as (_ & ? & _). by left.
  - apply sled_transaction3_inr in Ht. right. cbn in Ht. by injection Ht.
Qed.

Lemma sled_apply_index b s r s' : SledStore.apply_block b s = (r, s') → blocks_idx s' = blocks_idx s.
Proof.
  unfold SledStore.apply_block, SledStore.write_sentinel, SledStore.update_utxo, SledStore.clear_sentinel, mbind, ST_bind.
  destruct (sled_insert _ _ _) as [[e|[]] t1]; cbn; [by intros [= <- <-]|].
  destruct (sled_transaction2 _ _) as [[e|[]] ts]; cbn; [by intros [= <- <-]|].
  destruct (sled_remove _ _) as [x t2]. by intros [= <- <-].
Qed.
End sled.

#[global, program] Instance sled_reliable `{Crypto} `{CoreJson} `{SledUp} : Reliable SledStore := {|
  rel_tip := sled_tip_Ok; rel_height h s := sled_height_Ok h s; rel_hash := sled_hash_Ok;
  rel_rollback := sled_rollback_Ok; rel_active := sled_active_Ok; rel_apply := sled_apply_Ok;
  unknown k s := tree_map (blocks_idx s) !! k = None;
|}.
Next Obligation.
  intros ???? k s Hk. cbn. unfold SledStore.get_by_hash. destruct (up_get k (blocks_idx s)) as [x Hx]. rewrite Hx.
  apply sled_get_inr in Hx. cbn in Hk. rewrite Hk in Hx. by subst x.
Qed.
Next Obligation. intros ???? k b s r s' [Hi|Hi]%sled_insert_index Hne Hk; cbn in *; rewrite Hi; [done|]. by rewrite lookup_insert_ne. Qed.
Next Obligation. intros ???? k b s r s' Ha Hk. cbn in *. by rewrite (sled_apply_index _ _ _ _ Ha). Qed.
Next Obligation. intros ???? r s Hs. apply (lookup_encoded utxo_codec); [done|apply Hs|done]. Qed.
Next Obligation.
  intros ???? b s. cbn. unfold SledStore.insert.
  destruct (up_transaction3 (SledStore.insert_body (height_key (height (header b))) (Block_hash b) (to_vec b)
    (to_vec (height (header b), Block_hash b))) (blocks_h s, blocks_idx s, meta s)) as [[[bh bi] m] ->]. by eexists.
Qed.

(** ** Validation across stores *)

Section agreement.
Context `{Crypto} `{CoreJson} `{BuildProfile} {S1 S2 : Type}.
Context `{!BlockStore S1, !UtxoStore S1, !ValidatorStore S1, !StoreLaws S1}.
Context `{!BlockStore S2, !UtxoStore S2, !ValidatorStore S2, !StoreLaws S2, !Reliable S2}.
(** What one node accepts, every reliable node with the same ledger accepts. *)
Lemma inputs_agree (s1 : S1) (s2 : S2) msg i total ins t :
  store_ok s1 → store_ok s2 → utxos (view s1) = utxos (view s2) →
  check_inputs s1 msg i total ins = Ok t → check_inputs s2 msg i total ins = Ok t.
Proof.
  intros Hs1 Hs2 Hu. rewrite !check_inputs_Ok. intros (os & Hos & ->). exists os. split; [|done].
  eapply Forall2_impl; [exact Hos|]. intros input o (Hg & Ha & Hv). split_and!; [|done..].
  apply get_law in Hg; [|done]. by rewrite get_view, <- Hu, <- Hg.
Qed.

Lemma transactions_agree (s1 : S1) (s2 : S2) tx :
  store_ok s1 → store_ok s2 → utxos (view s1) = utxos (view s2) →
  validate_transaction tx s1 = Ok tt → validate_transaction tx s2 = Ok tt.
Proof.
  intros Hs1 Hs2 Hu. unfold validate_transaction. case_bool_decide; [done|].
  destruct (check_outputs 0 (outputs tx)) as [[]|e|]; [|done..]. cbn [mbind Res_bind].
  intros (t & Hin%(inputs_agree s1 s2) & Ht)%res_bind_Ok; [|done..]. by rewrite Hin.
Qed.

Lemma blocks_agree (s1 : S1) (s2 : S2) b p d :
  store_ok s1 → store_ok s2 → view s1 = view s2 →
  validate_block b p s1 s1 d = Ok tt → validate_block b p s2 s2 d = Ok tt.
Proof.
  intros Hs1 Hs2 Hv. rewrite !validate_block_spec. intros [Hh Hp Ha Hsl (vs & v & Hact & Hel & Hprop & Hsig) Hm Htxs].
  destruct (rel_active (slot (header b)) s2 Hs2) as [vs2 Hact2].
  assert (vs2 = vs) as -> by (eapply (active_lists_agree s2 s1); try done; by rewrite Hv).
  constructor; try done.
  - exists vs, v. by split_and!.
  - eapply Forall_impl; [exact Htxs|]. cbv beta. intros tx. apply transactions_agree; [done..|by rewrite Hv].
Qed.
End agreement.
