(* ===== verification/Mempool.v ===== *)
(** * The mempool ([bcc-node/src/mempool.rs], [bcc-node/src/error.rs])

    The pool of unconfirmed transactions: admission, eviction, removal and the
    selection of transactions for a block, with the invariant its documentation
    states and the behaviour of every branch of [add]. *)

From S2P Require Import Prelude Bytes Types Store Ledger Validation.

(** ** Errors of the node *)

(** I/O, database and parsing errors are given by their message. *)
Inductive NodeError :=
| NodeStore (e : StoreError)
| NodeValidation (msg : string)
| NodeP2p (msg : string)
| NodeIo (msg : string)
| NodeSled (msg : string)
| NodeConfigError (msg : string)
| NodeShutdown.

Definition NodeError_to_string (e : NodeError) : string :=
  match e with
  | NodeStore e => "store: " +:+ StoreError_to_string e
  | NodeValidation msg => "validation: " +:+ msg
  | NodeP2p msg => "p2p: " +:+ msg
  | NodeIo msg => "I/O: " +:+ msg
  | NodeSled msg => "sled: " +:+ msg
  | NodeConfigError msg => "config: " +:+ msg
  | NodeShutdown => "node shutting down"
  end.

(** ** [IndexMap]

    A map that keeps its entries in a vector: a new key goes to the end,
    [swap_remove] fills the gap with the last entry. *)
Section index_map.
Context {K A : Type} `{EqDecision K}.
Implicit Types (l : list (K * A)).

Definition im_get (k : K) l : option A := snd <$> head (filter (fun kv => kv.1 = k) l).
Definition im_contains (k : K) l : bool := bool_decide (k ∈ l.*1).

(** Replaces the value of a present key, appends a new one. *)
Definition im_insert (k : K) (a : A) l : list (K * A) :=
  if im_contains k l then (fun kv => if decide (kv.1 = k) then (k, a) else kv) <$> l
  else l ++ [(k, a)].

(** The removed value and the remaining entries. *)
Definition im_swap_remove (k : K) l : option A * list (K * A) :=
  match list_find (fun kv => kv.1 = k) l with
  | None => (None, l)
  | Some (i, (_, a)) =>
      let n := (length l - 1)%nat in
      (Some a,
       match l !! n with
       | Some x => take n (<[i := x]> l)
       | None => l
       end)
  end.
End index_map.
#[global] Arguments im_insert : simpl never.
#[global] Arguments im_contains : simpl never.

(** ** State *)

Record AddedToPool := mkAddedToPool {
  added_tx_hash : string;
  added_value : Z;
  pool_size : nat;
  evicted : option string;
  newly_added : bool;
}.

Record Mempool := mkMempool {
  mp_txs : list (TxHash * Transaction);
  in_flight : gset TxOutRef;
  values : gmap TxHash Z;
  max_size : nat;
}.

Module Mempool.

Definition new (max_size : nat) : Mempool := mkMempool [] ∅ ∅ max_size.

Section operations.
Context `{Crypto} `{CoreJson} `{BuildProfile} `{HashOrder} `{UnstableSort}.
Context {St : Type} `{!UtxoStore St}.

Definition remove_one (hash : TxHash) (m : Mempool) : Mempool :=
  match im_swap_remove hash (mp_txs m) with
  | (Some tx, txs') =>
      mkMempool txs' (foldl (fun s input => s ∖ {[out_ref input]}) (in_flight m) (inputs tx))
        (delete hash (values m)) (max_size m)
  | (None, txs') => mkMempool txs' (in_flight m) (values m) (max_size m)
  end.

(** [Iterator::min_by_key]: the first of the least elements. *)
Definition min_by_value (l : list (TxHash * Z)) : option (TxHash * Z) :=
  match l with
  | [] => None
  | x :: l' => Some (foldl (fun best y => if y.2 <? best.2 then y else best) x l')
  end.

(** The double-spend guard. *)
Fixpoint check_in_flight (ins : list TxInput) (s : gset TxOutRef) : Res NodeError unit :=
  match ins with
  | [] => Ok tt
  | input :: ins' =>
      if bool_decide (out_ref input ∈ s)
      then Err (NodeValidation "double spend: input already in mempool")
      else check_in_flight ins' s
  end.

(** The eviction at capacity: the hash of the evicted transaction, if any. *)
Definition evict (new_value : Z) : ST Mempool NodeError (option string) := fun m =>
  if (max_size m <=? length (mp_txs m))%nat then
    match min_by_value (hash_iter (values m)) with
    | None => (Err (NodeValidation "mempool at capacity"), m)
    | Some (min_hash, min_value) =>
        if new_value <=? min_value
        then (Err (NodeValidation "mempool at capacity"), m)
        else (Ok (Some (hex_encode min_hash)), remove_one min_hash m)
    end
  else (Ok None, m).

Definition insert_tx (hash : TxHash) (new_value : Z) (tx : Transaction) (m : Mempool) : Mempool :=
  mkMempool (im_insert hash tx (mp_txs m))
    (foldl (fun s input => s ∪ {[out_ref input]}) (in_flight m) (inputs tx))
    (<[hash := new_value]> (values m)) (max_size m).

Definition add (tx : Transaction) (utxo : St) : ST Mempool NodeError AddedToPool := fun m =>
  let hash := Transaction_hash tx in
  let hash_hex := hex_encode hash in
  if im_contains hash (mp_txs m) then
    (Ok (mkAddedToPool hash_hex (default 0 (values m !! hash)) (length (mp_txs m)) None false), m)
  else
    (_ ← reads (fun _ => map_err (fun e => NodeValidation (TxValidationError_to_string e))
                          (validate_transaction tx utxo));
     _ ← reads (fun m => check_in_flight (inputs tx) (in_flight m));
     new_value ← reads (fun _ => u64_sum (amount <$> outputs tx));
     evicted_hex ← evict new_value;
     _ ← modifies (insert_tx hash new_value tx);
     reads (fun m => Ok (mkAddedToPool hash_hex new_value (length (mp_txs m)) evicted_hex true))) m.

Definition remove (hashes : list TxHash) (m : Mempool) : Mempool :=
  foldl (fun m hash => remove_one hash m) m hashes.

Definition len (m : Mempool) : nat := length (mp_txs m).

(** The cached value of a pooled transaction. *)
Definition tx_value (m : Mempool) (tx : Transaction) : Z :=
  default 0 (values m !! Transaction_hash tx).
Definition drain (max : nat) (m : Mempool) : list Transaction :=
  let by_value := (fun kv => (tx_value m kv.2, kv.2)) <$> mp_txs m in
  (take max (sort_unstable (fun a b => b.1 <=? a.1) by_value)).*2.

End operations.
End Mempool.

(** ** Lemmas on the index map *)

Section index_map_lemmas.
Context {K A : Type} `{EqDecision K}.
Implicit Types (l : list (K * A)).

Lemma take_insert_last i n (x y : K * A) l :
  length l = S n → l !! i = Some y → l !! n = Some x → y :: take n (<[i := x]> l) ≡ₚ l.
Proof.
  intros Hn Hi Hx.
  assert (l = take n l ++ [x]) as Hl.
  { rewrite <- take_S_r by done. by rewrite take_ge by lia. }
  assert (i ≤ n)%nat by (apply lookup_lt_Some in Hi; lia).
  destruct (decide (i = n)) as [->|Hne].
  - simplify_eq. rewrite list_insert_id by done. rewrite Hl at 2.
    by rewrite Permutation_app_comm.
  - rewrite take_insert_lt by lia.
    assert (take n l !! i = Some y) as Hi' by (rewrite lookup_take_lt; [done|lia]).
    rewrite insert_take_drop by (apply lookup_lt_Some in Hi'; lia).
    pose proof (take_drop_middle (take n l) i y Hi') as Hm.
    transitivity (y :: x :: (take i (take n l) ++ drop (S i) (take n l))).
    { apply perm_skip. by rewrite Permutation_middle. }
    set (t := take i (take n l)) in *. set (d := drop (S i) (take n l)) in *.
    rewrite Hl, <- Hm, Permutation_swap, (Permutation_app_comm _ [x]). cbn.
    by rewrite <- Permutation_middle.
Qed.

Lemma im_swap_remove_Some k a l l' :
  im_swap_remove k l = (Some a, l') → (k, a) :: l' ≡ₚ l.
Proof.
  unfold im_swap_remove. destruct (list_find _ l) as [[i [k' a']]|] eqn:Hf; [|done].
  apply list_find_Some in Hf as (Hi & Hk & _). cbn in Hk. subst k'.
  assert (i < length l)%nat by by eapply lookup_lt_Some.
  destruct (lookup_lt_is_Some_2 l (length l - 1)) as [x Hx]; [lia|]. rewrite Hx.
  intros [= <- <-]. apply take_insert_last; [lia|done|done].
Qed.

Lemma im_swap_remove_None k l l' : im_swap_remove k l = (None, l') → l' = l ∧ k ∉ l.*1.
Proof.
  unfold im_swap_remove. destruct (list_find _ l) as [[i [k' a']]|] eqn:Hf; [done|].
  intros [= <-]. split; [done|]. apply list_find_None in Hf. rewrite Forall_forall in Hf.
  intros ([k'' a] & -> & Hin)%list_elem_of_fmap. by apply (Hf _ Hin).
Qed.

Lemma im_contains_spec k l : im_contains k l = true ↔ k ∈ l.*1.
Proof. unfold im_contains. by rewrite bool_decide_eq_true. Qed.

Lemma im_insert_new k a l : im_contains k l = false → im_insert k a l = l ++ [(k, a)].
Proof. unfold im_insert. by intros ->. Qed.
End index_map_lemmas.

(** ** The invariant *)

Section invariant.
Context `{Crypto} `{CoreJson} `{BuildProfile}.

(** The total output value of a transaction as the mempool computes it. *)
Definition pool_value (tx : Transaction) : Res NodeError Z := u64_sum (amount <$> outputs tx).

(** The invariants of the type's documentation: no two transactions reference
    the same output and the pool respects its cap; and its three collections
    describe the same transactions. *)
Record mempool_ok (m : Mempool) : Prop := mkMempoolOk {
  mp_keys : NoDup (mp_txs m).*1;
  mp_hashes : ∀ k tx, (k, tx) ∈ mp_txs m → k = Transaction_hash tx;
  mp_values : ∀ k, is_Some (values m !! k) ↔ k ∈ (mp_txs m).*1;
  mp_sums : ∀ k tx v, (k, tx) ∈ mp_txs m → values m !! k = Some v → pool_value tx = Ok v;
  mp_flight : ∀ r, r ∈ in_flight m ↔ ∃ k tx, (k, tx) ∈ mp_txs m ∧ r ∈ spent_refs tx;
  mp_disjoint : ∀ k1 t1 k2 t2 r, (k1, t1) ∈ mp_txs m → (k2, t2) ∈ mp_txs m → k1 ≠ k2 →
    r ∈ spent_refs t1 → r ∉ spent_refs t2;
  mp_cap : (length (mp_txs m) ≤ max_size m)%nat;
}.

Lemma mempool_new_ok n : mempool_ok (Mempool.new n).
Proof.
  constructor; cbn; try set_solver; [constructor| |lia].
  intros k. rewrite lookup_empty. split; [by intros [??]|set_solver].
Qed.

Lemma elem_of_key {A} (l : list (TxHash * A)) k : k ∈ l.*1 ↔ ∃ a, (k, a) ∈ l.
Proof.
  rewrite list_elem_of_fmap. split; [|intros [a ?]; by exists (k, a)].
  intros ([k' a] & -> & ?). by exists a.
Qed.

Lemma elem_of_remove_flight (ins : list TxInput) (s : gset TxOutRef) r :
  r ∈ foldl (fun s input => s ∖ {[out_ref input]}) s ins ↔ r ∈ s ∧ r ∉ out_ref <$> ins.
Proof.
  revert s. induction ins as [|i ins IH]; intros s; cbn; [set_solver|].
  rewrite IH. set_solver.
Qed.

Lemma elem_of_add_flight (ins : list TxInput) (s : gset TxOutRef) r :
  r ∈ foldl (fun s input => s ∪ {[out_ref input]}) s ins ↔ r ∈ s ∨ r ∈ out_ref <$> ins.
Proof.
  revert s. induction ins as [|i ins IH]; intros s; cbn; [set_solver|].
  rewrite IH. set_solver.
Qed.

(** Removal keeps the invariant and removes exactly the given transaction. *)
Lemma remove_one_ok h m :
  mempool_ok m →
  mempool_ok (Mempool.remove_one h m) ∧ max_size (Mempool.remove_one h m) = max_size m ∧
  (∀ k tx, (k, tx) ∈ mp_txs (Mempool.remove_one h m) ↔ (k, tx) ∈ mp_txs m ∧ k ≠ h) ∧
  (h ∈ (mp_txs m).*1 → length (mp_txs m) = S (length (mp_txs (Mempool.remove_one h m)))) ∧
  values (Mempool.remove_one h m) = delete h (values m).
Proof.
  intros Hm. unfold Mempool.remove_one.
  destruct (im_swap_remove h (mp_txs m)) as [[tx|] l'] eqn:Hr.
  - apply im_swap_remove_Some in Hr.
    assert (Hnd : NoDup ((h, tx) :: l').*1) by (rewrite Hr; apply Hm).
    cbn in Hnd. apply NoDup_cons in Hnd as [Hh Hnd].
    assert (Hin : ∀ k t, (k, t) ∈ l' ↔ (k, t) ∈ mp_txs m ∧ k ≠ h).
    { intros k t. rewrite <- Hr, elem_of_cons. split.
      - intros Hk. split; [by right|]. intros ->. apply Hh, elem_of_key. eauto.
      - naive_solver. }
    assert (Hh' : (h, tx) ∈ mp_txs m) by (rewrite <- Hr; set_solver).
    cbn. split_and!; [|done|done|intros _; by rewrite <- Hr|done].
    constructor; cbn.
    + done.
    + intros k t [Hk _]%Hin. by apply Hm.
    + intros k. rewrite lookup_delete_is_Some, (mp_values m Hm), !elem_of_key.
      setoid_rewrite Hin. naive_solver.
    + intros k t v [Hk Hne]%Hin. rewrite lookup_delete_ne by done. by apply Hm.
    + intros r. rewrite elem_of_remove_flight, (mp_flight m Hm). setoid_rewrite Hin. split.
      * intros [(k & t & Hk & Hr') Hnr]. exists k, t. split_and!; try done.
        intros ->. assert (t = tx) as ->; [|done].
        rewrite <- Hr in Hk. apply elem_of_cons in Hk as [[= ->]|Hk]; [done|].
        destruct Hh. apply elem_of_key. eauto.
      * intros (k & t & [Hk Hne] & Hr'). split; [eauto|].
        by apply (mp_disjoint m Hm k t h tx).
    + intros k1 t1 k2 t2 r [Hk1 _]%Hin [Hk2 _]%Hin. by apply Hm.
    + pose proof (mp_cap m Hm) as Hcap. rewrite <- Hr in Hcap. cbn in Hcap. lia.
  - apply im_swap_remove_None in Hr as [-> Hh].
    assert (values m !! h = None) as Hv.
    { apply eq_None_not_Some. by rewrite (mp_values m Hm). }
    cbn. split_and!; [by destruct Hm|done| |done|by rewrite delete_id].
    intros k t. split; [|naive_solver]. intros Hk. split; [done|].
    intros ->. apply Hh, elem_of_key. eauto.
Qed.

Lemma remove_ok hs m :
  mempool_ok m →
  mempool_ok (Mempool.remove hs m) ∧ max_size (Mempool.remove hs m) = max_size m ∧
  (∀ k tx, (k, tx) ∈ mp_txs (Mempool.remove hs m) ↔ (k, tx) ∈ mp_txs m ∧ k ∉ hs).
Proof.
  revert m. induction hs as [|h hs IH]; intros m Hm; [cbn; set_solver|].
  change (Mempool.remove (h :: hs) m) with (Mempool.remove hs (Mempool.remove_one h m)).
  destruct (remove_one_ok h m Hm) as (Hm1 & Hmax & Hin & _).
  destruct (IH _ Hm1) as (? & Hmax2 & Hin2). split_and!; [done|congruence|].
  intros k tx. rewrite Hin2, Hin. set_solver.
Qed.

(** Adding a transaction whose inputs nothing in the pool references. *)
Lemma insert_tx_ok m tx v :
  mempool_ok m → Transaction_hash tx ∉ (mp_txs m).*1 →
  (∀ r, r ∈ spent_refs tx → r ∉ in_flight m) → pool_value tx = Ok v →
  (length (mp_txs m) < max_size m)%nat →
  mempool_ok (Mempool.insert_tx (Transaction_hash tx) v tx m).
Proof.
  intros Hm Hh Hd Hv Hcap. unfold Mempool.insert_tx.
  rewrite im_insert_new by (rewrite <- not_true_iff_false, im_contains_spec; done).
  assert (Hnew : ∀ k t r, (k, t) ∈ mp_txs m → r ∈ spent_refs tx → r ∉ spent_refs t).
  { intros k t r Hk Hr Hr'. apply (Hd r Hr), (mp_flight m Hm). eauto. }
  constructor; cbn.
  - rewrite fmap_app. apply NoDup_app. split_and!; [apply Hm| |apply NoDup_singleton].
    set_solver.
  - intros k t [Hk|Hk]%elem_of_app; [by apply Hm|set_solver].
  - intros k. rewrite lookup_insert_is_Some, (mp_values m Hm), fmap_app, elem_of_app.
    cbn. rewrite list_elem_of_singleton. destruct (decide (Transaction_hash tx = k)); naive_solver.
  - intros k t w [Hk|Hk]%elem_of_app.
    + assert (k ≠ Transaction_hash tx) by (intros ->; apply Hh, elem_of_key; eauto).
      rewrite lookup_insert_ne by done. by apply Hm.
    + apply list_elem_of_singleton in Hk as [= -> ->]. rewrite lookup_insert_eq. by intros [= <-].
  - intros r. rewrite elem_of_add_flight, (mp_flight m Hm). setoid_rewrite elem_of_app.
    setoid_rewrite list_elem_of_singleton. split.
    + intros [(k & t & ? & ?)|Hr]; [by exists k, t; auto|]. exists (Transaction_hash tx), tx. auto.
    + intros (k & t & [Hk|[= -> ->]] & Hr); [left; eauto|by right].
  - intros k1 t1 k2 t2 r. rewrite !elem_of_app, !list_elem_of_singleton.
    intros [Hk1|[= -> ->]] [Hk2|[= -> ->]] Hne Hr.
    + by apply (mp_disjoint m Hm k1 t1 k2 t2).
    + intros Hr'. by apply (Hnew k1 t1 r).
    + by apply (Hnew k2 t2 r).
    + done.
  - rewrite length_app. cbn. lia.
Qed.
End invariant.

(** ** Properties *)

Section properties.
Context `{Crypto} `{CoreJson} `{BuildProfile} `{HashOrder} `{UnstableSort}.
Context {St : Type} `{!UtxoStore St}.
Implicit Types (m : Mempool) (tx : Transaction) (utxo : St).

Lemma min_by_value_spec l x :
  Mempool.min_by_value l = Some x → x ∈ l ∧ ∀ y, y ∈ l → x.2 ≤ y.2.
Proof.
  destruct l as [|z l]; [done|]. cbn. intros [= <-]. revert z.
  induction l as [|y l IH]; intros z; cbn; [set_solver by lia|].
  destruct (IH (if y.2 <? z.2 then y else z)) as [Hin Hmin].
  split; [case_match; set_solver|].
  intros w. rewrite !elem_of_cons. intros Hw.
  pose proof (Hmin _ (list_elem_of_here _ _)) as Hhd.
  destruct Hw as [->|[->|Hw]]; [| |by apply Hmin; right]; case_match; Zbool; lia.
Qed.

Lemma min_by_value_None l : Mempool.min_by_value l = None → l = [].
Proof. by destruct l. Qed.

(** The outcome of an eviction: below the cap nothing happens, at the cap the
    pool loses a transaction of least value, which is less than the new one. *)
Lemma evict_spec v m r m' :
  mempool_ok m → Mempool.evict v m = (r, m') →
  match r with
  | Ok None => m' = m ∧ (length (mp_txs m) < max_size m)%nat
  | Ok (Some h) => (max_size m ≤ length (mp_txs m))%nat ∧
      ∃ k w, h = hex_encode k ∧ k ∈ (mp_txs m).*1 ∧ values m !! k = Some w ∧ w < v ∧
        (∀ k' w', values m !! k' = Some w' → w ≤ w') ∧ m' = Mempool.remove_one k m
  | Err e => m' = m ∧ e = NodeValidation "mempool at capacity" ∧
      (max_size m ≤ length (mp_txs m))%nat ∧
      ∀ k w, values m !! k = Some w → ∃ k' w', values m !! k' = Some w' ∧ w' ≤ w ∧ v ≤ w'
  | Panic => False
  end.
Proof.
  intros Hm. unfold Mempool.evict. case_match eqn:Hcap.
  2:{ intros [= <- <-]. apply Nat.leb_gt in Hcap. done. }
  apply Nat.leb_le in Hcap.
  destruct (Mempool.min_by_value _) as [[k w]|] eqn:Hmin.
  - apply min_by_value_spec in Hmin as [Hin Hmin].
    rewrite hash_iter_perm, elem_of_map_to_list in Hin.
    assert (Hle : ∀ k' w', values m !! k' = Some w' → w ≤ w').
    { intros k' w' Hk'. apply (Hmin (k', w')). by rewrite hash_iter_perm, elem_of_map_to_list. }
    case_match; Zbool; intros [= <- <-].
    + split_and!; try done. intros k' w' Hk'. exists k, w. eauto.
    + split; [done|]. exists k, w. split_and!; try done.
      apply (mp_values m Hm). by eexists.
  - apply min_by_value_None in Hmin. intros [= <- <-]. split_and!; try done.
    intros k w Hk. apply elem_of_map_to_list in Hk. rewrite <- hash_iter_perm, Hmin in Hk.
    set_solver.
Qed.

Lemma check_in_flight_cases ins s :
  match Mempool.check_in_flight ins s with
  | Ok _ => ∀ r, r ∈ out_ref <$> ins → r ∉ s
  | Err e => e = NodeValidation "double spend: input already in mempool" ∧
             ∃ r, r ∈ out_ref <$> ins ∧ r ∈ s
  | Panic => False
  end.
Proof.
  induction ins as [|i ins IH]; cbn; [set_solver|].
  case_bool_decide; [split; [done|set_solver]|].
  destruct (Mempool.check_in_flight ins s) as [[]|e|]; [set_solver| |done].
  destruct IH as [-> (r & ? & ?)]. set_solver.
Qed.

(** A successful admission of a new transaction. *)
Definition admitted (tx : Transaction) (utxo : St) (m : Mempool) (a : AddedToPool) (m' : Mempool) :
    Prop :=
  Transaction_hash tx ∉ (mp_txs m).*1 ∧ validate_transaction tx utxo = Ok tt ∧
  (∀ r, r ∈ spent_refs tx → r ∉ in_flight m) ∧ pool_value tx = Ok (added_value a) ∧
  ((evicted a = None ∧ (length (mp_txs m) < max_size m)%nat ∧
    mp_txs m' ≡ₚ (Transaction_hash tx, tx) :: mp_txs m) ∨
   (∃ k old w, evicted a = Some (hex_encode k) ∧ (k, old) ∈ mp_txs m ∧
      length (mp_txs m) = max_size m ∧
      values m !! k = Some w ∧ w < added_value a ∧
      (∀ k' w', values m !! k' = Some w' → w ≤ w') ∧
      ∀ k' t, (k', t) ∈ mp_txs m' ↔
        (k', t) = (Transaction_hash tx, tx) ∨ (k', t) ∈ mp_txs m ∧ k' ≠ k)).

Lemma add_cases tx utxo m r m' :
  mempool_ok m → Mempool.add tx utxo m = (r, m') →
  mempool_ok m' ∧
  match r with
  | Ok a =>
      if newly_added a then admitted tx utxo m a m'
      else m' = m ∧ Transaction_hash tx ∈ (mp_txs m).*1
  | Err e =>
      m' = m ∧ Transaction_hash tx ∉ (mp_txs m).*1 ∧
      ((∃ err, validate_transaction tx utxo = Err err ∧
          e = NodeValidation (TxValidationError_to_string err)) ∨
       (e = NodeValidation "double spend: input already in mempool" ∧
          ∃ r, r ∈ spent_refs tx ∧ r ∈ in_flight m) ∨
       (e = NodeValidation "mempool at capacity" ∧
          length (mp_txs m) = max_size m ∧
          ∃ v, pool_value tx = Ok v ∧ ∀ k w, values m !! k = Some w → v ≤ w))
  | Panic => m' = m
  end.
Proof.
  intros Hm. unfold Mempool.add. destruct (im_contains _ _) eqn:Hc.
  { apply im_contains_spec in Hc. intros [= <- <-]. done. }
  assert (Hh : Transaction_hash tx ∉ (mp_txs m).*1).
  { rewrite <- im_contains_spec. by rewrite Hc. }
  unfold mbind, ST_bind, reads, modifies.
  destruct (validate_transaction tx utxo) as [[]|e|] eqn:Hv; cbn.
  2:{ intros [= <- <-]. split_and!; eauto. }
  2:{ intros [= <- <-]. done. }
  pose proof (check_in_flight_cases (inputs tx) (in_flight m)) as Hf.
  destruct (Mempool.check_in_flight (inputs tx) (in_flight m)) as [[]|e|]; [| |done].
  2:{ destruct Hf as [-> Hr]. intros [= <- <-]. split_and!; auto. }
  destruct (u64_sum (amount <$> outputs tx)) as [v|e|] eqn:Hsum.
  2:{ by apply u64_sum_not_Err in Hsum. }
  2:{ intros [= <- <-]. done. }
  destruct (Mempool.evict v m) as [re me] eqn:He. apply evict_spec in He; [|done].
  destruct re as [[h|]|e|]; [| | |done].
  - destruct He as (Hcap & k & w & -> & Hk & Hw & Hlt & Hmin & ->).
    destruct (remove_one_ok k m Hm) as (Hm1 & Hmax & Hin & Hlen & _). specialize (Hlen Hk).
    pose proof (mp_cap m Hm). apply elem_of_key in Hk as [old Hold].
    assert (Hh1 : Transaction_hash tx ∉ (mp_txs (Mempool.remove_one k m)).*1).
    { intros [t [Ht _]%Hin]%elem_of_key. apply Hh, elem_of_key. eauto. }
    intros [= <- <-]. unfold admitted. cbn. split.
    + apply insert_tx_ok; try done; [|lia].
      intros r Hr. rewrite (mp_flight _ Hm1). intros (k' & t & [Hk' _]%Hin & Hr').
      apply (Hf r Hr), (mp_flight m Hm). eauto.
    + split_and!; try done. right. exists k, old, w. split_and!; try done; [lia|].
      intros k' t. rewrite im_insert_new by by rewrite <- not_true_iff_false, im_contains_spec.
      rewrite elem_of_app, list_elem_of_singleton, Hin. naive_solver.
  - destruct He as [-> Hcap]. intros [= <- <-].
    unfold admitted. cbn. split; [by apply insert_tx_ok|].
    split_and!; try done. left. split_and!; try done.
    rewrite im_insert_new by done. by rewrite Permutation_app_comm.
  - destruct He as (-> & -> & Hcap & Hall). intros [= <- <-]. split_and!; try done.
    right. right. pose proof (mp_cap m Hm). split_and!; [done|lia|].
    exists v. split; [done|]. intros k w Hk. destruct (Hall k w Hk) as (k' & w' & ? & ? & ?). lia.
Qed.

(** A valid transaction without conflicts is admitted as long as there is room. *)
Lemma add_succeeds tx utxo m :
  mempool_ok m → validate_transaction tx utxo = Ok tt →
  (∀ r, r ∈ spent_refs tx → r ∉ in_flight m) → (length (mp_txs m) < max_size m)%nat →
  ∃ a m', Mempool.add tx utxo m = (Ok a, m').
Proof.
  intros Hm Hv Hf Hroom. destruct (Mempool.add tx utxo m) as [[a|e|] m'] eqn:Ha; [eauto|exfalso..].
  - apply add_cases in Ha as (_ & _ & _ & [(err & He & _)|[(_ & r & Hr & Hin)|(_ & Hcap & _)]]); [..|done].
    + congruence.
    + by apply (Hf r).
    + lia.
  - revert Ha. unfold Mempool.add. case_match; [done|].
    unfold mbind, ST_bind, reads, modifies. rewrite Hv. cbn.
    pose proof (check_in_flight_cases (inputs tx) (in_flight m)) as Hc.
    destruct (Mempool.check_in_flight _ _) as [[]|e|]; [|done..].
    apply validate_transaction_spec in Hv as (_ & _ & spent & t & _ & Hsum & _).
    rewrite (u64_sum_error_type _ _ Hsum). unfold Mempool.evict. by repeat case_match.
Qed.

(** C23: [add] keeps the documented invariants whatever it returns: no two
    pooled transactions reference the same output, the pool never exceeds its
    cap, and the transactions, the referenced outputs and the cached values
    agree. *)
Theorem mempool_add_invariant tx utxo m r m' :
  mempool_ok m → Mempool.add tx utxo m = (r, m') → mempool_ok m'.
Proof. intros Hm Ha. by destruct (add_cases _ _ _ _ _ Hm Ha). Qed.

(** C22: the outcomes of [add].  A rejected transaction leaves the pool as it
    was, and is invalid, conflicts with a pooled one, or is worth no more than
    every transaction of a full pool.  An accepted one is valid and conflicts
    with none; it displaces a transaction only in a full pool, one of least
    value, worth less than the new one.  Adding a pooled transaction again
    changes nothing. *)
Theorem mempool_add_outcome tx utxo m r m' :
  mempool_ok m → Mempool.add tx utxo m = (r, m') →
  match r with
  | Ok a =>
      if newly_added a then admitted tx utxo m a m'
      else m' = m ∧ Transaction_hash tx ∈ (mp_txs m).*1
  | Err e =>
      m' = m ∧ Transaction_hash tx ∉ (mp_txs m).*1 ∧
      ((∃ err, validate_transaction tx utxo = Err err ∧
          e = NodeValidation (TxValidationError_to_string err)) ∨
       (e = NodeValidation "double spend: input already in mempool" ∧
          ∃ r, r ∈ spent_refs tx ∧ r ∈ in_flight m) ∨
       (e = NodeValidation "mempool at capacity" ∧
          length (mp_txs m) = max_size m ∧
          ∃ v, pool_value tx = Ok v ∧ ∀ k w, values m !! k = Some w → v ≤ w))
  | Panic => m' = m
  end.
Proof. intros Hm Ha. by destruct (add_cases _ _ _ _ _ Hm Ha). Qed.

(** [remove] takes out exactly the transactions with the given hashes and
    keeps the invariants. *)
Theorem mempool_remove_exact hs m :
  mempool_ok m →
  mempool_ok (Mempool.remove hs m) ∧
  ∀ k tx, (k, tx) ∈ mp_txs (Mempool.remove hs m) ↔ (k, tx) ∈ mp_txs m ∧ k ∉ hs.
Proof. intros Hm. by destruct (remove_ok hs m Hm) as (? & _ & ?). Qed.

(** [drain] selects [max] pooled transactions (all of them when there are
    fewer), in descending order of value, and prefers the valuable ones: no
    transaction left out is worth more than a selected one. *)
Theorem mempool_drain_best max m :
  ∃ rest,
    Mempool.drain max m ++ rest ≡ₚ (mp_txs m).*2 ∧
    length (Mempool.drain max m) = Nat.min max (length (mp_txs m)) ∧
    StronglySorted (fun a b => Mempool.tx_value m b ≤ Mempool.tx_value m a)
      (Mempool.drain max m) ∧
    ∀ a b, a ∈ Mempool.drain max m → b ∈ rest → Mempool.tx_value m b ≤ Mempool.tx_value m a.
Proof.
  unfold Mempool.drain. set (l := (fun kv => (Mempool.tx_value m kv.2, kv.2)) <$> mp_txs m).
  set (le := fun a b : Z * Transaction => b.1 <=? a.1). set (s := sort_unstable le l).
  assert (Hp : s ≡ₚ l) by apply sort_unstable_perm.
  assert (Hs : StronglySorted (fun a b => le a b) s).
  { apply sort_unstable_sorted; unfold le; intros; rewrite !Is_true_true, ?Z.leb_le in *; lia. }
  assert (Hval : ∀ x, x ∈ s → x.1 = Mempool.tx_value m x.2).
  { intros x. rewrite Hp. unfold l. by intros (kv & -> & _)%list_elem_of_fmap. }
  exists (drop max s).*2. split_and!.
  - rewrite <- fmap_app, take_drop, Hp. unfold l. by rewrite <- list_fmap_compose.
  - rewrite length_fmap, length_take, Hp. unfold l. by rewrite length_fmap.
  - apply StronglySorted_fmap_2. apply (StronglySorted_take _ _ max) in Hs.
    assert (Hval' : ∀ x, x ∈ take max s → x.1 = Mempool.tx_value m x.2).
    { intros x Hx. apply Hval. rewrite <- (take_drop max s). set_solver. }
    revert Hs Hval'. generalize (take max s) as t. induction 1 as [|x t Ht IH Hx]; intros Hv.
    { constructor. }
    constructor; [apply IH; set_solver|]. rewrite Forall_forall in *. intros y Hy.
    specialize (Hx y Hy). unfold le in Hx. rewrite Is_true_true, Z.leb_le in Hx.
    rewrite <- !Hv by set_solver. done.
  - intros a b (x & -> & Hx)%list_elem_of_fmap (y & -> & Hy)%list_elem_of_fmap.
    pose proof (StronglySorted_take_drop _ _ _ _ _ Hs Hx Hy) as Hle. unfold le in Hle.
    rewrite Is_true_true, Z.leb_le in Hle.
    assert (x ∈ s) by (rewrite <- (take_drop max s); set_solver).
    assert (y ∈ s) by (rewrite <- (take_drop max s); set_solver).
    rewrite <- !Hval by done. done.
Qed.
End properties.
