(* ===== verification/DebugEvent.v ===== *)
(** * Debug events ([bcc-node/src/debug_event.rs])

    The events a node reports and the calendar arithmetic of their time stamps. *)

From Stdlib Require Import Ascii.
From S2P Require Import Prelude Bytes Types.

(** [SocketAddr] is represented by an IP address, as text, and a port. *)
Record SocketAddr := mkSocketAddr { ip : string; port : Z }.
#[global] Instance SocketAddr_eqdec : EqDecision SocketAddr.
Proof. solve_decision. Defined.
#[global] Program Instance SocketAddr_countable : Countable SocketAddr :=
  inj_countable' (fun a => (ip a, port a)) (fun '(i, p) => mkSocketAddr i p) _.
Next Obligation. by intros []. Qed.

Definition addr_to_string (a : SocketAddr) : string := ip a +:+ ":" +:+ pretty (port a).

Inductive DebugEvent :=
| NodeStarting (node http_addr p2p_addr : string)
| HttpApiReady (http_addr : string)
| NodeStopping
| IbdStarting (from_height : Z)
| IbdBatch (height : Z)
| IbdComplete (synced_to : Z)
| SlotTick (slot tip_height : Z)
| SlotNotProposer (slot : Z) (elected_proposer : string)
| MempoolDrain (slot : Z) (mempool_size : nat)
| BlockProposed (height : Z) (hash : string) (slot : Z) (txs : nat) (proposer : string)
| PeerConnected (addr : string) (peer_count : nat)
| PeerDisconnected (addr : string) (peer_count : nat)
| BlockFromPeer (from : string) (height : Z) (hash : string) (txs : nat) (proposer : string)
| BlockRejected (from : string) (height : Z) (hash : string) (reason : string)
| BlockIgnored (from : string) (block_height local_tip : Z) (hash : string)
| BlockReorged (height : Z) (new_tip evicted : string)
| TxGossipAccepted (from tx_hash : string)
| TxGossipRejected (from tx_hash reason : string)
| TxAccepted (tx_hash : string) (value : Z) (pool_size : nat)
| TxRejected (tx_hash reason : string)
| TxEvicted (evicted new_tx : string)
| ApiTxAccepted (tx_hash : string)
| ApiTxRejected (tx_hash reason : string)
| ApiGetTip (height : Z) (hash : string)
| ScenarioEvent (scenario step status detail : string)
| NodeSnapshot (tip_height : Z) (tip_hash : string) (peers : list string) (mempool_size : nat).

Record DebugEnvelope := mkDebugEnvelope { ts : string; event : DebugEvent }.

(** ** Time stamps *)

(** [if y % 400 == 0 { 1 } else if y % 100 == 0 { 0 } else if y % 4 == 0 { 1 } else { 0 }] *)
Definition leap (y : Z) : Z :=
  if y `mod` 400 =? 0 then 1
  else if y `mod` 100 =? 0 then 0
  else if y `mod` 4 =? 0 then 1
  else 0.

(** The loop over the years, with a bound on the iterations. *)
Fixpoint years_loop (fuel : nat) (y days : Z) : Z * Z :=
  match fuel with
  | O => (y, days)
  | S fuel' =>
      let year_days := 365 + leap y in
      if days <? year_days then (y, days) else years_loop fuel' (y + 1) (days - year_days)
  end.

(** The loop over the months of a year. *)
Fixpoint months_loop (month_days : list Z) (m days : Z) : Z * Z :=
  match month_days with
  | [] => (m, days)
  | md :: rest => if days <? md then (m, days) else months_loop rest (m + 1) (days - md)
  end.

Definition month_days (y : Z) : list Z :=
  [31; 28 + leap y; 31; 30; 31; 30; 31; 31; 30; 31; 30; 31].

(** A year has at least 365 days, which bounds the number of years. *)
Definition epoch_to_ymd (days : Z) : Z * Z * Z :=
  let '(y, days) := years_loop (Z.to_nat (days `div` 365 + 1)) 1970 days in
  let '(m, days) := months_loop (month_days y) 0 days in
  (y, m + 1, days + 1).

(** [{z:0n}] *)
Definition zero_pad (n : nat) (z : Z) : string :=
  let s := pretty z in
  String.string_of_list_ascii (replicate (n - String.length s) "0"%char) +:+ s.

Definition format_ts (millis : Z) : string :=
  let secs := millis `div` 1000 in
  let ms := millis `mod` 1000 in
  let mins := secs `div` 60 in
  let s := secs `mod` 60 in
  let hours := mins `div` 60 in
  let m := mins `mod` 60 in
  let days := hours `div` 24 in
  let h := hours `mod` 24 in
  let '(year, month, day) := epoch_to_ymd (wrap_u32 days) in
  zero_pad 4 year +:+ "-" +:+ zero_pad 2 month +:+ "-" +:+ zero_pad 2 day +:+ "T"
  +:+ zero_pad 2 h +:+ ":" +:+ zero_pad 2 m +:+ ":" +:+ zero_pad 2 s +:+ "."
  +:+ zero_pad 3 ms +:+ "Z".

(** [DebugEnvelope::now], given the clock's reading in milliseconds. *)
Definition envelope_at (millis : Z) (e : DebugEvent) : DebugEnvelope :=
  mkDebugEnvelope (format_ts millis) e.

(** ** The Gregorian calendar *)

(** Days from 1 January 1970 to 1 January of a year, from the rule for leap
    years in closed form. *)
Definition leaps_before (y : Z) : Z := (y - 1) `div` 4 - (y - 1) `div` 100 + (y - 1) `div` 400.
Definition days_to_year (y : Z) : Z := 365 * (y - 1970) + (leaps_before y - leaps_before 1970).
Definition days_of (d : Z * Z * Z) : Z :=
  let '(y, m, d) := d in
  days_to_year y + sumZ (take (Z.to_nat (m - 1)) (month_days y)) + (d - 1).
Definition valid_date (d : Z * Z * Z) : Prop :=
  let '(y, m, d) := d in
  1970 ≤ y ∧ 1 ≤ m ≤ 12 ∧
  ∃ md, month_days y !! Z.to_nat (m - 1) = Some md ∧ 1 ≤ d ≤ md.

Lemma leap_range y : 0 ≤ leap y ≤ 1.
Proof. unfold leap. repeat case_match; lia. Qed.

Lemma days_to_year_step y : days_to_year (y + 1) = days_to_year y + (365 + leap y).
Proof.
  unfold days_to_year, leaps_before, leap.
  repeat case_match; Zbool; Z.div_mod_to_equations; lia.
Qed.

Lemma years_loop_spec fuel y days :
  0 ≤ days → days `div` 365 < Z.of_nat fuel →
  let '(y', days') := years_loop fuel y days in
  y ≤ y' ∧ 0 ≤ days' < 365 + leap y' ∧ days_to_year y' + days' = days_to_year y + days.
Proof.
  revert y days. induction fuel as [|fuel IH]; intros y days Hd Hf.
  - pose proof (Z.div_pos days 365 Hd). lia.
  - cbn [years_loop]. cbv zeta. pose proof (leap_range y). destruct (days <? 365 + leap y) eqn:Hlt; Zbool; [lia|].
    assert ((days - (365 + leap y)) `div` 365 < Z.of_nat fuel) by (Z.div_mod_to_equations; lia).
    specialize (IH (y + 1) (days - (365 + leap y)) ltac:(lia) ltac:(done)).
    rewrite days_to_year_step in IH. destruct (years_loop _ _ _) as [y' days']. lia.
Qed.

Lemma months_loop_spec l m days :
  0 ≤ days < sumZ l →
  let '(m', days') := months_loop l m days in
  ∃ i md, m' = m + Z.of_nat i ∧ l !! i = Some md ∧ 0 ≤ days' < md ∧
    days = sumZ (take i l) + days'.
Proof.
  revert m days. induction l as [|md l IH]; intros m days Hd; cbn in *; [lia|].
  destruct (days <? md) eqn:Hlt; Zbool; [exists 0%nat, md; cbn; split_and!; try done; lia|].
  specialize (IH (m + 1) (days - md) ltac:(lia)). destruct (months_loop _ _ _) as [m' days'].
  destruct IH as (i & md' & -> & Hi & ? & ?). exists (S i), md'. cbn. split_and!; try done; lia.
Qed.

(** [epoch_to_ymd] terminates with the Gregorian date that lies the given
    number of days after 1 January 1970. *)
Theorem epoch_to_ymd_correct days :
  0 ≤ days → valid_date (epoch_to_ymd days) ∧ days_of (epoch_to_ymd days) = days.
Proof.
  intros Hd. unfold epoch_to_ymd.
  pose proof (years_loop_spec (Z.to_nat (days `div` 365 + 1)) 1970 days Hd) as Hy.
  pose proof (Z.div_pos days 365 Hd ltac:(lia)).
  destruct (years_loop _ _ _) as [y d]. destruct Hy as (Hy & Hr & Heq); [lia|].
  assert (Hsum : sumZ (month_days y) = 365 + leap y) by (cbn; lia).
  pose proof (months_loop_spec (month_days y) 0 d ltac:(lia)) as Hm.
  destruct (months_loop _ _ _) as [m d']. destruct Hm as (i & md & -> & Hi & ? & ->).
  assert (i < 12)%nat by by apply lookup_lt_Some in Hi.
  unfold valid_date, days_of.
  replace (Z.to_nat (0 + Z.of_nat i + 1 - 1)) with i by lia.
  assert (days_to_year 1970 = 0) by done.
  split; [|lia]. split_and!; [lia..|]. exists md. split; [done|lia].
Qed.
