(* ===== verification/Node.v ===== *)
(** * The node's shared state ([bcc-node/src/state.rs], [bcc-node/src/p2p/protocol.rs],
    [bcc-node/src/config.rs])

    Configuration, peer set and shared state of a node, the wire messages, and
    the store-level reorganisation.  What a node sends and reports is a trace of
    effects. *)

From S2P Require Import Prelude Bytes Types Encoding Store Ledger Validation Mempool DebugEvent.

(** ** Configuration ([config.rs]) *)

Record NodeConfig := mkNodeConfig {
  listen_addr : SocketAddr;
  bootstrap_peers : list SocketAddr;
  slot_duration_secs : Z;
  http_addr : SocketAddr;
  sled_path : string;
  mempool_max_size : nat;
  genesis_path : string;
  my_address : Address;
  my_signing_key : SigningKey;
}.

Record RawConfig := mkRawConfig {
  raw_listen_addr : string;
  raw_bootstrap_peers : list string;
  raw_slot_duration_secs : Z;
  raw_http_addr : string;
  raw_sled_path : string;
  raw_mempool_max_size : nat;
  raw_genesis_path : string;
  raw_my_address : string;
  raw_my_signing_key : string;
}.

(** What the [config] crate reads from a source: a table of values by key.  The
    values of other TOML types are kept as their text. *)
Inductive ConfigValue :=
| ConfigString (s : string)
| ConfigInt (n : Z)
| ConfigStrings (l : list string)
| ConfigOther (repr : string).
Notation ConfigTable := (gmap string ConfigValue).

(** The [config] crate.  [Config::builder().add_source(file).add_source(environment).build()]:
    a variable of the environment overrides the key of the file.  The conversions
    for the fields of [RawConfig]: a value of the field's own type is taken as it
    is (others are converted or refused), where integers are those of TOML, with
    63 bits and a sign. *)
Class ConfigCrate := {
  config_build : string + ConfigTable → ConfigTable → string + ConfigTable;
  config_build_inr file env : config_build (inr file) env = inr (env ∪ file);
  value_string : ConfigValue → string + string;
  value_string_string s : value_string (ConfigString s) = inr s;
  value_u64 : ConfigValue → string + Z;
  value_u64_int n : 0 ≤ n < 2 ^ 63 → value_u64 (ConfigInt n) = inr n;
  value_strings : ConfigValue → string + list string;
  value_strings_list l : value_strings (ConfigStrings l) = inr l;
  missing_field : string → string;
}.

Section deserialize.
Context `{ConfigCrate}.

Definition config_field {A} (convert : ConfigValue → string + A) (t : ConfigTable) (name : string) : Res string A :=
  of_sum match t !! name with Some v => convert v | None => inl (missing_field name) end.

(** [try_deserialize], of the derived [Deserialize]. *)
Definition RawConfig_deserialize (t : ConfigTable) : Res string RawConfig :=
  listen_addr ← config_field value_string t "listen_addr";
  bootstrap_peers ← config_field value_strings t "bootstrap_peers";
  slot_duration_secs ← config_field value_u64 t "slot_duration_secs";
  http_addr ← config_field value_string t "http_addr";
  sled_path ← config_field value_string t "sled_path";
  mempool_max_size ← config_field value_u64 t "mempool_max_size";
  genesis_path ← config_field value_string t "genesis_path";
  my_address ← config_field value_string t "my_address";
  my_signing_key ← config_field value_string t "my_signing_key";
  Ok (mkRawConfig listen_addr bootstrap_peers slot_duration_secs http_addr sled_path
        (Z.to_nat mempool_max_size) genesis_path my_address my_signing_key).
End deserialize.

(** [str::parse::<SocketAddr>] is not modelled further than its result. *)
Class ParseAddr := { parse_addr : string → string + SocketAddr }.

Section config.
Context `{Crypto} `{ParseAddr} `{ConfigCrate}.

Definition config_error {A} (field : string) (r : string + A) : Res NodeError A :=
  map_err (fun e => NodeConfigError (field +:+ ": " +:+ e)) (of_sum r).

Definition from_raw (raw : RawConfig) : Res NodeError NodeConfig :=
  listen_addr ← config_error "listen_addr" (parse_addr (raw_listen_addr raw));
  http_addr ← config_error "http_addr" (parse_addr (raw_http_addr raw));
  bootstrap_peers ← collect_res
    ((fun s => config_error "bootstrap_peers" (parse_addr s)) <$> raw_bootstrap_peers raw);
  my_address ← map_err (fun e => NodeConfigError ("my_address: " +:+ AddressError_to_string e))
                 (Address.validate (raw_my_address raw));
  key_bytes ← config_error "my_signing_key hex" (hex_decode (raw_my_signing_key raw));
  if negb (length key_bytes =? 32)%nat
  then Err (NodeConfigError "my_signing_key must be 32 bytes")
  else
    let my_signing_key := mkSigningKey key_bytes in
    let derived := Address.from_pubkey_bytes (vk_as_bytes (verifying_key my_signing_key)) in
    if bool_decide (derived ≠ my_address)
    then Err (NodeConfigError ("my_signing_key does not match my_address: key derives to "
                +:+ as_str derived +:+ " but config declares " +:+ as_str my_address))
    else Ok (mkNodeConfig listen_addr bootstrap_peers (raw_slot_duration_secs raw) http_addr
               (raw_sled_path raw) (raw_mempool_max_size raw) (raw_genesis_path raw)
               my_address my_signing_key).

(** A configuration is accepted only when the signing key is 32 bytes long
    and derives the declared address, which is then a well-formed address. *)
Theorem from_raw_key_matches (raw : RawConfig) (c : NodeConfig) :
  from_raw raw = Ok c →
  my_address c = Address.from_pubkey_bytes (vk_as_bytes (verifying_key (my_signing_key c))) ∧
  as_str (my_address c) = raw_my_address raw ∧
  hex_decode (raw_my_signing_key raw) = inr (sk_to_bytes (my_signing_key c)) ∧
  length (sk_to_bytes (my_signing_key c)) = 32%nat ∧
  length (bootstrap_peers c) = length (raw_bootstrap_peers raw).
Proof.
  intros (la & _ & (ha & _ & (bp & Hbp & (a & Ha%map_err_Ok & (kb & Hkb & Hr)
    %res_bind_Ok)%res_bind_Ok)%res_bind_Ok)%res_bind_Ok)%res_bind_Ok.
  destruct (length kb =? 32)%nat eqn:Hl; [|done]. apply Nat.eqb_eq in Hl. cbn [negb] in Hr.
  case_bool_decide as Hd; [done|]. injection Hr as <-. cbn.
  apply map_err_Ok, of_sum_Ok in Hkb. apply collect_res_Ok in Hbp.
  split_and!; try done.
  - unfold Address.validate in Ha. repeat case_match; try done. by injection Ha as <-.
  - apply (f_equal length) in Hbp. rewrite !length_fmap in Hbp. done.
Qed.

(** [NodeConfig::from_file]; [file] is the table of the file, and [env] that of the
    variables with the prefix [BCC__], whose keys are in lower case. *)
Definition config_from_file (file : string + ConfigTable) (env : ConfigTable) : Res NodeError NodeConfig :=
  table ← map_err NodeConfigError (of_sum (config_build file env));
  raw ← map_err NodeConfigError (RawConfig_deserialize table);
  from_raw raw.
End config.

(** ** Wire messages ([p2p/protocol.rs]) *)

Inductive Message :=
| GetBlocks (from_height : Z)
| Blocks (blocks : list Block)
| NewBlock (block : Block)
| NewTx (tx : Transaction)
| GetPeers
| Peers (addrs : list SocketAddr)
| Ping (nonce : Z)
| Pong (nonce : Z).

(** ** Peers ([state.rs], [PeerSet]) *)

(** An outbound channel, by its identity. *)
Definition Sender : Type := nat.

(** What leaves the node: a [try_send] on a channel, which drops the message
    when the queue is full, the announcement of a local block to the connection
    tasks, and a debug event. *)
Inductive Effect :=
| TrySend (to : Sender) (msg : Message)
| AnnounceBlock (block : Block)
| Emit (e : DebugEvent).

Notation PeerSet := (gmap SocketAddr Sender) (only parsing).

Module PeerSet.
Section operations.
Context `{HashOrder}.

Definition new : PeerSet := ∅.
Definition insert (addr : SocketAddr) (tx : Sender) (ps : PeerSet) : PeerSet := <[addr := tx]> ps.
Definition remove (addr : SocketAddr) (ps : PeerSet) : PeerSet := delete addr ps.
Definition len (ps : PeerSet) : nat := size ps.
Definition addrs (ps : PeerSet) : list SocketAddr := (hash_iter ps).*1.
Definition has_ip (i : string) (ps : PeerSet) : bool :=
  existsb (fun a => bool_decide (ip a = i)) (hash_iter ps).*1.
Definition broadcast_except (source : SocketAddr) (msg : Message) (ps : PeerSet) : list Effect :=
  omap (fun at_ => if bool_decide (at_.1 ≠ source) then Some (TrySend at_.2 msg) else None)
    (hash_iter ps).
Definition broadcast_all (msg : Message) (ps : PeerSet) : list Effect :=
  (fun at_ => TrySend at_.2 msg) <$> hash_iter ps.

End operations.
End PeerSet.

(** ** Shared state ([state.rs], [NodeState]) *)

(** The block, output and validator stores of a node are one object, as
    [main.rs] builds them. *)
Record NodeState (S : Type) := mkNodeState {
  n_store : S;
  n_mempool : Mempool;
  n_peers : PeerSet;
  n_effects : list Effect;
}.
Arguments mkNodeState {S}.
Arguments n_store {S}.
Arguments n_mempool {S}.
Arguments n_peers {S}.
Arguments n_effects {S}.

Section node_state.
Context `{Crypto} `{CoreJson} {S : Type} `{!BlockStore S} `{!UtxoStore S} `{!ValidatorStore S}.

(** [NodeState::new] *)
Definition new_node (c : NodeConfig) (s : S) : NodeState S :=
  mkNodeState s (Mempool.new (mempool_max_size c)) PeerSet.new [].

Definition set_store (s : S) (st : NodeState S) : NodeState S :=
  mkNodeState s (n_mempool st) (n_peers st) (n_effects st).
Definition set_mempool (m : Mempool) (st : NodeState S) : NodeState S :=
  mkNodeState (n_store st) m (n_peers st) (n_effects st).
Definition set_peers (ps : PeerSet) (st : NodeState S) : NodeState S :=
  mkNodeState (n_store st) (n_mempool st) ps (n_effects st).
Definition perform (es : list Effect) (st : NodeState S) : NodeState S :=
  mkNodeState (n_store st) (n_mempool st) (n_peers st) (n_effects st ++ es).

(** A call on the stores within code on the node. *)
Definition on_store {E A} (m : ST S E A) : ST (NodeState S) E A := fun st =>
  let '(r, s') := m (n_store st) in (r, set_store s' st).
Definition read_store {E A} (f : S → Res E A) : ST (NodeState S) E A :=
  reads (fun st => f (n_store st)).

(** [NodeState::emit] *)
Definition emit {E} (e : DebugEvent) : ST (NodeState S) E unit := modifies (perform [Emit e]).
(** [let _ = tx.try_send(msg)] *)
Definition try_send {E} (tx : Sender) (msg : Message) : ST (NodeState S) E unit :=
  modifies (perform [TrySend tx msg]).

(** [NodeState::reorg_block] *)
Definition reorg_block (old_block new_block : Block) : ST S StoreError unit :=
  _ ← rollback_block old_block;
  _ ← insert_block new_block;
  apply_block new_block.

End node_state.

Section node_state_lemmas.
Context {S : Type}.

Lemma perform_nil (st : NodeState S) : perform [] st = st.
Proof. destruct st. unfold perform. cbn. by rewrite app_nil_r. Qed.

Lemma perform_app (es1 es2 : list Effect) (st : NodeState S) :
  perform es2 (perform es1 st) = perform (es1 ++ es2) st.
Proof. unfold perform. cbn. by rewrite app_assoc. Qed.
End node_state_lemmas.
