(* ===== verification/Handler.v ===== *)
(** * The peer protocol ([bcc-node/src/p2p/handler.rs])

    One connection task: registration, the inbound message handler with the
    extension, fork-choice, gossip and sync branches, and deregistration. *)

From S2P Require Import Prelude Bytes Types Store Ledger Validation Mempool DebugEvent Node.

Section handler.
Context `{Crypto} `{CoreJson} `{Json Message} `{BuildProfile} `{HashOrder} `{UnstableSort}.
Context {S : Type} `{!BlockStore S} `{!UtxoStore S} `{!ValidatorStore S}.
Context (config : NodeConfig).

Notation M := (ST (NodeState S) string).

Definition store_call {A} (m : ST S StoreError A) : M A :=
  st_map_err StoreError_to_string (on_store m).
Definition store_read {A} (f : S → Res StoreError A) : M A :=
  read_store (fun s => map_err StoreError_to_string (f s)).

(** [state.peers.read().await.broadcast_except(&source, msg)] *)
Definition gossip (source : SocketAddr) (msg : Message) : M unit := fun st =>
  (Ok tt, perform (PeerSet.broadcast_except source msg (n_peers st)) st).

(** [state.mempool.lock().await.remove(&hashes)] for the transactions of a block. *)
Definition forget_txs (block : Block) : M unit :=
  modifies (fun st => set_mempool (Mempool.remove (Transaction_hash <$> txs block) (n_mempool st)) st).

(** The block extends the tip. *)
Definition extend_tip (block : Block) (source : SocketAddr) (tip_height : Z) : M unit :=
  parent_opt ← store_read (get_by_height tip_height);
  parent ← reads (fun _ => ok_or ("parent block at height " +:+ pretty tip_height +:+ " not found")
                             parent_opt);
  valid ← reads (fun st =>
    match validate_block block parent (n_store st) (n_store st) (slot_duration_secs config) with
    | Ok _ => Ok None
    | Err e => Ok (Some e)
    | Panic => Panic
    end);
  match valid with
  | Some e =>
      emit (BlockRejected (addr_to_string source) (height (header block))
              (hex_encode (Block_hash block)) (BlockValidationError_to_string e))
  | None =>
      _ ← store_call (insert_block block);
      _ ← store_call (apply_block block);
      _ ← forget_txs block;
      _ ← gossip source (NewBlock block);
      emit (BlockFromPeer (addr_to_string source) (height (header block))
              (hex_encode (Block_hash block)) (length (txs block))
              (as_str (proposer (header block))))
  end.

(** The block competes with the tip: the lower hash wins. *)
Definition fork_choice (block : Block) (source : SocketAddr) (tip_height : Z)
    (tip_hash : BlockHash) : M unit :=
  let incoming_hash := Block_hash block in
  if bool_decide (incoming_hash = tip_hash) then mret tt
  else if lex_le tip_hash incoming_hash then mret tt
  else
    let parent_height := saturating_sub tip_height 1 in
    parent_opt ← store_read (get_by_height parent_height);
    match parent_opt with
    | None => mret tt
    | Some parent =>
        if bool_decide (prev_hash (header block) ≠ Block_hash parent) then mret tt
        else
          valid ← reads (fun st =>
            match validate_block block parent (n_store st) (n_store st)
                    (slot_duration_secs config) with
            | Ok _ => Ok true
            | Err _ => Ok false
            | Panic => Panic
            end);
          if negb valid then mret tt
          else
            current_opt ← store_read (get_by_height tip_height);
            current_tip ← reads (fun _ => ok_or "current tip block missing" current_opt);
            let evicted_hash := hex_encode (Block_hash current_tip) in
            _ ← store_call (reorg_block current_tip block);
            _ ← forget_txs block;
            _ ← gossip source (NewBlock block);
            emit (BlockReorged (height (header block)) (hex_encode incoming_hash) evicted_hash)
    end.

(** [Message::NewBlock] *)
Definition handle_new_block (block : Block) (source : SocketAddr) (reply_tx : Sender) : M unit :=
  known ← store_read (get_by_hash (Block_hash block));
  match known with
  | Some _ => mret tt
  | None =>
      tip_opt ← store_read tip;
      let '(tip_height, tip_hash) := default (0, zero_hash) tip_opt in
      next ← reads (fun _ => u64_add tip_height 1);
      if height (header block) =? next then extend_tip block source tip_height
      else if height (header block) =? tip_height then fork_choice block source tip_height tip_hash
      else if next <? height (header block) then try_send reply_tx (GetBlocks next)
      else mret tt
  end.

(** [Message::NewTx] *)
Definition handle_new_tx (tx : Transaction) (source : SocketAddr) : M unit := fun st =>
  let hash := hex_encode (Transaction_hash tx) in
  let '(r, m) := Mempool.add tx (n_store st) (n_mempool st) in
  let st := set_mempool m st in
  match r with
  | Ok added =>
      if newly_added added then
        let evs := match evicted added with
                   | Some ev => [Emit (TxEvicted ev (added_tx_hash added))]
                   | None => []
                   end in
        let st := perform (evs ++ [Emit (TxAccepted (added_tx_hash added) (added_value added)
                                           (pool_size added));
                                   Emit (TxGossipAccepted (addr_to_string source) hash)]) st in
        gossip source (NewTx tx) st
      else (Ok tt, st)
  | Err e =>
      (Ok tt, perform [Emit (TxRejected hash (NodeError_to_string e));
                       Emit (TxGossipRejected (addr_to_string source) hash
                               (NodeError_to_string e))] st)
  | Panic => (Panic, st)
  end.

(** [Message::GetBlocks] *)
Definition handle_get_blocks (from_height : Z) (reply_tx : Sender) : M unit :=
  blocks ← store_read (iter_from from_height);
  let batch := take 256 blocks in
  try_send reply_tx (Blocks batch).

(** [dispatch] on a decoded message. *)
Definition handle_message (msg : Message) (source : SocketAddr) (reply_tx : Sender) : M unit :=
  match msg with
  | NewBlock block => handle_new_block block source reply_tx
  | NewTx tx => handle_new_tx tx source
  | GetBlocks from_height => handle_get_blocks from_height reply_tx
  | GetPeers => fun st => try_send reply_tx (Peers (PeerSet.addrs (n_peers st))) st
  | Ping nonce => try_send reply_tx (Pong nonce)
  | _ => mret tt
  end.

Definition dispatch (bytes : list byte) (source : SocketAddr) (reply_tx : Sender) : M unit :=
  msg ← reads (fun _ => of_sum (from_slice bytes));
  handle_message msg source reply_tx.

(** ** A connection ([run_peer]) *)

(** What a connection task waits for; the outcome of writing to the socket is
    given by the environment. *)
Inductive PeerInput :=
| Cancelled
| LocalBlock (block : Block) (written : bool)
| Lagged (missed : Z)
| BlocksClosed
| Outbound (msg : Message) (written : bool)
| EndOfStream
| FramingError (e : string)
| Frame (bytes : list byte).

Definition MAX_FRAME_LEN : Z := 16 * 1024 * 1024.

(** [make_codec] limits the length of a frame: a longer message is not sent. *)
Definition fits_frame (msg : Message) : bool := Z.of_nat (length (to_vec msg)) <=? MAX_FRAME_LEN.

(** [encode_send]: whether the message goes out; serialising it does not fail. *)
Definition encode_send (msg : Message) (written : bool) : bool := fits_frame msg && written.

(** One iteration of the loop: whether it goes on, and the new state.  An error
    of [dispatch] is logged, a panic ends the task on the spot. *)
Definition peer_step (addr : SocketAddr) (tx : Sender) (i : PeerInput) (st : NodeState S) :
    Res Empty_set bool * NodeState S :=
  match i with
  | Cancelled | BlocksClosed | EndOfStream | FramingError _ => (Ok false, st)
  | LocalBlock block written => (Ok (encode_send (NewBlock block) written), st)
  | Outbound msg written => (Ok (encode_send msg written), st)
  | Lagged _ => (Ok true, st)
  | Frame bytes =>
      match dispatch bytes addr tx st with
      | (Ok _, st') | (Err _, st') => (Ok true, st')
      | (Panic, st') => (Panic, st')
      end
  end.

(** The loop over the inputs the environment provides; [None] when they run out
    before the loop ends. *)
Fixpoint peer_loop (addr : SocketAddr) (tx : Sender) (is_ : list PeerInput) (st : NodeState S) :
    option (Res Empty_set unit) * NodeState S :=
  match is_ with
  | [] => (None, st)
  | i :: is_' =>
      match peer_step addr tx i st with
      | (Ok true, st') => peer_loop addr tx is_' st'
      | (Ok false, st') => (Some (Ok tt), st')
      | (Err e, st') => match e with end
      | (Panic, st') => (Some Panic, st')
      end
  end.

(** Registration under the write lock: refused for an IP that is connected. *)
Definition register_peer (addr : SocketAddr) (tx : Sender) (st : NodeState S) :
    option (NodeState S) :=
  if PeerSet.has_ip (ip addr) (n_peers st) then None
  else
    let ps := PeerSet.insert addr tx (n_peers st) in
    Some (perform [Emit (PeerConnected (addr_to_string addr) (PeerSet.len ps))] (set_peers ps st)).

Definition deregister_peer (addr : SocketAddr) (st : NodeState S) : NodeState S :=
  let ps := PeerSet.remove addr (n_peers st) in
  perform [Emit (PeerDisconnected (addr_to_string addr) (PeerSet.len ps))] (set_peers ps st).

(** The message with the current tip that greets a new peer. *)
Definition tip_greeting (s : S) : option Message :=
  match tip s with
  | Ok (Some (tip_height, _)) =>
      match get_by_height tip_height s with
      | Ok (Some tip_block) => Some (NewBlock tip_block)
      | _ => None
      end
  | _ => None
  end.

(** The whole connection: [greeted] tells whether writing the greeting succeeds. *)
Definition run_peer (addr : SocketAddr) (tx : Sender) (greeted : bool) (is_ : list PeerInput)
    (st : NodeState S) : option (Res Empty_set unit) * NodeState S :=
  match register_peer addr tx st with
  | None => (Some (Ok tt), st)
  | Some st =>
      if from_option (fun msg => encode_send msg greeted) true (tip_greeting (n_store st)) then
        match peer_loop addr tx is_ st with
        | (Some (Ok _), st') => (Some (Ok tt), deregister_peer addr st')
        | (r, st') => (r, st')
        end
      else (Some (Ok tt), deregister_peer addr st)
  end.

End handler.
