(* ===== verification/Protocol.v ===== *)
(** * Properties of the peer protocol

    What a message from a peer can do to the chain, the unspent outputs, the
    mempool and the peer set of a node, over any store that satisfies the laws. *)

From S2P Require Import Prelude Bytes Types Store Ledger Validation Mempool DebugEvent Node Handler.

(** ** Well-formed chains and consistent states *)

Section chain.
Context `{Crypto} `{CoreJson}.
Implicit Types (c : gmap Z Block) (b p : Block).

(** A chain from the genesis block at height 0 to the tip at height [t]. *)
Record chain_ok (c : gmap Z Block) (t : Z) : Prop := mkChainOk {
  co_nonneg : 0 ≤ t;
  co_range h : is_Some (c !! h) ↔ 0 ≤ h ≤ t;
  co_height h b : c !! h = Some b → height (header b) = h;
  co_linked h b p : c !! h = Some b → c !! (h - 1) = Some p →
    prev_hash (header b) = Block_hash p ∧ timestamp (header p) ≤ timestamp (header b);
}.

(** The unspent outputs before height [n]: those of the blocks below it. *)
Fixpoint replay (c : gmap Z Block) (n : nat) : gmap TxOutRef TxOutput :=
  match n with
  | O => ∅
  | S n' =>
      match c !! Z.of_nat n' with
      | Some b => ledger_block b (replay c n')
      | None => replay c n'
      end
  end.
Definition replay_below (c : gmap Z Block) (h : Z) := replay c (Z.to_nat h).

Lemma chain_ok_tip c t : chain_ok c t → is_tip c t.
Proof.
  intros Hc. pose proof (co_nonneg _ _ Hc). split; [apply (co_range _ _ Hc); lia|].
  intros h Hh. apply (co_range _ _ Hc) in Hh. lia.
Qed.

Lemma is_tip_unique c h h' : is_tip c h → is_tip c h' → h = h'.
Proof. intros [Hh Hm] [Hh' Hm']. apply Hm in Hh'. apply Hm' in Hh. lia. Qed.

Lemma chain_ok_extend c t b p :
  chain_ok c t → c !! t = Some p → height (header b) = t + 1 →
  prev_hash (header b) = Block_hash p → timestamp (header p) ≤ timestamp (header b) →
  chain_ok (<[t + 1 := b]> c) (t + 1).
Proof.
  intros [Hn Hr Hh Hl] Hp Hb Hprev Hts. constructor.
  - lia.
  - intros h. rewrite lookup_insert_is_Some, Hr. lia.
  - intros h b' [[<- <-]|[_ ?]]%lookup_insert_Some; [lia|auto].
  - intros h b' p' [[<- <-]|[Hne Hb']]%lookup_insert_Some.
    + rewrite lookup_insert_ne by lia. replace (t + 1 - 1) with t by lia. naive_solver.
    + intros [[Hh1 <-]|[_ Hp']]%lookup_insert_Some; [|eauto].
      assert (is_Some (c !! h)) as Hs by by eexists. apply Hr in Hs. lia.
Qed.

Lemma chain_ok_delete c t : 0 < t → chain_ok c t → chain_ok (delete t c) (t - 1).
Proof.
  intros Ht [Hn Hr Hh Hl]. constructor.
  - lia.
  - intros h. rewrite lookup_delete_is_Some, Hr. lia.
  - intros h b' [_ ?]%lookup_delete_Some. auto.
  - intros h b' p' [_ ?]%lookup_delete_Some [_ ?]%lookup_delete_Some. eauto.
Qed.

(** Replacing the tip by a block with the same parent. *)
Lemma chain_ok_replace c t b p :
  0 < t → chain_ok c t → c !! (t - 1) = Some p → height (header b) = t →
  prev_hash (header b) = Block_hash p → timestamp (header p) ≤ timestamp (header b) →
  chain_ok (<[t := b]> c) t.
Proof.
  intros Ht Hc Hp Hb Hprev Hts.
  assert (Hd : delete t c !! (t - 1) = Some p) by (rewrite lookup_delete_ne by lia; done).
  pose proof (chain_ok_extend _ _ b p (chain_ok_delete _ _ Ht Hc) Hd) as Hi.
  replace (t - 1 + 1) with t in Hi by lia. rewrite insert_delete_eq in Hi. auto.
Qed.

Lemma replay_ext c1 c2 n :
  (∀ h, 0 ≤ h < Z.of_nat n → c1 !! h = c2 !! h) → replay c1 n = replay c2 n.
Proof.
  induction n as [|n IH]; intros Hc; [done|]. cbn [replay].
  rewrite Hc by lia. rewrite IH by (intros; apply Hc; lia). done.
Qed.

Lemma replay_below_ext c1 c2 k :
  (∀ h, 0 ≤ h < k → c1 !! h = c2 !! h) → replay_below c1 k = replay_below c2 k.
Proof. intros Hc. apply replay_ext. intros h Hh. apply Hc. lia. Qed.

Lemma replay_below_succ c h b :
  0 ≤ h → c !! h = Some b → replay_below c (h + 1) = ledger_block b (replay_below c h).
Proof.
  intros Hh Hb. unfold replay_below. replace (Z.to_nat (h + 1)) with (S (Z.to_nat h)) by lia.
  cbn [replay]. rewrite Z2Nat.id by done. by rewrite Hb.
Qed.
End chain.

Section states.
Context `{Crypto} `{CoreJson}.
Context {S : Type} `{!BlockStore S} `{!UtxoStore S} `{!ValidatorStore S} `{!StoreLaws S}.

(** A store whose chain is well formed up to the tip [t]. *)
Definition store_at (s : S) (t : Z) : Prop :=
  store_ok s ∧ chain_ok (chain (view s)) t ∧ t + 1 < 2 ^ 64.

(** A store whose unspent outputs are those of its chain and which can roll
    back its tip. *)
Record consistent (s : S) (t : Z) : Prop := mkConsistent {
  cs_ok : store_ok s;
  cs_chain : chain_ok (chain (view s)) t;
  cs_utxos : utxos (view s) = replay_below (chain (view s)) (t + 1);
  cs_undo b : 0 < t → chain (view s) !! t = Some b →
    undoable b (replay_below (chain (view s)) t) s;
}.

Lemma store_at_tip s t x : store_at s t → tip s = Ok x →
  ∃ b, x = Some (t, Block_hash b) ∧ chain (view s) !! t = Some b.
Proof.
  intros (Hs & Hc & _) Ht. apply tip_law in Ht; [|done]. destruct x as [[h hash]|]; cbn in Ht.
  - destruct Ht as [Htip (b & Hb & ->)].
    rewrite (is_tip_unique _ _ _ Htip (chain_ok_tip _ _ Hc)) in *. eauto.
  - destruct (chain_ok_tip _ _ Hc) as [[b Hb] _]. rewrite Ht in Hb. done.
Qed.

(** *** The store calls of the two branches that change the chain *)

Definition extend_calls (b : Block) : ST S StoreError unit := _ ← insert_block b; apply_block b.

Lemma extend_calls_spec b p s t r s' :
  store_at s t → chain (view s) !! t = Some p → height (header b) = t + 1 →
  prev_hash (header b) = Block_hash p → timestamp (header p) ≤ timestamp (header b) →
  extend_calls b s = (r, s') →
  store_ok s' ∧ validators (view s') = validators (view s) ∧
  (chain (view s') = chain (view s) ∧ utxos (view s') = utxos (view s) ∧ r ≠ Ok tt ∨
   chain (view s') = <[t + 1 := b]> (chain (view s)) ∧
   (utxos (view s') = utxos (view s) ∨ utxos (view s') = ledger_block b (utxos (view s))) ∧
   (r = Ok tt → utxos (view s') = ledger_block b (utxos (view s)) ∧
     (block_applies b (utxos (view s)) → undoable b (utxos (view s)) s'))).
Proof.
  intros (Hs & Hc & Ht) Hp Hb Hprev Hts. pose proof (co_nonneg _ _ Hc).
  assert (Hu64 : u64 (height (header b))) by (unfold u64; lia).
  unfold extend_calls, mbind, ST_bind. destruct (insert_block b s) as [r1 s1] eqn:Hi.
  apply insert_law in Hi as (Hs1 & Hu1 & Hv1 & _ & Hc1); [|done..|].
  2:{ intros h Hh. apply (co_range _ _ Hc) in Hh. lia. }
  destruct r1 as [[]|e|]; [|intros [= <- <-]; split_and!; [done..|]; left; done..].
  intros Ha. apply apply_law in Ha as (Hs2 & Hc2 & Hv2 & Hok & Hor & Hun); [|done..].
  rewrite Hc2, Hc1, Hv2, Hv1, Hu1 in *. rewrite Hb in *.
  split_and!; [done..|]. right. split_and!; [done..|]. intros Hr. auto.
Qed.

Lemma reorg_block_spec old b p s t r s' :
  store_at s t → 0 < t → chain (view s) !! t = Some old →
  chain (view s) !! (t - 1) = Some p → height (header b) = t →
  prev_hash (header b) = Block_hash p → timestamp (header p) ≤ timestamp (header b) →
  reorg_block old b s = (r, s') →
  store_ok s' ∧ validators (view s') = validators (view s) ∧
  (chain (view s') = chain (view s) ∧ r ≠ Ok tt ∨
   chain (view s') = delete t (chain (view s)) ∧ r ≠ Ok tt ∨
   chain (view s') = <[t := b]> (chain (view s))) ∧
  (r = Ok tt → chain (view s') = <[t := b]> (chain (view s)) ∧
    ∀ u, undoable old u s → utxos (view s') = ledger_block b u ∧
      (block_applies b u → undoable b u s')).
Proof.
  intros (Hs & Hc & Ht) Hpos Hold Hp Hb Hprev Hts. pose proof (co_height _ _ Hc _ _ Hold) as Hho.
  assert (Hu64 : u64 (height (header b))) by (unfold u64; lia).
  unfold reorg_block, mbind, ST_bind. destruct (rollback_block old s) as [r1 s1] eqn:Hr.
  apply (rollback_law _ _ t) in Hr as (Hs1 & Hv1 & Hc1 & Hu1);
    [|done|by apply chain_ok_tip|by eexists|done|unfold u64; lia|done].
  assert (∀ h, is_Some (chain (view s1) !! h) → h ≤ t).
  { intros h Hh. assert (is_Some (chain (view s) !! h)) as Hh'.
    { destruct Hc1 as [Hc1|Hc1]; rewrite Hc1 in Hh; [done|].
      by apply lookup_delete_is_Some in Hh as [_ ?]. }
    apply (co_range _ _ Hc) in Hh'. lia. }
  destruct r1 as [[]|e|]; [|intros [= <- <-]; split_and!; [done..| |done]; naive_solver..].
  destruct (insert_block b s1) as [r2 s2] eqn:Hi.
  apply insert_law in Hi as (Hs2 & Hu2 & Hv2 & _ & Hc2); [|done..|by rewrite Hb].
  rewrite Hb in Hc2.
  destruct r2 as [[]|e|];
    [|intros [= <- <-]; rewrite Hc2, Hv2; split_and!; [done..| |done]; naive_solver..].
  assert (Hc2' : chain (view s2) = <[t := b]> (chain (view s))).
  { rewrite Hc2. destruct Hc1 as [->| ->]; [done|]. by rewrite insert_delete_eq. }
  intros Ha. apply apply_law in Ha as (Hs3 & Hc3 & Hv3 & Hok & _ & Hun); [|done..].
  rewrite Hc3, Hc2', Hv3, Hv2. split_and!; [done..|auto|].
  intros ->. split; [done|]. intros u Hund. specialize (Hu1 u eq_refl Hund).
  rewrite Hok, Hu2, Hu1 by done. split; [done|]. intros Hba.
  rewrite Hu2, Hu1 in Hun. auto.
Qed.
End states.

(** ** The cases of a received block *)

Section handling.
Context `{Crypto} `{CoreJson} `{Json Message} `{BuildProfile} `{HashOrder} `{UnstableSort}.
Context {S : Type} `{!BlockStore S} `{!UtxoStore S} `{!ValidatorStore S} `{!StoreLaws S}.
Context (config : NodeConfig).
Implicit Types (st : NodeState S) (b : Block) (src : SocketAddr) (tx : Sender).
Notation d := (slot_duration_secs config).

(** The block extends the tip and passes validation. *)
Definition extends (s : S) (t : Z) (b : Block) : Prop :=
  height (header b) = t + 1 ∧
  ∃ p, chain (view s) !! t = Some p ∧ validate_block b p s s d = Ok tt.

(** The block competes with the tip [old], has the same parent and the lower
    hash, and passes validation. *)
Definition beats (s : S) (t : Z) (old b : Block) : Prop :=
  height (header b) = t ∧ 0 < t ∧ chain (view s) !! t = Some old ∧
  lex_lt (Block_hash b) (Block_hash old) ∧
  ∃ p, chain (view s) !! (t - 1) = Some p ∧ prev_hash (header b) = Block_hash p ∧
    validate_block b p s s d = Ok tt.

Lemma u64_add_small {E} a c : 0 ≤ a → 0 ≤ c → a + c < 2 ^ 64 → @u64_add _ E a c = Ok (a + c).
Proof. intros. apply u64_add_Ok. unfold u64. lia. Qed.

Lemma get_height_at (s : S) (t h : Z) x :
  store_at s t → 0 ≤ h ≤ t → get_by_height h s = Ok x →
  ∃ b, x = Some b ∧ chain (view s) !! h = Some b.
Proof.
  intros (Hs & Hc & Ht) Hh Hg. apply height_law in Hg; [|done|unfold u64; lia]. subst x.
  destruct (proj2 (co_range _ _ Hc h) Hh) as [b Hb]. eauto.
Qed.

(** The calls on the stores determine the store a handler leaves. *)
Lemma extend_tip_cases b src t st r st' :
  store_at (n_store st) t → extend_tip config b src t st = (r, st') →
  (n_store st' = n_store st ∧ n_mempool st' = n_mempool st) ∨
  (∃ p r0, chain (view (n_store st)) !! t = Some p ∧
     validate_block b p (n_store st) (n_store st) d = Ok tt ∧
     extend_calls b (n_store st) = (r0, n_store st') ∧ (r = Ok tt → r0 = Ok tt)).
Proof.
  intros Hst. unfold extend_tip, extend_calls, store_read, store_call, st_map_err, on_store,
    read_store, reads, mbind, ST_bind.
  destruct (get_by_height t (n_store st)) as [x|e|] eqn:Hg; [|intros [= <- <-]; auto..].
  destruct Hst as (Hs & Hc & Ht). pose proof (co_nonneg _ _ Hc).
  apply (get_height_at _ t) in Hg as (p & -> & Hp); [|done|lia]. cbn [map_err ok_or].
  destruct (validate_block b p (n_store st) (n_store st) d) as [[]|e|] eqn:Hv;
    [|intros [= <- <-]; auto..].
  intros Hr. right. exists p. destruct (insert_block b (n_store st)) as [r1 s1] eqn:Hi.
  destruct r1 as [[]|e|]; cbn [map_err] in Hr;
    [|injection Hr as <- <-; eexists; split_and!; done..].
  destruct (apply_block b (n_store (set_store s1 st))) as [r2 s2] eqn:Ha. cbn in Ha.
  destruct r2 as [[]|e|]; cbn in Hr; injection Hr as <- <-; eexists; split_and!; done.
Qed.

Lemma fork_choice_cases b src t hash st r st' :
  store_at (n_store st) t → height (header b) = t →
  fork_choice config b src t hash st = (r, st') →
  (n_store st' = n_store st ∧ n_mempool st' = n_mempool st) ∨
  (∃ old r0, 0 < t ∧ chain (view (n_store st)) !! t = Some old ∧ lex_lt (Block_hash b) hash ∧
     (∃ p, chain (view (n_store st)) !! (t - 1) = Some p ∧ prev_hash (header b) = Block_hash p ∧
        validate_block b p (n_store st) (n_store st) d = Ok tt) ∧
     reorg_block old b (n_store st) = (r0, n_store st') ∧ (r = Ok tt → r0 = Ok tt)).
Proof.
  intros Hst Hb. unfold fork_choice. case_bool_decide; [intros [= <- <-]; auto|].
  destruct (lex_le hash (Block_hash b)) eqn:Hle; [intros [= <- <-]; auto|].
  assert (Hlt : lex_lt (Block_hash b) hash).
  { unfold lex_le in Hle. by apply negb_false_iff in Hle as ->. }
  unfold store_read, store_call, st_map_err, on_store, read_store, reads, mbind, ST_bind.
  destruct (get_by_height (saturating_sub t 1) (n_store st)) as [x|e|] eqn:Hg;
    [|intros [= <- <-]; auto..].
  pose proof Hst as (Hs & Hc & Ht). pose proof (co_nonneg _ _ Hc).
  apply (get_height_at _ t) in Hg as (p & -> & Hp); [|done|unfold saturating_sub; lia].
  cbn [map_err]. case_bool_decide as Hprev; [intros [= <- <-]; auto|].
  destruct (validate_block b p (n_store st) (n_store st) d) as [[]|e|] eqn:Hv;
    cbn [negb]; [|intros [= <- <-]; auto..].
  assert (Hpos : 0 < t).
  { destruct (decide (0 < t)); [done|]. apply validate_block_spec, bv_height in Hv.
    pose proof (co_height _ _ Hc _ _ Hp) as Hhp. unfold saturating_sub in Hhp.
    rewrite u64_add_small in Hv by lia. injection Hv. lia. }
  replace (saturating_sub t 1) with (t - 1) in Hp by (unfold saturating_sub; lia).
  destruct (get_by_height t (n_store st)) as [y|e|] eqn:Hg; [|intros [= <- <-]; auto..].
  apply (get_height_at _ t) in Hg as (old & -> & Hold); [|done|lia]. cbn [map_err ok_or].
  intros Hr. right. exists old.
  destruct (reorg_block old b (n_store st)) as [r1 s1] eqn:Hre.
  assert (Hx : ∃ p, chain (view (n_store st)) !! (t - 1) = Some p ∧
    prev_hash (header b) = Block_hash p ∧ validate_block b p (n_store st) (n_store st) d = Ok tt)
    by eauto.
  destruct r1 as [[]|e|]; cbn in Hr; injection Hr as <- <-; eexists; split_and!; done.
Qed.

Lemma handle_new_block_cases b src tx t st r st' :
  store_at (n_store st) t → handle_new_block config b src tx st = (r, st') →
  (n_store st' = n_store st ∧ n_mempool st' = n_mempool st) ∨
  (∃ r0, extends (n_store st) t b ∧ extend_calls b (n_store st) = (r0, n_store st') ∧
     (r = Ok tt → r0 = Ok tt)) ∨
  (∃ old r0, beats (n_store st) t old b ∧ reorg_block old b (n_store st) = (r0, n_store st') ∧
     (r = Ok tt → r0 = Ok tt)).
Proof.
  intros Hst. unfold handle_new_block.
  unfold store_read, read_store, reads, try_send, modifies, mbind, ST_bind.
  destruct (get_by_hash (Block_hash b) (n_store st)) as [[k|]|e|];
    cbn [map_err]; [intros [= <- <-]; auto| |intros [= <- <-]; auto..].
  destruct (tip (n_store st)) as [x|e|] eqn:Htip; cbn [map_err]; [|intros [= <- <-]; auto..].
  apply (store_at_tip _ t) in Htip as (cur & -> & Hcur); [|done].
  change (default (0, zero_hash) (Some (t, Block_hash cur))) with (t, Block_hash cur).
  cbv beta iota zeta. pose proof Hst as (Hs & Hc & Ht). pose proof (co_nonneg _ _ Hc).
  rewrite u64_add_small by lia.
  destruct (Z.eqb_spec (height (header b)) (t + 1)) as [Hb|].
  - intros [?|(p & r0 & Hp & Hv & He & Hr)]%extend_tip_cases; [auto| |done].
    right. left. exists r0. split_and!; [|done..]. split; [done|]. eauto.
  - destruct (Z.eqb_spec (height (header b)) t) as [Hb|].
    + intros [?|(old & r0 & Hpos & Hold & Hlt & Hp & He & Hr)]%fork_choice_cases; [auto| |done..].
      right. right. exists old, r0. split_and!; [|done..]. rewrite Hcur in Hold. injection Hold as ->.
      by split_and!.
    + case_match; intros [= <- <-]; auto.
Qed.

Lemma valid_link b p s : validate_block b p s s d = Ok tt →
  prev_hash (header b) = Block_hash p ∧ timestamp (header p) ≤ timestamp (header b).
Proof. intros Hv%validate_block_spec. destruct Hv; auto. Qed.
End handling.

(** ** Properties of received blocks *)

Section block_properties.
Context `{Crypto} `{CoreJson} `{Json Message} `{BuildProfile} `{HashOrder} `{UnstableSort}.
Context {S : Type} `{!BlockStore S} `{!UtxoStore S} `{!ValidatorStore S} `{!StoreLaws S}.
Context (config : NodeConfig).
Implicit Types (st : NodeState S) (b : Block) (src : SocketAddr) (tx : Sender).
Notation d := (slot_duration_secs config).

(** C8: safety of the chain.  Whatever block a peer sends and whatever store
    call fails, the chain stays linked from the same genesis block, no block
    below the tip ever changes, the validators do not change, and the tip moves
    by at most one height; it moves back only when the handler reports an error. *)
Theorem new_block_safe b src tx t st r st' :
  store_at (n_store st) t → handle_new_block config b src tx st = (r, st') →
  let c := chain (view (n_store st)) in
  let c' := chain (view (n_store st')) in
  store_ok (n_store st') ∧ validators (view (n_store st')) = validators (view (n_store st)) ∧
  (∀ h, h < t → c' !! h = c !! h) ∧ (∀ g, c !! 0 = Some g → c' !! 0 = Some g) ∧
  ∃ t', chain_ok c' t' ∧ (t' = t ∨ t' = t + 1 ∨ t' = t - 1 ∧ r ≠ Ok tt).
Proof.
  intros Hst Hh. cbv zeta. pose proof Hst as (Hs & Hc & Ht). pose proof (co_nonneg _ _ Hc).
  apply (handle_new_block_cases config _ _ _ t) in Hh
    as [[-> _]|[(r0 & (Hb & p & Hp & Hv) & He & Hr)|(old & r0 & Hbeats & He & Hr)]];
    [split_and!; try done; eauto|..|done].
  - destruct (valid_link _ _ _ _ Hv) as [Hprev Hts].
    pose proof (chain_ok_extend _ _ _ _ Hc Hp Hb Hprev Hts).
    apply (extend_calls_spec b p _ t) in He as (? & ? & Hcase); [|done..].
    destruct Hcase as [(-> & _ & _)|(-> & _ & _)]; split_and!; try done; eauto.
    + intros h Hh. by rewrite lookup_insert_ne by lia.
    + intros g Hg. by rewrite lookup_insert_ne by lia.
  - destruct Hbeats as (Hb & Hpos & Hold & _ & p & Hp & Hprev & Hv).
    destruct (valid_link _ _ _ _ Hv) as [_ Hts].
    pose proof (chain_ok_replace _ _ _ _ Hpos Hc Hp Hb Hprev Hts).
    pose proof (chain_ok_delete _ _ Hpos Hc).
    apply (reorg_block_spec old b p _ t) in He as (? & ? & Hcase & Hok); [|done..].
    destruct Hcase as [[-> _]|[[-> Hne]| ->]]; split_and!; try done; eauto.
    + intros h Hh. by rewrite lookup_delete_ne by lia.
    + intros g Hg. by rewrite lookup_delete_ne by lia.
    + exists (t - 1). split; [done|]. right. right. split; [done|]. naive_solver.
    + intros h Hh. by rewrite lookup_insert_ne by lia.
    + intros g Hg. by rewrite lookup_insert_ne by lia.
Qed.

(** C6: refinement of the ledger.  In a consistent state, where the unspent
    outputs are those of replaying the chain, handling a block whose
    transactions apply to the state of its parent leads, when the handler
    reports success, to a consistent state again: through extension as through
    reorganisation, the outputs remain those of the chain.  Validation does not
    ensure that the transactions apply to the state of the parent; when they do
    not, a reorganisation can mint money. *)
Theorem new_block_consistent b src tx t st st' :
  consistent (n_store st) t → t + 1 < 2 ^ 64 →
  block_applies b (replay_below (chain (view (n_store st))) (height (header b))) →
  handle_new_block config b src tx st = (Ok tt, st') →
  ∃ t', consistent (n_store st') t'.
Proof.
  intros [Hs Hc Hu Hund] Ht Hba Hh. pose proof (co_nonneg _ _ Hc).
  assert (Hst : store_at (n_store st) t) by done.
  apply (handle_new_block_cases config _ _ _ t) in Hh
    as [[-> _]|[(r0 & (Hb & p & Hp & Hv) & He & Hr)|(old & r0 & Hbeats & He & Hr)]];
    [by exists t|..|done]; rewrite (Hr eq_refl) in He; clear Hr r0.
  - destruct (valid_link _ _ _ _ Hv) as [Hprev Hts].
    pose proof (chain_ok_extend _ _ _ _ Hc Hp Hb Hprev Hts) as Hc'.
    apply (extend_calls_spec b p _ t) in He as (Hs' & _ & [(_ & _ & ?)|(Hch & _ & Hok)]);
      [done| |done..].
    destruct (Hok eq_refl) as [Hu' Hun]. rewrite Hb, <- Hu in Hba.
    assert (Hrep : replay_below (chain (view (n_store st'))) (t + 1) = utxos (view (n_store st))).
    { rewrite Hu, Hch. apply replay_below_ext. intros h Hh. by rewrite lookup_insert_ne by lia. }
    exists (t + 1). constructor; [done|by rewrite Hch|..].
    + rewrite (replay_below_succ _ _ b) by (lia || (rewrite Hch; apply lookup_insert_eq)).
      by rewrite Hrep.
    + intros b' _ Hb'. rewrite Hch, lookup_insert_eq in Hb'. injection Hb' as <-.
      rewrite Hrep. auto.
  - destruct Hbeats as (Hb & Hpos & Hold & _ & p & Hp & Hprev & Hv).
    destruct (valid_link _ _ _ _ Hv) as [_ Hts].
    pose proof (chain_ok_replace _ _ _ _ Hpos Hc Hp Hb Hprev Hts) as Hc'.
    apply (reorg_block_spec old b p _ t) in He as (Hs' & _ & _ & Hok); [|done..].
    destruct (Hok eq_refl) as [Hch Hu']. destruct (Hu' _ (Hund _ Hpos Hold)) as [Hut Hun].
    rewrite Hb in Hba.
    assert (Hrep : replay_below (chain (view (n_store st'))) t
                   = replay_below (chain (view (n_store st))) t).
    { rewrite Hch. apply replay_below_ext. intros h Hh. by rewrite lookup_insert_ne by lia. }
    exists t. constructor; [done|by rewrite Hch|..].
    + rewrite (replay_below_succ _ _ b) by (lia || (rewrite Hch; apply lookup_insert_eq)).
      by rewrite Hrep.
    + intros b' _ Hb'. rewrite Hch, lookup_insert_eq in Hb'. injection Hb' as <-.
      rewrite Hrep. auto.
Qed.

Lemma fork_choice_spec b src tx t st st' old :
  store_at (n_store st) t → chain (view (n_store st)) !! t = Some old →
  height (header b) = t → handle_new_block config b src tx st = (Ok tt, st') →
  chain (view (n_store st')) = chain (view (n_store st)) ∨
  chain (view (n_store st')) = <[t := b]> (chain (view (n_store st))) ∧
  lex_lt (Block_hash b) (Block_hash old) ∧ 0 < t ∧
  ∃ p, chain (view (n_store st)) !! (t - 1) = Some p ∧ prev_hash (header b) = Block_hash p ∧
    validate_block b p (n_store st) (n_store st) d = Ok tt.
Proof.
  intros Hst Hold Hb Hh.
  apply (handle_new_block_cases config _ _ _ t) in Hh
    as [[-> _]|[(r0 & (Hb' & _) & _ & _)|(old' & r0 & Hbeats & He & Hr)]]; [auto|lia| |done].
  right. destruct Hbeats as (_ & Hpos & Hold' & Hlt & p & Hp & Hprev & Hv).
  rewrite Hold in Hold'. injection Hold' as <-.
  destruct (valid_link _ _ _ _ Hv) as [_ Hts].
  rewrite (Hr eq_refl) in He. apply (reorg_block_spec old b p _ t) in He as (_ & _ & _ & Hok); [|done..].
  destruct (Hok eq_refl) as [Hch _]. split_and!; eauto.
Qed.

(** The fork-choice rule.  When a block at the height of the tip has been
    handled without error, the tip is the old one or the received one, and the
    received one only if its hash is lower, it has the same parent and it passed
    validation: the hash of the tip at a height only ever decreases. *)
Theorem fork_choice_lower_hash b src tx t st st' old :
  store_at (n_store st) t → chain (view (n_store st)) !! t = Some old →
  height (header b) = t → handle_new_block config b src tx st = (Ok tt, st') →
  chain (view (n_store st')) = chain (view (n_store st)) ∨
  chain (view (n_store st')) = <[t := b]> (chain (view (n_store st))) ∧
  lex_lt (Block_hash b) (Block_hash old) ∧ 0 < t ∧
  ∃ p, chain (view (n_store st)) !! (t - 1) = Some p ∧ prev_hash (header b) = Block_hash p ∧
    validate_block b p (n_store st) (n_store st) d = Ok tt.
Proof. apply fork_choice_spec. Qed.

(** C7: agreement.  Two nodes whose chains agree below height [t] and whose
    tips are two competing blocks end with the same chain after each has
    handled the other's block without error, provided the block with the lower
    hash is not refused by the node that lacks it (it is unknown there and
    passes validation). *)
Theorem fork_convergence b1 b2 src1 src2 tx1 tx2 t (n1 n2 n1' n2' : NodeState S) :
  store_at (n_store n1) t → store_at (n_store n2) t → 0 < t →
  chain (view (n_store n1)) !! t = Some b1 → chain (view (n_store n2)) !! t = Some b2 →
  chain (view (n_store n2)) = <[t := b2]> (chain (view (n_store n1))) →
  lex_lt (Block_hash b1) (Block_hash b2) →
  (∀ x, get_by_hash (Block_hash b1) (n_store n2) = Ok x → x = None) →
  (∀ p, chain (view (n_store n2)) !! (t - 1) = Some p →
     validate_block b1 p (n_store n2) (n_store n2) d = Ok tt) →
  handle_new_block config b2 src1 tx1 n1 = (Ok tt, n1') →
  handle_new_block config b1 src2 tx2 n2 = (Ok tt, n2') →
  chain (view (n_store n1')) = chain (view (n_store n2')).
Proof.
  intros Hn1 Hn2 Hpos Hb1 Hb2 Hch Hlt Hunk Hval Hh1 Hh2.
  pose proof Hn1 as (Hs1 & Hc1 & Ht). pose proof Hn2 as (Hs2 & Hc2 & _).
  pose proof (co_height _ _ Hc1 _ _ Hb1) as Hh_b1. pose proof (co_height _ _ Hc2 _ _ Hb2) as Hh_b2.
  assert (Heq1 : chain (view (n_store n1')) = chain (view (n_store n1))).
  { destruct (fork_choice_spec b2 src1 tx1 t n1 n1' b1) as [?|(_ & Hlt' & _)]; try done.
    assert (Hf : lex_lt (Block_hash b1) (Block_hash b1)) by by eapply lex_lt_trans.
    by rewrite lex_lt_irrefl in Hf. }
  rewrite Heq1. clear Hh1 Heq1.
  assert (Hback : <[t := b1]> (chain (view (n_store n2))) = chain (view (n_store n1))).
  { rewrite Hch, insert_insert_eq. by apply insert_id. }
  rewrite <- Hback. symmetry. revert Hh2.
  destruct (proj2 (co_range _ _ Hc2 (t - 1))) as [p Hp]; [lia|].
  destruct (valid_link _ _ _ _ (Hval _ Hp)) as [Hprev Hts].
  unfold handle_new_block, store_read, read_store, reads, mbind, ST_bind.
  destruct (get_by_hash (Block_hash b1) (n_store n2)) as [k|e|] eqn:Hk; [|done..].
  rewrite (Hunk _ eq_refl). cbn [map_err].
  destruct (tip (n_store n2)) as [x|e|] eqn:Htip; [|done..].
  apply (store_at_tip _ t) in Htip as (cur & -> & Hcur); [|done].
  rewrite Hb2 in Hcur. injection Hcur as <-. cbn [map_err].
  change (default (0, zero_hash) (Some (t, Block_hash b2))) with (t, Block_hash b2).
  cbv beta iota zeta. rewrite u64_add_small by lia. rewrite Hh_b1.
  rewrite (proj2 (Z.eqb_neq t (t + 1))), Z.eqb_refl by lia.
  unfold fork_choice. rewrite bool_decide_false.
  2:{ intros Heq. rewrite Heq, lex_lt_irrefl in Hlt. done. }
  assert (Hle : lex_le (Block_hash b2) (Block_hash b1) = false).
  { unfold lex_le. by apply Is_true_true in Hlt as ->. }
  rewrite Hle. unfold store_read, store_call, st_map_err, on_store, read_store, reads, mbind, ST_bind.
  replace (saturating_sub t 1) with (t - 1) by (unfold saturating_sub; lia).
  destruct (get_by_height (t - 1) (n_store n2)) as [y|e|] eqn:Hg; [|done..].
  apply (get_height_at _ t) in Hg as (p' & -> & Hp'); [|done|lia].
  rewrite Hp in Hp'. injection Hp' as <-. cbn [map_err].
  rewrite bool_decide_false by (intros Hn; by apply Hn). rewrite (Hval _ Hp). cbn [negb].
  destruct (get_by_height t (n_store n2)) as [y|e|] eqn:Hg; [|done..].
  apply (get_height_at _ t) in Hg as (b2' & -> & Hb2'); [|done|lia].
  rewrite Hb2 in Hb2'. injection Hb2' as <-. cbn [map_err ok_or].
  destruct (reorg_block b2 b1 (n_store n2)) as [r s'] eqn:Hre.
  apply (reorg_block_spec b2 b1 p _ t) in Hre as (_ & _ & _ & Hok); [|done..].
  destruct r as [[]|e|]; cbn; [|done..]. intros [= <-]. by apply Hok.
Qed.

(** A block the store already knows is ignored: nothing is stored, sent or
    reported, so a block does not circulate among peers for ever. *)
Theorem known_block_ignored b src tx st k :
  get_by_hash (Block_hash b) (n_store st) = Ok (Some k) →
  handle_new_block config b src tx st = (Ok tt, st).
Proof.
  intros Hk. unfold handle_new_block, store_read, read_store, reads, mbind, ST_bind.
  by rewrite Hk.
Qed.

(** A block that is neither at the tip's height nor one above it changes
    neither the stores nor the mempool; one that is further ahead makes the
    node ask the sender for the blocks after its tip, and a stale one is
    dropped silently. *)
Theorem distant_block_keeps_state b src tx t st st' r :
  store_at (n_store st) t → height (header b) ≠ t → height (header b) ≠ t + 1 →
  handle_new_block config b src tx st = (r, st') →
  n_store st' = n_store st ∧ n_mempool st' = n_mempool st ∧
  (n_effects st' = n_effects st ∨
   t + 1 < height (header b) ∧ r = Ok tt ∧
   n_effects st' = n_effects st ++ [TrySend tx (GetBlocks (t + 1))]).
Proof.
  intros Hst Hne1 Hne2. unfold handle_new_block, store_read, read_store, reads, try_send, modifies,
    mbind, ST_bind.
  destruct (get_by_hash (Block_hash b) (n_store st)) as [[k|]|e|]; [by intros [= <- <-]; auto| |
    by intros [= <- <-]; auto..].
  cbn [map_err]. destruct (tip (n_store st)) as [x|e|] eqn:Htip; [|by intros [= <- <-]; auto..].
  apply (store_at_tip _ t) in Htip as (cur & -> & Hcur); [|done].
  cbn [map_err].
  change (default (0, zero_hash) (Some (t, Block_hash cur))) with (t, Block_hash cur).
  cbv beta iota zeta. destruct Hst as (_ & Hc & Ht). pose proof (co_nonneg _ _ Hc).
  rewrite u64_add_small by lia.
  rewrite (proj2 (Z.eqb_neq _ (t + 1))), (proj2 (Z.eqb_neq _ t)) by done.
  destruct (Z.ltb_spec (t + 1) (height (header b))); intros [= <- <-]; auto 10.
Qed.
End block_properties.

(** ** What every message keeps *)

Section frame.
Context `{Crypto} `{CoreJson} `{Json Message} `{BuildProfile} `{HashOrder} `{UnstableSort}.
Context {S : Type} `{!BlockStore S} `{!UtxoStore S} `{!ValidatorStore S}.
Context (config : NodeConfig) (src : SocketAddr) (reply_tx : Sender).

(** [m] relates the state before to the state after by [R], whatever it returns. *)
Definition respects {E A} (R : relation (NodeState S)) (m : ST (NodeState S) E A) : Prop :=
  ∀ st r st', m st = (r, st') → R st st'.

Section combinators.
Context (R : relation (NodeState S)) `{!PreOrder R}.

Lemma respects_bind {E A B} (m : ST (NodeState S) E A) (f : A → ST (NodeState S) E B) :
  respects R m → (∀ a, respects R (f a)) → respects R (m ≫= f).
Proof.
  intros Hm Hf st r st'. unfold mbind, ST_bind. destruct (m st) as [[a|e|] s1] eqn:Em;
    apply Hm in Em; [|by intros [= <- <-]..].
  intros Hr%Hf. by transitivity s1.
Qed.

Lemma respects_ret {E A} (a : A) : respects R (mret a : ST (NodeState S) E A).
Proof. intros st r st' [= <- <-]. done. Qed.

Lemma respects_reads {E A} (f : NodeState S → Res E A) : respects R (reads f).
Proof. intros st r st' [= <- <-]. done. Qed.

Lemma respects_modifies {E} (f : NodeState S → NodeState S) :
  (∀ st, R st (f st)) → respects R (modifies (E := E) f).
Proof. intros Hf st r st' [= <- <-]. done. Qed.

(** A relation that the primitive steps of the handler satisfy. *)
Class HandlerSteps := {
  hs_store st s : R st (set_store s st);
  hs_emit st e : R st (perform [Emit e] st);
  hs_reply st m : R st (perform [TrySend reply_tx m] st);
  hs_gossip st m : R st (perform (PeerSet.broadcast_except src m (n_peers st)) st);
  hs_remove st hs : R st (set_mempool (Mempool.remove hs (n_mempool st)) st);
  hs_add st tx r m : Mempool.add tx (n_store st) (n_mempool st) = (r, m) → R st (set_mempool m st);
}.
Context `{!HandlerSteps}.

Lemma respects_store_call {A} (m : ST S StoreError A) : respects R (store_call m).
Proof.
  intros st r st'. unfold store_call, st_map_err, on_store.
  destruct (m (n_store st)) as [r' s']. intros [= <- <-]. apply hs_store.
Qed.

Lemma respects_gossip m : respects R (gossip src m).
Proof. intros st r st' [= <- <-]. apply hs_gossip. Qed.

Lemma respects_forget b : respects R (forget_txs b).
Proof. apply respects_modifies. intros st. apply hs_remove. Qed.

Lemma respects_emit {E} e : respects R (emit (E := E) e).
Proof. apply respects_modifies. intros st. apply hs_emit. Qed.

Lemma respects_reply {E} m : respects R (try_send (E := E) reply_tx m).
Proof. apply respects_modifies. intros st. apply hs_reply. Qed.
End combinators.

#[local] Hint Resolve respects_ret respects_reads respects_store_call respects_gossip
  respects_forget respects_emit respects_reply : bcc.

(** Walks through a handler. *)
Ltac respects_steps :=
  repeat match goal with
  | |- respects _ (_ ≫= _) => apply respects_bind; [assumption| |intros ?]
  | |- respects _ (if ?b then _ else _) => destruct b
  | |- respects _ (match ?o with _ => _ end) => destruct o
  | |- respects _ (let '(_, _) := ?p in _) => destruct p
  | |- respects _ (store_read _) => apply respects_reads; assumption
  | |- respects _ _ => solve [eauto with bcc typeclass_instances]
  end.

Lemma respects_emits R `{!PreOrder R} `{!HandlerSteps R} (evs : list DebugEvent) (st : NodeState S) :
  R st (perform (Emit <$> evs) st).
Proof.
  induction evs as [|e evs IH] using rev_ind.
  - unfold perform. cbn. rewrite app_nil_r. destruct st; reflexivity.
  - rewrite fmap_app, <- perform_app. change (Emit <$> [e]) with [Emit e].
    etransitivity; [apply IH|apply (hs_emit R)].
Qed.

(** Every message is handled by the primitive steps. *)
Lemma respects_message R `{!PreOrder R} `{!HandlerSteps R} (msg : Message) :
  respects R (handle_message config msg src reply_tx).
Proof.
  destruct msg as [h|bs|b|tx| |addrs|n|n]; cbn [handle_message].
  - unfold handle_get_blocks. respects_steps.
  - respects_steps.
  - unfold handle_new_block, extend_tip, fork_choice. respects_steps.
  - intros st r st'. unfold handle_new_tx.
    destruct (Mempool.add tx (n_store st) (n_mempool st)) as [ra m] eqn:Ha.
    pose proof (hs_add R _ _ _ _ Ha) as Hm.
    destruct ra as [a|e|]; [destruct (newly_added a)|..]; intros [= <- <-]; [|done| |done].
    + etransitivity; [apply Hm|]. etransitivity; [|apply (hs_gossip R (perform _ (set_mempool m st)) (NewTx tx))].
      set (evs := match evicted a with
                  | Some ev => [TxEvicted ev (added_tx_hash a)] | None => [] end ++
                  [TxAccepted (added_tx_hash a) (added_value a) (pool_size a);
                   TxGossipAccepted (addr_to_string src) (hex_encode (Transaction_hash tx))]).
      pose proof (respects_emits R evs (set_mempool m st)) as Hev. subst evs.
      rewrite fmap_app in Hev. by destruct (evicted a).
    + etransitivity; [apply Hm|].
      apply (respects_emits R [TxRejected _ _; TxGossipRejected _ _ _]).
  - intros st r st' Hr. by eapply (respects_reply R).
  - respects_steps.
  - respects_steps.
  - respects_steps.
Qed.

(** *** Effects *)

(** An effect a message from [src] may cause: a debug event, a reply to [src],
    or a message to a connected peer other than [src]. *)
Definition allowed (ps : PeerSet) (e : Effect) : Prop :=
  match e with
  | TrySend c _ => c = reply_tx ∨ ∃ a, a ≠ src ∧ ps !! a = Some c
  | AnnounceBlock _ => False
  | Emit _ => True
  end.
Definition effects_grow (st st' : NodeState S) : Prop :=
  n_peers st' = n_peers st ∧
  ∃ es, n_effects st' = n_effects st ++ es ∧ Forall (allowed (n_peers st)) es.

#[local] Instance effects_grow_preorder : PreOrder effects_grow.
Proof.
  split.
  - intros st. split; [done|]. exists []. by rewrite app_nil_r.
  - intros s1 s2 s3 [Hp1 (es1 & He1 & Ha1)] [Hp2 (es2 & He2 & Ha2)]. split; [congruence|].
    exists (es1 ++ es2). rewrite He2, He1, app_assoc. split; [done|].
    rewrite Hp1 in Ha2. by apply Forall_app.
Qed.

Lemma broadcast_except_allowed m (ps : PeerSet) :
  Forall (allowed ps) (PeerSet.broadcast_except src m ps).
Proof.
  apply Forall_forall. unfold PeerSet.broadcast_except. intros e Hin.
  apply list_elem_of_omap in Hin as ([a c] & Hin & He). case_bool_decide; [|done].
  injection He as <-. cbn in *. right. exists a. split; [done|].
  by rewrite hash_iter_perm, elem_of_map_to_list in Hin.
Qed.

#[local] Instance effects_grow_steps : HandlerSteps effects_grow.
Proof.
  assert (Hkeep : ∀ st st', n_peers st' = n_peers st → n_effects st' = n_effects st →
    effects_grow st st').
  { intros st st' Hp He. split; [done|]. exists []. by rewrite He, app_nil_r. }
  split; intros; try by apply Hkeep.
  - split; [done|]. eexists. split; [done|]. by repeat constructor.
  - split; [done|]. eexists. split; [done|]. constructor; [by left|constructor].
  - split; [done|]. eexists. split; [done|]. apply broadcast_except_allowed.
Qed.

Lemma message_effects_spec msg (st st' : NodeState S) r :
  handle_message config msg src reply_tx st = (r, st') →
  n_peers st' = n_peers st ∧
  ∃ es, n_effects st' = n_effects st ++ es ∧ Forall (allowed (n_peers st)) es.
Proof. apply (respects_message effects_grow). Qed.

(** Gossip discipline.  Handling a message never changes the peer set,
    sends only to the peer the message came from, as a reply, or to other
    connected peers, and never forwards anything back to its source. *)
Theorem message_effects msg (st st' : NodeState S) r :
  handle_message config msg src reply_tx st = (r, st') →
  n_peers st' = n_peers st ∧
  ∃ es, n_effects st' = n_effects st ++ es ∧ Forall (allowed (n_peers st)) es.
Proof. apply message_effects_spec. Qed.

(** *** The mempool *)

Definition pool_kept (st st' : NodeState S) : Prop :=
  mempool_ok (n_mempool st) → mempool_ok (n_mempool st').

#[local] Instance pool_kept_preorder : PreOrder pool_kept.
Proof. split; unfold pool_kept; [by intros ?|naive_solver]. Qed.

#[local] Instance pool_kept_steps : HandlerSteps pool_kept.
Proof.
  split; unfold pool_kept; try done; cbn.
  - intros st hs Hm. by apply remove_ok.
  - intros st tx r m Ha Hm. by apply (add_cases _ _ _ _ _ Hm) in Ha as [? _].
Qed.

Lemma keeps_mempool msg (st st' : NodeState S) r :
  mempool_ok (n_mempool st) → handle_message config msg src reply_tx st = (r, st') →
  mempool_ok (n_mempool st').
Proof. intros Hm Hh. by apply (respects_message pool_kept) in Hh; apply Hh. Qed.

(** Every message, accepted or not, leaves the mempool with its invariants:
    no two pooled transactions spend the same output and the cap is respected. *)
Theorem message_keeps_mempool msg (st st' : NodeState S) r :
  mempool_ok (n_mempool st) → handle_message config msg src reply_tx st = (r, st') →
  mempool_ok (n_mempool st').
Proof. apply keeps_mempool. Qed.

(** *** Replies *)

(** The answer to a request for blocks is one message to the requester with
    at most 256 consecutive blocks of the chain in ascending order, starting
    with the lowest one at or above the requested height; nothing else changes. *)
Theorem get_blocks_reply `{!StoreLaws S} h (st st' : NodeState S) :
  store_ok (n_store st) → u64 h →
  handle_message config (GetBlocks h) src reply_tx st = (Ok tt, st') →
  ∃ batch rest, st' = perform [TrySend reply_tx (Blocks batch)] st ∧
    chain_range (chain (view (n_store st))) h (batch ++ rest) ∧
    (length batch ≤ 256)%nat ∧ (rest ≠ [] → length batch = 256%nat).
Proof.
  intros Hs Hh. cbn [handle_message]. unfold handle_get_blocks, store_read, read_store, reads,
    try_send, modifies, mbind, ST_bind.
  destruct (iter_from h (n_store st)) as [bs|e|] eqn:Hi; [|done..]. cbn [map_err].
  intros [= <-]. apply iter_law in Hi; [|done..].
  exists (take 256 bs), (drop 256 bs). rewrite take_drop, length_take. split_and!; try done; [lia|].
  intros Hne. destruct (decide (256 ≤ length bs)%nat); [lia|].
  by rewrite drop_ge in Hne by lia.
Qed.

(** The blocks a peer sends in answer to the request of a node that has
    fallen behind are discarded: a [Blocks] message has no effect at all, so
    the node does not catch up through it. *)
Theorem sync_response_ignored bs (st : NodeState S) :
  dispatch config (to_vec (Blocks bs)) src reply_tx st = (Ok tt, st).
Proof.
  unfold dispatch, reads, mbind, ST_bind. rewrite from_slice_to_vec. done.
Qed.
End frame.

(** ** A reorganisation validates against the wrong state *)

Section reorg.
Context `{Crypto} `{CoreJson} `{Json Message} `{BuildProfile} `{HashOrder} `{UnstableSort}.
Context {S : Type} `{!BlockStore S} `{!UtxoStore S} `{!ValidatorStore S} `{!StoreLaws S}.

Lemma remove_missing_refs rs (u : gmap TxOutRef TxOutput) :
  (∀ r, r ∈ rs → u !! r = None) → remove_refs rs u = u.
Proof.
  intros Hrs. apply map_eq. intros r. rewrite lookup_remove_refs. case_decide; [|done].
  symmetry. auto.
Qed.

(** C37: a competing block is validated against the unspent outputs after the
    block it replaces, but applied to those before it.  When its transaction
    spends outputs that only the replaced block created, the reorganisation
    consumes nothing and the whole output value of the transaction is new money. *)
Theorem reorg_mints config b src tx t (st st' : NodeState S) old u x :
  store_at (n_store st) t → chain (view (n_store st)) !! t = Some old →
  undoable old u (n_store st) → b ≠ old → height (header b) = t →
  txs b = [x] → (∀ r, r ∈ spent_refs x → u !! r = None) →
  NoDup (created_refs x) → (∀ r, r ∈ created_refs x → u !! r = None) →
  handle_new_block config b src tx st = (Ok tt, st') →
  chain (view (n_store st')) !! t = Some b →
  supply (utxos (view (n_store st'))) = supply u + value_out x.
Proof.
  intros Hst Hold Hund Hne Hb Hx Hmiss Hnd Hfresh Hh Hnew.
  apply (handle_new_block_cases config _ _ _ t) in Hh
    as [[Heq _]|[(r0 & (Hb' & _) & _ & _)|(old' & r0 & Hbeats & He & Hr)]]; [|lia| |done].
  { rewrite Heq, Hold in Hnew. congruence. }
  destruct Hbeats as (_ & Hpos & Hold' & Hlt & p & Hp & Hprev & Hv).
  rewrite Hold in Hold'. injection Hold' as <-.
  destruct (valid_link _ _ _ _ Hv) as [_ Hts].
  rewrite (Hr eq_refl) in He. apply (reorg_block_spec old b p _ t) in He as (_ & _ & _ & Hok); [|done..].
  destruct (Hok eq_refl) as [_ Hu]. destruct (Hu u Hund) as [-> _].
  unfold ledger_block. rewrite Hx. cbn. unfold ledger_tx. rewrite remove_missing_refs by done.
  rewrite supply_insert_outputs by by rewrite fst_new_outputs.
  by rewrite snd_new_outputs.
Qed.

(** A pooled transaction that conflicts with a block stays in the mempool
    when the block is taken in: only the block's own transactions are removed,
    so a transaction spending an output the block has spent remains a candidate
    for the next block although it can no longer be validated. *)
Theorem conflicting_tx_stays config src block t (st st' : NodeState S) r k x :
  store_at (n_store st) t → mempool_ok (n_mempool st) → height (header block) = t + 1 →
  extend_tip config block src t st = (Ok tt, st') →
  chain (view (n_store st')) !! (t + 1) = Some block →
  (k, x) ∈ mp_txs (n_mempool st) → k ∉ Transaction_hash <$> txs block →
  r ∈ spent_refs x → r ∈ block_spent block → r ∉ block_created block →
  (k, x) ∈ mp_txs (n_mempool st') ∧ utxos (view (n_store st')) !! r = None ∧
  validate_transaction x (n_store st') ≠ Ok tt.
Proof.
  intros Hst Hm Hb Hext Hnew Hk Hnk Hr Hspent Hcr.
  pose proof Hst as (Hs & Hc & Ht). pose proof (co_nonneg _ _ Hc).
  assert (Hkeep : ∀ m, m = n_mempool st ∨
      m = Mempool.remove (Transaction_hash <$> txs block) (n_mempool st) → (k, x) ∈ mp_txs m).
  { intros m [->| ->]; [done|]. destruct (remove_ok (Transaction_hash <$> txs block) _ Hm) as (_ & _ & Hin).
    by apply Hin. }
  assert (Hpool : (k, x) ∈ mp_txs (n_mempool st')).
  { apply Hkeep. revert Hext. unfold extend_tip, store_read, store_call, st_map_err, on_store,
      read_store, reads, emit, forget_txs, gossip, modifies, mbind, ST_bind.
    repeat (case_match; simplify_eq/=); intros; simplify_eq/=; auto. }
  apply (extend_tip_cases config _ _ t) in Hext as [[Heq _]|(p & r0 & Hp & Hv & He & Hr0)]; [| |done].
  { rewrite Heq in Hnew. assert (is_Some (chain (view (n_store st)) !! (t + 1))) as Hx by by eexists.
    apply (co_range _ _ Hc) in Hx. lia. }
  destruct (valid_link _ _ _ _ Hv) as [Hprev Hts].
  rewrite (Hr0 eq_refl) in He. apply (extend_calls_spec block p _ t) in He
    as (Hs' & _ & [(_ & _ & ?)|(_ & _ & Hok)]); [done| |done..].
  destruct (Hok eq_refl) as [Hu _].
  assert (Hnone : utxos (view (n_store st')) !! r = None).
  { rewrite Hu. unfold ledger_block. rewrite lookup_ledger_txs by done. by rewrite decide_True. }
  split_and!; [done..|]. intros Hval. apply validate_transaction_spec in Hval as (_ & _ & sp & _ & Hin & _).
  apply list_elem_of_fmap in Hr as (i & -> & [n Hi]%list_elem_of_lookup).
  destruct (Forall2_lookup_l _ _ _ _ _ Hin Hi) as (o & _ & Hget & _).
  apply get_law in Hget; [|done]. congruence.
Qed.
End reorg.

(** ** Connections *)

Section connections.
Context `{Crypto} `{CoreJson} `{Json Message} `{BuildProfile} `{HashOrder} `{UnstableSort}.
Context {S : Type} `{!BlockStore S} `{!UtxoStore S} `{!ValidatorStore S}.
Context (config : NodeConfig).
Implicit Types (st : NodeState S) (ps : PeerSet).

(** At most one connection per IP address. *)
Definition distinct_ips (ps : PeerSet) : Prop :=
  ∀ a b, is_Some (ps !! a) → is_Some (ps !! b) → ip a = ip b → a = b.

Lemma has_ip_spec i ps : PeerSet.has_ip i ps = true ↔ ∃ a, ip a = i ∧ is_Some (ps !! a).
Proof.
  unfold PeerSet.has_ip. rewrite existsb_exists. setoid_rewrite bool_decide_eq_true. split.
  - intros (a & Hin & <-). exists a. split; [done|].
    apply list_elem_of_In, list_elem_of_fmap in Hin as ([a' c] & -> & Hin).
    rewrite hash_iter_perm, elem_of_map_to_list in Hin. by eexists.
  - intros (a & <- & [c Hc]). exists a. split; [|done].
    apply list_elem_of_In, list_elem_of_fmap. exists (a, c). split; [done|].
    by rewrite hash_iter_perm, elem_of_map_to_list.
Qed.

Lemma distinct_ips_remove a ps : distinct_ips ps → distinct_ips (PeerSet.remove a ps).
Proof.
  unfold PeerSet.remove. intros Hp x y [_ Hx]%lookup_delete_is_Some [_ Hy]%lookup_delete_is_Some.
  by apply Hp.
Qed.

Lemma register_peer_spec addr tx st st' :
  register_peer addr tx st = Some st' →
  n_peers st' = <[addr := tx]> (n_peers st) ∧ n_peers st !! addr = None ∧
  (distinct_ips (n_peers st) → distinct_ips (n_peers st')).
Proof.
  unfold register_peer. destruct (PeerSet.has_ip _ _) eqn:Hip; [done|]. intros [= <-].
  assert (Hno : ∀ a, ip a = ip addr → n_peers st !! a = None).
  { intros a Ha. apply eq_None_not_Some. intros Hs.
    assert (PeerSet.has_ip (ip addr) (n_peers st) = true) by (apply has_ip_spec; eauto). congruence. }
  cbn. split_and!; [done|by apply Hno|]. intros Hd a b. unfold PeerSet.insert.
  rewrite !lookup_insert_is_Some.
  intros [<-|[Ha Hsa]] [<-|[Hb Hsb]] Heq; [done| | |by apply Hd].
  - symmetry in Heq. rewrite (Hno _ Heq) in Hsb. by destruct Hsb.
  - rewrite (Hno _ Heq) in Hsa. by destruct Hsa.
Qed.

Lemma peer_loop_peers addr tx is_ st r st' :
  peer_loop config addr tx is_ st = (r, st') → n_peers st' = n_peers st.
Proof.
  revert st. induction is_ as [|i is_ IH]; intros st; cbn; [by intros [= <- <-]|].
  assert (Hstep : ∀ x s, peer_step config addr tx i st = (x, s) → n_peers s = n_peers st).
  { intros x s. destruct i; cbn; try by intros [= <- <-].
    unfold dispatch, mbind, ST_bind, reads. destruct (from_slice bytes) as [e|msg]; cbn;
      [by intros [= <- <-]|].
    destruct (handle_message config msg addr tx st) as [rr s'] eqn:Hm.
    apply message_effects_spec in Hm as [Hp _]. destruct rr; by intros [= <- <-]. }
  destruct (peer_step config addr tx i st) as [[[]|[]|] s] eqn:Hs; specialize (Hstep _ _ eq_refl).
  - intros Hl%IH. congruence.
  - by intros [= <- <-].
  - by intros [= <- <-].
Qed.

(** A connection keeps at most one peer per IP address registered, and
    whatever it receives, when it ends the peer set is what it was before; only
    a panic of the handler leaves the dead peer registered. *)
Theorem run_peer_restores_peers addr tx greeted is_ st r st' :
  distinct_ips (n_peers st) → run_peer config addr tx greeted is_ st = (r, st') →
  distinct_ips (n_peers st') ∧
  match r with
  | Some (Ok _) => n_peers st' = n_peers st
  | _ => n_peers st' = <[addr := tx]> (n_peers st)
  end.
Proof.
  intros Hd. unfold run_peer. destruct (register_peer addr tx st) as [s1|] eqn:Hreg.
  2:{ by intros [= <- <-]. }
  apply register_peer_spec in Hreg as (Hp1 & Hno & Hd1). specialize (Hd1 Hd).
  assert (Hde : ∀ s : NodeState S, n_peers s = <[addr := tx]> (n_peers st) →
    n_peers (deregister_peer addr s) = n_peers st).
  { intros s Hs. cbn. rewrite Hs. unfold PeerSet.remove. by apply delete_insert_id. }
  destruct (peer_loop config addr tx is_ s1) as [lr s2] eqn:Hl.
  apply peer_loop_peers in Hl. rewrite Hp1 in Hl, Hd1.
  assert (Hend : ∀ s : NodeState S, n_peers s = n_peers st → distinct_ips (n_peers s))
    by by intros s ->.
  destruct (from_option _ _ _); [|intros [= <- <-]; by auto].
  destruct lr as [[[]|[]|]|]; intros [= <- <-]; rewrite ?Hde, ?Hl by done; done.
Qed.
End connections.
