(* ===== verification/Genesis.v ===== *)
(** * The genesis block ([bcc-node/src/genesis.rs])

    Construction and application of the genesis configuration, with what a
    successful run establishes and what a failed one leaves behind. *)

From S2P Require Import Prelude Bytes Types Encoding Store Ledger Validation Mempool DebugEvent Node.
From S2P Require Import Handler Protocol.

Definition GENESIS_MESSAGE : string := "Slipping Jimmy, counselor at law.".

Record GenesisValidator := mkGenesisValidator {
  gv_address : string;
  gv_pubkey : string;
  gv_stake : Z;
}.
Record GenesisAccount := mkGenesisAccount {
  ga_address : string;
  ga_balance : Z;
}.
Record GenesisConfig := mkGenesisConfig {
  g_timestamp : Z;
  g_validators : list GenesisValidator;
  g_accounts : list GenesisAccount;
}.

(** [GenesisConfig::from_file]: [content] is the outcome of reading the file,
    [from_str] the TOML parser. *)
Definition genesis_from_file (from_str : string → string + GenesisConfig) (content : string + string) :
    Res NodeError GenesisConfig :=
  content ← map_err (fun e => NodeConfigError ("genesis file: " +:+ e)) (of_sum content);
  map_err (fun e => NodeConfigError ("genesis parse: " +:+ e)) (of_sum (from_str content)).

Section genesis.
Context `{Crypto} `{CoreJson}.

Definition genesis_merkle_root : BlockHash := sha256d (String.list_byte_of_string GENESIS_MESSAGE).

Definition build_genesis_block (timestamp : Z) (alloc_txs : list Transaction) : Block :=
  mkBlock
    (mkBlockHeader zero_hash genesis_merkle_root timestamp 0 0
       (Address.from_pubkey_bytes (replicate 32 x00)))
    (mkSignature (replicate 64 x00)) alloc_txs.

(** The transaction that mints an account's balance. *)
Definition alloc_tx (entry : GenesisAccount) : Res NodeError Transaction :=
  address ← map_err (fun e => NodeConfigError ("genesis account address: "
                                 +:+ AddressError_to_string e))
              (Address.validate (ga_address entry));
  Ok (mkTransaction Transfer [] [mkTxOutput (ga_balance entry) address]).

Definition genesis_validator (entry : GenesisValidator) : Res NodeError Validator :=
  address ← map_err (fun e => NodeConfigError ("genesis validator address: "
                                 +:+ AddressError_to_string e))
              (Address.validate (gv_address entry));
  pubkey_bytes ← map_err (fun e => NodeConfigError ("genesis validator pubkey hex: " +:+ e))
                   (of_sum (hex_decode (gv_pubkey entry)));
  if negb (length pubkey_bytes =? 32)%nat
  then Err (NodeConfigError "genesis validator pubkey must be 32 bytes")
  else
    pubkey ← map_err (fun e => NodeConfigError ("genesis validator pubkey: " +:+ e))
               (of_sum (vk_from_bytes pubkey_bytes));
    Ok (mkValidator address pubkey (gv_stake entry) 0).

Context {S : Type} `{!BlockStore S} `{!UtxoStore S} `{!ValidatorStore S}.

Definition node_store {A} (m : ST S StoreError A) : ST S NodeError A := st_map_err NodeStore m.

(** The loop over the validators. *)
Fixpoint register_validators (l : list GenesisValidator) : ST S NodeError unit :=
  match l with
  | [] => mret tt
  | entry :: l' =>
      v ← reads (fun _ => genesis_validator entry);
      _ ← node_store (upsert v);
      register_validators l'
  end.

Definition apply_genesis (config : GenesisConfig) : ST S NodeError unit :=
  existing ← reads (fun s => map_err NodeStore (get_by_height 0 s));
  match existing with
  | Some _ => mret tt
  | None =>
      alloc_txs ← reads (fun _ => collect_res (alloc_tx <$> g_accounts config));
      let genesis := build_genesis_block (g_timestamp config) alloc_txs in
      _ ← node_store (insert_block genesis);
      _ ← node_store (apply_block genesis);
      register_validators (g_validators config)
  end.
End genesis.

(** ** Properties *)

Section genesis_properties.
Context `{Crypto} `{CoreJson}.
Context {S : Type} `{!BlockStore S} `{!UtxoStore S} `{!ValidatorStore S} `{!StoreLaws S}.
Implicit Types (s : S).

Lemma register_validators_spec l s r s' :
  store_ok s → register_validators l s = (r, s') →
  store_ok s' ∧ chain (view s') = chain (view s) ∧ utxos (view s') = utxos (view s) ∧
  (∀ b u, undoable b u s → undoable b u s') ∧
  (r = Ok tt → ∃ vs, genesis_validator <$> l = Ok <$> vs ∧
     validators (view s') = foldl (fun m v => <[v_address v := v]> m) (validators (view s)) vs).
Proof.
  revert s. induction l as [|e l IH]; intros s Hs; cbn.
  { intros [= <- <-]. split_and!; try done. intros _. by exists []. }
  unfold mbind, ST_bind, reads, node_store, st_map_err.
  destruct (genesis_validator e) as [v|err|] eqn:Hv; [|intros [= <- <-]; split_and!; done..].
  destruct (upsert v s) as [r1 s1] eqn:Hu.
  apply upsert_law in Hu as (Hs1 & Hc1 & Hu1 & Hun1 & Hok1 & _); [|done].
  destruct r1 as [[]|err|]; cbn [map_err]; [|intros [= <- <-]; split_and!; done..].
  intros (Hs2 & Hc2 & Hu2 & Hun2 & Hok2)%IH; [|done].
  split_and!; [done|congruence|congruence|auto|].
  intros Hr. destruct (Hok2 Hr) as (vs & Hvs & Hm). exists (v :: vs).
  cbn. rewrite Hvs. split; [done|]. by rewrite Hm, Hok1.
Qed.

Lemma alloc_tx_created e tx : alloc_tx e = Ok tx → inputs tx = [].
Proof. intros (a & _ & [= <-])%res_bind_Ok. done. Qed.

Lemma genesis_spec config s s' :
  store_ok s → view s = mkLedger ∅ ∅ ∅ →
  apply_genesis config s = (Ok tt, s') →
  ∃ alloc_txs vs,
    collect_res (alloc_tx <$> g_accounts config) = Ok alloc_txs ∧
    genesis_validator <$> g_validators config = Ok <$> vs ∧
    let g := build_genesis_block (g_timestamp config) alloc_txs in
    chain (view s') = {[0 := g]} ∧ consistent s' 0 ∧ utxos (view s') = ledger_block g ∅ ∧
    validators (view s') = foldl (fun m v => <[v_address v := v]> m) ∅ vs ∧
    validators_ok (validators (view s')).
Proof.
  intros Hs Hv. unfold apply_genesis, mbind, ST_bind, reads, node_store, st_map_err.
  destruct (get_by_height 0 s) as [x|e|] eqn:Hg; [|done..].
  apply height_law in Hg; [|done|unfold u64; lia]. rewrite Hv in Hg. cbn [chain] in Hg. rewrite lookup_empty in Hg. subst x. cbn [map_err].
  destruct (collect_res _) as [txs|e|] eqn:Htxs; [|done..].
  set (g := build_genesis_block (g_timestamp config) txs).
  assert (Hg0 : u64 (height (header g))) by (change (u64 0); unfold u64; lia).
  destruct (insert_block g s) as [r1 s1] eqn:Hi.
  apply insert_law in Hi as (Hs1 & Hu1 & Hv1 & _ & Hc1); [|done|done|].
  2:{ intros h [b Hb]. rewrite Hv in Hb. done. }
  destruct r1 as [[]|e|]; cbn [map_err]; [|done..].
  destruct (apply_block g s1) as [r2 s2] eqn:Ha.
  apply apply_law in Ha as (Hs2 & Hc2 & Hv2 & Hok2 & _ & _); [|done|done].
  destruct r2 as [[]|e|]; cbn [map_err]; [|done..].
  intros (Hs3 & Hc3 & Hu3 & _ & Hok3)%register_validators_spec; [|done].
  destruct (Hok3 eq_refl) as (vs & Hvs & Hm).
  assert (Hch : chain (view s') = {[0 := g]}).
  { rewrite Hc3, Hc2, Hc1, Hv. done. }
  assert (Hut : utxos (view s') = ledger_block g ∅).
  { rewrite Hu3, Hok2, Hu1, Hv by done. done. }
  exists txs, vs. split_and!; [done|done|done| |done| |by apply keys_law].
  - constructor; [done| | |lia].
    + rewrite Hch. constructor.
      * lia.
      * intros h. rewrite lookup_singleton_is_Some. lia.
      * intros h b [<- <-]%lookup_singleton_Some. done.
      * intros h b p [<- <-]%lookup_singleton_Some [? _]%lookup_singleton_Some. lia.
    + rewrite Hch, Hut, (replay_below_succ _ 0 g); [done|lia|apply lookup_singleton_eq].
  - rewrite Hm, Hv2, Hv1, Hv. done.
Qed.

(** C35: applying the genesis configuration to an empty store that succeeds
    leaves a one-block chain, the unspent outputs of its allocations and
    exactly the configured validators, each registered under the address its
    key derives: a consistent state from which the protocol starts. *)
Theorem genesis_initialises config s s' :
  store_ok s → view s = mkLedger ∅ ∅ ∅ →
  apply_genesis config s = (Ok tt, s') →
  ∃ alloc_txs vs,
    collect_res (alloc_tx <$> g_accounts config) = Ok alloc_txs ∧
    genesis_validator <$> g_validators config = Ok <$> vs ∧
    let g := build_genesis_block (g_timestamp config) alloc_txs in
    chain (view s') = {[0 := g]} ∧ consistent s' 0 ∧ utxos (view s') = ledger_block g ∅ ∧
    validators (view s') = foldl (fun m v => <[v_address v := v]> m) ∅ vs ∧
    validators_ok (validators (view s')).
Proof. apply genesis_spec. Qed.

(** A genesis run that fails on a validator entry is never completed: it
    has stored the genesis block already, so every later run, whatever its
    configuration, reports success and changes nothing, and the validators
    after the bad entry stay unregistered. *)
Theorem genesis_not_resumed config config' s s1 msg alloc_txs x :
  store_ok s → view s = mkLedger ∅ ∅ ∅ →
  collect_res (alloc_tx <$> g_accounts config) = Ok alloc_txs →
  apply_genesis config s = (Err (NodeConfigError msg), s1) →
  get_by_height 0 s1 = Ok x →
  x = Some (build_genesis_block (g_timestamp config) alloc_txs) ∧
  apply_genesis config' s1 = (Ok tt, s1).
Proof.
  intros Hs Hv Htxs Ha Hx.
  assert (Hsome : x = Some (build_genesis_block (g_timestamp config) alloc_txs)).
  2:{ split; [done|]. unfold apply_genesis, mbind, ST_bind, reads. by rewrite Hx, Hsome. }
  revert Ha. unfold apply_genesis, mbind, ST_bind, reads, node_store, st_map_err.
  destruct (get_by_height 0 s) as [y|e|] eqn:Hg; [|done..].
  apply height_law in Hg; [|done|unfold u64; lia]. rewrite Hv in Hg. cbn [chain] in Hg.
  rewrite lookup_empty in Hg. subst y. cbn [map_err]. rewrite Htxs.
  set (g := build_genesis_block (g_timestamp config) alloc_txs).
  assert (Hg0 : u64 (height (header g))) by (change (u64 0); unfold u64; lia).
  destruct (insert_block g s) as [r1 s2] eqn:Hi.
  apply insert_law in Hi as (Hs1 & _ & _ & _ & Hc1); [|done|done|].
  2:{ intros h [b Hb]. rewrite Hv in Hb. done. }
  destruct r1 as [[]|e|]; cbn [map_err]; [|done..].
  destruct (apply_block g s2) as [r2 s3] eqn:Ha.
  apply apply_law in Ha as (Hs2 & Hc2 & _); [|done|done].
  destruct r2 as [[]|e|]; cbn [map_err]; [|done..].
  intros (Hs3 & Hc3 & _)%register_validators_spec; [|done].
  apply height_law in Hx; [|done|unfold u64; lia].
  rewrite Hx, Hc3, Hc2, Hc1. apply lookup_insert_eq.
Qed.

Lemma supply_empty : supply ∅ = 0.
Proof. apply map_sum_empty. Qed.

Lemma alloc_txs_sum l txs :
  collect_res (alloc_tx <$> l) = Ok txs →
  sumZ (value_out <$> txs) = sumZ (ga_balance <$> l) ∧ txs ≫= spent_refs = [].
Proof.
  rewrite collect_res_Ok. revert txs. induction l as [|e l IH]; intros [|tx txs]; cbn; try done.
  intros [= Htx Hl]. destruct (IH _ Hl) as [-> Hs].
  pose proof (alloc_tx_created _ _ Htx) as Hin.
  apply res_bind_Ok in Htx as (a & _ & [= <-]). cbn. split; [unfold value_out; cbn; lia|done].
Qed.

(** When the allocation transactions have pairwise distinct output
    references, the supply after genesis is the sum of the balances. *)
Theorem genesis_supply config alloc_txs :
  collect_res (alloc_tx <$> g_accounts config) = Ok alloc_txs →
  NoDup (alloc_txs ≫= created_refs) →
  supply (ledger_block (build_genesis_block (g_timestamp config) alloc_txs) ∅) =
    sumZ (ga_balance <$> g_accounts config).
Proof.
  intros Htxs Hnd. destruct (alloc_txs_sum _ _ Htxs) as [Hsum Hsp].
  unfold ledger_block. cbn [txs build_genesis_block]. rewrite supply_ledger_txs.
  - rewrite Hsum, supply_empty.
    assert (Hin : sumZ (value_in ∅ <$> alloc_txs) = 0); [|lia].
    clear -Hsp. induction alloc_txs as [|tx l IH]; [done|]. cbn in *.
    apply app_eq_nil in Hsp as [Hs Hl]. rewrite (IH Hl). unfold value_in. by rewrite Hs.
  - split_and!; [done|rewrite Hsp; constructor|done|rewrite Hsp; set_solver].
Qed.

(** Two accounts with the same address and balance give the same
    transaction, and only one of the balances exists after genesis. *)
Theorem genesis_equal_accounts_collide ts e tx :
  alloc_tx e = Ok tx →
  supply (ledger_block (build_genesis_block ts [tx; tx]) ∅) = ga_balance e.
Proof.
  intros (a & _ & [= <-])%res_bind_Ok. unfold ledger_block, ledger_txs, ledger_tx, spent_refs,
    insert_outputs, new_outputs, created_refs. cbn. rewrite insert_insert_eq.
  unfold supply. rewrite map_sum_insert by done. rewrite map_sum_empty. cbn. lia.
Qed.
End genesis_properties.
