(* ===== verification/SlotTicker.v ===== *)
(** * Block production ([bcc-node/src/slot_ticker.rs])

    One iteration of the slot loop at a given clock reading, the production of
    a block, the loop over the readings of a clock, and what they guarantee: a
    produced block passes the validation of the peers when its transactions do,
    and a node announces at most one block per slot. *)

From S2P Require Import Prelude Bytes Types Consensus Store Ledger Validation Mempool DebugEvent Node.
From S2P Require Import Handler Protocol.

Definition MAX_TXS_PER_BLOCK : nat := 512.
Definition MIN_PROPOSE_WINDOW_SECS : Z := 1.

(** [/] on [i64]: it panics on a zero divisor and on the one overflow, in every
    build. *)
Definition i64_div {E} (a b : Z) : Res E Z :=
  if b =? 0 then Panic
  else if decide (i64 (Z.quot a b)) then Ok (Z.quot a b) else Panic.

Section ticker.
Context `{Crypto} `{CoreJson} `{Json Message} `{BuildProfile} `{HashOrder} `{UnstableSort}.
Context {S : Type} `{!BlockStore S} `{!UtxoStore S} `{!ValidatorStore S}.
Context (config : NodeConfig).

Notation M := (ST (NodeState S) Empty_set).

(** A store call whose error is only logged: [None] stands for an error. *)
Definition attempt {A} (m : ST S StoreError A) : M (option A) := fun st =>
  let '(r, s') := m (n_store st) in
  (match r with Ok a => Ok (Some a) | Err _ => Ok None | Panic => Panic end, set_store s' st).
Definition attempt_read {A} (f : S → Res StoreError A) : M (option A) := attempt (reads f).

(** The block [propose_block] builds from the selected transactions. *)
Definition make_block (tip_hash : BlockHash) (height slot timestamp : Z) (txs : list Transaction) :
    Block :=
  let header := mkBlockHeader tip_hash (compute_merkle_root txs) timestamp height slot
                  (my_address config) in
  mkBlock header (sign (my_signing_key config) (to_vec header)) txs.

Definition propose_block (tip_height : Z) (tip_hash : BlockHash) (slot timestamp : Z) : M unit :=
  _ ← (fun st => emit (MempoolDrain slot (Mempool.len (n_mempool st))) st);
  txs ← reads (fun st => Ok (Mempool.drain MAX_TXS_PER_BLOCK (n_mempool st)));
  height ← reads (fun _ => u64_add tip_height 1);
  let block := make_block tip_hash height slot timestamp txs in
  inserted ← attempt (insert_block block);
  match inserted with
  | None => mret tt
  | Some _ =>
      applied ← attempt (apply_block block);
      match applied with
      | None => mret tt
      | Some _ =>
          let hashes := Transaction_hash <$> txs in
          _ ← modifies (fun st => set_mempool (Mempool.remove hashes (n_mempool st)) st);
          _ ← modifies (perform [AnnounceBlock block]);
          emit (BlockProposed height (hex_encode (Block_hash block)) slot (length txs)
                  (as_str (my_address config)))
      end
  end.

(** One iteration of [run_slot_ticker] at clock reading [now]; the result is
    the time until which the loop sleeps. *)
Definition tick (now : Z) : M Z :=
  let slot_duration := wrap_i64 (slot_duration_secs config) in
  slot ← reads (fun _ => i64_div now slot_duration);
  next ← reads (fun _ => i64_add slot 1);
  slot_end ← reads (fun _ => i64_mul next slot_duration);
  if slot_end <=? now then mret slot_end
  else
    tip_opt ← attempt_read tip;
    match tip_opt with
    | None | Some None => mret slot_end
    | Some (Some (tip_height, tip_hash)) =>
        validators_opt ← attempt_read (all_active (wrap_u64 slot));
        match validators_opt with
        | None => mret slot_end
        | Some validators =>
            time_remaining ← reads (fun _ => arith_i64 (slot_end - now));
            _ ← emit (SlotTick (wrap_u64 slot) tip_height);
            tip_block ← attempt_read (get_by_height tip_height);
            let tip_already_this_slot :=
              match tip_block with
              | Some (Some b) => wrap_u64 slot <=? Types.slot (header b)
              | _ => false
              end in
            if tip_already_this_slot then mret slot_end
            else
              elected ← reads (fun _ => elect_proposer (wrap_u64 slot) tip_hash validators);
              _ ← match elected with
                  | None => mret tt
                  | Some proposer =>
                      if bool_decide (v_address proposer = my_address config)
                         && (MIN_PROPOSE_WINDOW_SECS <? time_remaining)
                      then propose_block tip_height tip_hash (wrap_u64 slot) now
                      else emit (SlotNotProposer (wrap_u64 slot) (as_str (v_address proposer)))
                  end;
              mret slot_end
        end
    end.

(** *** The loop ([run_slot_ticker]) *)

(** [SystemTime::now] in nanoseconds since the epoch, negative before it. *)
Definition unix_seconds (nanos : Z) : Z := wrap_i64 (Z.max 0 nanos `div` 1000000000).

(** What the environment decides about an iteration: how long it takes until
    [sleep_until_secs] reads the clock and how much longer than asked the sleep
    lasts, both in nanoseconds of the system clock (negative when the clock is
    set back), and whether the sleep is cancelled. *)
Record Wake := mkWake { busy : Z; late : Z; interrupted : bool }.

(** The seconds [sleep_until_secs] sleeps. *)
Definition sleep_until_secs {E} (target nanos : Z) : Res E Z :=
  Z.max 0 <$> arith_i64 (target - unix_seconds nanos).

(** One iteration with its sleep, from the clock at its head to the clock after
    it; the loop goes on when there is no result. *)
Definition ticker_turn (w : Wake) (nanos : Z) (st : NodeState S) :
    option (Res Empty_set unit) * Z * NodeState S :=
  match tick (unix_seconds nanos) st with
  | (Ok target, st') =>
      let slept_from := nanos + busy w in
      match sleep_until_secs (E := Empty_set) target slept_from with
      | Ok remaining =>
          if interrupted w then (Some (Ok tt), slept_from, st')
          else (None, slept_from + remaining * 1000000000 + late w, st')
      | Err e => match e with end
      | Panic => (Some Panic, slept_from, st')
      end
  | (Err e, _) => match e with end
  | (Panic, st') => (Some Panic, nanos, st')
  end.

(** The loop, with what the other tasks do to the state during each sleep. *)
Fixpoint run_slot_ticker (wakes : list (Wake * (NodeState S → NodeState S))) (nanos : Z)
    (st : NodeState S) : option (Res Empty_set unit) * Z * NodeState S :=
  match wakes with
  | [] => (None, nanos, st)
  | (w, others) :: wakes' =>
      match ticker_turn w nanos st with
      | (None, nanos', st') => run_slot_ticker wakes' nanos' (others st')
      | stopped => stopped
      end
  end.

(** The clock and the state at the head of each iteration of a run. *)
Fixpoint iterations (wakes : list (Wake * (NodeState S → NodeState S))) (nanos : Z)
    (st : NodeState S) : list (Z * NodeState S) :=
  match wakes with
  | [] => []
  | (w, others) :: wakes' =>
      (nanos, st) :: match ticker_turn w nanos st with
                     | (None, nanos', st') => iterations wakes' nanos' (others st')
                     | _ => []
                     end
  end.

(** The blocks announced by a list of effects. *)
Definition announced (es : list Effect) : list Block :=
  omap (fun e => match e with AnnounceBlock b => Some b | _ => None end) es.

End ticker.

(** ** Slot arithmetic *)

Section slots.
Context `{Crypto} `{CoreJson} `{Json Message} `{BuildProfile} `{HashOrder} `{UnstableSort}.
Context {S : Type} `{!BlockStore S} `{!UtxoStore S} `{!ValidatorStore S}.
Context (config : NodeConfig).
Implicit Types (st : NodeState S) (now : Z).
Notation d := (slot_duration_secs config).

(** The durations and clock readings for which the arithmetic stays in range. *)
Definition slots_in_range (now : Z) : Prop := 0 < d ∧ 0 ≤ now ∧ now + d < 2 ^ 63.

Lemma wrap_i64_small z : 0 ≤ z < 2 ^ 63 → wrap_i64 z = z.
Proof. intros Hz. unfold wrap_i64. rewrite Z.mod_small by lia. lia. Qed.

Lemma wrap_u64_small z : 0 ≤ z < 2 ^ 64 → wrap_u64 z = z.
Proof. intros Hz. unfold wrap_u64. by apply Z.mod_small. Qed.

Lemma slot_bounds now : slots_in_range now →
  0 ≤ now `div` d ≤ now ∧ now < (now `div` d + 1) * d ∧ (now `div` d + 1) * d ≤ now + d.
Proof.
  intros (Hd & Hn & Hr). pose proof (Z.div_pos now d Hn Hd).
  pose proof (Z.mul_div_le now d Hd). pose proof (Z.mul_succ_div_gt now d Hd).
  split; [|nia]. split; [done|]. apply Z.div_le_upper_bound; nia.
Qed.

Lemma slot_end_now {E} now : slots_in_range now →
  slot_end_of (E := E) (now `div` d) d = Ok ((now `div` d + 1) * d).
Proof.
  intros Hr. pose proof (slot_bounds now Hr) as (? & ? & ?). destruct Hr as (Hd & Hn & Hr).
  unfold slot_end_of. rewrite !wrap_i64_small by lia. unfold i64_add, i64_mul.
  rewrite arith_i64_Ok by (unfold i64; lia). cbn [mbind Res_bind].
  by rewrite arith_i64_Ok by (unfold i64; lia).
Qed.

(** In range the clock reading lies in the slot computed from it, so the
    iteration never takes the branch for a slot that has passed: it sleeps until
    the end of the current slot, between one and [d] seconds ahead. *)
Theorem tick_sleeps_to_slot_end now st r st' :
  slots_in_range now → tick config now st = (Ok r, st') →
  r = (now `div` d + 1) * d ∧ now < r ≤ now + d.
Proof.
  intros Hr. pose proof (slot_bounds now Hr) as (? & ? & ?). destruct Hr as (Hd & Hn & Hr).
  assert (Heq : ∀ x : Res Empty_set unit * NodeState S, match x with
    | (Ok _, s1) => ((Ok ((now `div` d + 1) * d) : Res Empty_set Z), s1) | (Err e, s1) => (Err e, s1)
    | (Panic, s1) => (Panic, s1) end = (Ok r, st') → r = (now `div` d + 1) * d).
  { intros [[[]|[]|] ?]; by intros [= <- _]. }
  unfold tick, attempt_read, attempt, emit, modifies, reads, mbind, ST_bind.
  rewrite wrap_i64_small by lia. unfold i64_div.
  rewrite (proj2 (Z.eqb_neq d 0)), Z.quot_div_nonneg by lia.
  rewrite decide_True by (unfold i64; lia).
  unfold i64_add, i64_mul. rewrite !arith_i64_Ok by (unfold i64; lia).
  rewrite (proj2 (Z.leb_gt _ now)) by lia.
  intros Ht. cut (r = (now `div` d + 1) * d); [intros ->; lia|]. revert Ht.
  destruct (tip (n_store st)) as [[[h hash]|]|e|]; [|by intros [= <- _]..|done].
  destruct (all_active _ _) as [vs|e|]; [|by intros [= <- _]|done].
  rewrite ?arith_i64_Ok by (unfold i64; lia).
  generalize (propose_block (S := S) config h hash (wrap_u64 (now `div` d)) now) as propose.
  intros propose. unfold mret, ST_ret. repeat (case_match; simplify_eq); intros; by simplify_eq.
Qed.

(** A slot duration of zero crashes the block production task in its first
    iteration, in every build. *)
Theorem zero_slot_duration_panics now st : d = 0 → tick config now st = (Panic, st).
Proof. intros Hd. unfold tick, reads, mbind, ST_bind. by rewrite Hd. Qed.
End slots.

(** ** Produced blocks *)

Section production.
Context `{Crypto} `{CoreJson} `{Json Message} `{BuildProfile} `{HashOrder} `{UnstableSort}.
Context {S : Type} `{!BlockStore S} `{!UtxoStore S} `{!ValidatorStore S}.
Context (config : NodeConfig).
Implicit Types (st : NodeState S) (now : Z).
Notation d := (slot_duration_secs config).

(** A step that announces no block. *)
Definition quiet (st st' : NodeState S) : Prop :=
  n_mempool st' = n_mempool st ∧
  ∃ es, n_effects st' = n_effects st ++ es ∧ ∀ b, AnnounceBlock b ∉ es.

Lemma quiet_refl st st' :
  n_mempool st' = n_mempool st → n_effects st' = n_effects st → quiet st st'.
Proof.
  intros Hm He. split; [done|]. exists []. rewrite He, app_nil_r. split; [done|]. set_solver.
Qed.

(** [propose_block] announces the block it has stored, applied and taken the
    transactions of from the mempool; otherwise it announces nothing. *)
Lemma propose_block_cases h hash sl ts st r st' :
  propose_block config h hash sl ts st = (r, st') →
  quiet st st' ∨
  ∃ h', u64_add (E := Empty_set) h 1 = Ok h' ∧
    let txs := Mempool.drain MAX_TXS_PER_BLOCK (n_mempool st) in
    let block := make_block config hash h' sl ts txs in
    extend_calls block (n_store st) = (Ok tt, n_store st') ∧
    n_mempool st' = Mempool.remove (Transaction_hash <$> txs) (n_mempool st) ∧
    n_peers st' = n_peers st ∧
    n_effects st' = n_effects st ++
      [Emit (MempoolDrain sl (Mempool.len (n_mempool st))); AnnounceBlock block;
       Emit (BlockProposed h' (hex_encode (Block_hash block)) sl (length txs)
               (as_str (my_address config)))].
Proof.
  unfold propose_block, attempt, emit, modifies, reads, extend_calls, mbind, ST_bind.
  set (e1 := Emit (MempoolDrain _ _)).
  assert (Hq : ∀ st1 : NodeState S, n_mempool st1 = n_mempool st →
    n_effects st1 = n_effects st ++ [e1] → quiet st st1).
  { intros st1 Hm He. split; [done|]. exists [e1]. split; [done|]. intros b. subst e1. set_solver. }
  destruct (u64_add h 1) as [h'|e|]; [|intros [= <- <-]; left; by apply Hq..].
  set (block := make_block _ _ _ _ _ _). cbn [n_store perform n_mempool].
  destruct (insert_block block (n_store st)) as [[[]|e|] s1] eqn:Hi;
    [|intros [= <- <-]; left; by apply Hq..].
  cbn [n_store set_store].
  destruct (apply_block block s1) as [[[]|e|] s2] eqn:Ha; [|intros [= <- <-]; left; by apply Hq..].
  intros [= <- <-]. right. exists h'. split; [done|]. cbv zeta.
  change (make_block config hash h' sl ts (Mempool.drain MAX_TXS_PER_BLOCK (n_mempool st)))
    with block.
  rewrite Hi. split_and!; [exact Ha|done|done|].
  cbn [n_effects perform set_mempool set_store]. by rewrite <- !app_assoc.
Qed.

(** When an iteration produces a block. *)
Record produces (now : Z) (st : NodeState S) (tip_height : Z) (tip_hash : BlockHash)
    (p : Validator) : Prop := {
  pr_tip : tip (n_store st) = Ok (Some (tip_height, tip_hash));
  pr_elected : ∃ vs, all_active (now `div` d) (n_store st) = Ok vs ∧
    elect_proposer (E := Empty_set) (now `div` d) tip_hash vs = Ok (Some p);
  pr_mine : v_address p = my_address config;
  pr_window : now + MIN_PROPOSE_WINDOW_SECS < (now `div` d + 1) * d;
  pr_new_slot : ∀ b, get_by_height tip_height (n_store st) = Ok (Some b) →
    Types.slot (header b) < now `div` d;
}.

Lemma tick_cases now st r st' :
  slots_in_range config now → tick config now st = (r, st') →
  (quiet st st' ∧ n_store st' = n_store st) ∨
  ∃ h hash p st1 r0, produces now st h hash p ∧ n_store st1 = n_store st ∧ quiet st st1 ∧
    n_peers st1 = n_peers st ∧ propose_block config h hash (now `div` d) now st1 = (r0, st').
Proof.
  intros Hr. pose proof (slot_bounds config now Hr) as (? & ? & ?). destruct Hr as (Hd & Hn & Hr).
  unfold tick, attempt_read, attempt, emit, modifies, reads, mbind, ST_bind.
  rewrite wrap_i64_small by lia. unfold i64_div.
  rewrite (proj2 (Z.eqb_neq d 0)), Z.quot_div_nonneg by lia.
  rewrite decide_True by (unfold i64; lia).
  unfold i64_add, i64_mul. rewrite !arith_i64_Ok by (unfold i64; lia).
  rewrite (proj2 (Z.leb_gt _ now)), wrap_u64_small by lia.
  assert (Hq : ∀ st1 : NodeState S, n_mempool st1 = n_mempool st →
    n_store st1 = n_store st → n_effects st1 = n_effects st →
    quiet st st1 ∧ n_store st1 = n_store st) by by intros; split; [apply quiet_refl|].
  destruct (tip (n_store st)) as [[[h hash]|]|e|] eqn:Htip; [|intros [= <- <-]; left; by apply Hq..].
  cbn [n_store set_store].
  destruct (all_active _ _) as [vs|e|] eqn:Hact; [|intros [= <- <-]; left; by apply Hq..].
  rewrite ?arith_i64_Ok by (unfold i64; lia). cbn [n_store set_store perform].
  set (st1 := set_store _ (perform _ _)).
  assert (Hq1 : quiet st st1).
  { split; [done|]. eexists. split; [done|]. set_solver. }
  assert (Hnone : ∀ e, quiet st (perform [Emit e] st1)).
  { intros e. destruct Hq1 as (Hm & es & He & Hno). split; [done|]. exists (es ++ [Emit e]).
    change (n_effects (perform [Emit e] st1)) with (n_effects st1 ++ [Emit e]).
    rewrite He, app_assoc. split; [done|]. set_solver. }
  destruct (get_by_height h (n_store st)) as [[b|]|e|] eqn:Hg; [..|intros [= <- <-]; by left];
    cbn [ok_or];
    try (destruct (_ <=? Types.slot (header b)) eqn:Hal; [intros [= <- <-]; by left|]);
    (destruct (elect_proposer _ _ _) as [[p|]|[]|] eqn:Hel; [|intros [= <- <-]; by left..]);
    (destruct (bool_decide _ && _) eqn:Hc;
      [|intros [= <- <-]; left; split; [apply Hnone|done]]);
    apply andb_prop in Hc as [Hmine%bool_decide_eq_true Hw%Z.ltb_lt];
    (destruct (propose_block config h hash (now `div` d) now st1) as [r0 st2] eqn:Hp);
    intros Hres; right; exists h, hash, p, st1, r0;
    (split_and!; [constructor; [done|by eexists|done|lia|]|done|done|done|
      destruct r0 as [[]|[]|]; by injection Hres as _ <-]).
  - intros b'. rewrite Hg. intros [= <-]. Zbool. lia.
  - intros b'. by rewrite Hg.
  - intros b'. by rewrite Hg.
Qed.
(** *** One block per slot *)

Lemma announced_none (es : list Effect) : (∀ b, AnnounceBlock b ∉ es) → announced es = [].
Proof.
  intros Hno. unfold announced. induction es as [|e es IH]; [done|]. cbn [omap list_omap].
  rewrite IH by (intros b Hin; apply (Hno b); by right).
  destruct e; try done. exfalso. eapply Hno. by left.
Qed.

Lemma announced_app (es1 es2 : list Effect) : announced (es1 ++ es2) = announced es1 ++ announced es2.
Proof. apply omap_app. Qed.

(** A block of the node for the slot of [now], on a tip of an earlier slot. *)
Record fresh_block now st (b : Block) : Prop := {
  fb_slot : Types.slot (header b) = now `div` d;
  fb_timestamp : timestamp (header b) = now;
  fb_mine : proposer (header b) = my_address config;
  fb_tip : ∃ h, tip (n_store st) = Ok (Some (h, prev_hash (header b))) ∧
    ∀ p, get_by_height h (n_store st) = Ok (Some p) → Types.slot (header p) < now `div` d;
}.

Lemma tick_announces now st r st' :
  slots_in_range config now → tick config now st = (r, st') →
  ∃ es, n_effects st' = n_effects st ++ es ∧
    (announced es = [] ∨ ∃ b, announced es = [b] ∧ fresh_block now st b).
Proof.
  intros Hr Ht. assert (Hquiet : quiet st st' → ∃ es, n_effects st' = n_effects st ++ es ∧ announced es = []).
  { intros (_ & es & He & Hno). exists es. split; [done|]. by apply announced_none. }
  apply tick_cases in Ht as [[Hq _]|(h & hash & p & st1 & r0 & Hpr & _ & (Hm1 & es1 & He1 & Hno1) & _ & Hp)];
    [destruct (Hquiet Hq) as (es & ? & ?); eauto| |done].
  apply propose_block_cases in Hp as [(Hm & es & He & Hno)|(h' & _ & Hp)].
  - exists (es1 ++ es). rewrite He, He1, app_assoc. split; [done|]. left. apply announced_none. set_solver.
  - cbv zeta in Hp. destruct Hp as (_ & _ & _ & He). rewrite He, He1, <- app_assoc. eexists. split; [done|].
    right. rewrite announced_app, announced_none by done. eexists. split; [done|].
    destruct Hpr. constructor; [done..|]. by exists h.
Qed.

(** The clock is not set back, and a sleep lasts at least as long as asked. *)
Definition steady (w : Wake) : Prop := 0 ≤ busy w ∧ 0 ≤ late w.

Lemma unix_seconds_small nanos : 0 ≤ nanos < 2 ^ 63 → unix_seconds nanos = nanos `div` 1000000000.
Proof. intros Hn. unfold unix_seconds. rewrite Z.max_r by lia. apply wrap_i64_small.
  split; [apply Z.div_pos; lia|apply Z.div_lt_upper_bound; lia].
Qed.

Lemma seconds_bounds nanos : 0 ≤ nanos < 2 ^ 63 →
  unix_seconds nanos * 1000000000 ≤ nanos < (unix_seconds nanos + 1) * 1000000000.
Proof. intros Hn. rewrite unix_seconds_small by done. pose proof (Z.div_mod nanos 1000000000). pose proof (Z.mod_pos_bound nanos 1000000000). lia. Qed.

Lemma seconds_in_range nanos : 0 < d → 0 ≤ nanos → nanos + d * 1000000000 < 2 ^ 63 →
  slots_in_range config (unix_seconds nanos).
Proof. intros Hd Hn Hr. pose proof (seconds_bounds nanos ltac:(lia)). split; [done|]. lia. Qed.

(** The clock does not go back in an iteration, and the next one does not begin
    before the slot has ended; with less than a slot of delay it begins in the
    slot after. *)
Lemma ticker_turn_later w nanos st o nanos' st' :
  steady w → ticker_turn config w nanos st = (o, nanos', st') → nanos ≤ nanos'.
Proof.
  intros [Hb Hl]. unfold ticker_turn. destruct (tick _ _ _) as [[target|[]|] st1]; [|intros [= _ <- _]; lia].
  unfold sleep_until_secs. destruct (arith_i64 _) as [z|[]|]; cbn; [|intros [= _ <- _]; lia].
  case_match; intros [= _ <- _]; lia.
Qed.

Lemma ticker_turn_slot w nanos st nanos' st' :
  0 < d → 0 ≤ nanos → nanos' + d * 1000000000 < 2 ^ 63 → steady w →
  ticker_turn config w nanos st = (None, nanos', st') →
  let slot := unix_seconds nanos `div` d in
  slot < unix_seconds nanos' `div` d ∧
  (busy w + late w ≤ (d - 1) * 1000000000 → unix_seconds nanos' `div` d = slot + 1).
Proof.
  intros Hd Hn Hr Hw Ht. pose proof (ticker_turn_later _ _ _ _ _ _ Hw Ht). destruct Hw as [Hb Hl].
  pose proof (seconds_in_range nanos Hd Hn ltac:(lia)) as Hrange. pose proof (slot_bounds config _ Hrange) as Hslot.
  revert Ht. unfold ticker_turn. destruct (tick _ _ _) as [[target|[]|] st1] eqn:Htick; [|done].
  apply (tick_sleeps_to_slot_end config) in Htick as [Htarget _]; [|done].
  unfold sleep_until_secs. destruct (arith_i64 _) as [z|[]|] eqn:Hz; cbn; [|done].
  destruct (interrupted w); [done|]. intros [= Hnext _].
  pose proof (seconds_bounds nanos ltac:(lia)). pose proof (seconds_bounds (nanos + busy w) ltac:(lia)).
  pose proof (seconds_bounds nanos' ltac:(lia)). rewrite arith_i64_Ok in Hz by (unfold i64; lia). injection Hz as <-.
  set (slot := unix_seconds nanos `div` d) in *. cbv zeta. split.
  - assert (slot + 1 ≤ unix_seconds nanos' `div` d); [|lia]. apply Z.div_le_lower_bound; lia.
  - intros Hdelay. apply Z.le_antisymm; [|apply Z.div_le_lower_bound; lia].
    enough (unix_seconds nanos' `div` d < slot + 2) by lia. apply Z.div_lt_upper_bound; lia.
Qed.

(** What the other tasks do announces no block. *)
Definition silent (others : NodeState S → NodeState S) : Prop :=
  ∀ st, ∃ es, n_effects (others st) = n_effects st ++ es ∧ announced es = [].

(** A run that is given [wakes] from the clock reading [nanos] to [stop]. *)
Record clocked wakes (nanos stop : Z) : Prop := {
  ck_duration : 0 < d;
  ck_start : 0 ≤ nanos;
  ck_stop : stop + d * 1000000000 < 2 ^ 63;
  ck_steady : Forall (steady ∘ fst) (wakes : list (Wake * (NodeState S → NodeState S)));
}.

Lemma run_later wakes nanos st r stop st' :
  Forall (steady ∘ fst) wakes → run_slot_ticker config wakes nanos st = (r, stop, st') → nanos ≤ stop.
Proof.
  intros Hw. revert nanos st. induction Hw as [|[w others] wakes Hw _ IH]; intros nanos st; cbn [run_slot_ticker].
  { intros [= _ <- _]. lia. }
  destruct (ticker_turn _ _ _ _) as [[o nanos'] st1] eqn:Ht. pose proof (ticker_turn_later _ _ _ _ _ _ Hw Ht).
  destruct o; [by intros [= _ <- _]|]. intros Hrun%IH. lia.
Qed.

Lemma clocked_step w others wakes nanos stop st nanos' st1 r st' :
  clocked ((w, others) :: wakes) nanos stop → ticker_turn config w nanos st = (None, nanos', st1) →
  run_slot_ticker config wakes nanos' (others st1) = (r, stop, st') →
  clocked wakes nanos' stop ∧ nanos' ≤ stop ∧ nanos ≤ nanos'.
Proof.
  intros [Hd Hn Hs [Hw Hws]%Forall_cons] Ht Hrun. pose proof (ticker_turn_later _ _ _ _ _ _ Hw Ht).
  pose proof (run_later _ _ _ _ _ _ Hws Hrun). split_and!; [constructor; [done|lia|done..]|done..].
Qed.

Definition slot_of (x : Z * NodeState S) : Z := unix_seconds x.1 `div` d.

(** No slot has two iterations, and none is left out unless an iteration and its
    sleep together take longer than the slot. *)
Lemma iterations_slots wakes nanos st r stop st' :
  clocked wakes nanos stop → run_slot_ticker config wakes nanos st = (r, stop, st') →
  StronglySorted Z.lt (slot_of <$> iterations config wakes nanos st) ∧
  Forall (fun x => unix_seconds nanos `div` d ≤ slot_of x) (iterations config wakes nanos st) ∧
  (Forall (fun x => busy x.1 + late x.1 ≤ (d - 1) * 1000000000) wakes →
   slot_of <$> iterations config wakes nanos st
     = seqZ (unix_seconds nanos `div` d) (Z.of_nat (length (iterations config wakes nanos st)))).
Proof.
  revert nanos st. induction wakes as [|[w others] wakes IH]; intros nanos st Hck Hrun; cbn [run_slot_ticker iterations] in *.
  { split_and!; [constructor|constructor|done]. }
  destruct (ticker_turn _ _ _ _) as [[[o|] nanos'] st1] eqn:Ht.
  { split_and!; [repeat constructor|by repeat constructor|done]. }
  destruct (clocked_step _ _ _ _ _ _ _ _ _ _ Hck Ht Hrun) as (Hck' & Hstop & Hle).
  destruct (IH _ _ Hck' Hrun) as (Hsort & Hall & Hseq). destruct Hck as [Hd Hn Hs [Hw Hws]%Forall_cons].
  apply ticker_turn_slot in Ht as [Hlt Heq]; [|done|done|lia|done]. split_and!.
  - rewrite fmap_cons. constructor; [done|]. apply Forall_fmap. eapply Forall_impl; [exact Hall|].
    intros x Hx. change (unix_seconds nanos `div` d < slot_of x). cbn beta in Hx. lia.
  - constructor; [by unfold slot_of|]. eapply Forall_impl; [exact Hall|]. intros x Hx. cbn beta in *. lia.
  - intros [Hdelay Hdelays]%Forall_cons. rewrite fmap_cons, (Hseq Hdelays), (Heq Hdelay).
    cbn [length]. rewrite Nat2Z.inj_succ, (seqZ_cons _ (Z.succ _)), Z.pred_succ by lia. done.
Qed.

(** Every block of a run is that of one of its iterations. *)
Definition made_in (x : Z * NodeState S) (b : Block) : Prop := fresh_block (unix_seconds x.1) x.2 b.

Lemma turn_announces w nanos st o nanos' st' :
  slots_in_range config (unix_seconds nanos) → ticker_turn config w nanos st = (o, nanos', st') →
  ∃ es, n_effects st' = n_effects st ++ es ∧
    (announced es = [] ∨ ∃ b, announced es = [b] ∧ made_in (nanos, st) b).
Proof.
  unfold ticker_turn. intros Hr Ht. destruct (tick _ _ _) as [rt st1] eqn:Htick.
  apply tick_announces in Htick; [|done]. enough (st1 = st') as <- by done. revert Ht.
  destruct rt as [target|[]|]; [|by intros [= _ _ <-]].
  destruct (sleep_until_secs _ _) as [?|[]|]; [|by intros [= _ _ <-]]. by case_match; intros [= _ _ <-].
Qed.

Lemma run_announces wakes nanos st r stop st' :
  clocked wakes nanos stop → Forall silent wakes.*2 → run_slot_ticker config wakes nanos st = (r, stop, st') →
  ∃ es its, n_effects st' = n_effects st ++ es ∧ its `sublist_of` iterations config wakes nanos st ∧
    Forall2 made_in its (announced es).
Proof.
  revert nanos st. induction wakes as [|[w others] wakes IH]; intros nanos st Hck Hsil Hrun; cbn [run_slot_ticker iterations] in *.
  { injection Hrun as _ _ <-. exists [], []. rewrite app_nil_r. by split_and!. }
  rewrite fmap_cons in Hsil. apply Forall_cons in Hsil as [Hsilent Hsil]. cbn [snd] in Hsilent.
  destruct (ticker_turn _ _ _ _) as [[o nanos'] st1] eqn:Ht.
  assert (Hr : slots_in_range config (unix_seconds nanos)).
  { destruct Hck as [Hd Hn Hs [Hw Hws]%Forall_cons]. pose proof (ticker_turn_later _ _ _ _ _ _ Hw Ht).
    destruct o; [injection Hrun as _ <- _|pose proof (run_later _ _ _ _ _ _ Hws Hrun)]; apply seconds_in_range; lia. }
  pose proof Ht as (es1 & He1 & Hb)%turn_announces; [|done].
  assert (Hone : ∃ its1, its1 `sublist_of` [(nanos, st)] ∧ Forall2 made_in its1 (announced es1)).
  { destruct Hb as [->|(b & -> & Hb)]; [exists []|exists [(nanos, st)]].
    - split; [apply sublist_nil_l|constructor].
    - split; [done|by apply Forall2_cons]. }
  destruct Hone as (its1 & Hsub1 & Hf1). destruct o as [o|].
  { injection Hrun as _ _ <-. by exists es1, its1. }
  destruct (clocked_step _ _ _ _ _ _ _ _ _ _ Hck Ht Hrun) as (Hck' & _).
  destruct (IH _ _ Hck' Hsil Hrun) as (es3 & its & He3 & Hsub & Hf). destruct (Hsilent st1) as (es2 & He2 & Hno).
  exists (es1 ++ es2 ++ es3), (its1 ++ its). split_and!.
  - by rewrite He3, He2, He1, <- !app_assoc.
  - by apply (sublist_app _ [(nanos, st)]).
  - rewrite !announced_app, Hno. by apply Forall2_app.
Qed.

End production.

(** ** Properties *)

Section ticker_properties.
Context `{Crypto} `{CoreJson} `{Json Message} `{BuildProfile} `{HashOrder} `{UnstableSort}.
Context {S : Type} `{!BlockStore S} `{!UtxoStore S} `{!ValidatorStore S} `{!StoreLaws S}.
Context (config : NodeConfig).
Implicit Types (st : NodeState S) (now : Z).
Notation d := (slot_duration_secs config).

(** With slots of one second a node never produces a block: the window it
    requires before the end of the slot is never open. *)
Theorem one_second_slots_never_propose now st r st' :
  d = 1 → 0 ≤ now < 2 ^ 62 → tick config now st = (r, st') →
  n_store st' = n_store st ∧ n_mempool st' = n_mempool st ∧
  ∃ es, n_effects st' = n_effects st ++ es ∧ ∀ b, AnnounceBlock b ∉ es.
Proof.
  intros Hd Hn Ht. assert (Hr : slots_in_range config now) by (split; lia).
  apply tick_cases in Ht as [[[Hm He] Hs]|(h & hash & p & st1 & r0 & Hp & _)]; [done| |done].
  apply pr_window in Hp. rewrite Hd, Z.div_1_r in Hp. unfold MIN_PROPOSE_WINDOW_SECS in Hp. lia.
Qed.

Lemma weighted_scan_elem {E} pick acc vs v :
  @weighted_scan _ E pick acc vs = Ok (Some v) → v ∈ vs.
Proof.
  revert acc. induction vs as [|w vs IH]; intros acc; cbn; [done|].
  intros (a & _ & Hs)%res_bind_Ok. case_match; [injection Hs as <-; set_solver|].
  apply IH in Hs. set_solver.
Qed.

Lemma elect_proposer_elem {E} sl ph vs v :
  @elect_proposer _ _ E sl ph vs = Ok (Some v) → v ∈ vs.
Proof.
  unfold elect_proposer. destruct vs as [|w vs]; [done|].
  intros (t & _ & Hs)%res_bind_Ok. case_match; [done|]. by apply weighted_scan_elem in Hs.
Qed.

(** The election and the slot arithmetic give the same result under every error
    type. *)
Lemma elect_proposer_error_type {E F} sl ph vs v :
  @elect_proposer _ _ E sl ph vs = Ok v → @elect_proposer _ _ F sl ph vs = Ok v.
Proof.
  assert (Hscan : ∀ l pick acc c, @weighted_scan _ E pick acc l = Ok c →
    @weighted_scan _ F pick acc l = Ok c).
  { induction l as [|x l IH]; intros pick acc c; cbn; [naive_solver|].
    intros (a & Ha%(u64_add_error_type (F := F)) & Hl)%res_bind_Ok. rewrite Ha. cbn.
    case_match; [naive_solver|auto]. }
  unfold elect_proposer. destruct vs as [|w vs]; [naive_solver|].
  intros (t & Ht%(u64_sum_error_type (F := F)) & Hs)%res_bind_Ok. rewrite Ht. cbn [mbind Res_bind].
  case_match; [naive_solver|auto].
Qed.

Lemma not_announced (es1 es2 : list Effect) b :
  es1 = es2 → (∀ x, AnnounceBlock x ∉ es2) → AnnounceBlock b ∉ es1.
Proof. intros ->. auto. Qed.

(** A produced block is well formed for the slot it was produced in: a validator
    gets to its transactions. *)
Lemma made_block_checked now (s : S) parent p l :
  slots_in_range config now → store_ok s → height (header parent) + 1 < 2 ^ 64 →
  0 ≤ height (header parent) → timestamp (header parent) ≤ now →
  (∃ vs, all_active (now `div` d) s = Ok vs ∧
     elect_proposer (E := Empty_set) (now `div` d) (Block_hash parent) vs = Ok (Some p)) →
  v_address p = my_address config →
  (∀ v, validators (view s) !! my_address config = Some v →
     v_pubkey v = verifying_key (my_signing_key config)) →
  validate_block (make_block config (Block_hash parent) (height (header parent) + 1)
    (now `div` d) now l) parent s s d = check_transactions s l.
Proof.
  intros Hr Hs Hh Hh0 Hts (vs & Hact & Hel) Hmine Hkey.
  pose proof (slot_bounds config now Hr) as (? & ? & ?).
  assert (validators (view s) !! my_address config = Some p) as Hp.
  { pose proof Hel as Hin%elect_proposer_elem. pose proof Hact as [Hvs _]%active_law; [|done].
    rewrite Hvs in Hin. apply list_elem_of_filter in Hin as [_ Hin].
    apply list_elem_of_fmap in Hin as ([a v] & -> & Hin%elem_of_map_to_list).
    cbn in *. pose proof (keys_law s Hs _ _ Hin) as [Ha _]. congruence. }
  unfold validate_block, make_block. cbn [header height prev_hash timestamp Types.slot proposer merkle_root txs block_signature].
  rewrite u64_add_small by lia. cbn [mbind Res_bind]. rewrite Z.eqb_refl. cbn [negb].
  rewrite bool_decide_false by (intros Hn; by apply Hn). rewrite (proj2 (Z.ltb_ge _ _)) by lia.
  rewrite slot_end_now by done. cbn [mbind Res_bind]. rewrite (proj2 (Z.leb_gt _ _)) by lia.
  rewrite Hact. cbn [map_err mbind Res_bind]. rewrite (elect_proposer_error_type _ _ _ _ Hel). cbn [ok_or mbind Res_bind].
  rewrite bool_decide_false by (intros Hn; by apply Hn). rewrite (Hkey _ Hp). unfold verify. rewrite verify_sign.
  cbn [map_err mbind Res_bind]. by rewrite bool_decide_false by (intros Hn; by apply Hn).
Qed.

Lemma check_transactions_valid (s : S) l :
  (∀ tx, tx ∈ l → validate_transaction tx s = Ok tt) → check_transactions s l = Ok tt.
Proof.
  induction l as [|tx l IH]; intros Hl; [done|]. cbn [check_transactions].
  rewrite Hl by (by left). cbn [map_err mbind Res_bind]. apply IH. intros tx' Htx'. apply Hl. by right.
Qed.

Lemma made_block_valid now (s : S) parent p l :
  slots_in_range config now → store_ok s → height (header parent) + 1 < 2 ^ 64 →
  0 ≤ height (header parent) → timestamp (header parent) ≤ now →
  (∃ vs, all_active (now `div` d) s = Ok vs ∧
     elect_proposer (E := Empty_set) (now `div` d) (Block_hash parent) vs = Ok (Some p)) →
  v_address p = my_address config →
  (∀ v, validators (view s) !! my_address config = Some v →
     v_pubkey v = verifying_key (my_signing_key config)) →
  (∀ tx, tx ∈ l → validate_transaction tx s = Ok tt) →
  validate_block (make_block config (Block_hash parent) (height (header parent) + 1)
    (now `div` d) now l) parent s s d = Ok tt.
Proof. intros. erewrite made_block_checked by done. by apply check_transactions_valid. Qed.

(** C26: what a peer makes of a produced block.  When an iteration announces a block,
    the block extends the tip, belongs to the slot of the clock reading, and the
    store has taken it in.  A peer with the same store finds nothing wrong with its
    header, provided the key registered for the node is the one it signs with and
    the clock is not behind the parent's time stamp (a block that is refused for
    it): the result of the validation is that of validating its transactions, which
    the producer takes from its pool without validating them again. *)
Theorem produced_block_validates now st r st' t block :
  store_at (n_store st) t → slots_in_range config now → tick config now st = (r, st') →
  (∃ es, n_effects st' = n_effects st ++ es ∧ AnnounceBlock block ∈ es) →
  height (header block) = t + 1 ∧ Types.slot (header block) = now `div` d ∧
  extend_calls block (n_store st) = (Ok tt, n_store st') ∧
  ∃ parent, chain (view (n_store st)) !! t = Some parent ∧
    (now < timestamp (header parent) →
     validate_block block parent (n_store st) (n_store st) d = Err BadTimestamp) ∧
    (timestamp (header parent) ≤ now →
     (∀ v, validators (view (n_store st)) !! my_address config = Some v →
        v_pubkey v = verifying_key (my_signing_key config)) →
     validate_block block parent (n_store st) (n_store st) d = check_transactions (n_store st) (txs block)).
Proof.
  intros Hst Hr Ht (es & Hes & Hin).
  pose proof Hst as (Hs & Hc & Hlt). pose proof (co_nonneg _ _ Hc).
  apply tick_cases in Ht as [[[_ (es' & He & Hno)] _]|(h & hash & p & st1 & r0 & Hp & Hs1 & Hq & _ & Hprop)];
    [|  |done].
  { rewrite Hes in He. apply app_inv_head in He as ->. by apply Hno in Hin. }
  destruct Hp as [Htip Hel Hmine _ _]. destruct Hq as [_ (es1 & He1 & Hno1)].
  apply (store_at_tip _ t) in Htip as (parent & [= -> ->] & Hparent); [|done].
  apply propose_block_cases in Hprop as [[_ (es2 & He2 & Hno2)]|(h' & Hh' & Hcalls & _ & _ & He2)].
  { rewrite He2, He1, <- app_assoc in Hes. apply app_inv_head in Hes as <-. set_solver. }
  rewrite u64_add_small in Hh' by lia. injection Hh' as <-.
  rewrite He2, He1, <- app_assoc in Hes. apply app_inv_head in Hes as <-.
  set (l := Mempool.drain MAX_TXS_PER_BLOCK (n_mempool st1)) in *. rewrite Hs1 in Hcalls.
  assert (Hb : block = make_block config (Block_hash parent) (t + 1) (now `div` d) now l).
  { apply elem_of_app in Hin as [Hin|Hin]; [by apply Hno1 in Hin|].
    rewrite !elem_of_cons in Hin. destruct Hin as [[=]|[[= ->]|[[=]|[]%not_elem_of_nil]]]; done. }
  rewrite Hb. split_and!; [done|done|done|]. exists parent. split; [done|].
  pose proof (co_height _ _ Hc _ _ Hparent) as Hph. split.
  - intros Hts. unfold validate_block, make_block. cbn [header height prev_hash timestamp].
    rewrite Hph, u64_add_small by lia. cbn [mbind Res_bind]. rewrite Z.eqb_refl. cbn [negb].
    rewrite bool_decide_false by (intros Hn; by apply Hn). by rewrite (proj2 (Z.ltb_lt _ _) Hts).
  - intros Hts Hkey. rewrite <- Hph at 1. by eapply made_block_checked; rewrite ?Hph.
Qed.

(** C27: one block per slot.  In a run of the slot loop, whatever the other tasks
    do to the state during its sleeps, and as long as the clock is not set back
    and sleeps last at least as long as the code asks for: no slot has two
    iterations; none is left out unless an iteration and its sleep together are
    late by as much as the slot is long; each block the node announces was made
    in an iteration of its own, for the slot of its clock, on the tip of the
    store at that moment, when the tip's block belonged to an earlier slot; so
    the slots of the announced blocks increase strictly. *)
Theorem one_block_per_slot wakes start st r stop st' :
  clocked config wakes start stop → Forall silent wakes.*2 →
  run_slot_ticker config wakes start st = (r, stop, st') →
  let its := iterations config wakes start st in
  StronglySorted Z.lt (slot_of config <$> its) ∧
  (Forall (fun x => busy x.1 + late x.1 ≤ (d - 1) * 1000000000) wakes →
   slot_of config <$> its = seqZ (unix_seconds start `div` d) (Z.of_nat (length its))) ∧
  ∃ es made, n_effects st' = n_effects st ++ es ∧ made `sublist_of` its ∧
    Forall2 (made_in config) made (announced es) ∧
    StronglySorted Z.lt ((Types.slot ∘ header) <$> announced es).
Proof.
  intros Hck Hs Hrun its. destruct (iterations_slots _ _ _ _ _ _ _ Hck Hrun) as (Hsort & _ & Hseq).
  destruct (run_announces _ _ _ _ _ _ _ Hck Hs Hrun) as (es & made & He & Hsub & Hf).
  split_and!; [done..|]. exists es, made. split_and!; [done..|].
  replace ((Types.slot ∘ header) <$> announced es) with (slot_of config <$> made).
  - eapply StronglySorted_sublist; [by apply fmap_sublist|done].
  - clear -Hf. induction Hf as [|x b made bs Hb _ IH]; [done|]. cbn. by rewrite IH, (fb_slot _ _ _ _ Hb).
Qed.

End ticker_properties.
