(* ===== verification/Gossip.v ===== *)
(** * A network of nodes

    The nodes of [Handler] and [SlotTicker] connected to one another: what a
    connection task writes at one end is a frame its peer reads at the other.
    The file shows that a block announced by one node spreads: under every order
    of deliveries it is accepted by every node that is connected to the producer,
    directly or through others, after a bounded number of frames. *)

From S2P Require Import Prelude Bytes Types Consensus Store Ledger Validation Mempool DebugEvent Node.
From S2P Require Import Handler Protocol SlotTicker Reliable.

(** ** Nodes and the frames between them *)

Section network.
Context `{Crypto} `{CoreJson} `{Json Message} `{BuildProfile} `{HashOrder} `{UnstableSort}.
Context {S : Type} `{!BlockStore S} `{!UtxoStore S} `{!ValidatorStore S}.

(** A frame in flight: the node it goes to, the address under which that node
    knows the sender, and the bytes. *)
Record Packet := mkPacket { to_node : nat; from_addr : SocketAddr; payload : list byte }.

Record Net := mkNet { net_nodes : list (NodeState S); net_wire : list Packet }.

(** The configuration of each node, and the other end of each connection: the
    node there, and the address under which it knows this one. *)
Context (configs : nat → NodeConfig) (far : nat → Sender → option (nat * SocketAddr)).

(** What the task of a connection writes ([encode_send]). *)
Definition written_to (i : nat) (s : Sender) (msg : Message) : list Packet :=
  if encode_send msg true then
    match far i s with Some (j, a) => [mkPacket j a (to_vec msg)] | None => [] end
  else [].

(** A queued message is written to its peer, an announced block to every peer. *)
Definition packets_of (i : nat) (ps : PeerSet) (e : Effect) : list Packet :=
  match e with
  | TrySend s msg => written_to i s msg
  | AnnounceBlock b => map_to_list ps ≫= (fun at_ => written_to i at_.2 (NewBlock b))
  | Emit _ => []
  end.

Definition new_effects (st st' : NodeState S) : list Effect :=
  drop (length (n_effects st)) (n_effects st').
Definition new_packets (i : nat) (st st' : NodeState S) : list Packet :=
  new_effects st st' ≫= packets_of i (n_peers st').

(** A node reads a frame, or an iteration of its slot loop passes. *)
Inductive net_step : option Packet → Net → Net → Prop :=
| net_deliver nodes l1 p l2 st tx st' :
    nodes !! to_node p = Some st → n_peers st !! from_addr p = Some tx →
    peer_step (configs (to_node p)) (from_addr p) tx (Frame (payload p)) st = (Ok true, st') →
    net_step (Some p) (mkNet nodes (l1 ++ p :: l2))
      (mkNet (<[to_node p := st']> nodes) ((l1 ++ l2) ++ new_packets (to_node p) st st'))
| net_slot nodes wire i st now r st' :
    nodes !! i = Some st → tick (configs i) now st = (Ok r, st') →
    net_step None (mkNet nodes wire) (mkNet (<[i := st']> nodes) (wire ++ new_packets i st st')).

(** The frames read in a run without slots. *)
Inductive deliveries : list Packet → Net → Net → Prop :=
| deliveries_nil net : deliveries [] net net
| deliveries_cons p ps net net' net'' :
    net_step (Some p) net net' → deliveries ps net' net'' → deliveries (p :: ps) net net''.

(** Every connection has two ends, each of which knows the other. *)
Definition wired (nodes : list (NodeState S)) : Prop :=
  ∀ i st a s, nodes !! i = Some st → n_peers st !! a = Some s →
    ∃ j b st' s', far i s = Some (j, b) ∧ nodes !! j = Some st' ∧ n_peers st' !! b = Some s' ∧
      far j s' = Some (i, a).

(** Node [i] has a connection to node [j]. *)
Definition linked (nodes : list (NodeState S)) (i j : nat) : Prop :=
  ∃ st a s b, nodes !! i = Some st ∧ n_peers st !! a = Some s ∧ far i s = Some (j, b).

(** The ends of all connections. *)
Definition connections (nodes : list (NodeState S)) : nat :=
  sum_list ((fun st => size (n_peers st)) <$> nodes).

(** Both depend on the peers of the nodes only. *)
Lemma peers_lookup (nodes nodes' : list (NodeState S)) i st :
  n_peers <$> nodes = n_peers <$> nodes' → nodes' !! i = Some st →
  ∃ st0, nodes !! i = Some st0 ∧ n_peers st0 = n_peers st.
Proof.
  intros Heq Hi. assert (Hp : (n_peers <$> nodes) !! i = Some (n_peers st)).
  { by rewrite Heq, list_lookup_fmap, Hi. }
  apply list_lookup_fmap_Some in Hp as (st0 & ? & ?). by exists st0.
Qed.

Lemma wired_peers (nodes nodes' : list (NodeState S)) :
  n_peers <$> nodes = n_peers <$> nodes' → wired nodes → wired nodes'.
Proof.
  intros Heq Hw i st a s Hi Ha. destruct (peers_lookup _ _ _ _ Heq Hi) as (st0 & Hi0 & Hp). rewrite <- Hp in Ha.
  destruct (Hw i st0 a s Hi0 Ha) as (j & b & st1 & s' & Hf & Hj & Hb & Hf').
  destruct (peers_lookup nodes' nodes j st1 (eq_sym Heq) Hj) as (st1' & Hj' & Hp'). rewrite <- Hp' in Hb. by exists j, b, st1', s'.
Qed.

Lemma linked_peers (nodes nodes' : list (NodeState S)) i j :
  n_peers <$> nodes = n_peers <$> nodes' → linked nodes i j → linked nodes' i j.
Proof.
  intros Heq (st & a & s & b & Hi & Ha & Hf).
  destruct (peers_lookup nodes' nodes i st (eq_sym Heq) Hi) as (st' & Hi' & Hp). exists st', a, s, b. by rewrite Hp.
Qed.

Lemma peers_insert (nodes : list (NodeState S)) i st st' :
  nodes !! i = Some st → n_peers st' = n_peers st → n_peers <$> nodes = n_peers <$> <[i := st']> nodes.
Proof. intros Hi Hp. rewrite list_fmap_insert, Hp, list_insert_id; [done|]. by rewrite list_lookup_fmap, Hi. Qed.

Lemma new_effects_app (st st' : NodeState S) es :
  n_effects st' = n_effects st ++ es → new_effects st st' = es.
Proof. intros He. unfold new_effects. by rewrite He, drop_app_length. Qed.

Lemma new_packets_app i (st st' : NodeState S) es :
  n_effects st' = n_effects st ++ es → new_packets i st st' = es ≫= packets_of i (n_peers st').
Proof. intros He. unfold new_packets. by rewrite (new_effects_app _ _ _ He). Qed.

Lemma written_to_length i s msg : (length (written_to i s msg) ≤ 1)%nat.
Proof. unfold written_to. destruct (encode_send msg true); [|cbn; lia]. destruct (far i s) as [[]|]; cbn; lia. Qed.

Lemma written_to_payload i s msg p : p ∈ written_to i s msg → payload p = to_vec msg.
Proof.
  unfold written_to. destruct (encode_send msg true); [|by intros ?%not_elem_of_nil].
  destruct (far i s) as [[j a]|]; [|by intros ?%not_elem_of_nil]. by intros ->%list_elem_of_singleton.
Qed.
End network.
Arguments Net : clear implicits.
#[global] Arguments mkNet {S}.
#[global] Arguments net_nodes {S}.
#[global] Arguments net_wire {S}.

(** ** One node and the block *)

Section block.
Context `{Crypto} `{CoreJson} `{Json Message} `{BuildProfile} `{HashOrder} `{UnstableSort}.
Context {S : Type} `{!BlockStore S} `{!UtxoStore S} `{!ValidatorStore S} `{!StoreLaws S} `{!Reliable S}.
Context (config : NodeConfig) (block parent : Block) (t : Z).
Notation d := (slot_duration_secs config).
Implicit Types (st : NodeState S) (src : SocketAddr) (tx : Sender).

(** A ledger with the block on top. *)
Definition extended (v : Ledger) : Ledger :=
  mkLedger (<[t + 1 := block]> (chain v)) (ledger_block block (utxos v)) (validators v).

(** A block that extends the tip of a reliable store is taken in. *)
Lemma extend_reliable (s : S) :
  store_at s t → chain (view s) !! t = Some parent → validate_block block parent s s d = Ok tt →
  height (header block) = t + 1 → t + 2 < 2 ^ 64 →
  ∃ s', extend_calls block s = (Ok tt, s') ∧ store_at s' (t + 1) ∧ view s' = extended (view s).
Proof.
  intros Hst Hp Hv Hh Ht. destruct (valid_link _ _ _ _ Hv) as [Hprev Hts].
  destruct (rel_insert block s) as [s1 Hi]. destruct (rel_apply block s1) as [s2 Ha].
  assert (He : extend_calls block s = (Ok tt, s2)) by (unfold extend_calls, mbind, ST_bind; by rewrite Hi, Ha).
  exists s2. split; [exact He|].
  destruct (extend_calls_spec _ _ _ _ _ _ Hst Hp Hh Hprev Hts He) as (Hs & Hvals & [(_ & _ & Hno)|(Hc & _ & Hu)]); [done|].
  destruct (Hu eq_refl) as [Hu' _]. destruct Hst as (_ & Hchain & _).
  split; [|destruct (view s2); cbn in *; by subst].
  split_and!; [done| |lia]. rewrite Hc. by eapply chain_ok_extend.
Qed.

(** What a node that accepts the block becomes. *)
Record accepted (src : SocketAddr) (st st' : NodeState S) : Prop := {
  ac_calls : extend_calls block (n_store st) = (Ok tt, n_store st');
  ac_store : store_at (n_store st') (t + 1);
  ac_view : view (n_store st') = extended (view (n_store st));
  ac_mempool : n_mempool st' = Mempool.remove (Transaction_hash <$> txs block) (n_mempool st);
  ac_peers : n_peers st' = n_peers st;
  ac_effects : ∃ ev, n_effects st' =
    n_effects st ++ PeerSet.broadcast_except src (NewBlock block) (n_peers st) ++ [Emit ev];
}.

Lemma accept_frame src tx st :
  store_at (n_store st) t → chain (view (n_store st)) !! t = Some parent →
  validate_block block parent (n_store st) (n_store st) d = Ok tt →
  height (header block) = t + 1 → t + 2 < 2 ^ 64 →
  unknown (Block_hash block) (n_store st) →
  ∃ st', peer_step config src tx (Frame (to_vec (NewBlock block))) st = (Ok true, st') ∧ accepted src st st'.
Proof.
  intros Hst Hp Hv Hh Ht Hnew. pose proof Hst as (Hs & Hc & _). pose proof (co_nonneg _ _ Hc).
  destruct (rel_tip (n_store st) Hs) as [x Htip].
  destruct (store_at_tip _ _ _ Hst Htip) as (p' & -> & Hp'). rewrite Hp in Hp'. injection Hp' as <-.
  destruct (extend_reliable _ Hst Hp Hv Hh Ht) as (s' & He & Hst' & Hview). pose proof He as Hcalls.
  unfold extend_calls, mbind, ST_bind in He. destruct (insert_block block (n_store st)) as [[[]|e|] s1] eqn:Hi; [|done..].
  cbn [peer_step]. unfold dispatch, reads, mbind, ST_bind. rewrite from_slice_to_vec. cbn [of_sum handle_message].
  unfold handle_new_block, store_read, read_store, reads, mbind, ST_bind. rewrite (unknown_hash _ _ Hnew). cbn [map_err]. rewrite Htip. cbn [map_err default from_option id].
  rewrite u64_add_small, Hh, Z.eqb_refl by lia.
  unfold extend_tip, store_read, read_store, reads, mbind, ST_bind.
  rewrite height_view, Hp by (done || unfold u64; lia). cbn [map_err ok_or]. rewrite Hv.
  unfold store_call, st_map_err, on_store. rewrite Hi. cbn [map_err set_store n_store].
  rewrite He. cbn [map_err]. eexists. split; [reflexivity|].
  constructor; cbn; try done. rewrite <- app_assoc. by eexists.
Qed.

(** A node that has the block as its tip does nothing with a second copy. *)
Lemma duplicate_frame src tx st :
  store_at (n_store st) (t + 1) → chain (view (n_store st)) !! (t + 1) = Some block →
  height (header block) = t + 1 →
  peer_step config src tx (Frame (to_vec (NewBlock block))) st = (Ok true, st).
Proof.
  intros Hst Hb Hh. pose proof Hst as (Hs & Hc & Ht). pose proof (co_nonneg _ _ Hc).
  destruct (rel_tip (n_store st) Hs) as [x Htip].
  destruct (store_at_tip _ _ _ Hst Htip) as (b' & -> & Hb'). rewrite Hb in Hb'. injection Hb' as <-.
  cbn [peer_step]. unfold dispatch, reads, mbind, ST_bind. rewrite from_slice_to_vec. cbn [of_sum handle_message].
  unfold handle_new_block, store_read, read_store, reads, mbind, ST_bind.
  pose proof (rel_hash (Block_hash block) (n_store st)) as Hk.
  destruct (get_by_hash (Block_hash block) (n_store st)) as [[k|]|e|]; cbn [map_err]; try done.
  rewrite Htip. cbn [map_err default from_option id]. rewrite u64_add_small, Hh by lia.
  rewrite (proj2 (Z.eqb_neq (t + 1) (t + 1 + 1))), Z.eqb_refl by lia.
  unfold fork_choice. by rewrite bool_decide_true.
Qed.
End block.

(** Debug events only. *)
Definition only_emits (es : list Effect) : Prop := Forall (fun e => ∃ ev, e = Emit ev) es.

(** A transaction from a peer leaves stores and peers alone, and makes the node
    send transactions only. *)
Definition tx_effect (e : Effect) : Prop :=
  match e with
  | TrySend _ msg => ∃ tx, msg = NewTx tx
  | AnnounceBlock _ => False
  | Emit _ => True
  end.

Lemma broadcast_except_tx `{HashOrder} src tx (ps : PeerSet) :
  Forall tx_effect (PeerSet.broadcast_except src (NewTx tx) ps).
Proof.
  apply Forall_forall. intros e He. apply list_elem_of_omap in He as ([a s] & _ & He).
  case_bool_decide; [|done]. injection He as <-. by eexists.
Qed.

Lemma tx_frame `{Crypto} `{CoreJson} `{Json Message} `{BuildProfile} `{HashOrder} `{UnstableSort}
    {S : Type} `{!BlockStore S} `{!UtxoStore S} `{!ValidatorStore S}
    config src reply tx (st st' : NodeState S) :
  peer_step config src reply (Frame (to_vec (NewTx tx))) st = (Ok true, st') →
  n_store st' = n_store st ∧ n_peers st' = n_peers st ∧
  ∃ es, n_effects st' = n_effects st ++ es ∧ Forall tx_effect es.
Proof.
  cbn [peer_step]. unfold dispatch, reads, mbind, ST_bind. rewrite from_slice_to_vec. cbn [of_sum handle_message].
  unfold handle_new_tx. destruct (Mempool.add tx (n_store st) (n_mempool st)) as [[a|e|] m]; [|intros [= <-]|done].
  - destruct (newly_added a); intros [= <-]; cbn.
    + split_and!; [done..|]. rewrite <- app_assoc. eexists. split; [reflexivity|].
      repeat apply Forall_app_2; [|by repeat constructor|apply broadcast_except_tx].
      destruct (evicted a); by repeat constructor.
    + split_and!; [done..|]. exists []. by rewrite app_nil_r.
  - cbn. split_and!; [done..|]. eexists. split; [reflexivity|]. by repeat constructor.
Qed.

(** ** The spread of a block *)

Section spread.
Context `{Crypto} `{CoreJson} `{Json Message} `{BuildProfile} `{HashOrder} `{UnstableSort}.
Context {S : Type} `{!BlockStore S} `{!UtxoStore S} `{!ValidatorStore S} `{!StoreLaws S} `{!Reliable S}.
Context (configs : nat → NodeConfig) (far : nat → Sender → option (nat * SocketAddr)).
Context (block : Block) (t : Z) (v : Ledger).
Implicit Types (st : NodeState S) (net : Net S).
Notation frame := (to_vec (NewBlock block)).
Notation v' := (extended block t v).
Notation is_frame := (fun p => payload p = frame).

(** A node that has the block on top of the ledger [v]. *)
Record reached st : Prop := {
  re_store : store_at (n_store st) (t + 1);
  re_view : view (n_store st) = v';
}.

(** What a node does that takes the block in: it passes it on to all other peers. *)
Record takes_block (src : SocketAddr) st st' : Prop := {
  tb_reached : reached st';
  tb_peers : n_peers st' = n_peers st;
  tb_effects : ∃ evs, only_emits evs ∧
    n_effects st' = n_effects st ++ PeerSet.broadcast_except src (NewBlock block) (n_peers st) ++ evs;
}.

(** The interface between a node and the network: [open i st] are the states of
    node [i] in which it takes the block in, [other] are the frames that may be
    under way besides the block.  They leave an open node open and one that has
    the block with it, and lead to such frames only. *)
Context (open : nat → NodeState S → Prop) (other : list byte → Prop).

Definition other_effect (e : Effect) : Prop :=
  match e with
  | TrySend _ msg => other (to_vec msg)
  | AnnounceBlock _ => False
  | Emit _ => True
  end.

Class Spreads : Prop := {
  sp_height : height (header block) = t + 1;
  sp_range : t + 2 < 2 ^ 64;
  sp_fits : fits_frame (NewBlock block) = true;
  sp_open i st : open i st → chain (view (n_store st)) !! (t + 1) ≠ Some block;
  sp_other_frame : ¬ other frame;
  sp_accept i src tx st : open i st →
    ∃ st', peer_step (configs i) src tx (Frame frame) st = (Ok true, st') ∧ takes_block src st st';
  sp_other i src tx bytes st st' : other bytes → open i st ∨ reached st →
    peer_step (configs i) src tx (Frame bytes) st = (Ok true, st') →
    n_peers st' = n_peers st ∧ (open i st → open i st') ∧ (reached st → reached st') ∧
    ∃ es, n_effects st' = n_effects st ++ es ∧ Forall other_effect es;
}.

(** The block is on its way to every connected node that lacks it, and its
    frames come from nodes that have it. *)
Definition reached_at net (i : nat) : Prop := ∃ st, net_nodes net !! i = Some st ∧ reached st.
Definition arriving net (p : Packet) : Prop :=
  payload p = frame ∧ (∃ st s i a, net_nodes net !! to_node p = Some st ∧ n_peers st !! from_addr p = Some s ∧
    far (to_node p) s = Some (i, a) ∧ reached_at net i).
Record spreading net : Prop := {
  sg_wired : wired far (net_nodes net);
  sg_nodes i st : net_nodes net !! i = Some st → open i st ∨ reached st;
  sg_wire p : p ∈ net_wire net → arriving net p ∨ other (payload p);
  sg_links i st a s j b : net_nodes net !! i = Some st → reached st → n_peers st !! a = Some s →
    far i s = Some (j, b) → reached_at net j ∨ mkPacket j b frame ∈ net_wire net;
}.

Context `{Hsp : !Spreads}.

Lemma written_frame i s j a : far i s = Some (j, a) → written_to far i s (NewBlock block) = [mkPacket j a frame].
Proof. intros Hf. unfold written_to, encode_send. by rewrite sp_fits, Hf. Qed.

Lemma reached_not_open i st : open i st → ¬ reached st.
Proof. intros Ho [_ Hv]. apply (sp_open _ _ Ho). rewrite Hv. apply lookup_insert_eq. Qed.

(** The other frames a node sends. *)
Lemma other_packets i (ps : PeerSet) es q :
  Forall other_effect es → q ∈ (es ≫= packets_of far i ps) → other (payload q).
Proof.
  intros Hes (e & Hq & He)%list_elem_of_bind. rewrite Forall_forall in Hes. specialize (Hes _ He).
  destruct e as [s msg| |]; cbn in *; [|done|by apply not_elem_of_nil in Hq].
  by rewrite (written_to_payload _ _ _ _ _ Hq).
Qed.

(** The frames of a block a node passes on, or announces. *)
Lemma broadcast_packets i src (ps : PeerSet) p :
  p ∈ (PeerSet.broadcast_except src (NewBlock block) ps ≫= packets_of far i ps) ↔
  ∃ a s j b, ps !! a = Some s ∧ a ≠ src ∧ far i s = Some (j, b) ∧ p = mkPacket j b frame.
Proof.
  rewrite list_elem_of_bind. split.
  - intros (e & Hp & He). apply list_elem_of_omap in He as ([a s] & Has & He). rewrite hash_iter_perm in Has.
    apply elem_of_map_to_list in Has. case_bool_decide as Hne; [|done]. injection He as <-. cbn in Hp.
    destruct (far i s) as [[j b]|] eqn:Hf; [|unfold written_to in Hp; rewrite Hf in Hp; destruct (encode_send _ _); by apply not_elem_of_nil in Hp].
    rewrite (written_frame i s j b Hf) in Hp. apply list_elem_of_singleton in Hp as ->. by exists a, s, j, b.
  - intros (a & s & j & b & Has & Hne & Hf & ->). exists (TrySend s (NewBlock block)). cbn.
    rewrite (written_frame i s j b Hf). split; [by left|].
    apply list_elem_of_omap. exists (a, s). rewrite hash_iter_perm, elem_of_map_to_list. split; [done|]. cbn. by rewrite bool_decide_true.
Qed.

(** What a delivery does to the receiving node and which packets it sends. *)
Inductive outcome (i : nat) (p : Packet) (st st' : NodeState S) (new : list Packet) : Prop :=
| out_other : other (payload p) → (open i st → open i st') → (reached st → reached st') →
    Forall (fun q => other (payload q)) new → outcome i p st st' new
| out_known : payload p = frame → reached st → st' = st → new = [] → outcome i p st st' new
| out_accepted : payload p = frame → open i st → reached st' →
    (∀ q, q ∈ new ↔ ∃ a s j b, n_peers st !! a = Some s ∧ a ≠ from_addr p ∧ far i s = Some (j, b) ∧ q = mkPacket j b frame) →
    (length new ≤ size (n_peers st))%nat → outcome i p st st' new.

(** Debug events send nothing. *)
Lemma emits_packets i (ps : PeerSet) es : only_emits es → es ≫= packets_of far i ps = [].
Proof. induction 1 as [|e es [ev ->] _ IH]; [done|]. exact IH. Qed.

Lemma bind_length {A B} (f : A → list B) l : (∀ x, x ∈ l → length (f x) ≤ 1)%nat → (length (l ≫= f) ≤ length l)%nat.
Proof.
  induction l as [|x l IH]; intros Hf; [done|]. cbn. rewrite length_app.
  pose proof (Hf x ltac:(by left)). assert (length (l ≫= f) ≤ length l)%nat by (apply IH; intros; apply Hf; by right). lia.
Qed.

Lemma omap_length {A B} (f : A → option B) l : (length (omap f l) ≤ length l)%nat.
Proof. induction l as [|x l IH]; [done|]. cbn. destruct (f x); cbn; lia. Qed.

Lemma broadcast_length i src (ps : PeerSet) :
  (length (PeerSet.broadcast_except src (NewBlock block) ps ≫= packets_of far i ps) ≤ size ps)%nat.
Proof.
  etransitivity; [apply bind_length|].
  - intros e ([a s] & _ & He)%list_elem_of_omap. case_bool_decide; [|done]. injection He as <-. apply written_to_length.
  - unfold PeerSet.broadcast_except. etransitivity; [apply omap_length|].
    rewrite hash_iter_perm. by rewrite length_map_to_list.
Qed.

Lemma reached_frame i src tx st : reached st → peer_step (configs i) src tx (Frame frame) st = (Ok true, st).
Proof.
  intros [Hst Hv]. apply (duplicate_frame (configs i) block t); [done| |apply sp_height].
  rewrite Hv. apply lookup_insert_eq.
Qed.

Lemma frame_step i src tx st :
  open i st ∨ reached st →
  ∃ st', peer_step (configs i) src tx (Frame frame) st = (Ok true, st') ∧ n_peers st' = n_peers st ∧
    (∀ p, payload p = frame → from_addr p = src → outcome i p st st' (new_packets far i st st')).
Proof.
  intros [Ho|Hr].
  - destruct (sp_accept i src tx st Ho) as (st' & Hstep & [Hr' Hp (evs & Hevs & He)]).
    exists st'. split_and!; [done..|]. intros p Hpay <-. rewrite (new_packets_app _ _ _ _ _ He), Hp, bind_app.
    rewrite (emits_packets _ _ _ Hevs), app_nil_r.
    apply out_accepted; [done..|apply broadcast_packets|apply broadcast_length].
  - exists st. rewrite reached_frame by done. split_and!; [done..|]. intros p Hpay <-. apply out_known; [done..|].
    by rewrite (new_packets_app _ _ _ _ []) by by rewrite app_nil_r.
Qed.

Lemma delivery_cases net p net' :
  spreading net → net_step configs far (Some p) net net' →
  ∃ l1 l2 st st', net = mkNet (net_nodes net) (l1 ++ p :: l2) ∧ net_nodes net !! to_node p = Some st ∧
    net' = mkNet (<[to_node p := st']> (net_nodes net)) ((l1 ++ l2) ++ new_packets far (to_node p) st st') ∧
    n_peers st' = n_peers st ∧ outcome (to_node p) p st st' (new_packets far (to_node p) st st').
Proof.
  intros Hinv Hstep. inversion Hstep as [nodes l1 p' l2 st tx st' Hn Hpe Hps|]; subst. cbn -[peer_step] in *.
  exists l1, l2, st, st'. split_and!; [done..| |].
  all: destruct (decide (payload p = frame)) as [Hpay|Hpay].
  - rewrite Hpay in Hps. destruct (frame_step (to_node p) (from_addr p) tx st) as (st'' & Hps' & Hpeers & _);
      [by eapply (sg_nodes _ Hinv)|]. congruence.
  - destruct (sg_wire _ Hinv p) as [[? _]|Hx]; [cbn; set_solver|done|].
    apply sp_other in Hps as (? & _); [done..|by apply (sg_nodes _ Hinv)].
  - rewrite Hpay in Hps. destruct (frame_step (to_node p) (from_addr p) tx st) as (st'' & Hps' & _ & Hout);
      [by eapply (sg_nodes _ Hinv)|]. assert (st'' = st') as -> by congruence. by apply Hout.
  - destruct (sg_wire _ Hinv p) as [[? _]|Hx]; [cbn; set_solver|done|].
    apply sp_other in Hps as (Hp & Ho & Hr & es & He & Hes); [|done|by apply (sg_nodes _ Hinv)]. apply out_other; [done..|].
    rewrite (new_packets_app _ _ _ _ _ He). apply Forall_forall. intros q. by apply other_packets.
Qed.

Lemma outcome_reached i p st st' new : outcome i p st st' new → reached st → reached st'.
Proof. intros [_ _ Hr _|_ _ -> _|_ _ ? _ _]; auto. Qed.

Lemma outcome_phase i p st st' new : outcome i p st st' new → open i st ∨ reached st → open i st' ∨ reached st'.
Proof. intros [_ Ho Hr _|_ _ -> _|_ _ ? _ _]; tauto. Qed.

Section delivery.
Context (nodes : list (NodeState S)) (p : Packet) (l1 l2 new : list Packet) (st st' : NodeState S).
Let net := mkNet nodes (l1 ++ p :: l2).
Let net' := mkNet (<[to_node p := st']> nodes) ((l1 ++ l2) ++ new).
Context (Hinv : spreading net) (Hst : nodes !! to_node p = Some st) (Hpeers : n_peers st' = n_peers st).
Context (Hout : outcome (to_node p) p st st' new).

Lemma delivered_peers : n_peers <$> nodes = n_peers <$> <[to_node p := st']> nodes.
Proof. by apply (peers_insert _ _ st). Qed.

Lemma delivered_lookup i x : nodes !! i = Some x →
  ∃ y, <[to_node p := st']> nodes !! i = Some y ∧ n_peers y = n_peers x ∧ (reached x → reached y).
Proof.
  intros Hi. destruct (decide (to_node p = i)) as [<-|Hne].
  - exists st'. rewrite list_lookup_insert_eq by by eapply lookup_lt_Some. assert (x = st) as -> by congruence.
    split_and!; [done..|]. by eapply outcome_reached.
  - exists x. by rewrite list_lookup_insert_ne.
Qed.

Lemma delivered_reached i : reached_at net i → reached_at net' i.
Proof. intros (x & (y & Hy & _ & Hr)%delivered_lookup & Hx). exists y. auto. Qed.

Lemma delivered_arriving q : arriving net q → arriving net' q.
Proof.
  intros (Hq & x & s & i & a & (y & Hy & Hp & _)%delivered_lookup & Ha & Hf & Hr).
  split; [done|]. exists y, s, i, a. rewrite Hp. split_and!; [done..|by apply delivered_reached].
Qed.

Lemma delivered_links i x a s j b : nodes !! i = Some x → reached x → n_peers x !! a = Some s →
  far i s = Some (j, b) → reached_at net' j ∨ mkPacket j b frame ∈ net_wire net'.
Proof.
  intros Hi Hr Ha Hf. destruct (sg_links _ Hinv i x a s j b Hi Hr Ha Hf) as [?|Hin]; [left; by apply delivered_reached|].
  cbn in Hin. rewrite elem_of_app, elem_of_cons in Hin. destruct Hin as [Hin|[Heq|Hin]]; [right; cbn; set_solver| |right; cbn; set_solver].
  assert (Hj : to_node p = j) by by rewrite <- Heq. assert (Hpay : payload p = frame) by by rewrite <- Heq.
  left. exists st'. rewrite <- Hj. split; [apply list_lookup_insert_eq; by eapply lookup_lt_Some|].
  destruct Hout as [Hoth _ _ _|_ ? -> _|_ _ ? _ _]; [|done..]. rewrite Hpay in Hoth. by apply sp_other_frame in Hoth.
Qed.

Lemma delivered_spreading : spreading net'.
Proof.
  assert (Hrecv : <[to_node p := st']> nodes !! to_node p = Some st') by (apply list_lookup_insert_eq; by eapply lookup_lt_Some).
  constructor.
  - apply (wired_peers _ nodes); [apply delivered_peers|by apply (sg_wired _ Hinv)].
  - cbn. intros i x [(<- & <- & _)|(_ & Hi)]%list_lookup_insert_Some.
    + eapply outcome_phase; [exact Hout|]. by apply (sg_nodes _ Hinv).
    + by apply (sg_nodes _ Hinv).
  - intros q. cbn. intros [Hq|Hq]%elem_of_app.
    + destruct (sg_wire _ Hinv q) as [?|?]; [cbn; set_solver|left; by apply delivered_arriving|by right].
    + destruct Hout as [_ _ _ Htx|_ _ _ ->|_ _ Hr Hnew _]; [|by apply not_elem_of_nil in Hq|].
      * right. rewrite Forall_forall in Htx. by apply Htx.
      * left. apply Hnew in Hq as (a & s & j & b & Ha & _ & Hf & ->). split; [done|]. cbn.
        destruct (sg_wired _ Hinv (to_node p) st a s Hst Ha) as (j' & b' & x & s' & Hf' & Hx & Hb & Hback).
        rewrite Hf in Hf'. injection Hf' as <- <-. destruct (delivered_lookup _ _ Hx) as (y & Hy & Hp & _).
        exists y, s', (to_node p), a. rewrite Hp. split_and!; [done..|]. by exists st'.
  - cbn [net_nodes net']. intros i x a s j b [(<- & <- & _)|(_ & Hi)]%list_lookup_insert_Some Hr Ha Hf; [|by eapply delivered_links].
    rewrite Hpeers in Ha. destruct (sg_nodes _ Hinv _ _ Hst) as [Hopen|Hr0]; [|by eapply delivered_links].
    destruct Hout as [_ Ho _ _|_ Hr0 _ _|Hpay _ _ Hnew _].
    + exfalso. by apply (reached_not_open (to_node p) st'); [apply Ho|].
    + by apply reached_not_open in Hopen.
    + destruct (decide (a = from_addr p)) as [->|Hne].
      * destruct (sg_wire _ Hinv p) as [(_ & x & s' & i & a & Hx & Hs' & Hf' & Hri)|Hoth]; [cbn; set_solver| |].
        -- left. apply delivered_reached. cbn in Hx. assert (x = st) as -> by congruence.
           rewrite Ha in Hs'. injection Hs' as <-. rewrite Hf in Hf'. by injection Hf' as -> _.
        -- exfalso. rewrite Hpay in Hoth. by apply sp_other_frame in Hoth.
      * right. cbn. rewrite elem_of_app. right. apply Hnew. by exists a, s, j, b.
Qed.
End delivery.

(** *** Runs *)

(** What is left to do: the frames in flight, and those the nodes without the
    block may still send. *)
Definition weight st : nat :=
  if decide (chain (view (n_store st)) !! (t + 1) = Some block) then 0 else size (n_peers st).
Definition frames (ps : list Packet) : nat := length (filter is_frame ps).
Definition pending net : nat := frames (net_wire net) + sum_list (weight <$> net_nodes net).

Lemma sum_list_insert (l : list nat) i x y :
  l !! i = Some x → (sum_list (<[i := y]> l) + x = sum_list l + y)%nat.
Proof.
  revert i. induction l as [|z l IH]; intros [|i] Hi; cbn in *; [done|done| |].
  - injection Hi as ->. lia.
  - specialize (IH i Hi). change (z + sum_list (<[i:=y]> l) + x = z + sum_list l + y)%nat. lia.
Qed.

Lemma sum_list_insert_zero (l k : list nat) i x :
  length l = length k → (i < length l)%nat → (∀ j y z, j ≠ i → l !! j = Some y → k !! j = Some z → y = z) →
  k !! i = Some x → (sum_list (<[i := 0]> l) + x)%nat = sum_list k.
Proof.
  intros Hlen Hi Heq Hx. assert (<[i := x]> l = k) as <-.
  { apply list_eq_same_length with (length k); [done|by rewrite length_insert|]. intros j y z _ Hy Hz.
    apply list_lookup_insert_Some in Hy as [(<- & <- & _)|(Hne & Hy)]; [congruence|by eapply Heq]. }
  destruct (lookup_lt_is_Some_2 l i Hi) as [y Hy].
  pose proof (sum_list_insert l i y 0 Hy). pose proof (sum_list_insert l i y x Hy). lia.
Qed.

Lemma frames_app l1 l2 : frames (l1 ++ l2) = (frames l1 + frames l2)%nat.
Proof. unfold frames. by rewrite filter_app, length_app. Qed.
Lemma frames_le l : (frames l ≤ length l)%nat.
Proof. apply length_filter. Qed.
Lemma frames_other l : Forall (fun q => other (payload q)) l → frames l = 0%nat.
Proof.
  unfold frames. induction 1 as [|q l Hq _ IH]; [done|]. rewrite filter_cons_False; [done|].
  intros Heq. rewrite Heq in Hq. by apply sp_other_frame in Hq.
Qed.

Lemma weight_open i st : open i st → weight st = size (n_peers st).
Proof. intros Ho. unfold weight. rewrite decide_False; [done|]. by eapply sp_open. Qed.
Lemma weight_reached st : reached st → weight st = 0%nat.
Proof. intros [_ Hv]. unfold weight. rewrite Hv, decide_True; [done|]. apply lookup_insert_eq. Qed.

Lemma delivery_spreading net p net' :
  spreading net → net_step configs far (Some p) net net' →
  spreading net' ∧ n_peers <$> net_nodes net = n_peers <$> net_nodes net' ∧
  (∀ i, reached_at net i → reached_at net' i) ∧ (pending net' + frames [p] ≤ pending net)%nat.
Proof.
  destruct net as [nodes wire]. intros Hinv (l1 & l2 & st & st' & Hnet & Hst & -> & Hp & Hout)%delivery_cases; [|done].
  injection Hnet as ->. cbn [net_nodes] in *. split_and!.
  - by apply (delivered_spreading _ _ _ _ _ _ _ Hinv Hst Hp Hout).
  - exact (delivered_peers _ _ _ _ Hst Hp).
  - intros i. by apply (delivered_reached _ _ _ _ _ _ _ Hst Hp Hout i).
  - unfold pending. cbn [net_wire net_nodes]. rewrite !frames_app.
    change (p :: l2) with ([p] ++ l2). rewrite frames_app, list_fmap_insert.
    pose proof (sum_list_insert (weight <$> nodes) (to_node p) (weight st) (weight st')) as Hsum.
    rewrite list_lookup_fmap, Hst in Hsum. specialize (Hsum eq_refl).
    assert (frames [p] ≤ 1)%nat by apply (frames_le [p]).
    destruct Hout as [_ Ho Hr Htx|_ _ -> ->|_ Hf Hr _ Hlen].
    + rewrite (frames_other _ Htx). assert (weight st' = weight st); [|lia].
      destruct (sg_nodes _ Hinv _ _ Hst) as [Hopen|Hre].
      * by rewrite (weight_open (to_node p) st'), (weight_open (to_node p) st), Hp by auto.
      * by rewrite !weight_reached by auto.
    + change (frames []) with 0%nat. lia.
    + pose proof (weight_open _ _ Hf). pose proof (weight_reached _ Hr).
      pose proof (frames_le (new_packets far (to_node p) st st')). lia.
Qed.

Lemma deliveries_spreading ps net net' :
  deliveries configs far ps net net' → spreading net →
  spreading net' ∧ n_peers <$> net_nodes net = n_peers <$> net_nodes net' ∧
  (∀ i, reached_at net i → reached_at net' i) ∧ (pending net' + frames ps ≤ pending net)%nat.
Proof.
  induction 1 as [net|p ps net net1 net2 Hstep _ IH]; intros Hinv.
  - split_and!; [done..|]. cbn. lia.
  - destruct (delivery_spreading _ _ _ Hinv Hstep) as (Hinv1 & Hp1 & Hr1 & Hle1).
    destruct (IH Hinv1) as (Hinv2 & Hp2 & Hr2 & Hle2). split_and!; [done|congruence|auto|].
    change (p :: ps) with ([p] ++ ps). rewrite frames_app. lia.
Qed.

(** A frame in flight can be read. *)
Lemma spreading_progress net p :
  spreading net → p ∈ net_wire net → payload p = frame → ∃ net', net_step configs far (Some p) net net'.
Proof.
  intros Hinv Hp Hpay. destruct (sg_wire _ Hinv _ Hp) as [(_ & st & s & i & a & Hst & Ha & _)|Hoth];
    [|rewrite Hpay in Hoth; by apply sp_other_frame in Hoth].
  destruct (frame_step (to_node p) (from_addr p) s st (sg_nodes _ Hinv _ _ Hst)) as (st' & Hstep & _).
  rewrite <- Hpay in Hstep. apply list_elem_of_split in Hp as (l1 & l2 & Hw).
  destruct net as [nodes wire]. cbn in *. subst wire. eexists. by eapply net_deliver.
Qed.

(** When no frame is left, the block is wherever it can get. *)
Lemma spreading_done net i j :
  spreading net → (∀ p, p ∈ net_wire net → payload p ≠ frame) →
  rtc (linked far (net_nodes net)) i j → reached_at net i → reached_at net j.
Proof.
  intros Hinv Hno Hl. induction Hl as [|i k j (st & a & s & b & Hi & Ha & Hf) _ IH]; [done|].
  intros (st' & Hi' & Hr). apply IH. assert (st' = st) as -> by congruence.
  destruct (sg_links _ Hinv i st a s k b Hi Hr Ha Hf) as [?|Hin]; [done|]. by apply Hno in Hin.
Qed.

(** The deliveries can always be completed. *)
Lemma spreading_completes net : spreading net →
  ∃ ps net', deliveries configs far ps net net' ∧ ∀ p, p ∈ net_wire net' → payload p ≠ frame.
Proof.
  remember (pending net) as n eqn:Hn. revert net Hn.
  induction n as [n IH] using lt_wf_ind. intros net -> Hinv.
  destruct (decide (Exists is_frame (net_wire net))) as [(p & Hp & Hpay)%Exists_exists|Hno%not_Exists_Forall].
  - destruct (spreading_progress _ _ Hinv Hp Hpay) as [net1 Hstep].
    destruct (delivery_spreading _ _ _ Hinv Hstep) as (Hinv1 & _ & _ & Hle).
    assert (frames [p] = 1%nat) as Hone by (unfold frames; by rewrite filter_cons_True).
    destruct (IH (pending net1) ltac:(lia) net1 eq_refl Hinv1) as (ps & net' & Hps & Hdone).
    exists (p :: ps), net'. split; [by eapply deliveries_cons|done].
  - exists [], net. split; [constructor|]. by rewrite Forall_forall in Hno.
  - apply _.
Qed.

(** *** The start *)

Lemma announce_packets i (ps : PeerSet) es1 es2 :
  only_emits es1 → only_emits es2 →
  let new := (es1 ++ AnnounceBlock block :: es2) ≫= packets_of far i ps in
  (∀ q, q ∈ new ↔ ∃ a s j b, ps !! a = Some s ∧ far i s = Some (j, b) ∧ q = mkPacket j b frame) ∧
  (length new ≤ size ps)%nat.
Proof.
  intros Hes1 Hes2. cbv zeta. rewrite bind_app, (emits_packets _ _ es1 Hes1). cbn. rewrite (emits_packets _ _ es2 Hes2), app_nil_r. split.
  - intros q. rewrite list_elem_of_bind. split.
    + intros ([a s] & Hq & Has%elem_of_map_to_list). cbn in Hq.
      destruct (far i s) as [[j b]|] eqn:Hf; [|unfold written_to in Hq; rewrite Hf in Hq; destruct (encode_send _ _); by apply not_elem_of_nil in Hq].
      rewrite (written_frame i s j b Hf) in Hq. apply list_elem_of_singleton in Hq as ->. by exists a, s, j, b.
    + intros (a & s & j & b & Has & Hf & ->). exists (a, s). cbn. rewrite (written_frame i s j b Hf), elem_of_map_to_list. split; [by left|done].
  - etransitivity; [apply bind_length|by rewrite length_map_to_list]. intros [a s] _. apply written_to_length.
Qed.

(** The producer announces the block, all others are open. *)
Lemma announce_spreading nodes wire wire' a st st' es1 es2 :
  wired far nodes → nodes !! a = Some st → (∀ i x, nodes !! i = Some x → i ≠ a → open i x) →
  (∀ q, q ∈ wire → other (payload q)) →
  n_peers st' = n_peers st → reached st' →
  n_effects st' = n_effects st ++ es1 ++ AnnounceBlock block :: es2 → only_emits es1 → only_emits es2 →
  wire' ≡ₚ wire ++ new_packets far a st st' →
  let net := mkNet (<[a := st']> nodes) wire' in
  spreading net ∧ reached_at net a ∧ n_peers <$> nodes = n_peers <$> net_nodes net ∧ (pending net ≤ connections nodes)%nat.
Proof.
  intros Hw Ha Hall Htx Hp Hr He He1 He2 Hwire. cbv zeta. rewrite (new_packets_app _ _ _ _ _ He), Hp in Hwire.
  destruct (announce_packets a (n_peers st) es1 es2 He1 He2) as [Hnew Hlen].
  set (new := (es1 ++ _) ≫= _) in *.
  assert (Hpeers : n_peers <$> nodes = n_peers <$> <[a := st']> nodes) by by apply (peers_insert _ _ st).
  assert (Hra : <[a := st']> nodes !! a = Some st') by (apply list_lookup_insert_eq; by eapply lookup_lt_Some).
  assert (Hreach : reached_at (mkNet (<[a := st']> nodes) wire') a) by by exists st'.
  split_and!; [|done..|].
  - constructor; cbn [net_nodes net_wire].
    + by apply (wired_peers _ nodes).
    + intros i x [(<- & <- & _)|(Hne & Hi)]%list_lookup_insert_Some; [by right|left; by apply Hall].
    + intros q Hin. rewrite Hwire in Hin. apply elem_of_app in Hin as [Hq|Hq]; [right; by apply Htx|]. left.
      apply Hnew in Hq as (b & s & j & c & Hb & Hf & ->). split; [done|]. cbn.
      destruct (Hw a st b s Ha Hb) as (j' & c' & x & s' & Hf' & Hx & Hc & Hback).
      rewrite Hf in Hf'. injection Hf' as <- <-.
      destruct (peers_lookup _ _ j x (eq_sym Hpeers) Hx) as (y & Hy & Hpy).
      exists y, s', a, b. rewrite Hpy. by split_and!.
    + intros i x b s j c [(<- & <- & _)|(Hne & Hi)]%list_lookup_insert_Some Hx Hb Hf.
      * right. rewrite Hp in Hb. rewrite Hwire, elem_of_app. right. apply Hnew. by exists b, s, j, c.
      * exfalso. by apply (reached_not_open i x); [apply Hall|].
  - unfold pending, connections. cbn [net_wire net_nodes].
    assert (frames wire' = frames (wire ++ new)) as -> by (unfold frames; by rewrite Hwire). rewrite frames_app.
    assert (frames wire = 0%nat) as -> by (apply frames_other, Forall_forall; exact Htx).
    pose proof (frames_le new). rewrite list_fmap_insert.
    assert (sum_list (<[a := weight st']> (weight <$> nodes)) + size (n_peers st) ≤ sum_list ((fun x => size (n_peers x)) <$> nodes))%nat; [|lia].
    rewrite (weight_reached _ Hr). rewrite (sum_list_insert_zero _ ((fun x => size (n_peers x)) <$> nodes)); [done| | | |].
    + by rewrite !length_fmap.
    + rewrite length_fmap. by eapply lookup_lt_Some.
    + intros i x y Hi Hx Hy. rewrite list_lookup_fmap in Hx, Hy. destruct (nodes !! i) as [z|] eqn:Hz; [|done].
      cbn in Hx, Hy. simplify_eq. eapply weight_open. by apply Hall.
    + by rewrite list_lookup_fmap, Ha.
Qed.
End spread.
