(* ===== verification/Flood.v ===== *)
(** * A block spreads, slot after slot

    The network of [Gossip] when a single block is under way: its producer is the
    node elected for a slot, all others have the ledger it extends. *)

From S2P Require Import Prelude Bytes Types Consensus Store Ledger Validation Mempool DebugEvent Node.
From S2P Require Import Handler Protocol SlotTicker Reliable Gossip.

(** ** A node that lacks the block *)

Section single.
Context `{Crypto} `{CoreJson} `{Json Message} `{BuildProfile} `{HashOrder} `{UnstableSort}.
Context {S : Type} `{!BlockStore S} `{!UtxoStore S} `{!ValidatorStore S} `{!StoreLaws S} `{!Reliable S}.
Context (configs : nat → NodeConfig) (block parent : Block) (t : Z) (v : Ledger).
Implicit Types (st : NodeState S).

(** A node without the block, which it would accept. *)
Record fresh (i : nat) st : Prop := {
  fr_store : store_at (n_store st) t;
  fr_view : view (n_store st) = v;
  fr_new : unknown (Block_hash block) (n_store st);
  fr_valid : validate_block block parent (n_store st) (n_store st) (slot_duration_secs (configs i)) = Ok tt;
}.

(** A frame with a transaction. *)
Definition is_tx (bytes : list byte) : Prop := ∃ tx, bytes = to_vec (NewTx tx).

Lemma tx_not_block tx b : to_vec (NewTx tx) ≠ to_vec (NewBlock b).
Proof.
  intros Heq. pose proof (from_slice_to_vec (NewTx tx)) as Hx. by rewrite Heq, from_slice_to_vec in Hx.
Qed.

(** The block extends the ledger [v] and fits a frame. *)
Record extends_ledger : Prop := {
  xl_height : height (header block) = t + 1;
  xl_range : t + 2 < 2 ^ 64;
  xl_parent : chain v !! t = Some parent;
  xl_fits : fits_frame (NewBlock block) = true;
}.

Lemma fresh_tip i st : fresh i st → chain (view (n_store st)) !! (t + 1) = None.
Proof.
  intros [(_ & Hc & _) _ _ _]. apply eq_None_not_Some. intros Hs. apply (co_range _ _ Hc) in Hs. lia.
Qed.

Lemma tx_effects_other es : Forall tx_effect es → Forall (other_effect is_tx) es.
Proof.
  intros Hes. eapply Forall_impl; [exact Hes|]. intros [s msg| |]; cbn; [|done..]. intros [tx ->]. by exists tx.
Qed.

Lemma fresh_spreads : extends_ledger → Spreads configs block t v fresh is_tx.
Proof.
  intros [Hh Hr Hp Hfit]. constructor; try done.
  - intros i st Hf. by rewrite (fresh_tip i st Hf).
  - intros [tx Htx]. by apply (tx_not_block tx block).
  - intros i src tx st [Hst Hv Hnew Hval].
    destruct (accept_frame (configs i) block parent t src tx st) as (st' & Hstep & [_ Hst' Hv' _ Hpe (ev & He)]);
      [done|by rewrite Hv|done..|]. exists st'. split; [done|]. constructor; [|done|].
    + constructor; [done|]. by rewrite Hv', Hv.
    + exists [Emit ev]. split; [by repeat constructor; eexists|done].
  - intros i src tx bytes st st' [x ->] _ (Hs & Hpe & es & He & Hes)%tx_frame. split_and!; [done|..].
    + intros []. by constructor; rewrite ?Hs.
    + intros []. by constructor; rewrite ?Hs.
    + exists es. split; [done|by apply tx_effects_other].
Qed.
End single.

(** ** Production on a reliable store *)

Section production.
Context `{Crypto} `{CoreJson} `{Json Message} `{BuildProfile} `{HashOrder} `{UnstableSort}.
Context {S : Type} `{!BlockStore S} `{!UtxoStore S} `{!ValidatorStore S} `{!StoreLaws S} `{!Reliable S}.
Context (config : NodeConfig).
Notation d := (slot_duration_secs config).

(** The elected node produces, stores and announces a block with the pooled
    transactions. *)
Lemma tick_produces now t parent p (st : NodeState S) :
  store_at (n_store st) t → chain (view (n_store st)) !! t = Some parent → t + 2 < 2 ^ 64 →
  slots_in_range config now → produces config now st t (Block_hash parent) p →
  timestamp (header parent) ≤ now →
  let block := make_block config (Block_hash parent) (t + 1) (now `div` d) now
                 (Mempool.drain MAX_TXS_PER_BLOCK (n_mempool st)) in
  validate_block block parent (n_store st) (n_store st) d = Ok tt →
  ∃ r st' es1 es2, tick config now st = (Ok r, st') ∧ extend_calls block (n_store st) = (Ok tt, n_store st') ∧
    store_at (n_store st') (t + 1) ∧ view (n_store st') = extended block t (view (n_store st)) ∧
    n_mempool st' = Mempool.remove (Transaction_hash <$> txs block) (n_mempool st) ∧ n_peers st' = n_peers st ∧
    n_effects st' = n_effects st ++ es1 ++ AnnounceBlock block :: es2 ∧ only_emits es1 ∧ only_emits es2.
Proof.
  intros Hst Hpar Ht Hr [Htip (vs & Hact & Hel) Hmine Hwin Hnew] Hts block Hvalid.
  destruct (extend_reliable config block parent t (n_store st) Hst Hpar Hvalid eq_refl Ht) as (s' & He & Hst' & Hview). pose proof He as Hcalls.
  pose proof (slot_bounds config now Hr) as (? & ? & ?). destruct Hr as (Hd & Hn & Hr).
  pose proof Hst as (Hs & Hc & _). pose proof (co_nonneg _ _ Hc). unfold MIN_PROPOSE_WINDOW_SECS in Hwin.
  unfold tick, attempt_read, attempt, emit, modifies, reads, mbind, ST_bind.
  rewrite wrap_i64_small by lia. unfold i64_div.
  rewrite (proj2 (Z.eqb_neq d 0)), Z.quot_div_nonneg by lia. rewrite decide_True by (unfold i64; lia).
  unfold i64_add, i64_mul. rewrite !arith_i64_Ok by (unfold i64; lia).
  rewrite (proj2 (Z.leb_gt _ now)), wrap_u64_small by lia.
  rewrite Htip. cbn [n_store set_store]. rewrite Hact. rewrite ?arith_i64_Ok by (unfold i64; lia). cbn [n_store set_store perform].
  rewrite height_view, Hpar by (done || unfold u64; lia). cbn [ok_or].
  rewrite (proj2 (Z.leb_gt _ _)) by (apply Hnew; rewrite height_view, Hpar by (done || unfold u64; lia); done).
  rewrite Hel. rewrite bool_decide_true by done. rewrite (proj2 (Z.ltb_lt _ _)) by (unfold MIN_PROPOSE_WINDOW_SECS; lia). cbn [andb].
  unfold propose_block, attempt, emit, modifies, reads, mbind, ST_bind. cbn [n_store n_mempool set_store perform].
  rewrite u64_add_small by lia. fold block.
  unfold extend_calls, mbind, ST_bind in He. destruct (insert_block block (n_store st)) as [[[]|e|] s1]; [|done..].
  cbn [n_store set_store]. rewrite He. eexists _, _, [_; _], [_]. split; [reflexivity|].
  cbn [n_store n_mempool n_peers n_effects set_store set_mempool perform]. split_and!; try done.
  - by rewrite <- !app_assoc.
  - repeat constructor; by eexists.
  - repeat constructor; by eexists.
Qed.
End production.

(** ** The properties *)

Section properties.
Context `{Crypto} `{CoreJson} `{Json Message} `{BuildProfile} `{HashOrder} `{UnstableSort}.
Context {S : Type} `{!BlockStore S} `{!UtxoStore S} `{!ValidatorStore S} `{!StoreLaws S} `{!Reliable S}.
Context (configs : nat → NodeConfig) (far : nat → Sender → option (nat * SocketAddr)).

(** A network in agreement: every connection has two ends, only transactions are
    under way, and all nodes have the same ledger and slots of the same length. *)
Record agreement (nodes : list (NodeState S)) (wire : list Packet) (t : Z) (v : Ledger) (d : Z) : Prop := {
  ag_wired : wired far nodes;
  ag_wire q : q ∈ wire → ∃ tx, payload q = to_vec (NewTx tx);
  ag_nodes i x : nodes !! i = Some x → store_at (n_store x) t ∧ view (n_store x) = v ∧
    slot_duration_secs (configs i) = d;
}.

(** Node [a] with the ledger [v] is elected for the slot of [now]. *)
Record leads (a : nat) (now t : Z) (v : Ledger) (parent : Block) (st : NodeState S) (p : Validator) : Prop := {
  ld_parent : chain v !! t = Some parent;
  ld_height : t + 2 < 2 ^ 64;
  ld_time : slots_in_range (configs a) now ∧ timestamp (header parent) ≤ now;
  ld_elected : produces (configs a) now st t (Block_hash parent) p;
  ld_key w : validators v !! my_address (configs a) = Some w →
    v_pubkey w = verifying_key (my_signing_key (configs a));
}.

(** A network in agreement in which node [a] is elected. *)
Record elected_net (nodes : list (NodeState S)) (wire : list Packet) (a : nat) (now t : Z) (v : Ledger)
    (parent : Block) (st : NodeState S) (p : Validator) : Prop := {
  el_agreement : agreement nodes wire t v (slot_duration_secs (configs a));
  el_node : nodes !! a = Some st;
  el_leads : leads a now t v parent st p;
}.

Definition next_block (a : nat) (now t : Z) (parent : Block) (st : NodeState S) : Block :=
  make_block (configs a) (Block_hash parent) (t + 1) (now `div` slot_duration_secs (configs a)) now
    (Mempool.drain MAX_TXS_PER_BLOCK (n_mempool st)).

(** The block can be put on the wire, and is nowhere yet. *)
Definition deliverable (nodes : list (NodeState S)) (block : Block) : Prop :=
  fits_frame (NewBlock block) = true ∧
  ∀ i x, nodes !! i = Some x → unknown (Block_hash block) (n_store x).

Lemma elected_spreading nodes wire a now t v parent st p :
  elected_net nodes wire a now t v parent st p →
  let block := next_block a now t parent st in
  (∀ tx, tx ∈ txs block → validate_transaction tx (n_store st) = Ok tt) → deliverable nodes block →
  ∃ st' r, tick (configs a) now st = (Ok r, st') ∧ n_peers st' = n_peers st ∧
    n_mempool st' = Mempool.remove (Transaction_hash <$> txs block) (n_mempool st) ∧
    let net := mkNet (<[a := st']> nodes) (wire ++ new_packets far a st st') in
    net_step configs far None (mkNet nodes wire) net ∧ Spreads configs block t v (fresh configs block parent t v) is_tx ∧
    spreading far block t v (fresh configs block parent t v) is_tx net ∧ reached_at block t v net a ∧
    n_peers <$> nodes = n_peers <$> net_nodes net ∧ (pending block t net ≤ connections nodes)%nat.
Proof.
  intros [[Hw Htx Hagree] Ha [Hpar Ht [Hr Hts] Hel Hkey]] block Hvalid [Hfits Hnew].
  destruct (Hagree _ _ Ha) as (Hst & Hv & _). pose proof Hst as (Hs & Hc & _). pose proof (co_nonneg _ _ Hc).
  assert (Hparent : chain (view (n_store st)) !! t = Some parent) by by rewrite Hv.
  pose proof (co_height _ _ Hc _ _ Hparent) as Hh.
  assert (Hval : validate_block block parent (n_store st) (n_store st) (slot_duration_secs (configs a)) = Ok tt).
  { unfold block, next_block. rewrite <- Hh. eapply (made_block_valid (configs a)); try done; [lia|lia|apply Hel|apply Hel|by rewrite Hv]. }
  destruct (tick_produces (configs a) now t parent p st Hst Hparent Ht Hr Hel Hts Hval)
    as (r & st' & es1 & es2 & Htick & _ & Hst' & Hview & Hm & Hp & He & He1 & He2).
  fold (next_block a now t parent st) in Hview, Hm, He. fold block in Hview, Hm, He.
  assert (Hsp : extends_ledger block parent t v) by (by constructor).
  assert (Hfresh : ∀ i x, nodes !! i = Some x → fresh configs block parent t v i x).
  { intros i x Hi. destruct (Hagree _ _ Hi) as (Hx & Hxv & Hd). constructor; [done..|by eapply Hnew|].
    rewrite Hd. apply (blocks_agree (n_store st) (n_store x)); [apply Hs|apply Hx|congruence|done]. }
  exists st', r. split_and!; [done..|]. cbv zeta. split; [by eapply net_slot|].
  pose proof (fresh_spreads configs block parent t v Hsp) as Hspreads. split; [done|].
  eapply announce_spreading; try done; [by intros; apply Hfresh|]. constructor; [done|]. by rewrite Hview, Hv.
Qed.

(** C3: a block reaches the whole network.  In a network of nodes that agree on
    the chain, whose connections may still carry transactions, the node elected
    for a slot produces a block when the slot comes.  If the transactions it takes
    from its pool are still valid (which it does not check), and the block fits
    into a frame and is new to every node, the deliveries of that block can be
    completed, and under every order of deliveries, each node keeps the
    old ledger or has the one with the block on top, at most one frame with the
    block is read per end of a connection, a frame with the block that is under
    way can be read, and once none is left every node connected to the
    producer, directly or through others, has the block. *)
Theorem block_reaches_network nodes wire a now t v parent st p :
  elected_net nodes wire a now t v parent st p →
  let block := next_block a now t parent st in
  let frame := to_vec (NewBlock block) in
  (∀ tx, tx ∈ txs block → validate_transaction tx (n_store st) = Ok tt) → deliverable nodes block →
  ∃ net, net_step configs far None (mkNet nodes wire) net ∧
    (∃ ps net', deliveries configs far ps net net' ∧ ∀ q, q ∈ net_wire net' → payload q ≠ frame) ∧
    ∀ ps net', deliveries configs far ps net net' →
      (∀ i x, net_nodes net' !! i = Some x → view (n_store x) = v ∨ view (n_store x) = extended block t v) ∧
      (length (filter (fun q => payload q = frame) ps) ≤ connections nodes)%nat ∧
      (∀ q, q ∈ net_wire net' → payload q = frame → ∃ net'', net_step configs far (Some q) net' net'') ∧
      ((∀ q, q ∈ net_wire net' → payload q ≠ frame) → ∀ i, rtc (linked far nodes) a i →
         ∃ x, net_nodes net' !! i = Some x ∧ view (n_store x) = extended block t v).
Proof.
  intros Hel block frame Hvalid Hdel.
  destruct (elected_spreading _ _ _ _ _ _ _ _ _ Hel Hvalid Hdel) as (st' & r & _ & _ & _ & Hstep & Hsp & Hinv & Hra & Hp & Hle).
  eexists. split; [exact Hstep|]. split; [by eapply spreading_completes|]. intros ps net' Hps.
  destruct (deliveries_spreading _ _ _ _ _ _ _ _ _ _ Hps Hinv) as (Hinv' & Hp' & Hmono & Hle').
  split_and!.
  - intros i x Hi. destruct (sg_nodes _ _ _ _ _ _ _ Hinv' _ _ Hi) as [[_ ? _ _]|[_ ?]]; auto.
  - unfold frames in Hle'. unfold frame. fold block in Hle, Hle'. lia.
  - intros q Hq Hpay. by eapply spreading_progress.
  - intros Hno i Hl. destruct (spreading_done _ _ _ _ _ _ net' a i Hinv' Hno) as (x & Hx & [_ Hv]); [|by apply Hmono|by exists x].
    apply (rtc_congruence id (R := linked far nodes)); [|exact Hl]. intros j k. apply linked_peers. congruence.
Qed.

(** *** Slot after slot *)

(** A slot in which one node is elected and its block is delivered. *)
Inductive net_round (t : Z) (v : Ledger) (net net' : Net S) (block : Block) : Prop :=
| round_intro a now parent st st' r p ps :
    net_nodes net !! a = Some st → leads a now t v parent st p → block = next_block a now t parent st →
    (∀ tx, tx ∈ txs block → validate_transaction tx (n_store st) = Ok tt) → deliverable (net_nodes net) block →
    tick (configs a) now st = (Ok r, st') →
    deliveries configs far ps (mkNet (<[a := st']> (net_nodes net)) (net_wire net ++ new_packets far a st st')) net' →
    (∀ q, q ∈ net_wire net' → payload q ≠ to_vec (NewBlock block)) → net_round t v net net' block.

Inductive net_rounds : Z → Ledger → Net S → list Block → Net S → Prop :=
| rounds_nil t v net : net_rounds t v net [] net
| rounds_cons t v net b net1 bs net2 :
    net_round t v net net1 b → net_rounds (t + 1) (extended b t v) net1 bs net2 → net_rounds t v net (b :: bs) net2.

Definition connected (nodes : list (NodeState S)) : Prop :=
  ∀ i j, is_Some (nodes !! i) → is_Some (nodes !! j) → rtc (linked far nodes) i j.

Lemma round_agreement t v d net net' block :
  agreement (net_nodes net) (net_wire net) t v d → connected (net_nodes net) → net_round t v net net' block →
  agreement (net_nodes net') (net_wire net') (t + 1) (extended block t v) d ∧ connected (net_nodes net').
Proof.
  intros Hag Hcon [a now parent st st' r p ps Ha Hl -> Hvalid Hdel Htick Hps Hno].
  destruct (ag_nodes _ _ _ _ _ Hag _ _ Ha) as (_ & _ & Hd).
  assert (Hel : elected_net (net_nodes net) (net_wire net) a now t v parent st p) by (constructor; by rewrite ?Hd).
  destruct (elected_spreading _ _ _ _ _ _ _ _ _ Hel Hvalid Hdel) as (st1 & r1 & Htick1 & _ & _ & _ & Hsp & Hinv & Hra & Hpeers & _).
  assert (st1 = st') as -> by congruence.
  destruct (deliveries_spreading _ _ _ _ _ _ _ _ _ _ Hps Hinv) as (Hinv' & Hpeers' & Hmono & _).
  assert (Heq : n_peers <$> net_nodes net = n_peers <$> net_nodes net') by congruence.
  assert (Hlink : ∀ i j, rtc (linked far (net_nodes net)) i j → rtc (linked far (net_nodes net')) i j).
  { intros i j. apply (rtc_congruence id). intros k l. by apply linked_peers. }
  assert (Hsome : ∀ i, is_Some (net_nodes net' !! i) → is_Some (net_nodes net !! i)).
  { intros i [x Hx]. destruct (peers_lookup _ _ _ _ Heq Hx) as (y & Hy & _). by eexists. }
  split; [constructor|].
  - by apply (sg_wired _ _ _ _ _ _ _ Hinv').
  - intros q Hq. destruct (sg_wire _ _ _ _ _ _ _ Hinv' q Hq) as [[Hpay _]|[x Hx]]; [by apply Hno in Hq|by exists x].
  - intros i x Hx. destruct (spreading_done _ _ _ _ _ _ net' a i Hinv' Hno) as (y & Hy & [Hst Hv]).
    + apply Hlink, Hcon; [by eexists|]. apply Hsome. by eexists.
    + by apply Hmono.
    + assert (y = x) as -> by congruence. split_and!; [done..|].
      destruct (Hsome i) as [z Hz]; [by eexists|]. by destruct (ag_nodes _ _ _ _ _ Hag _ _ Hz) as (_ & _ & ?).
  - intros i j Hi Hj. apply Hlink, Hcon; by apply Hsome.
Qed.

(** C4: the nodes stay in agreement.  However many slots pass in a connected
    network in which every slot has one elected node and its block is delivered
    before the next slot, in whatever order its frames travel, all nodes have the
    same ledger afterwards: the chain they started from with one block per slot
    on top, and the unspent outputs these blocks lead to. *)
Theorem network_stays_in_agreement t v d net bs net' :
  agreement (net_nodes net) (net_wire net) t v d → connected (net_nodes net) → net_rounds t v net bs net' →
  ∃ v', agreement (net_nodes net') (net_wire net') (t + Z.of_nat (length bs)) v' d ∧
    utxos v' = foldl (fun u b => ledger_block b u) (utxos v) bs ∧ validators v' = validators v ∧
    (∀ i b, bs !! i = Some b → chain v' !! (t + 1 + Z.of_nat i) = Some b) ∧
    (∀ h, h ≤ t → chain v' !! h = chain v !! h).
Proof.
  intros Hag Hcon Hrounds. revert Hag Hcon. induction Hrounds as [t v net|t v net b net1 bs net2 Hround _ IH]; intros Hag Hcon.
  - exists v. cbn [length foldl]. rewrite Z.add_0_r. split_and!; [done..| |done]. intros i b. by rewrite lookup_nil.
  - destruct (round_agreement _ _ _ _ _ _ Hag Hcon Hround) as [Hag1 Hcon1].
    destruct (IH Hag1 Hcon1) as (v' & Hag' & Hu & Hvals & Hbs & Hlow). exists v'. cbn [length foldl].
    replace (t + Z.of_nat (Datatypes.S (length bs))) with (t + 1 + Z.of_nat (length bs)) by lia.
    split_and!; [done..| |].
    + intros [|i] b' Hb'; cbn in Hb'.
      * injection Hb' as <-. rewrite Hlow by lia. cbn. replace (t + 1 + Z.of_nat 0) with (t + 1) by lia. apply lookup_insert_eq.
      * apply Hbs in Hb'. by replace (t + 1 + Z.of_nat (Datatypes.S i)) with (t + 1 + 1 + Z.of_nat i) by lia.
    + intros h Hh. rewrite Hlow by lia. cbn. apply lookup_insert_ne. lia.
Qed.
End properties.
