(* ===== verification/Fork.v ===== *)
(** * Two blocks for one height

    The network of [Gossip] when two nodes have each produced a block on the same
    tip.  A node keeps the block with the lower hash, also when it has taken in
    the other one first: once the frames of that block are delivered, all
    connected nodes have it. *)

From S2P Require Import Prelude Bytes Types Consensus Store Ledger Validation Mempool DebugEvent Node.
From S2P Require Import Handler Protocol SlotTicker Reliable Gossip Flood.

(** ** One node and the two blocks *)

Section fork.
Context `{Crypto} `{CoreJson} `{Json Message} `{BuildProfile} `{HashOrder} `{UnstableSort}.
Context {S : Type} `{!BlockStore S} `{!UtxoStore S} `{!ValidatorStore S} `{!StoreLaws S} `{!Reliable S}.
Context (configs : nat → NodeConfig) (high low parent : Block) (t : Z) (v : Ledger) (d : Z).
Implicit Types (st : NodeState S) (src : SocketAddr) (tx : Sender).

(** Two blocks on the tip of [v], of which [low] has the lower hash and is still
    valid when [high] has been applied. *)
Record fork : Prop := {
  fk_high : extends_ledger high parent t v;
  fk_low : extends_ledger low parent t v;
  fk_hash : lex_lt (Block_hash low) (Block_hash high);
  fk_applies : block_applies high (utxos v);
  fk_valid : ∃ s : S, store_ok s ∧ view s = extended high t v ∧ validate_block low parent s s d = Ok tt;
}.

(** A node with neither block, and one with the block that will be given up. *)
Record undecided (i : nat) st : Prop := {
  ud_duration : slot_duration_secs (configs i) = d;
  ud_store : store_at (n_store st) t;
  ud_view : view (n_store st) = v;
  ud_unknown : unknown (Block_hash high) (n_store st) ∧ unknown (Block_hash low) (n_store st);
  ud_high : validate_block high parent (n_store st) (n_store st) d = Ok tt;
  ud_low : validate_block low parent (n_store st) (n_store st) d = Ok tt;
}.
Record on_high (i : nat) st : Prop := {
  oh_duration : slot_duration_secs (configs i) = d;
  oh_store : store_at (n_store st) (t + 1);
  oh_view : view (n_store st) = extended high t v;
  oh_unknown : unknown (Block_hash low) (n_store st);
  oh_undo : undoable high (utxos v) (n_store st);
}.
Definition unsettled (i : nat) st : Prop := undecided i st ∨ on_high i st.

(** Frames with transactions and with the other block. *)
Definition is_other (bytes : list byte) : Prop := is_tx bytes ∨ bytes = to_vec (NewBlock high).

Context (Hfork : fork).

Lemma hashes_differ : Block_hash low ≠ Block_hash high.
Proof. intros Heq. pose proof (fk_hash Hfork) as Hlt. rewrite Heq in Hlt. by rewrite lex_lt_irrefl in Hlt. Qed.

(** The store of a node that has taken in the higher block. *)
Lemma stored_high cfg (s s' : S) :
  store_at s t → view s = v → unknown (Block_hash low) s → slot_duration_secs cfg = d →
  validate_block high parent s s d = Ok tt → extend_calls high s = (Ok tt, s') →
  undoable high (utxos v) s' ∧ unknown (Block_hash low) s'.
Proof.
  intros Hst Hv Hun <- Hval He. destruct (valid_link cfg _ _ _ Hval) as [Hprev Hts].
  destruct (fk_high Hfork) as [Hh Hr Hp _]. rewrite <- Hv in Hp. split.
  - destruct (extend_calls_spec _ _ _ _ _ _ Hst Hp Hh Hprev Hts He) as (_ & _ & [(_ & _ & Hno)|(_ & _ & Hu)]); [done|].
    destruct (Hu eq_refl) as [_ Hun']. rewrite Hv in Hun'. apply Hun', Hfork.
  - unfold extend_calls, mbind, ST_bind in He. destruct (insert_block high s) as [[[]|e|] s1] eqn:Hi; [|done..].
    eapply unknown_apply; [exact He|]. eapply unknown_insert; [exact Hi|apply hashes_differ|done].
Qed.

(** The higher block is taken in by a node with neither. *)
Lemma undecided_takes_high i src tx st :
  undecided i st →
  ∃ st', peer_step (configs i) src tx (Frame (to_vec (NewBlock high))) st = (Ok true, st') ∧
    on_high i st' ∧ n_peers st' = n_peers st ∧
    ∃ es, n_effects st' = n_effects st ++ es ∧ Forall (other_effect is_other) es.
Proof.
  intros [Hd Hst Hv [Hun1 Hun2] Hval _]. pose proof (fk_high Hfork) as [Hh Hr Hp _]. rewrite <- Hv in Hp.
  destruct (accept_frame (configs i) high parent t src tx st) as (st' & Hstep & [Hc Hst' Hv' _ Hpe (ev & He)]); try done;
    [by rewrite Hd|].
  destruct (stored_high (configs i) _ _ Hst Hv Hun2 Hd Hval Hc) as [Hundo Hun'].
  exists st'. split_and!; [done| |done|].
  - constructor; try done. by rewrite Hv', Hv.
  - eexists. split; [exact He|]. apply Forall_app_2; [|by repeat constructor].
    apply Forall_forall. intros e Hin. apply list_elem_of_omap in Hin as ([a s] & _ & Hin).
    case_bool_decide; [|done]. injection Hin as <-. by right.
Qed.

(** The reorganisation of a node with the higher block. *)
Lemma reorg_reliable (s : S) :
  store_at s (t + 1) → view s = extended high t v → undoable high (utxos v) s →
  validate_block low parent s s d = Ok tt →
  ∃ s', reorg_block high low s = (Ok tt, s') ∧ store_at s' (t + 1) ∧ view s' = extended low t v.
Proof.
  intros Hst Hv Hundo Hval. pose proof Hst as (Hs & Hc & Ht). pose proof (co_nonneg _ _ Hc).
  destruct (fk_low Hfork) as [Hh Hr Hp _]. destruct (fk_high Hfork) as [Hhh _ _ _].
  apply validate_block_spec in Hval as [_ Hprev Hts _ _ _ _].
  assert (Hpar : chain (view s) !! (t + 1 - 1) = Some parent).
  { rewrite Hv. cbn. replace (t + 1 - 1) with t by lia. rewrite lookup_insert_ne by lia. done. }
  assert (Hold : chain (view s) !! (t + 1) = Some high) by (rewrite Hv; apply lookup_insert_eq).
  assert (0 ≤ t).
  { assert (is_Some (chain (view s) !! (t + 1 - 1))) as Hsome by by eexists. apply (co_range _ _ Hc) in Hsome. lia. }
  destruct (rel_rollback high s Hs) as [s1 Hr1]; [unfold u64; lia|].
  destruct (rel_insert low s1) as [s2 Hr2]. destruct (rel_apply low s2) as [s3 Hr3].
  assert (He : reorg_block high low s = (Ok tt, s3)) by (unfold reorg_block, mbind, ST_bind; by rewrite Hr1, Hr2, Hr3).
  exists s3. split; [done|].
  destruct (reorg_block_spec high low parent s (t + 1) _ _ Hst ltac:(lia) Hold Hpar Hh Hprev Hts He) as (Hs3 & Hvals & _ & Hok).
  destruct (Hok eq_refl) as [Hch Hu]. destruct (Hu _ Hundo) as [Hu' _].
  rewrite Hv in Hch, Hvals. cbn in Hch, Hvals. rewrite insert_insert_eq in Hch. split.
  - split_and!; [done| |lia]. rewrite Hch. pose proof (chain_ok_replace (chain (view s)) (t + 1) low parent ltac:(lia) Hc Hpar Hh Hprev Hts) as Hcr.
    rewrite Hv in Hcr. cbn in Hcr. by rewrite insert_insert_eq in Hcr.
  - destruct (view s3). cbn in *. by subst.
Qed.

Lemma low_still_valid (s : S) : store_ok s → view s = extended high t v → validate_block low parent s s d = Ok tt.
Proof. intros Hs Hv. destruct (fk_valid Hfork) as (s0 & Hs0 & Hv0 & Hval). eapply (blocks_agree s0 s); [done..|congruence|done]. Qed.

Lemma on_high_takes_low i src tx st :
  on_high i st →
  ∃ st', peer_step (configs i) src tx (Frame (to_vec (NewBlock low))) st = (Ok true, st') ∧
    takes_block low t v src st st'.
Proof.
  intros [Hd Hst Hv Hun Hundo]. pose proof Hst as (Hs & Hc & Ht). pose proof (co_nonneg _ _ Hc).
  destruct (fk_low Hfork) as [Hh Hr Hp Hfit]. pose proof (fk_hash Hfork) as Hlt.
  pose proof (low_still_valid _ Hs Hv) as Hval.
  destruct (reorg_reliable _ Hst Hv Hundo Hval) as (s' & He & Hst' & Hv').
  assert (Hold : chain (view (n_store st)) !! (t + 1) = Some high) by (rewrite Hv; apply lookup_insert_eq).
  assert (Hpar : chain (view (n_store st)) !! t = Some parent) by (rewrite Hv; cbn; by rewrite lookup_insert_ne by lia).
  assert (0 ≤ t).
  { assert (is_Some (chain (view (n_store st)) !! t)) as Hsome by by eexists. apply (co_range _ _ Hc) in Hsome. lia. }
  destruct (rel_tip (n_store st) Hs) as [x Htip].
  destruct (store_at_tip _ _ _ Hst Htip) as (b' & -> & Hb'). rewrite Hold in Hb'. injection Hb' as <-.
  cbn [peer_step]. unfold dispatch, reads, mbind, ST_bind. rewrite from_slice_to_vec. cbn [of_sum handle_message].
  unfold handle_new_block, store_read, read_store, reads, mbind, ST_bind.
  rewrite (unknown_hash _ _ Hun). cbn [map_err]. rewrite Htip. cbn [map_err default from_option id].
  rewrite u64_add_small, Hh by lia. rewrite (proj2 (Z.eqb_neq (t + 1) (t + 1 + 1))), Z.eqb_refl by lia.
  unfold fork_choice. rewrite bool_decide_false by apply hashes_differ.
  assert (lex_le (Block_hash high) (Block_hash low) = false) as -> by (unfold lex_le; by rewrite (proj1 (Is_true_true _) Hlt)).
  replace (saturating_sub (t + 1) 1) with t by (unfold saturating_sub; lia).
  unfold store_read, read_store, reads, mbind, ST_bind. rewrite height_view, Hpar by (done || unfold u64; lia). cbn [map_err].
  rewrite bool_decide_false by (intros Hne; apply Hne; by apply validate_block_spec in Hval as []).
  rewrite Hd, Hval. cbn [negb]. rewrite height_view, Hold by (done || unfold u64; lia). cbn [map_err ok_or].
  unfold store_call, st_map_err, on_store. rewrite He. cbn [map_err]. eexists. split; [reflexivity|].
  constructor; cbn; [by constructor|done|]. rewrite <- app_assoc. eexists. split; [|done]. by repeat constructor; eexists.
Qed.

(** A node with the lower block ignores the higher one. *)
Lemma low_ignores_high i src tx st :
  reached low t v st → peer_step (configs i) src tx (Frame (to_vec (NewBlock high))) st = (Ok true, st).
Proof.
  intros [Hst Hv]. pose proof Hst as (Hs & Hc & Ht). pose proof (co_nonneg _ _ Hc).
  destruct (fk_high Hfork) as [Hh _ _ _]. pose proof (fk_hash Hfork) as Hlt.
  assert (Hold : chain (view (n_store st)) !! (t + 1) = Some low) by (rewrite Hv; apply lookup_insert_eq).
  destruct (rel_tip (n_store st) Hs) as [x Htip].
  destruct (store_at_tip _ _ _ Hst Htip) as (b' & -> & Hb'). rewrite Hold in Hb'. injection Hb' as <-.
  cbn [peer_step]. unfold dispatch, reads, mbind, ST_bind. rewrite from_slice_to_vec. cbn [of_sum handle_message].
  unfold handle_new_block, store_read, read_store, reads, mbind, ST_bind.
  pose proof (rel_hash (Block_hash high) (n_store st)) as Hk.
  destruct (get_by_hash (Block_hash high) (n_store st)) as [[k|]|e|]; cbn [map_err]; try done.
  rewrite Htip. cbn [map_err default from_option id]. rewrite u64_add_small, Hh by lia.
  rewrite (proj2 (Z.eqb_neq (t + 1) (t + 1 + 1))), Z.eqb_refl by lia.
  unfold fork_choice. case_bool_decide as Heq; [done|].
  assert (lex_le (Block_hash low) (Block_hash high) = true) as ->; [|done].
  apply Is_true_true, lex_le_alt. by left.
Qed.

Lemma low_not_high : to_vec (NewBlock low) ≠ to_vec (NewBlock high).
Proof.
  intros Heq. pose proof (from_slice_to_vec (NewBlock low)) as Hx. rewrite Heq, from_slice_to_vec in Hx.
  apply hashes_differ. by injection Hx as ->.
Qed.

(** What a transaction changes matters to none of the phases. *)
Lemma phases_store i st st' : n_store st' = n_store st →
  (unsettled i st → unsettled i st') ∧ (reached low t v st → reached low t v st').
Proof.
  intros Hs. split; [intros [[]|[]]; [left|right]|intros []]; constructor; by rewrite ?Hs.
Qed.

Lemma unsettled_spreads : Spreads configs low t v unsettled is_other.
Proof.
  pose proof (fk_low Hfork) as [Hh Hr Hp Hfit]. constructor; try done.
  - intros i st [[_ (_ & Hc & _) _ _ _ _]|[_ _ Hv _ _]] Hlow.
    + assert (is_Some (chain (view (n_store st)) !! (t + 1))) as Hs by by eexists. apply (co_range _ _ Hc) in Hs. lia.
    + rewrite Hv in Hlow. cbn in Hlow. rewrite lookup_insert_eq in Hlow. injection Hlow as Heq.
      by apply hashes_differ; rewrite Heq.
  - intros [[tx Htx]|Heq]; [by apply (tx_not_block tx low)|by apply low_not_high].
  - intros i src tx st [[Hd Hst Hv [_ Hun] _ Hval]|Hon]; [|by apply on_high_takes_low].
    destruct (accept_frame (configs i) low parent t src tx st) as (st' & Hstep & [_ Hst' Hv' _ Hpe (ev & He)]); try done;
      [by rewrite Hv|by rewrite Hd|].
    exists st'. split; [done|]. constructor; [|done|].
    + constructor; [done|]. by rewrite Hv', Hv.
    + exists [Emit ev]. split; [by repeat constructor; eexists|done].
  - intros i src tx bytes st st' [[x ->]| ->] Hphase Hstep.
    + apply tx_frame in Hstep as (Hs & Hpe & es & He & Hes). destruct (phases_store i st st' Hs) as [Ho Hre].
      split_and!; [done..|]. exists es. split; [done|]. eapply Forall_impl; [exact Hes|].
      intros [s msg| |]; cbn; [|done..]. intros [y ->]. left. by exists y.
    + destruct Hphase as [[Hun|Hon]|Hre].
      * destruct (undecided_takes_high i src tx st Hun) as (st'' & Hstep' & Hon & Hpe & He).
        assert (st'' = st') as -> by congruence. split_and!; [done|intros _; by right| |done].
        intros Hre. exfalso. destruct Hun as [_ (_ & Hc & _) _ _ _ _]. destruct Hre as [(_ & Hc' & _) _].
        pose proof (is_tip_unique _ _ _ (chain_ok_tip _ _ Hc) (chain_ok_tip _ _ Hc')). lia.
      * rewrite (duplicate_frame (configs i) high t src tx st) in Hstep; [|apply Hon|by rewrite (oh_view _ _ Hon); apply lookup_insert_eq|apply (fk_high Hfork)].
        injection Hstep as <-. split_and!; [done..|]. exists []. by rewrite app_nil_r.
      * rewrite low_ignores_high in Hstep by done. injection Hstep as <-. split_and!; [done..|]. exists []. by rewrite app_nil_r.
Qed.
End fork.

(** ** The property *)

Section properties.
Context `{Crypto} `{CoreJson} `{Json Message} `{BuildProfile} `{HashOrder} `{UnstableSort}.
Context {S : Type} `{!BlockStore S} `{!UtxoStore S} `{!ValidatorStore S} `{!StoreLaws S} `{!Reliable S}.
Context (configs : nat → NodeConfig) (far : nat → Sender → option (nat * SocketAddr)).
Implicit Types (nodes : list (NodeState S)).

(** Node [a] is elected for the slot of [now] and can produce its block. *)
Record produces_block (nodes : list (NodeState S)) (a : nat) (now t : Z) (v : Ledger) (parent : Block)
    (st st' : NodeState S) : Prop := {
  pb_node : nodes !! a = Some st;
  pb_leads : ∃ p, leads configs a now t v parent st p;
  pb_valid tx : tx ∈ txs (next_block configs a now t parent st) → validate_transaction tx (n_store st) = Ok tt;
  pb_deliverable : deliverable nodes (next_block configs a now t parent st);
  pb_tick : ∃ r, tick (configs a) now st = (Ok r, st');
}.

(** What the slot of a producer leads to. *)
Lemma produced nodes wire a now t v d parent st st' :
  agreement configs far nodes wire t v d → produces_block nodes a now t v parent st st' →
  let block := next_block configs a now t parent st in
  extends_ledger block parent t v ∧ validate_block block parent (n_store st) (n_store st) d = Ok tt ∧
  extend_calls block (n_store st) = (Ok tt, n_store st') ∧
  store_at (n_store st') (t + 1) ∧ view (n_store st') = extended block t v ∧ n_peers st' = n_peers st ∧
  ∃ es1 es2, n_effects st' = n_effects st ++ es1 ++ AnnounceBlock block :: es2 ∧ only_emits es1 ∧ only_emits es2.
Proof.
  intros [_ _ Hagree] [Ha [p [Hpar Ht [Hr Hts] Hel Hkey]] Hvalid [Hfits _] [r Htick]] block.
  destruct (Hagree _ _ Ha) as (Hst & Hv & Hd). pose proof Hst as (Hs & Hc & _). pose proof (co_nonneg _ _ Hc).
  assert (Hparent : chain (view (n_store st)) !! t = Some parent) by by rewrite Hv.
  pose proof (co_height _ _ Hc _ _ Hparent) as Hh.
  assert (Hval : validate_block block parent (n_store st) (n_store st) (slot_duration_secs (configs a)) = Ok tt).
  { unfold block, next_block. rewrite <- Hh. eapply (made_block_valid (configs a)); try done; [lia|lia|apply Hel|apply Hel|by rewrite Hv]. }
  destruct (tick_produces (configs a) now t parent p st Hst Hparent Ht Hr Hel Hts Hval)
    as (r' & st1 & es1 & es2 & Htick1 & Hcalls & Hst' & Hview & _ & Hp & He & He1 & He2).
  assert (st1 = st') as -> by congruence. fold (next_block configs a now t parent st) in Hcalls, Hview, He.
  rewrite Hv in Hview. rewrite <- Hd. split_and!; try done. by exists es1, es2.
Qed.

(** C5: a fork is settled.  Two nodes of a network in agreement have each produced
    a block on the same tip, in slots of which neither had seen the other's block.
    If the block with the lower hash is still valid after the other one, then
    under every order in which the frames of both blocks, and of transactions,
    are delivered, at most one frame with the lower block is read per end of a
    connection, its deliveries can be completed, and once none is left every node
    connected to its producer, whether it had taken in the other block
    or not, has the ledger with the lower block. *)
Theorem fork_settles nodes wire a b nowa nowb t v d parent sta stb sta' stb' :
  agreement configs far nodes wire t v d → a ≠ b →
  produces_block nodes a nowa t v parent sta sta' → produces_block nodes b nowb t v parent stb stb' →
  let high := next_block configs a nowa t parent sta in
  let low := next_block configs b nowb t parent stb in
  let frame := to_vec (NewBlock low) in
  lex_lt (Block_hash low) (Block_hash high) → block_applies high (utxos v) →
  validate_block low parent (n_store sta') (n_store sta') d = Ok tt →
  ∀ wire', wire' ≡ₚ wire ++ new_packets far a sta sta' ++ new_packets far b stb stb' →
  let net := mkNet (<[b := stb']> (<[a := sta']> nodes)) wire' in
  (∃ ps net', deliveries configs far ps net net' ∧ ∀ q, q ∈ net_wire net' → payload q ≠ frame) ∧
  ∀ ps net', deliveries configs far ps net net' →
    (length (filter (fun q => payload q = frame) ps) ≤ connections nodes)%nat ∧
    ((∀ q, q ∈ net_wire net' → payload q ≠ frame) → ∀ i, rtc (linked far nodes) b i →
       ∃ x, net_nodes net' !! i = Some x ∧ view (n_store x) = extended low t v).
Proof.
  intros Hag Hab Ha Hb high low frame Hlt Happ Hlow wire' Hwire net.
  destruct (produced _ _ _ _ _ _ _ _ _ _ Hag Ha) as (Hxa & Hva & Hca & Hsta & Hviewa & Hpa & esa1 & esa2 & Hea & Hea1 & Hea2).
  destruct (produced _ _ _ _ _ _ _ _ _ _ Hag Hb) as (Hxb & Hvb & Hcb & Hstb & Hviewb & Hpb & esb1 & esb2 & Heb & Heb1 & Heb2).
  fold high in Hxa, Hva, Hca, Hviewa, Hea. fold low in Hxb, Hvb, Hcb, Hviewb, Heb.
  assert (Hfork : fork (S := S) high low parent t v d).
  { constructor; try done. exists (n_store sta'). split_and!; [apply Hsta|done..]. }
  pose proof Ha as [Hna _ _ [_ Hunka] _]. pose proof Hb as [Hnb _ _ [_ Hunkb] _].
  fold high in Hunka. fold low in Hunkb.
  pose proof (unsettled_spreads configs _ _ _ _ _ _ Hfork) as Hspreads.
  assert (Hpeers1 : n_peers <$> nodes = n_peers <$> <[a := sta']> nodes) by by apply (peers_insert _ _ sta).
  destruct (announce_spreading configs far low t v (unsettled configs high low parent t v d) (is_other high)
    (<[a := sta']> nodes) (wire ++ new_packets far a sta sta') wire' b stb stb' esb1 esb2) as (Hinv & Hreach & Hpeers & Hpend); try done.
  - by apply (wired_peers _ nodes), Hag.
  - by rewrite list_lookup_insert_ne.
  - intros i x [(<- & <- & _)|(Hne & Hi)]%list_lookup_insert_Some Hib.
    + right. destruct (ag_nodes _ _ _ _ _ _ _ Hag _ _ Hna) as (Hst & Hv & Hd).
      destruct (stored_high high low parent t v d Hfork (configs a) _ _ Hst Hv (Hunkb _ _ Hna) Hd Hva Hca) as [Hundo Hun].
      by constructor.
    + left. destruct (ag_nodes _ _ _ _ _ _ _ Hag _ _ Hi) as (Hst & Hv & Hd).
      destruct (ag_nodes _ _ _ _ _ _ _ Hag _ _ Hna) as (Hst1 & Hv1 & _).
      destruct (ag_nodes _ _ _ _ _ _ _ Hag _ _ Hnb) as (Hst2 & Hv2 & _).
      constructor; try done; [by split; eauto| |].
      * apply (blocks_agree (n_store sta) (n_store x)); [apply Hst1|apply Hst|congruence|done].
      * apply (blocks_agree (n_store stb) (n_store x)); [apply Hst2|apply Hst|congruence|done].
  - intros q [Hq|Hq]%elem_of_app; [left; destruct (ag_wire _ _ _ _ _ _ _ Hag q Hq) as [x Hx]; by exists x|].
    rewrite (new_packets_app _ _ _ _ _ Hea), bind_app, (emits_packets _ _ _ esa1 Hea1) in Hq. cbn in Hq.
    rewrite (emits_packets _ _ _ esa2 Hea2), app_nil_r in Hq. apply list_elem_of_bind in Hq as (at_ & Hq & _).
    right. by apply written_to_payload in Hq.
  - by rewrite Hwire, <- app_assoc.
  - fold net in Hinv, Hreach, Hpeers, Hpend. split; [by eapply spreading_completes|]. intros ps net' Hps.
    destruct (deliveries_spreading _ _ _ _ _ _ _ _ _ _ Hps Hinv) as (Hinv' & Hp' & Hmono & Hle'). split.
    + assert (connections (<[a := sta']> nodes) = connections nodes) as Hcon.
      { unfold connections. f_equal. transitivity (size <$> (n_peers <$> <[a := sta']> nodes)); [by rewrite <- list_fmap_compose|].
        rewrite <- Hpeers1. by rewrite <- list_fmap_compose. }
      unfold frames in Hle'. unfold frame. lia.
    + intros Hno i Hl. destruct (spreading_done _ _ _ _ _ _ net' b i Hinv' Hno) as (x & Hx & [_ Hv]); [|by apply Hmono|by exists x].
      apply (rtc_congruence id (R := linked far nodes)); [|exact Hl]. intros j k. apply linked_peers. congruence.
Qed.
End properties.
