(* ===== verification/Ibd.v ===== *)
(** * Initial block download ([bcc-node/src/ibd.rs])

    The download loop over the bootstrap peers.  What a peer does is an input of
    the model: connection attempts, and within a connection the outcome of each
    request.  The theorems give the end of the loop without answers, the
    composition with an honest peer's [GetBlocks] handler, what the greeting and
    the frames of a running node add to it, and what a dishonest peer can do. *)

From S2P Require Import Prelude Bytes Types Store Ledger Validation Mempool DebugEvent Node Handler.
From S2P Require Import Protocol.

Definition MAX_CONSECUTIVE_TIMEOUTS : nat := 3.
Definition BLOCKS_PER_REQUEST : Z := 256.
Definition MAX_IBD_RETRIES : nat := 5.

(** The local variables of [run_ibd]. *)
Record IbdLoop := mkIbdLoop {
  initial_from_height : Z;
  from_height : Z;
  peer_idx : nat;
  consecutive_timeouts : nat;
  retry_count : nat;
}.

Definition set_from (h : Z) (l : IbdLoop) : IbdLoop :=
  mkIbdLoop (initial_from_height l) h (peer_idx l) (consecutive_timeouts l) (retry_count l).
Definition set_timeouts (n : nat) (l : IbdLoop) : IbdLoop :=
  mkIbdLoop (initial_from_height l) (from_height l) (peer_idx l) n (retry_count l).
(** [peer_idx += 1] *)
Definition next_peer (l : IbdLoop) : IbdLoop :=
  mkIbdLoop (initial_from_height l) (from_height l) (S (peer_idx l)) (consecutive_timeouts l)
    (retry_count l).
(** The retry branch: from the first peer again. *)
Definition retry (l : IbdLoop) : IbdLoop :=
  mkIbdLoop (initial_from_height l) (from_height l) 0 0 (S (retry_count l)).

(** One turn of the inner loop, as the environment decides it. *)
Inductive IbdEvent :=
| IsCancelled
| SendFailed
| BatchTimeout
| PeerClosed
| BadFrame (e : string)
| Response (bytes : list byte).

(** A connection attempt and the events of the connection. *)
Inductive Attempt :=
| Refused
| Accepted (events : list IbdEvent).

(** How a turn of the inner loop ends: it goes on ([continue]), it is left for
    the next peer ([break]), or [run_ibd] returns. *)
Inductive Turn :=
| Again
| NextPeer
| Return (r : Res NodeError unit).

Section ibd.
Context `{Crypto} `{CoreJson} `{Json Message} `{BuildProfile}.
Context {S : Type} `{!BlockStore S} `{!UtxoStore S} `{!ValidatorStore S}.
Context (config : NodeConfig).

(** ** Operations *)

(** The parent lookup and the validation of a block above height 0. *)
Definition check_block (block : Block) : ST S NodeError unit :=
  if 0 <? height (header block) then
    let parent_h := height (header block) - 1 in
    parent_opt ← reads (fun s => map_err NodeStore (get_by_height parent_h s));
    parent ← reads (fun _ => ok_or (NodeP2p ("IBD: parent block at height " +:+ pretty parent_h
                                      +:+ " not found")) parent_opt);
    reads (fun s => map_err
      (fun e => NodeValidation ("IBD: invalid block at height " +:+ pretty (height (header block))
                  +:+ ": " +:+ BlockValidationError_to_string e))
      (validate_block block parent s s (slot_duration_secs config)))
  else mret tt.

(** One iteration of [for block in &blocks]. *)
Definition sync_block (block : Block) : ST S NodeError unit :=
  _ ← check_block block;
  _ ← st_map_err NodeStore (insert_block block);
  st_map_err NodeStore (apply_block block).

Fixpoint sync_blocks (blocks : list Block) : ST S NodeError unit :=
  match blocks with
  | [] => mret tt
  | block :: blocks' => _ ← sync_block block; sync_blocks blocks'
  end.

(** The branch of a non-empty [Blocks] response. *)
Definition receive_blocks (blocks : list Block) (last : Block) (l : IbdLoop) (s : S) :
    Turn * IbdLoop * S :=
  match sync_blocks blocks s with
  | (Ok _, s') =>
      match u64_add (E := NodeError) (height (header last)) 1 with
      | Ok next =>
          let l := set_from next l in
          if Z.of_nat (length blocks) <? BLOCKS_PER_REQUEST then (Return (Ok tt), l, s')
          else (Again, l, s')
      | Err e => (Return (Err e), l, s')
      | Panic => (Return Panic, l, s')
      end
  | (Err e, s') => (Return (Err e), l, s')
  | (Panic, s') => (Return Panic, l, s')
  end.

(** One turn of the inner loop: the check for cancellation, the request for
    [from_height l], and the handling of what comes back. *)
Definition session_turn (ev : IbdEvent) (l : IbdLoop) (s : S) : Turn * IbdLoop * S :=
  match ev with
  | IsCancelled => (Return (Err NodeShutdown), l, s)
  | SendFailed | PeerClosed | BadFrame _ => (NextPeer, next_peer l, s)
  | BatchTimeout =>
      let n := Datatypes.S (consecutive_timeouts l) in
      if (MAX_CONSECUTIVE_TIMEOUTS <=? n)%nat
      then (NextPeer, set_timeouts 0 (next_peer l), s)
      else (Again, set_timeouts n l, s)
  | Response bytes =>
      let l := set_timeouts 0 l in
      match from_slice bytes with
      | inl _ => (Again, l, s)
      | inr (Blocks blocks) =>
          match last blocks with
          | None => (Return (Ok tt), l, s)
          | Some b => receive_blocks blocks b l s
          end
      | inr _ => (Again, l, s)
      end
  end.

(** The inner loop: [None] for events that run out before it is left. *)
Fixpoint session (events : list IbdEvent) (l : IbdLoop) (s : S) : option Turn * IbdLoop * S :=
  match events with
  | [] => (None, l, s)
  | ev :: events' =>
      match session_turn ev l s with
      | (Again, l', s') => session events' l' s'
      | (t, l', s') => (Some t, l', s')
      end
  end.

(** The head of the outer loop: the next peer to dial, a retry when nothing was
    downloaded yet, or [None] when all peers are exhausted. *)
Definition choose_peer (n_peers : nat) (l : IbdLoop) : option IbdLoop :=
  if (n_peers <=? peer_idx l)%nat then
    if (from_height l =? initial_from_height l) && (retry_count l <? MAX_IBD_RETRIES)%nat
    then Some (retry l)
    else None
  else Some l.

(** The outer loop over the connection attempts. *)
Fixpoint ibd_loop (n_peers : nat) (attempts : list Attempt) (l : IbdLoop) (s : S) :
    option (Res NodeError unit) * S :=
  match choose_peer n_peers l with
  | None => (Some (Ok tt), s)
  | Some l =>
      match attempts with
      | [] => (None, s)
      | Refused :: attempts' => ibd_loop n_peers attempts' (next_peer l) s
      | Accepted events :: attempts' =>
          match session events l s with
          | (Some (Return r), _, s') => (Some r, s')
          | (Some _, l', s') => ibd_loop n_peers attempts' l' s'
          | (None, _, s') => (None, s')
          end
      end
  end.

Definition run_ibd (attempts : list Attempt) (s : S) : option (Res NodeError unit) * S :=
  match bootstrap_peers config with
  | [] => (Some (Ok tt), s)
  | peers =>
      match tip s with
      | Ok t =>
          match u64_add (E := NodeError) (default 0 (fst <$> t)) 1 with
          | Ok from => ibd_loop (length peers) attempts (mkIbdLoop from from 0 0 0) s
          | Err e => (Some (Err e), s)
          | Panic => (Some Panic, s)
          end
      | Err e => (Some (Err (NodeStore e)), s)
      | Panic => (Some Panic, s)
      end
  end.

End ibd.

(** The answer of a node to [GetBlocks from_height]: the message its handler puts
    on the connection's channel. *)
Definition answer `{Crypto} `{CoreJson} `{Json Message} `{BuildProfile} `{HashOrder} `{UnstableSort}
    {S : Type} `{!BlockStore S} `{!UtxoStore S} `{!ValidatorStore S} (config : NodeConfig)
    (client : SocketAddr) (channel : Sender) (from : Z) (server : NodeState S) : option Message :=
  match handle_message config (GetBlocks from) client channel server with
  | (Ok _, server') =>
      match drop (length (n_effects server)) (n_effects server') with
      | [TrySend _ msg] => Some msg
      | _ => None
      end
  | _ => None
  end.

(** ** The loop without answers *)

Section exhaustion.
Context `{Crypto} `{CoreJson} `{Json Message} `{BuildProfile}.
Context {S : Type} `{!BlockStore S} `{!UtxoStore S} `{!ValidatorStore S}.
Context (config : NodeConfig).

(** The connection attempts left when nothing gets downloaded. *)
Definition attempts_left (n : nat) (l : IbdLoop) : nat :=
  (MAX_IBD_RETRIES - retry_count l) * n + (n - peer_idx l).

(** An attempt that brings nothing: refused, or a connection that ends without an
    answer and without time-outs. *)
Definition fruitless (from : Z) (s : S) (a : Attempt) : Prop :=
  match a with
  | Refused => True
  | Accepted events => ∀ l, from_height l = from → consecutive_timeouts l = 0%nat →
      session config events l s = (Some NextPeer, next_peer l, s)
  end.

Lemma ibd_loop_fruitless_cons n a attempts l l' (s : S) :
  fruitless (from_height l) s a → consecutive_timeouts l = 0%nat → choose_peer n l = Some l' →
  ibd_loop config n (a :: attempts) l s = ibd_loop config n attempts (next_peer l') s.
Proof.
  intros Ha Ht Hl. cbn [ibd_loop]. rewrite Hl. destruct a as [|events]; [done|].
  assert (from_height l' = from_height l ∧ consecutive_timeouts l' = 0%nat) as [Hf Ht'].
  { unfold choose_peer in Hl. break_hyp Hl; try done; injection Hl as <-; done. }
  by rewrite Ha.
Qed.

Lemma ibd_loop_fruitless n attempts l (s : S) :
  (0 < n)%nat → from_height l = initial_from_height l → (peer_idx l ≤ n)%nat →
  (retry_count l ≤ MAX_IBD_RETRIES)%nat → consecutive_timeouts l = 0%nat →
  Forall (fruitless (from_height l) s) attempts →
  ibd_loop config n attempts l s =
    (if (attempts_left n l <=? length attempts)%nat then Some (Ok tt) else None, s).
Proof.
  intros Hn. revert l. induction attempts as [|a attempts IH]; intros l Hf Hi Hr Ht Ha; cbn [length].
  { cbn [ibd_loop]. unfold choose_peer, attempts_left. rewrite Hf, Z.eqb_refl. cbn [andb].
    destruct (Nat.leb_spec n (peer_idx l)), (Nat.ltb_spec (retry_count l) MAX_IBD_RETRIES);
      match goal with |- context [(?a <=? ?b)%nat] => destruct (Nat.leb_spec a b) end; done || (exfalso; nia). }
  apply Forall_cons in Ha as [Ha Has]. destruct (choose_peer n l) as [l'|] eqn:Hl.
  - rewrite (ibd_loop_fruitless_cons _ _ _ l l') by done.
    unfold choose_peer in Hl. rewrite Hf, Z.eqb_refl in Hl. cbn [andb] in Hl.
    destruct (Nat.leb_spec n (peer_idx l)), (Nat.ltb_spec (retry_count l) MAX_IBD_RETRIES);
      simplify_eq; rewrite IH by (cbn; (done || lia)); unfold attempts_left; cbn [peer_idx retry_count next_peer retry];
      repeat match goal with |- context [(?a <=? ?b)%nat] => destruct (Nat.leb_spec a b) end;
      done || (exfalso; nia).
  - cbn [ibd_loop]. rewrite Hl. unfold choose_peer in Hl. rewrite Hf, Z.eqb_refl in Hl. cbn [andb] in Hl.
    unfold attempts_left.
    destruct (Nat.leb_spec n (peer_idx l)), (Nat.ltb_spec (retry_count l) MAX_IBD_RETRIES); try done.
    match goal with |- context [(?a <=? ?b)%nat] => destruct (Nat.leb_spec a b) end; done || (exfalso; nia).
Qed.

(** A run of fruitless attempts. *)
Lemma run_ibd_fruitless attempts (s : S) t :
  bootstrap_peers config ≠ [] → tip s = Ok t → u64 (default 0 (fst <$> t) + 1) →
  Forall (fruitless (default 0 (fst <$> t) + 1) s) attempts →
  run_ibd config attempts s =
    (if (6 * length (bootstrap_peers config) <=? length attempts)%nat then Some (Ok tt) else None, s).
Proof.
  intros Hp Ht Hu Ha. unfold run_ibd. destruct (bootstrap_peers config) as [|p ps] eqn:Hps; [done|].
  rewrite Ht, u64_add_Ok by done.
  rewrite ibd_loop_fruitless; [|cbn [length]; lia|done|cbn [peer_idx]; lia|cbn [retry_count]; lia|done|done].
  unfold attempts_left. cbn [retry_count peer_idx]. unfold MAX_IBD_RETRIES.
  by replace ((5 - 0) * length (p :: ps) + (length (p :: ps) - 0))%nat
    with (6 * length (p :: ps))%nat by lia.
Qed.
End exhaustion.

(** ** The blocks of an answer *)

Section answers.
Context `{Crypto} `{CoreJson}.

(** The blocks of a well-formed chain from a height on, one by one. *)
Lemma chain_range_seq c t h bs :
  chain_ok c t → 0 ≤ h ≤ t + 1 → chain_range c h bs →
  Z.of_nat (length bs) = t + 1 - h ∧
  ∀ i b, bs !! i = Some b → c !! (h + Z.of_nat i) = Some b.
Proof.
  intros Hc Hh (l & -> & Hp & Hs).
  assert (Hin : ∀ k b, (k, b) ∈ l ↔ h ≤ k ∧ c !! k = Some b).
  { intros k b. by rewrite Hp, list_elem_of_filter, elem_of_map_to_list. }
  assert (Hnd : NoDup l.*1).
  { apply NoDup_fmap_fst; [intros k b1 b2 [_ ?]%Hin [_ ?]%Hin; congruence|].
    rewrite Hp. apply NoDup_filter, NoDup_map_to_list. }
  assert (Hkeys : l.*1 = seqZ h (t + 1 - h)).
  { apply (StronglySorted_unique Z.le).
    - apply StronglySorted_fmap_2. exact Hs.
    - apply StronglySorted_seqZ.
    - apply NoDup_Permutation; [done|apply NoDup_seqZ|]. intros k. rewrite elem_of_seqZ.
      rewrite list_elem_of_fmap. split.
      + intros ([k' b] & -> & [? Hb]%Hin). assert (is_Some (c !! k')) as Hk by by eexists.
        apply (co_range _ _ Hc) in Hk. cbn. lia.
      + intros Hk. destruct (proj2 (co_range _ _ Hc k)) as [b Hb]; [lia|].
        exists (k, b). split; [done|]. apply Hin. split; [lia|done]. }
  split.
  - rewrite length_fmap. apply (f_equal length) in Hkeys. rewrite length_fmap, length_seqZ in Hkeys. lia.
  - intros i b Hb. rewrite list_lookup_fmap in Hb. destruct (l !! i) as [[k b']|] eqn:Hl; [|done].
    injection Hb as ->. assert (Hk : l.*1 !! i = Some k) by by rewrite list_lookup_fmap, Hl.
    rewrite Hkeys in Hk. apply lookup_seqZ in Hk as [-> _].
    by apply list_elem_of_lookup_2, Hin in Hl as [_ ?].
Qed.
End answers.

Section serving.
Context `{Crypto} `{CoreJson} `{Json Message} `{BuildProfile} `{HashOrder} `{UnstableSort}.
Context {S : Type} `{!BlockStore S} `{!UtxoStore S} `{!ValidatorStore S} `{!StoreLaws S}.
Context (config : NodeConfig) (client : SocketAddr) (channel : Sender).

(** What an honest node answers: the next 256 blocks, or all that are left. *)
Lemma answer_spec (server : NodeState S) t h :
  store_at (n_store server) t → 0 ≤ h ≤ t + 1 → (∃ bs, iter_from h (n_store server) = Ok bs) →
  ∃ batch, answer config client channel h server = Some (Blocks batch) ∧
    Z.of_nat (length batch) = Z.min 256 (t + 1 - h) ∧
    ∀ i b, batch !! i = Some b → chain (view (n_store server)) !! (h + Z.of_nat i) = Some b.
Proof.
  intros (Hs & Hc & Ht) Hh [bs Hbs]. exists (take 256 bs).
  assert (Hr : chain_range (chain (view (n_store server))) h bs).
  { apply (iter_law (n_store server)); [done|unfold u64; lia|done]. }
  destruct (chain_range_seq _ _ _ _ Hc Hh Hr) as [Hlen Hlook]. split_and!.
  - unfold answer. cbn [handle_message]. unfold handle_get_blocks, store_read, read_store, reads,
      try_send, modifies, mbind, ST_bind. rewrite Hbs. cbn [map_err]. unfold perform.
    cbn [n_effects]. rewrite drop_app_length. done.
  - rewrite length_take. lia.
  - intros i b Hb. apply lookup_take_Some in Hb as [Hb _]. auto.
Qed.
End serving.

(** ** Applying the blocks of an honest peer *)

Section syncing.
Context `{Crypto} `{CoreJson} `{Json Message} `{BuildProfile}.
Context {S : Type} `{!BlockStore S} `{!UtxoStore S} `{!ValidatorStore S} `{!StoreLaws S}.
Context (config : NodeConfig).
Implicit Types (c : gmap Z Block) (s : S).

(** A store whose chain is the part of [c] up to height [t]. *)
Definition synced (c : gmap Z Block) (s : S) (t : Z) : Prop :=
  store_at s t ∧ ∀ h, 0 ≤ h ≤ t → chain (view s) !! h = c !! h.

(** The unspent outputs are those of the chain. *)
Definition replayed (s : S) (t : Z) : Prop :=
  utxos (view s) = replay_below (chain (view s)) (t + 1).

(** The call that ends the download early: on a block of [c], it failed. *)
Definition sync_failed (c : gmap Z Block) (r : Res NodeError unit) (s' : S) : Prop :=
  ∃ h b s, c !! h = Some b ∧ sync_block config b s = (r, s').

Lemma check_block_state b s r s' : check_block config b s = (r, s') → s' = s.
Proof.
  unfold check_block, reads, mret, ST_ret, mbind, ST_bind. intros Hr.
  break_hyp Hr; congruence.
Qed.

Lemma check_block_Ok b s t s' :
  store_at s t → height (header b) = t + 1 → check_block config b s = (Ok tt, s') →
  ∃ p, chain (view s) !! t = Some p ∧ prev_hash (header b) = Block_hash p ∧
    timestamp (header p) ≤ timestamp (header b).
Proof.
  intros Hs Hb. pose proof Hs as (_ & Hc & _). pose proof (co_nonneg _ _ Hc). unfold check_block.
  rewrite (proj2 (Z.ltb_lt _ _)) by lia. intros (x & s1 & Hg & Hr)%st_bind_Ok.
  injection Hg as Hg <-. rewrite Hb in Hg. replace (t + 1 - 1) with t in Hg by lia.
  apply map_err_Ok, (get_height_at _ t) in Hg as (p & -> & Hp); [|done|lia].
  apply st_bind_Ok in Hr as (p' & s1 & Hp' & Hr). injection Hp' as <- <-.
  injection Hr as Hv <-. apply map_err_Ok in Hv. exists p. split; [done|]. by eapply valid_link.
Qed.

Lemma sync_block_spec c b s t r s' :
  synced c s t → replayed s t → c !! (t + 1) = Some b → height (header b) = t + 1 →
  t + 2 < 2 ^ 64 → sync_block config b s = (r, s') →
  ∃ t', t ≤ t' ≤ t + 1 ∧ synced c s' t' ∧ validators (view s') = validators (view s) ∧
    (r = Ok tt → t' = t + 1 ∧ replayed s' t').
Proof.
  intros [Hs Hpre] Hu Hcb Hb Ht. pose proof Hs as (Hok & Hc & _). pose proof (co_nonneg _ _ Hc).
  assert (Hstay : ∃ t', t ≤ t' ≤ t + 1 ∧ synced c s t' ∧ validators (view s) = validators (view s) ∧
    (∀ r, r ≠ Ok tt → r = @Ok NodeError unit tt → t' = t + 1 ∧ replayed s t')).
  { exists t. split_and!; [lia..|by split|done|naive_solver]. }
  unfold sync_block, mbind at 1, ST_bind at 1.
  destruct (check_block config b s) as [r0 s0] eqn:Hch.
  pose proof (check_block_state _ _ _ _ Hch) as ->.
  destruct r0 as [[]|e|];
    [|intros [= <- <-]; destruct Hstay as (t' & ? & ? & ? & Hne); exists t'; naive_solver..].
  apply (check_block_Ok _ _ t) in Hch as (p & Hp & Hprev & Hts); [|done..].
  assert (Hcalls : ∀ (m : ST S StoreError unit) r s', (_ ← st_map_err NodeStore (insert_block b);
      st_map_err NodeStore (apply_block b)) s = (r, s') →
    ∃ r0, extend_calls b s = (r0, s') ∧ r = map_err NodeStore r0).
  { intros _ r1 s1. unfold extend_calls, st_map_err, mbind, ST_bind.
    destruct (insert_block b s) as [[[]|e|] s2]; cbn; [|intros [= <- <-]; by eexists..].
    destruct (apply_block b s2) as [r2 s3]. intros [= <- <-]. by eexists. }
  intros (r0 & He & ->)%(Hcalls (extend_calls b)).
  apply (extend_calls_spec b p s t) in He as (Hok' & Hv & [(Hc' & _ & Hne)|(Hc' & _ & Hr)]);
    [| |done..].
  - exists t. split_and!; [lia..| |done|by destruct r0 as [[]| |]].
    split; [|by rewrite Hc']. split; [done|]. rewrite Hc'. by split; [|lia].
  - exists (t + 1). split_and!; [lia..| |done|].
    + split; [split; [done|]; split; [|lia]; rewrite Hc'; by eapply chain_ok_extend|].
      intros h Hh. rewrite Hc'. destruct (decide (h = t + 1)) as [->|Hne].
      * by rewrite lookup_insert_eq.
      * rewrite lookup_insert_ne by done. apply Hpre. lia.
    + intros Hr0. split; [done|]. destruct r0 as [[]| |]; [|done..].
      destruct (Hr eq_refl) as [Hu' _]. unfold replayed in *. rewrite Hu', Hu, Hc'.
      rewrite (replay_below_succ _ (t + 1) b) by (lia || apply lookup_insert_eq).
      f_equal. apply replay_below_ext. intros h Hh. by rewrite lookup_insert_ne by lia.
Qed.

Lemma sync_blocks_spec c bs s t r s' :
  synced c s t → replayed s t → t + 1 + Z.of_nat (length bs) < 2 ^ 64 →
  (∀ h b, c !! h = Some b → height (header b) = h) →
  (∀ i b, bs !! i = Some b → c !! (t + 1 + Z.of_nat i) = Some b) →
  sync_blocks config bs s = (r, s') →
  ∃ t', t ≤ t' ≤ t + Z.of_nat (length bs) ∧ synced c s' t' ∧
    validators (view s') = validators (view s) ∧
    (r = Ok tt → t' = t + Z.of_nat (length bs) ∧ replayed s' t') ∧
    (r ≠ Ok tt → sync_failed c r s').
Proof.
  intros Hs Hu Hlen Hheights. revert s t Hs Hu Hlen.
  induction bs as [|b bs IH]; intros s t Hs Hu Hlen Hbs; cbn [sync_blocks length] in *.
  - intros [= <- <-]. exists t. replace (t + Z.of_nat 0) with t by lia. naive_solver lia.
  - assert (Hb : c !! (t + 1) = Some b).
    { specialize (Hbs 0%nat b eq_refl). by replace (t + 1 + Z.of_nat 0) with (t + 1) in Hbs by lia. }
    unfold mbind, ST_bind. destruct (sync_block config b s) as [r1 s1] eqn:H1b.
    pose proof H1b as (t1 & Ht1 & Hs1 & Hv1 & Hr1)%(sync_block_spec c _ _ t);
      [|done|done|done|by apply Hheights|lia].
    destruct r1 as [[]|e|].
    + destruct (Hr1 eq_refl) as [-> Hu1]. intros Hr.
      apply (IH s1 (t + 1)) in Hr as (t' & Ht' & Hs' & Hv' & Hok & Hfail); [|done|done|lia|].
      * exists t'. rewrite Hv', Hv1. split_and!; [lia..|done|done| |done].
        intros Hr. destruct (Hok Hr) as [-> ?]. split; [lia|]. done.
      * intros i b' Hb'. specialize (Hbs (Datatypes.S i) b' Hb').
        by replace (t + 1 + 1 + Z.of_nat i) with (t + 1 + Z.of_nat (Datatypes.S i)) by lia.
    + intros [= <- <-]. exists t1. split_and!; [lia..|done|done|done|]. intros _. by exists (t + 1), b, s.
    + intros [= <- <-]. exists t1. split_and!; [lia..|done|done|done|]. intros _. by exists (t + 1), b, s.
Qed.
End syncing.

(** ** A download from an honest peer *)

Section download.
Context `{Crypto} `{CoreJson} `{Json Message} `{BuildProfile} `{HashOrder} `{UnstableSort}.
Context {S1 : Type} `{!BlockStore S1} `{!UtxoStore S1} `{!ValidatorStore S1} `{!StoreLaws S1}.
Context {S2 : Type} `{!BlockStore S2} `{!UtxoStore S2} `{!ValidatorStore S2} `{!StoreLaws S2}.
Context (config peer_config : NodeConfig) (client : SocketAddr) (channel : Sender).
Context (server : NodeState S2).


(** The outcome of a download towards the chain [c] of height [t2]. *)
Definition download_outcome (c : gmap Z Block) (t t2 : Z) (s : S1) (r : Res NodeError unit)
    (s' : S1) : Prop :=
  ∃ t', t ≤ t' ≤ t2 ∧ synced c s' t' ∧ validators (view s') = validators (view s) ∧
    (r = Ok tt → t' = t2 ∧ replayed s' t') ∧ (r ≠ Ok tt → sync_failed config c r s').

Context (t2 : Z) (Hserver : store_at (n_store server) t2).
Context (Hreads : ∀ h, ∃ bs, iter_from h (n_store server) = Ok bs).
Notation c := (chain (view (n_store server))).

(** One answer: the download ends, or it goes on 256 blocks further. *)
Lemma honest_turn l s t :
  synced c s t → replayed s t → t ≤ t2 → from_height l = t + 1 →
  ∃ msg, answer peer_config client channel (from_height l) server = Some msg ∧
    match session_turn config (Response (to_vec msg)) l s with
    | (Again, l', s') => from_height l' = t + 256 + 1 ∧ t + 256 ≤ t2 ∧
        synced c s' (t + 256) ∧ replayed s' (t + 256) ∧ validators (view s') = validators (view s)
    | (Return r, _, s') => download_outcome c t t2 s r s'
    | (NextPeer, _, _) => False
    end.
Proof.
  intros Hs Hu Hle Hf. pose proof Hserver as (_ & Hc2 & Ht2). pose proof Hs as [(_ & Hc1 & _) _].
  pose proof (co_nonneg _ _ Hc1).
  destruct (answer_spec peer_config client channel server t2 (t + 1)) as (batch & Ha & Hlen & Hlook);
    [done|lia|done|].
  rewrite Hf. exists (Blocks batch). split; [done|].
  cbn [session_turn]. rewrite from_slice_to_vec.
  destruct (last batch) as [b|] eqn:Hlast.
  - unfold receive_blocks. destruct (sync_blocks config batch s) as [r s'] eqn:Hr.
    apply (sync_blocks_spec config c batch s t) in Hr as (t' & Ht' & Hs' & Hv & Hok & Hfail);
      [|done..|lia|apply (co_height _ _ Hc2)|done].
    assert (Hb : height (header b) = t + Z.of_nat (length batch)).
    { rewrite last_lookup in Hlast. pose proof (lookup_lt_Some _ _ _ Hlast).
      apply Hlook in Hlast. apply (co_height _ _ Hc2) in Hlast. lia. }
    destruct r as [[]|e|]; [|exists t'; split_and!; done || lia..].
    destruct (Hok eq_refl) as [-> Hu']. rewrite u64_add_Ok by (unfold u64; lia).
    destruct (Z.ltb_spec (Z.of_nat (length batch)) BLOCKS_PER_REQUEST); unfold BLOCKS_PER_REQUEST in *.
    + exists (t + Z.of_nat (length batch)). split_and!; try lia; [done..|naive_solver lia|done].
    + cbn [from_height set_from]. replace (t + 256) with (t + Z.of_nat (length batch)) by lia.
      rewrite Hb. split_and!; done || lia.
  - apply last_None in Hlast as ->. cbn in Hlen. exists t.
    split_and!; [lia..|done|done|naive_solver lia|done].
Qed.

(** The events of a connection to a running node: it greets with its tip, and
    what comes back in a turn is then always the answer to the request of the
    turn before; a message that does not fit a frame ends the connection
    ([encode_send]). *)
Fixpoint node_events (turns : nat) (pending : Message) (l : IbdLoop) (s : S1) : list IbdEvent :=
  match turns with
  | O => []
  | S n =>
      if negb (fits_frame pending) then [PeerClosed] else
      Response (to_vec pending) ::
      match answer peer_config client channel (from_height l) server,
            session_turn config (Response (to_vec pending)) l s with
      | Some msg, (Again, l', s') => node_events n msg l' s'
      | _, _ => []
      end
  end.

Lemma greeting_turn b l (s : S1) : session_turn config (Response (to_vec (NewBlock b))) l s = (Again, set_timeouts 0 l, s).
Proof. cbn [session_turn]. by rewrite from_slice_to_vec. Qed.

(** The greeting and the answer to the first request fit a frame. *)
Definition sendable (g : Block) (from : Z) : Prop :=
  fits_frame (NewBlock g) = true ∧
  ∀ msg, answer peer_config client channel from server = Some msg → fits_frame msg = true.

Lemma node_session n g l s t :
  synced c s t → replayed s t → t ≤ t2 → from_height l = t + 1 → t2 < t + 256 →
  sendable g (t + 1) →
  ∃ r l' s', session config (node_events (2 + n) (NewBlock g) l s) l s = (Some (Return r), l', s') ∧
    download_outcome c t t2 s r s'.
Proof.
  intros Hs Hu Hle Hf Hn [Hg Hfit].
  destruct (honest_turn (set_timeouts 0 l) s t) as (msg & Ha & Hturn); [done..|].
  cbn [from_height set_timeouts] in Ha. pose proof Ha as Hm. rewrite Hf in Hm. apply Hfit in Hm.
  cbn [Nat.add node_events]. rewrite Hg, Ha, Hm, greeting_turn. cbn [session negb].
  rewrite greeting_turn. cbn [from_height set_timeouts]. rewrite Ha.
  destruct (session_turn config (Response (to_vec msg)) _ s) as [[turn l'] s'] eqn:Ht.
  destruct turn as [| |r]; cbn [session]; rewrite ?Ht; [lia|done|by exists r, l', s'].
Qed.

(** A block that spends an output that is not there is not taken in. *)
Lemma sync_spent b bs (s : S1) tx input :
  store_ok s → 0 < height (header b) → tx ∈ txs b → input ∈ inputs tx →
  utxos (view s) !! out_ref input = None →
  ∃ r, sync_blocks config (b :: bs) s = (r, s) ∧ r ≠ Ok tt.
Proof.
  intros Hs Hb Htx Hin Hnone. cbn [sync_blocks]. unfold sync_block, mbind, ST_bind.
  destruct (check_block config b s) as [r s'] eqn:Hch.
  assert (s' = s) as -> by (by eapply check_block_state). destruct r as [[]|e|]; [|by eexists..].
  exfalso. unfold check_block in Hch. rewrite (proj2 (Z.ltb_lt _ _) Hb) in Hch.
  apply st_bind_Ok in Hch as (? & s1 & [= _ <-] & Hch). apply st_bind_Ok in Hch as (p & s1 & [= _ <-] & Hch).
  injection Hch as Hv. apply map_err_Ok, validate_block_spec, bv_txs in Hv.
  apply (proj1 (Forall_forall _ _)) with (x := tx) in Hv; [|done].
  apply validate_transaction_spec in Hv as (_ & _ & os & _ & Hos & _).
  apply list_elem_of_lookup in Hin as [i Hi].
  destruct (Forall2_lookup_l _ _ _ _ _ Hos Hi) as (o & _ & Hget & _).
  apply get_law in Hget; [|done]. congruence.
Qed.

(** The first answer when 256 or more blocks are missing. *)
Lemma long_answer t b :
  0 ≤ t → t + 256 ≤ t2 → c !! (t + 1) = Some b →
  ∃ bs z, answer peer_config client channel (t + 1) server = Some (Blocks (b :: bs)) ∧
    Z.of_nat (length (b :: bs)) = 256 ∧ last (b :: bs) = Some z ∧ height (header z) = t + 256 ∧
    ∀ i b', (b :: bs) !! i = Some b' → c !! (t + 1 + Z.of_nat i) = Some b'.
Proof.
  intros Ht Hlong Hb. pose proof Hserver as (_ & Hc2 & _).
  destruct (answer_spec peer_config client channel server t2 (t + 1)) as (batch & Ha & Hlen & Hlook); [done|lia|done|].
  destruct batch as [|b' bs]; [cbn in Hlen; lia|]. assert (b' = b) as ->.
  { specialize (Hlook 0%nat b' eq_refl). rewrite Z.add_0_r in Hlook. congruence. }
  destruct (last (b :: bs)) as [z|] eqn:Hlast; [|by apply last_None in Hlast].
  exists bs, z. split_and!; [done|lia|done| |done].
  rewrite last_lookup in Hlast. pose proof (lookup_lt_Some _ _ _ Hlast).
  apply Hlook in Hlast. apply (co_height _ _ Hc2) in Hlast. lia.
Qed.

(** With 256 or more blocks missing, the answer to the request of the first turn
    comes a second time after its blocks were taken in. *)
Lemma node_session_long n g l s t b tx input :
  synced c s t → replayed s t → from_height l = t + 1 → t + 256 ≤ t2 →
  c !! (t + 1) = Some b → tx ∈ txs b → input ∈ inputs tx →
  replay_below c (t + 257) !! out_ref input = None → sendable g (t + 1) →
  ∃ r l' s' t', session config (node_events (3 + n) (NewBlock g) l s) l s = (Some (Return r), l', s') ∧
    r ≠ Ok tt ∧ t ≤ t' ≤ t + 256 ∧ synced c s' t'.
Proof.
  intros Hs Hu Hf Hlong Hb Htx Hin Hspent [Hg Hfit]. pose proof Hserver as (_ & Hc2 & Ht2).
  pose proof Hs as [(_ & Hc1 & _) _]. pose proof (co_nonneg _ _ Hc1).
  pose proof (co_height _ _ Hc2 _ _ Hb) as Hbh.
  destruct (long_answer t b) as (bs & z & Ha & Hlen & Hlast & Hz & Hlook); [done..|].
  pose proof (Hfit _ Ha) as Hm.
  cbn [Nat.add node_events]. rewrite Hg, Hf, Ha, Hm, greeting_turn. cbn [session negb].
  rewrite greeting_turn. cbn [from_height set_timeouts]. rewrite Hf, Ha. cbn [session_turn]. rewrite from_slice_to_vec, Hlast.
  unfold receive_blocks. destruct (sync_blocks config (b :: bs) s) as [r s2] eqn:Hr.
  pose proof Hr as (t' & Ht' & Hs' & _ & Hok & _)%(sync_blocks_spec config c _ s t);
    [|done..|lia|apply (co_height _ _ Hc2)|done].
  destruct r as [[]|e|]; cbn [session session_turn]; rewrite ?from_slice_to_vec, ?Hlast; unfold receive_blocks;
    [|rewrite ?Hr; eexists _, _, s2, t'; split_and!; [reflexivity|done|lia..|done]..].
  destruct (Hok eq_refl) as [-> Hu']. rewrite u64_add_Ok by (unfold u64; lia).
  rewrite (proj2 (Z.ltb_ge _ _)) by (unfold BLOCKS_PER_REQUEST; lia).
  destruct (sync_spent b bs s2 tx input) as (r & Hr2 & Hne); [apply Hs'|lia|done..| |].
  { unfold replayed in Hu'. destruct Hs' as [_ Hpre]. rewrite Hu'.
    rewrite (replay_below_ext _ c) by (intros h Hh; apply Hpre; lia).
    by replace (t + Z.of_nat (length (b :: bs)) + 1) with (t + 257) by lia. }
  rewrite Hm. cbn [negb session session_turn]. rewrite ?Hr, from_slice_to_vec, Hlast. unfold receive_blocks. rewrite Hr2.
  destruct r as [[]|e|]; [done|eexists _, _, s2, _; split_and!; [reflexivity|done| | |exact Hs']; lia..].
Qed.
End download.

Section honest_run.
Context `{Crypto} `{CoreJson} `{Json Message} `{BuildProfile}.

(** A run whose first connection ends the download. *)
Lemma run_first_session {S1} `{!BlockStore S1} `{!UtxoStore S1} `{!ValidatorStore S1} `{!StoreLaws S1}
    config events (s : S1) t x r l' s' :
  bootstrap_peers config ≠ [] → tip s = Ok x → store_at s t →
  session config events (mkIbdLoop (t + 1) (t + 1) 0 0 0) s = (Some (Return r), l', s') →
  run_ibd config [Accepted events] s = (Some r, s').
Proof.
  intros Hp Hx Hat Hses. unfold run_ibd. destruct (bootstrap_peers config) as [|p ps] eqn:Hps; [done|].
  rewrite Hx. apply (store_at_tip _ t) in Hx as (b & -> & Hb); [|done].
  change (default 0 (fst <$> Some (t, Block_hash b))) with t.
  destruct Hat as (_ & Hc & ?). pose proof (co_nonneg _ _ Hc).
  rewrite u64_add_Ok by (unfold u64; lia). cbn [ibd_loop choose_peer length Nat.leb peer_idx]. by rewrite Hses.
Qed.

Lemma synced_all {S1} `{!BlockStore S1} `{!UtxoStore S1} `{!ValidatorStore S1} `{!StoreLaws S1}
    (c : gmap Z Block) (s : S1) t : synced c s t → chain_ok c t → chain (view s) = c.
Proof.
  intros [(_ & Hc1 & _) Hpre] Hc2. apply map_eq. intros h.
  destruct (decide (0 ≤ h ≤ t)) as [Hh|Hh]; [by apply Hpre|].
  transitivity (@None Block); [|symmetry]; apply eq_None_not_Some.
  - by rewrite (co_range _ _ Hc1).
  - by rewrite (co_range _ _ Hc2).
Qed.

(** The outcome of a whole run. *)
Definition run_outcome {S1} `{!BlockStore S1} `{!UtxoStore S1} `{!ValidatorStore S1} `{!StoreLaws S1}
    config events (c : gmap Z Block) (s : S1) (t1 t2 : Z) : Prop :=
  ∃ r s' t',
    run_ibd config [Accepted events] s = (Some r, s') ∧
    t1 ≤ t' ≤ t2 ∧ synced c s' t' ∧ validators (view s') = validators (view s) ∧
    (r = Ok tt → chain (view s') = c ∧ replayed s' t2) ∧
    (r ≠ Ok tt → sync_failed config c r s').

Lemma run_outcome_intro {S1} `{!BlockStore S1} `{!UtxoStore S1} `{!ValidatorStore S1} `{!StoreLaws S1}
    config events (c : gmap Z Block) (s : S1) t1 t2 x :
  bootstrap_peers config ≠ [] → tip s = Ok x → store_at s t1 → chain_ok c t2 →
  (∃ r l' s', session config events (mkIbdLoop (t1 + 1) (t1 + 1) 0 0 0) s = (Some (Return r), l', s') ∧
     download_outcome config c t1 t2 s r s') →
  run_outcome config events c s t1 t2.
Proof.
  intros Hp Hx Hs Hc2 (r & l' & s' & Hses & t' & Ht' & Hs' & Hv & Hok & Hfail). exists r, s', t'.
  split_and!; [by eapply run_first_session|lia..|done|done| |done].
  intros Hr. destruct (Hok Hr) as [-> Hu']. split; [by eapply synced_all|done].
Qed.

Context `{HashOrder} `{UnstableSort}.
Context {S1 : Type} `{!BlockStore S1} `{!UtxoStore S1} `{!ValidatorStore S1} `{!StoreLaws S1}.
Context {S2 : Type} `{!BlockStore S2} `{!UtxoStore S2} `{!ValidatorStore S2} `{!StoreLaws S2}.
Context (config peer_config : NodeConfig) (client : SocketAddr) (channel : Sender).
Context (server : NodeState S2) (t2 : Z) (Hserver : store_at (n_store server) t2).
Context (Hreads : ∀ h, ∃ bs, iter_from h (n_store server) = Ok bs).
Context (Hp : bootstrap_peers config ≠ []).
Notation c := (chain (view (n_store server))).


Lemma node_download (s : S1) t1 x g n :
  tip s = Ok x → synced c s t1 → replayed s t1 → t1 ≤ t2 < t1 + 256 →
  sendable peer_config client channel server g (t1 + 1) →
  run_outcome config (node_events config peer_config client channel server (2 + n) (NewBlock g)
    (mkIbdLoop (t1 + 1) (t1 + 1) 0 0 0) s) c s t1 t2.
Proof.
  intros Hx Hs Hu Hle Hfit. eapply run_outcome_intro; [done..|apply Hs|apply Hserver|].
  apply node_session; done || lia.
Qed.

Lemma node_download_long (s : S1) t1 x g n b tx input :
  tip s = Ok x → synced c s t1 → replayed s t1 → t1 + 256 ≤ t2 →
  c !! (t1 + 1) = Some b → tx ∈ txs b → input ∈ inputs tx →
  replay_below c (t1 + 257) !! out_ref input = None →
  sendable peer_config client channel server g (t1 + 1) →
  ∃ r s' t', run_ibd config [Accepted (node_events config peer_config client channel server (3 + n)
      (NewBlock g) (mkIbdLoop (t1 + 1) (t1 + 1) 0 0 0) s)] s = (Some r, s') ∧
    r ≠ Ok tt ∧ t1 ≤ t' ≤ t1 + 256 ∧ synced c s' t'.
Proof.
  intros Hx Hs Hu Hle Hb Htx Hin Hspent Hfit.
  destruct (node_session_long config peer_config client channel server t2 Hserver Hreads n g
    (mkIbdLoop (t1 + 1) (t1 + 1) 0 0 0) s t1 b tx input) as (r & l' & s' & t' & Hses & Hr & Ht' & Hs'); [done..|].
  exists r, s', t'. split_and!; [|done|lia..|done]. eapply run_first_session; [done..|apply Hs|exact Hses].
Qed.
End honest_run.

(** ** The properties *)

Section properties.
Context `{Crypto} `{CoreJson} `{Json Message} `{BuildProfile}.

(** [run_ibd] gives up: when no bootstrap peer can be reached it returns
    after exactly six attempts per peer, without touching the store; with fewer
    failed attempts it is still trying. *)
Theorem ibd_gives_up {S} `{!BlockStore S} `{!UtxoStore S} `{!ValidatorStore S} config k (s : S) t :
  bootstrap_peers config ≠ [] → tip s = Ok t → u64 (default 0 (fst <$> t) + 1) →
  run_ibd config (replicate k Refused) s =
    (if (6 * length (bootstrap_peers config) <=? k)%nat then Some (Ok tt) else None, s).
Proof.
  intros Hp Ht Hu. rewrite (run_ibd_fruitless config _ s t), length_replicate; [done..|].
  by apply Forall_replicate.
Qed.


(** A batch is limited to 256 blocks, but not to the length of a frame.  When
    the answer to a node's first request does not fit a frame, the running peer
    drops the connection instead of sending it, on every attempt; after six
    attempts per bootstrap peer the download ends with nothing taken over, and
    reports success. *)
Theorem oversized_batch_lost `{HashOrder} `{UnstableSort}
    {S1} `{!BlockStore S1} `{!UtxoStore S1} `{!ValidatorStore S1} `{!StoreLaws S1}
    {S2} `{!BlockStore S2} `{!UtxoStore S2} `{!ValidatorStore S2} `{!StoreLaws S2}
    config peer_config client channel (server : NodeState S2) (s : S1) t1 x g msg n k :
  let l := mkIbdLoop (t1 + 1) (t1 + 1) 0 0 0 in
  let connection := Accepted (node_events config peer_config client channel server (2 + n) (NewBlock g) l s) in
  bootstrap_peers config ≠ [] → tip s = Ok x → store_at s t1 →
  fits_frame (NewBlock g) = true → answer peer_config client channel (t1 + 1) server = Some msg →
  fits_frame msg = false →
  peer_step peer_config client channel (Outbound msg true) server = (Ok false, server) ∧
  run_ibd config (replicate k connection) s =
    (if (6 * length (bootstrap_peers config) <=? k)%nat then Some (Ok tt) else None, s).
Proof.
  intros l connection Hp Hx Hat Hg Ha Hm.
  split; [cbn [peer_step]; unfold encode_send; by rewrite Hm|].
  apply (store_at_tip _ t1) in Hx as Hx'; [|done]. destruct Hx' as (b & -> & _).
  pose proof Hat as (_ & Hc & Ht). pose proof (co_nonneg _ _ Hc).
  rewrite (run_ibd_fruitless config _ s _ Hp Hx), length_replicate; [done|unfold u64; cbn; lia|].
  apply Forall_replicate. cbn [fruitless connection default fst fmap option_fmap option_map].
  intros l' Hl' Htm. cbn [Nat.add node_events]. rewrite Hg, greeting_turn.
  cbn [negb from_height l]. rewrite Ha, Hm. cbn [negb session]. rewrite greeting_turn.
  cbn [session_turn]. destruct l'. cbn in *. by subst.
Qed.

(** A block of height 0 is taken over without any validation.  A peer that
    answers a node at its genesis block with such a block replaces the genesis
    block and adds the outputs of its own block: here a transaction without
    inputs that creates [a] units. *)
Theorem ibd_genesis_mints {S} `{!BlockStore S} `{!UtxoStore S} `{!ValidatorStore S} `{!StoreLaws S}
    config l (s s' : S) l' b tx :
  store_at s 0 → height (header b) = 0 → txs b = [tx] → inputs tx = [] →
  session_turn config (Response (to_vec (Blocks [b]))) l s = (Return (Ok tt), l', s') →
  chain (view s') !! 0 = Some b ∧ utxos (view s') = ledger_tx (utxos (view s)) tx ∧
  (NoDup (created_refs tx) → (∀ r, r ∈ created_refs tx → utxos (view s) !! r = None) →
   supply (utxos (view s')) = supply (utxos (view s)) + value_out tx).
Proof.
  intros (Hok & Hc & _) Hb Htxs Hins. cbn [session_turn]. rewrite from_slice_to_vec. cbn [last].
  unfold receive_blocks. destruct (sync_blocks config [b] s) as [[[]|e|] s1] eqn:Hr; [|done..].
  intros Hret. assert (s1 = s') as -> by (break_hyp Hret; done).
  cbn [sync_blocks] in Hr. apply st_bind_Ok in Hr as ([] & s2 & Hr & [= ->]).
  unfold sync_block, check_block in Hr. rewrite Hb in Hr.
  apply st_bind_Ok in Hr as ([] & s3 & [= <-] & Hr).
  apply st_bind_Ok in Hr as ([] & s3 & Hi%st_map_err_Ok & Ha%st_map_err_Ok).
  apply insert_law in Hi as (Hok3 & Hu3 & Hv3 & _ & Hc3);
    [|done|by rewrite Hb|intros h Hh; apply (co_range _ _ Hc) in Hh; lia].
  apply apply_law in Ha as (_ & Hc' & _ & Hu' & _); [|done|by rewrite Hb].
  assert (Hu : utxos (view s') = ledger_tx (utxos (view s)) tx).
  { rewrite Hu', Hu3 by done. unfold ledger_block. by rewrite Htxs. }
  split_and!; [by rewrite Hc', Hc3, Hb, lookup_insert_eq|done|]. intros Hnd Hfresh.
  rewrite Hu, supply_ledger_tx; unfold value_in, spent_refs; rewrite ?Hins.
  - cbn. lia.
  - split_and!; [done| |done|]; unfold spent_refs; rewrite Hins; [constructor|set_solver].
Qed.
End properties.
