(* ===== verification/Api.v ===== *)
(** * The HTTP API ([bcc-node/src/api.rs])

    Routing, the request handlers over the node's state, and the bytes of the
    responses.  Reading the request from the socket is not modelled: [route]
    receives the method, the path and the body. *)

From Stdlib Require Import Ascii.
From S2P Require Import Prelude Bytes Types Store Ledger Validation Mempool DebugEvent Node Handler.

(** ** JSON values ([serde_json::Value]) *)

Inductive JsonValue :=
| JsonNumber (n : Z)
| JsonString (s : string)
| JsonArray (l : list JsonValue)
| JsonObject (fields : list (string * JsonValue)).

(** [serde_json::to_vec] of a value. *)
Class JsonText := { value_to_vec : JsonValue → list byte }.

(** ** Responses *)

Definition CRLF : string := String (ascii_of_nat 13) (String (ascii_of_nat 10) EmptyString).

Definition build_response (status : Z) (reason content_type : string) (body : list byte) : list byte :=
  let header :=
    "HTTP/1.1 " +:+ pretty status +:+ " " +:+ reason +:+ CRLF +:+
    "Content-Type: " +:+ content_type +:+ CRLF +:+
    "Content-Length: " +:+ pretty (length body) +:+ CRLF +:+
    "Access-Control-Allow-Origin: *" +:+ CRLF +:+
    "Connection: close" +:+ CRLF +:+ CRLF in
  String.list_byte_of_string header ++ body.

Section responses.
Context `{JsonText}.

Definition json_ok (body : JsonValue) : list byte :=
  build_response 200 "OK" "application/json" (value_to_vec body).

Definition err_response (status : Z) (msg : string) : list byte :=
  let body := value_to_vec (JsonObject [("error", JsonString msg)]) in
  let reason := if status =? 400 then "Bad Request" else "Service Unavailable" in
  build_response status reason "application/json" body.

Definition not_found : list byte := err_response 404 "not found".

Definition ok_no_content : list byte :=
  String.list_byte_of_string
    ("HTTP/1.1 204 No Content" +:+ CRLF +:+ "Access-Control-Allow-Origin: *" +:+ CRLF +:+
     "Access-Control-Allow-Methods: GET, POST" +:+ CRLF +:+ "Connection: close" +:+ CRLF +:+ CRLF).
End responses.

(** ** Handlers *)

Section handlers.
Context `{Crypto} `{CoreJson} `{JsonText} `{BuildProfile} `{HashOrder} `{UnstableSort}.
Context {S : Type} `{!BlockStore S} `{!UtxoStore S} `{!ValidatorStore S}.

Notation M := (ST (NodeState S) Empty_set).

(** [map_err(NodeError::Store)] and [e.to_string()] *)
Definition store_error (e : StoreError) : string := NodeError_to_string (NodeStore e).

(** A store call whose result the handler matches on. *)
Definition attempt {A} (f : S → Res StoreError A) : M (string + A) :=
  read_store (fun s =>
    match f s with
    | Ok a => Ok (inr a)
    | Err e => Ok (inl (store_error e))
    | Panic => Panic
    end).

Definition get_tip : M (list byte) :=
  r ← attempt tip;
  match r with
  | inr (Some (height, hash)) =>
      let hash_hex := hex_encode hash in
      _ ← emit (ApiGetTip height hash_hex);
      mret (json_ok (JsonObject [("height", JsonNumber height); ("hash", JsonString hash_hex)]))
  | inr None => mret (err_response 503 "chain is empty")
  | inl e => mret (err_response 503 e)
  end.

Definition get_balance (raw_addr : string) : M (list byte) :=
  match Address.validate raw_addr with
  | Ok addr =>
      r ← attempt (balance addr);
      match r with
      | inr b => mret (json_ok (JsonObject [("address", JsonString raw_addr); ("balance", JsonNumber b)]))
      | inl e => mret (err_response 503 e)
      end
  | Err e => mret (err_response 400 (AddressError_to_string e))
  | Panic => fun st => (Panic, st)
  end.

(** The object for one unspent output. *)
Definition utxo_json (ro : TxOutRef * TxOutput) : JsonValue :=
  JsonObject [("tx_hash", JsonString (hex_encode (tx_hash ro.1)));
              ("index", JsonNumber (index ro.1));
              ("amount", JsonNumber (amount ro.2))].

Definition get_utxos (raw_addr : string) : M (list byte) :=
  match Address.validate raw_addr with
  | Ok addr =>
      r ← attempt (list_utxos addr);
      match r with
      | inr utxos => mret (json_ok (JsonArray (utxo_json <$> utxos)))
      | inl e => mret (err_response 503 e)
      end
  | Err e => mret (err_response 400 (AddressError_to_string e))
  | Panic => fun st => (Panic, st)
  end.

Definition post_tx (body : list byte) : M (list byte) := fun st =>
  match from_slice (A := Transaction) body with
  | inl e => (Ok (err_response 400 ("invalid JSON: " +:+ e)), st)
  | inr tx =>
      let tx_hash_hex := hex_encode (Transaction_hash tx) in
      let '(r, m) := Mempool.add tx (n_store st) (n_mempool st) in
      let st := set_mempool m st in
      match r with
      | Ok added =>
          let evs := match evicted added with
                     | Some ev => [Emit (TxEvicted ev (added_tx_hash added))]
                     | None => []
                     end in
          let st := perform (evs ++ [Emit (TxAccepted (added_tx_hash added) (added_value added)
                                             (pool_size added));
                                     Emit (ApiTxAccepted tx_hash_hex)]) st in
          (* [state.peers.read().await.broadcast_all(..)] *)
          let st := if newly_added added
                    then perform (PeerSet.broadcast_all (NewTx tx) (n_peers st)) st else st in
          (Ok (json_ok (JsonObject [("tx_hash", JsonString tx_hash_hex)])), st)
      | Err e =>
          let st := perform [Emit (TxRejected tx_hash_hex (NodeError_to_string e));
                             Emit (ApiTxRejected tx_hash_hex (NodeError_to_string e))] st in
          let status := match e with NodeValidation _ => 400 | _ => 503 end in
          (Ok (err_response status (NodeError_to_string e)), st)
      | Panic => (Panic, st)
      end
  end.

Definition get_peers : M (list byte) := fun st =>
  (Ok (json_ok (JsonArray ((fun a => JsonString (addr_to_string a)) <$> PeerSet.addrs (n_peers st)))), st).

(** [&p[n..]] of a path with a prefix of [n] characters. *)
Definition path_from (n : nat) (p : string) : string := String.substring n (String.length p - n) p.

Definition route (method path : string) (body : list byte) : M (list byte) :=
  if bool_decide (method = "GET") && bool_decide (path = "/chain/tip") then get_tip
  else if bool_decide (method = "GET") && String.prefix "/balance/" path
  then get_balance (path_from 9 path)
  else if bool_decide (method = "GET") && String.prefix "/utxos/" path
  then get_utxos (path_from 7 path)
  else if bool_decide (method = "POST") && bool_decide (path = "/tx") then post_tx body
  else if bool_decide (method = "GET") && bool_decide (path = "/peers") then get_peers
  else if bool_decide (method = "OPTIONS") then mret ok_no_content
  else mret not_found.

End handlers.

(** ** Framing of the responses *)

(** The head of a message up to the first empty line, and what follows it. *)
Definition blank_line : list byte := [x0d; x0a; x0d; x0a].
Fixpoint split_head (bs : list byte) : option (list byte * list byte) :=
  match bs with
  | [] => None
  | b :: bs' =>
      if bool_decide (take 4 bs = blank_line) then Some ([], drop 4 bs)
      else '(h, rest) ← split_head bs'; Some (b :: h, rest)
  end.

Definition no_cr (bs : list byte) : Prop := Forall (fun b => b ≠ x0d) bs.
Definition text (s : string) : list byte := String.list_byte_of_string s.

Lemma text_app s1 s2 : text (s1 +:+ s2) = text s1 ++ text s2.
Proof.
  induction s1 as [|c s1 IH]; [done|].
  change (byte_of_ascii c :: text (s1 +:+ s2) = byte_of_ascii c :: (text s1 ++ text s2)). by rewrite IH.
Qed.

Lemma split_head_step b bs :
  take 4 (b :: bs) ≠ blank_line →
  split_head (b :: bs) = '(h, rest) ← split_head bs; Some (b :: h, rest).
Proof. intros Hb. cbn [split_head]. by rewrite bool_decide_false. Qed.

Lemma split_head_byte b bs : b ≠ x0d →
  split_head (b :: bs) = '(h, rest) ← split_head bs; Some (b :: h, rest).
Proof. intros Hb. apply split_head_step. intros [= ? _]. done. Qed.

Lemma split_head_line l bs h rest :
  no_cr l → split_head bs = Some (h, rest) → split_head (l ++ bs) = Some (l ++ h, rest).
Proof.
  induction 1 as [|b l Hb Hl IH]; intros Hbs; [done|]. cbn [app]. rewrite split_head_byte by done.
  by rewrite (IH Hbs).
Qed.

(** A line end that a further header line follows. *)
Lemma split_head_crlf c s bs h rest :
  byte_of_ascii c ≠ x0d → split_head (text (String c s) ++ bs) = Some (h, rest) →
  split_head (text CRLF ++ text (String c s) ++ bs) = Some (text CRLF ++ h, rest).
Proof.
  intros Hb Hbs. change (text CRLF) with [x0d; x0a].
  change (text (String c s)) with (byte_of_ascii c :: text s) in *. cbn [app] in *.
  rewrite split_head_step by (intros [= ? _]; done). rewrite split_head_byte by done.
  by rewrite Hbs.
Qed.

Lemma split_head_end bs : split_head (text CRLF ++ text CRLF ++ bs) = Some ([], bs).
Proof. done. Qed.

(** Decimal numbers are printed in digits. *)
Lemma text_cons c s : text (String c s) = byte_of_ascii c :: text s.
Proof. done. Qed.

Lemma no_cr_pretty_N_go n s : no_cr (text s) → no_cr (text (pretty_N_go n s)).
Proof.
  revert s. induction (N.lt_wf_0 n) as [n _ IH]; intros s Hs.
  destruct (decide (n = 0)%N) as [->|Hn]; [done|].
  rewrite pretty_N_go_step by lia. apply IH; [apply N.div_lt; lia|].
  rewrite text_cons. constructor; [|done]. unfold pretty_N_char. by repeat case_match.
Qed.

Lemma no_cr_pretty n : no_cr (text (pretty (n : nat))).
Proof.
  unfold pretty, pretty_nat, pretty, pretty_N. case_decide; [by repeat constructor|].
  apply no_cr_pretty_N_go. constructor.
Qed.

(** The head of a response, without its last line end and the empty line. *)
Definition head_of (status : Z) (reason content_type : string) (len : nat) : list byte :=
  text ("HTTP/1.1 " +:+ pretty status +:+ " " +:+ reason +:+ CRLF +:+
    "Content-Type: " +:+ content_type +:+ CRLF +:+
    "Content-Length: " +:+ pretty len +:+ CRLF +:+
    "Access-Control-Allow-Origin: *" +:+ CRLF +:+ "Connection: close").

Lemma build_response_framed status reason content_type body :
  no_cr (text (pretty status)) → no_cr (text reason) → no_cr (text content_type) →
  split_head (build_response status reason content_type body) =
    Some (head_of status reason content_type (length body), body).
Proof.
  intros Hst Hr Hct. unfold build_response, head_of.
  change (String.list_byte_of_string ?s) with (text s).
  rewrite !text_app, <- !app_assoc. pose proof (no_cr_pretty (length body)) as Hlen.
  repeat first
    [ apply split_head_crlf; [done|]
    | apply split_head_line; [first [done|by repeat constructor]|] ].
  rewrite <- (app_nil_r (text "Connection: close")) at 2.
  apply split_head_line; [by repeat constructor|]. apply split_head_end.
Qed.

(** ** What a request can do *)

Section requests.
Context `{Crypto} `{CoreJson} `{JsonText} `{BuildProfile} `{HashOrder} `{UnstableSort}.
Context {S : Type} `{!BlockStore S} `{!UtxoStore S} `{!ValidatorStore S}.
Implicit Types (st : NodeState S).

(** A response is one message: a JSON body of the announced length, or the empty
    answer to [OPTIONS]. *)
Definition well_framed (resp : list byte) : Prop :=
  resp = ok_no_content ∨
  ∃ status reason body, status ∈ [200; 400; 404; 503] ∧
    split_head resp = Some (head_of status reason "application/json" (length body), body).

Lemma json_ok_framed v : well_framed (json_ok v).
Proof.
  right. exists 200, "OK", (value_to_vec v). split; [set_solver|]. unfold json_ok.
  apply build_response_framed; by repeat constructor.
Qed.

Lemma err_response_framed status msg : status ∈ [400; 404; 503] → well_framed (err_response status msg).
Proof.
  intros Hst. right. eexists status, _, (value_to_vec (JsonObject [("error", JsonString msg)])).
  split; [set_solver|]. unfold err_response. cbv zeta.
  apply build_response_framed; [|by case_match; repeat constructor|by repeat constructor].
  repeat (apply elem_of_cons in Hst as [->|Hst]; [by repeat constructor|]).
  by apply elem_of_nil in Hst.
Qed.

Lemma ok_no_content_framed : well_framed ok_no_content.
Proof. left. reflexivity. Qed.

Lemma not_found_framed : well_framed not_found.
Proof. unfold not_found. apply err_response_framed. set_solver. Qed.

Definition is_send (e : Effect) : bool := match e with TrySend _ _ => true | _ => false end.
(** The messages sent between two states. *)
Definition sends st st' : list Effect :=
  filter (fun e => is_send e) (drop (length (n_effects st)) (n_effects st')).

(** A handler that may report events, and answers with a framed response. *)
Definition read_only (m : ST (NodeState S) Empty_set (list byte)) : Prop :=
  ∀ st r st', m st = (r, st') →
    (∃ evs, st' = perform (Emit <$> evs) st) ∧ (∀ resp, r = Ok resp → well_framed resp).

Lemma read_only_ret resp : well_framed resp → read_only (mret resp).
Proof.
  intros Hr st r st' [= <- <-]. split; [exists []; by rewrite perform_nil|]. by intros ? [= <-].
Qed.

Lemma read_only_attempt {A} (f : S → Res StoreError A) k :
  (∀ x, read_only (k x)) → read_only (x ← attempt f; k x).
Proof.
  intros Hk st r st'. unfold attempt, read_store, reads, mbind, ST_bind.
  destruct (f (n_store st)) as [a|e|]; [apply Hk..|].
  intros [= <- <-]. split; [exists []; by rewrite perform_nil|done].
Qed.

Lemma read_only_emit e resp : well_framed resp → read_only (_ ← emit e; mret resp).
Proof.
  intros Hr st r st' [= <- <-]. split; [by exists [e]|]. by intros ? [= <-].
Qed.

Lemma read_only_panic : read_only (fun st => (Panic, st)).
Proof. intros st r st' [= <- <-]. split; [exists []; by rewrite perform_nil|done]. Qed.

Hint Resolve json_ok_framed : bcc.
Hint Extern 1 (well_framed (err_response _ _)) => apply err_response_framed; set_solver : bcc.

Lemma get_tip_read_only : read_only get_tip.
Proof.
  apply read_only_attempt. intros [e|[[h hash]|]].
  - apply read_only_ret. auto with bcc.
  - apply read_only_emit. auto with bcc.
  - apply read_only_ret. auto with bcc.
Qed.

Lemma get_balance_read_only a : read_only (get_balance a).
Proof.
  unfold get_balance. destruct (Address.validate a) as [addr|e|].
  - apply read_only_attempt. intros [e|b]; apply read_only_ret; auto with bcc.
  - apply read_only_ret. auto with bcc.
  - apply read_only_panic.
Qed.

Lemma get_utxos_read_only a : read_only (get_utxos a).
Proof.
  unfold get_utxos. destruct (Address.validate a) as [addr|e|].
  - apply read_only_attempt. intros [e|b]; apply read_only_ret; auto with bcc.
  - apply read_only_ret. auto with bcc.
  - apply read_only_panic.
Qed.

Lemma get_peers_read_only : read_only get_peers.
Proof.
  intros st r st' [= <- <-]. split; [exists []; by rewrite perform_nil|].
  intros ? [= <-]. auto with bcc.
Qed.

(** The outcomes of a posted transaction. *)
Inductive post_outcome (tx : Transaction) st st' : Res Empty_set (list byte) → Prop :=
| post_admitted a :
    admitted tx (n_store st) (n_mempool st) a (n_mempool st') →
    sends st st' ≡ₚ (fun at_ => TrySend at_.2 (NewTx tx)) <$> map_to_list (n_peers st) →
    post_outcome tx st st'
      (Ok (json_ok (JsonObject [("tx_hash", JsonString (hex_encode (Transaction_hash tx)))])))
| post_known :
    Transaction_hash tx ∈ (mp_txs (n_mempool st)).*1 → n_mempool st' = n_mempool st →
    sends st st' = [] →
    post_outcome tx st st'
      (Ok (json_ok (JsonObject [("tx_hash", JsonString (hex_encode (Transaction_hash tx)))])))
| post_rejected msg :
    Transaction_hash tx ∉ (mp_txs (n_mempool st)).*1 → n_mempool st' = n_mempool st →
    sends st st' = [] →
    post_outcome tx st st' (Ok (err_response 400 (NodeError_to_string (NodeValidation msg))))
| post_panicked :
    n_mempool st' = n_mempool st → sends st st' = [] → post_outcome tx st st' Panic.

Lemma sends_perform st m es :
  sends st (perform es (set_mempool m st)) = filter (fun e => is_send e) es.
Proof. unfold sends, perform. cbn. by rewrite drop_app_length. Qed.

Lemma filter_broadcast msg (ps : gmap SocketAddr Sender) :
  filter (fun e => is_send e) (PeerSet.broadcast_all msg ps) ≡ₚ
    (fun at_ => TrySend at_.2 msg) <$> map_to_list ps.
Proof.
  unfold PeerSet.broadcast_all. rewrite (hash_iter_perm ps).
  induction (map_to_list ps) as [|p l IH]; [done|]. rewrite fmap_cons, filter_cons_True by done.
  by rewrite IH.
Qed.

Lemma post_tx_cases body tx st r st' :
  mempool_ok (n_mempool st) → from_slice body = inr tx → post_tx body st = (r, st') →
  (mempool_ok (n_mempool st') ∧ n_store st' = n_store st ∧ n_peers st' = n_peers st) ∧
  post_outcome tx st st' r.
Proof.
  intros Hm Hb. unfold post_tx. rewrite Hb.
  destruct (Mempool.add tx (n_store st) (n_mempool st)) as [ra m] eqn:Ha.
  pose proof (add_cases _ _ _ _ _ Hm Ha) as [Hm' Hcases].
  destruct ra as [a|e|].
  - set (evs := match evicted a with Some ev => _ | None => _ end). cbv zeta.
    assert (Hevs : ∀ l, filter (fun e => is_send e) (evs ++ [Emit (TxAccepted (added_tx_hash a)
      (added_value a) (pool_size a)); Emit (ApiTxAccepted (hex_encode (Transaction_hash tx)))] ++ l)
      = filter (fun e => is_send e) l).
    { intros l. unfold evs. by destruct (evicted a). }
    destruct (newly_added a); intros [= <- <-]; (split; [done|]).
    + eapply post_admitted; [done|].
      rewrite perform_app, sends_perform, <- app_assoc, Hevs. apply filter_broadcast.
    + destruct Hcases as [-> Hin]. apply post_known; [done..|].
      rewrite sends_perform. specialize (Hevs []). rewrite app_nil_r in Hevs. exact Hevs.
  - destruct Hcases as (-> & Hin & Hwhy). assert (∃ msg, e = NodeValidation msg) as [msg ->].
    { destruct Hwhy as [(err & _ & ->)|[[-> _]|[-> _]]]; eauto. }
    intros [= <- <-]. split; [done|]. by apply post_rejected; [..|rewrite sends_perform].
  - intros [= <- <-]. split; [done|]. apply post_panicked; [done|].
    unfold sends. cbn. by rewrite drop_all.
Qed.
End requests.

(** ** The properties *)

Section properties.
Context `{Crypto} `{CoreJson} `{JsonText} `{BuildProfile} `{HashOrder} `{UnstableSort}.
Context {S : Type} `{!BlockStore S} `{!UtxoStore S} `{!ValidatorStore S}.
Implicit Types (st : NodeState S).

Lemma route_spec method path body st r st' :
  mempool_ok (n_mempool st) → route method path body st = (r, st') →
  n_store st' = n_store st ∧ n_peers st' = n_peers st ∧ mempool_ok (n_mempool st') ∧
  (∀ resp, r = Ok resp → well_framed resp) ∧
  ((method = "POST" ∧ path = "/tx") ∨ (n_mempool st' = n_mempool st ∧ sends st st' = [])).
Proof.
  intros Hm. assert (Hro : ∀ m, read_only m → m st = (r, st') →
    n_store st' = n_store st ∧ n_peers st' = n_peers st ∧ mempool_ok (n_mempool st') ∧
    (∀ resp, r = Ok resp → well_framed resp) ∧
    ((method = "POST" ∧ path = "/tx") ∨ (n_mempool st' = n_mempool st ∧ sends st st' = []))).
  { intros m Hread Hr. apply Hread in Hr as ([evs ->] & Hf). split_and!; try done. right. split; [done|].
    unfold sends, perform. cbn. rewrite drop_app_length. by induction evs. }
  unfold route.
  case_match; [apply Hro, get_tip_read_only|].
  case_match; [apply Hro, get_balance_read_only|].
  case_match; [apply Hro, get_utxos_read_only|].
  case_match eqn:Hpost.
  { apply andb_true_iff in Hpost as [->%bool_decide_eq_true ->%bool_decide_eq_true].
    destruct (from_slice (A := Transaction) body) as [e|tx] eqn:Hb.
    - unfold post_tx. rewrite Hb. intros [= <- <-]. split_and!; try done; [|by left].
      intros ? [= <-]. apply err_response_framed. set_solver.
    - intros [(Hm' & Hs & Hp) Ho]%(post_tx_cases _ tx); [|done..].
      split_and!; try done; [|by left].
      intros resp ->. inversion Ho; subst; [apply json_ok_framed..|apply err_response_framed; set_solver]. }
  case_match; [apply Hro, get_peers_read_only|].
  case_match; apply Hro, read_only_ret;
    [apply ok_no_content_framed|apply not_found_framed].
Qed.

(** Whatever a client requests, the stores and the peer set do not change, the
    mempool keeps its invariants, and the response is one well-framed HTTP
    message whose [Content-Length] is that of its body; only [POST /tx] can send
    messages to peers or change the mempool. *)
Theorem route_safe method path body st r st' :
  mempool_ok (n_mempool st) → route method path body st = (r, st') →
  n_store st' = n_store st ∧ n_peers st' = n_peers st ∧ mempool_ok (n_mempool st') ∧
  (∀ resp, r = Ok resp → well_framed resp) ∧
  ((method = "POST" ∧ path = "/tx") ∨ (n_mempool st' = n_mempool st ∧ sends st st' = [])).
Proof. apply route_spec. Qed.

(** C28: the outcome of [POST /tx] for a body that decodes.  An admitted transaction
    is sent to every peer exactly once; one that is already pooled is confirmed
    without being sent again; a rejected one leaves the mempool as it was and is
    always answered with status 400, also when the rejection is a failure of the
    node's storage. *)
Theorem post_tx_outcomes body tx st r st' :
  mempool_ok (n_mempool st) → from_slice body = inr tx → post_tx body st = (r, st') →
  post_outcome tx st st' r.
Proof. intros Hm Hb Hp. by destruct (post_tx_cases _ _ _ _ _ Hm Hb Hp). Qed.

(** [GET /balance] of a valid address answers with the exact sum of its
    unspent outputs, when that sum fits 64 bits. *)
Theorem get_balance_exact `{!StoreLaws S} raw st b :
  store_ok (n_store st) → map_Forall (fun _ o => 0 ≤ amount o) (utxos (view (n_store st))) →
  Address.validate raw = Ok (mkAddress raw) →
  balance_of (mkAddress raw) (utxos (view (n_store st))) < 2 ^ 64 →
  balance (mkAddress raw) (n_store st) = Ok b →
  get_balance raw st = (Ok (json_ok (JsonObject [("address", JsonString raw);
    ("balance", JsonNumber (balance_of (mkAddress raw) (utxos (view (n_store st)))))])), st).
Proof.
  intros Hs Hnn Hv Hlt Hb. unfold get_balance. rewrite Hv.
  unfold attempt, read_store, reads, mbind, ST_bind. rewrite Hb.
  by rewrite (balance_law _ _ _ Hs Hnn Hlt Hb).
Qed.

End properties.
