(* ===== verification/Http.v ===== *)
(** * Reading HTTP requests ([handle_conn] of [bcc-node/src/api.rs])

    The request parser over the bytes of a connection, with what it uses of
    [str]: UTF-8 validity, [trim] and the parsing of [usize].  The theorems: any
    byte stream is harmless, and a well-formed request reaches its handler. *)

From Stdlib Require Import Ascii.
From S2P Require Import Prelude Bytes Types Store Ledger Validation Mempool DebugEvent Node Handler Api.

(** ** Strings as bytes *)

Definition between (lo hi : Z) (b : byte) : bool := (lo <=? byte_to_Z b) && (byte_to_Z b <=? hi).
Definition continuation : byte → bool := between 0x80 0xBF.

(** The second byte of a three or four byte sequence. *)
Definition second3 (b1 b2 : byte) : bool :=
  (between 0xE0 0xE0 b1 && between 0xA0 0xBF b2)
  || ((between 0xE1 0xEC b1 || between 0xEE 0xEF b1) && continuation b2)
  || (between 0xED 0xED b1 && between 0x80 0x9F b2).
Definition second4 (b1 b2 : byte) : bool :=
  (between 0xF0 0xF0 b1 && between 0x90 0xBF b2)
  || (between 0xF1 0xF3 b1 && continuation b2)
  || (between 0xF4 0xF4 b1 && between 0x80 0x8F b2).

(** [str::from_utf8] succeeds. *)
Fixpoint utf8_valid (bs : list byte) : bool :=
  match bs with
  | [] => true
  | b1 :: r1 =>
      if between 0 0x7F b1 then utf8_valid r1
      else match r1 with
      | [] => false
      | b2 :: r2 =>
          if between 0xC2 0xDF b1 && continuation b2 then utf8_valid r2
          else match r2 with
          | [] => false
          | b3 :: r3 =>
              if second3 b1 b2 && continuation b3 then utf8_valid r3
              else match r3 with
              | [] => false
              | b4 :: r4 =>
                  second4 b1 b2 && continuation b3 && continuation b4 && utf8_valid r4
              end
          end
      end
  end.

(** The characters of [char::is_whitespace]. *)
Definition white_space : list (list byte) :=
  map (map byte_of_Z)
    ([[0x20]; [0x09]; [0x0A]; [0x0B]; [0x0C]; [0x0D]; [0xC2; 0x85]; [0xC2; 0xA0]; [0xE1; 0x9A; 0x80]]
     ++ map (fun z => [0xE2; 0x80; z]) (seqZ 0x80 11)
     ++ [[0xE2; 0x80; 0xA8]; [0xE2; 0x80; 0xA9]; [0xE2; 0x80; 0xAF]; [0xE2; 0x81; 0x9F];
         [0xE3; 0x80; 0x80]]).

Definition strip_one (pats : list (list byte)) (bs : list byte) : option (list byte) :=
  p ← head (filter (fun p => take (length p) bs = p) pats); Some (drop (length p) bs).
Fixpoint strip_all (pats : list (list byte)) (fuel : nat) (bs : list byte) : list byte :=
  match fuel with
  | O => bs
  | S fuel => match strip_one pats bs with Some bs' => strip_all pats fuel bs' | None => bs end
  end.

(** [str::trim] *)
Definition trim_start (bs : list byte) : list byte := strip_all white_space (length bs) bs.
Definition trim_end (bs : list byte) : list byte :=
  reverse (strip_all (reverse <$> white_space) (length bs) (reverse bs)).
Definition trim (bs : list byte) : list byte := trim_end (trim_start bs).

(** [str::parse::<usize>], on a 64-bit machine. *)
Fixpoint parse_digits (acc : Z) (bs : list byte) : option Z :=
  match bs with
  | [] => Some acc
  | b :: bs' =>
      if between 48 57 b then
        let acc' := acc * 10 + (byte_to_Z b - 48) in
        if acc' <? 2 ^ 64 then parse_digits acc' bs' else None
      else None
  end.
Definition parse_usize (bs : list byte) : option Z :=
  let digits := match bs with b :: bs' => if between 43 43 b then bs' else bs | [] => [] end in
  match digits with [] => None | _ => parse_digits 0 digits end.

(** The prefix test after [to_lowercase]; no character outside ASCII has a lower
    case that starts with a letter of the prefix. *)
Definition lower_byte (b : byte) : byte := if between 65 90 b then byte_of_Z (byte_to_Z b + 32) else b.
Definition is_content_length (line : list byte) : bool :=
  bool_decide (lower_byte <$> take 15 line = text "content-length:").

(** ** The connection *)

(** The text up to and including the first line feed, and what follows it. *)
Fixpoint split_line (bs : list byte) : option (list byte * list byte) :=
  match bs with
  | [] => None
  | b :: bs' =>
      if between 10 10 b then Some ([b], bs')
      else '(l, rest) ← split_line bs'; Some (b :: l, rest)
  end.

(** [read_line]: [None] for [Ok(0)] and for an error.  The stream delivers [bs]
    and then ends, in an orderly way when [closed], else with an error. *)
Definition read_line (closed : bool) (bs : list byte) : option (list byte * list byte) :=
  match split_line bs with
  | Some (l, rest) => if utf8_valid l then Some (l, rest) else None
  | None =>
      if closed && negb (bool_decide (bs = [])) && utf8_valid bs then Some (bs, []) else None
  end.

(** The header loop: the content length and the bytes after the empty line. *)
Fixpoint read_headers (fuel : nat) (closed : bool) (content_length : Z) (bs : list byte) :
    option (Z * list byte) :=
  match fuel with
  | O => None
  | S fuel =>
      '(line, rest) ← read_line closed bs;
      if bool_decide (trim line = []) then Some (content_length, rest)
      else
        let content_length :=
          if is_content_length line then default 0 (parse_usize (trim (drop 15 line)))
          else content_length in
        read_headers fuel closed content_length rest
  end.

(** [splitn(3, ' ')]: the first part and the rest after the space. *)
Fixpoint split_space (bs : list byte) : option (list byte * list byte) :=
  match bs with
  | [] => None
  | b :: bs' =>
      if between 32 32 b then Some ([], bs')
      else '(l, rest) ← split_space bs'; Some (b :: l, rest)
  end.

Definition MAX_BODY : Z := 4 * 1024 * 1024.

Section connection.
Context `{Crypto} `{CoreJson} `{JsonText} `{BuildProfile} `{HashOrder} `{UnstableSort}.
Context {S : Type} `{!BlockStore S} `{!UtxoStore S} `{!ValidatorStore S}.

Notation M := (ST (NodeState S) Empty_set).
Definition to_str : list byte → string := String.string_of_list_byte.

(** The response that is written back, if any. *)
Definition handle_conn (closed : bool) (received : list byte) : M (option (list byte)) :=
  match read_line closed received with
  | None => mret None
  | Some (req_line, rest) =>
      match read_headers (Datatypes.S (length rest)) closed 0 rest with
      | None => mret None
      | Some (content_length, rest) =>
          let len := Z.min content_length MAX_BODY in
          if (0 <? content_length) && (Z.of_nat (length rest) <? len) then mret None
          else
            let body := if 0 <? content_length then take (Z.to_nat len) rest else [] in
            match split_space (trim req_line) with
            | None => mret None
            | Some (method, after) =>
                let path := match split_space after with Some (p, _) => p | None => after end in
                resp ← route (to_str method) (to_str path) body;
                mret (Some resp)
            end
      end
  end.
End connection.

(** ** The fuel of the header loop *)

Lemma split_line_length bs l rest : split_line bs = Some (l, rest) → bs = l ++ rest ∧ l ≠ [].
Proof.
  revert l rest. induction bs as [|b bs IH]; intros l rest; cbn; [done|].
  case_match; [by intros [= <- <-]|]. destruct (split_line bs) as [[l' rest']|]; [|done].
  cbn. intros [= <- <-]. by destruct (IH _ _ eq_refl) as [-> _].
Qed.

Lemma read_line_length closed bs l rest : read_line closed bs = Some (l, rest) →
  (length rest < length bs)%nat.
Proof.
  unfold read_line. destruct (split_line bs) as [[l' rest']|] eqn:Hl.
  - case_match; [|done]. intros [= <- <-]. apply split_line_length in Hl as [-> Hne].
    rewrite length_app. destruct l'; [done|cbn; lia].
  - destruct (_ && _) eqn:Hc; [|done]. intros [= <- <-]. rewrite !andb_true_iff, negb_true_iff in Hc.
    destruct Hc as [[_ Hne%bool_decide_eq_false] _]. destruct bs; [done|cbn; lia].
Qed.

(** More fuel than bytes makes no difference: the loop reads a line each time. *)
Lemma read_headers_fuel f1 f2 closed cl bs :
  (length bs < f1)%nat → (length bs < f2)%nat →
  read_headers f1 closed cl bs = read_headers f2 closed cl bs.
Proof.
  revert f2 cl bs. induction f1 as [|f1 IH]; intros [|f2] cl bs H1 H2; [lia..|]. cbn.
  destruct (read_line closed bs) as [[line rest]|] eqn:Hl; [|done]. cbn.
  apply read_line_length in Hl. case_match; [done|]. apply IH; lia.
Qed.

(** ** Visible text *)

Definition visible : byte → bool := between 33 126.
Definition crlf : list byte := text CRLF.

(** Starts and ends with a visible character. *)
Definition tight (l : list byte) : Prop :=
  (∃ b l', l = b :: l' ∧ visible b = true) ∧ (∃ b l', l = l' ++ [b] ∧ visible b = true).

Lemma between_spec lo hi b : between lo hi b = true ↔ lo ≤ byte_to_Z b ≤ hi.
Proof. unfold between. rewrite andb_true_iff, !Z.leb_le. done. Qed.

Lemma between_outside lo hi lo' hi' b :
  between lo hi b = true → hi < lo' ∨ hi' < lo → between lo' hi' b = false.
Proof. rewrite <- not_true_iff_false, !between_spec. lia. Qed.

Lemma strip_one_visible pats b l :
  Forall (fun p => match p with c :: _ => visible c = false | [] => False end) pats →
  visible b = true → strip_one pats (b :: l) = None.
Proof.
  intros Hp Hb. unfold strip_one. induction Hp as [|[|c p] pats Hc Hp IH]; [done|done|].
  rewrite filter_cons_False; [done|]. cbn [length take]. intros [= <- _]. congruence.
Qed.

Lemma white_space_invisible :
  Forall (fun p => match p with c :: _ => visible c = false | [] => False end) white_space ∧
  Forall (fun p => match p with c :: _ => visible c = false | [] => False end) (reverse <$> white_space).
Proof. split; vm_compute; repeat constructor. Qed.

Lemma strip_space l : strip_one white_space (x20 :: l) = Some l.
Proof. vm_compute. reflexivity. Qed.
Lemma strip_lf l : strip_one (reverse <$> white_space) (x0a :: l) = Some l.
Proof. vm_compute. reflexivity. Qed.
Lemma strip_cr l : strip_one (reverse <$> white_space) (x0d :: l) = Some l.
Proof. vm_compute. reflexivity. Qed.

Lemma trim_start_tight l k : tight l → trim_start (l ++ k) = l ++ k.
Proof.
  intros [(b & l' & -> & Hb) _]. unfold trim_start. cbn [app length strip_all].
  by rewrite (strip_one_visible _ _ _ (proj1 white_space_invisible) Hb).
Qed.

Lemma trim_end_crlf l : tight l → trim_end (l ++ crlf) = l.
Proof.
  intros [_ (b & l' & -> & Hb)]. unfold trim_end. change crlf with [x0d; x0a].
  rewrite !length_app. cbn [length]. rewrite Nat.add_comm. cbn [Nat.add].
  rewrite !reverse_app. cbn [reverse rev_append app]. cbn [strip_all].
  rewrite strip_lf, strip_cr. rewrite Nat.add_comm. cbn [Nat.add].
  cbn [strip_all]. rewrite (strip_one_visible _ _ _ (proj2 white_space_invisible) Hb).
  by rewrite reverse_cons, reverse_involutive.
Qed.

Lemma trim_line l : tight l → trim (l ++ crlf) = l.
Proof. intros Hl. unfold trim. by rewrite trim_start_tight, trim_end_crlf. Qed.

Lemma trim_value l : tight l → trim (x20 :: l ++ crlf) = l.
Proof.
  intros Hl. unfold trim. enough (trim_start (x20 :: l ++ crlf) = l ++ crlf) as ->
    by by rewrite trim_end_crlf.
  unfold trim_start. cbn [length strip_all]. rewrite strip_space.
  destruct Hl as [(b & l' & -> & Hb) _]. cbn [app length strip_all].
  by rewrite (strip_one_visible _ _ _ (proj1 white_space_invisible) Hb).
Qed.

(** *** Lines *)

Definition printable (l : list byte) : Prop := Forall (fun b => between 32 126 b = true) l.

Lemma utf8_ascii l : Forall (fun b => between 0 0x7F b = true) l → utf8_valid l = true.
Proof. induction 1 as [|b l Hb _ IH]; [done|]. cbn [utf8_valid]. by rewrite Hb. Qed.

Lemma split_line_crlf l rest : printable l → split_line (l ++ crlf ++ rest) = Some (l ++ crlf, rest).
Proof.
  induction 1 as [|b l Hb _ IH]; [done|]. cbn [app split_line].
  rewrite (between_outside _ _ 10 10 b Hb) by lia. by rewrite IH.
Qed.

Lemma read_line_crlf closed l rest :
  printable l → read_line closed (l ++ crlf ++ rest) = Some (l ++ crlf, rest).
Proof.
  intros Hl. unfold read_line. rewrite split_line_crlf by done. rewrite utf8_ascii; [done|].
  apply Forall_app. split; [|by repeat constructor].
  eapply Forall_impl; [exact Hl|]. intros b. rewrite !between_spec. lia.
Qed.

Lemma split_space_visible l rest :
  Forall (fun b => visible b = true) l → split_space (l ++ x20 :: rest) = Some (l, rest).
Proof.
  induction 1 as [|b l Hb _ IH]; [done|]. cbn [app split_space].
  rewrite (between_outside _ _ 32 32 b Hb) by lia. by rewrite IH.
Qed.

(** *** Decimal numbers *)

Definition decimal (l : list byte) : Prop := Forall (fun b => between 48 57 b = true) l.

Lemma parse_digits_app acc l b :
  between 48 57 b = true →
  parse_digits acc (l ++ [b]) =
    (v ← parse_digits acc l;
     let v' := v * 10 + (byte_to_Z b - 48) in if v' <? 2 ^ 64 then Some v' else None).
Proof.
  intros Hb. revert acc. induction l as [|c l IH]; intros acc; cbn [app parse_digits].
  - by rewrite Hb.
  - case_match; [|done]. case_match; [|done]. apply IH.
Qed.

Lemma pretty_char_digit m : (m < 10)%N →
  byte_to_Z (byte_of_ascii (pretty_N_char m)) = 48 + Z.of_N m.
Proof.
  intros Hm. assert (∃ k, (k < 10)%nat ∧ m = N.of_nat k) as (k & Hk & ->).
  { exists (N.to_nat m). lia. }
  do 10 (destruct k as [|k]; [reflexivity|]). lia.
Qed.

Lemma parse_pretty_go n s : (n < 2 ^ 64)%N →
  parse_digits 0 (text (pretty_N_go n s)) = parse_digits (Z.of_N n) (text s) ∧
  ∃ pre, text (pretty_N_go n s) = pre ++ text s ∧ decimal pre.
Proof.
  revert s. induction (N.lt_wf_0 n) as [n _ IH]; intros s Hn.
  destruct (decide (n = 0)%N) as [->|Hne].
  { split; [done|]. exists []. split; [done|constructor]. }
  rewrite pretty_N_go_step by lia.
  assert (n `mod` 10 < 10)%N as Hm by by apply N.mod_lt.
  assert (n = 10 * (n `div` 10) + n `mod` 10)%N as Hdm by by apply N.div_mod.
  assert (n `div` 10 < n)%N as Hlt by (apply N.div_lt; lia).
  pose proof (pretty_char_digit _ Hm) as Hc. remember (pretty_N_char (n `mod` 10)) as c eqn:Hceq. clear Hceq.
  remember (n `mod` 10)%N as m eqn:Hmeq. clear Hmeq.
  remember (n `div` 10)%N as q eqn:Hq. clear Hq.
  destruct (IH q Hlt (String c s)) as [Hp (pre & Hpre & Hd)];
    [lia|]. split.
  - rewrite Hp, text_cons. cbn [parse_digits].
    rewrite (proj2 (between_spec 48 57 _)) by lia.
    replace (Z.of_N q * 10 + (byte_to_Z (byte_of_ascii c) - 48)) with (Z.of_N n) by lia.
    by rewrite (proj2 (Z.ltb_lt _ _)) by lia.
  - rewrite Hpre, text_cons. exists (pre ++ [byte_of_ascii c]). rewrite <- app_assoc. split; [done|].
    apply Forall_app. split; [done|]. constructor; [apply between_spec; lia|constructor].
Qed.

Lemma pretty_digits (n : nat) : Z.of_nat n < 2 ^ 64 →
  parse_usize (text (pretty n)) = Some (Z.of_nat n) ∧
  decimal (text (pretty n)) ∧ text (pretty n) ≠ [].
Proof.
  intros Hn. unfold pretty, pretty_nat, pretty, pretty_N.
  destruct (decide (N.of_nat n = 0)%N) as [Hz|Hz].
  { assert (n = 0%nat) as -> by lia. split_and!; [done|by repeat constructor|done]. }
  destruct (parse_pretty_go (N.of_nat n) "") as [Hp (pre & Hpre & Hd)]; [lia|].
  change (text "") with (@nil byte) in *. rewrite app_nil_r in Hpre. cbn [parse_digits] in Hp.
  rewrite nat_N_Z in Hp. rewrite <- Hpre in Hd.
  assert (text (pretty_N_go (N.of_nat n) "") ≠ []) as Hne.
  { intros He. rewrite He in Hp. injection Hp. lia. }
  split_and!; [|done|done]. unfold parse_usize.
  destruct (text (pretty_N_go (N.of_nat n) "")) as [|b l]; [done|].
  inversion Hd as [|? ? Hb _]; subst. by rewrite (between_outside _ _ 43 43 b Hb) by lia.
Qed.

Lemma decimal_tight l : decimal l → l ≠ [] → tight l ∧ printable l.
Proof.
  intros Hd Hne. assert (Hvis : ∀ b, between 48 57 b = true → visible b = true).
  { intros b. unfold visible. rewrite !between_spec. lia. }
  split; [split|].
  - destruct l as [|b l]; [done|]. inversion Hd; subst. eauto.
  - destruct (exists_last Hne) as (l' & b & ->). apply Forall_app in Hd as [_ Hb].
    inversion Hb; subst. eauto.
  - eapply Forall_impl; [exact Hd|]. intros b. rewrite !between_spec. lia.
Qed.

(** ** Well-formed requests *)

Record Request := mkRequest {
  rq_method : string;
  rq_path : string;
  rq_headers : list (list byte);
  rq_body : list byte;
}.

Definition request_line (rq : Request) : list byte :=
  text (rq_method rq) ++ x20 :: text (rq_path rq) ++ x20 :: text "HTTP/1.1".
Definition length_header (rq : Request) : list byte :=
  text "Content-Length:" ++ x20 :: text (pretty (length (rq_body rq))).

(** The bytes of a request: its line, the headers, the length and the body. *)
Definition render (rq : Request) : list byte :=
  request_line rq ++ crlf ++
  (rq_headers rq ≫= fun h => h ++ crlf) ++ length_header rq ++ crlf ++ crlf ++ rq_body rq.

Record request_ok (rq : Request) : Prop := {
  ro_method : Forall (fun b => visible b = true) (text (rq_method rq)) ∧ rq_method rq ≠ "";
  ro_path : Forall (fun b => visible b = true) (text (rq_path rq));
  ro_headers : Forall (fun h => printable h ∧ tight h ∧ is_content_length (h ++ crlf) = false) (rq_headers rq);
  ro_body : Z.of_nat (length (rq_body rq)) ≤ MAX_BODY;
}.

Lemma request_line_ok rq : request_ok rq → tight (request_line rq) ∧ printable (request_line rq).
Proof.
  intros [[Hm Hne] Hp _ _]. unfold request_line. split; [split|].
  - destruct (rq_method rq) as [|c m]; [done|]. rewrite text_cons in *. inversion Hm; subst.
    eexists _, _. split; [done|done].
  - exists x31. eexists (text (rq_method rq) ++ x20 :: text (rq_path rq) ++ x20 :: text "HTTP/1.").
    split; [|done]. rewrite <- !app_assoc. cbn [app]. rewrite <- !app_assoc. done.
  - assert (Hvis : ∀ l, Forall (fun b => visible b = true) l → printable l).
    { intros l Hl. eapply Forall_impl; [exact Hl|]. intros b. unfold visible. rewrite !between_spec. lia. }
    apply Forall_app. split; [by apply Hvis|]. constructor; [done|].
    apply Forall_app. split; [by apply Hvis|]. by repeat constructor.
Qed.

Lemma length_header_ok rq : request_ok rq →
  printable (length_header rq) ∧ trim (length_header rq ++ crlf) ≠ [] ∧
  is_content_length (length_header rq ++ crlf) = true ∧
  parse_usize (trim (drop 15 (length_header rq ++ crlf))) = Some (Z.of_nat (length (rq_body rq))).
Proof.
  intros [_ _ _ Hb]. unfold MAX_BODY in Hb.
  destruct (pretty_digits (length (rq_body rq))) as (Hparse & Hd & Hne); [lia|].
  destruct (decimal_tight _ Hd Hne) as [Ht Hp]. unfold length_header.
  set (digits := text (pretty (length (rq_body rq)))) in *. split_and!.
  - apply Forall_app. split; [by repeat constructor|]. by constructor.
  - enough (tight (text "Content-Length:" ++ x20 :: digits)) as Htl.
    { rewrite trim_line by done. done. }
    destruct Ht as [_ (b & l' & Heq & Hvb)]. split; [by eexists _, _|].
    exists b, (text "Content-Length:" ++ x20 :: l'). rewrite Heq. split; [|done].
    by rewrite <- app_assoc.
  - unfold is_content_length. rewrite <- app_assoc. apply bool_decide_eq_true. reflexivity.
  - rewrite <- app_assoc. change (drop 15 (text "Content-Length:" ++ (x20 :: digits) ++ crlf))
      with (x20 :: digits ++ crlf). by rewrite trim_value.
Qed.

(** *** Reading them *)

Lemma read_headers_skip f closed cl hs k :
  Forall (fun h => printable h ∧ tight h ∧ is_content_length (h ++ crlf) = false) hs →
  read_headers (length hs + f) closed cl ((hs ≫= fun h => h ++ crlf) ++ k) = read_headers f closed cl k.
Proof.
  induction 1 as [|h hs (Hp & Ht & Hc) _ IH]; [done|].
  change ((h :: hs) ≫= (fun h => h ++ crlf)) with ((h ++ crlf) ++ (hs ≫= fun h => h ++ crlf)).
  rewrite <- !app_assoc. cbn [length Nat.add read_headers].
  rewrite read_line_crlf by done. cbn [mbind option_bind].
  rewrite trim_line by done. rewrite bool_decide_false by (destruct Ht as [(? & ? & -> & _) _]; done).
  rewrite Hc. exact IH.
Qed.

Lemma read_headers_length f closed rq k :
  request_ok rq →
  read_headers (2 + f) closed 0 (length_header rq ++ crlf ++ crlf ++ k) =
    Some (Z.of_nat (length (rq_body rq)), k).
Proof.
  intros Hrq. destruct (length_header_ok rq Hrq) as (Hp & Ht & Hc & Hparse).
  cbn [Nat.add read_headers]. rewrite read_line_crlf by done. cbn [mbind option_bind].
  rewrite bool_decide_false, Hc, Hparse by done.
  change (crlf ++ k) with ([] ++ crlf ++ k). rewrite read_line_crlf by constructor. reflexivity.
Qed.

Lemma split_request_line rq : request_ok rq →
  split_space (request_line rq) = Some (text (rq_method rq), text (rq_path rq) ++ x20 :: text "HTTP/1.1").
Proof. intros [[Hm _] _ _ _]. by apply split_space_visible. Qed.

Lemma to_str_text s : to_str (text s) = s.
Proof. apply String.string_of_list_byte_of_string. Qed.

Section reading.
Context `{Crypto} `{CoreJson} `{JsonText} `{BuildProfile} `{HashOrder} `{UnstableSort}.
Context {S : Type} `{!BlockStore S} `{!UtxoStore S} `{!ValidatorStore S}.
Implicit Types (st : NodeState S).

Lemma handle_request closed rq rest st :
  request_ok rq →
  handle_conn closed (render rq ++ rest) st =
    (resp ← route (rq_method rq) (rq_path rq) (rq_body rq); mret (Some resp)) st.
Proof.
  intros Hrq. destruct (request_line_ok rq Hrq) as [Ht Hp].
  unfold handle_conn, render. rewrite <- !app_assoc. rewrite read_line_crlf by done.
  set (k := length_header rq ++ crlf ++ crlf ++ rq_body rq ++ rest).
  rewrite (read_headers_fuel _ (length (rq_headers rq) + (2 + (length ((rq_headers rq ≫= fun h => h ++ crlf) ++ k)))))
    by (clear; lia).
  generalize (length ((rq_headers rq ≫= fun h => h ++ crlf) ++ k)) as f. intros f.
  rewrite read_headers_skip by apply Hrq. unfold k. clear k.
  rewrite read_headers_length by done.
  pose proof (ro_body _ Hrq) as Hb. rewrite Z.min_l by done. rewrite length_app.
  rewrite (proj2 (Z.ltb_ge (Z.of_nat (_ + _)) _)) by lia. rewrite andb_false_r.
  rewrite trim_line, split_request_line by done.
  rewrite split_space_visible by apply Hrq. rewrite !to_str_text. f_equal.
  assert ((if 0 <? Z.of_nat (length (rq_body rq)) then take (Z.to_nat (Z.of_nat (length (rq_body rq))))
    (rq_body rq ++ rest) else []) = rq_body rq) as ->; [|done].
  rewrite Nat2Z.id, take_app_length. destruct (rq_body rq); done.
Qed.

(** C29: every well-formed request is served: from a request line, any headers, a
    content length and a body of at most 4 MiB the parser recovers exactly the
    method, the path and the body, whatever follows on the connection, and
    answers with the response of the handler they select. *)
Theorem request_served closed rq rest st :
  request_ok rq →
  handle_conn closed (render rq ++ rest) st =
    (resp ← route (rq_method rq) (rq_path rq) (rq_body rq); mret (Some resp)) st.
Proof. apply handle_request. Qed.

(** C30: any stream of bytes is harmless.  Whatever a client sends, and however
    its connection ends, the stores and the peers of the node do not change and
    the mempool keeps its invariants; what is written back is one well-framed
    response; and without a response nothing happened at all, unless the handler
    panicked. *)
Theorem connection_safe closed received st r st' :
  mempool_ok (n_mempool st) → handle_conn closed received st = (r, st') →
  n_store st' = n_store st ∧ n_peers st' = n_peers st ∧ mempool_ok (n_mempool st') ∧
  match r with
  | Ok (Some resp) => well_framed resp
  | Ok None => st' = st
  | _ => True
  end.
Proof.
  intros Hm. unfold handle_conn.
  destruct (read_line closed received) as [[line rest]|]; [|by intros [= <- <-]].
  destruct (read_headers _ closed 0 rest) as [[cl rest']|]; [|by intros [= <- <-]].
  cbv zeta. case_match; [by intros [= <- <-]|].
  destruct (split_space (trim line)) as [[method after]|]; [|by intros [= <- <-]].
  unfold mbind, ST_bind. destruct (route _ _ _ st) as [rr st1] eqn:Hr.
  apply route_spec in Hr as (Hs & Hp & Hm' & Hf & _); [|done].
  destruct rr as [resp|[]|]; intros [= <- <-]; split_and!; auto.
Qed.
End reading.
