(* ===== verification/Connector.v ===== *)
(** * Connections ([bcc-node/src/p2p/connector.rs], [bcc-node/src/p2p/server.rs])

    The choice of the peers to dial with its exponential back-off, and the limit
    on inbound connections as a step relation of the listener and the connection
    tasks it spawns. *)

From S2P Require Import Prelude Bytes Types Store Ledger Validation Mempool DebugEvent Node Handler.
From S2P Require Import Protocol.

(** ** The connector *)

Definition BASE_BACKOFF_SECS : Z := 2.
Definition MAX_BACKOFF_SECS : Z := 64.

(** [HashMap<SocketAddr, (Instant, u64)>]: the next allowed attempt, as a number
    of seconds, and the current back-off. *)
Notation BackoffMap := (gmap SocketAddr (Z * Z)) (only parsing).

(** The two [continue]s of the round at time [now]: connected peers and peers
    within their back-off window are skipped. *)
Definition may_dial (connected : list SocketAddr) (backoff : BackoffMap) (now : Z) (a : SocketAddr) : bool :=
  negb (bool_decide (a ∈ connected)) &&
  match backoff !! a with
  | Some (next_attempt, _) => negb (now <? next_attempt)
  | None => true
  end.

(** The peers dialled in a round. *)
Definition dial_targets (peers connected : list SocketAddr) (backoff : BackoffMap) (now : Z) :
    list SocketAddr :=
  filter (fun a => may_dial connected backoff now a) peers.

(** The connection is established: the back-off is forgotten. *)
Definition dial_connected (a : SocketAddr) (backoff : BackoffMap) : BackoffMap := delete a backoff.

(** The connection fails at time [now]. *)
Definition dial_failed (a : SocketAddr) (now : Z) (backoff : BackoffMap) : BackoffMap :=
  let cur := default BASE_BACKOFF_SECS (snd <$> backoff !! a) in
  let nxt := Z.min (cur * 2) MAX_BACKOFF_SECS in
  <[a := (now + cur, nxt)]> backoff.

(** The targets of a round of a node. *)
Definition connector_round `{HashOrder} {S} (config : NodeConfig) (st : NodeState S)
    (backoff : BackoffMap) (now : Z) : list SocketAddr :=
  dial_targets (bootstrap_peers config) (PeerSet.addrs (n_peers st)) backoff now.

(** ** The server *)

Definition MAX_INBOUND_PEERS : nat := 50.

(** [current >= MAX_INBOUND_PEERS] rejects. *)
Definition accepts_connection {S} (st : NodeState S) : bool :=
  negb (MAX_INBOUND_PEERS <=? PeerSet.len (n_peers st))%nat.

(** The listener and the tasks it has spawned that have not registered yet.  The
    limit is read when a connection is accepted, the peer is registered later,
    by its own task. *)
Inductive server_step `{HashOrder} {S} :
    relation (NodeState S * list (SocketAddr * Sender)) :=
| server_accept st pending a tx :
    accepts_connection st = true → server_step (st, pending) (st, (a, tx) :: pending)
| server_reject st pending :
    accepts_connection st = false → server_step (st, pending) (st, pending)
| task_register st st' pending1 pending2 a tx :
    register_peer a tx st = Some st' →
    server_step (st, pending1 ++ (a, tx) :: pending2) (st', pending1 ++ pending2)
| task_refused st pending1 pending2 a tx :
    register_peer a tx st = None →
    server_step (st, pending1 ++ (a, tx) :: pending2) (st, pending1 ++ pending2)
| task_ends st pending a :
    is_Some (n_peers st !! a) → server_step (st, pending) (deregister_peer a st, pending).

(** ** The loop of the connector ([run_connector]) *)

Definition DIAL_INTERVAL_SECS : Z := 5.

(** The peers read as connected while a round is under way, the shared back-off
    map, and the dial tasks whose connection attempt has not returned yet. *)
Record Connector := mkConnector {
  cn_connected : option (list SocketAddr);
  cn_backoff : gmap SocketAddr (Z * Z);
  cn_dialing : list SocketAddr;
}.

Definition connector_start : Connector := mkConnector None ∅ [].

(** The connector with the tasks it has spawned, the listener and the
    connection tasks; the label is the clock reading of a step that takes one.
    A round reads the peers, then the back-off map and the clock, and other
    tasks may move in between; a task that is connected goes on as [run_peer]. *)
Inductive connector_step `{HashOrder} {S} (config : NodeConfig) :
    option Z → relation (NodeState S * list (SocketAddr * Sender) * Connector) :=
| round_starts st pending backoff dialing :
    bootstrap_peers config ≠ [] →
    connector_step config None (st, pending, mkConnector None backoff dialing)
      (st, pending, mkConnector (Some (PeerSet.addrs (n_peers st))) backoff dialing)
| round_spawns st pending connected backoff dialing now :
    connector_step config (Some now) (st, pending, mkConnector (Some connected) backoff dialing)
      (st, pending, mkConnector None backoff
        (dialing ++ dial_targets (bootstrap_peers config) connected backoff now))
| dial_succeeds st pending connected backoff dialing1 dialing2 a tx :
    connector_step config None (st, pending, mkConnector connected backoff (dialing1 ++ a :: dialing2))
      (st, (a, tx) :: pending, mkConnector connected (dial_connected a backoff) (dialing1 ++ dialing2))
| dial_fails st pending connected backoff dialing1 dialing2 a now :
    connector_step config (Some now) (st, pending, mkConnector connected backoff (dialing1 ++ a :: dialing2))
      (st, pending, mkConnector connected (dial_failed a now backoff) (dialing1 ++ dialing2))
| others_step st pending st' pending' c :
    server_step (st, pending) (st', pending') →
    connector_step config None (st, pending, c) (st', pending', c).

(** A run between two clock readings; the clock is not set back. *)
Inductive connector_run `{HashOrder} {S} (config : NodeConfig) :
    Z → NodeState S * list (SocketAddr * Sender) * Connector →
    Z → NodeState S * list (SocketAddr * Sender) * Connector → Prop :=
| run_stays now s : connector_run config now s now s
| run_steps now label s s1 later s' :
    connector_step config label s s1 → now ≤ default now label →
    connector_run config (default now label) s1 later s' → connector_run config now s later s'.

(** ** Lemmas *)

Lemma elem_of_dial_targets peers connected backoff now a :
  a ∈ dial_targets peers connected backoff now ↔
  a ∈ peers ∧ a ∉ connected ∧ ∀ t d, backoff !! a = Some (t, d) → t ≤ now.
Proof.
  unfold dial_targets, may_dial. rewrite list_elem_of_filter, Is_true_true, andb_true_iff,
    negb_true_iff, bool_decide_eq_false.
  destruct (backoff !! a) as [[t d]|]; [rewrite negb_true_iff, Z.ltb_ge|]; naive_solver.
Qed.

(** The back-off of a peer after failures at the given times. *)
Definition after_failures (a : SocketAddr) (times : list Z) (backoff : BackoffMap) : BackoffMap :=
  foldl (fun b t => dial_failed a t b) backoff times.

Lemma after_failures_entry a times t :
  after_failures a (times ++ [t]) ∅ !! a =
    Some (t + Z.min (2 ^ Z.of_nat (length times + 1)) 64, Z.min (2 ^ Z.of_nat (length times + 2)) 64).
Proof.
  unfold after_failures. rewrite foldl_app. cbn [foldl].
  revert t. induction times as [|s times IH] using rev_ind; intros t.
  { cbn [foldl]. unfold dial_failed. by rewrite lookup_insert_eq, lookup_empty. }
  rewrite foldl_app. cbn [foldl]. unfold dial_failed at 1, MAX_BACKOFF_SECS. rewrite lookup_insert_eq, IH.
  cbn [fmap option_fmap option_map snd default]. rewrite length_app. cbn [length].
  replace (length times + 1 + 2)%nat with (S (length times + 2)) by lia.
  replace (length times + 1 + 1)%nat with (length times + 2)%nat by lia.
  rewrite (Nat2Z.inj_succ (length times + 2)), Z.pow_succ_r by lia. unfold id. do 2 f_equal; lia.
Qed.

Lemma register_peer_None `{HashOrder} {S} a tx (st : NodeState S) :
  register_peer a tx st = None ↔ ∃ b, ip b = ip a ∧ is_Some (n_peers st !! b).
Proof.
  rewrite <- has_ip_spec. unfold register_peer. by destruct (PeerSet.has_ip _ _).
Qed.

(** *** The back-off map of a run *)

Lemma connector_run_trans `{HashOrder} {S} config now (s : NodeState S * _ * _) now1 s1 now2 s2 :
  connector_run config now s now1 s1 → connector_run config now1 s1 now2 s2 → connector_run config now s now2 s2.
Proof. induction 1; [done|]. intros. by eapply run_steps; eauto. Qed.

(** Every entry is that of a failed attempt: the back-off it set is one of 2 to 64
    seconds, and the next one is twice as long, up to 64. *)
Definition backoff_entry (now : Z) (e : Z * Z) : Prop :=
  ∃ failed served, failed ≤ now ∧ served ∈ [2; 4; 8; 16; 32; 64] ∧
    e = (failed + served, Z.min (served * 2) MAX_BACKOFF_SECS).
Definition backoff_ok (now : Z) (b : gmap SocketAddr (Z * Z)) : Prop := map_Forall (fun _ => backoff_entry now) b.

Lemma backoff_ok_later now now' b : now ≤ now' → backoff_ok now b → backoff_ok now' b.
Proof.
  intros Hle Hb. eapply map_Forall_impl; [exact Hb|]. intros a e (f & d & ? & ? & ?). exists f, d. split_and!; [lia|done..].
Qed.

Lemma dial_failed_ok a now b : backoff_ok now b → backoff_ok now (dial_failed a now b).
Proof.
  intros Hb. unfold dial_failed. apply map_Forall_insert_2; [|done].
  exists now, (default BASE_BACKOFF_SECS (snd <$> b !! a)). split_and!; [done| |done].
  destruct (b !! a) as [e|] eqn:Ha; cbn; [|by left]. destruct (Hb _ _ Ha) as (f & d & _ & Hd & ->). cbn [snd].
  rewrite !elem_of_cons in Hd. destruct Hd as [->|[->|[->|[->|[->|[->|[]%not_elem_of_nil]]]]]]; vm_compute; set_solver.
Qed.

Lemma connector_step_backoff `{HashOrder} {S} config label now (s s' : NodeState S * _ * _) :
  connector_step config label s s' → now ≤ default now label →
  backoff_ok now (cn_backoff s.2) → backoff_ok (default now label) (cn_backoff s'.2).
Proof.
  intros Hstep Hle Hb. apply (backoff_ok_later _ _ _ Hle) in Hb. destruct Hstep; cbn in *; try done.
  - unfold dial_connected. by apply map_Forall_delete.
  - by apply dial_failed_ok.
Qed.

Lemma connector_run_backoff `{HashOrder} {S} config now (s : NodeState S * _ * _) now' s' :
  connector_run config now s now' s' → backoff_ok now (cn_backoff s.2) → backoff_ok now' (cn_backoff s'.2).
Proof. induction 1; [done|]. intros Hb. by eauto using connector_step_backoff. Qed.

(** *** Attempts that do not return *)

(** [n] rounds, [DIAL_INTERVAL_SECS] apart, while the peer does not answer. *)
Lemma rounds_pile_up `{HashOrder} {S} config a (st : NodeState S) pending now (n : nat) :
  bootstrap_peers config = [a] → n_peers st !! a = None →
  connector_run config now (st, pending, connector_start) (now + DIAL_INTERVAL_SECS * Z.of_nat n)
    (st, pending, mkConnector None ∅ (replicate n a)).
Proof.
  intros Ha Hno. unfold DIAL_INTERVAL_SECS. induction n as [|n IH]; [rewrite Z.mul_0_r, Z.add_0_r; constructor|].
  eapply connector_run_trans; [exact IH|]. eapply (run_steps _ _ None); [apply round_starts; by rewrite Ha|done|].
  eapply (run_steps _ _ (Some (now + 5 * Z.of_nat (Datatypes.S n)))); [apply round_spawns|cbn; lia|].
  rewrite Ha. assert (dial_targets [a] (PeerSet.addrs (n_peers st)) ∅ (now + 5 * Z.of_nat (Datatypes.S n)) = [a]) as ->.
  { unfold dial_targets. rewrite filter_cons_True; [done|]. unfold may_dial. rewrite lookup_empty, bool_decide_false; [done|].
    unfold PeerSet.addrs. intros ([a' c] & -> & Hin)%list_elem_of_fmap. rewrite hash_iter_perm, elem_of_map_to_list in Hin. cbn in Hno. congruence. }
  cbn [default from_option id]. rewrite (replicate_S_end n a). constructor.
Qed.

(** All attempts fail at once. *)
Lemma attempts_fail `{HashOrder} {S} config a (st : NodeState S) pending now b (n : nat) :
  connector_run config now (st, pending, mkConnector None b (replicate n a)) now
    (st, pending, mkConnector None (after_failures a (replicate n now) b) []).
Proof.
  revert b. induction n as [|n IH]; intros b; [constructor|]. cbn [replicate].
  eapply (run_steps _ _ (Some now)); [apply (dial_fails _ st pending None b [] (replicate n a) a now)|cbn; lia|].
  cbn [default from_option id]. exact (IH _).
Qed.

(** ** The properties *)

Section properties.
Context `{Crypto} `{CoreJson} `{Json Message} `{BuildProfile} `{HashOrder} `{UnstableSort}.
Context {S : Type} `{!BlockStore S} `{!UtxoStore S} `{!ValidatorStore S}.
Implicit Types (st : NodeState S).

(** The back-off schedule: after [n] consecutive failures, the last one at time
    [t], a peer that is not connected is dialled in a round exactly when
    [min (2 ^ n) 64] seconds have passed since [t]. *)
Theorem backoff_schedule peers connected a times t now :
  a ∈ peers → a ∉ connected →
  a ∈ dial_targets peers connected (after_failures a (times ++ [t]) ∅) now ↔
  t + Z.min (2 ^ Z.of_nat (length (times ++ [t]))) 64 ≤ now.
Proof.
  intros Hp Hc. rewrite elem_of_dial_targets, after_failures_entry, length_app. cbn [length].
  split; [intros (_ & _ & Ht); by eapply Ht|]. intros Ht. split_and!; [done..|]. by intros ? ? [= <- _].
Qed.

(** A bootstrap peer that is connected from another port of its address is
    dialled in every round, since the connector compares addresses with ports;
    every such connection is refused by the handler, which compares IP
    addresses, and leaves the node as it was. *)
Theorem connected_peer_redialled config a b tx greeted inputs now st (backoff : BackoffMap) :
  a ∈ bootstrap_peers config → is_Some (n_peers st !! b) → ip b = ip a →
  n_peers st !! a = None →
  a ∈ connector_round config st (dial_connected a backoff) now ∧
  run_peer config a tx greeted inputs st = (Some (Ok tt), st).
Proof.
  intros Ha Hb Hip Hno. split.
  - apply elem_of_dial_targets. split_and!; [done| |].
    + unfold PeerSet.addrs. intros ([a' c] & -> & Hin)%list_elem_of_fmap.
      rewrite hash_iter_perm, elem_of_map_to_list in Hin. cbn in Hno. congruence.
    + unfold dial_connected. intros t d Ht. by rewrite lookup_delete_eq in Ht.
  - unfold run_peer. by rewrite (proj2 (register_peer_None a tx st)) by eauto.
Qed.

(** C39: a bootstrap peer is never given up.  Whatever connection attempts succeed
    or fail in whatever order, however many are under way at once and whatever
    the listener does: every back-off is that of a failed attempt, one of 2, 4, 8,
    16, 32 and 64 seconds from then on, and the one recorded for the next failure
    is twice as long, up to 64; a round dials exactly the bootstrap peers that it
    has not read as connected and whose back-off is over; and 64 seconds after
    the last event it dials all of those that are not connected. *)
Theorem bootstrap_peers_redialled config start st0 now st pending c :
  connector_run config start (st0, [], connector_start) now (st, pending, c) →
  (∀ a t d, cn_backoff c !! a = Some (t, d) →
     ∃ failed served, failed ≤ now ∧ served ∈ [2; 4; 8; 16; 32; 64] ∧
       t = failed + served ∧ d = Z.min (served * 2) 64) ∧
  ∀ connected later, cn_connected c = Some connected →
    ∃ dialled, connector_step config (Some later) (st, pending, c)
        (st, pending, mkConnector None (cn_backoff c) (cn_dialing c ++ dialled)) ∧
      (∀ a, a ∈ dialled ↔ a ∈ bootstrap_peers config ∧ a ∉ connected ∧
         ∀ t d, cn_backoff c !! a = Some (t, d) → t ≤ later) ∧
      (now + 64 ≤ later → ∀ a, a ∈ bootstrap_peers config → a ∉ connected → a ∈ dialled).
Proof.
  intros Hrun. apply connector_run_backoff in Hrun; [|apply map_Forall_empty]. cbn [snd] in Hrun. split.
  - intros a t d Ha. destruct (Hrun _ _ Ha) as (f & e & ? & ? & [= -> ->]). by exists f, e.
  - intros connected later Hc. destruct c as [sn b dialing]. cbn in *. subst sn.
    eexists. split; [apply round_spawns|]. split; [intros a; apply elem_of_dial_targets|].
    intros Hle a Ha Hno. apply elem_of_dial_targets. split_and!; [done..|].
    intros t d Ht. destruct (Hrun _ _ Ht) as (f & e & Hf & He & [= -> _]).
    rewrite !elem_of_cons in He. destruct He as [->|[->|[->|[->|[->|[->|[]%not_elem_of_nil]]]]]]; lia.
Qed.

(** C40: attempts pile up.  A peer is not marked while an attempt to reach it is
    under way, so a peer that does not answer is dialled again in every round:
    after [n] rounds [n] attempts are pending, and when they all fail together,
    as attempts to a host that is down do, the back-off of this first outage is
    [min (2 ^ n) 64] seconds instead of two. *)
Theorem dials_pile_up config a st pending start (n : nat) :
  bootstrap_peers config = [a] → n_peers st !! a = None → (0 < n)%nat →
  let now := start + DIAL_INTERVAL_SECS * Z.of_nat n in
  ∃ c, connector_run config start (st, pending, connector_start) now (st, pending, mkConnector None ∅ (replicate n a)) ∧
    connector_run config now (st, pending, mkConnector None ∅ (replicate n a)) now (st, pending, c) ∧
    cn_backoff c !! a = Some (now + Z.min (2 ^ Z.of_nat n) 64, Z.min (2 ^ Z.of_nat (n + 1)) 64).
Proof.
  intros Ha Hno Hn now. eexists. split; [by apply rounds_pile_up|]. split; [apply attempts_fail|].
  destruct n as [|n]; [lia|]. cbn [cn_backoff]. rewrite (replicate_S_end n), after_failures_entry, length_replicate.
  by replace (Datatypes.S n + 1)%nat with (n + 2)%nat by lia; replace (n + 1)%nat with (Datatypes.S n) by lia.
Qed.

(** One connection after the other: the peers of a node that accepts a connection
    stay within the limit when the task registers before the next connection is
    accepted.  *)
Lemma accept_then_register a tx st st' :
  accepts_connection st = true → register_peer a tx st = Some st' →
  (PeerSet.len (n_peers st') ≤ MAX_INBOUND_PEERS)%nat.
Proof.
  unfold accepts_connection. rewrite negb_true_iff, Nat.leb_gt. intros Hlt (Hp & Hno & _)%register_peer_spec.
  unfold PeerSet.len in *. rewrite Hp, map_size_insert_None by done. lia.
Qed.

(** All pending tasks of distinct new addresses can register. *)
Lemma register_all pending st :
  NoDup (ip <$> pending.*1) → (∀ a, a ∈ pending.*1 → PeerSet.has_ip (ip a) (n_peers st) = false) →
  ∃ st', rtc server_step (st, pending) (st', []) ∧
    PeerSet.len (n_peers st') = (PeerSet.len (n_peers st) + length pending)%nat.
Proof.
  revert st. induction pending as [|[a tx] pending IH]; intros st Hnd Hno.
  { exists st. split; [done|]. cbn. lia. }
  rewrite !fmap_cons in Hnd. apply NoDup_cons in Hnd as [Ha Hnd].
  destruct (register_peer a tx st) as [st1|] eqn:Hr.
  2:{ unfold register_peer in Hr. rewrite (Hno a) in Hr; [done|]. rewrite fmap_cons. by left. }
  pose proof Hr as (Hp & Hn & _)%register_peer_spec.
  destruct (IH st1 Hnd) as (st' & Hrtc & Hlen).
  { intros b Hb. apply not_true_iff_false. intros (c & Hc & Hs)%has_ip_spec.
    rewrite Hp, lookup_insert_is_Some in Hs. destruct Hs as [->|[_ Hs]].
    - apply Ha. cbn. rewrite Hc. by apply list_elem_of_fmap_2.
    - assert (PeerSet.has_ip (ip b) (n_peers st) = true) as Hh by (apply has_ip_spec; eauto).
      rewrite (Hno b) in Hh; [done|]. rewrite fmap_cons. by right. }
  exists st'. split.
  - eapply rtc_l; [|exact Hrtc]. by apply (task_register st st1 [] pending a tx).
  - rewrite Hlen. unfold PeerSet.len. rewrite Hp, map_size_insert_None by done. cbn. lia.
Qed.

Lemma accept_all pending st :
  accepts_connection st = true → rtc server_step (st, []) (st, pending).
Proof.
  intros Ha. induction pending as [|[a tx] pending IH]; [done|].
  eapply rtc_r; [exact IH|]. by apply server_accept.
Qed.

(** The limit on inbound connections is no bound on the number of peers: the
    listener reads the peer count before the accepted tasks register, so from
    any state below the limit, any number of connections from distinct new IP
    addresses can all end up registered. *)
Theorem inbound_limit_exceeded (pending : list (SocketAddr * Sender)) st :
  accepts_connection st = true → NoDup (ip <$> pending.*1) →
  (∀ a, a ∈ pending.*1 → PeerSet.has_ip (ip a) (n_peers st) = false) →
  ∃ st', rtc server_step (st, []) (st', []) ∧
    PeerSet.len (n_peers st') = (PeerSet.len (n_peers st) + length pending)%nat.
Proof.
  intros Ha Hnd Hno. destruct (register_all pending st Hnd Hno) as (st' & Hr & Hl).
  exists st'. split; [|done]. etransitivity; [by apply accept_all|done].
Qed.
End properties.
