(* ===== verification/Startup.v ===== *)
(** * Start-up and monitoring ([bcc-node/src/main.rs], [bcc-node/src/debug_ws.rs])

    [main] up to the spawning of its tasks: configuration, store, genesis and the
    initial download.  The theorems compose genesis and download with a running
    bootstrap peer, for short chains and for long ones. *)

From S2P Require Import Prelude Bytes Types Encoding Store Ledger Validation Mempool DebugEvent Node Handler.
From S2P Require Import Protocol Genesis Ibd.

Section startup.
Context `{Crypto} `{CoreJson} `{Json Message} `{BuildProfile} `{HashOrder}.
Context {S : Type} `{!BlockStore S} `{!UtxoStore S} `{!ValidatorStore S}.

(** Steps 4 to 7 of [main], for an opened store: [None] when the connection
    attempts run out before the download ends. *)
Definition start_node (genesis_cfg : GenesisConfig) (config : NodeConfig) (attempts : list Attempt)
    (store : S) : option (Res NodeError (NodeState S)) :=
  match apply_genesis genesis_cfg store with
  | (Ok _, store) =>
      let state := perform [Emit (NodeStarting (as_str (my_address config))
                                    (addr_to_string (http_addr config))
                                    (addr_to_string (listen_addr config)))]
                     (new_node config store) in
      match run_ibd config attempts store with
      | (Some (Ok _), store') => Some (Ok (set_store store' state))
      | (Some (Err e), _) => Some (Err e)
      | (Some Panic, _) => Some Panic
      | (None, _) => None
      end
  | (Err e, _) => Some (Err e)
  | (Panic, _) => Some Panic
  end.

(** [config.http_addr.port() + 1000], a [u16]. *)
Definition debug_port (config : NodeConfig) : Res Empty_set Z :=
  let p := port (http_addr config) + 1000 in
  if p <? 2 ^ 16 then Ok p else if overflow_checks then Panic else Ok (p `mod` 2 ^ 16).

(** What [main] reads from its surroundings. *)
Record MainEnv := mkMainEnv {
  config_file : string + ConfigTable;
  config_env : ConfigTable;
  open_store : string → NodeError + S;
  read_file : string → string + string;
  parse_toml : string → string + GenesisConfig;
  peers_do : list Attempt;
}.

(** [main] up to the spawning of the tasks: the state they share and the port of
    the debug server.  The contexts [anyhow] adds to errors are left out. *)
Definition run_main `{ParseAddr} `{ConfigCrate} (env : MainEnv) : option (Res NodeError (NodeState S * Z)) :=
  let loaded :=
    config ← config_from_file (config_file env) (config_env env);
    store ← of_sum (open_store env (sled_path config));
    genesis_cfg ← genesis_from_file (parse_toml env) (read_file env (genesis_path config));
    Ok (config, store, genesis_cfg) in
  match loaded with
  | Ok (config, store, genesis_cfg) =>
      match start_node genesis_cfg config (peers_do env) store with
      | Some (Ok state) =>
          match debug_port config with
          | Ok p => Some (Ok (state, p))
          | Err e => match e with end
          | Panic => Some Panic
          end
      | Some (Err e) => Some (Err e)
      | Some Panic => Some Panic
      | None => None
      end
  | Err e => Some (Err e)
  | Panic => Some Panic
  end.

(** [build_snapshot] of [debug_ws.rs], without the time stamp. *)
Definition snapshot_event (st : NodeState S) : DebugEvent :=
  let '(tip_height, tip_hash) :=
    match tip (n_store st) with
    | Ok (Some (h, hash)) => (h, hex_encode hash)
    | _ => (0, "0000000000000000000000000000000000000000000000000000000000000000")
    end in
  NodeSnapshot tip_height tip_hash (addr_to_string <$> PeerSet.addrs (n_peers st))
    (Mempool.len (n_mempool st)).

End startup.

(** When [main] gets to its tasks, the configured key owns the configured address
    and, in a build with overflow checks, the debug port is 1000 above the HTTP
    port. *)
Lemma run_main_ready `{Crypto} `{CoreJson} `{Json Message} `{BuildProfile} `{HashOrder} `{ParseAddr} `{ConfigCrate}
    {S : Type} `{!BlockStore S} `{!UtxoStore S} `{!ValidatorStore S} (env : MainEnv (S := S)) st p :
  run_main env = Some (Ok (st, p)) →
  ∃ config store genesis_cfg,
    my_address config = Address.from_pubkey_bytes (vk_as_bytes (verifying_key (my_signing_key config))) ∧
    open_store env (sled_path config) = inr store ∧
    start_node genesis_cfg config (peers_do env) store = Some (Ok st) ∧
    (overflow_checks = true → p = port (http_addr config) + 1000 ∧ p < 2 ^ 16).
Proof.
  unfold run_main. cbv zeta. destruct (mbind _ _) as [[[config store] genesis_cfg]|e|] eqn:Hl; [|done..].
  apply res_bind_Ok in Hl as (c & Hc & Hl). apply res_bind_Ok in Hl as (s & Hs%of_sum_Ok & Hl).
  apply res_bind_Ok in Hl as (g & _ & [= -> -> ->]).
  apply res_bind_Ok in Hc as (table & _ & (raw & _ & [Hkey _]%from_raw_key_matches)%res_bind_Ok).
  destruct (start_node _ _ _ _) as [[st'|e|]|] eqn:Hst; [|done..].
  destruct (debug_port config) as [q|[]|] eqn:Hq; [|done]. intros [= -> ->].
  exists config, store, genesis_cfg. split_and!; [done..|]. intros Hov.
  unfold debug_port in Hq. rewrite Hov in Hq. cbv zeta in Hq.
  destruct (Z.ltb_spec (port (http_addr config) + 1000) (2 ^ 16)); [by injection Hq as <-|done].
Qed.

(** ** The properties *)

Section properties.
Context `{Crypto} `{CoreJson} `{Json Message} `{BuildProfile} `{HashOrder} `{UnstableSort}.
Context {S1 : Type} `{!BlockStore S1} `{!UtxoStore S1} `{!ValidatorStore S1} `{!StoreLaws S1}.
Context {S2 : Type} `{!BlockStore S2} `{!UtxoStore S2} `{!ValidatorStore S2} `{!StoreLaws S2}.

Lemma start_synced genesis_cfg (s s1 : S1) alloc_txs (c : gmap Z Block) :
  store_ok s → view s = mkLedger ∅ ∅ ∅ → apply_genesis genesis_cfg s = (Ok tt, s1) →
  collect_res (alloc_tx <$> g_accounts genesis_cfg) = Ok alloc_txs →
  c !! 0 = Some (build_genesis_block (g_timestamp genesis_cfg) alloc_txs) →
  synced c s1 0 ∧ replayed s1 0.
Proof.
  intros Hs Hv Hg Htxs Hc0.
  destruct (genesis_spec _ _ _ Hs Hv Hg) as (txs & vs & Htxs' & _ & Hch & Hcons & Hut & _).
  rewrite Htxs in Htxs'. injection Htxs' as <-.
  set (g := build_genesis_block (g_timestamp genesis_cfg) alloc_txs) in *. split.
  - split; [split; [apply Hcons|split; [apply Hcons|lia]]|].
    intros h Hh. replace h with 0 by lia. by rewrite Hch, lookup_singleton_eq.
  - unfold replayed. by rewrite Hut, Hch, (replay_below_succ _ 0 g) by (lia || apply lookup_singleton_eq).
Qed.

(** C13: a new node joins the network: started on an empty store with the genesis
    configuration of the network and a running node of it as its bootstrap peer,
    which greets it and then answers its requests, start-up always ends, as long
    as the network's chain has at most 255 blocks above genesis.  If it reports
    a running node, the node holds the peer's chain, the unspent outputs of that
    chain, an empty mempool and no peers; otherwise a store call or the
    validation of one of the peer's blocks failed. *)
Theorem new_node_joins genesis_cfg config peer_config client channel (server : NodeState S2)
    (s s1 : S1) alloc_txs t2 x greeting n :
  let c := chain (view (n_store server)) in
  let l := mkIbdLoop 1 1 0 0 0 in
  store_ok s → view s = mkLedger ∅ ∅ ∅ → apply_genesis genesis_cfg s = (Ok tt, s1) →
  collect_res (alloc_tx <$> g_accounts genesis_cfg) = Ok alloc_txs → tip s1 = Ok x →
  bootstrap_peers config ≠ [] →
  store_at (n_store server) t2 → t2 < 256 → (∀ h, ∃ bs, iter_from h (n_store server) = Ok bs) →
  c !! 0 = Some (build_genesis_block (g_timestamp genesis_cfg) alloc_txs) →
  tip_greeting (n_store server) = Some (NewBlock greeting) →
  sendable peer_config client channel server greeting 1 →
  ∃ r, start_node genesis_cfg config
         [Accepted (node_events config peer_config client channel server (2 + n) (NewBlock greeting) l s1)] s = Some r ∧
    match r with
    | Ok st => chain (view (n_store st)) = c ∧ replayed (n_store st) t2 ∧
        validators (view (n_store st)) = validators (view s1) ∧
        mempool_ok (n_mempool st) ∧ mp_txs (n_mempool st) = [] ∧ n_peers st = ∅
    | _ => ∃ r' (s' : S1), sync_failed config c r' s' ∧ r' ≠ Ok tt
    end.
Proof.
  intros c l Hs Hv Hg Htxs Hx Hp Hserver Ht2 Hreads Hc0 _ Hfit.
  destruct (start_synced _ _ _ _ c Hs Hv Hg Htxs Hc0) as [Hsync Hrep].
  pose proof Hserver as (_ & Hc2 & _). pose proof (co_nonneg _ _ Hc2).
  destruct (node_download config peer_config client channel server t2 Hserver Hreads Hp s1 0 x greeting n)
    as (r & s' & t' & Hrun & _ & _ & Hval & Hok & Hfail); [done..|lia|exact Hfit|].
  change (mkIbdLoop (0 + 1) (0 + 1) 0 0 0) with l in Hrun. unfold start_node. rewrite Hg.
  cbv zeta. rewrite Hrun. destruct r as [[]|e|].
  - eexists. split; [done|]. cbn. destruct (Hok eq_refl) as [Hc Hu].
    split_and!; [done..|apply mempool_new_ok|done|done].
  - eexists. split; [done|]. exists (Err e), s'. split; [by apply Hfail|done].
  - eexists. split; [done|]. exists Panic, s'. split; [by apply Hfail|done].
Qed.

(** C19: a network whose chain has 256 blocks or more above genesis cannot be
    joined in one start: the greeting of the peer makes the download send its
    first request twice, and the second answer, of blocks already taken in,
    fails validation as soon as the first of them spent an output.  Start-up
    reports the failure, with at most 256 blocks in the store. *)
Theorem long_chain_not_joined genesis_cfg config peer_config client channel (server : NodeState S2)
    (s s1 : S1) alloc_txs t2 x greeting n b tx input :
  let c := chain (view (n_store server)) in
  let l := mkIbdLoop 1 1 0 0 0 in
  store_ok s → view s = mkLedger ∅ ∅ ∅ → apply_genesis genesis_cfg s = (Ok tt, s1) →
  collect_res (alloc_tx <$> g_accounts genesis_cfg) = Ok alloc_txs → tip s1 = Ok x →
  bootstrap_peers config ≠ [] →
  store_at (n_store server) t2 → 256 ≤ t2 → (∀ h, ∃ bs, iter_from h (n_store server) = Ok bs) →
  c !! 0 = Some (build_genesis_block (g_timestamp genesis_cfg) alloc_txs) →
  tip_greeting (n_store server) = Some (NewBlock greeting) →
  sendable peer_config client channel server greeting 1 →
  c !! 1 = Some b → tx ∈ txs b → input ∈ inputs tx → replay_below c 257 !! out_ref input = None →
  let attempts := [Accepted (node_events config peer_config client channel server (3 + n) (NewBlock greeting) l s1)] in
  (∃ r, start_node genesis_cfg config attempts s = Some r ∧ ∀ st, r ≠ Ok st) ∧
  ∃ t', 0 ≤ t' ≤ 256 ∧ synced c (run_ibd config attempts s1).2 t'.
Proof.
  intros c l Hs Hv Hg Htxs Hx Hp Hserver Ht2 Hreads Hc0 _ Hfit Hb Htx Hin Hspent.
  destruct (start_synced _ _ _ _ c Hs Hv Hg Htxs Hc0) as [Hsync Hrep].
  destruct (node_download_long config peer_config client channel server t2 Hserver Hreads Hp s1 0 x greeting n b tx input)
    as (r & s' & t' & Hrun & Hr & Ht' & Hs'); [done..|].
  change (mkIbdLoop (0 + 1) (0 + 1) 0 0 0) with l in Hrun. intros attempts. subst attempts.
  split; [|exists t'; split; [lia|by rewrite Hrun]].
  unfold start_node. rewrite Hg. cbv zeta. rewrite Hrun. by destruct r as [[]|e|]; [done|eexists..].
Qed.
End properties.
