(* ===== verification/System.v ===== *)
(** * A running node

    The tasks of a node as one transition system: a frame from a peer, an
    iteration of the slot loop, an HTTP request, a connection that registers or
    ends.  Each step is one handler run to its end.  The invariant of all
    reachable states composes the results on the handlers; two nodes with the
    same genesis configuration agree on genesis and validators for ever. *)

From S2P Require Import Prelude Bytes Types Consensus Encoding Store Ledger Validation Mempool DebugEvent.
From S2P Require Import Node Handler Protocol Genesis SlotTicker Api.

Section system.
Context `{Crypto} `{CoreJson} `{Json Message} `{JsonText} `{BuildProfile} {order : HashOrder} `{UnstableSort}.
Context {S : Type} `{!BlockStore S} `{!UtxoStore S} `{!ValidatorStore S} `{!StoreLaws S}.
Context (config : NodeConfig).
Implicit Types (st : NodeState S) (s : S) (b g : Block).
Notation d := (slot_duration_secs config).

(** ** Steps *)

(** What the decoder guarantees of the slot of a received block, a [u64]. *)
Definition message_typed (msg : Message) : Prop :=
  match msg with NewBlock b => u64 (slot (header b)) | _ => True end.

(** The clock of an iteration of the slot loop: after the genesis block. *)
Definition clock_ok (now : Z) st : Prop :=
  slots_in_range config now ∧
  ∀ g, chain (view (n_store st)) !! 0 = Some g → timestamp (header g) ≤ now.

(** The read of the tip block in an iteration of the slot loop does not fail. *)
Definition tip_readable st : Prop :=
  ∀ h hash, tip (n_store st) = Ok (Some (h, hash)) → ∃ x, get_by_height h (n_store st) = Ok x.

Inductive node_step : relation (NodeState S) :=
| step_frame src reply_tx bytes st r st' :
    (∀ msg, from_slice bytes = inr msg → message_typed msg) →
    dispatch config bytes src reply_tx st = (r, st') → node_step st st'
| step_slot now st r st' :
    clock_ok now st → tip_readable st → tick config now st = (r, st') → node_step st st'
| step_request method path body st r st' :
    route method path body st = (r, st') → node_step st st'
| step_connect a tx st st' : register_peer a tx st = Some st' → node_step st st'
| step_disconnect a st : node_step st (deregister_peer a st).

(** ** The invariant *)

(** The store: a linked chain from genesis block [g] up to height [t], blocks
    that lie before the end of their slot, and the validators [vs]. *)
Record store_inv (g : Block) (vs : gmap Address Validator) (t : Z) (s : S) : Prop := {
  si_ok : store_ok s;
  si_chain : chain_ok (chain (view s)) t;
  si_genesis : chain (view s) !! 0 = Some g;
  si_validators : validators (view s) = vs;
  si_slots h b : 0 < h → chain (view s) !! h = Some b →
    u64 (slot (header b)) ∧
    ∃ e, slot_end_of (E := BlockValidationError) (slot (header b)) d = Ok e ∧ timestamp (header b) < e;
}.

Record node_inv (g : Block) (vs : gmap Address Validator) (t : Z) st : Prop := {
  ni_store : store_inv g vs t (n_store st);
  ni_mempool : mempool_ok (n_mempool st);
  ni_peers : distinct_ips (n_peers st);
}.

(** *** Steps of the store *)

Definition in_slot b : Prop :=
  u64 (slot (header b)) ∧
  ∃ e, slot_end_of (E := BlockValidationError) (slot (header b)) d = Ok e ∧ timestamp (header b) < e.

Lemma store_inv_at g vs t s : store_inv g vs t s → t + 1 < 2 ^ 64 → store_at s t.
Proof. intros [] ?. by split_and!. Qed.

Lemma extend_inv g vs t b p s r s' :
  store_inv g vs t s → t + 1 < 2 ^ 64 → chain (view s) !! t = Some p →
  height (header b) = t + 1 → prev_hash (header b) = Block_hash p →
  timestamp (header p) ≤ timestamp (header b) → in_slot b →
  extend_calls b s = (r, s') → ∃ t', t' ≤ t + 1 ∧ store_inv g vs t' s'.
Proof.
  intros Hinv Ht Hp Hb Hprev Hts Hslot He. pose proof (store_inv_at _ _ _ _ Hinv Ht) as Hat.
  destruct Hinv as [Hs Hc Hg Hv Hsl]. pose proof (co_nonneg _ _ Hc).
  apply (extend_calls_spec b p s t) in He as (Hs' & Hv' & [(Hc' & _)|(Hc' & _)]); [..|done|done|done|done|done].
  - exists t. split; [lia|]. constructor; rewrite ?Hc'; try done. congruence.
  - exists (t + 1). split; [lia|]. constructor; rewrite ?Hc'; try done; [|..|].
    + by eapply chain_ok_extend.
    + by rewrite lookup_insert_ne by lia.
    + congruence.
    + intros h b' Hh [[<- <-]|[_ ?]]%lookup_insert_Some; [done|]. by eapply Hsl.
Qed.

Lemma reorg_inv g vs t b old p s r s' :
  store_inv g vs t s → t + 1 < 2 ^ 64 → 0 < t → chain (view s) !! t = Some old →
  chain (view s) !! (t - 1) = Some p → height (header b) = t → prev_hash (header b) = Block_hash p →
  timestamp (header p) ≤ timestamp (header b) → in_slot b →
  reorg_block old b s = (r, s') → ∃ t', t' ≤ t ∧ store_inv g vs t' s'.
Proof.
  intros Hinv Ht Hpos Hold Hp Hb Hprev Hts Hslot He. pose proof (store_inv_at _ _ _ _ Hinv Ht) as Hat.
  destruct Hinv as [Hs Hc Hg Hv Hsl].
  apply (reorg_block_spec old b p s t) in He as (Hs' & Hv' & Hcase & _); [|done..].
  destruct Hcase as [[Hc' _]|[[Hc' _]|Hc']].
  - exists t. split; [lia|]. constructor; rewrite ?Hc'; try done. congruence.
  - exists (t - 1). split; [lia|]. constructor; rewrite ?Hc'; [done|by apply chain_ok_delete| |congruence|].
    + by rewrite lookup_delete_ne by lia.
    + intros h b' Hh [_ ?]%lookup_delete_Some. by eapply Hsl.
  - exists t. split; [lia|]. constructor; rewrite ?Hc'; [done|by eapply chain_ok_replace| |congruence|].
    + by rewrite lookup_insert_ne by lia.
    + intros h b' Hh [[<- <-]|[_ ?]]%lookup_insert_Some; [done|]. by eapply Hsl.
Qed.

Lemma made_in_slot now hash h l :
  slots_in_range config now → in_slot (make_block config hash h (now `div` d) now l).
Proof.
  intros Hr. pose proof (slot_bounds config now Hr) as (? & ? & ?). destruct Hr as (Hd & Hn & Hr').
  split; [cbn; unfold u64; lia|]. exists ((now `div` d + 1) * d).
  split; [by apply slot_end_now|done].
Qed.

(** *** Messages *)

Lemma valid_in_slot b p s : u64 (slot (header b)) → validate_block b p s s d = Ok tt → in_slot b.
Proof. intros Hu Hv%validate_block_spec. split; [done|]. by destruct Hv. Qed.

Lemma new_block_inv g vs t b src tx st r st' :
  store_inv g vs t (n_store st) → t + 1 < 2 ^ 64 → u64 (slot (header b)) →
  handle_new_block config b src tx st = (r, st') →
  ∃ t', t' ≤ t + 1 ∧ store_inv g vs t' (n_store st').
Proof.
  intros Hinv Ht Hu Hh. pose proof (store_inv_at _ _ _ _ Hinv Ht) as Hat.
  apply (handle_new_block_cases config _ _ _ t) in Hh
    as [[-> _]|[(r0 & (Hb & p & Hp & Hv) & He & _)|(old & r0 & Hbeats & He & _)]]; [|..|done].
  - exists t. split; [lia|done].
  - destruct (valid_link _ _ _ _ Hv) as [Hprev Hts]. eapply extend_inv; try done. by eapply valid_in_slot.
  - destruct Hbeats as (Hb & Hpos & Hold & _ & p & Hp & Hprev & Hv).
    destruct (valid_link _ _ _ _ Hv) as [_ Hts].
    destruct (reorg_inv g vs t b old p (n_store st) r0 (n_store st')) as (t' & ? & ?); try done.
    { by eapply valid_in_slot. }
    exists t'. split; [lia|done].
Qed.

(** Only a block changes the store. *)
Lemma message_store msg src tx st r st' :
  handle_message config msg src tx st = (r, st') →
  n_store st' = n_store st ∨ ∃ b, msg = NewBlock b.
Proof.
  destruct msg as [h|bs|b|x| |addrs|n|n]; cbn [handle_message]; [| |by right; eexists|..];
    intros Hh; left.
  - unfold handle_get_blocks, store_read, read_store, reads, try_send, modifies, mbind, ST_bind in Hh.
    break_hyp Hh; done.
  - by injection Hh as <- <-.
  - unfold handle_new_tx in Hh. unfold gossip in Hh. repeat (case_match; simplify_eq); done.
  - by injection Hh as <- <-.
  - by injection Hh as <- <-.
  - by injection Hh as <- <-.
  - by injection Hh as <- <-.
Qed.

Lemma dispatch_inv g vs t bytes src tx st r st' :
  node_inv g vs t st → t + 1 < 2 ^ 64 → (∀ msg, from_slice bytes = inr msg → message_typed msg) →
  dispatch config bytes src tx st = (r, st') → ∃ t', t' ≤ t + 1 ∧ node_inv g vs t' st'.
Proof.
  intros [Hst Hm Hp] Ht Hty. unfold dispatch, reads, mbind, ST_bind.
  destruct (from_slice bytes) as [e|msg]; cbn [of_sum].
  { intros [= <- <-]. exists t. by split; [lia|]. }
  specialize (Hty msg eq_refl). intros Hh.
  assert (∃ t', t' ≤ t + 1 ∧ store_inv g vs t' (n_store st')) as (t' & Ht' & Hst').
  { destruct (message_store _ _ _ _ _ _ Hh) as [->|[b ->]]; [exists t; by split; [lia|]|].
    eapply new_block_inv; [exact Hst|done|exact Hty|exact Hh]. }
  exists t'. split; [done|]. constructor; [done|by eapply keeps_mempool|].
  by apply message_effects_spec in Hh as [-> _].
Qed.

(** *** The slot loop *)

(** The clock is never behind the tip: a block of an earlier slot lies before
    the end of its slot, and a block of this slot stops the iteration. *)
Lemma tip_before_clock g vs t now p v st hash :
  store_inv g vs t (n_store st) → t + 1 < 2 ^ 64 → clock_ok now st → tip_readable st →
  produces config now st t hash v → chain (view (n_store st)) !! t = Some p →
  timestamp (header p) ≤ now.
Proof.
  intros Hinv Ht [Hr Hg] Hread Hprod Hp. pose proof (store_inv_at _ _ _ _ Hinv Ht) as Hat.
  destruct (decide (t = 0)) as [->|Hne]; [by apply Hg|].
  pose proof (co_nonneg _ _ (si_chain _ _ _ _ Hinv)).
  destruct (Hread _ _ (pr_tip _ _ _ _ _ _ Hprod)) as [x Hx]. pose proof Hx as Hx'.
  apply (get_height_at _ t) in Hx' as (p' & -> & Hp'); [|done|lia].
  rewrite Hp in Hp'. injection Hp' as <-.
  pose proof (pr_new_slot _ _ _ _ _ _ Hprod _ Hx) as Hslot.
  destruct (si_slots _ _ _ _ Hinv t p) as (Hu & e & He & Hlt); [lia|done|].
  pose proof (slot_bounds config now Hr) as (? & ? & ?). destruct Hr as (Hd & Hn & Hr).
  unfold u64 in Hu. unfold slot_end_of in He. rewrite !wrap_i64_small in He by lia.
  unfold i64_add, i64_mul in He. rewrite arith_i64_Ok in He by (unfold i64; lia).
  cbn [mbind Res_bind] in He. rewrite arith_i64_Ok in He by (unfold i64; nia).
  injection He as <-. pose proof (Z.mul_div_le now d Hd). nia.
Qed.

Lemma propose_block_store h hash sl ts st r st' :
  propose_block config h hash sl ts st = (r, st') →
  n_store st' = n_store st ∨
  ∃ h' l r0, u64_add (E := Empty_set) h 1 = Ok h' ∧
    extend_calls (make_block config hash h' sl ts l) (n_store st) = (r0, n_store st').
Proof.
  unfold propose_block, SlotTicker.attempt, emit, modifies, reads, extend_calls, mbind, ST_bind.
  destruct (u64_add h 1) as [h'|e|]; [|intros [= <- <-]; by left..].
  cbn [n_store perform n_mempool]. set (block := make_block _ _ _ _ _ _).
  destruct (insert_block block (n_store st)) as [[[]|e|] s1] eqn:Hi; cbn [n_store set_store].
  - destruct (apply_block block s1) as [[[]|e|] s2] eqn:Ha; intros [= <- <-]; right;
      exists h', (Mempool.drain MAX_TXS_PER_BLOCK (n_mempool st)); eexists; (split; [done|]);
      fold block; by rewrite Hi.
  - intros [= <- <-]. right. exists h', (Mempool.drain MAX_TXS_PER_BLOCK (n_mempool st)).
    eexists. split; [done|]. fold block. by rewrite Hi.
  - intros [= <- <-]. right. exists h', (Mempool.drain MAX_TXS_PER_BLOCK (n_mempool st)).
    eexists. split; [done|]. fold block. by rewrite Hi.
Qed.

(** The slot loop leaves the peers alone. *)
Definition same_peers : relation (NodeState S) := fun st st' => n_peers st' = n_peers st.
#[local] Instance same_peers_preorder : PreOrder same_peers.
Proof. split; unfold same_peers; [by intros ?|congruence]. Qed.

Lemma attempt_peers {A} (m : ST S StoreError A) : respects same_peers (SlotTicker.attempt m).
Proof. intros st r st'. unfold SlotTicker.attempt. destruct (m (n_store st)). by intros [= <- <-]. Qed.

Lemma emit_peers {E} e : respects same_peers (emit (E := E) e).
Proof. by intros st r st' [= <- <-]. Qed.

#[local] Hint Resolve attempt_peers emit_peers respects_ret respects_reads : bcc.

Ltac peers_steps :=
  repeat match goal with
  | |- respects _ (_ ≫= _) => apply (respects_bind same_peers); [|intros ?]
  | |- respects _ (if ?b then _ else _) => destruct b
  | |- respects _ (match ?o with _ => _ end) => destruct o
  | |- respects _ (let '(_, _) := ?p in _) => destruct p
  | |- respects _ (modifies _) => by intros ??? [= <- <-]
  | |- respects _ _ => solve [eauto with bcc typeclass_instances]
  end.

Lemma tick_peers now st r st' : tick config now st = (r, st') → n_peers st' = n_peers st.
Proof.
  assert (Hprop : ∀ h hash sl ts, respects same_peers (propose_block config h hash sl ts)).
  { intros. unfold propose_block. peers_steps. by intros ??? [= <- <-]. }
  enough (respects same_peers (tick config now)) as Ht by exact (Ht st r st').
  unfold tick, attempt_read. peers_steps.
Qed.

Lemma propose_block_pool h hash sl ts st r st' :
  mempool_ok (n_mempool st) → propose_block config h hash sl ts st = (r, st') →
  mempool_ok (n_mempool st') ∧ n_peers st' = n_peers st.
Proof.
  intros Hm. unfold propose_block, SlotTicker.attempt, emit, modifies, reads, mbind, ST_bind.
  destruct (u64_add h 1) as [h'|e|]; [|by intros [= <- <-]..].
  cbn [n_store perform n_mempool].
  destruct (insert_block _ (n_store st)) as [[[]|e|] s1] eqn:Hi; cbn [n_store set_store];
    [|by intros [= <- <-]..].
  destruct (apply_block _ s1) as [[[]|e|] s2] eqn:Ha; intros [= <- <-]; [|done..].
  split; [|done]. cbn. by apply remove_ok.
Qed.

Lemma tick_inv g vs t now st r st' :
  node_inv g vs t st → t + 1 < 2 ^ 64 → clock_ok now st → tip_readable st →
  tick config now st = (r, st') → ∃ t', t' ≤ t + 1 ∧ node_inv g vs t' st'.
Proof.
  intros [Hst Hm Hp] Ht Hclock Hread Htick. pose proof (store_inv_at _ _ _ _ Hst Ht) as Hat.
  pose proof (tick_peers now st r st' Htick) as Hpeers.
  pose proof Hclock as [Hr _].
  apply tick_cases in Htick as [[[Hm' _] Hs]|(h & hash & v & st1 & r0 & Hprod & Hs1 & [Hm1 _] & Hp1 & Hprop)];
    [| |done].
  { exists t. split; [lia|]. constructor; [by rewrite Hs|by rewrite Hm'|by rewrite Hpeers]. }
  rewrite <- Hm1 in Hm. destruct (propose_block_pool _ _ _ _ _ _ _ Hm Hprop) as [Hm' Hp'].
  pose proof (pr_tip _ _ _ _ _ _ Hprod) as Htip.
  apply (store_at_tip _ t) in Htip as (p & [= -> ->] & Hparent); [|done].
  pose proof (tip_before_clock g vs t now p v st _ Hst Ht Hclock Hread Hprod Hparent) as Hts.
  assert (∃ t', t' ≤ t + 1 ∧ store_inv g vs t' (n_store st')) as (t' & Ht' & Hst').
  { apply propose_block_store in Hprop as [->|(h' & l & r1 & Hh' & He)].
    { exists t. rewrite Hs1. split; [lia|done]. }
    pose proof (co_nonneg _ _ (si_chain _ _ _ _ Hst)).
    rewrite u64_add_small in Hh' by lia. injection Hh' as <-. rewrite Hs1 in He.
    refine (extend_inv g vs t _ p _ r1 _ Hst Ht Hparent _ _ _ _ He); [done|done|exact Hts|].
    by apply made_in_slot. }
  exists t'. split; [done|]. constructor; [done|done|]. by rewrite Hpeers.
Qed.

(** *** All steps *)

Lemma register_peer_rest a tx st st' :
  register_peer a tx st = Some st' → n_store st' = n_store st ∧ n_mempool st' = n_mempool st.
Proof. unfold register_peer. case_match; [done|]. by intros [= <-]. Qed.

Lemma step_inv g vs t st st' :
  node_inv g vs t st → t + 1 < 2 ^ 64 → node_step st st' → ∃ t', t' ≤ t + 1 ∧ node_inv g vs t' st'.
Proof.
  intros Hinv Ht Hstep.
  destruct Hstep as [src tx bytes st r st' Hty Hd|now st r st' Hcl Hread Htick|me path body st r st' Hr
    |a tx st st' Hr|a st].
  - by eapply dispatch_inv.
  - by eapply tick_inv.
  - destruct Hinv as [Hst Hm Hp]. apply route_spec in Hr as (Hs' & Hp' & Hm' & _); [|done].
    exists t. split; [lia|]. constructor; [by rewrite Hs'|done|by rewrite Hp'].
  - destruct Hinv as [Hst Hm Hp]. pose proof (register_peer_rest _ _ _ _ Hr) as [Hs' Hm'].
    apply register_peer_spec in Hr as (_ & _ & Hd).
    exists t. split; [lia|]. constructor; [by rewrite Hs'|by rewrite Hm'|auto].
  - destruct Hinv as [Hst Hm Hp]. exists t. split; [lia|]. constructor; [done|done|].
    by apply distinct_ips_remove.
Qed.

Lemma steps_inv g vs t n st st' :
  node_inv g vs t st → t + Z.of_nat n < 2 ^ 64 → nsteps node_step n st st' →
  ∃ t', t' ≤ t + Z.of_nat n ∧ node_inv g vs t' st'.
Proof.
  intros Hinv Ht Hsteps. revert t Hinv Ht. induction Hsteps as [st|n st st1 st' Hstep _ IH]; intros t Hinv Ht.
  - exists t. split; [lia|done].
  - destruct (step_inv g vs t st st1) as (t1 & Ht1 & Hinv1); [done|lia|done|].
    destruct (IH t1) as (t' & Ht' & Hinv'); [done|lia|]. exists t'. split; [lia|done].
Qed.

(** The state [main] starts the tasks in, for a node without bootstrap peers. *)
Lemma genesis_inv genesis_cfg s s' :
  store_ok s → view s = mkLedger ∅ ∅ ∅ → apply_genesis genesis_cfg s = (Ok tt, s') →
  ∃ alloc_txs vs, collect_res (alloc_tx <$> g_accounts genesis_cfg) = Ok alloc_txs ∧
    genesis_validator <$> g_validators genesis_cfg = Ok <$> vs ∧
    node_inv (build_genesis_block (g_timestamp genesis_cfg) alloc_txs)
      (foldl (fun m v => <[v_address v := v]> m) ∅ vs) 0 (new_node config s').
Proof.
  intros Hs Hv Hg. destruct (genesis_spec _ _ _ Hs Hv Hg) as (txs & vs & Htxs & Hvs & Hch & Hc & _ & Hval & _).
  exists txs, vs. split_and!; [done..|]. constructor; cbn; [|apply mempool_new_ok|].
  2:{ intros a b Ha. unfold PeerSet.new in Ha. rewrite lookup_empty in Ha. by destruct Ha. }
  destruct Hc as [Hok Hchain _ _]. constructor; [done|done| |done|].
  - rewrite Hch. apply lookup_singleton_eq.
  - intros h b Hh Hb. rewrite Hch in Hb. apply lookup_singleton_Some in Hb as [<- _]. lia.
Qed.
End system.

(** ** The properties *)

Section properties.
Context `{Crypto} `{CoreJson} `{Json Message} `{JsonText} `{BuildProfile} `{UnstableSort}.


(** C24: agreement of two nodes.  Two nodes started from the same genesis
    configuration, on stores of any kind, with their own configurations and hash
    orders, whatever happens to them afterwards: they hold the same genesis
    block, and for every slot and parent hash their elections have the same
    outcome. *)
Theorem nodes_agree {S1} `{!BlockStore S1} `{!UtxoStore S1} `{!ValidatorStore S1} `{!StoreLaws S1}
    {S2} `{!BlockStore S2} `{!UtxoStore S2} `{!ValidatorStore S2} `{!StoreLaws S2}
    (order1 order2 : HashOrder) config1 config2 genesis_cfg (s1 s1' : S1) (s2 s2' : S2)
    n1 n2 (st1 : NodeState S1) (st2 : NodeState S2) sl prev vs1 vs2 :
  store_ok s1 → view s1 = mkLedger ∅ ∅ ∅ → apply_genesis genesis_cfg s1 = (Ok tt, s1') →
  store_ok s2 → view s2 = mkLedger ∅ ∅ ∅ → apply_genesis genesis_cfg s2 = (Ok tt, s2') →
  nsteps (node_step (order := order1) config1) n1 (new_node config1 s1') st1 →
  nsteps (node_step (order := order2) config2) n2 (new_node config2 s2') st2 →
  Z.of_nat n1 < 2 ^ 64 → Z.of_nat n2 < 2 ^ 64 →
  all_active sl (n_store st1) = Ok vs1 → all_active sl (n_store st2) = Ok vs2 →
  chain (view (n_store st1)) !! 0 = chain (view (n_store st2)) !! 0 ∧
  elect_proposer (E := Empty_set) sl prev vs1 = elect_proposer sl prev vs2.
Proof.
  intros Hs1 Hv1 Hg1 Hs2 Hv2 Hg2 Hsteps1 Hsteps2 Hn1 Hn2 Ha1 Ha2.
  destruct (genesis_inv config1 _ _ _ Hs1 Hv1 Hg1) as (txs & vs & Htxs & Hvs & Hinv1).
  destruct (genesis_inv config2 _ _ _ Hs2 Hv2 Hg2) as (txs' & vs' & Htxs' & Hvs' & Hinv2).
  rewrite Htxs in Htxs'. injection Htxs' as <-.
  assert (vs' = vs) as -> by (apply (fmap_Ok_inj (E := NodeError)); congruence).
  destruct (steps_inv config1 _ _ 0 n1 _ _ Hinv1 ltac:(lia) Hsteps1) as (t1 & _ & [Hi1 _ _]).
  destruct (steps_inv config2 _ _ 0 n2 _ _ Hinv2 ltac:(lia) Hsteps2) as (t2 & _ & [Hi2 _ _]).
  destruct Hi1 as [Hok1 _ Hgen1 Hval1 _], Hi2 as [Hok2 _ Hgen2 Hval2 _].
  split; [congruence|].
  by rewrite (active_lists_agree _ _ sl vs1 vs2 Hok1 Hok2 (eq_trans Hval1 (eq_sym Hval2)) Ha1 Ha2).
Qed.
End properties.
