(* ===== verification/Laggard.v ===== *)
(** * A node that has missed a block

    A peer sends a block once, when it takes it in itself.  A node that has missed
    the block after its tip, because its queue was full or it was not connected,
    asks for the missing blocks and discards the answer; this file follows such a
    node through everything that can happen to it. *)

From S2P Require Import Prelude Bytes Types Consensus Encoding Store Ledger Validation Mempool DebugEvent.
From S2P Require Import Node Handler Protocol SlotTicker Api System.

Section laggard.
Context `{Crypto} `{CoreJson} `{Json Message} `{JsonText} `{BuildProfile} {order : HashOrder} `{UnstableSort}.
Context {S : Type} `{!BlockStore S} `{!UtxoStore S} `{!ValidatorStore S} `{!StoreLaws S}.
Context (config : NodeConfig) (t : Z).
Implicit Types (st : NodeState S) (b : Block).

(** The block a frame announces, if any, is not the one after the tip [t] nor a
    competitor of the tip. *)
Definition ahead (bytes : list byte) : Prop :=
  ∀ b, from_slice bytes = inr (NewBlock b) → t + 1 < height (header b).

(** The steps of a node that is sent no such block. *)
Inductive laggard_step : relation (NodeState S) :=
| lag_frame src reply_tx bytes st r st' :
    ahead bytes → dispatch config bytes src reply_tx st = (r, st') → laggard_step st st'
| lag_slot now st r st' :
    slots_in_range config now → tick config now st = (r, st') → laggard_step st st'
| lag_request method path body st r st' :
    route method path body st = (r, st') → laggard_step st st'
| lag_connect a tx st st' : register_peer a tx st = Some st' → laggard_step st st'
| lag_disconnect a st : laggard_step st (deregister_peer a st).

Lemma laggard_message msg src reply_tx st r st' :
  store_at (n_store st) t → (∀ b, msg = NewBlock b → t + 1 < height (header b)) →
  handle_message config msg src reply_tx st = (r, st') → n_store st' = n_store st.
Proof.
  intros Hst Hmsg. destruct msg as [h|bs|b|tx| |l|n|n]; cbn [handle_message]; try (by intros [= <- <-]).
  - unfold handle_get_blocks, store_read, read_store, reads, mbind, ST_bind.
    destruct (iter_from h (n_store st)) as [bs|e|]; cbn [map_err]; by intros [= <- <-].
  - specialize (Hmsg b eq_refl). intros (Hs & _)%(distant_block_keeps_state config b src reply_tx t); [done..|lia|lia].
  - unfold handle_new_tx. destruct (Mempool.add _ _ _) as [[a|e|] m]; [|by intros [= <- <-]..].
    destruct (newly_added a); by intros [= <- <-].
Qed.

(** An account without stake is never elected. *)
Lemma not_elected now st hash h p :
  store_ok (n_store st) → validators (view (n_store st)) !! my_address config = None →
  ¬ produces config now st h hash p.
Proof.
  intros Hs Hno [_ (vs & Hact & Hel) Hmine _ _].
  apply elect_proposer_elem in Hel. apply active_law in Hact as [Hvs _]; [|done].
  rewrite Hvs in Hel. apply list_elem_of_filter in Hel as [_ Hel].
  apply list_elem_of_fmap in Hel as ([a v] & -> & Hin%elem_of_map_to_list).
  cbn in *. destruct (keys_law _ Hs _ _ Hin) as [Ha _]. congruence.
Qed.

Record stalled (s : S) st : Prop := {
  sl_store : n_store st = s;
  sl_mempool : mempool_ok (n_mempool st);
}.

Lemma laggard_step_stalled s st st' :
  store_at s t → validators (view s) !! my_address config = None →
  stalled s st → laggard_step st st' → stalled s st'.
Proof.
  intros Hst Hno [Hs Hm] Hstep. subst s.
  destruct Hstep as [src tx bytes st r st' Ha Hd|now st r st' Hr Htick|me path body st r st' Hr|a tx st st' Hr|a st].
  - unfold dispatch, reads, mbind, ST_bind in Hd. destruct (from_slice bytes) as [e|msg] eqn:Hmsg; cbn [of_sum] in Hd;
      [by injection Hd as <- <-|].
    constructor; [|by eapply keeps_mempool]. eapply laggard_message; [done| |exact Hd]. intros b ->. by apply Ha.
  - apply tick_cases in Htick as [[[Hm' _] Hs]|(h & hash & p & st1 & r0 & Hp & _)]; [|by apply not_elected in Hp; [|apply Hst|]|done].
    constructor; [done|by rewrite Hm'].
  - apply route_spec in Hr as (? & _ & ? & _); [by constructor|done].
  - apply register_peer_rest in Hr as [Hs' Hm']. constructor; [done|by rewrite Hm'].
  - by constructor.
Qed.

Lemma laggard_run_stalled s st st' :
  store_at s t → validators (view s) !! my_address config = None →
  rtc laggard_step st st' → stalled s st → stalled s st'.
Proof. intros Hst Hno. induction 1; eauto using laggard_step_stalled. Qed.

(** C38: a missed block is never made up for.  A node without stake whose peers have
    passed the block after its tip, and so send it later ones only, keeps its
    chain, its outputs and its validators through every run: blocks, answers to
    its own requests, transactions, slots, HTTP requests, new connections and
    disconnections. *)
Theorem missed_block_stalls st st' :
  store_at (n_store st) t → mempool_ok (n_mempool st) →
  validators (view (n_store st)) !! my_address config = None →
  rtc laggard_step st st' → n_store st' = n_store st.
Proof.
  intros Hst Hm Hno Hrun. by apply (laggard_run_stalled (n_store st) st st' Hst Hno Hrun).
Qed.
End laggard.
