(* ===== verification/Concurrent.v ===== *)
(** * Tasks that run at the same time

    The runtime of the node is multi-threaded: connection tasks, the slot loop
    and HTTP requests interleave between any two calls of the stores.  Here each
    handler is a program of such calls, a pool of programs is run by an arbitrary
    scheduler, and the handlers of [Handler] and [SlotTicker] are the schedules
    that are not interrupted. *)

From S2P Require Import Prelude Bytes Types Consensus Encoding Store Ledger Validation Mempool DebugEvent.
From S2P Require Import Node Handler Protocol Genesis SlotTicker Api System.

(** ** Programs *)

(** A sequence of atomic operations on a shared state [N]. *)
Inductive proc (N A : Type) : Type :=
| Done (r : Res string A)
| Act {B : Type} (op : ST N string B) (k : B → proc N A).
Arguments Done {N A} r.
Arguments Act {N A B} op k.

Fixpoint proc_then {N A B} (k : A → proc N B) (p : proc N A) : proc N B :=
  match p with
  | Done (Ok a) => k a
  | Done (Err e) => Done (Err e)
  | Done Panic => Done Panic
  | Act op k' => Act op (fun x => proc_then k (k' x))
  end.
#[global] Instance proc_ret N : MRet (proc N) := fun A a => Done (Ok a).
#[global] Instance proc_bind N : MBind (proc N) := fun A B k p => proc_then k p.

(** The program run without interruption. *)
Fixpoint run_alone {N A} (p : proc N A) : ST N string A :=
  match p with
  | Done r => fun st => (r, st)
  | Act op k => x ← op; run_alone (k x)
  end.

Definition atomically {N A} (op : ST N string A) : proc N A := Act op mret.
(** A computation without side effects; a panic ends the task. *)
Definition pure {N E A} (r : Res E A) : proc N (Res E A) :=
  match r with Panic => Done Panic | r => mret r end.
Definition calc {N A} (r : Res Empty_set A) : proc N A :=
  match r with Ok a => mret a | Err e => match e with end | Panic => Done Panic end.
Definition never {N A} (op : ST N Empty_set A) : ST N string A := st_map_err (fun e : Empty_set => match e with end) op.

(** [?] inside a program whose result is a [Result]. *)
Definition and_then {N E A B} (p : proc N (Res E A)) (k : A → proc N (Res E B)) : proc N (Res E B) :=
  r ← p; match r with Ok a => k a | Err e => mret (Err e) | Panic => Done Panic end.
Notation "x ⇐ p ; k" := (and_then p (fun x => k))
  (at level 20, p at level 100, k at level 200, only parsing).

(** ** The tasks of a node *)

Section tasks.
Context `{Crypto} `{CoreJson} `{Json Message} `{JsonText} `{BuildProfile} {order : HashOrder} `{UnstableSort}.
Context {S : Type} `{!BlockStore S} `{!UtxoStore S} `{!ValidatorStore S}.
Context (config : NodeConfig).
Implicit Types (st : NodeState S).
Notation P := (proc (NodeState S)).

(** One call that reads the store. *)
Definition query {E A} (f : S → Res E A) : P (Res E A) :=
  Act (fun st => (match f (n_store st) with Panic => Panic | r => Ok r end, st)) mret.

(** *** Validation, a read of the store at a time *)

Fixpoint check_inputs_steps (msg : list byte) (idx : nat) (total_in : Z) (ins : list TxInput) :
    P (Res TxValidationError Z) :=
  match ins with
  | [] => mret (Ok total_in)
  | input :: ins' =>
      found ⇐ query (fun s => map_err TxStore (utxo_get (out_ref input) s));
      unspent ⇐ pure (ok_or InputNotFound found);
      let expected := Address.from_pubkey_bytes (vk_as_bytes (in_pubkey input)) in
      if bool_decide (out_address unspent ≠ expected) then mret (Err (InvalidOwner idx))
      else
        _ ⇐ pure (map_err (fun _ => InvalidSignature idx)
                         (verify (in_pubkey input) msg (in_signature input)));
        check_inputs_steps msg (Datatypes.S idx) (saturating_add total_in (amount unspent)) ins'
  end.

Definition validate_transaction_steps (tx : Transaction) : P (Res TxValidationError unit) :=
  if bool_decide (outputs tx = []) then mret (Err EmptyOutputs)
  else
    _ ⇐ pure (check_outputs 0 (outputs tx));
    let msg := tx_signing_bytes tx in
    total_in ⇐ check_inputs_steps msg 0 0 (inputs tx);
    total_out ⇐ pure (u64_sum (amount <$> outputs tx));
    if total_in <? total_out then mret (Err (InsufficientFunds total_in total_out)) else mret (Ok tt).

Fixpoint check_transactions_steps (l : list Transaction) : P (Res BlockValidationError unit) :=
  match l with
  | [] => mret (Ok tt)
  | tx :: l' =>
      r ← validate_transaction_steps tx;
      _ ⇐ pure (map_err (fun e => InvalidTransaction (TxValidationError_to_string e)) r);
      check_transactions_steps l'
  end.

Definition validate_block_steps (block parent : Block) : P (Res BlockValidationError unit) :=
  next_height ⇐ pure (u64_add (height (header parent)) 1);
  if negb (height (header block) =? next_height) then mret (Err BadHeight)
  else if bool_decide (prev_hash (header block) ≠ Block_hash parent) then mret (Err BadParentHash)
  else if timestamp (header block) <? timestamp (header parent) then mret (Err BadTimestamp)
  else
    slot_end ⇐ pure (slot_end_of (slot (header block)) (slot_duration_secs config));
    if slot_end <=? timestamp (header block)
    then mret (Err (TimestampBeyondSlot (timestamp (header block)) (slot (header block)) slot_end))
    else
      active ⇐ query (fun s => map_err BlockStoreError (all_active (slot (header block)) s));
      elected_opt ⇐ pure (elect_proposer (slot (header block)) (Block_hash parent) active);
      elected ⇐ pure (ok_or (NoValidators (slot (header block))) elected_opt);
      if bool_decide (v_address elected ≠ proposer (header block))
      then mret (Err (ProposerMismatch (as_str (v_address elected)) (as_str (proposer (header block)))))
      else
        let header_bytes := to_vec (header block) in
        _ ⇐ pure (map_err (fun _ => BadSignature)
                         (verify (v_pubkey elected) header_bytes (block_signature block)));
        let computed := compute_merkle_root (txs block) in
        if bool_decide (merkle_root (header block) ≠ computed) then mret (Err BadMerkleRoot)
        else check_transactions_steps (txs block).

(** *** Messages *)

(** A valid block is taken in. *)
Definition commit_steps (block : Block) (source : SocketAddr) : P unit :=
  _ ← atomically (store_call (insert_block block));
  _ ← atomically (store_call (apply_block block));
  _ ← atomically (forget_txs block);
  _ ← atomically (gossip source (NewBlock block));
  atomically (emit (BlockFromPeer (addr_to_string source) (height (header block))
                      (hex_encode (Block_hash block)) (length (txs block))
                      (as_str (proposer (header block))))).

Definition extend_tip_steps (block : Block) (source : SocketAddr) (tip_height : Z) : P unit :=
  parent_opt ← atomically (store_read (get_by_height tip_height));
  parent ← Done (ok_or ("parent block at height " +:+ pretty tip_height +:+ " not found") parent_opt);
  valid ← validate_block_steps block parent;
  match valid with
  | Err e =>
      atomically (emit (BlockRejected (addr_to_string source) (height (header block))
                          (hex_encode (Block_hash block)) (BlockValidationError_to_string e)))
  | Panic => Done Panic
  | Ok _ => commit_steps block source
  end.

Definition fork_choice_steps (block : Block) (source : SocketAddr) (tip_height : Z)
    (tip_hash : BlockHash) : P unit :=
  let incoming_hash := Block_hash block in
  if bool_decide (incoming_hash = tip_hash) then mret tt
  else if lex_le tip_hash incoming_hash then mret tt
  else
    let parent_height := saturating_sub tip_height 1 in
    parent_opt ← atomically (store_read (get_by_height parent_height));
    match parent_opt with
    | None => mret tt
    | Some parent =>
        if bool_decide (prev_hash (header block) ≠ Block_hash parent) then mret tt
        else
          valid ← validate_block_steps block parent;
          match valid with
          | Err _ => mret tt
          | Panic => Done Panic
          | Ok _ =>
              current_opt ← atomically (store_read (get_by_height tip_height));
              current_tip ← Done (ok_or "current tip block missing" current_opt);
              let evicted_hash := hex_encode (Block_hash current_tip) in
              _ ← atomically (store_call (rollback_block current_tip));
              _ ← atomically (store_call (insert_block block));
              _ ← atomically (store_call (apply_block block));
              _ ← atomically (forget_txs block);
              _ ← atomically (gossip source (NewBlock block));
              atomically (emit (BlockReorged (height (header block)) (hex_encode incoming_hash)
                                  evicted_hash))
          end
    end.

Definition new_block_steps (block : Block) (source : SocketAddr) (reply_tx : Sender) : P unit :=
  known ← atomically (store_read (get_by_hash (Block_hash block)));
  match known with
  | Some _ => mret tt
  | None =>
      tip_opt ← atomically (store_read tip);
      let '(tip_height, tip_hash) := default (0, zero_hash) tip_opt in
      next ← Done (u64_add tip_height 1);
      if height (header block) =? next then extend_tip_steps block source tip_height
      else if height (header block) =? tip_height
      then fork_choice_steps block source tip_height tip_hash
      else if next <? height (header block) then atomically (try_send reply_tx (GetBlocks next))
      else mret tt
  end.

(** The mempool is locked while a transaction is added; the other messages read
    the shared state once. *)
Definition message_steps (msg : Message) (source : SocketAddr) (reply_tx : Sender) : P unit :=
  match msg with
  | NewBlock block => new_block_steps block source reply_tx
  | msg => atomically (handle_message config msg source reply_tx)
  end.

Definition dispatch_steps (bytes : list byte) (source : SocketAddr) (reply_tx : Sender) : P unit :=
  msg ← Done (of_sum (from_slice bytes));
  message_steps msg source reply_tx.

(** *** The slot loop *)

Definition propose_block_steps (tip_height : Z) (tip_hash : BlockHash) (slot timestamp : Z) : P unit :=
  _ ← atomically (never (fun st => emit (MempoolDrain slot (Mempool.len (n_mempool st))) st));
  txs ← atomically (never (reads (fun st => Ok (Mempool.drain MAX_TXS_PER_BLOCK (n_mempool st)))));
  height ← calc (u64_add tip_height 1);
  let block := make_block config tip_hash height slot timestamp txs in
  inserted ← atomically (never (SlotTicker.attempt (insert_block block)));
  match inserted with
  | None => mret tt
  | Some _ =>
      applied ← atomically (never (SlotTicker.attempt (apply_block block)));
      match applied with
      | None => mret tt
      | Some _ =>
          let hashes := Transaction_hash <$> txs in
          _ ← atomically (modifies (fun st => set_mempool (Mempool.remove hashes (n_mempool st)) st));
          _ ← atomically (modifies (perform [AnnounceBlock block]));
          atomically (emit (BlockProposed height (hex_encode (Block_hash block)) slot (length txs)
                              (as_str (my_address config))))
      end
  end.

Definition tick_steps (now : Z) : P Z :=
  let slot_duration := wrap_i64 (slot_duration_secs config) in
  slot ← calc (i64_div now slot_duration);
  next ← calc (i64_add slot 1);
  slot_end ← calc (i64_mul next slot_duration);
  if slot_end <=? now then mret slot_end
  else
    tip_opt ← atomically (never (attempt_read tip));
    match tip_opt with
    | None | Some None => mret slot_end
    | Some (Some (tip_height, tip_hash)) =>
        validators_opt ← atomically (never (attempt_read (all_active (wrap_u64 slot))));
        match validators_opt with
        | None => mret slot_end
        | Some validators =>
            time_remaining ← calc (arith_i64 (slot_end - now));
            _ ← atomically (emit (SlotTick (wrap_u64 slot) tip_height));
            tip_block ← atomically (never (attempt_read (get_by_height tip_height)));
            let tip_already_this_slot :=
              match tip_block with
              | Some (Some b) => wrap_u64 slot <=? Types.slot (header b)
              | _ => false
              end in
            if tip_already_this_slot then mret slot_end
            else
              elected ← calc (elect_proposer (wrap_u64 slot) tip_hash validators);
              _ ← match elected with
                  | None => mret tt
                  | Some proposer =>
                      if bool_decide (v_address proposer = my_address config)
                         && (MIN_PROPOSE_WINDOW_SECS <? time_remaining)
                      then propose_block_steps tip_height tip_hash (wrap_u64 slot) now
                      else atomically (emit (SlotNotProposer (wrap_u64 slot) (as_str (v_address proposer))))
                  end;
              mret slot_end
        end
    end.
End tasks.

(** ** Uninterrupted schedules *)

(** Operations that agree on every state. *)
Definition same_op {N E A} : relation (ST N E A) := fun m1 m2 => ∀ st, m1 st = m2 st.
Infix "≗" := same_op (at level 70).
#[global] Instance same_op_equivalence N E A : Equivalence (@same_op N E A).
Proof. split; unfold same_op; [done|intros m1 m2 Hm st; by rewrite Hm|intros m1 m2 m3 H1 H2 st; by rewrite H1]. Qed.

Lemma bind_same {N E A B} (m1 m2 : ST N E A) (k1 k2 : A → ST N E B) :
  m1 ≗ m2 → (∀ a, k1 a ≗ k2 a) → m1 ≫= k1 ≗ m2 ≫= k2.
Proof. intros Hm Hk st. unfold mbind, ST_bind. rewrite Hm. destruct (m2 st) as [[a|e|] st']; [apply Hk|done..]. Qed.

#[global] Instance bind_proper N E A B :
  Proper (pointwise_relation A same_op ==> same_op ==> same_op) (@mbind (ST N E) _ A B).
Proof. intros k1 k2 Hk m1 m2 Hm. by apply bind_same. Qed.

Lemma bind_assoc {N E A B C} (m : ST N E A) (f : A → ST N E B) (g : B → ST N E C) :
  (m ≫= f) ≫= g ≗ m ≫= (fun a => f a ≫= g).
Proof. intros st. unfold mbind, ST_bind. by destruct (m st) as [[a|e|] st']. Qed.

Lemma run_bind {N A B} (p : proc N A) (k : A → proc N B) :
  run_alone (p ≫= k) ≗ run_alone p ≫= (fun a => run_alone (k a)).
Proof.
  induction p as [r|X op k' IH]; intros st.
  - by destruct r as [a|e|].
  - change (run_alone (Act op k' ≫= k)) with (op ≫= (fun x => run_alone (k' x ≫= k))).
    change (run_alone (Act op k')) with (op ≫= (fun x => run_alone (k' x))).
    rewrite (bind_assoc op _ _ st). by apply bind_same.
Qed.

Lemma run_atomically {N A} (op : ST N string A) : run_alone (atomically op) ≗ op.
Proof. intros st. cbn. unfold mbind, ST_bind. by destruct (op st) as [[a|e|] st']. Qed.

Lemma never_bind {N A B} (m : ST N Empty_set A) (k : A → ST N Empty_set B) :
  never (m ≫= k) ≗ never m ≫= (fun a => never (k a)).
Proof. intros st. unfold never, st_map_err, mbind, ST_bind. by destruct (m st) as [[a|[]|] st']. Qed.

Section sequential.
Context `{Crypto} `{CoreJson} `{Json Message} `{JsonText} `{BuildProfile} {order : HashOrder} `{UnstableSort}.
Context {S : Type} `{!BlockStore S} `{!UtxoStore S} `{!ValidatorStore S}.
Context (config : NodeConfig).
Implicit Types (st : NodeState S).
Notation P := (proc (NodeState S)).

(** How a program whose result is a [Result] ends. *)
Definition settle {E A} (r : Res E A) : Res string (Res E A) :=
  match r with Panic => Panic | r => Ok r end.

(** The program only reads, and delivers [r]. *)
Definition delivers {E A} (p : P (Res E A)) (r : NodeState S → Res E A) : Prop :=
  ∀ st, run_alone p st = (settle (r st), st).

Lemma pure_delivers {E A} (r : Res E A) : delivers (pure r) (fun _ => r).
Proof. intros st. by destruct r. Qed.

Lemma query_delivers {E A} (f : S → Res E A) : delivers (query f) (fun st => f (n_store st)).
Proof. intros st. cbn. unfold mbind, ST_bind. by destruct (f (n_store st)). Qed.

Lemma and_then_delivers {E A B} (p : P (Res E A)) k r (f : A → NodeState S → Res E B) :
  delivers p r → (∀ a, delivers (k a) (f a)) →
  delivers (and_then p k) (fun st => a ← r st; f a st).
Proof.
  intros Hp Hk st. unfold and_then. rewrite (run_bind _ _ st). unfold mbind at 1, ST_bind.
  rewrite Hp. destruct (r st) as [a|e|]; [apply Hk|done..].
Qed.

Lemma ret_delivers {E A} (r : Res E A) : r ≠ Panic → delivers (mret r) (fun _ => r).
Proof. intros Hr st. by destruct r. Qed.

Lemma if_delivers {E A} (b : bool) (p1 p2 : P (Res E A)) r1 r2 :
  delivers p1 r1 → delivers p2 r2 →
  delivers (if b then p1 else p2) (fun st => if b then r1 st else r2 st).
Proof. by destruct b. Qed.

#[local] Hint Resolve pure_delivers query_delivers and_then_delivers if_delivers : bcc.

Lemma check_inputs_delivers msg idx total ins :
  delivers (check_inputs_steps msg idx total ins)
    (fun st => check_inputs (n_store st) msg idx total ins).
Proof.
  revert idx total. induction ins as [|input ins IH]; intros idx total; [by apply ret_delivers|].
  apply (and_then_delivers _ _ _ (fun found st => unspent ← ok_or InputNotFound found; _)).
  { apply query_delivers. }
  intros found. apply (and_then_delivers _ _ (fun _ => ok_or InputNotFound found)); [apply pure_delivers|].
  intros unspent. cbv zeta. apply if_delivers; [by apply ret_delivers|].
  apply (and_then_delivers _ _ (fun _ => map_err _ _)); [apply pure_delivers|]. intros _. apply IH.
Qed.

Lemma validate_transaction_delivers tx :
  delivers (validate_transaction_steps tx) (fun st => validate_transaction tx (n_store st)).
Proof.
  unfold validate_transaction_steps, validate_transaction. apply if_delivers; [by apply ret_delivers|].
  apply (and_then_delivers _ _ (fun _ => _)); [apply pure_delivers|]. intros _. cbv zeta.
  apply (and_then_delivers _ _ (fun st => check_inputs (n_store st) _ _ _ _));
    [apply check_inputs_delivers|]. intros total_in.
  apply (and_then_delivers _ _ (fun _ => _)); [apply pure_delivers|]. intros total_out.
  apply if_delivers; by apply ret_delivers.
Qed.

Lemma check_transactions_delivers l :
  delivers (check_transactions_steps l) (fun st => check_transactions (n_store st) l).
Proof.
  induction l as [|tx l IH]; [by apply ret_delivers|].
  intros st. cbn [check_transactions_steps]. rewrite (run_bind _ _ st). unfold mbind at 1, ST_bind.
  rewrite validate_transaction_delivers. cbn [check_transactions].
  destruct (validate_transaction tx (n_store st)) as [[]|e|]; [apply IH|done..].
Qed.

Lemma validate_block_delivers block parent :
  delivers (validate_block_steps config block parent)
    (fun st => validate_block block parent (n_store st) (n_store st) (slot_duration_secs config)).
Proof.
  unfold validate_block_steps, validate_block.
  apply (and_then_delivers _ _ (fun _ => _)); [apply pure_delivers|]. intros next.
  repeat (apply if_delivers; [by apply ret_delivers|]).
  apply (and_then_delivers _ _ (fun _ => _)); [apply pure_delivers|]. intros slot_end.
  apply if_delivers; [by apply ret_delivers|].
  apply (and_then_delivers _ _ (fun st => map_err _ (all_active _ (n_store st)))); [apply query_delivers|].
  intros active. apply (and_then_delivers _ _ (fun _ => _)); [apply pure_delivers|]. intros elected_opt.
  apply (and_then_delivers _ _ (fun _ => _)); [apply pure_delivers|]. intros elected.
  apply if_delivers; [by apply ret_delivers|]. cbv zeta.
  apply (and_then_delivers _ _ (fun _ => _)); [apply pure_delivers|]. intros _.
  apply if_delivers; [by apply ret_delivers|]. apply check_transactions_delivers.
Qed.

(** *** Handlers *)

Lemma step_same {A B} (op : ST (NodeState S) string A) (k : A → P B) (k' : A → ST (NodeState S) string B) :
  (∀ a, run_alone (k a) ≗ k' a) → run_alone (atomically op ≫= k) ≗ op ≫= k'.
Proof. intros Hk. rewrite run_bind, run_atomically. by apply bind_same. Qed.

Lemma done_same {A B} (r : Res string A) (k : A → P B) (k' : A → ST (NodeState S) string B) :
  (∀ a, run_alone (k a) ≗ k' a) → run_alone (Done r ≫= k) ≗ reads (fun _ => r) ≫= k'.
Proof. intros Hk. rewrite run_bind. by apply bind_same. Qed.

Lemma valid_same {A B} block parent (k : _ → P A) (f : _ → Res string B)
    (k' : B → ST (NodeState S) string A) :
  (∀ r, r ≠ Panic → ∃ b, f r = Ok b ∧ run_alone (k r) ≗ k' b) → f Panic = Panic →
  run_alone (validate_block_steps config block parent ≫= k) ≗
  reads (fun st => f (validate_block block parent (n_store st) (n_store st) (slot_duration_secs config)))
    ≫= k'.
Proof.
  intros Hk Hf st. rewrite (run_bind _ _ st). unfold mbind at 1, ST_bind.
  rewrite validate_block_delivers. unfold reads, mbind, ST_bind.
  destruct (validate_block _ _ _ _ _) as [[]|e|]; cbn [settle]; [..|by rewrite Hf];
    match goal with |- run_alone (k ?r) _ = _ => destruct (Hk r) as (b & -> & Hb); [done|apply Hb] end.
Qed.

Ltac same_steps :=
  repeat first
    [ apply step_same; intros ? | apply done_same; intros ? | apply run_atomically
    | reflexivity | case_match ].

Lemma extend_tip_same block source h :
  run_alone (extend_tip_steps config block source h) ≗ extend_tip config block source h.
Proof.
  unfold extend_tip_steps, extend_tip. apply step_same. intros parent_opt. apply done_same. intros parent.
  apply (valid_same block parent _
    (fun r => match r with Ok _ => Ok None | Err e => Ok (Some e) | Panic => Panic end)); [|done].
  intros [[]|e|] Hr; [|eexists; split; [done|]; apply run_atomically|done].
  eexists. split; [done|]. unfold commit_steps. same_steps.
Qed.

Lemma fork_choice_same block source h hash :
  run_alone (fork_choice_steps config block source h hash) ≗ fork_choice config block source h hash.
Proof.
  unfold fork_choice_steps, fork_choice. cbv zeta. do 2 (case_match; [reflexivity|]).
  apply step_same. intros [parent|]; [|reflexivity]. case_match; [reflexivity|].
  apply (valid_same block parent _
    (fun r => match r with Ok _ => Ok true | Err e => Ok false | Panic => Panic end)); [|done].
  intros [[]|e|] Hr; [|by eexists|done]. eexists. split; [done|]. cbn [negb].
  apply step_same. intros current_opt. apply done_same. intros current.
  assert (∀ m : ST (NodeState S) string unit, store_call (reorg_block current block) ≫= (fun _ => m) ≗
    store_call (rollback_block current) ≫= (fun _ => store_call (insert_block block) ≫=
      (fun _ => store_call (apply_block block) ≫= (fun _ => m)))) as Hreorg.
  { intros m st. unfold store_call, st_map_err, on_store, reorg_block, mbind, ST_bind.
    destruct (rollback_block _ _) as [[[]|e|] s1]; [|done..]. cbn.
    destruct (insert_block _ _) as [[[]|e|] s2]; [|done..]. cbn.
    by destruct (apply_block _ _) as [[[]|e|] s3]. }
  rewrite Hreorg. same_steps.
Qed.

(** A handler that is not interrupted is the handler of [Handler]. *)
Lemma dispatch_same bytes source tx :
  run_alone (dispatch_steps config bytes source tx) ≗ dispatch config bytes source tx.
Proof.
  unfold dispatch_steps, dispatch. apply done_same. intros msg. destruct msg; try apply run_atomically.
  cbn [message_steps handle_message]. unfold new_block_steps, handle_new_block.
  apply step_same. intros [known|]; [reflexivity|]. apply step_same. intros tip_opt.
  destruct (default _ _) as [h hash]. apply done_same. intros next.
  case_match; [apply extend_tip_same|]. case_match; [apply fork_choice_same|].
  case_match; [apply run_atomically|reflexivity].
Qed.

(** *** The slot loop *)

Lemma never_step {A B} (op : ST (NodeState S) Empty_set A) (op' : ST (NodeState S) string A)
    (k : A → P B) k' :
  never op ≗ op' → (∀ a, run_alone (k a) ≗ never (k' a)) →
  run_alone (atomically op' ≫= k) ≗ never (op ≫= k').
Proof.
  intros Hop Hk. rewrite never_bind. etransitivity; [by apply step_same|].
  apply bind_same; [by symmetry|done].
Qed.

Lemma never_calc {A B} (r : Res Empty_set A) (k : A → P B) k' :
  (∀ a, run_alone (k a) ≗ never (k' a)) →
  run_alone (calc r ≫= k) ≗ never (reads (fun _ => r) ≫= k').
Proof.
  intros Hk st. unfold never, st_map_err, reads, mbind, ST_bind. destruct r as [a|[]|]; [apply Hk|done].
Qed.

Ltac never_steps :=
  repeat first
    [ apply never_step; [reflexivity|intros ?] | apply never_calc; intros ?
    | reflexivity | case_match ].

Lemma propose_block_same h hash sl ts :
  run_alone (propose_block_steps config h hash sl ts) ≗ never (propose_block config h hash sl ts).
Proof. unfold propose_block_steps, propose_block. cbv zeta. never_steps. Qed.

Lemma tick_same now : run_alone (tick_steps config now) ≗ never (tick config now).
Proof.
  unfold tick_steps, tick. cbv zeta. do 3 (apply never_calc; intros ?). case_match; [reflexivity|].
  apply never_step; [reflexivity|]. intros [[[h hash]|]|]; [|reflexivity..].
  apply never_step; [reflexivity|]. intros [vs|]; [|reflexivity].
  apply never_calc. intros remaining. apply never_step; [reflexivity|intros []].
  apply never_step; [reflexivity|]. intros tip_block.
  match goal with |- run_alone (if ?b then _ else _) ≗ _ => destruct b end; [reflexivity|].
  apply never_calc. intros elected. rewrite run_bind, never_bind.
  apply bind_same; [|reflexivity]. destruct elected as [p|]; [|reflexivity].
  match goal with |- run_alone (if ?b then _ else _) ≗ _ => destruct b end;
    [apply propose_block_same|apply run_atomically].
Qed.
End sequential.
