(* ===== verification/Schedule.v ===== *)
(** * Every interleaving

    A pool of tasks run by an arbitrary scheduler.  What every interleaving
    preserves: the genesis block, the validators, the invariants of mempool and
    peers, and that each stored block is the last of a chain of blocks that were
    signed by the validators elected for them.  What it does not preserve: the
    unspent outputs are no longer the replay of the chain once two tasks have
    extended the same tip. *)

From S2P Require Import Prelude Bytes Types Consensus Encoding Store Ledger Validation Mempool DebugEvent.
From S2P Require Import Node Handler Protocol Genesis SlotTicker Api System Concurrent.

Section schedules.
Context `{Crypto} `{CoreJson} `{Json Message} `{JsonText} `{BuildProfile} {order : HashOrder} `{UnstableSort}.
Context {S : Type} `{!BlockStore S} `{!UtxoStore S} `{!ValidatorStore S} `{!StoreLaws S}.
Context (config : NodeConfig).
Implicit Types (st : NodeState S).
Notation P := (proc (NodeState S)).

(** ** Pools *)

(** The tasks the node starts; the clock of an iteration of the slot loop is in
    the range of its arithmetic. *)
Inductive node_task : P unit → Prop :=
| task_frame bytes src tx :
    (∀ msg, from_slice bytes = inr msg → message_typed msg) →
    node_task (dispatch_steps config bytes src tx)
| task_slot now : slots_in_range config now → node_task (_ ← tick_steps config now; mret tt)
| task_request method path body :
    node_task (atomically (_ ← never (route method path body); mret tt))
| task_connect a tx :
    node_task (atomically (modifies (fun st => default st (register_peer a tx st))))
| task_disconnect a : node_task (atomically (modifies (deregister_peer a))).

Definition resume {A B} (r : Res string A) (k : A → P B) : P B :=
  match r with Ok a => k a | Err e => Done (Err e) | Panic => Done Panic end.

(** The scheduler starts a task, or runs the next operation of one. *)
Inductive sched_step : relation (list (P unit) * NodeState S) :=
| sched_spawn p pool st : node_task p → sched_step (pool, st) (pool ++ [p], st)
| sched_run {A} i (op : ST (NodeState S) string A) k pool st r st' :
    pool !! i = Some (Act op k) → op st = (r, st') →
    sched_step (pool, st) (<[i := resume r k]> pool, st').

(** The scheduler as a function: the operations of the tasks with the given
    indices, one after the other. *)
Fixpoint play (is_ : list nat) (c : list (P unit) * NodeState S) : option (list (P unit) * NodeState S) :=
  match is_ with
  | [] => Some c
  | i :: is_' =>
      match c.1 !! i with
      | Some (Act op k) => let '(r, st') := op c.2 in play is_' (<[i := resume r k]> c.1, st')
      | _ => None
      end
  end.

Lemma play_steps is_ c c' : play is_ c = Some c' → nsteps sched_step (length is_) c c'.
Proof.
  revert c. induction is_ as [|i is_ IH]; intros [pool st]; cbn.
  - intros [= <-]. constructor.
  - destruct (pool !! i) as [[r|A op k]|] eqn:Hi; [done| |done].
    destruct (op st) as [r st1] eqn:Hop. intros Hp. econstructor; [by eapply sched_run|by apply IH].
Qed.

(** ** Uninterrupted tasks *)

Lemma run_schedule (p : P unit) pool i st r st' :
  pool !! i = Some p → run_alone p st = (r, st') →
  rtc sched_step (pool, st) (<[i := Done r]> pool, st').
Proof.
  revert pool st. induction p as [r0|A op k IH]; intros pool st Hi.
  - intros [= <- <-]. by rewrite list_insert_id.
  - cbn [run_alone]. unfold mbind, ST_bind. destruct (op st) as [r1 st1] eqn:Hop. intros Hrun.
    assert (i < length pool)%nat as Hlt by (by apply lookup_lt_Some in Hi).
    eapply rtc_l; [by eapply sched_run|].
    destruct r1 as [a|e|]; cbn [resume].
    + apply (IH a (<[i := k a]> pool)) in Hrun; [|by apply list_lookup_insert_eq].
      by rewrite list_insert_insert_eq in Hrun.
    + by injection Hrun as <- <-.
    + by injection Hrun as <- <-.
Qed.

Lemma spawn_schedule (p : P unit) pool st r st' :
  node_task p → run_alone p st = (r, st') →
  rtc sched_step (pool, st) (pool ++ [Done r], st').
Proof.
  intros Hp Hrun. eapply rtc_l; [by apply sched_spawn|].
  assert (pool ++ [Done r] = <[length pool := Done r]> (pool ++ [p])) as ->.
  { rewrite insert_app_r_alt, Nat.sub_diag by done. done. }
  apply (run_schedule p); [|done]. by rewrite lookup_app_r, Nat.sub_diag by done.
Qed.

(** A step of [System] is a schedule that runs one task to its end. *)
Lemma step_schedule pool st st' :
  node_step config st st' → ∃ r, rtc sched_step (pool, st) (pool ++ [Done r], st').
Proof.
  intros Hstep. destruct Hstep as [src tx bytes st r st' Hty Hd|now st r st' Hcl Hread Htick
    |me path body st r st' Hr|a tx st st' Hr|a st].
  - exists r. eapply spawn_schedule; [by eapply task_frame|]. by rewrite (dispatch_same config bytes src tx st).
  - exists (_ ← (match r with Ok a => Ok a | Err e => match e with end | Panic => Panic end : Res string Z); Ok tt).
    eapply spawn_schedule; [by eapply task_slot, Hcl|].
    rewrite (run_bind _ _ st). unfold mbind at 1, ST_bind. rewrite (tick_same config now st).
    unfold never, st_map_err. rewrite Htick. by destruct r as [z|[]|].
  - exists (_ ← (match r with Ok a => Ok a | Err e => match e with end | Panic => Panic end : Res string _); Ok tt).
    eapply spawn_schedule; [by eapply (task_request me path body)|].
    rewrite (run_atomically _ st). unfold never, st_map_err, mbind, ST_bind. rewrite Hr. by destruct r as [z|[]|].
  - exists (Ok tt). eapply spawn_schedule; [by eapply (task_connect a tx)|].
    rewrite (run_atomically _ st). unfold modifies. by rewrite Hr.
  - exists (Ok tt). eapply spawn_schedule; [by eapply (task_disconnect a)|]. done.
Qed.

(** ** Authentic blocks *)

Context `{!StoreSafety S}.
Context (g : Block) (vs : gmap Address Validator).
Hypothesis genesis_height : height (header g) = 0.
(** The key registered for the node's own address is the one it signs with. *)
Hypothesis own_key : ∀ v, vs !! my_address config = Some v →
  v_pubkey v = verifying_key (my_signing_key config).
Hypothesis own_validators : validators_ok vs.
Notation d := (slot_duration_secs config).

(** The list the election of a slot runs over. *)
Definition lists_active (sl : Z) (l : list Validator) : Prop :=
  l ≡ₚ filter (is_active sl) (map_to_list vs).*2 ∧
  StronglySorted (fun v w => address_le (v_address v) (v_address w)) l.

(** The block is signed by the validator elected for its slot on its parent,
    commits to its transactions and lies before the end of its slot. *)
Record authentic (b : Block) : Prop := {
  au_elected : ∃ l v, lists_active (slot (header b)) l ∧
    elect_proposer (E := BlockValidationError) (slot (header b)) (prev_hash (header b)) l = Ok (Some v) ∧
    v_address v = proposer (header b) ∧
    verify (v_pubkey v) (to_vec (header b)) (block_signature b) = Ok tt;
  au_merkle : merkle_root (header b) = compute_merkle_root (txs b);
  au_slot : in_slot config b;
}.

(** The last of a chain of authentic blocks from the genesis block. *)
Inductive lineage : Block → Prop :=
| lineage_genesis : lineage g
| lineage_child p b :
    lineage p → prev_hash (header b) = Block_hash p → height (header b) = height (header p) + 1 →
    authentic b → lineage b.

Lemma lineage_height b : lineage b → 0 ≤ height (header b).
Proof. induction 1; lia. Qed.

Definition permitted (n : Z) (b : Block) : Prop := lineage b ∧ height (header b) ≤ n.

(** The invariant after [n] steps. *)
Record shared_inv (n : Z) st : Prop := {
  sh_blocks : blocks_safe (permitted n) (n_store st);
  sh_genesis : chain (view (n_store st)) !! 0 = Some g;
  sh_validators : validators (view (n_store st)) = vs;
  sh_mempool : mempool_ok (n_mempool st);
  sh_peers : distinct_ips (n_peers st);
}.

Lemma shared_mono n n' st : n ≤ n' → shared_inv n st → shared_inv n' st.
Proof.
  intros Hn []. constructor; try done. eapply safe_mono; [|done].
  intros b [??]. split; [done|lia].
Qed.

(** An operation that restores the invariant from step [n0] on. *)
Definition keeps {A} (n0 : Z) (op : ST (NodeState S) string A) : Prop := ∀ n st r st',
  n0 ≤ n → n + 1 < 2 ^ 64 → shared_inv n st → op st = (r, st') → shared_inv (n + 1) st'.

(** ** Reasoning about programs

    [wp n p Q]: started after [n] steps, whatever other tasks do in between,
    every operation of [p] restores the invariant, and a result satisfies [Q]. *)
Fixpoint wp {A} (n0 : Z) (p : P A) (Q : Z → A → Prop) : Prop :=
  match p with
  | Done (Ok a) => Q n0 a
  | Done _ => True
  | Act op k => ∀ n st r st', n0 ≤ n → n + 1 < 2 ^ 64 → shared_inv n st → op st = (r, st') →
      shared_inv (n + 1) st' ∧ ∀ a, r = Ok a → wp (n + 1) (k a) Q
  end.

Lemma wp_bind {A B} n (p : P A) (k : A → P B) Q :
  wp n p (fun n a => wp n (k a) Q) → wp n (p ≫= k) Q.
Proof.
  revert n. induction p as [r|X op k' IH]; intros n.
  - by destruct r.
  - intros Hp m st r st' Hm Hlt Hinv Hop. destruct (Hp m st r st') as [Hinv' Hk]; [done..|].
    split; [done|]. intros a Ha. by apply IH, Hk.
Qed.

Lemma wp_weaken {A} n (p : P A) (Q Q' : Z → A → Prop) :
  wp n p Q → (∀ m a, n ≤ m → Q m a → Q' m a) → wp n p Q'.
Proof.
  revert n. induction p as [r|X op k' IH]; intros n Hp HQ.
  - destruct r; cbn; [apply HQ; [lia|done]|done..].
  - intros m st r st' Hm Hlt Hinv Hop. destruct (Hp m st r st') as [Hinv' Hk]; [done..|].
    split; [done|]. intros a Ha. apply IH; [by apply Hk|]. intros m' a' Hm'. apply HQ. lia.
Qed.

Lemma wp_later {A} n n' (p : P A) (Q : A → Prop) :
  n ≤ n' → wp n p (fun _ => Q) → wp n' p (fun _ => Q).
Proof.
  intros Hn. destruct p as [[]|X op k]; [done..|]. cbn. intros Hp m st r st' Hm. apply Hp. lia.
Qed.

Lemma wp_atomically {A} n0 (op : ST (NodeState S) string A) (Q : Z → A → Prop) :
  keeps n0 op →
  (∀ n st a st', n0 ≤ n → n + 1 < 2 ^ 64 → shared_inv n st → op st = (Ok a, st') → Q (n + 1) a) →
  wp n0 (atomically op) Q.
Proof. intros Hop HQ n st r st' Hn Hlt Hinv Hst. split; [by eapply Hop|]. intros a ->. by eapply HQ. Qed.

Lemma wp_act {A B} n0 (op : ST (NodeState S) string A) (k : A → P B) Q :
  keeps n0 op → (∀ n a, n0 < n → n < 2 ^ 64 → wp n (k a) Q) → wp n0 (atomically op ≫= k) Q.
Proof.
  intros Hop Hk. apply wp_bind, wp_atomically; [done|]. intros n st a st' Hn Hlt _ _. apply Hk; lia.
Qed.

Lemma wp_done {A} n (r : Res string A) (Q : Z → A → Prop) : (∀ a, r = Ok a → Q n a) → wp n (Done r) Q.
Proof. destruct r; cbn; auto. Qed.

Lemma wp_calc {A} n (r : Res Empty_set A) (Q : Z → A → Prop) :
  (∀ a, r = Ok a → Q n a) → wp n (calc r) Q.
Proof. destruct r as [a|[]|]; cbn; auto. Qed.

Lemma wp_pure {E A} n (r : Res E A) (Q : Z → Res E A → Prop) :
  (r ≠ Panic → Q n r) → wp n (pure r) Q.
Proof. destruct r; cbn; auto. Qed.

Lemma wp_query {E A} n0 (f : S → Res E A) (Q : Z → Res E A → Prop) :
  (∀ n st, n0 ≤ n → n + 1 < 2 ^ 64 → shared_inv n st → Q (n + 1) (f (n_store st))) →
  wp n0 (query f) Q.
Proof.
  intros HQ n st r st' Hn Hlt Hinv [= <- <-]. split; [apply (shared_mono n); [lia|done]|].
  intros a Ha. specialize (HQ n st Hn Hlt Hinv).
  destruct (f (n_store st)); cbn in *; by simplify_eq.
Qed.

Lemma wp_and_then {E A B} n (p : P (Res E A)) (k : A → P (Res E B)) Q :
  wp n p (fun n r => match r with Ok a => wp n (k a) Q | Err e => Q n (Err e) | Panic => True end) →
  wp n (and_then p k) Q.
Proof. intros Hp. apply wp_bind. eapply wp_weaken; [done|]. by intros m [] _. Qed.

(** ** The tasks *)

(** *** Validation *)

Lemma wp_check_inputs n msg idx total ins (Q : Z → Res TxValidationError Z → Prop) :
  (∀ m r, Q m r) → wp n (check_inputs_steps msg idx total ins) Q.
Proof.
  intros HQ. revert n idx total. induction ins as [|input ins IH]; intros n idx total; [apply HQ|].
  apply wp_and_then, wp_query. intros m st _ _ _.
  destruct (map_err TxStore _) as [found|e|]; [|apply HQ|done].
  apply wp_and_then, wp_pure. intros _. destruct (ok_or _ found) as [o|e|]; [|apply HQ|done].
  cbv zeta. case_match; [apply HQ|].
  apply wp_and_then, wp_pure. intros _. destruct (map_err _ _) as [[]|e|]; [apply IH|apply HQ|done].
Qed.

Lemma wp_check_transactions n l (Q : Z → Res BlockValidationError unit → Prop) :
  (∀ m r, Q m r) → wp n (check_transactions_steps l) Q.
Proof.
  intros HQ. revert n. induction l as [|tx l IH]; intros n; [apply HQ|].
  apply wp_bind, (wp_weaken _ _ (fun _ _ => True)).
  - unfold validate_transaction_steps. case_match; [done|]. apply wp_and_then, wp_pure. intros _.
    destruct (check_outputs _ _) as [[]|e|]; [|done..]. cbv zeta.
    apply wp_and_then, wp_check_inputs. intros m [total|e|]; [|done..].
    apply wp_and_then, wp_pure. intros _. destruct (u64_sum _) as [out|e|]; [|done..]. by case_match.
  - intros m r _ _. apply wp_and_then, wp_pure. intros _. destruct (map_err _ r) as [[]|e|]; [apply IH|apply HQ|done].
Qed.

(** What validation against a stored parent guarantees, whatever happens between
    its reads. *)
Definition validated (b parent : Block) (r : Res BlockValidationError unit) : Prop :=
  r = Ok tt → authentic b ∧ prev_hash (header b) = Block_hash parent ∧
    height (header b) = height (header parent) + 1.

Lemma wp_validate n b parent :
  0 ≤ height (header parent) → height (header parent) + 1 < 2 ^ 64 → u64 (slot (header b)) →
  wp n (validate_block_steps config b parent) (fun _ => validated b parent).
Proof.
  intros Hp0 Hp Hslot. unfold validate_block_steps.
  apply wp_and_then, wp_pure. intros _. rewrite u64_add_small by lia.
  destruct (_ =? _) eqn:Hh; [|done]. Zbool. cbn [negb].
  case_bool_decide as Hprev; [done|]. case_match; [done|].
  apply wp_and_then, wp_pure. intros _. destruct (slot_end_of _ _) as [e|e|] eqn:He; [|done..].
  destruct (_ <=? _) eqn:Hts; [done|]. Zbool.
  apply wp_and_then, wp_query. intros m st _ _ Hinv.
  destruct (all_active _ _) as [l|e'|] eqn:Hl; [|done..]. cbn [map_err].
  apply wp_and_then, wp_pure. intros _. destruct (elect_proposer _ _ _) as [v|e'|] eqn:Hel; [|done..].
  apply wp_and_then, wp_pure. intros _. destruct v as [v|]; [|done]. cbn [ok_or].
  case_bool_decide as Hv; [done|]. cbv zeta.
  apply wp_and_then, wp_pure. intros _. destruct (verify _ _ _) as [[]|e'|] eqn:Hsig; [|done..]. cbn [map_err].
  case_bool_decide as Hm; [done|].
  apply wp_check_transactions. intros _ r _. split_and!; [|done|done]. constructor; [|done|].
  - exists l, v. split_and!; [|by rewrite Hprev|done|done]. unfold lists_active.
    rewrite <- (sh_validators _ _ Hinv). apply (safe_active _ _ _ _ (sh_blocks _ _ Hinv) Hl).
  - split; [done|]. by exists e.
Qed.

(** *** Operations *)

Lemma keeps_rest {A} n0 (op : ST (NodeState S) string A) :
  (∀ st r st', mempool_ok (n_mempool st) → op st = (r, st') →
     n_store st' = n_store st ∧ mempool_ok (n_mempool st') ∧
     (distinct_ips (n_peers st) → distinct_ips (n_peers st'))) → keeps n0 op.
Proof.
  intros Hop n st r st' _ Hn Hinv Hst. apply (shared_mono n (n + 1)) in Hinv as []; [|lia].
  apply Hop in Hst as (Hs & Hm & Hp); [|done]. constructor; rewrite ?Hs; auto.
Qed.

Lemma keeps_read {A} n0 (f : S → Res StoreError A) : keeps n0 (store_read f).
Proof. apply keeps_rest. by intros st r st' Hm [= _ <-]. Qed.

Lemma keeps_perform {A} n0 (op : ST (NodeState S) string A) es :
  (∀ st, (op st).2 = perform (es st) st) → keeps n0 op.
Proof. intros Hop. apply keeps_rest. intros st r st' Hm Hst. specialize (Hop st). rewrite Hst in Hop. cbn in Hop. by subst. Qed.

Lemma keeps_forget n0 (hs : list (list byte)) :
  keeps n0 (modifies (fun st => set_mempool (Mempool.remove hs (n_mempool st)) st)).
Proof. apply keeps_rest. intros st r st' Hm [= <- <-]. split_and!; [done| |done]. by apply remove_ok. Qed.

(** [op] changes the store as [m] does, and nothing else. *)
Definition store_op {A B} (op : ST (NodeState S) string A) (m : ST S StoreError B) : Prop :=
  ∀ st r st', op st = (r, st') → st' = set_store (m (n_store st)).2 st.

Lemma store_call_op {A} (m : ST S StoreError A) : store_op (store_call m) m.
Proof.
  intros st r st'. unfold store_call, st_map_err, on_store. destruct (m (n_store st)) as [r0 s'].
  by intros [= <- <-].
Qed.

Lemma attempt_op {A} (m : ST S StoreError A) : store_op (never (SlotTicker.attempt m)) m.
Proof.
  intros st r st'. unfold never, st_map_err, SlotTicker.attempt. destruct (m (n_store st)) as [r0 s'].
  by intros [= <- <-].
Qed.

Lemma keeps_insert {A} n0 (op : ST (NodeState S) string A) b :
  store_op op (insert_block b) → lineage b → 0 < height (header b) ≤ n0 → keeps n0 op.
Proof.
  intros Hop Hb Hh n st r st' Hn Hlt Hinv ->%Hop.
  destruct (insert_block b (n_store st)) as [r0 s'] eqn:Hi.
  apply (shared_mono n (n + 1)) in Hinv as []; [|lia].
  apply (safe_insert (permitted (n + 1))) in Hi as (Hs & Hv & Hc); [|done|split; [done|lia]|unfold u64; lia].
  constructor; cbn; [done| |congruence|done|done].
  destruct Hc as [-> | ->]; [done|]. by rewrite lookup_insert_ne by lia.
Qed.

Lemma keeps_apply {A} n0 (op : ST (NodeState S) string A) b :
  store_op op (apply_block b) → u64 (height (header b)) → keeps n0 op.
Proof.
  intros Hop Hh n st r st' Hn Hlt Hinv ->%Hop.
  destruct (apply_block b (n_store st)) as [r0 s'] eqn:Hi.
  apply (shared_mono n (n + 1)) in Hinv as []; [|lia].
  apply (safe_apply (permitted (n + 1))) in Hi as (Hs & Hv & Hc); [|done..].
  constructor; cbn; [done|by rewrite Hc|congruence|done|done].
Qed.

Lemma keeps_rollback {A} n0 (op : ST (NodeState S) string A) b :
  store_op op (rollback_block b) → u64 (height (header b)) → height (header b) ≠ 0 → keeps n0 op.
Proof.
  intros Hop Hh Hne n st r st' Hn Hlt Hinv ->%Hop.
  destruct (rollback_block b (n_store st)) as [r0 s'] eqn:Hi.
  apply (shared_mono n (n + 1)) in Hinv as []; [|lia].
  apply (safe_rollback (permitted (n + 1))) in Hi as (Hs & Hv & Hc); [|done..].
  constructor; cbn; [done| |congruence|done|done].
  destruct Hc as [-> | ->]; [done|]. by rewrite lookup_delete_ne by lia.
Qed.

(** *** Messages *)

(** The last steps of a block that was taken in. *)
Lemma wp_announce n0 b source e :
  wp n0 (_ ← atomically (forget_txs b); _ ← atomically (gossip source (NewBlock b)); atomically (emit e))
    (fun _ _ => True).
Proof.
  apply wp_act; [apply keeps_forget|]. intros n1 _ _ _.
  apply wp_act; [by eapply keeps_perform|]. intros n2 _ _ _.
  apply wp_atomically; [by eapply keeps_perform|done].
Qed.

Lemma wp_extend n0 b source h :
  u64 (slot (header b)) → 0 ≤ h → h + 1 ≤ n0 → h + 1 < 2 ^ 64 → height (header b) = h + 1 →
  wp n0 (extend_tip_steps config b source h) (fun _ _ => True).
Proof.
  intros Hslot Hh Hn Hlt Hb. apply wp_bind, wp_atomically; [apply keeps_read|].
  intros n1 st x st1 Hn1 Hlt1 Hinv [= Hx _]. apply map_err_Ok in Hx.
  apply (safe_height _ _ _ _ (sh_blocks _ _ Hinv)) in Hx; [|unfold u64; lia].
  apply wp_bind, wp_done. intros parent Hparent. destruct x as [p|]; [|done].
  injection Hparent as <-. symmetry in Hx.
  destruct (safe_chain _ _ _ _ (sh_blocks _ _ Hinv) Hx) as (Hph & _ & Hp & _).
  apply wp_bind. eapply wp_weaken; [apply (wp_validate _ b p); [lia|lia|done]|].
  intros n2 [[]|e|] Hn2 Hval; [|apply wp_atomically; [by eapply keeps_perform|done]|done].
  destruct (Hval eq_refl) as (Hau & Hprev & _).
  assert (lineage b) as Hlin by (eapply lineage_child; [done|done|lia|done]).
  apply wp_act; [eapply keeps_insert; [apply store_call_op|done|lia]|]. intros n3 _ _ _.
  apply wp_act; [eapply keeps_apply; [apply store_call_op|unfold u64; lia]|]. intros n4 _ _ _.
  apply wp_announce.
Qed.

Lemma wp_fork_choice n0 b source h hash :
  u64 (slot (header b)) → 0 ≤ h ≤ n0 → h + 1 < 2 ^ 64 → height (header b) = h →
  wp n0 (fork_choice_steps config b source h hash) (fun _ _ => True).
Proof.
  intros Hslot Hh Hlt Hb. unfold fork_choice_steps. cbv zeta. do 2 (case_match; [done|]).
  assert (u64 (saturating_sub h 1)) as Hpar by (unfold u64, saturating_sub; lia).
  apply wp_bind, wp_atomically; [apply keeps_read|].
  intros n1 st x st1 Hn1 Hlt1 Hinv [= Hx _]. apply map_err_Ok in Hx.
  apply (safe_height _ _ _ _ (sh_blocks _ _ Hinv)) in Hx; [|done].
  destruct x as [p|]; [|done]. symmetry in Hx. case_match; [done|].
  destruct (safe_chain _ _ _ _ (sh_blocks _ _ Hinv) Hx) as (Hph & _ & Hp & _).
  apply wp_bind. eapply wp_weaken; [apply (wp_validate _ b p); [unfold u64, saturating_sub in *; lia..|done]|].
  intros n2 [[]|e|] Hn2 Hval; [|done..]. destruct (Hval eq_refl) as (Hau & Hprev & Hbp).
  assert (lineage b) as Hlin by by eapply lineage_child.
  assert (0 < h) as Hpos by (unfold saturating_sub in *; lia).
  apply wp_bind, wp_atomically; [apply keeps_read|].
  intros n3 st3 y st4 Hn3 Hlt3 Hinv3 [= Hy _]. apply map_err_Ok in Hy.
  apply (safe_height _ _ _ _ (sh_blocks _ _ Hinv3)) in Hy; [|unfold u64; lia].
  apply wp_bind, wp_done. intros current Hcur. destruct y as [c|]; [|done]. injection Hcur as <-.
  symmetry in Hy. destruct (safe_chain _ _ _ _ (sh_blocks _ _ Hinv3) Hy) as (Hch & Hcu & _).
  apply wp_act; [eapply keeps_rollback; [apply store_call_op|congruence|lia]|]. intros n5 _ Hn5 _.
  apply wp_act; [eapply keeps_insert; [apply store_call_op|done|lia]|]. intros n6 _ _ _.
  apply wp_act; [eapply keeps_apply; [apply store_call_op|unfold u64; lia]|]. intros n7 _ _ _.
  apply wp_announce.
Qed.

Lemma wp_new_block n0 b source tx :
  0 ≤ n0 → u64 (slot (header b)) → wp n0 (new_block_steps config b source tx) (fun _ _ => True).
Proof.
  intros H0n Hslot. apply wp_act; [apply keeps_read|]. intros n1 [known|] Hn1 _; [done|].
  apply wp_bind, wp_atomically; [apply keeps_read|].
  intros n2 st x st2 Hn2 Hlt2 Hinv [= Hx _]. apply map_err_Ok in Hx.
  assert (∃ h hash, default (0, zero_hash) x = (h, hash) ∧ 0 ≤ h ≤ n2) as (h & hash & -> & Hh).
  { destruct x as [[h hash]|]; [|exists 0, zero_hash; split; [done|lia]].
    destruct (safe_tip _ _ _ _ (sh_blocks _ _ Hinv) Hx) as (p & [Hp Hle] & <- & _).
    apply lineage_height in Hp. by exists (height (header p)), hash. }
  apply wp_bind, wp_done. rewrite u64_add_small by lia. intros next [= <-].
  destruct (_ =? h + 1) eqn:Hext; Zbool; [apply wp_extend; lia || done|].
  destruct (_ =? h) eqn:Hsame; Zbool; [apply wp_fork_choice; lia || done|].
  case_match; [|done]. apply wp_atomically; [by eapply keeps_perform|done].
Qed.

Lemma wp_dispatch n0 bytes source tx :
  0 ≤ n0 → (∀ msg, from_slice bytes = inr msg → message_typed msg) →
  wp n0 (dispatch_steps config bytes source tx) (fun _ _ => True).
Proof.
  intros H0n Hty. apply wp_bind, wp_done. intros msg Hmsg.
  assert (message_typed msg) as Htyped by (by apply Hty, of_sum_Ok).
  assert (Hrest : (∀ b, msg ≠ NewBlock b) → keeps n0 (handle_message config msg source tx)).
  { intros Hne. apply keeps_rest. intros st r st' Hpool Hm. split_and!.
    - destruct (message_store _ _ _ _ _ _ _ Hm) as [|[b ->]]; [done|by destruct (Hne b)].
    - by eapply keeps_mempool.
    - apply message_effects_spec in Hm as [-> _]. done. }
  destruct msg; try (apply wp_atomically; [by apply Hrest|done]).
  by apply wp_new_block.
Qed.

(** *** The slot loop *)

Lemma keeps_attempt_read {A} n0 (f : S → Res StoreError A) : keeps n0 (never (attempt_read f)).
Proof. apply keeps_rest. intros st r st' Hm Hop%attempt_op. by subst. Qed.

(** The block an elected validator makes on a block of its chain. *)
Lemma made_authentic now p v l ltxs :
  slots_in_range config now → lineage p → lists_active (now `div` d) l →
  elect_proposer (E := Empty_set) (now `div` d) (Block_hash p) l = Ok (Some v) →
  v_address v = my_address config →
  lineage (make_block config (Block_hash p) (height (header p) + 1) (now `div` d) now ltxs).
Proof.
  intros Hr Hp Hl Hel Hmine. apply (lineage_child p); [done..|]. constructor; [|done|by apply made_in_slot].
  exists l, v. split_and!; [done|by eapply elect_proposer_error_type|done|].
  assert (vs !! my_address config = Some v) as Hv.
  { apply elect_proposer_elem in Hel. destruct Hl as [Hl _]. rewrite Hl in Hel.
    apply list_elem_of_filter in Hel as [_ Hel].
    apply list_elem_of_fmap in Hel as ([a v'] & -> & Hin%elem_of_map_to_list).
    cbn in *. pose proof (own_validators _ _ Hin) as [Ha _]. congruence. }
  rewrite (own_key _ Hv). unfold make_block. cbn. unfold verify. by rewrite verify_sign.
Qed.

Lemma wp_propose n0 now p v l :
  slots_in_range config now → lineage p → height (header p) < n0 →
  height (header p) + 1 < 2 ^ 64 → lists_active (now `div` d) l →
  elect_proposer (E := Empty_set) (now `div` d) (Block_hash p) l = Ok (Some v) →
  v_address v = my_address config →
  wp n0 (propose_block_steps config (height (header p)) (Block_hash p) (now `div` d) now) (fun _ _ => True).
Proof.
  intros Hr Hp Hn Hlt Hl Hel Hmine. pose proof (lineage_height p Hp). unfold propose_block_steps.
  apply wp_act; [by eapply keeps_perform|]. intros n1 _ Hn1 _.
  apply wp_act; [by apply keeps_rest; intros st r st' Hm [= _ <-]|]. intros n2 ltxs Hn2 _.
  apply wp_bind, wp_calc. rewrite u64_add_small by lia. intros h' [= <-]. cbv zeta.
  pose proof (made_authentic now p v l ltxs Hr Hp Hl Hel Hmine) as Hmade.
  apply wp_act; [eapply keeps_insert; [apply attempt_op|done|cbn; lia]|]. intros n3 [[]|] Hn3 _; [|done].
  apply wp_act; [eapply keeps_apply; [apply attempt_op|cbn; unfold u64; lia]|]. intros n4 [[]|] Hn4 _; [|done].
  apply wp_act; [apply keeps_forget|]. intros n5 _ _ _.
  apply wp_act; [by eapply keeps_perform|]. intros n6 _ _ _.
  apply wp_atomically; [by eapply keeps_perform|done].
Qed.

Lemma wp_tick n0 now :
  slots_in_range config now → wp n0 (tick_steps config now) (fun _ _ => True).
Proof.
  intros Hr. pose proof (slot_bounds config now Hr) as (? & ? & ?). pose proof Hr as (Hd & Hnow & Hlt).
  unfold tick_steps. cbv zeta. rewrite wrap_i64_small by lia. unfold i64_div.
  rewrite (proj2 (Z.eqb_neq d 0)), Z.quot_div_nonneg by lia. rewrite decide_True by (unfold i64; lia).
  apply wp_bind, wp_calc. intros sl [= <-].
  unfold i64_add, i64_mul. rewrite arith_i64_Ok by (unfold i64; lia).
  apply wp_bind, wp_calc. intros next [= <-]. rewrite arith_i64_Ok by (unfold i64; lia).
  apply wp_bind, wp_calc. intros slot_end [= <-]. case_match; [done|]. rewrite wrap_u64_small by lia.
  apply wp_bind, wp_atomically; [apply keeps_attempt_read|].
  intros n1 st x st1 Hn1 Hlt1 Hinv Hx. destruct x as [[[h hash]|]|]; [|done..].
  unfold never, st_map_err, attempt_read, SlotTicker.attempt, reads in Hx.
  destruct (tip (n_store st)) as [y|e|] eqn:Htip; [|done..]. injection Hx as -> _.
  destruct (safe_tip _ _ _ _ (sh_blocks _ _ Hinv) Htip) as (p & [Hp Hle] & <- & <-).
  apply wp_bind, wp_atomically; [apply keeps_attempt_read|].
  intros n2 st2 x st3 Hn2 Hlt2 Hinv2 Hx. destruct x as [l|]; [|done].
  unfold never, st_map_err, attempt_read, SlotTicker.attempt, reads in Hx.
  destruct (all_active _ _) as [l'|e|] eqn:Hl; [|done..]. injection Hx as -> _.
  assert (lists_active (now `div` d) l) as Hact.
  { unfold lists_active. rewrite <- (sh_validators _ _ Hinv2).
    apply (safe_active _ _ _ _ (sh_blocks _ _ Hinv2) Hl). }
  apply wp_bind, wp_calc. intros remaining _.
  apply wp_act; [by eapply keeps_perform|]. intros n3 _ Hn3 _.
  apply wp_act; [apply keeps_attempt_read|]. intros n4 tip_block Hn4 Hlt4.
  match goal with |- wp _ (if ?b then _ else _) _ => destruct b end; [done|].
  apply wp_bind, wp_calc. intros [v|] Hel; [|done]. apply wp_bind.
  match goal with |- wp _ (if ?b then _ else _) _ => destruct b eqn:Hb end.
  - apply andb_prop in Hb as [Hmine%bool_decide_eq_true _].
    eapply wp_weaken; [by apply (wp_propose _ _ _ v l); try lia|done].
  - apply wp_atomically; [by eapply keeps_perform|done].
Qed.

(** *** All tasks *)

Lemma wp_task n0 p : 0 ≤ n0 → node_task p → wp n0 p (fun _ _ => True).
Proof.
  intros Hn Hp. destruct Hp as [bytes src tx Hty|now Hr|me path body|a tx|a].
  - by apply wp_dispatch.
  - apply wp_bind. eapply wp_weaken; [by apply wp_tick|done].
  - apply wp_atomically; [|done]. apply keeps_rest. intros st r st' Hm.
    unfold never, st_map_err, mbind, ST_bind. destruct (route me path body st) as [r0 st1] eqn:Hr.
    apply route_spec in Hr as (Hs & Hps & Hm' & _); [|done].
    destruct r0 as [x|[]|]; intros [= _ <-]; by rewrite Hps.
  - apply wp_atomically; [|done]. apply keeps_rest. intros st r st' Hm [= _ <-].
    destruct (register_peer a tx st) as [st'|] eqn:Hr; [|done]. cbn.
    destruct (register_peer_rest _ _ _ _ Hr) as [-> ->]. by apply register_peer_spec in Hr as (_ & _ & Hd').
  - apply wp_atomically; [|done]. apply keeps_rest. intros st r st' Hm [= _ <-]. split_and!; [done|done|].
    cbn. apply distinct_ips_remove.
Qed.

(** *** Pools *)

Definition pool_inv (n : Z) (c : list (P unit) * NodeState S) : Prop :=
  shared_inv n c.2 ∧ Forall (fun p => wp n p (fun _ _ => True)) c.1.

Lemma pool_step n c c' :
  0 ≤ n → n + 1 < 2 ^ 64 → pool_inv n c → sched_step c c' → pool_inv (n + 1) c'.
Proof.
  intros H0n Hn [Hinv Hpool] Hstep.
  assert (Hlater : ∀ l : list (P unit), Forall (fun p => wp n p (fun _ _ => True)) l →
    Forall (fun p => wp (n + 1) p (fun _ _ => True)) l).
  { intros l Hl. eapply Forall_impl; [exact Hl|]. intros p Hp.
    by apply (wp_later n (n + 1) p (fun _ => True)); [lia|]. }
  destruct Hstep as [p pool st Hp|A i op k pool st r st' Hi Hop]; cbn in *.
  - split; [apply (shared_mono n); [lia|done]|]. cbn. apply Forall_app. split; [by apply Hlater|].
    constructor; [|constructor]. apply wp_task; [lia|done].
  - pose proof (Forall_lookup_1 _ _ _ _ Hpool Hi) as Hwp.
    destruct (Hwp n st r st') as [Hinv' Hk]; [lia|done..|]. split; [done|]. cbn.
    apply Forall_insert; [by apply Hlater|]. destruct r as [a|e|]; [by apply Hk|done..].
Qed.

Lemma pool_steps n k c c' :
  0 ≤ n → n + Z.of_nat k < 2 ^ 64 → pool_inv n c → nsteps sched_step k c c' →
  pool_inv (n + Z.of_nat k) c'.
Proof.
  intros H0n Hn Hinv Hsteps. revert n H0n Hn Hinv.
  induction Hsteps as [c|k c c1 c' Hstep _ IH]; intros n H0n Hn Hinv.
  - by rewrite Z.add_0_r.
  - replace (n + Z.of_nat (Datatypes.S k)) with (n + 1 + Z.of_nat k) by lia.
    apply IH; [lia..|]. eapply pool_step; [done|lia|done..].
Qed.
End schedules.

(** ** One program at a time *)

Section advance.
Context {N : Type}.

(** [p] runs to [p'] without interruption and without failing. *)
Inductive advance {A} : relation (proc N A * N) :=
| advance_op {B} (op : ST N string B) k st b st' :
    op st = (Ok b, st') → advance (Act op k, st) (k b, st').

Lemma advance_bind {A B} (q : proc N A) (k : A → proc N B) st a st' :
  run_alone q st = (Ok a, st') → rtc advance (q ≫= k, st) (k a, st').
Proof.
  revert st. induction q as [r|X op k' IH]; intros st; cbn [run_alone].
  - intros [= -> <-]. apply rtc_refl.
  - unfold mbind at 1, ST_bind. destruct (op st) as [[b|e|] st1] eqn:Hop; [|done..].
    intros Hrun. eapply rtc_l; [by apply (advance_op op)|]. by apply IH.
Qed.
End advance.

(** A program that advances in a pool. *)
Lemma advance_schedule `{Crypto} `{CoreJson} `{Json Message} `{JsonText} `{BuildProfile} `{HashOrder}
    `{UnstableSort} {S} `{!BlockStore S} `{!UtxoStore S} `{!ValidatorStore S} config
    (p p' : proc (NodeState S) unit) pool i st st' :
  rtc advance (p, st) (p', st') → pool !! i = Some p →
  rtc (sched_step config) (pool, st) (<[i := p']> pool, st').
Proof.
  intros Hadv. remember (p, st) as c eqn:Hc. remember (p', st') as c' eqn:Hc'.
  revert p pool st Hc. induction Hadv as [c|c c1 c' Hstep _ IH]; intros p pool st -> Hi.
  - injection Hc' as -> ->. by rewrite list_insert_id.
  - inversion Hstep as [B op k st0 b st1 Hop]; subst.
    assert (i < length pool)%nat as Hlt by (by apply lookup_lt_Some in Hi).
    eapply rtc_l; [by eapply sched_run|]. cbn [resume].
    specialize (IH eq_refl (k b) (<[i := k b]> pool) st1 eq_refl ltac:(by apply list_lookup_insert_eq)).
    by rewrite list_insert_insert_eq in IH.
Qed.

(** ** Two tasks that extend the same tip *)

Section race.
Context `{Crypto} `{CoreJson} `{Json Message} `{JsonText} `{BuildProfile} `{HashOrder} `{UnstableSort}.
Context {S : Type} `{!BlockStore S} `{!UtxoStore S} `{!ValidatorStore S} `{!StoreLaws S}.
Context (config : NodeConfig).
Implicit Types (st : NodeState S).
Notation d := (slot_duration_secs config).

(** [b] is new, valid, and extends the tip [p] at height [t]. *)
Record extends (b p : Block) (t : Z) (s : S) : Prop := {
  ex_typed : u64 (slot (header b));
  ex_new : get_by_hash (Block_hash b) s = Ok None;
  ex_tip : tip s = Ok (Some (t, Block_hash p));
  ex_parent : get_by_height t s = Ok (Some p);
  ex_height : height (header b) = t + 1;
  ex_valid : validate_block b p s s d = Ok tt;
}.

Lemma advance_act {A B} (op : ST (NodeState S) string A) (k : A → proc (NodeState S) B) st a st' c :
  op st = (Ok a, st') → rtc advance (k a, st') c → rtc advance (atomically op ≫= k, st) c.
Proof. intros Hop Hc. eapply rtc_l; [by apply (advance_op op)|done]. Qed.

Lemma done_bind {A B} (a : A) (k : A → proc (NodeState S) B) : Done (Ok a) ≫= k = k a.
Proof. done. Qed.

Lemma reach_commit b p t src tx st :
  extends b p t (n_store st) → 0 ≤ t → t + 1 < 2 ^ 64 →
  rtc advance (dispatch_steps config (to_vec (NewBlock b)) src tx, st) (commit_steps b src, st).
Proof.
  intros [_ Hnew Htip Hparent Hh Hval] Ht Hlt. unfold dispatch_steps. rewrite from_slice_to_vec.
  change (rtc advance (new_block_steps config b src tx, st) (commit_steps b src, st)).
  eapply advance_act; [unfold store_read, read_store, reads; by rewrite Hnew|].
  eapply advance_act; [unfold store_read, read_store, reads; by rewrite Htip|].
  change (rtc advance (Done (u64_add t 1) ≫= (fun next =>
    if height (header b) =? next then extend_tip_steps config b src t else
    if height (header b) =? t then fork_choice_steps config b src t (Block_hash p)
    else if next <? height (header b) then atomically (try_send tx (GetBlocks next)) else mret tt), st)
    (commit_steps b src, st)).
  rewrite u64_add_small by lia.
  change (rtc advance (if height (header b) =? t + 1 then extend_tip_steps config b src t else
    if height (header b) =? t then fork_choice_steps config b src t (Block_hash p)
    else if t + 1 <? height (header b) then atomically (try_send tx (GetBlocks (t + 1))) else mret tt, st)
    (commit_steps b src, st)).
  rewrite Hh, Z.eqb_refl. eapply advance_act; [unfold store_read, read_store, reads; by rewrite Hparent|].
  cbn [ok_or]. rewrite done_bind.
  apply (advance_bind (validate_block_steps config b p) (fun valid =>
    match valid with
    | Err e => atomically (emit (BlockRejected (addr_to_string src) (height (header b))
                                   (hex_encode (Block_hash b)) (BlockValidationError_to_string e)))
    | Panic => Done Panic
    | Ok _ => commit_steps b src
    end) st (Ok tt) st).
  by rewrite (validate_block_delivers config b p st), Hval.
Qed.

Lemma commit_done b src st s' :
  extend_calls b (n_store st) = (Ok tt, s') →
  ∃ st', run_alone (commit_steps b src) st = (Ok tt, st') ∧ n_store st' = s'.
Proof.
  unfold extend_calls, mbind, ST_bind. destruct (insert_block b (n_store st)) as [[[]|e|] s1] eqn:Hi; [|done..].
  intros Ha. eexists. unfold commit_steps. cbn. unfold store_call, st_map_err, on_store, mbind, ST_bind.
  rewrite Hi. cbn. rewrite Ha. cbn. done.
Qed.

(** Storing and applying a block at the top of the chain. *)
Lemma extend_top b (s s' : S) t :
  store_ok s → 0 ≤ t + 1 < 2 ^ 64 → height (header b) = t + 1 →
  (∀ h, is_Some (chain (view s) !! h) → h ≤ t + 1) → extend_calls b s = (Ok tt, s') →
  store_ok s' ∧ chain (view s') = <[t + 1 := b]> (chain (view s)) ∧
  utxos (view s') = ledger_block b (utxos (view s)).
Proof.
  intros Hs Ht Hh Hmax. unfold extend_calls, mbind, ST_bind.
  destruct (insert_block b s) as [[[]|e|] s1] eqn:Hi; [|done..]. intros Ha.
  apply insert_law in Hi as (Hs1 & Hu1 & _ & _ & Hc1); [|done|unfold u64; lia|by rewrite Hh].
  apply apply_law in Ha as (Hs2 & Hc2 & _ & Hu2 & _); [|done|unfold u64; lia].
  rewrite Hc2, Hc1, Hh, (Hu2 eq_refl), Hu1. done.
Qed.

(** The schedule: both tasks run up to the point where they take the block in,
    then both go on. *)
Lemma race_schedule b1 b2 p t src1 src2 tx1 tx2 st s1 s2 :
  0 ≤ t → t + 1 < 2 ^ 64 → extends b1 p t (n_store st) → extends b2 p t (n_store st) →
  extend_calls b1 (n_store st) = (Ok tt, s1) → extend_calls b2 s1 = (Ok tt, s2) →
  ∃ st', rtc (sched_step config)
      ([dispatch_steps config (to_vec (NewBlock b1)) src1 tx1;
        dispatch_steps config (to_vec (NewBlock b2)) src2 tx2], st)
      ([Done (Ok tt); Done (Ok tt)], st') ∧ n_store st' = s2.
Proof.
  intros Ht Hlt He1 He2 Hx1 Hx2.
  destruct (commit_done b1 src1 st s1 Hx1) as (st1 & Hrun1 & <-).
  destruct (commit_done b2 src2 st1 s2 Hx2) as (st2 & Hrun2 & Hst2).
  exists st2. split; [|done].
  set (p1 := dispatch_steps config (to_vec (NewBlock b1)) src1 tx1).
  set (p2 := dispatch_steps config (to_vec (NewBlock b2)) src2 tx2).
  etrans; [exact (advance_schedule config p1 (commit_steps b1 src1) [p1; p2] 0 st st
    (reach_commit b1 p t src1 tx1 st He1 Ht Hlt) eq_refl)|].
  etrans; [exact (advance_schedule config p2 (commit_steps b2 src2) [commit_steps b1 src1; p2] 1 st st
    (reach_commit b2 p t src2 tx2 st He2 Ht Hlt) eq_refl)|].
  etrans; [exact (run_schedule config _ [commit_steps b1 src1; commit_steps b2 src2] 0 _ _ _ eq_refl Hrun1)|].
  exact (run_schedule config _ [Done (Ok tt); commit_steps b2 src2] 1 _ _ _ eq_refl Hrun2).
Qed.
End race.

(** ** Properties *)

Section properties.
Context `{Crypto} `{CoreJson} `{Json Message} `{JsonText} `{BuildProfile} `{HashOrder} `{UnstableSort}.
Context {S : Type} `{!BlockStore S} `{!UtxoStore S} `{!ValidatorStore S} `{!StoreLaws S} `{!StoreSafety S}.
Context (config : NodeConfig).
Implicit Types (st : NodeState S).

(** C10: what no interleaving of the tasks can break.  From genesis, whatever
    tasks are started and however their calls of the stores interleave: after
    [n] calls the genesis block and the validators are those of the
    configuration; every block of the chain lies at its height, at most [n], and
    is the last of a chain of blocks from genesis, each of them signed by the
    validator elected for its slot on its parent, committing to its transactions
    and lying before the end of its slot; the mempool keeps its invariants and
    there is at most one peer per IP address. *)
Theorem interleavings_safe genesis_cfg (s s' : S) n pool st :
  store_ok s → view s = mkLedger ∅ ∅ ∅ → apply_genesis genesis_cfg s = (Ok tt, s') →
  (∀ v, validators (view s') !! my_address config = Some v →
     v_pubkey v = verifying_key (my_signing_key config)) →
  nsteps (sched_step config) n ([], new_node config s') (pool, st) → Z.of_nat n < 2 ^ 64 →
  ∃ alloc_txs, collect_res (alloc_tx <$> g_accounts genesis_cfg) = Ok alloc_txs ∧
    let g := build_genesis_block (g_timestamp genesis_cfg) alloc_txs in
    chain (view (n_store st)) !! 0 = Some g ∧
    validators (view (n_store st)) = validators (view s') ∧
    (∀ h b, chain (view (n_store st)) !! h = Some b →
       height (header b) = h ∧ 0 ≤ h ≤ Z.of_nat n ∧ lineage config g (validators (view s')) b) ∧
    mempool_ok (n_mempool st) ∧ distinct_ips (n_peers st).
Proof.
  intros Hs Hv Hg Hkey Hsteps Hn.
  destruct (genesis_inv config _ _ _ Hs Hv Hg) as (txs & vs & Htxs & _ & [Hst Hm Hp]).
  exists txs. split; [done|]. cbv zeta. set (g := build_genesis_block _ _) in *.
  destruct Hst as [Hok Hchain Hgen Hval _]. cbn in *.
  assert (pool_inv config g (validators (view s')) 0 ([], new_node config s')) as Hinv.
  { split; [|constructor]. constructor; [|done..]. apply safe_intro; [done|]. intros h b Hb. cbn in Hb.
    assert (0 ≤ h ≤ 0) as Hh by (by apply (co_range _ _ Hchain)).
    assert (h = 0) as -> by lia. rewrite Hgen in Hb. injection Hb as <-.
    split_and!; [done|unfold u64; lia|]. split; [apply lineage_genesis|done]. }
  destruct (pool_steps config g _ eq_refl Hkey (keys_law s' Hok) 0 n _ _ ltac:(lia) ltac:(lia) Hinv Hsteps)
    as [[Hb Hg0 Hvs Hm' Hp'] _].
  split_and!; try done. intros h b Hhb. destruct (safe_chain _ _ _ _ Hb Hhb) as (Hh & Hu & Hlin & Hle).
  unfold u64 in Hu. split_and!; [done|lia|lia|done].
Qed.

(** The transition system of [System] is a special case: whatever a node
    does one handler at a time is a schedule of the interleaved tasks, in which
    every task runs to its end before the next one starts. *)
Theorem sequential_runs_are_schedules st st' :
  rtc (node_step config) st st' →
  ∃ rs, rtc (sched_step config) ([], st) (Done <$> rs, st').
Proof.
  intros Hrun. cut (∀ rs, ∃ rs', rtc (sched_step config) (Done <$> rs, st) (Done <$> rs', st')).
  { intros Hcut. destruct (Hcut []) as [rs Hrs]. by exists rs. }
  induction Hrun as [st|st st1 st' Hstep _ IH]; intros rs; [by exists rs|].
  destruct (step_schedule config (Done <$> rs) _ _ Hstep) as [r Hr].
  destruct (IH (rs ++ [r])) as [rs' Hrs']. exists rs'. etrans; [exact Hr|].
  by rewrite fmap_app in Hrs'.
Qed.

(** C36: interleaved tasks can corrupt the outputs for good.  When two connections
    deliver different valid extensions of the same tip at the same time, both
    handlers may pass their checks before either stores its block; both then
    succeed and announce their block, the chain ends with the second block, and
    the unspent outputs contain the effects of both.  If the first block creates
    an output that the second neither creates nor spends, the outputs are not
    those of the chain any more. *)
Theorem racing_blocks_diverge b1 b2 p t src1 src2 tx1 tx2 st s1 s2 :
  consistent (n_store st) t → t + 1 < 2 ^ 64 →
  extends config b1 p t (n_store st) → extends config b2 p t (n_store st) →
  extend_calls b1 (n_store st) = (Ok tt, s1) → extend_calls b2 s1 = (Ok tt, s2) →
  ∃ st', rtc (sched_step config)
      ([dispatch_steps config (to_vec (NewBlock b1)) src1 tx1;
        dispatch_steps config (to_vec (NewBlock b2)) src2 tx2], st)
      ([Done (Ok tt); Done (Ok tt)], st') ∧
    n_store st' = s2 ∧
    chain (view s2) = <[t + 1 := b2]> (chain (view (n_store st))) ∧
    utxos (view s2) = ledger_block b2 (ledger_block b1 (utxos (view (n_store st)))) ∧
    (∀ r, r ∉ block_created b2 → r ∉ block_spent b2 → utxos (view (n_store st)) !! r = None →
       is_Some (ledger_block b1 (utxos (view (n_store st))) !! r) → ¬ consistent s2 (t + 1)).
Proof.
  intros Hc Hlt He1 He2 Hx1 Hx2. pose proof (co_nonneg _ _ (cs_chain _ _ Hc)) as Ht.
  destruct (race_schedule config b1 b2 p t src1 src2 tx1 tx2 st s1 s2) as (st' & Hrun & Hst'); [done..|].
  destruct (extend_top b1 (n_store st) s1 t) as (Hok1 & Hc1 & Hu1); [apply Hc|lia|apply He1| |done|].
  { intros h Hh%(co_range _ _ (cs_chain _ _ Hc)). lia. }
  destruct (extend_top b2 s1 s2 t) as (Hok2 & Hc2 & Hu2); [done|lia|apply He2| |done|].
  { intros h. rewrite Hc1. intros [<-|[_ Hh%(co_range _ _ (cs_chain _ _ Hc))]]%lookup_insert_is_Some; lia. }
  rewrite Hc1, insert_insert_eq in Hc2. rewrite Hu1 in Hu2.
  exists st'. split_and!; try done. intros r Hr1 Hr2 Hnone [o Ho] Hc'.
  pose proof (cs_utxos _ _ Hc') as Heq. rewrite Hc2, Hu2 in Heq.
  rewrite (replay_below_succ _ (t + 1) b2) in Heq by (lia || by rewrite lookup_insert_eq).
  rewrite (replay_below_ext _ (chain (view (n_store st)))) in Heq
    by (intros h Hh; rewrite lookup_insert_ne by lia; done).
  rewrite <- (cs_utxos _ _ Hc) in Heq. apply (f_equal (.!! r)) in Heq. unfold ledger_block in *.
  rewrite !(lookup_ledger_txs (txs b2)), !decide_False in Heq by done. congruence.
Qed.
End properties.
