(* ===== verification/EventBus.v ===== *)
(** * The visualizer's event bus ([bcc-visualizer/src/event_bus.rs])

    The ring buffer of recent events and their sequence numbers. *)

From S2P Require Import Prelude DebugEvent.

Record WsEnvelope := mkWsEnvelope { ws_seq : Z; ws_node : string; ws_ts : string; ws_event : DebugEvent }.

(** [tx] is the broadcast channel: what was sent on it. *)
Record EventBus := mkEventBus {
  recent : list WsEnvelope;
  next_seq : Z;
  bus_capacity : nat;
  sent : list WsEnvelope;
}.

Module EventBus.

Definition new (capacity : nat) : EventBus := mkEventBus [] 0 capacity [].

(** [fetch_add] on an [AtomicU64] wraps around. *)
Definition publish (node ts : string) (event : DebugEvent) (bus : EventBus) : EventBus :=
  let envelope := mkWsEnvelope (next_seq bus) node ts event in
  let buf := if (bus_capacity bus <=? length (recent bus))%nat then tail (recent bus) else recent bus in
  mkEventBus (buf ++ [envelope]) (wrap_u64 (next_seq bus + 1)) (bus_capacity bus)
    (sent bus ++ [envelope]).

Definition recent_sync (bus : EventBus) : list WsEnvelope := recent bus.

End EventBus.

(** The buffer of the code, for a capacity of at least one, is the tail of what
    was sent. *)
Record bus_ok (bus : EventBus) : Prop := mkBusOk {
  bus_recent : recent bus = drop (length (sent bus) - bus_capacity bus) (sent bus);
  bus_seq : next_seq bus = wrap_u64 (Z.of_nat (length (sent bus)));
  bus_numbers i e : sent bus !! i = Some e → ws_seq e = wrap_u64 (Z.of_nat i);
}.

Lemma bus_new_ok n : bus_ok (EventBus.new n).
Proof. by constructor. Qed.

Lemma tail_drop {A} k (l : list A) : tail (drop k l) = drop (S k) l.
Proof. revert l. induction k as [|k IH]; intros [|x l]; [done..|apply IH]. Qed.

Lemma bus_publish_ok node ts event bus :
  (0 < bus_capacity bus)%nat → bus_ok bus → bus_ok (EventBus.publish node ts event bus).
Proof.
  intros Hpos [Hr Hs Hn].
  assert (Hlen : length (recent bus) = Nat.min (bus_capacity bus) (length (sent bus))).
  { rewrite Hr, length_drop. lia. }
  constructor; cbn [recent sent next_seq bus_capacity EventBus.publish].
  - rewrite length_app, Hlen. cbn [length].
    destruct (Nat.leb_spec (bus_capacity bus) (Nat.min (bus_capacity bus) (length (sent bus)))).
    + rewrite Hr, drop_app_le by lia. f_equal.
      replace (length (sent bus) + 1 - bus_capacity bus)%nat
        with (S (length (sent bus) - bus_capacity bus)) by lia.
      by rewrite tail_drop.
    + rewrite Hr. replace (length (sent bus) - bus_capacity bus)%nat with 0%nat by lia.
      by replace (length (sent bus) + 1 - bus_capacity bus)%nat with 0%nat by lia.
  - rewrite Hs, length_app. cbn [length]. unfold wrap_u64. rewrite Zplus_mod_idemp_l. f_equal. lia.
  - intros i e. rewrite lookup_app. destruct (sent bus !! i) as [x|] eqn:Hi; [intros [= <-]; auto|].
    intros Hj. apply list_lookup_singleton_Some in Hj as [Hj <-]. cbn [ws_seq].
    apply lookup_ge_None in Hi. rewrite Hs. f_equal. lia.
Qed.

(** After any sequence of publications on a bus of capacity at least one, the
    buffer handed to a new client holds exactly the last [capacity] events sent
    to the connected ones, in order, and events are numbered consecutively. *)
Theorem recent_is_tail capacity (events : list (string * string * DebugEvent)) :
  (0 < capacity)%nat →
  let bus := foldl (fun b '(node, ts, ev) => EventBus.publish node ts ev b) (EventBus.new capacity) events in
  EventBus.recent_sync bus = drop (length events - capacity) (sent bus) ∧
  length (sent bus) = length events ∧
  ∀ i e, sent bus !! i = Some e → ws_seq e = wrap_u64 (Z.of_nat i).
Proof.
  intros Hc bus.
  assert (Hinv : bus_ok bus ∧ bus_capacity bus = capacity ∧ length (sent bus) = length events).
  { subst bus. induction events as [|[[node ts] ev] events IH] using rev_ind.
    - split; [apply bus_new_ok|done].
    - rewrite foldl_app, length_app. cbn [foldl]. destruct IH as (Hok & Hcap & Hlen).
      split; [apply bus_publish_ok; [lia|done]|]. cbn. rewrite length_app. cbn. lia. }
  destruct Hinv as ([Hr Hs Hn] & Hcap & Hlen). split_and!; [|done|done].
  unfold EventBus.recent_sync. by rewrite Hr, Hcap, Hlen.
Qed.
