(* ===== verification/Wallet.v ===== *)
(** * The wallet ([bcc-client/src/wallet.rs])

    Coin selection and the construction of transfers, with the theorem that ties
    them to the node: a transfer built from the outputs a node lists for the
    sender passes the validation of that node. *)

From S2P Require Import Prelude Bytes Types Store Ledger Validation.

(** One item of the answer to [GET /utxos] ([rpc.rs]). *)
Record UtxoItem := mkUtxoItem {
  ui_tx_hash : string;
  ui_index : Z;
  ui_amount : Z;
}.
#[global] Instance UtxoItem_eqdec : EqDecision UtxoItem.
Proof. solve_decision. Defined.

(** [error.rs]; I/O, parsing and transport errors are given by their message. *)
Inductive ClientError :=
| KeystoreIo (msg : string)
| KeystoreParse (msg : string)
| WrongPassphrase
| PassphraseMismatch
| Rpc (msg : string)
| ClientNodeError (status : Z) (body : string)
| ClientAddress (e : AddressError)
| ClientInsufficientFunds (have need : Z)
| ClientSerialization (msg : string)
| ClientHex (msg : string)
| KeystoreExists (path : string)
| ClientConfig (msg : string).

Record CoinSelection := mkCoinSelection {
  selected : list UtxoItem;
  total : Z;
}.

Section wallet.
Context `{Crypto} `{CoreJson} `{BuildProfile} `{UnstableSort}.

(** ** Operations *)

(** [sort_unstable_by_key(|u| u.amount)] *)
Definition amount_le (u v : UtxoItem) : bool := ui_amount u <=? ui_amount v.

(** The accumulation loop; [None] when the coins run out. *)
Fixpoint take_coins (target : Z) (acc : list UtxoItem) (sum : Z) (sorted : list UtxoItem) :
    option CoinSelection :=
  match sorted with
  | [] => None
  | utxo :: sorted' =>
      let acc := acc ++ [utxo] in
      let sum := saturating_add sum (ui_amount utxo) in
      if target <=? sum then Some (mkCoinSelection acc sum)
      else take_coins target acc sum sorted'
  end.

Definition select_coins (utxos : list UtxoItem) (target : Z) : Res ClientError CoinSelection :=
  match take_coins target [] 0 (sort_unstable amount_le utxos) with
  | Some sel => Ok sel
  | None =>
      have ← u64_sum (ui_amount <$> utxos);
      Err (ClientInsufficientFunds have target)
  end.

(** [Signature::from_bytes(&[0u8; 64])] *)
Definition placeholder_signature : Signature := mkSignature (replicate 64 x00).

(** The loop over [&utxos]: inputs with placeholder signatures. *)
Fixpoint placeholder_inputs (pubkey : VerifyingKey) (utxos : list UtxoItem) :
    Res ClientError (list TxInput) :=
  match utxos with
  | [] => Ok []
  | utxo :: utxos' =>
      tx_hash_bytes ← map_err ClientHex (of_sum (hex_decode (ui_tx_hash utxo)));
      if negb (length tx_hash_bytes =? 32)%nat
      then Err (ClientSerialization "tx_hash is not 32 bytes")
      else
        rest ← placeholder_inputs pubkey utxos';
        Ok (mkTxInput (mkTxOutRef tx_hash_bytes (ui_index utxo)) placeholder_signature pubkey :: rest)
  end.

Definition set_signature (sig : Signature) (input : TxInput) : TxInput :=
  mkTxInput (out_ref input) sig (in_pubkey input).

Definition build_transfer (signing_key : SigningKey) (utxos : list UtxoItem)
    (recipient : Address) (value : Z) (change_address : Address) : Res ClientError Transaction :=
  total ← u64_sum (ui_amount <$> utxos);
  let outs :=
    mkTxOutput value recipient ::
    (if value <? total then [mkTxOutput (total - value) change_address] else []) in
  ins ← placeholder_inputs (verifying_key signing_key) utxos;
  let tx := mkTransaction Transfer ins outs in
  let msg := tx_signing_bytes tx in
  Ok (mkTransaction Transfer (set_signature (sign signing_key msg) <$> ins) outs).

(** What the client reads for an entry of the node's answer to [GET /utxos]. *)
Definition utxo_item (ro : TxOutRef * TxOutput) : UtxoItem :=
  mkUtxoItem (hex_encode (tx_hash ro.1)) (index ro.1) (amount ro.2).

End wallet.

(** ** Coin selection *)

Section selection.
Context `{BuildProfile} `{UnstableSort}.
Notation amounts us := (ui_amount <$> us).

Lemma take_coins_spec target acc sorted :
  match take_coins target acc (sat_sum (amounts acc)) sorted with
  | Some sel => ∃ front c rest, sorted = front ++ c :: rest ∧ selected sel = acc ++ front ++ [c] ∧
      total sel = sat_sum (amounts (selected sel)) ∧ target ≤ total sel ∧
      (front ≠ [] → sat_sum (amounts (acc ++ front)) < target)
  | None => sorted = [] ∨ sat_sum (amounts (acc ++ sorted)) < target
  end.
Proof.
  revert acc. induction sorted as [|u sorted IH]; intros acc; cbn [take_coins]; [by left|].
  assert (saturating_add (sat_sum (amounts acc)) (ui_amount u) = sat_sum (amounts (acc ++ [u]))) as ->.
  { unfold sat_sum. by rewrite fmap_app, foldl_app. }
  destruct (Z.leb_spec target (sat_sum (amounts (acc ++ [u])))) as [Hle|Hlt].
  - exists [], u, sorted. by split_and!.
  - specialize (IH (acc ++ [u])).
    destruct (take_coins target (acc ++ [u]) _ sorted) as [sel|].
    + destruct IH as (front & c & rest & -> & Hsel & Ht & Hle & Hfr). exists (u :: front), c, rest.
      rewrite Hsel, <- app_assoc in *. split_and!; try done. intros _.
      destruct front as [|x front]; [|by apply Hfr]. cbn. lia.
    + right. rewrite <- app_assoc in IH. destruct IH as [->|IH]; done.
Qed.

Lemma amount_le_total : (∀ u v, amount_le u v ∨ amount_le v u) ∧
  ∀ u v w, amount_le u v → amount_le v w → amount_le u w.
Proof. unfold amount_le. split; intros; rewrite !Is_true_true, !Z.leb_le in *; lia. Qed.

Lemma amounts_nonneg us : Forall (fun u => u64 (ui_amount u)) us → Forall (fun x => 0 ≤ x) (amounts us).
Proof. intros Hus. apply Forall_fmap. eapply Forall_impl; [done|]. intros u. unfold compose, u64. lia. Qed.

Lemma select_coins_cases utxos target :
  Forall (fun u => u64 (ui_amount u)) utxos → u64 target →
  match select_coins utxos target with
  | Ok sel => ∃ front c rest, selected sel = front ++ [c] ∧ front ++ c :: rest ≡ₚ utxos ∧
      StronglySorted (fun u v => ui_amount u ≤ ui_amount v) (front ++ c :: rest) ∧
      total sel = Z.min (sumZ (amounts (selected sel))) u64_max ∧
      target ≤ sumZ (amounts (selected sel)) ∧
      (front ≠ [] → sumZ (amounts front) < target)
  | Err e => e = ClientInsufficientFunds (sumZ (amounts utxos)) target ∧
      (utxos = [] ∨ sumZ (amounts utxos) < target)
  | Panic => False
  end.
Proof.
  intros Hus Ht. unfold select_coins.
  pose proof (sort_unstable_perm amount_le utxos) as Hp.
  pose proof (sort_unstable_sorted amount_le utxos (proj1 amount_le_total) (proj2 amount_le_total)) as Hs.
  set (sorted := sort_unstable amount_le utxos) in *.
  assert (Hsus : Forall (fun u => u64 (ui_amount u)) sorted) by by rewrite Hp.
  pose proof (take_coins_spec target [] sorted) as Hspec. cbn [app] in Hspec.
  change (sat_sum (amounts [])) with 0 in Hspec.
  unfold u64 in Ht. destruct (take_coins target [] 0 sorted) as [sel|].
  - destruct Hspec as (front & c & rest & Hsort & Hsel & Htot & Hle & Hfr).
    exists front, c, rest. rewrite Hsel in *. rewrite Hsort in *.
    apply amounts_nonneg in Hsus. rewrite !fmap_app, fmap_cons, Forall_app, Forall_cons in *.
    destruct Hsus as (Hf & Hc & _).
    rewrite sat_sum_min in Htot by (rewrite Forall_app; by repeat constructor).
    rewrite sat_sum_min in Hfr by done. split_and!; try done.
    + eapply StronglySorted_weaken; [|exact Hs]. intros u v. unfold amount_le.
      by rewrite Is_true_true, Z.leb_le.
    + lia.
    + intros Hne. specialize (Hfr Hne). unfold u64_max in Hfr. lia.
  - assert (Hlt : utxos = [] ∨ sumZ (amounts utxos) < target).
    { destruct Hspec as [Hnil|Hlt]; [left|right].
      - rewrite Hnil in Hp. by apply Permutation_nil_r.
      - rewrite sat_sum_min in Hlt by by apply amounts_nonneg.
        rewrite Hp in Hlt. unfold u64_max in Hlt. lia. }
    rewrite u64_sum_Ok; [cbn; done|by apply amounts_nonneg|].
    destruct Hlt as [->|]; cbn; lia.
Qed.
End selection.

(** ** Transfers *)

Section transfers.
Context `{Crypto} `{CoreJson} `{BuildProfile} `{UnstableSort}.
Notation amounts us := (ui_amount <$> us).

Lemma placeholder_inputs_items pk (l : list (TxOutRef * TxOutput)) :
  Forall (fun ro => length (tx_hash ro.1) = 32%nat) l →
  placeholder_inputs pk (utxo_item <$> l) =
    Ok ((fun ro => mkTxInput ro.1 placeholder_signature pk) <$> l).
Proof.
  induction 1 as [|[[h i] o] l Hh Hl IH]; [done|]. cbn [fmap list_fmap placeholder_inputs].
  cbn in Hh. cbn [ui_tx_hash utxo_item tx_hash fst]. rewrite hex_decode_encode. cbn.
  by rewrite Hh, IH.
Qed.

(** The outputs of a transfer: the payment, and the change if there is any. *)
Definition transfer_outputs (recipient change : Address) (value total : Z) : list TxOutput :=
  mkTxOutput value recipient :: (if value <? total then [mkTxOutput (total - value) change] else []).

(** The transfer of [value] that spends the outputs [l]. *)
Definition transfer_of (sk : SigningKey) (l : list (TxOutRef * TxOutput)) (recipient change : Address)
    (value : Z) : Transaction :=
  let outs := transfer_outputs recipient change value (sumZ (amount <$> l.*2)) in
  let msg := to_vec (mkTxSigningData Transfer l.*1 outs) in
  mkTransaction Transfer ((fun r => mkTxInput r (sign sk msg) (verifying_key sk)) <$> l.*1) outs.

Lemma amounts_items l : amounts (utxo_item <$> l) = amount <$> l.*2.
Proof. rewrite <- !list_fmap_compose. done. Qed.

Lemma build_transfer_items sk l recipient value change :
  Forall (fun ro => length (tx_hash ro.1) = 32%nat ∧ u64 (amount ro.2)) l →
  sumZ (amount <$> l.*2) < 2 ^ 64 →
  build_transfer sk (utxo_item <$> l) recipient value change
    = Ok (transfer_of sk l recipient change value).
Proof.
  intros [Hh Ha]%Forall_and Hsum. unfold build_transfer. rewrite amounts_items.
  rewrite u64_sum_Ok; [|by do 2 apply Forall_fmap; eapply Forall_impl; [exact Ha|]; intros ? []|done].
  cbn [mbind Res_bind]. rewrite placeholder_inputs_items by done. cbn [mbind Res_bind].
  unfold transfer_of, tx_signing_bytes, transfer_outputs. do 2 f_equal.
  - cbn [inputs kind outputs]. rewrite <- !list_fmap_compose. done.
Qed.

(** A transfer that spends existing outputs of the signer and does not exceed
    them is valid, and pays out exactly what it spends. *)
Lemma transfer_valid {St} `{!UtxoStore St} (s : St) sk l recipient change value :
  Forall (fun ro => utxo_get ro.1 s = Ok (Some ro.2) ∧ u64 (amount ro.2) ∧
    out_address ro.2 = Address.from_pubkey_bytes (vk_as_bytes (verifying_key sk))) l →
  0 < value ≤ sumZ (amount <$> l.*2) → sumZ (amount <$> l.*2) < 2 ^ 64 →
  let tx := transfer_of sk l recipient change value in
  validate_transaction tx s = Ok tt ∧ value_out tx = sumZ (amount <$> l.*2).
Proof.
  intros Hl Hv Hsum tx.
  assert (Hout : value_out tx = sumZ (amount <$> l.*2)).
  { unfold value_out, tx, transfer_of, transfer_outputs. cbn [outputs].
    destruct (Z.ltb_spec value (sumZ (amount <$> l.*2))); cbn; lia. }
  split; [|done]. apply validate_transaction_spec. split; [done|]. split.
  { unfold tx, transfer_of, transfer_outputs. cbn [outputs].
    destruct (Z.ltb_spec value (sumZ (amount <$> l.*2))); repeat constructor; cbn; lia. }
  assert (Hnn : Forall (fun x => 0 ≤ x) (amount <$> l.*2)).
  { do 2 apply Forall_fmap. eapply Forall_impl; [exact Hl|]. unfold u64, compose. naive_solver lia. }
  exists l.*2, (value_out tx). rewrite Hout, sat_sum_exact by done. split_and!; [|rewrite <- Hout|done].
  - unfold tx at 2, transfer_of. cbn [inputs]. apply Forall2_fmap_l, Forall2_fmap_l, Forall2_fmap_r.
    apply Forall2_same_length_lookup. split; [done|]. intros i x y Hx Hy. simplify_eq.
    rewrite Forall_lookup in Hl. destruct (Hl _ _ Hx) as (Hg & _ & Ha).
    split; [done|]. split; [done|]. unfold verify. cbn [in_pubkey in_signature].
    assert (tx_signing_bytes tx = to_vec (mkTxSigningData Transfer l.*1
      (transfer_outputs recipient change value (sumZ (amount <$> l.*2))))) as ->.
    { unfold tx_signing_bytes, tx, transfer_of. cbn [kind inputs outputs].
      rewrite <- list_fmap_compose. unfold compose. cbn [out_ref]. by rewrite list_fmap_id. }
    by rewrite verify_sign.
  - apply u64_sum_Ok; [|unfold value_out in Hout; lia].
    unfold tx, transfer_of, transfer_outputs. cbn [outputs].
    destruct (Z.ltb_spec value (sumZ (amount <$> l.*2))); repeat constructor; cbn; lia.
Qed.
End transfers.

(** ** The properties *)

Section properties.
Context `{Crypto} `{CoreJson} `{BuildProfile} `{UnstableSort}.

(** [select_coins] takes the smallest coins first and stops at the coin that
    reaches the target; it fails exactly when there is no coin or all of them
    together do not reach it, and then reports their exact total. *)
Theorem select_coins_spec utxos target :
  Forall (fun u => u64 (ui_amount u)) utxos → u64 target →
  match select_coins utxos target with
  | Ok sel => ∃ front c rest, selected sel = front ++ [c] ∧ front ++ c :: rest ≡ₚ utxos ∧
      StronglySorted (fun u v => ui_amount u ≤ ui_amount v) (front ++ c :: rest) ∧
      total sel = Z.min (sumZ (ui_amount <$> selected sel)) u64_max ∧
      target ≤ sumZ (ui_amount <$> selected sel) ∧
      (front ≠ [] → sumZ (ui_amount <$> front) < target)
  | Err e => e = ClientInsufficientFunds (sumZ (ui_amount <$> utxos)) target ∧
      (utxos = [] ∨ sumZ (ui_amount <$> utxos) < target)
  | Panic => False
  end.
Proof. apply select_coins_cases. Qed.

(** The coins selected among the items of a listing are items of entries. *)
Lemma select_coins_entries (l : list (TxOutRef * TxOutput)) target sel :
  Forall (fun ro => u64 (amount ro.2)) l → u64 target →
  select_coins (utxo_item <$> l) target = Ok sel →
  ∃ l' rest, selected sel = utxo_item <$> l' ∧ l ≡ₚ l' ++ rest ∧
    target ≤ sumZ (amount <$> l'.*2).
Proof.
  intros Hl Ht Hsel. pose proof (select_coins_cases (utxo_item <$> l) target) as Hs.
  rewrite Hsel in Hs. destruct Hs as (front & c & rest & Hf & Hp & _ & _ & Hle & _);
    [by apply Forall_fmap|done|].
  replace (front ++ c :: rest) with (selected sel ++ rest) in Hp by (by rewrite Hf, <- app_assoc).
  apply (Permutation_map_inv (utxo_item : TxOutRef * TxOutput → UtxoItem)) in Hp as (l3 & Heq & Hp).
  symmetry in Heq. apply map_eq_app in Heq as (l' & rest' & -> & Hl' & _).
  exists l', rest'. rewrite <- Hl' in Hle. split_and!; [by rewrite <- Hl'|done|].
  rewrite <- amounts_items. exact Hle.
Qed.

(** The entries of a listing are the unspent outputs of the address, once each. *)
Lemma listed_entries {S : Type} `{StoreLaws S} (s : S) a l :
  store_ok s → list_utxos a s = Ok l →
  NoDup l.*1 ∧ ∀ ro, ro ∈ l → utxos (view s) !! ro.1 = Some ro.2 ∧ out_address ro.2 = a.
Proof.
  intros Hs Hl%list_law; [|done]. split.
  - rewrite Hl. apply NoDup_fmap_fst; [|apply NoDup_filter, NoDup_map_to_list].
    intros r o1 o2 [_ Ho1]%list_elem_of_filter [_ Ho2]%list_elem_of_filter.
    apply elem_of_map_to_list in Ho1, Ho2. congruence.
  - intros [r o] Hro. rewrite Hl in Hro. apply list_elem_of_filter in Hro as [Ha Hro].
    by apply elem_of_map_to_list in Hro.
Qed.

Lemma spent_refs_transfer_of sk l recipient change value :
  spent_refs (transfer_of sk l recipient change value) = l.*1.
Proof.
  unfold spent_refs, transfer_of. cbn [inputs]. rewrite <- list_fmap_compose.
  unfold compose. cbn [out_ref]. by rewrite list_fmap_id.
Qed.

(** End to end: from the outputs a node lists for the sender, coin selection
    and [build_transfer] produce a transaction that this node's validation
    accepts, that pays the recipient the amount and the sender the change,
    spends no output twice, and creates exactly what it spends. *)
Lemma wallet_transfer_spec {S : Type} `{!BlockStore S} `{!UtxoStore S} `{!ValidatorStore S}
    `{!StoreLaws S} (s : S) sk l recipient value sel :
  let sender := Address.from_pubkey_bytes (vk_as_bytes (verifying_key sk)) in
  store_ok s → list_utxos sender s = Ok l →
  (∀ ro, ro ∈ l → ∃ o, utxo_get ro.1 s = Ok o) →
  Forall (fun ro => length (tx_hash ro.1) = 32%nat ∧ u64 (amount ro.2)) l →
  sumZ (amount <$> l.*2) < 2 ^ 64 → 0 < value < 2 ^ 64 →
  select_coins (utxo_item <$> l) value = Ok sel →
  ∃ tx, build_transfer sk (selected sel) recipient value sender = Ok tx ∧
    validate_transaction tx s = Ok tt ∧
    outputs tx = transfer_outputs recipient sender value (value_in (utxos (view s)) tx) ∧
    value_out tx = value_in (utxos (view s)) tx ∧ NoDup (spent_refs tx) ∧
    ∀ r, r ∈ spent_refs tx → r ∈ l.*1.
Proof.
  intros sender Hs Hlist Hread Hl Hsum Hv Hsel.
  destruct (select_coins_entries l value sel) as (l' & rest & Hsel' & Hp & Hle);
    [eapply Forall_impl; [exact Hl|]; naive_solver|unfold u64; lia|done|].
  destruct (listed_entries _ _ _ Hs Hlist) as [Hnd Hget].
  assert (Hin : ∀ ro, ro ∈ l' → ro ∈ l) by (intros ro Hro; rewrite Hp; set_solver).
  assert (Hsum' : sumZ (amount <$> l'.*2) < 2 ^ 64).
  { rewrite Hp, !fmap_app, sumZ_app in Hsum. assert (0 ≤ sumZ (amount <$> rest.*2)); [|lia].
    apply sumZ_nonneg. do 2 apply Forall_fmap. apply Forall_forall. intros ro Hro.
    rewrite Forall_forall in Hl. destruct (Hl ro) as [_ [? _]]; [rewrite Hp; set_solver|done]. }
  assert (Hl' : Forall (fun ro => length (tx_hash ro.1) = 32%nat ∧ u64 (amount ro.2)) l').
  { apply Forall_forall. intros ro Hro. rewrite Forall_forall in Hl. auto. }
  exists (transfer_of sk l' recipient sender value). rewrite Hsel'.
  split; [by apply build_transfer_items|].
  destruct (transfer_valid s sk l' recipient sender value) as [Hval Hout]; [|lia|done|].
  { apply Forall_forall. intros ro Hro. rewrite Forall_forall in Hl'.
    destruct (Hread ro (Hin _ Hro)) as [o Ho]. destruct (Hget _ (Hin _ Hro)) as [Hu Ha].
    pose proof (get_law _ _ _ Hs Ho) as Ho'. rewrite Hu in Ho'. subst o.
    split; [done|]. split; [|done]. by destruct (Hl' _ Hro). }
  assert (Hval_in : value_in (utxos (view s)) (transfer_of sk l' recipient sender value)
    = sumZ (amount <$> l'.*2)).
  { unfold value_in. rewrite spent_refs_transfer_of, <- !list_fmap_compose. f_equal. apply list_fmap_ext.
    intros i ro Hro%list_elem_of_lookup_2. unfold compose, ref_value.
    by destruct (Hget _ (Hin _ Hro)) as [-> _]. }
  rewrite Hval_in. split_and!; try done; rewrite spent_refs_transfer_of.
  - rewrite Hp, fmap_app in Hnd. by apply NoDup_app in Hnd as [? _].
  - intros r. rewrite Hp, fmap_app. set_solver.
Qed.
End properties.
