(* ===== verification/Rpc.v ===== *)
(** * The RPC client ([bcc-client/src/rpc.rs])

    The four calls of the client over an HTTP transport, with the decoding of
    the answers: printing and parsing of JSON values agree up to the order of
    the fields of an object. *)

From S2P Require Import Prelude Bytes Types Store Ledger Validation Mempool DebugEvent Node Api Wallet.

(** ** JSON *)

(** Equality up to the order of fields. *)
Inductive json_eq : JsonValue → JsonValue → Prop :=
| json_eq_number n : json_eq (JsonNumber n) (JsonNumber n)
| json_eq_string s : json_eq (JsonString s) (JsonString s)
| json_eq_array l l' : Forall2 json_eq l l' → json_eq (JsonArray l) (JsonArray l')
| json_eq_object fs fs' gs :
    fs ≡ₚ gs → Forall2 (fun p q => p.1 = q.1 ∧ json_eq p.2 q.2) gs fs' →
    json_eq (JsonObject fs) (JsonObject fs').

(** Values the code builds: numbers of 64 bits, objects without repeated fields. *)
Inductive json_wf : JsonValue → Prop :=
| json_wf_number n : u64 n → json_wf (JsonNumber n)
| json_wf_string s : json_wf (JsonString s)
| json_wf_array l : Forall json_wf l → json_wf (JsonArray l)
| json_wf_object fs : NoDup fs.*1 → Forall (fun p => json_wf p.2) fs → json_wf (JsonObject fs).

(** [serde_json::from_slice] into a value. *)
Class JsonParse `{JsonText} := {
  value_from_slice : list byte → string + JsonValue;
  value_from_to v : json_wf v → ∃ v', value_from_slice (value_to_vec v) = inr v' ∧ json_eq v v';
}.

(** The derived [Deserialize] of a struct: an object, where unknown fields are
    ignored and repeated ones are an error, or an array of the fields. *)
Definition get_field (k : string) (fs : list (string * JsonValue)) : option JsonValue :=
  match filter (fun p => p.1 = k) fs with [p] => Some p.2 | _ => None end.
Definition struct_fields (names : list string) (v : JsonValue) : option (list JsonValue) :=
  match v with
  | JsonObject fs => mapM (fun k => get_field k fs) names
  | JsonArray l => if (length l =? length names)%nat then Some l else None
  | _ => None
  end.
Definition as_unsigned (width : Z) (v : JsonValue) : option Z :=
  match v with
  | JsonNumber n => if (0 <=? n) && (n <? 2 ^ width) then Some n else None
  | _ => None
  end.
Definition as_string (v : JsonValue) : option string :=
  match v with JsonString s => Some s | _ => None end.

(** ** Response types *)

Record TipResponse := mkTipResponse { tr_height : Z; tr_hash : string }.
Record BalanceResponse := mkBalanceResponse { br_address : string; br_balance : Z }.
Record TxResponse := mkTxResponse { xr_tx_hash : string }.

Definition decode_tip (v : JsonValue) : option TipResponse :=
  match struct_fields ["height"; "hash"] v with
  | Some [h; s] => h ← as_unsigned 64 h; s ← as_string s; Some (mkTipResponse h s)
  | _ => None
  end.
Definition decode_balance (v : JsonValue) : option BalanceResponse :=
  match struct_fields ["address"; "balance"] v with
  | Some [a; b] => a ← as_string a; b ← as_unsigned 64 b; Some (mkBalanceResponse a b)
  | _ => None
  end.
Definition decode_tx (v : JsonValue) : option TxResponse :=
  match struct_fields ["tx_hash"] v with
  | Some [h] => h ← as_string h; Some (mkTxResponse h)
  | _ => None
  end.
Definition decode_utxo (v : JsonValue) : option UtxoItem :=
  match struct_fields ["tx_hash"; "index"; "amount"] v with
  | Some [h; i; a] =>
      h ← as_string h; i ← as_unsigned 32 i; a ← as_unsigned 64 a; Some (mkUtxoItem h i a)
  | _ => None
  end.
Definition decode_utxos (v : JsonValue) : option (list UtxoItem) :=
  match v with JsonArray l => mapM decode_utxo l | _ => None end.

(** ** Calls *)

Record HttpResponse := mkHttpResponse { rs_status : Z; rs_body : list byte }.

(** [reqwest::Client]: requests that change the network [N], with the transport's
    error, and [text] with its default on an error. *)
Class HttpTransport (N : Type) := {
  http_get : string → ST N string HttpResponse;
  http_post : string → list byte → ST N string HttpResponse;
  body_text : list byte → string;
}.

Section calls.
Context `{CoreJson} `{JsonParse} {N : Type} `{!HttpTransport N}.
Context (base_url : string).

Definition check_response {A} (decode : JsonValue → option A) (resp : HttpResponse) : Res ClientError A :=
  if (200 <=? rs_status resp) && (rs_status resp <? 300) then
    value ← map_err Rpc (of_sum (value_from_slice (rs_body resp)));
    ok_or (Rpc "error decoding response body") (decode value)
  else Err (ClientNodeError (rs_status resp) (body_text (rs_body resp))).

(** [send().await?], then [check_response]. *)
Definition call {A} (decode : JsonValue → option A) (send : ST N string HttpResponse) : ST N ClientError A :=
  resp ← st_map_err Rpc send;
  reads (fun _ => check_response decode resp).

Definition rpc_get_tip : ST N ClientError TipResponse :=
  call decode_tip (http_get (base_url +:+ "/chain/tip")).
Definition rpc_get_balance (address : string) : ST N ClientError BalanceResponse :=
  call decode_balance (http_get (base_url +:+ "/balance/" +:+ address)).
Definition rpc_get_utxos (address : string) : ST N ClientError (list UtxoItem) :=
  call decode_utxos (http_get (base_url +:+ "/utxos/" +:+ address)).
Definition rpc_post_tx (tx : Transaction) : ST N ClientError TxResponse :=
  call decode_tx (http_post (base_url +:+ "/tx") (to_vec tx)).
End calls.

(** The client's calls as the commands use them, over the state of the network. *)
Record RpcClient (N : Type) := mkRpcClient {
  cl_tip : ST N ClientError TipResponse;
  cl_balance : string → ST N ClientError BalanceResponse;
  cl_utxos : string → ST N ClientError (list UtxoItem);
  cl_post : Transaction → ST N ClientError TxResponse;
}.
Arguments mkRpcClient {N}.
Arguments cl_tip {N}.
Arguments cl_balance {N}.
Arguments cl_utxos {N}.
Arguments cl_post {N}.

(** [RpcClient::new] *)
Definition new_client `{CoreJson} `{JsonParse} {N} `{!HttpTransport N} (base_url : string) : RpcClient N :=
  mkRpcClient (rpc_get_tip base_url) (rpc_get_balance base_url) (rpc_get_utxos base_url)
    (rpc_post_tx base_url).

(** ** Decoding what the API prints *)

Lemma get_field_eq fs fs' k v :
  json_eq (JsonObject fs) (JsonObject fs') → NoDup fs.*1 → (k, v) ∈ fs →
  ∃ v', get_field k fs' = Some v' ∧ json_eq v v'.
Proof.
  intros Heq Hnd Hin. inversion Heq as [| | |? ? gs Hp Hf]; subst.
  rewrite Hp in Hnd, Hin. clear Heq Hp. unfold get_field.
  enough (∃ q, filter (fun p => p.1 = k) fs' = [q] ∧ json_eq v q.2) as (q & -> & Hq) by eauto.
  induction Hf as [|[k1 v1] [k2 v2] gs fs' [Hk Hv] Hf IH]; [by apply elem_of_nil in Hin|].
  cbn in Hk, Hv. subst k2. rewrite fmap_cons in Hnd. apply NoDup_cons in Hnd as [Hno Hnd].
  cbn [fst] in Hno. apply elem_of_cons in Hin as [[= <- <-]|Hin].
  - exists (k, v2). split; [|done]. rewrite filter_cons_True by done. f_equal.
    apply elem_of_nil_inv. intros [k2 w] [Hk Hw]%list_elem_of_filter. cbn in Hk. subst k2. apply Hno.
    apply list_elem_of_lookup in Hw as [i Hi].
    destruct (Forall2_lookup_r _ _ _ _ _ Hf Hi) as ([k3 u] & Hu & [Hk _]). cbn in Hk. subst k3.
    apply list_elem_of_fmap. exists (k, u). split; [done|]. by eapply list_elem_of_lookup_2.
  - destruct (IH Hnd Hin) as (q & Hq & Hj). exists q. split; [|done].
    rewrite filter_cons_False; [done|]. cbn. intros ->. apply Hno.
    apply list_elem_of_fmap. by exists (k, v).
Qed.

Lemma json_eq_string_inv s v : json_eq (JsonString s) v → v = JsonString s.
Proof. by inversion 1. Qed.
Lemma json_eq_number_inv n v : json_eq (JsonNumber n) v → v = JsonNumber n.
Proof. by inversion 1. Qed.

(** A struct of string and number fields, each found under its name. *)
Lemma get_string fs fs' k s :
  json_eq (JsonObject fs) (JsonObject fs') → NoDup fs.*1 → (k, JsonString s) ∈ fs →
  get_field k fs' = Some (JsonString s).
Proof. intros He Hn Hi. by destruct (get_field_eq _ _ _ _ He Hn Hi) as (v & -> & ->%json_eq_string_inv). Qed.
Lemma get_number fs fs' k n :
  json_eq (JsonObject fs) (JsonObject fs') → NoDup fs.*1 → (k, JsonNumber n) ∈ fs →
  get_field k fs' = Some (JsonNumber n).
Proof. intros He Hn Hi. by destruct (get_field_eq _ _ _ _ He Hn Hi) as (v & -> & ->%json_eq_number_inv). Qed.

Lemma as_unsigned_small w n : 0 ≤ n < 2 ^ w → as_unsigned w (JsonNumber n) = Some n.
Proof. intros Hn. unfold as_unsigned. by rewrite (proj2 (Z.leb_le _ _)), (proj2 (Z.ltb_lt _ _)) by lia. Qed.

Ltac names_distinct := repeat constructor; set_solver.

Lemma decode_tip_eq h s v :
  u64 h → json_eq (JsonObject [("height", JsonNumber h); ("hash", JsonString s)]) v →
  decode_tip v = Some (mkTipResponse h s).
Proof.
  intros Hh He. assert (∃ fs', v = JsonObject fs') as [fs' ->] by (inversion He; eauto).
  unfold decode_tip, struct_fields. cbn [mapM].
  rewrite (get_number _ _ "height" h He), (get_string _ _ "hash" s He) by (names_distinct || set_solver).
  cbn [mbind option_bind mret option_ret as_string]. by rewrite as_unsigned_small.
Qed.

Lemma decode_tx_eq s v :
  json_eq (JsonObject [("tx_hash", JsonString s)]) v → decode_tx v = Some (mkTxResponse s).
Proof.
  intros He. assert (∃ fs', v = JsonObject fs') as [fs' ->] by (inversion He; eauto).
  unfold decode_tx, struct_fields. cbn [mapM].
  by rewrite (get_string _ _ "tx_hash" s He) by (names_distinct || set_solver).
Qed.

Lemma decode_balance_eq a b v :
  u64 b → json_eq (JsonObject [("address", JsonString a); ("balance", JsonNumber b)]) v →
  decode_balance v = Some (mkBalanceResponse a b).
Proof.
  intros Hb He. assert (∃ fs', v = JsonObject fs') as [fs' ->] by (inversion He; eauto).
  unfold decode_balance, struct_fields. cbn [mapM].
  rewrite (get_string _ _ "address" a He), (get_number _ _ "balance" b He) by (names_distinct || set_solver).
  cbn [mbind option_bind mret option_ret as_string]. by rewrite as_unsigned_small.
Qed.

(** An entry of the listing whose numbers fit their types. *)
Definition entry_fits (ro : TxOutRef * TxOutput) : Prop :=
  0 ≤ index ro.1 < 2 ^ 32 ∧ u64 (amount ro.2).

Lemma decode_utxo_eq `{Crypto} ro v :
  entry_fits ro → json_eq (utxo_json ro) v → decode_utxo v = Some (utxo_item ro).
Proof.
  intros [Hi Ha] He. unfold utxo_json in He.
  assert (∃ fs', v = JsonObject fs') as [fs' ->] by (inversion He; eauto).
  unfold decode_utxo, struct_fields. cbn [mapM].
  rewrite (get_string _ _ "tx_hash" _ He), (get_number _ _ "index" _ He), (get_number _ _ "amount" _ He)
    by (names_distinct || set_solver).
  cbn [mbind option_bind mret option_ret as_string]. rewrite !as_unsigned_small by done. done.
Qed.

Lemma decode_utxos_eq `{Crypto} (l : list (TxOutRef * TxOutput)) v :
  Forall entry_fits l → json_eq (JsonArray (utxo_json <$> l)) v →
  decode_utxos v = Some (utxo_item <$> l).
Proof.
  intros Hl He. inversion He as [| |? l' Hf|]; subst. cbn [decode_utxos].
  apply mapM_Some. clear He. revert l' Hf. induction Hl as [|ro l Hro Hl IH]; intros l' Hf; inversion Hf; subst.
  - constructor.
  - constructor; [by apply decode_utxo_eq|by apply IH].
Qed.
