(* ===== verification/World.v ===== *)
(** * The network as a client sees it

    A state [W] of everything outside the client: the nodes behind their URLs
    and the clock.  Requests go through an [RpcClient] per URL; the requests of a
    [join_all] are made in any order; while the client sleeps the network moves
    on.  Loops that poll the network end because the clock advances. *)

From S2P Require Import Prelude Types Wallet Rpc.

Class World (W : Type) := {
  (** [RpcClient::new(url)] *)
  client_of : string → RpcClient W;
  (** [Instant::now()], in nanoseconds. *)
  instant : W → Z;
  (** [tokio::time::sleep], in nanoseconds. *)
  sleep : Z → W → W;
  (** The order in which [n] requests started together reach the network. *)
  join_order : W → nat → list nat;
}.

(** What can become of a state: the clock does not go back.  A sleep takes at
    least its time. *)
Class WorldLaws (W : Type) `{!World W} := {
  later : W → W → Prop;
  later_order :: PreOrder later;
  later_instant w w' : later w w' → instant w ≤ instant w';
  sleep_later d w : later w (sleep d w);
  sleep_takes d w : instant w + d ≤ instant (sleep d w);
  tip_later url w : later w (cl_tip (client_of url) w).2;
  balance_later url a w : later w (cl_balance (client_of url) a w).2;
  utxos_later url a w : later w (cl_utxos (client_of url) a w).2;
  post_later url tx w : later w (cl_post (client_of url) tx w).2;
  join_order_perm w n : join_order w n ≡ₚ seq 0 n;
}.

(** Why a function with loops ends early: an early return, or a bound on the
    iterations that was too small. *)
Inductive Stop (R : Type) :=
| Return (r : R)
| OutOfFuel.
Arguments Return {R}.
Arguments OutOfFuel {R}.

Definition seconds (n : Z) : Z := n * 1000000000.

Section operations.
Context {W : Type} `{!World W}.

(** A request whose error is looked at. *)
Definition request {E A} (call : ST W ClientError A) : ST W E (Res ClientError A) := fun w =>
  match call w with
  | (Panic, w') => (Panic, w')
  | (r, w') => (Ok r, w')
  end.

(** [Result::unwrap_or] *)
Definition unwrap_or {E A} (a : A) (r : Res E A) : A := match r with Ok x => x | _ => a end.
(** [Result::is_ok] *)
Definition is_ok {E A} (r : Res E A) : bool := match r with Ok _ => true | _ => false end.

(** A loop over a list. *)
Fixpoint each {E A B} (f : A → ST W E B) (l : list A) : ST W E (list B) :=
  match l with
  | [] => mret []
  | x :: l' => y ← f x; ys ← each f l'; mret (y :: ys)
  end.

(** [futures::future::join_all] of futures that make one request each: the
    answers are in the order of the futures. *)
Fixpoint in_order {E A} (futs : list (ST W E A)) (order : list nat) : ST W E (gmap nat A) :=
  match order with
  | [] => mret ∅
  | i :: order' =>
      match futs !! i with
      | Some fut => a ← fut; answers ← in_order futs order'; mret (<[i := a]> answers)
      | None => in_order futs order'
      end
  end.
Definition join_all {E A} (futs : list (ST W E A)) : ST W E (list A) := fun w =>
  (answers ← in_order futs (join_order w (length futs));
   mret (omap (fun i => (answers : gmap nat A) !! i) (seq 0 (length futs)))) w.

(** [loop]: the body says when to leave it. *)
Fixpoint loop {R A} (fuel : nat) (body : ST W (Stop R) (option A)) : ST W (Stop R) A :=
  match fuel with
  | O => throw OutOfFuel
  | S fuel' =>
      r ← body;
      match r with Some a => mret a | None => loop fuel' body end
  end.

(** A call that returns early with [E], inside a function that returns early
    with [R]. *)
Definition caught {E R A} (m : ST W (Stop E) A) : ST W (Stop R) (Res E A) := fun w =>
  match m w with
  | (Ok a, w') => (Ok (Ok a), w')
  | (Err (Return e), w') => (Ok (Err e), w')
  | (Err OutOfFuel, w') => (Err OutOfFuel, w')
  | (Panic, w') => (Panic, w')
  end.
(** A function whose early returns have the type of its result. *)
Definition returned {R} (m : ST W (Stop R) R) : ST W (Stop R) R := fun w =>
  match m w with
  | (Err (Return r), w') => (Ok r, w')
  | rw => rw
  end.
End operations.

(** ** Operations that end, in a later state *)

Section ends.
Context {W : Type} `{!World W, !WorldLaws W}.

Definition goes_on {E A} (m : ST W E A) : Prop := ∀ w, later w (m w).2.

(** An outcome within the fuel whose early return, if any, is in [T]. *)
Definition stops_in {R A} (T : R → Prop) (r : Res (Stop R) A) : Prop :=
  match r with
  | Err (Return x) => T x
  | Err OutOfFuel => False
  | _ => True
  end.
Definition ends {R A} (T : R → Prop) (m : ST W (Stop R) A) : Prop :=
  ∀ w, later w (m w).2 ∧ stops_in T (m w).1.

Lemma ends_ret {R A} (T : R → Prop) (a : A) : ends T (mret a).
Proof. intros w. done. Qed.

Lemma ends_return {R A} (T : R → Prop) (r : R) : T r → ends T (throw (A := A) (Return r)).
Proof. intros Hr w. done. Qed.

Lemma ends_reads {R A} (T : R → Prop) (f : W → Res (Stop R) A) :
  (∀ w, stops_in T (f w)) → ends T (reads f).
Proof. intros Hf w. split; [done|apply Hf]. Qed.

(** Reading what cannot fail. *)
Lemma ends_reads_no_Err {R A} (T : R → Prop) (f : W → Res (Stop R) A) :
  (∀ w e, f w ≠ Err e) → ends T (reads f).
Proof. intros Hf. apply ends_reads. intros w. specialize (Hf w). destruct (f w); naive_solver. Qed.

Lemma ends_bind {R A B} (T : R → Prop) (m : ST W (Stop R) A) (k : A → ST W (Stop R) B) :
  ends T m → (∀ a, ends T (k a)) → ends T (m ≫= k).
Proof.
  intros Hm Hk w. destruct (Hm w) as [Hl Hr]. unfold mbind, ST_bind.
  destruct (m w) as [[a|e|] w1]; cbn in *; [|done..].
  destruct (Hk a w1) as [Hl' Hr']. split; [by etrans|done].
Qed.

Lemma ends_request {R A} (T : R → Prop) (call : ST W ClientError A) : goes_on call → ends T (request call).
Proof. intros Hc w. specialize (Hc w). unfold request. by destruct (call w) as [[a|e|] w1]. Qed.

Lemma ends_each {R A B} (T : R → Prop) (f : A → ST W (Stop R) B) l : (∀ x, ends T (f x)) → ends T (each f l).
Proof.
  intros Hf. induction l as [|x l IH]; [apply ends_ret|]. cbn [each].
  repeat (apply ends_bind; [done|intros ?]). apply ends_ret.
Qed.

Lemma ends_join_all {R A} (T : R → Prop) (futs : list (ST W (Stop R) A)) :
  Forall (ends T) futs → ends T (join_all futs).
Proof.
  intros Hf. assert (Ho : ∀ order, ends T (in_order futs order)).
  { induction order as [|i order IH]; [apply ends_ret|]. cbn [in_order].
    destruct (futs !! i) as [fut|] eqn:Hi; [|done].
    apply ends_bind; [by apply (Forall_lookup_1 _ _ _ _ Hf Hi)|intros a].
    apply ends_bind; [done|intros m]. apply ends_ret. }
  intros w. unfold join_all. apply ends_bind; [done|intros m]. apply ends_ret.
Qed.

Lemma ends_caught {E R A} (T : R → Prop) (m : ST W (Stop E) A) : ends (const True) m → ends T (caught m).
Proof. intros Hm w. specialize (Hm w). unfold caught. destruct (m w) as [[a|[e|]|] w']; naive_solver. Qed.

Lemma ends_returned {R} (T T' : R → Prop) (m : ST W (Stop R) R) : ends T m → ends T' (returned m).
Proof. intros Hm w. specialize (Hm w). unfold returned. destruct (m w) as [[a|[e|]|] w']; naive_solver. Qed.

(** A turn that does not leave the loop starts before the deadline and takes
    [step] at least. *)
Lemma ends_loop {R A} (T : R → Prop) (body : ST W (Stop R) (option A)) step deadline fuel w :
  ends T body → 0 < step →
  (∀ w w', body w = (Ok None, w') → instant w ≤ deadline ∧ instant w + step ≤ instant w') →
  deadline < instant w + (Z.of_nat fuel - 1) * step → (0 < fuel)%nat →
  later w (loop fuel body w).2 ∧ stops_in T (loop fuel body w).1.
Proof.
  intros Hb Hstep Hturn. revert w. induction fuel as [|fuel IH]; intros w Hf Hpos; [lia|].
  cbn [loop]. unfold mbind, ST_bind. specialize (Hturn w). destruct (Hb w) as [Hl Hr].
  destruct (body w) as [[[a|]|e|] w1]; cbn in *; [done| |done..].
  destruct (Hturn w1 eq_refl) as [Hbefore Htake].
  destruct (IH w1) as [Hl' Hr']; [nia|destruct fuel; [lia|lia]|]. split; [by etrans|done].
Qed.

(** A loop that was left gives the value of its last turn. *)
Lemma loop_last {R A} (T : R → Prop) (body : ST W (Stop R) (option A)) fuel w a w' :
  ends T body → loop fuel body w = (Ok a, w') → ∃ w1, later w w1 ∧ body w1 = (Ok (Some a), w').
Proof.
  intros Hb. revert w. induction fuel as [|fuel IH]; intros w; [done|]. cbn [loop].
  intros (r & w1 & Hr & Hl)%st_bind_Ok. destruct r as [b|].
  - injection Hl as <- <-. by exists w.
  - destruct (IH w1 Hl) as (w2 & Hw2 & Hlast). exists w2. split; [|done].
    destruct (Hb w) as [Hl1 _]. rewrite Hr in Hl1. by etrans.
Qed.
End ends.

(** ** Answers *)

Lemma request_no_Err {W E A} (call : ST W ClientError A) w (e : E) : (request call w).1 ≠ Err e.
Proof. unfold request. by destruct (call w) as [[]]. Qed.

Lemma join_all_no_Err {W E A} `{!World W} (futs : list (ST W E A)) w :
  Forall (fun fut : ST W E A => ∀ w e, (fut w).1 ≠ Err e) futs → ∀ e, (join_all futs w).1 ≠ Err e.
Proof.
  intros Hf. assert (Ho : ∀ order w e, (in_order futs order w).1 ≠ Err e).
  { induction order as [|i order IH]; intros w1 e; [done|]. cbn [in_order].
    destruct (futs !! i) as [fut|] eqn:Hi; [|apply IH]. pose proof (Forall_lookup_1 _ _ _ _ Hf Hi w1) as Hfut.
    unfold mbind, ST_bind. destruct (fut w1) as [[a|e1|] w2]; cbn in *; [|naive_solver|done].
    pose proof (IH w2) as Hin. destruct (in_order futs order w2) as [[m|e1|] w3]; cbn in *; naive_solver. }
  intros e. unfold join_all, mbind, ST_bind. pose proof (Ho (join_order w (length futs)) w) as Hin.
  destruct (in_order _ _ w) as [[m|e1|] w2]; cbn in *; naive_solver.
Qed.

Section answers.
Context {W : Type} `{!World W, !WorldLaws W} {E : Type}.

(** The answers collected by index, in the order of the futures. *)
Lemma omap_seq {A} (m : gmap nat A) n :
  (∀ i, (i < n)%nat → is_Some (m !! i)) →
  length (omap (fun i => m !! i) (seq 0 n)) = n ∧
  ∀ i a, omap (fun i => m !! i) (seq 0 n) !! i = Some a → m !! i = Some a.
Proof.
  intros Hd. assert (Hgen : ∀ k j, (j + k ≤ n)%nat → length (omap (fun i => m !! i) (seq j k)) = k ∧
    ∀ i a, omap (fun i => m !! i) (seq j k) !! i = Some a → m !! (j + i)%nat = Some a).
  { induction k as [|k IH]; intros j Hj; [done|]. cbn [seq omap list_omap].
    destruct (Hd j) as [a Ha]; [lia|]. rewrite Ha. destruct (IH (S j)) as [Hl Hi]; [lia|].
    split; [cbn; by rewrite Hl|].
    intros [|i] b; cbn; [intros [= <-]; by rewrite Nat.add_0_r|]. intros Hb%Hi. by rewrite Nat.add_succ_r. }
  by apply Hgen.
Qed.

(** Requests that are all answered, whatever their order, while [I] holds. *)
Lemma join_all_answers {A} (I : W → Prop) (Q : nat → A → Prop) (futs : list (ST W E A)) w :
  (∀ i fut w, futs !! i = Some fut → I w → ∃ a w', fut w = (Ok a, w') ∧ I w' ∧ Q i a) → I w →
  ∃ rs w', join_all futs w = (Ok rs, w') ∧ I w' ∧ length rs = length futs ∧
    ∀ i a, rs !! i = Some a → Q i a.
Proof.
  intros Hf Hw. assert (Ho : ∀ order w, I w → ∃ m w', in_order futs order w = (Ok m, w') ∧ I w' ∧
    (∀ i a, m !! i = Some a → Q i a) ∧ ∀ i, i ∈ order → (i < length futs)%nat → is_Some (m !! i)).
  { clear w Hw. induction order as [|i order IH]; intros w Hw; cbn [in_order].
    { exists ∅, w. split_and!; [done..|set_solver]. }
    destruct (futs !! i) as [fut|] eqn:Hi.
    - destruct (Hf i fut w Hi Hw) as (a & w1 & Ha & Hw1 & Hq). destruct (IH w1 Hw1) as (m & w2 & Hm & Hw2 & Hqs & Hall).
      exists (<[i := a]> m), w2. unfold mbind, ST_bind. rewrite Ha, Hm. split_and!; [done..| |].
      + intros j b. destruct (decide (i = j)) as [<-|]; [rewrite lookup_insert_eq; naive_solver|].
        rewrite lookup_insert_ne by done. auto.
      + intros j Hj Hlen. destruct (decide (i = j)) as [<-|]; [by rewrite lookup_insert_eq|].
        rewrite lookup_insert_ne by done. set_solver.
    - destruct (IH w Hw) as (m & w2 & Hm & Hw2 & Hqs & Hall). exists m, w2. split_and!; [done..|].
      intros j [->|Hj]%elem_of_cons Hlen; [|auto]. apply lookup_ge_None in Hi. lia. }
  destruct (Ho (join_order w (length futs)) w Hw) as (m & w' & Hm & Hw' & Hq & Hall).
  assert (Hdom : ∀ i, (i < length futs)%nat → is_Some (m !! i)).
  { intros i Hi. apply Hall; [|done]. rewrite join_order_perm. apply elem_of_seq. lia. }
  destruct (omap_seq m (length futs) Hdom) as [Hlen Hqs].
  exists (omap (fun i => m !! i) (seq 0 (length futs))), w'. unfold join_all, mbind, ST_bind. rewrite Hm.
  split_and!; [done..|]. intros i a Hi%Hqs. by apply Hq.
Qed.

(** Each answer was given at some moment in between. *)
Lemma join_all_Ok {A} (futs : list (ST W E A)) w rs w' :
  Forall goes_on futs → join_all futs w = (Ok rs, w') →
  length rs = length futs ∧ later w w' ∧
  ∀ i (fut : ST W E A) r, futs !! i = Some fut → rs !! i = Some r →
    ∃ w1 w2, later w w1 ∧ fut w1 = (Ok r, w2) ∧ later w2 w'.
Proof.
  intros Hf. assert (Ho : ∀ order w m w', in_order futs order w = (Ok m, w') → later w w' ∧
    (∀ i, i ∈ order → (i < length futs)%nat → is_Some (m !! i)) ∧
    ∀ i (fut : ST W E A) r, futs !! i = Some fut → m !! i = Some r →
      ∃ w1 w2, later w w1 ∧ fut w1 = (Ok r, w2) ∧ later w2 w').
  { clear w rs w'. induction order as [|i order IH]; intros w m w'; cbn [in_order].
    { intros [= <- <-]. split_and!; [done|set_solver|by intros ???? ?%lookup_empty_Some]. }
    destruct (futs !! i) as [fut|] eqn:Hi.
    - intros (a & w1 & Ha & Hm)%st_bind_Ok. apply st_bind_Ok in Hm as (m1 & w2 & Hm & Hr).
      injection Hr as <- <-. destruct (IH w1 m1 w2 Hm) as (Hl & Hd & Hall).
      pose proof (Forall_lookup_1 _ _ _ _ Hf Hi w) as Hl1. rewrite Ha in Hl1. cbn [snd] in Hl1.
      split_and!; [by etrans| |].
      + intros j Hj Hlen. destruct (decide (i = j)) as [<-|]; [by rewrite lookup_insert_eq|].
        rewrite lookup_insert_ne by done. set_solver.
      + intros j fut' r Hj. destruct (decide (i = j)) as [<-|].
        * rewrite lookup_insert_eq. intros [= <-]. rewrite Hi in Hj. injection Hj as <-. by exists w, w1.
        * rewrite lookup_insert_ne by done. intros (w3 & w4 & Hw3 & Hfut & Hw4)%(Hall _ _ _ Hj).
          exists w3, w4. split_and!; [by etrans|done..].
    - intros (Hl & Hd & Hall)%IH. split_and!; [done| |done].
      intros j [->|Hj]%elem_of_cons Hlen; [|auto]. apply lookup_ge_None in Hi. lia. }
  unfold join_all. intros (m & w1 & Hm & Hr)%st_bind_Ok. injection Hr as <- <-.
  apply Ho in Hm as (Hl & Hd & Hall).
  assert (Hdom : ∀ i, (i < length futs)%nat → is_Some (m !! i)).
  { intros i Hi. apply Hd; [|done]. rewrite join_order_perm. apply elem_of_seq. lia. }
  destruct (omap_seq m (length futs) Hdom) as [Hlen Hqs].
  split_and!; [done..|]. intros i fut r Hi Hri. by apply (Hall i); [|apply Hqs].
Qed.
End answers.

(** ** What was answered when *)

Section heard.
Context {W : Type} `{!World W, !WorldLaws W}.

(** Between [w] and [w'] the call was made and answered [r], possibly with an error. *)
Definition answered {A} (w w' : W) (call : ST W ClientError A) (r : Res ClientError A) : Prop :=
  ∃ w1, later w w1 ∧ (call w1).1 = r ∧ r ≠ Panic ∧ later (call w1).2 w'.

Lemma answered_widen {A} w0 w w' w3 (call : ST W ClientError A) r :
  later w0 w → later w' w3 → answered w w' call r → answered w0 w3 call r.
Proof. intros Hb Ha (w1 & Hl1 & Hr & Hp & Hl2). exists w1. split_and!; [by etrans|done|done|by etrans]. Qed.

Lemma request_answered {E A} (call : ST W ClientError A) w r w' :
  request (E := E) call w = (Ok r, w') → answered w w' call r.
Proof.
  intros Hr. exists w. split; [done|]. revert Hr. unfold request.
  destruct (call w) as [[x|e|] w1]; cbn; [by intros [= <- <-]..|done].
Qed.

Lemma request_goes_on {E A} (call : ST W ClientError A) : goes_on call → goes_on (request (E := E) call).
Proof. intros Hc w. specialize (Hc w). unfold request. by destruct (call w) as [[]]. Qed.

(** Requests that were started together. *)
Lemma join_all_answered {E A B} (call : A → ST W ClientError B) l w rs w' :
  (∀ x, goes_on (call x)) → join_all (E := E) ((fun x => request (call x)) <$> l) w = (Ok rs, w') →
  Forall2 (fun x r => answered w w' (call x) r) l rs ∧ later w w'.
Proof.
  intros Hc Hj. apply join_all_Ok in Hj as (Hlen & Hl & Hall);
    [|apply Forall_fmap, Forall_true; intros x; by apply request_goes_on].
  split; [|done]. rewrite length_fmap in Hlen. apply Forall2_same_length_lookup_2; [done|].
  intros i x r Hx Hr. edestruct (Hall i) as (w1 & w2 & Hl1 & Hrq & Hl2); [by rewrite list_lookup_fmap, Hx|done|].
  eapply answered_widen; [exact Hl1|exact Hl2|]. by eapply request_answered.
Qed.
End heard.
