(* ===== verification/Split.v ===== *)
(** * Splitting an output ([bcc-client/src/split.rs])

    The binary-doubling split of one output into many: first with what the
    network answers in each round as an input, then over the network itself,
    polled until the new outputs are listed.  The theorems say what is conserved
    whatever the network answers, when exactly the requested number is reached,
    and that the polling ends. *)

From S2P Require Import Prelude Bytes Types Store Ledger Validation Wallet Rpc World.

(** [Display] of [ClientError], from its [#[error]] attributes. *)
Definition ClientError_to_string (e : ClientError) : string :=
  match e with
  | KeystoreIo msg => "keystore I/O: " +:+ msg
  | KeystoreParse msg => "keystore parse: " +:+ msg
  | WrongPassphrase => "wrong passphrase or corrupted keystore"
  | PassphraseMismatch => "passphrases do not match"
  | Rpc msg => "RPC error: " +:+ msg
  | ClientNodeError status body => "node returned HTTP " +:+ pretty status +:+ ": " +:+ body
  | ClientAddress e => "invalid address: " +:+ AddressError_to_string e
  | ClientInsufficientFunds have need =>
      "insufficient funds: have " +:+ pretty have +:+ ", need " +:+ pretty need
  | ClientSerialization msg => "serialization: " +:+ msg
  | ClientHex msg => "hex decode: " +:+ msg
  | KeystoreExists path => "keystore already exists at " +:+ path
  | ClientConfig msg => "config: " +:+ msg
  end.

Definition CONFIRM_TIMEOUT_SECS : Z := 30.

(** [type SplitEntry = (Transaction, UtxoItem, UtxoItem)] *)
Record SplitEntry := mkSplitEntry { se_tx : Transaction; out0 : UtxoItem; out1 : UtxoItem }.

(** What the network does in a round: the answer to each [POST /tx], in the order
    of the transactions, and whether the new outputs are listed before the
    deadline. *)
Record RoundEnv := mkRoundEnv {
  posted : nat → Res ClientError unit;
  confirmed : bool;
}.

Section split.
Context `{Crypto} `{CoreJson} `{BuildProfile}.
Context (key : SigningKey) (addr : Address).

(** The loop over [splitting]: the items too small to split join [next], the
    others become split transactions. *)
Fixpoint build_splits (next : list UtxoItem) (built : list SplitEntry) (splitting : list UtxoItem) :
    Res string (list UtxoItem * list SplitEntry) :=
  match splitting with
  | [] => Ok (next, built)
  | utxo :: splitting' =>
      if ui_amount utxo <? 2 then build_splits (next ++ [utxo]) built splitting'
      else
        let half := ui_amount utxo `div` 2 in
        tx ← map_err (fun e => "split: build_transfer: " +:+ ClientError_to_string e)
               (build_transfer key [utxo] addr half addr);
        let hash_hex := hex_encode (Transaction_hash tx) in
        let entry := mkSplitEntry tx (mkUtxoItem hash_hex 0 half)
                       (mkUtxoItem hash_hex 1 (ui_amount utxo - half)) in
        build_splits next (built ++ [entry]) splitting'
  end.

(** The loop over the answers: the first error ends the split. *)
Fixpoint collect_posted (answers : nat → Res ClientError unit) (i : nat) (next : list UtxoItem)
    (built : list SplitEntry) : Res string (list UtxoItem) :=
  match built with
  | [] => Ok next
  | entry :: built' =>
      _ ← map_err (fun e => "split: POST /tx failed: " +:+ ClientError_to_string e) (answers i);
      collect_posted answers (S i) (next ++ [out0 entry; out1 entry]) built'
  end.

(** The distinct transaction hashes waited for: both outputs carry the same. *)
Definition expected (built : list SplitEntry) : gset string :=
  list_to_set (built ≫= fun e => [ui_tx_hash (out0 e); ui_tx_hash (out1 e)]).

Definition timed_out (built : list SplitEntry) : string :=
  "split: timed out waiting for " +:+ pretty (size (expected built))
    +:+ " UTXOs to confirm (" +:+ pretty CONFIRM_TIMEOUT_SECS +:+ "s)".

(** One round, for [current.len() < target_count]: [None] when no coin could be
    split, else the next coins. *)
Definition split_round (target_count : nat) (env : RoundEnv) (current : list UtxoItem) :
    Res string (option (list UtxoItem)) :=
  let to_split := Nat.min (target_count - length current) (length current) in
  let splitting := take to_split current in
  let keeping := drop to_split current in
  '(next, built) ← build_splits keeping [] splitting;
  match built with
  | [] => Ok None
  | _ =>
      next ← collect_posted (posted env) 0 next built;
      if confirmed env then Ok (Some next) else Err (timed_out built)
  end.

(** The [while] loop over the rounds the environment provides; [None] when they
    run out before the loop ends. *)
Fixpoint split_loop (target_count : nat) (envs : list RoundEnv) (current : list UtxoItem) :
    option (Res string (list UtxoItem)) :=
  if (length current <? target_count)%nat then
    match envs with
    | [] => None
    | env :: envs' =>
        match split_round target_count env current with
        | Ok (Some next) => split_loop target_count envs' next
        | Ok None => Some (Ok (take target_count current))
        | Err e => Some (Err e)
        | Panic => Some Panic
        end
    end
  else Some (Ok (take target_count current)).

Definition split_utxo (envs : list RoundEnv) (input_utxo : UtxoItem) (target_count : nat) :
    option (Res string (list UtxoItem)) :=
  if (target_count <=? 1)%nat then Some (Ok [input_utxo])
  else split_loop target_count envs [input_utxo].

(** *** Over the network *)

Section network.
Context {W : Type} `{!World W} (client : RpcClient W).

(** The answer to the [i]th request, of which only success matters. *)
Definition nth_answer {A} (results : list (Res ClientError A)) (i : nat) : Res ClientError unit :=
  match results !! i with Some r => const tt <$> r | None => Panic end.

(** A turn of the loop that waits for the hashes to be listed. *)
Definition listed_turn (built : list SplitEntry) (deadline : Z) : ST W (Stop string) (option unit) :=
  _ ← modifies (sleep (seconds 1));
  live ← request (cl_utxos client (as_str addr));
  if forallb (fun h => existsb (fun u => bool_decide (ui_tx_hash u = h)) (unwrap_or [] live))
       (elements (expected built))
  then mret (Some tt)
  else
    now ← reads (fun w => Ok (instant w));
    if deadline <? now then throw (Return (timed_out built)) else mret None.

Definition wait_listed (built : list SplitEntry) : ST W (Stop string) unit :=
  now ← reads (fun w => Ok (instant w));
  loop (Z.to_nat CONFIRM_TIMEOUT_SECS + 2)
    (listed_turn built (now + seconds CONFIRM_TIMEOUT_SECS)).

Definition round_turn (target_count : nat) (current : list UtxoItem) :
    ST W (Stop string) (option (list UtxoItem)) :=
  let to_split := Nat.min (target_count - length current) (length current) in
  let splitting := take to_split current in
  let keeping := drop to_split current in
  '(next, built) ← reads (fun _ => map_err Return (build_splits keeping [] splitting));
  match built with
  | [] => mret None
  | _ =>
      results ← join_all ((fun e => request (cl_post client (se_tx e))) <$> built);
      next ← reads (fun _ => map_err Return (collect_posted (nth_answer results) 0 next built));
      _ ← wait_listed built;
      mret (Some next)
  end.

(** The [while] loop; every round but the last adds a coin. *)
Fixpoint rounds (fuel : nat) (target_count : nat) (current : list UtxoItem) :
    ST W (Stop string) (list UtxoItem) :=
  if (length current <? target_count)%nat then
    match fuel with
    | O => throw OutOfFuel
    | S fuel' =>
        r ← round_turn target_count current;
        match r with
        | Some next => rounds fuel' target_count next
        | None => mret (take target_count current)
        end
    end
  else mret (take target_count current).

Definition split_utxo_net (input_utxo : UtxoItem) (target_count : nat) :
    ST W (Stop string) (list UtxoItem) :=
  if (target_count <=? 1)%nat then mret [input_utxo]
  else rounds target_count target_count [input_utxo].
End network.

End split.

(** ** Lemmas *)

Section facts.
Context `{Crypto} `{CoreJson} `{BuildProfile}.
Context (key : SigningKey) (addr : Address).
Notation total us := (sumZ (ui_amount <$> us)).

(** The two halves of a list of entries, in order. *)
Definition halves (built : list SplitEntry) : list UtxoItem :=
  built ≫= fun e => [out0 e; out1 e].

(** An item that refers to an output as the node does: a 32-byte hash in hex. *)
Definition item_ok (u : UtxoItem) : Prop :=
  (∃ h, hex_decode (ui_tx_hash u) = inr h ∧ length h = 32%nat) ∧ u64 (ui_amount u).

(** Nothing is gained or lost by splitting. *)
Lemma build_splits_total next built l next' built' :
  build_splits key addr next built l = Ok (next', built') →
  total (next' ++ halves built') = total (next ++ halves built ++ l) ∧
  (length next' + length built' = length next + length built + length l)%nat ∧
  (length next ≤ length next')%nat.
Proof.
  revert next built. induction l as [|u l IH]; intros next built; cbn [build_splits].
  - intros [= -> ->]. rewrite app_nil_r. cbn. lia.
  - destruct (Z.ltb_spec (ui_amount u) 2).
    + intros (Ht & Hl & Hn)%IH. rewrite Ht. rewrite !length_app in *. cbn [length] in *.
      rewrite !fmap_app, !sumZ_app. cbn. lia.
    + intros (tx & _ & (Ht & Hl & Hn)%IH)%res_bind_Ok. rewrite Ht. rewrite !length_app in *. cbn [length] in *.
      unfold halves. rewrite bind_app, !fmap_app, !sumZ_app. cbn. lia.
Qed.

Lemma collect_posted_Ok answers i next built next' :
  collect_posted answers i next built = Ok next' → next' = next ++ halves built.
Proof.
  revert i next. induction built as [|e built IH]; intros i next; cbn [collect_posted].
  - intros [= <-]. by rewrite app_nil_r.
  - intros (_ & _ & ->%IH)%res_bind_Ok. by rewrite <- app_assoc.
Qed.

Lemma length_halves built : length (halves built) = (2 * length built)%nat.
Proof. induction built as [|e built IH]; [done|]. change (S (S (length (halves built))) = 2 * length (e :: built))%nat. cbn [length]. lia. Qed.

(** A round that goes on conserves the total and adds one coin per split. *)
Lemma split_round_Ok target env current next :
  (length current < target)%nat → split_round key addr target env current = Ok (Some next) →
  total next = total current ∧ (length current < length next ≤ target)%nat.
Proof.
  intros Hlt ([next0 built] & Hb & Hr)%res_bind_Ok.
  assert (Hr' : (0 < length built)%nat ∧ next = next0 ++ halves built).
  { destruct built as [|e built]; [done|]. cbn [length]. split; [lia|].
    apply res_bind_Ok in Hr as (next1 & ->%collect_posted_Ok & Hr).
    destruct (confirmed env); [|done]. by injection Hr as <-. }
  destruct Hr' as [Hpos ->]. apply build_splits_total in Hb as (Ht & Hl & Hk).
  remember (Nat.min (target - length current) (length current)) as n eqn:Hn.
  cbn [halves mbind list_bind app] in Ht. rewrite Ht, length_app, length_halves.
  rewrite length_take, length_drop in *. cbn [length] in Hl.
  split; [|lia]. rewrite <- (take_drop n current) at 3. rewrite !fmap_app, !sumZ_app. lia.
Qed.

Lemma split_loop_total target envs current out :
  (length current ≤ target)%nat → split_loop key addr target envs current = Some (Ok out) →
  total out = total current ∧ (length current ≤ length out ≤ target)%nat.
Proof.
  revert current. induction envs as [|env envs IH]; intros current Hle; cbn [split_loop];
    destruct (Nat.ltb_spec (length current) target) as [Hlt|Hge].
  - done.
  - intros [= <-]. rewrite take_ge by lia. lia.
  - destruct (split_round key addr target env current) as [[next|]| |] eqn:Hr; [|intros [= <-]|done..].
    + apply split_round_Ok in Hr as [Ht Hl]; [|done]. intros [Ht' Hl']%IH; lia.
    + rewrite take_ge by lia. lia.
  - intros [= <-]. rewrite take_ge by lia. lia.
Qed.

(** *** Rounds in which everything succeeds *)

Definition env_ok (env : RoundEnv) : Prop :=
  (∀ i, posted env i = Ok tt) ∧ confirmed env = true.

(** A coin of the sender that is worth at least [m]. *)
Definition coin_ge (m : Z) (u : UtxoItem) : Prop := item_ok u ∧ m ≤ ui_amount u.

Lemma build_transfer_one u value : item_ok u → ∃ tx, build_transfer key [u] addr value addr = Ok tx.
Proof.
  intros [(h & Hh & Hl) Ha]. unfold build_transfer. cbn [fmap list_fmap placeholder_inputs].
  rewrite u64_sum_Ok by (repeat constructor; unfold u64 in Ha; cbn; lia). cbn [mbind Res_bind].
  rewrite Hh. cbn. rewrite Hl. cbn. eauto.
Qed.

Lemma item_ok_output tx i a : u64 a → item_ok (mkUtxoItem (hex_encode (Transaction_hash tx)) i a).
Proof. split; [|done]. exists (Transaction_hash tx). split; [apply hex_decode_encode|apply length_sha256d]. Qed.

Lemma build_splits_all next built l m :
  1 ≤ m → Forall (coin_ge (2 * m)) l →
  ∃ bs, build_splits key addr next built l = Ok (next, built ++ bs) ∧
    length bs = length l ∧ Forall (coin_ge m) (halves bs).
Proof.
  intros Hm Hl. revert built. induction Hl as [|u l [Hu Ha] Hl IH]; intros built; cbn [build_splits].
  { exists []. by rewrite app_nil_r. }
  destruct (Z.ltb_spec (ui_amount u) 2); [lia|].
  destruct (build_transfer_one u (ui_amount u `div` 2) Hu) as [tx ->]. cbn [map_err mbind Res_bind].
  destruct (IH (built ++ [mkSplitEntry tx
    (mkUtxoItem (hex_encode (Transaction_hash tx)) 0 (ui_amount u `div` 2))
    (mkUtxoItem (hex_encode (Transaction_hash tx)) 1 (ui_amount u - ui_amount u `div` 2))]))
    as (bs & -> & Hlen & Hbs).
  rewrite <- app_assoc. eexists. split; [done|]. split; [cbn; lia|].
  destruct Hu as [_ Hu]. unfold u64 in Hu.
  assert (m ≤ ui_amount u `div` 2) by (apply Z.div_le_lower_bound; lia).
  assert (ui_amount u `div` 2 * 2 ≤ ui_amount u) by (rewrite Z.mul_comm; apply Z.mul_div_le; lia).
  unfold halves. cbn [mbind list_bind app out0 out1].
  constructor; [|constructor; [|done]]; (split; [apply item_ok_output; unfold u64|cbn]; lia).
Qed.

Lemma collect_posted_all env i next built :
  env_ok env → collect_posted (posted env) i next built = Ok (next ++ halves built).
Proof.
  intros [Hp _]. revert i next. induction built as [|e built IH]; intros i next; cbn [collect_posted].
  - by rewrite app_nil_r.
  - rewrite Hp. cbn. rewrite IH, <- app_assoc. done.
Qed.

Lemma split_round_all target env current m :
  env_ok env → 1 ≤ m → (0 < length current < target)%nat → Forall (coin_ge (2 * m)) current →
  ∃ next, split_round key addr target env current = Ok (Some next) ∧ Forall (coin_ge m) next ∧
    length next = (length current + Nat.min (target - length current) (length current))%nat.
Proof.
  intros Henv Hm Hlen Hc. unfold split_round.
  remember (Nat.min (target - length current) (length current)) as n eqn:Hn.
  rewrite <- (take_drop n current) in Hc. apply Forall_app in Hc as [Ht Hd].
  destruct (build_splits_all (drop n current) [] _ m Hm Ht) as (bs & -> & Hl & Hbs).
  rewrite length_take in Hl. cbn [app mbind Res_bind].
  exists (drop n current ++ halves bs). split_and!.
  - destruct bs as [|e bs]; [cbn in Hl; lia|].
    rewrite collect_posted_all by done. cbn [mbind Res_bind]. by rewrite (proj2 Henv).
  - apply Forall_app. split; [|done]. eapply Forall_impl; [exact Hd|]. intros u [??]. split; [done|lia].
  - rewrite length_app, length_drop, length_halves. lia.
Qed.

(** [j] rounds multiply the number of coins by up to [2 ^ j]. *)
Lemma split_loop_all target envs current :
  Forall env_ok envs → Forall (coin_ge (2 ^ Z.of_nat (length envs))) current →
  (0 < length current ≤ target)%nat → (target ≤ length current * 2 ^ length envs)%nat →
  ∃ out, split_loop key addr target envs current = Some (Ok out) ∧ length out = target ∧
    Forall (coin_ge 1) out.
Proof.
  intros Henvs. revert current. induction Henvs as [|env envs Henv Henvs IH]; intros current Hc Hlen Ht;
    cbn [split_loop]; destruct (Nat.ltb_spec (length current) target) as [Hlt|Hge].
  - cbn in Ht. lia.
  - eexists. split; [done|]. rewrite take_ge by lia. split; [lia|done].
  - cbn [length] in Hc, Ht. rewrite Nat2Z.inj_succ, Z.pow_succ_r in Hc by lia.
    destruct (split_round_all target env current (2 ^ Z.of_nat (length envs)))
      as (next & -> & Hn & Hl); [done|lia|lia|done|].
    apply IH; [done|lia|]. rewrite Nat.pow_succ_r' in Ht. rewrite Hl.
    destruct (Nat.min_spec (target - length current) (length current)) as [[_ ->]|[_ ->]]; [|lia].
    pose proof (Nat.pow_nonzero 2 (length envs)). nia.
  - eexists. split; [done|]. rewrite take_ge by lia. split; [lia|].
    eapply Forall_impl; [exact Hc|]. intros u [? Hu]. split; [done|].
    pose proof (Z.pow_pos_nonneg 2 (Z.of_nat (length (env :: envs)))). lia.
Qed.

(** *** The polling *)

Section polling.
Context {W : Type} `{!World W, !WorldLaws W} (client : RpcClient W).
Hypothesis client_utxos_later : ∀ a, goes_on (cl_utxos client a).
Hypothesis client_post_later : ∀ tx, goes_on (cl_post client tx).

Notation ends := (ends (const True)).

Lemma map_err_Return {A} (r : Res string A) : stops_in (const True) (map_err Return r).
Proof. by destruct r. Qed.

Lemma listed_turn_ends built deadline : ends (listed_turn addr client built deadline).
Proof.
  apply ends_bind; [intros w; by split; [apply sleep_later|]|intros _].
  apply ends_bind; [by apply ends_request|intros live]. destruct (forallb _ _); [apply ends_ret|].
  apply ends_bind; [by apply ends_reads|intros now]. destruct (_ <? _); [by apply ends_return|apply ends_ret].
Qed.

(** A turn that finds an output missing takes a second, and is not past the
    deadline. *)
Lemma listed_turn_None built deadline w w' :
  listed_turn addr client built deadline w = (Ok None, w') →
  instant w + seconds 1 ≤ instant w' ≤ deadline.
Proof.
  unfold listed_turn. intros (? & w1 & Hs & Hw)%st_bind_Ok. injection Hs as <- <-.
  apply st_bind_Ok in Hw as (live & w2 & Hreq & Hw).
  assert (instant (sleep (seconds 1) w) ≤ instant w2) as Hle.
  { apply later_instant. pose proof (ends_request (R := string) (const True) _ (client_utxos_later (as_str addr)) (sleep (seconds 1) w)) as [Hl _].
    by rewrite Hreq in Hl. }
  pose proof (sleep_takes (seconds 1) w). destruct (forallb _ _); [done|].
  apply st_bind_Ok in Hw as (now & w3 & Hnow & Hw). injection Hnow as <- <-.
  destruct (Z.ltb_spec deadline (instant w2)); [done|]. injection Hw as <-. lia.
Qed.

Lemma wait_listed_ends built : ends (wait_listed addr client built).
Proof.
  intros w. unfold wait_listed, mbind, ST_bind, reads.
  apply (ends_loop _ _ (seconds 1) (instant w + seconds CONFIRM_TIMEOUT_SECS)).
  - apply listed_turn_ends.
  - done.
  - intros w1 w2 Ht. apply listed_turn_None in Ht. unfold seconds in *. lia.
  - unfold seconds, CONFIRM_TIMEOUT_SECS. lia.
  - lia.
Qed.

Lemma round_turn_ends target current : ends (round_turn key addr client target current).
Proof.
  apply ends_bind; [apply ends_reads; intros w; apply map_err_Return|intros [next [|e built]]]; [apply ends_ret|].
  apply ends_bind.
  { apply ends_join_all, Forall_fmap, Forall_true. intros x. apply ends_request, client_post_later. }
  intros results. apply ends_bind; [apply ends_reads; intros w; apply map_err_Return|intros next'].
  apply ends_bind; [apply wait_listed_ends|intros _]. apply ends_ret.
Qed.

(** The coins a round splits, with their transactions. *)
Definition round_built (target_count : nat) (current : list UtxoItem) : list SplitEntry :=
  let to_split := Nat.min (target_count - length current) (length current) in
  match build_splits key addr (drop to_split current) [] (take to_split current) with
  | Ok (_, built) => built
  | _ => []
  end.

Definition lists (live : list UtxoItem) (built : list SplitEntry) : Prop :=
  ∀ h, h ∈ expected built → ∃ u, u ∈ live ∧ ui_tx_hash u = h.

(** The answers of a round were given between [w] and [w']: to each of its
    transactions the one of the node, and [confirmed] a listing with all the new
    outputs; a round that was not confirmed ended after half a minute, with a
    listing that lacked one of them. *)
Record round_heard (built : list SplitEntry) (env : RoundEnv) (w w' : W) : Prop := {
  rh_later : later w w';
  rh_posted i entry : built !! i = Some entry →
    ∃ r, answered w w' (cl_post client (se_tx entry)) r ∧ posted env i = const tt <$> r;
  rh_confirmed : built ≠ [] → (∀ i entry, built !! i = Some entry → posted env i = Ok tt) →
    if confirmed env then
      ∃ live, answered w w' (cl_utxos client (as_str addr)) (Ok live) ∧ lists live built
    else
      instant w + seconds CONFIRM_TIMEOUT_SECS < instant w' ∧
      ∃ r, answered w w' (cl_utxos client (as_str addr)) r ∧ ¬ lists (unwrap_or [] r) built;
}.

(** The rounds of a split were heard one after the other. *)
Fixpoint rounds_heard (target_count : nat) (current : list UtxoItem) (envs : list RoundEnv) (w w' : W) : Prop :=
  match envs with
  | [] => later w w'
  | env :: envs' =>
      ∃ w1, round_heard (round_built target_count current) env w w1 ∧
        match split_round key addr target_count env current with
        | Ok (Some next) => rounds_heard target_count next envs' w1 w'
        | _ => envs' = [] ∧ later w1 w'
        end
  end.

(** A round over the network is a round for the answers that were heard. *)
Definition round_outcome {A} (r : Res (Stop string) A) (s : Res string A) : Prop :=
  match r with
  | Ok a => s = Ok a
  | Err (Return e) => s = Err e
  | _ => True
  end.

Lemma lists_check live built :
  forallb (fun h => existsb (fun u => bool_decide (ui_tx_hash u = h)) live) (elements (expected built)) = true
  ↔ lists live built.
Proof.
  rewrite forallb_forall. unfold lists. split.
  - intros Hall h Hh. specialize (Hall h). rewrite <- list_elem_of_In, elem_of_elements in Hall.
    apply Hall, existsb_exists in Hh as (u & Hu & Heq%bool_decide_eq_true). exists u. by rewrite list_elem_of_In.
  - intros Hall h Hh%list_elem_of_In%elem_of_elements. destruct (Hall h Hh) as (u & Hu & <-).
    apply existsb_exists. exists u. rewrite <- list_elem_of_In. split; [done|]. by apply bool_decide_eq_true.
Qed.

(** What a turn of the polling loop has heard. *)
Lemma listed_turn_heard built deadline w r w' :
  listed_turn addr client built deadline w = (r, w') →
  later w w' ∧ match r with
  | Ok (Some _) => ∃ live, answered w w' (cl_utxos client (as_str addr)) live ∧ lists (unwrap_or [] live) built
  | Ok None => True
  | Err (Return e) => e = timed_out built ∧ deadline < instant w' ∧
      ∃ live, answered w w' (cl_utxos client (as_str addr)) live ∧ ¬ lists (unwrap_or [] live) built
  | Err OutOfFuel => False
  | Panic => True
  end.
Proof.
  intros Ht. destruct (listed_turn_ends built deadline w) as [Hl Hno]. rewrite Ht in Hl, Hno. split; [exact Hl|].
  revert Ht. unfold listed_turn, mbind, ST_bind, modifies, reads.
  destruct (request (E := Stop string) (cl_utxos client (as_str addr)) (sleep (seconds 1) w)) as [[live|e|] w1] eqn:Hreq;
    [| |by intros [= <- _]].
  2: { exfalso. eapply (request_no_Err (cl_utxos client (as_str addr))). by rewrite Hreq. }
  apply request_answered in Hreq. assert (answered w w1 (cl_utxos client (as_str addr)) live) as Ha.
  { eapply answered_widen; [apply (sleep_later (seconds 1))|reflexivity|exact Hreq]. }
  pose proof (lists_check (unwrap_or [] live) built) as Hc. destruct (forallb _ _).
  - intros [= <- <-]. exists live. split; [done|by apply Hc].
  - destruct (Z.ltb_spec deadline (instant w1)); intros [= <- <-]; [|done].
    split_and!; [done..|]. exists live. split; [done|]. intros Hlist%Hc. done.
Qed.

Lemma wait_listed_heard built w r w' :
  wait_listed addr client built w = (r, w') →
  match r with
  | Ok _ => ∃ live, answered w w' (cl_utxos client (as_str addr)) live ∧ lists (unwrap_or [] live) built
  | Err (Return e) => e = timed_out built ∧ instant w + seconds CONFIRM_TIMEOUT_SECS < instant w' ∧
      ∃ live, answered w w' (cl_utxos client (as_str addr)) live ∧ ¬ lists (unwrap_or [] live) built
  | Err OutOfFuel => True
  | Panic => True
  end.
Proof.
  unfold wait_listed. unfold mbind at 1, ST_bind at 1, reads.
  generalize (instant w + seconds CONFIRM_TIMEOUT_SECS) as deadline. intros deadline.
  generalize (Z.to_nat CONFIRM_TIMEOUT_SECS + 2)%nat as fuel. intros fuel. revert w.
  induction fuel as [|fuel IH]; intros w; [by intros [= <- _]|]. cbn [loop]. unfold mbind, ST_bind.
  destruct (listed_turn addr client built deadline w) as [[[[]|]|[e|]|] w1] eqn:Ht;
    apply listed_turn_heard in Ht as [Hl Ht]; cbn [mret ST_ret]; [by intros [= <- <-]| |by intros [= <- <-]..].
  intros Hloop%IH. destruct r as [u|[e|]|]; [|destruct Hloop as (? & ? & Hloop); split_and!; [done..|]| |done];
    [destruct Hloop as (live & Ha & Hx); exists live; split; [|done]; by eapply answered_widen..|done].
Qed.

Lemma join_posts_heard built w results w' :
  join_all (E := Stop string) ((fun e => request (cl_post client (se_tx e))) <$> built) w = (Ok results, w') →
  later w w' ∧ ∀ i entry, built !! i = Some entry →
    ∃ r, answered w w' (cl_post client (se_tx entry)) r ∧ nth_answer results i = const tt <$> r.
Proof.
  intros Hj. change (fun e => request (E := Stop string) (cl_post client (se_tx e)))
    with (fun e => request (E := Stop string) ((fun e => cl_post client (se_tx e)) e)) in Hj.
  apply (join_all_answered (fun e => cl_post client (se_tx e))) in Hj as [Hall Hl]; [|intros ?; apply client_post_later].
  split; [done|]. intros i entry Hi. destruct (Forall2_lookup_l _ _ _ _ _ Hall Hi) as (r & Hr & Ha).
  exists r. split; [done|]. unfold nth_answer. by rewrite Hr.
Qed.

(** A failed submission, if any, was answered so. *)
Lemma collect_posted_Err answers i next built e :
  collect_posted answers i next built = Err e → ¬ (∀ j entry, built !! j = Some entry → answers (i + j)%nat = Ok tt).
Proof.
  revert i next. induction built as [|x built IH]; intros i next; cbn [collect_posted]; [done|].
  destruct (answers i) as [[]|e'|] eqn:Ha; cbn [map_err mbind Res_bind]; [| |done].
  - intros Hc Hall. apply IH in Hc. apply Hc. intros j entry Hj. replace (S i + j)%nat with (i + S j)%nat by lia.
    by apply (Hall (S j) entry).
  - intros _ Hall. specialize (Hall 0%nat x eq_refl). rewrite Nat.add_0_r in Hall. congruence.
Qed.

Lemma round_turn_refines target current w r w' :
  round_turn key addr client target current w = (r, w') → r ≠ Panic →
  ∃ env, round_heard (round_built target current) env w w' ∧
    round_outcome r (split_round key addr target env current).
Proof.
  unfold round_turn, split_round, round_built. unfold mbind at 1, ST_bind at 1, reads at 1.
  destruct (build_splits _ _ _ _ _) as [[next built]|e|]; cbn [map_err mbind Res_bind].
  2: { intros [= <- <-] _. exists (mkRoundEnv (fun _ => Panic) true). by split; [constructor|]. }
  2: by intros [= <- _].
  destruct built as [|e built].
  { intros [= <- <-] _. exists (mkRoundEnv (fun _ => Panic) true). by split; [constructor|]. }
  unfold mbind at 1, ST_bind at 1.
  destruct (join_all _ w) as [[results|e1|] w1] eqn:Hj; [| |by intros [= <- _]].
  2: { exfalso. eapply (join_all_no_Err (E := Stop string)); [|by rewrite Hj].
    apply Forall_fmap, Forall_true. intros x w2 e2. apply request_no_Err. }
  apply join_posts_heard in Hj as [Hl1 Hposts]. unfold mbind at 1, ST_bind at 1, reads at 1.
  destruct (collect_posted _ _ _ _) as [next'|e'|] eqn:Hcoll; cbn [map_err]; [| |by intros [= <- _]].
  2: { intros [= <- <-] _. exists (mkRoundEnv (nth_answer results) true). cbn [posted confirmed]. rewrite Hcoll.
    split; [|done]. constructor; [done|exact Hposts|]. intros _ Hall. by apply collect_posted_Err in Hcoll as []. }
  unfold mbind at 1, ST_bind at 1. destruct (wait_listed addr client (e :: built) w1) as [rw w2] eqn:Hwait.
  destruct (wait_listed_ends (e :: built) w1) as [Hl2 Hno]. rewrite Hwait in Hl2, Hno. cbn [fst snd] in Hl2, Hno.
  apply wait_listed_heard in Hwait.
  assert (Hpost : ∀ i entry, (e :: built) !! i = Some entry →
    ∃ r, answered w w2 (cl_post client (se_tx entry)) r ∧ nth_answer results i = const tt <$> r).
  { intros i entry Hi. destruct (Hposts i entry Hi) as (x & Hx & Heq). exists x. split; [|done].
    eapply answered_widen; [reflexivity|exact Hl2|exact Hx]. }
  pose proof (later_instant _ _ Hl1) as Hle. destruct rw as [u|[e'|]|]; [| |done|by intros [= <- _]].
  - intros [= <- <-] _. exists (mkRoundEnv (nth_answer results) true). cbn [posted confirmed]. rewrite Hcoll.
    split; [|done]. constructor; [by etrans|exact Hpost|]. intros _ _. cbn [confirmed].
    destruct Hwait as (live & Ha & Hlist). destruct live as [live|x|]; cbn [unwrap_or] in Hlist.
    + exists live. split; [|done]. eapply answered_widen; [exact Hl1|reflexivity|exact Ha].
    + exfalso. destruct (Hlist (ui_tx_hash (out0 e))) as (? & ?%elem_of_nil & _); [|done].
      apply elem_of_list_to_set. cbn. by left.
    + exfalso. destruct (Hlist (ui_tx_hash (out0 e))) as (? & ?%elem_of_nil & _); [|done].
      apply elem_of_list_to_set. cbn. by left.
  - intros [= <- <-] _. exists (mkRoundEnv (nth_answer results) false). cbn [posted confirmed]. rewrite Hcoll.
    destruct Hwait as (-> & Hlate & live & Ha & Hlist). split; [|done].
    constructor; [by etrans|exact Hpost|]. intros _ _. cbn [confirmed]. split; [lia|].
    exists live. split; [|done]. eapply answered_widen; [exact Hl1|reflexivity|exact Ha].
Qed.

(** Every round but the last adds a coin, so the loop ends. *)
Lemma rounds_refine fuel target current w r w' :
  (target - length current ≤ fuel)%nat → rounds key addr client fuel target current w = (r, w') →
  later w w' ∧ r ≠ Err OutOfFuel ∧ (r ≠ Panic →
  ∃ envs, (length envs ≤ fuel)%nat ∧ rounds_heard target current envs w w' ∧
    match split_loop key addr target envs current with
    | Some s => round_outcome r s
    | None => False
    end).
Proof.
  revert current w. induction fuel as [|fuel IH]; intros current w Hf; cbn [rounds];
    destruct (Nat.ltb_spec (length current) target) as [Hlt|Hge]; try lia.
  1,3: intros [= <- <-]; (split; [reflexivity|]); (split; [done|]); intros _; exists [];
    (split; [cbn; lia|]); (split; [cbn; reflexivity|]); cbn [split_loop]; by rewrite (proj2 (Nat.ltb_ge _ _)).
  unfold mbind, ST_bind. destruct (round_turn key addr client target current w) as [rt w1] eqn:Ht.
  destruct (round_turn_ends target current w) as [Hl Hno]. rewrite Ht in Hl, Hno. cbn [fst snd] in Hl, Hno.
  pose proof (round_turn_refines _ _ _ _ _ Ht) as Hround.
  assert (Hstop : ∀ s, round_outcome rt s → match s with Ok (Some _) => False | _ => True end → rt ≠ Panic →
    ∃ envs, (length envs ≤ S fuel)%nat ∧ rounds_heard target current envs w w1 ∧
      split_loop key addr target envs current
        = Some match rt with Ok _ => Ok (take target current) | Err (Return e) => Err e | _ => Panic end).
  { intros s Hs Hlast Hp. destruct (Hround Hp) as (env & Henv & Hout). exists [env]. split; [cbn; lia|].
    cbn [rounds_heard split_loop]. rewrite (proj2 (Nat.ltb_lt _ _) Hlt).
    destruct rt as [[next|]|[e|]|]; cbn in Hs, Hout; subst; [done|..|done|done]; rewrite Hout; split; try done;
      by exists w1. }
  destruct rt as [[next|]|[e|]|].
  - intros Hrun. destruct (Hround ltac:(done)) as (env & Henv & Hout). cbn [round_outcome] in Hout.
    pose proof Hout as [_ Hlen]%split_round_Ok; [|done].
    destruct (IH next w1 ltac:(lia) Hrun) as (Hl' & Hno' & Hex). split_and!; [by etrans|done|].
    intros Hp. destruct (Hex Hp) as (envs & Hle & Hheard & Hs). exists (env :: envs). split; [cbn; lia|].
    cbn [rounds_heard split_loop]. rewrite (proj2 (Nat.ltb_lt _ _) Hlt), Hout. split; [|done]. by exists w1.
  - intros [= <- <-]. split_and!; [done..|]. intros _.
    destruct (Hstop (Ok None)) as (envs & Hle & Hheard & Hs); [done..|]. exists envs. by rewrite Hs.
  - intros [= <- <-]. split_and!; [done..|]. intros _.
    destruct (Hstop (Err e)) as (envs & Hle & Hheard & Hs); [done..|]. exists envs. by rewrite Hs.
  - done.
  - by intros [= <- <-].
Qed.

Lemma split_net_outcome input n w :
  let '(r, w') := split_utxo_net key addr client input n w in
  later w w' ∧
  match r with
  | Ok out => ∃ envs, (length envs ≤ n)%nat ∧ rounds_heard n [input] envs w w' ∧
      split_utxo key addr envs input n = Some (Ok out) ∧
      total out = ui_amount input ∧ (1 ≤ length out ≤ Nat.max 1 n)%nat
  | Err (Return e) => ∃ envs, (length envs ≤ n)%nat ∧ rounds_heard n [input] envs w w' ∧
      split_utxo key addr envs input n = Some (Err e)
  | Err OutOfFuel => False
  | Panic => True
  end.
Proof.
  unfold split_utxo_net, split_utxo. destruct (Nat.leb_spec n 1).
  { split; [reflexivity|]. exists []. split; [cbn; lia|]. split; [cbn; reflexivity|]. split; [done|]. cbn. lia. }
  destruct (rounds _ _ _ _ _ _ _) as [r w'] eqn:Hr. apply rounds_refine in Hr as (Hl & Hno & Hex); [|cbn; lia].
  split; [done|]. destruct r as [out|[e|]|]; [| |done..];
    (destruct Hex as (envs & Hle & Hheard & Hs); [done|]);
    (destruct (split_loop key addr n envs [input]) as [s|] eqn:Hloop; [|done]); cbn [round_outcome] in Hs; subst s;
    exists envs; (split; [done|]); (split; [done|]); [|done].
  split; [done|]. apply split_loop_total in Hloop as [Ht Hlen]; cbn in *; lia.
Qed.

Lemma split_net_ends input n : ends (split_utxo_net key addr client input n).
Proof.
  intros w. pose proof (split_net_outcome input n w) as Ho. destruct (split_utxo_net _ _ _ _ _ _) as [r w'].
  destruct Ho as (Hl & Ho). split; [done|]. cbn [fst]. by destruct r as [|[]|].
Qed.
End polling.
End facts.

(** ** The properties *)

Section properties.
Context `{Crypto} `{CoreJson} `{BuildProfile}.
Notation total us := (sumZ (ui_amount <$> us)).

(** Whatever the network answers, a split that reports success returns coins
    worth exactly the input, and at most the requested number of them. *)
Theorem split_conserves key addr envs input n out :
  split_utxo key addr envs input n = Some (Ok out) →
  total out = ui_amount input ∧ (1 ≤ length out ≤ Nat.max 1 n)%nat.
Proof.
  unfold split_utxo. destruct (Nat.leb_spec n 1).
  - intros [= <-]. cbn. lia.
  - intros [Ht Hl]%split_loop_total; cbn in *; lia.
Qed.

(** C33: splitting over the network ends, whatever the nodes answer and however
    slowly, and is the split of the rounds above for the answers that were heard:
    in each round every transaction was posted and answered in between, a round
    that went on has seen a listing of the node with all its new outputs, and a
    round that timed out has waited for half a minute and then seen one that
    lacked an output.  So the coins it returns are worth exactly the input, and
    an error is one of that split.  A panic is one of a request or of the
    arithmetic of a transfer. *)
Theorem split_net_refines {W} `{!World W, !WorldLaws W} url key addr input n w :
  let '(r, w') := split_utxo_net key addr (client_of url) input n w in
  later w w' ∧
  match r with
  | Ok out => ∃ envs, (length envs ≤ n)%nat ∧ rounds_heard key addr (client_of url) n [input] envs w w' ∧
      split_utxo key addr envs input n = Some (Ok out) ∧
      total out = ui_amount input ∧ (1 ≤ length out ≤ Nat.max 1 n)%nat
  | Err (Return e) => ∃ envs, (length envs ≤ n)%nat ∧ rounds_heard key addr (client_of url) n [input] envs w w' ∧
      split_utxo key addr envs input n = Some (Err e)
  | Err OutOfFuel => False
  | Panic => True
  end.
Proof.
  apply split_net_outcome; intros ? ?; [apply utxos_later|apply post_later].
Qed.

(** A coin worth at least [2 ^ k] is split into exactly [n <= 2 ^ k] spendable
    coins within [k] confirmed rounds. *)
Theorem split_reaches_target key addr envs input n :
  item_ok input → Forall env_ok envs → 2 ^ Z.of_nat (length envs) ≤ ui_amount input →
  (1 ≤ n ≤ 2 ^ length envs)%nat →
  ∃ out, split_utxo key addr envs input n = Some (Ok out) ∧ length out = n ∧
    Forall (fun u => item_ok u ∧ 1 ≤ ui_amount u) out ∧ total out = ui_amount input.
Proof.
  intros Hi He Ha Hn.
  assert (Hs : ∃ out, split_utxo key addr envs input n = Some (Ok out) ∧ length out = n ∧
    Forall (fun u => item_ok u ∧ 1 ≤ ui_amount u) out).
  { unfold split_utxo. destruct (Nat.leb_spec n 1).
    - exists [input]. split_and!; [done|cbn; lia|]. constructor; [|done]. split; [done|].
      pose proof (Z.pow_pos_nonneg 2 (Z.of_nat (length envs))). lia.
    - apply split_loop_all; [done|by constructor|cbn; lia|cbn; lia]. }
  destruct Hs as (out & Hs & Hl & Hf). exists out. split_and!; try done.
  unfold split_utxo in Hs. destruct (Nat.leb_spec n 1); [by injection Hs as <-; cbn; lia|].
  apply split_loop_total in Hs as [-> _]; cbn; lia.
Qed.

(** The requested number is not always reached although the amount allows it:
    asked for three coins of a coin worth three, the split succeeds with two,
    of one and two units, because the coin it picks next cannot be split. *)
Theorem split_stops_short key addr env1 env2 envs input :
  item_ok input → ui_amount input = 3 → env_ok env1 →
  ∃ out, split_utxo key addr (env1 :: env2 :: envs) input 3 = Some (Ok out) ∧
    ui_amount <$> out = [1; 2].
Proof.
  intros Hi Ha He.
  destruct (build_transfer_one key addr input 1 Hi) as [tx Htx].
  eexists. split; [|shelve]. unfold split_utxo. cbn [Nat.leb split_loop length Nat.ltb].
  unfold split_round at 1. cbn [length Nat.sub Nat.min take drop build_splits].
  rewrite Ha. cbn [Z.ltb Z.compare Pos.compare Pos.compare_cont]. change (3 `div` 2) with 1.
  rewrite Htx. cbn [map_err mbind Res_bind build_splits app].
  rewrite collect_posted_all by done. cbn [mbind Res_bind]. rewrite (proj2 He).
  unfold halves. cbn. reflexivity.
  Unshelve. done.
Qed.
End properties.
