(* ===== verification/Scenarios.v ===== *)
(** * The visualizer's scenarios ([bcc-visualizer/src/scenarios.rs])

    Six test runs against a network of nodes, reported as steps on the event bus.
    A scenario sees the nodes through RPC clients; an early [return] is an error
    of the monad.  The theorems say that every run ends and is reported, what a
    passing run has seen, and that modelled nodes pass the test of invalid
    transactions. *)

From S2P Require Import Prelude Bytes Types Store Ledger Validation DebugEvent EventBus.
From S2P Require Import Wallet Rpc World Split.

(** ** The tool *)

(** The event bus, shared with the tasks that relay the nodes' events. *)
Class Tool (W : Type) := {
  (** [Utc::now()] *)
  utc_now : W → string;
  bus : W → EventBus;
  set_bus : EventBus → W → W;
}.

(** Events that were sent stay sent. *)
Class ToolLaws (W : Type) `{!World W, !WorldLaws W, !Tool W} := {
  bus_set_bus b w : bus (set_bus b w) = b;
  later_sent w w' : later w w' → sent (bus w) `prefix_of` sent (bus w');
  set_bus_later b w : sent (bus w) `prefix_of` sent b → later w (set_bus b w);
}.

Inductive ScenarioStatus := Running | Pass | Fail.
#[global] Instance ScenarioStatus_eqdec : EqDecision ScenarioStatus.
Proof. solve_decision. Defined.

Record ScenarioStep := mkScenarioStep {
  sp_name : string;
  sp_status : ScenarioStatus;
  sp_detail : string;
  sp_elapsed_ms : Z;
}.
Record ScenarioResult := mkScenarioResult {
  scenario : string;
  sr_status : ScenarioStatus;
  sr_elapsed_ms : Z;
  steps : list ScenarioStep;
}.

Definition Steps : Type := list ScenarioStep.

(** ** Helpers *)

(** A byte that is not the first of a character. *)
Definition is_continuation (c : Ascii.ascii) : bool :=
  let z := Z.of_nat (Ascii.nat_of_ascii c) in (128 <=? z) && (z <? 192).
(** [&s[..n]], on UTF-8 bytes. *)
Definition slice_to {E} (n : nat) (s : string) : Res E string :=
  match String.get n s with
  | Some c => if is_continuation c then Panic else Ok (String.substring 0 n s)
  | None => if (String.length s =? n)%nat then Ok s else Panic
  end.

Definition hex_to_hash `{Crypto} (s : string) : Res string (list byte) :=
  bytes ← map_err (fun e => "hex decode: " +:+ e) (of_sum (hex_decode s));
  if (length bytes =? 32)%nat then Ok bytes else Err "tx_hash must be 32 bytes"%string.

(** [Display] of [bool] *)
Definition show_bool (b : bool) : string := if b then "true" else "false".

Section keys.
Context `{Crypto}.

Definition FUNDER_SEED : list byte := replicate 32 x42.
Definition funder_key : SigningKey := mkSigningKey FUNDER_SEED.
Definition funder_addr : Address := Address.from_pubkey_bytes (vk_as_bytes (verifying_key funder_key)).
Definition recipient_addr (tag : Z) : Address :=
  let key := mkSigningKey (replicate 32 (byte_of_Z tag)) in
  Address.from_pubkey_bytes (vk_as_bytes (verifying_key key)).
End keys.

Section scenarios.
Context `{Crypto} `{CoreJson} `{BuildProfile} `{UnstableSort}.
Context {W : Type} `{!World W} `{!Tool W}.
Notation M := (ST W (Stop ScenarioResult)).

Definition publish_step {E} (scenario step status detail : string) : ST W E unit := modifies (fun w =>
  set_bus (EventBus.publish "visualizer" (utc_now w) (ScenarioEvent scenario step status detail) (bus w)) w).

(** [start.elapsed().as_millis() as u64] *)
Definition elapsed_ms (start : Z) (w : W) : Z := wrap_u64 (Z.max 0 (instant w - start) `div` 1000000).

Definition ok_step (name detail : string) (start : Z) (w : W) : ScenarioStep :=
  mkScenarioStep name Pass detail (elapsed_ms start w).

(** [steps.push(ok_step(name, detail, start))] *)
Definition push_ok (steps : Steps) (name detail : string) (start : Z) : M Steps :=
  reads (fun w => Ok (steps ++ [ok_step name detail start w])).

Definition fail_result (scenario : string) (start : Z) (steps : Steps) (reason : string) (w : W) :
    ScenarioResult :=
  mkScenarioResult scenario Fail (elapsed_ms start w)
    (steps ++ [mkScenarioStep "error" Fail reason (elapsed_ms start w)]).

(** [return fail_result(name, start, steps, reason)] *)
Definition return_fail {A} (name : string) (start : Z) (steps : Steps) (reason : string) : M A :=
  reads (fun w => Err (Return (fail_result name start steps reason w))).

Definition pass_result (name : string) (start : Z) (steps : Steps) : M ScenarioResult :=
  reads (fun w => Ok (mkScenarioResult name Pass (elapsed_ms start w) steps)).

(** [match r { Ok(a) => a, Err(e) => on_err(e) }] *)
Definition or_else {E A} (r : Res E A) (on_err : E → M A) : M A :=
  match r with
  | Ok a => mret a
  | Err e => on_err e
  | Panic => reads (fun _ => Panic)
  end.

(** [&l[i]] *)
Definition item_at {A} (l : list A) (i : nat) : M A :=
  reads (fun _ => match l !! i with Some a => Ok a | None => Panic end).

Definition now : M Z := reads (fun w => Ok (instant w)).

(** A turn of the loop of [wait_until]: whether the predicate is satisfied. *)
Definition wait_turn (scenario step : string) (deadline poll : Z) (predicate : M (option string)) :
    M (option bool) :=
  t ← now;
  if deadline <? t then mret (Some false)
  else
    p ← predicate;
    match p with
    | Some progress =>
        _ ← publish_step scenario step "progress" progress;
        _ ← modifies (sleep poll);
        mret None
    | None => mret (Some true)
    end.

Definition wait_until (scenario step : string) (timeout poll : Z) (predicate : M (option string)) :
    M bool :=
  t ← now;
  loop (Z.to_nat (timeout `div` poll) + 2) (wait_turn scenario step (t + timeout) poll predicate).

(** [c.get_balance(&a).await.map(|r| r.balance).unwrap_or(0)], at every node. *)
Definition balances (urls : list string) (addr : string) : M (list Z) :=
  join_all ((fun u =>
    r ← request (cl_balance (client_of u) addr); mret (unwrap_or 0 (br_balance <$> r))) <$> urls).

(** [balances.iter().filter(|&&b| b == amount).count()] *)
Definition count_equal (amount : Z) (bs : list Z) : nat := length (filter (fun b => b = amount) bs).

(** The predicate of [single_transfer]. *)
Definition all_confirm (urls : list string) (addr : string) (amount : Z) : M (option string) :=
  bs ← balances urls addr;
  let confirmed := count_equal amount bs in
  if (confirmed =? length urls)%nat then mret None
  else mret (Some (pretty confirmed +:+ "/" +:+ pretty (length urls) +:+ " nodes confirmed")).

(** The predicates that look at several recipients in turn; [word] ends the
    progress message. *)
Fixpoint first_unconfirmed (word : string) (urls : list string) (expected : list (Address * Z)) :
    M (option string) :=
  match expected with
  | [] => mret None
  | (recipient, amount) :: expected' =>
      let addr := as_str recipient in
      bs ← balances urls addr;
      let confirmed := count_equal amount bs in
      if (confirmed <? length urls)%nat
      then mret (Some (addr +:+ ": " +:+ pretty confirmed +:+ "/" +:+ pretty (length urls) +:+ " " +:+ word))
      else first_unconfirmed word urls expected'
  end.

(** ** [single_transfer] *)

Definition scenario_single_transfer (ports : list string) : M ScenarioResult :=
  let name := "single_transfer"%string in
  start ← now;
  url0 ← item_at ports 0;
  let client0 := client_of url0 in
  let recipient := recipient_addr 0xAA in
  let amount := 100000 in
  _ ← publish_step name "fetch_utxos" "start" "Fetching funder UTXOs from node1";
  r ← request (cl_utxos client0 (as_str funder_addr));
  utxos ← or_else r (fun e =>
    let msg := "Failed to fetch UTXOs: " +:+ ClientError_to_string e in
    _ ← publish_step name "fetch_utxos" "fail" msg; return_fail name start [] msg);
  steps ← push_ok [] "fetch_utxos" ("Got " +:+ pretty (length utxos) +:+ " UTXOs") start;
  _ ← publish_step name "fetch_utxos" "pass" (pretty (length utxos) +:+ " UTXOs found");
  sel ← or_else (select_coins utxos amount) (fun e =>
    let msg := "Coin selection failed: " +:+ ClientError_to_string e in
    _ ← publish_step name "coin_select" "fail" msg; return_fail name start steps msg);
  tx ← or_else (build_transfer funder_key (selected sel) recipient amount funder_addr) (fun e =>
    let msg := "Build tx failed: " +:+ ClientError_to_string e in
    _ ← publish_step name "build_tx" "fail" msg; return_fail name start steps msg);
  _ ← publish_step name "submit_tx" "start" "Submitting TX to node1";
  r ← request (cl_post client0 tx);
  resp ← or_else r (fun e =>
    let msg := "Submit TX failed: " +:+ ClientError_to_string e in
    _ ← publish_step name "submit_tx" "fail" msg; return_fail name start steps msg);
  let tx_hash := xr_tx_hash resp in
  h8 ← reads (fun _ => slice_to 8 tx_hash);
  steps ← push_ok steps "submit_tx" ("TX submitted: " +:+ h8) start;
  h16 ← reads (fun _ => slice_to 16 tx_hash);
  _ ← publish_step name "submit_tx" "pass" ("tx_hash=" +:+ h16);
  _ ← publish_step name "propagation" "start" "Waiting for TX to confirm on all nodes (40s)";
  converged ← wait_until name "propagation" (seconds 40) (seconds 3)
    (all_confirm ports (as_str recipient) amount);
  if negb converged then
    let msg := "TX did not propagate to all nodes within 40s"%string in
    _ ← publish_step name "propagation" "fail" msg;
    return_fail name start steps msg
  else
    steps ← push_ok steps "propagation" "All nodes confirmed balance" start;
    _ ← publish_step name "propagation" "pass" "All 5 nodes confirmed";
    pass_result name start steps.

(** ** [concurrent_sends] *)

(** The largest output of the funder, at the first node; [fetch] starts the
    message of a failing request. *)
Definition largest_utxo (name : string) (start : Z) (steps : Steps) (fetch : string)
    (client0 : RpcClient W) : M UtxoItem :=
  r ← request (cl_utxos client0 (as_str funder_addr));
  all ← or_else r (fun e => return_fail name start steps (fetch +:+ ClientError_to_string e));
  match all with
  | [] => return_fail name start steps "funder has no UTXOs"
  | _ => item_at (sort_unstable (fun a b => ui_amount b <=? ui_amount a) all) 0
  end.

(** The split of that output, sorted by amount only later. *)
Definition split_funder (name : string) (start : Z) (steps : Steps) (client0 : RpcClient W)
    (input_utxo : UtxoItem) (n : nat) : M (list UtxoItem) :=
  r ← caught (split_utxo_net funder_key funder_addr client0 input_utxo n);
  or_else r (fun e => _ ← publish_step name "split" "fail" e; return_fail name start steps e).

Definition concurrent_amounts : list Z := [11000; 22000; 33000; 44000; 55000].

(** The transfer of the [i]th output. *)
Definition concurrent_tx (name : string) (start : Z) (steps : Steps) (utxos : list UtxoItem)
    (ia : nat * Z) : M (Transaction * Address * Z) :=
  let '(i, amount) := ia in
  utxo ← item_at utxos i;
  let recipient := recipient_addr (0x10 + Z.of_nat i) in
  tx ← or_else (build_transfer funder_key [utxo] recipient amount funder_addr) (fun e =>
    return_fail name start steps ("build tx " +:+ pretty i +:+ ": " +:+ ClientError_to_string e));
  mret (tx, recipient, amount).

(** The report on an answer; the number of accepted transactions so far. *)
Fixpoint report_submitted (name : string) (i submitted : nat) (results : list (Res ClientError TxResponse)) :
    M nat :=
  match results with
  | [] => mret submitted
  | Ok r :: results' =>
      h ← reads (fun _ => slice_to 16 (xr_tx_hash r));
      _ ← publish_step name "submit" "progress" ("TX " +:+ pretty i +:+ " accepted: " +:+ h);
      report_submitted name (S i) (S submitted) results'
  | Err e :: results' =>
      _ ← publish_step name "submit" "progress"
            ("TX " +:+ pretty i +:+ " rejected: " +:+ ClientError_to_string e);
      report_submitted name (S i) submitted results'
  | Panic :: _ => reads (fun _ => Panic)
  end.

(** [(0..).iter().enumerate()] *)
Definition enumerate {A} (l : list A) : list (nat * A) := imap pair l.

Definition scenario_concurrent_sends (ports : list string) : M ScenarioResult :=
  let name := "concurrent_sends"%string in
  start ← now;
  let amounts := concurrent_amounts in
  _ ← publish_step name "split" "start" "Splitting largest funder UTXO into 5 independent parts";
  url0 ← item_at ports 0;
  let client0 := client_of url0 in
  input_utxo ← largest_utxo name start [] "GET /utxos: " client0;
  utxos ← split_funder name start [] client0 input_utxo (length amounts);
  steps ← push_ok [] "split" (pretty (length utxos) +:+ " UTXOs ready") start;
  _ ← publish_step name "split" "pass" (pretty (length utxos) +:+ " UTXOs confirmed");
  if (length utxos <? length amounts)%nat then
    return_fail name start steps
      ("Not enough UTXOs: have " +:+ pretty (length utxos) +:+ ", need " +:+ pretty (length amounts))
  else
    let utxos := sort_unstable amount_le utxos in
    txs ← each (concurrent_tx name start steps utxos) (enumerate amounts);
    _ ← publish_step name "submit" "start" "Submitting 5 TXs to 5 different nodes simultaneously";
    targets ← each (fun it => url ← item_at ports (it.1 `mod` length ports)%nat; mret (url, it.2.1.1))
                (enumerate txs);
    results ← join_all ((fun ut => request (cl_post (client_of ut.1) ut.2)) <$> targets);
    submitted ← report_submitted name 0 0 results;
    steps ← push_ok steps "submit"
      (pretty submitted +:+ "/" +:+ pretty (length amounts) +:+ " TXs submitted") start;
    _ ← publish_step name "propagation" "start" "Waiting for all TXs to confirm on all nodes (60s)";
    converged ← wait_until name "propagation" (seconds 60) (seconds 3)
      (first_unconfirmed "nodes" ports ((fun t => (t.1.2, t.2)) <$> txs));
    if negb converged then return_fail name start steps "TXs did not confirm within 60s"
    else
      steps ← push_ok steps "propagation" "All TXs confirmed on all nodes" start;
      _ ← publish_step name "propagation" "pass" "All 5 recipients confirmed on all 5 nodes";
      pass_result name start steps.

(** ** [double_spend] *)

(** [balances.windows(2).all(|w| w[0] == w[1])] *)
Definition all_same (bs : list Z) : bool := forallb (fun p => p.1 =? p.2) (zip bs (tail bs)).

Definition converged_on (urls : list string) (addr : string) (amount : Z) : M (option string) :=
  bs ← balances urls addr;
  b0 ← item_at bs 0;
  if all_same bs && (b0 =? amount) then mret None
  else mret (Some ("all_same=" +:+ show_bool (all_same bs) +:+ " balance=" +:+ pretty b0)).

Definition scenario_double_spend (ports : list string) : M ScenarioResult :=
  let name := "double_spend"%string in
  start ← now;
  let recipient := recipient_addr 0xFF in
  let amount := 5000 in
  _ ← publish_step name "setup" "start" "Fetching UTXOs for double-spend test";
  url0 ← item_at ports 0;
  r ← request (cl_utxos (client_of url0) (as_str funder_addr));
  utxos ← or_else r (fun e => return_fail name start [] ("fetch UTXOs: " +:+ ClientError_to_string e));
  _ ← match utxos with [] => return_fail name start [] "no UTXOs available" | _ => mret tt end;
  sel ← or_else (select_coins utxos amount) (fun e =>
    return_fail name start [] ("coin select: " +:+ ClientError_to_string e));
  identical_txs ← each (fun _ =>
    or_else (build_transfer funder_key (selected sel) recipient amount funder_addr) (fun e =>
      return_fail name start [] ("build tx: " +:+ ClientError_to_string e))) (seq 0 5);
  steps ← push_ok [] "setup" "Built 5 identical TXs (same UTXO)" start;
  _ ← publish_step name "submit" "start" "Submitting 5 identical TXs to 5 different nodes";
  targets ← each (fun it => url ← item_at ports it.1; mret (url, it.2)) (enumerate identical_txs);
  results ← join_all ((fun ut => request (cl_post (client_of ut.1) ut.2)) <$> targets);
  let accepted := length (filter (fun r => is_ok r = true) results) in
  _ ← publish_step name "submit" "progress" (pretty accepted +:+ "/5 nodes accepted the TX (expected: 1+)");
  steps ← push_ok steps "submit" (pretty accepted +:+ "/5 accepted immediately") start;
  _ ← publish_step name "verify" "start" "Verifying exactly 1 TX commits on all nodes (90s)";
  converged ← wait_until name "verify" (seconds 90) (seconds 3)
    (converged_on ports (as_str recipient) amount);
  if negb converged then return_fail name start steps "Did not converge within 90s"
  else
    steps ← push_ok steps "verify" "Exactly 1 TX committed, all nodes agree" start;
    _ ← publish_step name "verify" "pass"
          ("Double-spend resolved: recipient has " +:+ pretty amount +:+ " tokens");
    pass_result name start steps.
(** ** [mempool_flood] *)

Definition TX_COUNT : nat := 30.
Definition AMOUNT : Z := 1000.

(** The loop that builds independent transactions from distinct outputs; the ones
    that cannot be built are left out. *)
Fixpoint flood_txs (utxos : list UtxoItem) (spent_keys : gset (string * Z))
    (txs : list (Transaction * Address * Z)) (ks : list nat) :
    Res (Stop ScenarioResult) (list (Transaction * Address * Z)) :=
  match ks with
  | [] => Ok txs
  | i :: ks' =>
      let available := filter (fun u => (ui_tx_hash u, ui_index u) ∉ spent_keys) utxos in
      match select_coins available AMOUNT with
      | Panic => Panic
      | Err _ => flood_txs utxos spent_keys txs ks'
      | Ok sel =>
          let spent_keys := list_to_set ((fun u => (ui_tx_hash u, ui_index u)) <$> selected sel) ∪ spent_keys in
          let recipient := recipient_addr (Z.of_nat i) in
          match build_transfer funder_key (selected sel) recipient AMOUNT funder_addr with
          | Panic => Panic
          | Err _ => flood_txs utxos spent_keys txs ks'
          | Ok tx => flood_txs utxos spent_keys (txs ++ [(tx, recipient, AMOUNT)]) ks'
          end
      end
  end.

(** Whether the node took a transaction, which pays an address an amount. *)
Definition flood_one (client : RpcClient W) (t : Transaction * Address * Z) : M (option (Address * Z)) :=
  r ← request (cl_post client t.1.1);
  mret (if is_ok r then Some (t.1.2, t.2) else None).

Definition two_blocks_later (url : string) (initial_tip : Z) : M (option string) :=
  r ← request (cl_tip (client_of url));
  match r with
  | Ok tip =>
      need ← reads (fun _ => u64_add initial_tip 2);
      if need <=? tr_height tip then mret None
      else mret (Some ("height=" +:+ pretty (tr_height tip) +:+ " (need " +:+ pretty need +:+ ")"))
  | _ => mret (Some "waiting for tip"%string)
  end.

Definition scenario_mempool_flood (ports : list string) : M ScenarioResult :=
  let name := "mempool_flood"%string in
  start ← now;
  _ ← publish_step name "setup" "start" ("Preparing up to " +:+ pretty TX_COUNT +:+ " TXs");
  url0 ← item_at ports 0;
  r ← request (cl_utxos (client_of url0) (as_str funder_addr));
  utxos ← or_else r (fun e => return_fail name start [] ("fetch UTXOs: " +:+ ClientError_to_string e));
  r ← request (cl_tip (client_of url0));
  tip ← or_else r (fun e => return_fail name start [] ("get tip: " +:+ ClientError_to_string e));
  let initial_tip := tr_height tip in
  txs ← reads (fun _ => flood_txs utxos ∅ [] (seq 0 TX_COUNT));
  steps ← push_ok [] "setup" ("Built " +:+ pretty (length txs) +:+ " TXs") start;
  _ ← publish_step name "flood" "start" ("Flooding node1 with " +:+ pretty (length txs) +:+ " TXs");
  answers ← each (flood_one (client_of url0)) txs;
  let accepted_txs := omap id answers in
  let rejected := (length answers - length accepted_txs)%nat in
  steps ← push_ok steps "flood"
    (pretty (length accepted_txs) +:+ " accepted, " +:+ pretty rejected +:+ " rejected") start;
  _ ← publish_step name "flood" "progress"
        (pretty (length accepted_txs) +:+ " accepted, " +:+ pretty rejected +:+ " rejected by node1");
  _ ← publish_step name "wait_blocks" "start" "Waiting for 2 new blocks to drain the mempool (45s)";
  blocks_done ← wait_until name "wait_blocks" (seconds 45) (seconds 2) (two_blocks_later url0 initial_tip);
  if negb blocks_done then return_fail name start steps "2 new blocks not produced within 45s"
  else
    steps ← push_ok steps "wait_blocks" "2 new blocks produced" start;
    _ ← publish_step name "verify" "start"
          ("Verifying " +:+ pretty (length accepted_txs) +:+ " accepted TXs confirmed on all nodes (30s)");
    verified ← wait_until name "verify" (seconds 30) (seconds 3)
      (first_unconfirmed "nodes" ports accepted_txs);
    if negb verified then
      return_fail name start steps
        ("Not all " +:+ pretty (length accepted_txs) +:+ " TXs confirmed on all nodes within 30s")
    else
      steps ← push_ok steps "verify"
        ("All " +:+ pretty (length accepted_txs) +:+ " accepted TXs confirmed on all 5 nodes") start;
      _ ← publish_step name "verify" "pass" (pretty (length accepted_txs) +:+ " TXs confirmed on all nodes");
      pass_result name start steps.

(** ** [balance_conservation] *)

Definition conservation_amounts : list Z := [5000; 7000; 9000; 11000; 13000].
Definition conservation_recipients : list Address :=
  (fun i => recipient_addr (0x50 + Z.of_nat i)) <$> seq 0 (length conservation_amounts).

(** The balance all nodes agree on. *)
Definition initial_total (name : string) (start : Z) (ports : list string) : M Z :=
  initial_balances ← join_all ((fun u =>
    r ← request (cl_balance (client_of u) (as_str funder_addr)); mret (br_balance <$> r)) <$> ports);
  total ← match filter (fun r => is_ok r = false) initial_balances with
    | Err e :: _ => return_fail name start [] ("get balance: " +:+ ClientError_to_string e)
    | _ => r ← item_at initial_balances 0; or_else r (fun _ => reads (fun _ => Panic))
    end;
  if forallb (fun r => match r with Ok b => b =? total | _ => false end) initial_balances
  then mret total
  else return_fail name start []
         "Nodes disagree on initial funder balance — run after chain convergence".

(** A transfer from the [i]th output, submitted to a node in turn. *)
Definition conservation_send (name : string) (start : Z) (steps : Steps) (ports : list string)
    (utxos : list UtxoItem) (ia : nat * Z) : M unit :=
  let '(i, amount) := ia in
  utxo ← item_at utxos i;
  recipient ← item_at conservation_recipients i;
  tx ← or_else (build_transfer funder_key [utxo] recipient amount funder_addr) (fun e =>
    return_fail name start steps ("build tx #" +:+ pretty i +:+ ": " +:+ ClientError_to_string e));
  node ← item_at ports (i `mod` length ports)%nat;
  r ← request (cl_post (client_of node) tx);
  _ ← or_else r (fun e =>
    return_fail name start steps ("submit tx #" +:+ pretty i +:+ ": " +:+ ClientError_to_string e));
  mret tt.

(** The loop that adds up the recipients' balances at a node. *)
Fixpoint add_balances (name : string) (start : Z) (steps : Steps) (ni : nat) (client : RpcClient W)
    (total : Z) (recipients : list Address) : M Z :=
  match recipients with
  | [] => mret total
  | recipient :: recipients' =>
      r ← request (cl_balance client (as_str recipient));
      bal ← or_else r (fun e => return_fail name start steps
        ("node" +:+ pretty ni +:+ " recipient balance: " +:+ ClientError_to_string e));
      total ← reads (fun _ => u64_add total (br_balance bal));
      add_balances name start steps ni client total recipients'
  end.

(** A node's violation of the conservation, if any. *)
Definition check_node (name : string) (start : Z) (steps : Steps) (initial : Z) (nu : nat * string) :
    M (option string) :=
  let '(ni, url) := nu in
  let client := client_of url in
  r ← request (cl_balance client (as_str funder_addr));
  bal ← or_else r (fun e => return_fail name start steps
    ("node" +:+ pretty ni +:+ " funder balance: " +:+ ClientError_to_string e));
  total ← add_balances name start steps ni client (br_balance bal) conservation_recipients;
  _ ← publish_step name "conservation" "progress"
        ("node" +:+ pretty (ni + 1)%nat +:+ ": funder=" +:+ pretty (br_balance bal) +:+ " total=" +:+
         pretty total +:+ " expected=" +:+ pretty initial);
  mret (if total =? initial then None
        else Some ("node" +:+ pretty (ni + 1)%nat +:+ ": got " +:+ pretty total +:+ ", expected " +:+
                   pretty initial)).

(** The tail of the run, after the split. *)
Definition conservation_transfers (name : string) (start : Z) (ports : list string) (initial : Z)
    (utxos : list UtxoItem) (steps : Steps) : M ScenarioResult :=
  let amounts := conservation_amounts in
  _ ← publish_step name "transfers" "start" ("Sending " +:+ pretty (length amounts) +:+
        " transfers totalling " +:+ pretty (sumZ amounts) +:+ " tokens");
  sent ← each (conservation_send name start steps ports utxos) (enumerate amounts);
  let submitted := length sent in
  steps ← push_ok steps "transfers" (pretty submitted +:+ " TXs submitted") start;
  _ ← publish_step name "transfers" "pass" (pretty submitted +:+ " transfers submitted");
  _ ← publish_step name "confirm" "start" "Waiting for all transfers to confirm (60s)";
  confirmed ← wait_until name "confirm" (seconds 60) (seconds 3)
    (first_unconfirmed "confirmed" ports (zip conservation_recipients amounts));
  if negb confirmed then return_fail name start steps "Transfers did not confirm within 60s"
  else
    steps ← push_ok steps "confirm" "All transfers confirmed on all nodes" start;
    _ ← publish_step name "conservation" "start" "Checking funder + recipients == initial_total on all nodes";
    checks ← each (check_node name start steps initial) (enumerate ports);
    match omap id checks with
    | [] =>
        steps ← push_ok steps "conservation"
          ("All nodes: funder + recipients = " +:+ pretty initial) start;
        _ ← publish_step name "conservation" "pass"
              ("Invariant holds on all 5 nodes (total = " +:+ pretty initial +:+ ")");
        pass_result name start steps
    | violations =>
        return_fail name start steps ("Conservation violated: " +:+ String.concat "; " violations)
    end.

Definition scenario_balance_conservation (ports : list string) : M ScenarioResult :=
  let name := "balance_conservation"%string in
  start ← now;
  let amounts := conservation_amounts in
  _ ← publish_step name "snapshot" "start" "Reading initial funder balance on all nodes";
  initial ← initial_total name start ports;
  steps ← push_ok [] "snapshot" ("Initial funder balance: " +:+ pretty initial) start;
  _ ← publish_step name "snapshot" "pass" ("All nodes agree: " +:+ pretty initial +:+ " tokens");
  _ ← publish_step name "split" "start"
        ("Splitting funder UTXO into " +:+ pretty (length amounts) +:+ " independent parts");
  url0 ← item_at ports 0;
  let client0 := client_of url0 in
  input_utxo ← largest_utxo name start steps "fetch UTXOs: " client0;
  utxos ← split_funder name start steps client0 input_utxo (length amounts);
  if (length utxos <? length amounts)%nat then
    return_fail name start steps
      ("Split produced " +:+ pretty (length utxos) +:+ " UTXOs, need " +:+ pretty (length amounts))
  else
    let utxos := sort_unstable amount_le utxos in
    steps ← push_ok steps "split" (pretty (length utxos) +:+ " UTXOs ready") start;
    _ ← publish_step name "split" "pass" (pretty (length utxos) +:+ " UTXOs confirmed");
    conservation_transfers name start ports initial utxos steps.

(** ** [invalid_tx_rejection] *)

(** [assert_all_reject] *)
Definition assert_all_reject (urls : list string) (tx : Transaction) (case : string) :
    M (Res string string) :=
  results ← join_all ((fun u => request (cl_post (client_of u) tx)) <$> urls);
  let accepted := filter (fun r => is_ok r = true) results in
  mret (match accepted with
        | [] => Ok ("All " +:+ pretty (length urls) +:+ " nodes rejected")
        | _ => Err (case +:+ ": " +:+ pretty (length accepted) +:+ "/" +:+ pretty (length urls) +:+
                    " nodes accepted (expected 0)")
        end).

(** The submission of one malformed transaction and its report. *)
Definition reject_case (start : Z) (ports : list string) (steps : Steps) (case : string)
    (tx : Transaction) : M Steps :=
  let name := "invalid_tx_rejection"%string in
  r ← assert_all_reject ports tx case;
  detail ← or_else r (fun e => _ ← publish_step name case "fail" e; return_fail name start steps e);
  steps ← push_ok steps case detail start;
  _ ← publish_step name case "pass" detail;
  mret steps.

(** One input with the placeholder signature, one output. *)
Definition unsigned_tx (r : TxOutRef) (value : Z) (recipient : Address) : Transaction :=
  mkTransaction Transfer [mkTxInput r placeholder_signature (verifying_key funder_key)]
    [mkTxOutput value recipient].
(** [tx.inputs[0].signature = key.sign(&tx_signing_bytes(&tx))] *)
Definition signed_by_funder (tx : Transaction) : Transaction :=
  match inputs tx with
  | i :: rest => mkTransaction (kind tx)
      (set_signature (sign funder_key (tx_signing_bytes tx)) i :: rest) (outputs tx)
  | [] => tx
  end.

Definition scenario_invalid_tx_rejection (ports : list string) : M ScenarioResult :=
  let name := "invalid_tx_rejection"%string in
  start ← now;
  _ ← publish_step name "setup" "start" "Fetching a real UTXO as base for invalid TXs";
  url0 ← item_at ports 0;
  r ← request (cl_utxos (client_of url0) (as_str funder_addr));
  utxos ← or_else r (fun e => return_fail name start [] ("fetch UTXOs: " +:+ ClientError_to_string e));
  _ ← match utxos with [] => return_fail name start [] "funder has no UTXOs" | _ => mret tt end;
  utxo ← item_at utxos 0;
  h ← or_else (hex_to_hash (ui_tx_hash utxo)) (fun e => return_fail name start [] e);
  let out_ref := mkTxOutRef h (ui_index utxo) in
  h8 ← reads (fun _ => slice_to 8 (ui_tx_hash utxo));
  steps ← push_ok [] "setup"
    ("Using UTXO " +:+ h8 +:+ " (amount=" +:+ pretty (ui_amount utxo) +:+ ")") start;
  _ ← publish_step name "setup" "pass" "UTXO ready";
  _ ← publish_step name "bad_signature" "start" "Submitting TX with all-zero signature to all nodes";
  steps ← reject_case start ports steps "bad_signature"
    (unsigned_tx out_ref (ui_amount utxo `div` 2) (recipient_addr 0xB1));
  _ ← publish_step name "overspend" "start"
        "Submitting TX where output exceeds input amount (correctly signed)";
  overspend_amount ← reads (fun _ => u64_add (ui_amount utxo) 1);
  steps ← reject_case start ports steps "overspend"
    (signed_by_funder (unsigned_tx out_ref overspend_amount (recipient_addr 0xB2)));
  _ ← publish_step name "phantom_utxo" "start" "Submitting TX spending a UTXO that does not exist";
  steps ← reject_case start ports steps "phantom_utxo"
    (signed_by_funder (unsigned_tx (mkTxOutRef (replicate 32 xde) 0) 1000 (recipient_addr 0xB3)));
  pass_result name start steps.

(** ** [run_scenario] *)

Definition unknown_scenario (name : string) : M ScenarioResult :=
  mret (mkScenarioResult name Fail 0
    [mkScenarioStep "init" Fail ("Unknown scenario: " +:+ name) 0]).

Definition scenario_of (name : string) (ports : list string) : M ScenarioResult :=
  if bool_decide (name = "single_transfer"%string) then scenario_single_transfer ports
  else if bool_decide (name = "concurrent_sends"%string) then scenario_concurrent_sends ports
  else if bool_decide (name = "double_spend"%string) then scenario_double_spend ports
  else if bool_decide (name = "mempool_flood"%string) then scenario_mempool_flood ports
  else if bool_decide (name = "balance_conservation"%string) then scenario_balance_conservation ports
  else if bool_decide (name = "invalid_tx_rejection"%string) then scenario_invalid_tx_rejection ports
  else unknown_scenario name.

Definition run_scenario (name : string) (ports : list string) : M ScenarioResult :=
  _ ← publish_step name "init" "start" "Scenario started";
  result ← returned (scenario_of name ports);
  let final_status := if bool_decide (sr_status result = Pass) then "pass"%string else "fail"%string in
  _ ← publish_step name "done" final_status ("Completed in " +:+ pretty (sr_elapsed_ms result) +:+ "ms");
  mret result.
End scenarios.

(** ** Every run ends *)

Lemma slice_to_no_Err {E} n s (e : E) : slice_to n s ≠ Err e.
Proof. unfold slice_to. by repeat case_match. Qed.

Lemma u64_add_no_Err {E} `{BuildProfile} a b (e : E) : u64_add a b ≠ Err e.
Proof. unfold u64_add, arith_u64. by repeat case_match. Qed.

Create HintDb polls.

Section ending.
Context `{Crypto} `{CoreJson} `{BuildProfile} `{UnstableSort}.
Context {W : Type} `{!World W, !WorldLaws W, !Tool W, !ToolLaws W}.
Notation M := (ST W (Stop ScenarioResult)).
Notation failed := (fun r => sr_status r ≠ Pass).
Notation ends m := (ends failed m).

Lemma flood_txs_no_Err utxos spent txs ks e : flood_txs utxos spent txs ks ≠ Err e.
Proof.
  revert spent txs. induction ks as [|k ks IH]; intros spent txs; cbn [flood_txs]; [done|].
  by repeat case_match.
Qed.

Lemma publish_ends a b c d : ends (publish_step (W := W) a b c d).
Proof.
  intros w. split; [|done]. apply set_bus_later. cbn. by eexists.
Qed.

Lemma index_ends {A} (l : list A) i : ends (item_at (W := W) l i).
Proof. apply ends_reads. intros _. by case_match. Qed.

Lemma return_fail_ends {A} a b c d : ends (return_fail (W := W) (A := A) a b c d).
Proof. by apply ends_reads. Qed.

Lemma or_else_ends {E A} (r : Res E A) (k : E → M A) : (∀ e, ends (k e)) → ends (or_else r k).
Proof. intros Hk. destruct r; cbn; [apply ends_ret|apply Hk|by apply ends_reads]. Qed.

(** One structural step of a program; [polls] knows the components. *)
Ltac ends_step :=
  cbv beta zeta;
  lazymatch goal with
  | |- World.ends _ (mret _) => apply ends_ret
  | |- World.ends _ (publish_step _ _ _ _) => apply publish_ends
  | |- World.ends _ (item_at _ _) => apply index_ends
  | |- World.ends _ (return_fail _ _ _ _) => apply return_fail_ends
  | |- World.ends _ (mbind _ _) => apply ends_bind; [|intros ?]
  | |- World.ends _ (or_else _ _) => apply or_else_ends; intros ?
  | |- World.ends _ (request _) => apply ends_request; intros ?;
      first [apply tip_later|apply balance_later|apply utxos_later|apply post_later]
  | |- World.ends _ (each _ _) => apply ends_each; intros ?
  | |- World.ends _ (join_all _) => apply ends_join_all, Forall_fmap, Forall_true; intros ?; unfold compose
  | |- World.ends _ (reads _) => first [by apply ends_reads|apply ends_reads_no_Err; intros ? ?];
      first [apply slice_to_no_Err|apply u64_add_no_Err|apply flood_txs_no_Err]
  | |- World.ends _ (caught _) => apply ends_caught
  | |- World.ends _ now => by apply ends_reads
  | |- World.ends _ (push_ok _ _ _ _) => by apply ends_reads
  | |- World.ends _ (pass_result _ _ _) => by apply ends_reads
  | |- World.ends _ (match _ with _ => _ end) => case_match
  | |- World.ends _ _ => solve [auto with polls]
  end.
Ltac ends_tac := repeat ends_step.

Lemma balances_end urls addr : ends (balances (W := W) urls addr).
Proof. unfold balances. ends_tac. Qed.

Lemma all_confirm_ends urls addr value : ends (all_confirm (W := W) urls addr value).
Proof. unfold all_confirm. apply ends_bind; [apply balances_end|intros bs]. ends_tac. Qed.

Lemma first_unconfirmed_ends word urls expected : ends (first_unconfirmed (W := W) word urls expected).
Proof.
  induction expected as [|[a v] l IH]; cbn [first_unconfirmed]; [ends_tac|].
  apply ends_bind; [apply balances_end|intros bs]. by case_match; [ends_tac|].
Qed.

Lemma converged_on_ends urls addr value : ends (converged_on (W := W) urls addr value).
Proof. unfold converged_on. apply ends_bind; [apply balances_end|intros bs]. ends_tac. Qed.

Lemma two_blocks_later_ends url tip : ends (two_blocks_later (W := W) url tip).
Proof. unfold two_blocks_later. ends_tac. Qed.

(** A turn that goes on takes the polling time, and has not passed the deadline. *)
Lemma wait_turn_None scn step deadline poll (p : M (option string)) w w' :
  ends p → wait_turn scn step deadline poll p w = (Ok None, w') →
  instant w ≤ deadline ∧ instant w + poll ≤ instant w'.
Proof.
  intros Hp. unfold wait_turn. intros (t & w0 & Ht & Hw)%st_bind_Ok. injection Ht as <- <-.
  destruct (Z.ltb_spec deadline (instant w)); [done|].
  apply st_bind_Ok in Hw as (r & w1 & Hr & Hw). pose proof (Hp w) as [Hl%later_instant _]. rewrite Hr in Hl.
  destruct r as [progress|]; [|done].
  apply st_bind_Ok in Hw as (? & w2 & Hpub & Hw). pose proof (publish_ends scn step "progress" progress w1) as [Hl'%later_instant _].
  rewrite Hpub in Hl'. apply st_bind_Ok in Hw as (? & w3 & Hs & Hw). injection Hs as <- <-. injection Hw as <-.
  pose proof (sleep_takes poll w2). cbn in *. lia.
Qed.

Lemma wait_until_ends scn step timeout poll (p : M (option string)) :
  0 < poll → 0 ≤ timeout → ends p → ends (wait_until scn step timeout poll p).
Proof.
  intros Hpoll Ht Hp w. unfold wait_until, mbind, ST_bind, now, reads.
  apply (ends_loop _ _ poll (instant w + timeout)); [|done| | |lia].
  - unfold wait_turn. ends_tac. intros w1. by split; [apply sleep_later|].
  - intros w1 w2 Hw. by eapply wait_turn_None.
  - pose proof (Z.mul_succ_div_gt timeout poll Hpoll). pose proof (Z.div_pos timeout poll).
    rewrite Nat2Z.inj_add, Z2Nat.id by lia. nia.
Qed.

#[local] Hint Resolve all_confirm_ends first_unconfirmed_ends converged_on_ends two_blocks_later_ends
  balances_end : polls.
#[local] Hint Extern 1 (World.ends _ (wait_until _ _ _ _ _)) => apply wait_until_ends; [done|done|] : polls.

Lemma split_utxo_net_ends key addr url input n : World.ends (const True) (split_utxo_net (W := W) key addr (client_of url) input n).
Proof. intros w. apply split_net_ends; intros ? ?; [apply utxos_later|apply post_later]. Qed.
#[local] Hint Resolve split_utxo_net_ends : polls.

Lemma largest_utxo_ends a b c d url : ends (largest_utxo (W := W) a b c d (client_of url)).
Proof. unfold largest_utxo. ends_tac. Qed.
Lemma split_funder_ends a b c url u n : ends (split_funder (W := W) a b c (client_of url) u n).
Proof. unfold split_funder. ends_tac. Qed.
Lemma concurrent_tx_ends a b c us ia : ends (concurrent_tx (W := W) a b c us ia).
Proof. unfold concurrent_tx. destruct ia. ends_tac. Qed.
Lemma report_submitted_ends a i n l : ends (report_submitted (W := W) a i n l).
Proof. revert i n. induction l as [|[r|e|] l IH]; intros i n; cbn [report_submitted]; ends_tac; auto. Qed.
Lemma flood_one_ends url t : ends (flood_one (W := W) (client_of url) t).
Proof. unfold flood_one. ends_tac. Qed.
Lemma initial_total_ends a b us : ends (initial_total (W := W) a b us).
Proof. unfold initial_total. ends_tac. Qed.
Lemma conservation_send_ends a b c us l ia : ends (conservation_send (W := W) a b c us l ia).
Proof. unfold conservation_send. destruct ia. ends_tac. Qed.
Lemma add_balances_ends a b c ni url t l : ends (add_balances (W := W) a b c ni (client_of url) t l).
Proof. revert t. induction l as [|r l IH]; intros t; cbn [add_balances]; ends_tac; auto. Qed.
#[local] Hint Resolve add_balances_ends : polls.
Lemma check_node_ends a b c z nu : ends (check_node (W := W) a b c z nu).
Proof. unfold check_node. destruct nu. ends_tac. Qed.
Lemma reject_case_ends a us c d tx : ends (reject_case (W := W) a us c d tx).
Proof. unfold reject_case, assert_all_reject. ends_tac. Qed.
#[local] Hint Resolve largest_utxo_ends split_funder_ends concurrent_tx_ends report_submitted_ends flood_one_ends
  initial_total_ends conservation_send_ends check_node_ends reject_case_ends : polls.

Lemma scenario_of_ends name ports : ends (scenario_of (W := W) name ports).
Proof.
  unfold scenario_of, scenario_single_transfer, scenario_concurrent_sends, scenario_double_spend,
    scenario_mempool_flood, scenario_balance_conservation, conservation_transfers,
    scenario_invalid_tx_rejection, unknown_scenario.
  ends_tac.
Qed.
(** *** What a successful run has seen *)

Lemma ends_later {A} (m : M A) w a w' : ends m → m w = (Ok a, w') → later w w'.
Proof. intros Hm Hw. destruct (Hm w) as [Hl _]. by rewrite Hw in Hl. Qed.

(** Between [w] and [w'] the node of a URL answered that an address has [v]. *)
Definition seen (w w' : W) (url addr : string) (v : Z) : Prop :=
  ∃ w1 r, later w w1 ∧ later w1 w' ∧
    (cl_balance (client_of url) addr w1).1 = Ok r ∧ br_balance r = v.

Lemma seen_widen w0 w w' w3 url addr v :
  later w0 w → later w' w3 → seen w w' url addr v → seen w0 w3 url addr v.
Proof. intros Hb Ha (w1 & r & Hl1 & Hl2 & Hr). exists w1, r. split_and!; [by etrans|by etrans|apply Hr..]. Qed.

Lemma balances_seen urls addr w bs w' :
  balances urls addr w = (Ok bs, w') →
  length bs = length urls ∧ later w w' ∧
  ∀ i url b, urls !! i = Some url → bs !! i = Some b → b ≠ 0 → seen w w' url addr b.
Proof.
  unfold balances. intros Hb. apply join_all_Ok in Hb as (Hlen & Hl & Hall).
  - rewrite length_fmap in Hlen. split_and!; [done..|]. intros i url b Hu Hbi Hnz.
    edestruct (Hall i) as (w1 & w2 & Hl1 & Hrq & Hl2); [by rewrite list_lookup_fmap, Hu|done|].
    apply st_bind_Ok in Hrq as (r & w3 & Hrq & Hr). injection Hr as Hr <-. unfold request in Hrq.
    exists w1. destruct (cl_balance (client_of url) addr w1) as [[x|e|] w4] eqn:Hc; [|injection Hrq as <- <-; by cbn in Hr|done].
    injection Hrq as <- <-. exists x. cbn in Hr. split_and!; [done| |done..].
    etrans; [|exact Hl2]. pose proof (balance_later url addr w1) as Hl3. by rewrite Hc in Hl3.
  - apply Forall_fmap, Forall_true. intros u w1. unfold compose.
    apply (ends_bind failed); [apply ends_request; intros ?; apply balance_later|intros r; apply ends_ret].
Qed.

Lemma count_equal_all v bs : count_equal v bs = length bs → Forall (fun b => b = v) bs.
Proof.
  unfold count_equal. induction bs as [|b bs IH]; intros Hc; [constructor|].
  rewrite filter_cons in Hc. destruct (decide (b = v)); [constructor; [done|apply IH; cbn in Hc; lia]|].
  pose proof (length_filter (fun b => b = v) bs). cbn in Hc. lia.
Qed.

Lemma all_same_all b0 bs : all_same (b0 :: bs) = true → Forall (fun b => b = b0) (b0 :: bs).
Proof.
  revert b0. induction bs as [|b bs IH]; intros b0 Hs; [by repeat constructor|].
  unfold all_same in *. cbn in Hs. apply andb_prop in Hs as [->%Z.eqb_eq Hs]. constructor; [done|].
  apply (IH b). exact Hs.
Qed.

(** Every node answered the expected amount. *)
Lemma equal_seen urls addr v w bs w' :
  balances urls addr w = (Ok bs, w') → Forall (fun b => b = v) bs → v ≠ 0 →
  ∀ url, url ∈ urls → seen w w' url addr v.
Proof.
  intros (Hlen & _ & Hall)%balances_seen Hbs Hv url [i Hi]%list_elem_of_lookup.
  destruct (lookup_lt_is_Some_2 bs i) as [b Hb]; [apply lookup_lt_Some in Hi; lia|].
  pose proof (Forall_lookup_1 _ _ _ _ Hbs Hb) as ->. by eapply Hall.
Qed.

Lemma all_confirm_seen urls addr v w w' :
  all_confirm urls addr v w = (Ok None, w') → v ≠ 0 → ∀ url, url ∈ urls → seen w w' url addr v.
Proof.
  intros (bs & w1 & Hb & Hw)%st_bind_Ok Hv. pose proof Hb as (Hlen & _)%balances_seen.
  cbv zeta in Hw. destruct (Nat.eqb_spec (count_equal v bs) (length urls)); [|done]. injection Hw as <-.
  eapply equal_seen; [done|apply count_equal_all; lia|done].
Qed.

Lemma converged_on_seen urls addr v w w' :
  converged_on urls addr v w = (Ok None, w') → v ≠ 0 → ∀ url, url ∈ urls → seen w w' url addr v.
Proof.
  intros (bs & w1 & Hb & Hw)%st_bind_Ok Hv. apply st_bind_Ok in Hw as (b0 & w2 & Hi & Hw).
  destruct bs as [|b bs]; [done|]. injection Hi as <- <-.
  destruct (all_same (b :: bs)) eqn:Hs; cbn [andb] in Hw; [|done].
  destruct (Z.eqb_spec b v) as [->|]; [|done].
  injection Hw as <-. eapply equal_seen; [done|by apply all_same_all|done].
Qed.

Lemma first_unconfirmed_seen word urls expected w w' :
  first_unconfirmed word urls expected w = (Ok None, w') →
  ∀ a v, (a, v) ∈ expected → v ≠ 0 → ∀ url, url ∈ urls → seen w w' url (as_str a) v.
Proof.
  revert w. induction expected as [|[b u] l IH]; intros w Hw a v Hin Hv url Hurl; [by apply elem_of_nil in Hin|].
  cbn [first_unconfirmed] in Hw. apply st_bind_Ok in Hw as (bs & w1 & Hb & Hw).
  pose proof Hb as (Hlen & Hl & _)%balances_seen.
  cbv zeta in Hw. destruct (Nat.ltb_spec (count_equal u bs) (length urls)); [done|].
  pose proof (ends_later _ _ _ _ (first_unconfirmed_ends word urls l) Hw) as Hl'.
  apply elem_of_cons in Hin as [[= -> ->]|Hin].
  - apply (seen_widen w w w1 w'); [done..|]. eapply equal_seen; [done| |done..].
    apply count_equal_all. pose proof (length_filter (fun b => b = u) bs). unfold count_equal in *. lia.
  - apply (seen_widen w w1 w' w'); [done..|]. by eapply IH.
Qed.

(** A wait that succeeded has seen the predicate hold. *)
Lemma wait_until_true scn step timeout poll (p : M (option string)) w w' :
  ends p → wait_until scn step timeout poll p w = (Ok true, w') →
  ∃ w1, later w w1 ∧ p w1 = (Ok None, w').
Proof.
  intros Hp. unfold wait_until. intros (t & w0 & Ht & Hw)%st_bind_Ok. injection Ht as <- <-.
  apply (loop_last failed) in Hw as (w1 & Hl & Hw).
  - exists w1. split; [done|]. unfold wait_turn in Hw. apply st_bind_Ok in Hw as (t & w2 & Ht & Hw). injection Ht as <- <-.
    destruct (_ <? _); [done|]. apply st_bind_Ok in Hw as (r & w2 & Hr & Hw). destruct r as [progress|].
    + apply st_bind_Ok in Hw as (? & w3 & _ & Hw). apply st_bind_Ok in Hw as (? & w4 & _ & Hw). done.
    + by injection Hw as <-.
  - unfold wait_turn. ends_tac. intros w1. by split; [apply sleep_later|].
Qed.
(** Follows a run [H] that succeeded one operation further; the operations whose
    outcome matters stay in the context. *)
Ltac run_step H :=
  let a := fresh "a" in let w1 := fresh "w" in let Ha := fresh "Ha" in let Hl := fresh "Hl" in
  cbv beta zeta in H;
  apply st_bind_Ok in H as (a & w1 & Ha & H);
  lazymatch type of Ha with
  | _ ?w = _ => assert (Hl : later w w1) by (refine (ends_later _ _ _ _ _ Ha); ends_tac)
  end;
  lazymatch type of Ha with
  | wait_until _ _ _ _ _ _ = _ => idtac
  | each _ _ _ = _ => idtac
  | initial_total _ _ _ _ = _ => idtac
  | _ => try clear Ha
  end.
Ltac run_steps H := repeat run_step H.
(** Moments of a run are in order. *)
Ltac in_order := solve [reflexivity | eassumption | etrans; [eassumption|]; in_order].

Lemma each_map {A B C} (g : B → C) (h : A → C) (f : A → M B) l w ys w' :
  (∀ x w y w', f x w = (Ok y, w') → g y = h x) → each f l w = (Ok ys, w') → g <$> ys = h <$> l.
Proof.
  intros Hf. revert w ys w'. induction l as [|x l IH]; intros w ys w'; cbn [each].
  - by intros [= <- _].
  - intros (y & w1 & Hy & Hl)%st_bind_Ok. apply st_bind_Ok in Hl as (ys' & w2 & Hys & Hr).
    injection Hr as <- _. rewrite !fmap_cons. f_equal; [eapply Hf, Hy|eapply IH, Hys].
Qed.

Lemma concurrent_tx_pays a b c us ia w t w' :
  concurrent_tx a b c us ia w = (Ok t, w') → (t.1.2, t.2) = (recipient_addr (0x10 + Z.of_nat ia.1), ia.2).
Proof.
  destruct ia as [i v]. unfold concurrent_tx. intros (? & ? & _ & Hw)%st_bind_Ok. cbv zeta in Hw.
  apply st_bind_Ok in Hw as (? & ? & _ & Hw). by injection Hw as <- _.
Qed.

(** The payments a scenario waits for. *)
Definition awaited (name : string) : list (Address * Z) :=
  if bool_decide (name = "single_transfer"%string) then [(recipient_addr 0xAA, 100000)]
  else if bool_decide (name = "concurrent_sends"%string) then
    (fun ia => (recipient_addr (0x10 + Z.of_nat ia.1), ia.2)) <$> enumerate concurrent_amounts
  else if bool_decide (name = "double_spend"%string) then [(recipient_addr 0xFF, 5000)]
  else if bool_decide (name = "balance_conservation"%string) then
    zip conservation_recipients conservation_amounts
  else [].

Definition all_seen (w w' : W) (ports : list string) (l : list (Address * Z)) : Prop :=
  ∀ a v, (a, v) ∈ l → ∀ url, url ∈ ports → seen w w' url (as_str a) v.

Lemma all_seen_widen w w1 w2 w' ports l :
  later w w1 → all_seen w1 w2 ports l → later w2 w' → all_seen w w' ports l.
Proof. intros Hl Hs Hl' a v Ha url Hu. eapply seen_widen; [done..|by eapply Hs]. Qed.

Lemma wait_seen scn step timeout poll (p : M (option string)) w w1 w2 w' ports l :
  wait_until scn step timeout poll p w1 = (Ok true, w2) → later w w1 → later w2 w' → ends p →
  (∀ w w', p w = (Ok None, w') → all_seen w w' ports l) → all_seen w w' ports l.
Proof.
  intros Hw Hl Hl' Hp Hs. apply wait_until_true in Hw as (w3 & Hl3 & Hw); [|done].
  eapply all_seen_widen; [|by apply Hs|done]. by etrans.
Qed.

Lemma all_confirm_all ports a v w w' :
  v ≠ 0 → all_confirm ports (as_str a) v w = (Ok None, w') → all_seen w w' ports [(a, v)].
Proof. intros Hv Hw b u [= -> ->]%list_elem_of_singleton url Hu. by eapply all_confirm_seen. Qed.
Lemma converged_on_all ports a v w w' :
  v ≠ 0 → converged_on ports (as_str a) v w = (Ok None, w') → all_seen w w' ports [(a, v)].
Proof. intros Hv Hw b u [= -> ->]%list_elem_of_singleton url Hu. by eapply converged_on_seen. Qed.
Lemma first_unconfirmed_all word ports l w w' :
  Forall (fun av => av.2 ≠ 0) l → first_unconfirmed word ports l w = (Ok None, w') → all_seen w w' ports l.
Proof.
  intros Hl Hw b u Hin url Hu. eapply first_unconfirmed_seen; [done..| |done].
  by apply (proj1 (Forall_forall _ _) Hl _ Hin).
Qed.

(** The run after the wait that is still in the context. *)
Ltac after_wait Hw :=
  lazymatch goal with
  | Ha : wait_until _ _ _ _ _ _ = (Ok ?b, ?w2) |- _ =>
      destruct b; cbn [negb] in Hw; [|exfalso; run_steps Hw; discriminate Hw];
      run_steps Hw; eapply (wait_seen _ _ _ _ _ _ _ _ _ _ _ Ha); [in_order| |solve [auto with polls]|]
  end.

Lemma single_transfer_seen ports w r w' :
  scenario_single_transfer ports w = (Ok r, w') →
  all_seen w w' ports [(recipient_addr 0xAA, 100000)].
Proof.
  unfold scenario_single_transfer. intros Hw. run_steps Hw. after_wait Hw.
  - injection Hw as _ <-. in_order.
  - intros ? ?. by apply all_confirm_all.
Qed.

Lemma double_spend_seen ports w r w' :
  scenario_double_spend ports w = (Ok r, w') →
  all_seen w w' ports [(recipient_addr 0xFF, 5000)].
Proof.
  unfold scenario_double_spend. intros Hw. run_steps Hw. after_wait Hw.
  - injection Hw as _ <-. in_order.
  - intros ? ?. by apply converged_on_all.
Qed.

Lemma concurrent_sends_seen ports w r w' :
  scenario_concurrent_sends ports w = (Ok r, w') →
  all_seen w w' ports
    ((fun ia => (recipient_addr (0x10 + Z.of_nat ia.1), ia.2)) <$> enumerate concurrent_amounts).
Proof.
  unfold scenario_concurrent_sends. intros Hw. run_steps Hw. case_match; [done|]. run_steps Hw.
  lazymatch goal with
  | Ht : each (concurrent_tx _ _ _ _) _ _ = (Ok ?txs, _) |- _ =>
      apply (each_map (fun t : Transaction * Address * Z => (t.1.2, t.2))
        (fun ia : nat * Z => (recipient_addr (0x10 + Z.of_nat ia.1), ia.2))) in Ht;
        [|intros; by eapply concurrent_tx_pays]
  end.
  after_wait Hw.
  - injection Hw as _ <-. in_order.
  - intros ? ? Hf. lazymatch goal with Ht : _ <$> _ = _ |- _ => rewrite Ht in Hf end.
    eapply first_unconfirmed_all; [|exact Hf]. by repeat constructor.
Qed.

(** *** The balances of [balance_conservation] *)

Lemma seen_request w url addr r w' :
  (request (cl_balance (client_of url) addr) : M _) w = (Ok (Ok r), w') →
  seen w w' url addr (br_balance r).
Proof.
  unfold request. pose proof (balance_later url addr w) as Hl.
  destruct (cl_balance (client_of url) addr w) as [[x|e|] w1] eqn:Hc; cbn in Hl; [|done..]. intros [= -> ->].
  exists w, r. by rewrite Hc.
Qed.

Lemma initial_total_seen name start ports w t w' :
  initial_total name start ports w = (Ok t, w') →
  ∀ url, url ∈ ports → seen w w' url (as_str funder_addr) t.
Proof.
  unfold initial_total. intros (answers & w1 & Ha & Hw)%st_bind_Ok url [i Hi]%list_elem_of_lookup.
  apply join_all_Ok in Ha as (Hlen & Hl & Hall).
  2: { apply Forall_fmap, Forall_true. intros u w2. unfold compose.
    apply (ends_bind failed); [apply ends_request; intros ?; apply balance_later|intros x; apply ends_ret]. }
  apply st_bind_Ok in Hw as (total & w2 & Ht & Hw).
  assert (later w1 w2) as Hl2 by (refine (ends_later _ _ _ _ _ Ht); ends_tac).
  destruct (forallb _ answers) eqn:Hsame; [|done]. injection Hw as <- <-.
  rewrite length_fmap in Hlen.
  destruct (lookup_lt_is_Some_2 answers i) as [r Hr]; [apply lookup_lt_Some in Hi; lia|].
  rewrite forallb_forall in Hsame. assert (r ∈ answers) as Hin by by eapply list_elem_of_lookup_2.
  apply list_elem_of_In, Hsame in Hin. destruct r as [b|e|]; [|done..]. apply Z.eqb_eq in Hin as ->.
  edestruct (Hall i) as (w3 & w4 & Hl3 & Hrq & Hl4); [by rewrite list_lookup_fmap, Hi|done|].
  apply st_bind_Ok in Hrq as (x & w5 & Hrq & Hx). injection Hx as Hx <-.
  destruct x as [x|e|]; [|done..]. cbn in Hx. injection Hx as <-.
  eapply seen_widen; [exact Hl3| |by apply seen_request]. by etrans.
Qed.

(** The sum the scenario computes from a node's answers. *)
Definition balanced (w w' : W) (url : string) (total : Z) : Prop :=
  ∃ b bs, seen w w' url (as_str funder_addr) b ∧
    Forall2 (fun a x => seen w w' url (as_str a) x) conservation_recipients bs ∧
    u64_sum_from (E := Stop ScenarioResult) b bs = Ok total.

Lemma balanced_widen w0 w w' w3 url total :
  later w0 w → later w' w3 → balanced w w' url total → balanced w0 w3 url total.
Proof.
  intros Hb Ha (b & bs & Hs & Hbs & Hsum). exists b, bs. split_and!; [by eapply seen_widen| |done].
  eapply Forall2_impl; [exact Hbs|]. intros a x. by apply seen_widen.
Qed.

Lemma add_balances_seen name start steps ni url t l w total w' :
  add_balances name start steps ni (client_of url) t l w = (Ok total, w') →
  ∃ bs, Forall2 (fun a x => seen w w' url (as_str a) x) l bs ∧
    u64_sum_from (E := Stop ScenarioResult) t bs = Ok total.
Proof.
  revert w t. induction l as [|a l IH]; intros w t; cbn [add_balances].
  { intros [= -> ->]. by exists []. }
  intros (r & w1 & Hr & Hw)%st_bind_Ok. apply st_bind_Ok in Hw as (bal & w2 & Hb & Hw).
  destruct r as [x|e|]; [|done..]. injection Hb as <- <-.
  apply st_bind_Ok in Hw as (t' & w3 & Ht & Hw). injection Ht as Ht <-.
  assert (later w1 w') as Hl by (refine (ends_later _ _ _ _ _ Hw); apply add_balances_ends).
  assert (later w w1) as Hl' by (refine (ends_later _ _ _ _ _ Hr); ends_tac).
  apply IH in Hw as (bs & Hbs & Hsum). exists (br_balance x :: bs). split.
  - constructor.
    + eapply seen_widen; [reflexivity|exact Hl|]. by apply seen_request.
    + eapply Forall2_impl; [exact Hbs|]. intros b y. by apply seen_widen.
  - cbn [u64_sum_from]. by rewrite Ht.
Qed.

Lemma check_node_seen name start steps initial ni url w w' :
  check_node name start steps initial (ni, url) w = (Ok None, w') → balanced w w' url initial.
Proof.
  unfold check_node. intros (r & w1 & Hr & Hw)%st_bind_Ok. apply st_bind_Ok in Hw as (bal & w2 & Hb & Hw).
  destruct r as [x|e|]; [|done..]. injection Hb as <- <-.
  apply st_bind_Ok in Hw as (total & w3 & Ht & Hw). apply st_bind_Ok in Hw as (? & w4 & Hp & Hw).
  destruct (Z.eqb_spec total initial) as [->|]; [|done]. injection Hw as <-.
  assert (later w3 w4) by (refine (ends_later _ _ _ _ _ Hp); ends_tac).
  assert (later w1 w3) by (refine (ends_later _ _ _ _ _ Ht); apply add_balances_ends).
  assert (later w w1) by (refine (ends_later _ _ _ _ _ Hr); ends_tac).
  apply add_balances_seen in Ht as (bs & Hbs & Hsum). exists (br_balance x), bs. split_and!; [| |done].
  - eapply seen_widen; [reflexivity| |by apply seen_request]. by etrans.
  - eapply Forall2_impl; [exact Hbs|]. intros b y. by apply seen_widen.
Qed.

Lemma each_Ok {A B} (f : A → M B) l w ys w' :
  (∀ x, ends (f x)) → each f l w = (Ok ys, w') → length ys = length l ∧
  ∀ i x y, l !! i = Some x → ys !! i = Some y → ∃ w1 w2, later w w1 ∧ f x w1 = (Ok y, w2) ∧ later w2 w'.
Proof.
  intros Hf. revert w ys w'. induction l as [|x l IH]; intros w ys w'; cbn [each]; [by intros [= <- <-]|].
  intros (y & w1 & Hy & Hw)%st_bind_Ok. apply st_bind_Ok in Hw as (ys' & w2 & Hys & Hr). injection Hr as <- <-.
  pose proof (ends_later _ _ _ _ (Hf x) Hy). pose proof (ends_later _ _ _ _ (ends_each failed f l Hf) Hys).
  apply IH in Hys as [Hlen Hall]. split; [cbn; lia|]. intros [|i] x' y'; cbn.
  - intros [= <-] [= <-]. by exists w, w1.
  - intros Hx Hy'. destruct (Hall i x' y' Hx Hy') as (w3 & w4 & Hl3 & Hrun & Hl4).
    exists w3, w4. split_and!; [by etrans|done..].
Qed.

Lemma omap_id_nil {A} (l : list (option A)) i x : omap id l = [] → l !! i = Some x → x = None.
Proof.
  revert i. induction l as [|y l IH]; intros i Ho; [done|]. destruct y as [y|]; [done|].
  destruct i as [|i]; cbn; [by intros [= <-]|by apply IH].
Qed.

Lemma balance_conservation_seen ports w r w' :
  scenario_balance_conservation ports w = (Ok r, w') →
  all_seen w w' ports (zip conservation_recipients conservation_amounts) ∧
  ∃ initial, ∀ url, url ∈ ports →
    seen w w' url (as_str funder_addr) initial ∧ balanced w w' url initial.
Proof.
  unfold scenario_balance_conservation, conservation_transfers. intros Hw. run_steps Hw.
  case_match; [done|]. run_steps Hw.
  lazymatch goal with
  | Ha : wait_until _ _ _ _ _ _ = (Ok ?b, _) |- _ =>
      destruct b; cbn [negb] in Hw; [|exfalso; run_steps Hw; discriminate Hw]
  end.
  run_steps Hw. case_match; [|done]. run_steps Hw. injection Hw as _ <-.
  repeat lazymatch goal with
  | Ha : each (conservation_send _ _ _ _ _) _ _ = _ |- _ => clear Ha
  | Ha : initial_total _ _ _ _ = _ |- _ => pose proof (initial_total_seen _ _ _ _ _ _ Ha) as Hinit; clear Ha
  | Ha : each (check_node _ _ _ _) _ _ = _ |- _ =>
      apply each_Ok in Ha as [Hlen Hchecks]; [|intros x; apply check_node_ends]
  | Ha : wait_until _ _ _ _ _ _ = _ |- _ =>
      eapply wait_seen in Ha; [|..|intros ? ?; apply first_unconfirmed_all; by repeat constructor];
        [|in_order|in_order|auto with polls]
  end.
  split; [by eapply all_seen_widen; [|exact Ha1|]; in_order|].
  eexists. intros url Hu. split; [by eapply seen_widen; [| |exact (Hinit url Hu)]; in_order|].
  apply list_elem_of_lookup in Hu as [i Hi]. unfold enumerate in Hlen. rewrite length_imap in Hlen.
  lazymatch goal with Hnil : omap id ?l = [] |- _ =>
    destruct (lookup_lt_is_Some_2 l i) as [y Hy]; [apply lookup_lt_Some in Hi; lia|];
    pose proof (omap_id_nil _ _ _ Hnil Hy) as -> end.
  destruct (Hchecks i (i, url) None) as (v1 & v2 & Hv1 & Hrun & Hv2); [|done|].
  { unfold enumerate. by rewrite list_lookup_imap, Hi. }
  apply check_node_seen in Hrun. by eapply balanced_widen; [| |exact Hrun]; in_order.
Qed.

(** *** The flood and the malformed transactions *)

Lemma flood_txs_amounts utxos spent txs ks l :
  flood_txs utxos spent txs ks = Ok l → Forall (fun t => t.2 = AMOUNT) txs → Forall (fun t => t.2 = AMOUNT) l.
Proof.
  revert spent txs. induction ks as [|k ks IH]; intros spent txs; cbn [flood_txs]; [by intros [= <-]|].
  destruct (select_coins _ _) as [sel|e|]; [|apply IH|done].
  destruct (build_transfer _ _ _ _ _) as [tx|e|]; [|apply IH|done].
  intros Hl Ht. apply IH in Hl; [done|]. apply Forall_app. by repeat constructor.
Qed.

(** The answer of a node to the submission of a transaction of the flood. *)
Definition flood_answer (w w' : W) (url : string) (t : Transaction * Address * Z) (o : option (Address * Z)) : Prop :=
  ∃ r, answered w w' (cl_post (client_of url) t.1.1) r ∧ o = if is_ok r then Some (t.1.2, t.2) else None.

Lemma flood_answers_heard url txs w os w' :
  each (flood_one (client_of url)) txs w = (Ok os, w') → Forall2 (flood_answer w w' url) txs os.
Proof.
  intros He. apply each_Ok in He as [Hlen Hall].
  2: { intros t. unfold flood_one. apply ends_bind; [apply ends_request; intros ?; apply post_later|intros; apply ends_ret]. }
  apply Forall2_same_length_lookup_2; [done|]. intros i t o Ht Ho.
  destruct (Hall i t o Ht Ho) as (w1 & w2 & Hl1 & Hone & Hl2).
  apply st_bind_Ok in Hone as (r & w3 & Hr & Ho'). injection Ho' as <- <-. exists r. split; [|done].
  eapply answered_widen; [exact Hl1|exact Hl2|]. by eapply request_answered.
Qed.

Lemma two_blocks_heard url t w w' :
  two_blocks_later url t w = (Ok None, w') →
  ∃ tip need, answered w w' (cl_tip (client_of url)) (Ok tip) ∧
    u64_add (E := Stop ScenarioResult) t 2 = Ok need ∧ need ≤ tr_height tip.
Proof.
  unfold two_blocks_later. intros (r & w1 & Hr & Hw)%st_bind_Ok. apply request_answered in Hr.
  destruct r as [tip|e|]; [|done..]. apply st_bind_Ok in Hw as (need & w2 & Hn & Hw). injection Hn as Hn <-.
  destruct (Z.leb_spec need (tr_height tip)); [|done]. injection Hw as <-. by exists tip, need.
Qed.

(** What a passing flood has heard: the first node's listing, its tip, its answers
    to the transactions built from the listing, a tip two blocks further, and at
    every node the amounts of the transactions that were accepted. *)
Definition flood_seen (w w' : W) (ports : list string) : Prop :=
  ∃ url us tip txs os tip' need,
    ports !! 0%nat = Some url ∧
    answered w w' (cl_utxos (client_of url) (as_str funder_addr)) (Ok us) ∧
    flood_txs us ∅ [] (seq 0 TX_COUNT) = Ok txs ∧
    Forall2 (flood_answer w w' url) txs os ∧
    answered w w' (cl_tip (client_of url)) (Ok tip) ∧
    u64_add (E := Stop ScenarioResult) (tr_height tip) 2 = Ok need ∧
    answered w w' (cl_tip (client_of url)) (Ok tip') ∧ need ≤ tr_height tip' ∧
    all_seen w w' ports (omap id os).

(** What a passing run of [invalid_tx_rejection] has heard: a listing with an output
    of the funder, and the rejection by every node of the three transactions made
    from it. *)
Definition rejections_seen (w w' : W) (ports : list string) : Prop :=
  ∃ url u us h more,
    ports !! 0%nat = Some url ∧
    answered w w' (cl_utxos (client_of url) (as_str funder_addr)) (Ok (u :: us)) ∧
    hex_to_hash (ui_tx_hash u) = Ok h ∧ u64_add (E := Stop ScenarioResult) (ui_amount u) 1 = Ok more ∧
    let r := mkTxOutRef h (ui_index u) in
    ∀ tx, tx ∈ [unsigned_tx r (ui_amount u `div` 2) (recipient_addr 0xB1);
                signed_by_funder (unsigned_tx r more (recipient_addr 0xB2));
                signed_by_funder (unsigned_tx (mkTxOutRef (replicate 32 xde) 0) 1000 (recipient_addr 0xB3))] →
      ∀ node, node ∈ ports → ∃ e, answered w w' (cl_post (client_of node) tx) (Err e).

Lemma reject_case_heard start ports steps case tx w steps' w' :
  reject_case start ports steps case tx w = (Ok steps', w') →
  ∀ node, node ∈ ports → ∃ r, answered w w' (cl_post (client_of node) tx) r ∧ is_ok r = false.
Proof.
  unfold reject_case, assert_all_reject. intros (r & w1 & Hr & Hw)%st_bind_Ok node Hnode.
  assert (later w1 w') as Hl by (refine (ends_later _ _ _ _ _ Hw); ends_tac).
  apply st_bind_Ok in Hr as (rs & w2 & Hj & Hr). injection Hr as Hr <-.
  change (fun u => request (E := Stop ScenarioResult) (cl_post (client_of u) tx))
    with (fun u => request (E := Stop ScenarioResult) ((fun u => cl_post (client_of u) tx) u)) in Hj.
  apply (join_all_answered (fun u => cl_post (client_of u) tx)) in Hj as [Hall _]; [|intros u ?; apply post_later].
  apply list_elem_of_lookup in Hnode as [i Hi]. destruct (Forall2_lookup_l _ _ _ _ _ Hall Hi) as (x & Hx & Ha).
  exists x. split; [by eapply answered_widen|]. destruct (is_ok x) eqn:Hok; [|done]. exfalso.
  destruct (filter (fun r => is_ok r = true) rs) as [|y l] eqn:Hf.
  - apply list_elem_of_lookup_2 in Hx. apply (not_elem_of_nil x). rewrite <- Hf. by apply list_elem_of_filter.
  - subst r. cbn in Hw. apply st_bind_Ok in Hw as (? & ? & Hor & _). cbn in Hor. by apply st_bind_Ok in Hor as (? & ? & _ & ?).
Qed.

(** One operation of a run, by name. *)
Tactic Notation "run_named" hyp(H) ident(x) ident(w1) ident(Hx) ident(Hl) :=
  cbv beta zeta in H; apply st_bind_Ok in H as (x & w1 & Hx & H);
  lazymatch type of Hx with
  | _ ?w = _ => assert (Hl : later w w1) by (refine (ends_later _ _ _ _ _ Hx); ends_tac)
  end.

Lemma item_at_Ok {A} (l : list A) i w x w' : item_at (W := W) l i w = (Ok x, w') → l !! i = Some x ∧ w' = w.
Proof. unfold item_at, reads. destruct (l !! i); by intros [= -> ->]. Qed.
Lemma reads_Ok {A} (f : W → Res (Stop ScenarioResult) A) w a w' : reads f w = (Ok a, w') → f w = Ok a ∧ w' = w.
Proof. by intros [= -> ->]. Qed.
Lemma or_else_fail {E A} (r : Res E A) a b c (d : E → string) w x w' :
  or_else (W := W) r (fun e => return_fail a b c (d e)) w = (Ok x, w') → r = Ok x ∧ w' = w.
Proof. destruct r as [y|y|]; [by intros [= -> ->]|done..]. Qed.

Lemma mempool_flood_seen ports w r w' :
  scenario_mempool_flood ports w = (Ok r, w') → flood_seen w w' ports.
Proof.
  unfold scenario_mempool_flood. intros Hw. run_step Hw. run_step Hw.
  run_named Hw url v2 Hurl Kl2. apply item_at_Ok in Hurl as [Hurl ->].
  run_named Hw r1 v3 Hus Kl3. apply request_answered in Hus.
  run_named Hw us v4 Hr1 Kl4. apply or_else_fail in Hr1 as [-> ->].
  run_named Hw r2 v5 Htip Kl5. apply request_answered in Htip.
  run_named Hw tip v6 Hr2 Kl6. apply or_else_fail in Hr2 as [-> ->].
  run_named Hw txs v7 Htxs Kl7. apply reads_Ok in Htxs as [Htxs ->].
  run_step Hw. run_step Hw. run_named Hw os v8 Hos Kl8. apply flood_answers_heard in Hos.
  run_step Hw. run_step Hw. run_step Hw. run_named Hw done1 v9 Hwait Kl9.
  destruct done1; cbn [negb] in Hw; [|exfalso; run_steps Hw; discriminate Hw].
  apply wait_until_true in Hwait as (v10 & Kl10 & Hwait); [|solve [auto with polls]].
  apply two_blocks_heard in Hwait as (tip' & need & Htip' & Hneed & Hle).
  run_step Hw. run_step Hw. run_named Hw done2 v11 Hver Kl11.
  destruct done2; cbn [negb] in Hw; [|exfalso; run_steps Hw; discriminate Hw].
  run_steps Hw. injection Hw as _ <-.
  exists url, us, tip, txs, os, tip', need. split_and!; try done.
  - eapply answered_widen; [| |exact Hus]; in_order.
  - eapply Forall2_impl; [exact Hos|]. intros t o (x & Hx & Ho). exists x. split; [|done].
    eapply answered_widen; [| |exact Hx]; in_order.
  - eapply answered_widen; [| |exact Htip]; in_order.
  - eapply answered_widen; [| |exact Htip']; in_order.
  - eapply (wait_seen _ _ _ _ _ _ _ _ _ _ _ Hver); [in_order|in_order|solve [auto with polls]|].
    intros ? ?. apply first_unconfirmed_all. apply flood_txs_amounts in Htxs; [|done].
    clear -Htxs Hos. induction Hos as [|t o ts os (x & _ & ->) _ IH]; [constructor|].
    apply Forall_cons in Htxs as [Ht Hts]. cbn. destruct (is_ok x); [|by apply IH].
    constructor; [cbn; by rewrite Ht|by apply IH].
Qed.

Lemma invalid_tx_rejection_seen ports w r w' :
  scenario_invalid_tx_rejection ports w = (Ok r, w') → rejections_seen w w' ports.
Proof.
  unfold scenario_invalid_tx_rejection. intros Hw. run_step Hw. run_step Hw.
  run_named Hw url v2 Hurl Kl2. apply item_at_Ok in Hurl as [Hurl ->].
  run_named Hw r1 v3 Hus Kl3. apply request_answered in Hus.
  run_named Hw us v4 Hr1 Kl4. apply or_else_fail in Hr1 as [-> ->]. run_step Hw.
  run_named Hw u v5 Hu Kl5. apply item_at_Ok in Hu as [Hu ->]. destruct us as [|u' us]; [done|]. injection Hu as ->.
  run_named Hw h v6 Hh Kl6. apply or_else_fail in Hh as [Hh ->]. do 4 run_step Hw.
  run_named Hw s1 v7 Hc1 Kl7. run_step Hw. run_named Hw more v8 Hmore Kl8. apply reads_Ok in Hmore as [Hmore ->].
  run_named Hw s2 v9 Hc2 Kl9. run_step Hw. run_named Hw s3 v10 Hc3 Kl10. run_steps Hw. injection Hw as _ <-.
  exists url, u, us, h, more. split_and!; try done.
  { eapply answered_widen; [| |exact Hus]; in_order. }
  assert (Hcase : ∀ tx w1 w2, later w w1 → later w2 v10 →
    (∀ node, node ∈ ports → ∃ r, answered w1 w2 (cl_post (client_of node) tx) r ∧ is_ok r = false) →
    ∀ node, node ∈ ports → ∃ r, answered w v10 (cl_post (client_of node) tx) r ∧ is_ok r = false).
  { intros tx v1 v2 Hv1 Hv2 Hall node Hnode. destruct (Hall node Hnode) as (x & Hx & Hok). exists x.
    split; [by eapply answered_widen|done]. }
  intros r1 tx Htx node Hnode. subst r1.
  assert (∃ x, answered w v10 (cl_post (client_of node) tx) x ∧ is_ok x = false) as (x & Hx & Hok).
  { rewrite !elem_of_cons in Htx. destruct Htx as [->|[->|[->|[]%not_elem_of_nil]]];
      [eapply Hcase; [| |by eapply reject_case_heard, Hc1|done]|eapply Hcase; [| |by eapply reject_case_heard, Hc2|done]
      |eapply Hcase; [| |by eapply reject_case_heard, Hc3|done]]; in_order. }
  destruct x as [y|e|]; [done|by exists e|]. by destruct Hx as (? & _ & _ & ? & _).
Qed.
(** What a passing scenario has heard besides the payments it waits for. *)
Definition heard_besides (name : string) (w w' : W) (ports : list string) : Prop :=
  if bool_decide (name = "mempool_flood"%string) then flood_seen w w' ports
  else if bool_decide (name = "balance_conservation"%string) then
    ∃ initial, ∀ url, url ∈ ports → seen w w' url (as_str funder_addr) initial ∧ balanced w w' url initial
  else if bool_decide (name = "invalid_tx_rejection"%string) then rejections_seen w w' ports
  else True.

Definition scenario_names : list string :=
  ["single_transfer"; "concurrent_sends"; "double_spend"; "mempool_flood"; "balance_conservation"; "invalid_tx_rejection"].

Lemma flood_seen_widen w0 w w' w3 ports : later w0 w → later w' w3 → flood_seen w w' ports → flood_seen w0 w3 ports.
Proof.
  intros Hb Ha (url & us & tip & txs & os & tip' & need & Hu & Hus & Htxs & Hos & Htip & Hn & Htip' & Hle & Hs).
  exists url, us, tip, txs, os, tip', need. split_and!; try done; [by eapply answered_widen| |by eapply answered_widen..|].
  - eapply Forall2_impl; [exact Hos|]. intros t o (x & Hx & Ho). exists x. split; [|done]. by eapply answered_widen.
  - by eapply all_seen_widen.
Qed.

Lemma rejections_seen_widen w0 w w' w3 ports :
  later w0 w → later w' w3 → rejections_seen w w' ports → rejections_seen w0 w3 ports.
Proof.
  intros Hb Ha (url & u & us & h & more & Hu & Hus & Hh & Hm & Hall). exists url, u, us, h, more.
  split_and!; try done; [by eapply answered_widen|]. intros r tx Htx node Hnode.
  destruct (Hall tx Htx node Hnode) as [e He]. exists e. by eapply answered_widen.
Qed.

Lemma heard_besides_widen name w0 w w' w3 ports :
  later w0 w → later w' w3 → heard_besides name w w' ports → heard_besides name w0 w3 ports.
Proof.
  intros Hb Ha. unfold heard_besides. repeat case_bool_decide.
  - by apply flood_seen_widen.
  - intros [t Ht]. exists t. intros url Hu. destruct (Ht url Hu) as [Hi Hbal].
    split; [by eapply seen_widen|by eapply balanced_widen].
  - by apply rejections_seen_widen.
  - done.
Qed.

(** C16: a scenario that passed is one of the six, and has heard what its pass
    stands for.  The four that wait for fixed payments have seen every node
    answer, during the run, exactly those balances (the recipients' keys are
    fixed, so they cannot pass once a node shows any other balance);
    [balance_conservation] has also seen the funder's balance at every node, and
    afterwards balances of the funder and the recipients that add up to it;
    [mempool_flood] has seen the tip rise by two and every node show the amount of
    each transaction that the first node took; and in [invalid_tx_rejection] every
    node has answered each of the three malformed transactions with an error. *)
Theorem scenario_pass_seen name ports w r w' :
  run_scenario name ports w = (Ok r, w') → sr_status r = Pass →
  name ∈ scenario_names ∧ all_seen w w' ports (awaited name) ∧ heard_besides name w w' ports.
Proof.
  unfold run_scenario. intros Hw Hpass. run_step Hw.
  apply st_bind_Ok in Hw as (result & w1 & Hrun & Hw). run_steps Hw. injection Hw as -> <-.
  assert (Hres : scenario_of name ports w0 = (Ok r, w1)).
  { pose proof (scenario_of_ends name ports w0) as [_ He]. unfold returned in Hrun.
    destruct (scenario_of name ports w0) as [[x|[x|]|] w3]; cbn in He; [done|..|done|done].
    injection Hrun as -> _. done. }
  assert (Hl' : later w1 w2) by in_order. clear Hrun.
  enough (Hs : name ∈ scenario_names ∧ all_seen w0 w1 ports (awaited name) ∧ heard_besides name w0 w1 ports).
  { destruct Hs as (Hn & Hs & Hh). split_and!; [done|by eapply all_seen_widen|by eapply heard_besides_widen]. }
  assert (Hnil : all_seen w0 w1 ports []) by by intros ? ? Hin; apply elem_of_nil in Hin.
  revert Hres. unfold scenario_of, awaited, heard_besides, scenario_names. repeat case_bool_decide; try (subst name; done); intros Hres.
  - subst. split_and!; [set_solver|by apply single_transfer_seen in Hres|done].
  - subst. split_and!; [set_solver|by apply concurrent_sends_seen in Hres|done].
  - subst. split_and!; [set_solver|by apply double_spend_seen in Hres|done].
  - subst. split_and!; [set_solver|done|by apply mempool_flood_seen in Hres].
  - subst. apply balance_conservation_seen in Hres as [Hs Hb]. split_and!; [set_solver|done|done].
  - subst. split_and!; [set_solver|done|by apply invalid_tx_rejection_seen in Hres].
  - injection Hres as <- _. done.
Qed.

End ending.

(** ** Reports *)

Section reports.
Context `{Crypto} `{CoreJson} `{BuildProfile} `{UnstableSort}.
Context {W : Type} `{!World W, !WorldLaws W, !Tool W, !ToolLaws W}.

Lemma publish_Ok {E} scn step status detail w :
  ∃ w', publish_step (E := E) scn step status detail w = (Ok tt, w') ∧ later w w' ∧
    sent (bus w') = sent (bus w) ++
      [mkWsEnvelope (next_seq (bus w)) "visualizer" (utc_now w) (ScenarioEvent scn step status detail)].
Proof.
  eexists. split; [done|]. split; [|by rewrite bus_set_bus].
  apply set_bus_later. by eexists.
Qed.

(** An event of the tool about a scenario. *)
Definition reports (e : WsEnvelope) (scn step status : string) : Prop :=
  ws_node e = "visualizer"%string ∧ ∃ detail, ws_event e = ScenarioEvent scn step status detail.

Definition verdict (r : ScenarioResult) : string :=
  if bool_decide (sr_status r = Pass) then "pass" else "fail".

(** C17: every run of a scenario ends, whatever the nodes answer and however slowly
    (or its task panics); it is announced first, and its result is the last event
    it sends, with the status of the result. *)
Theorem run_scenario_ends name ports w :
  let '(r, w') := run_scenario name ports w in
  later w w' ∧
  match r with
  | Ok result => ∃ first middle last, sent (bus w') = sent (bus w) ++ first :: middle ++ [last] ∧
      reports first name "init" "start" ∧ reports last name "done" (verdict result)
  | Err _ => False
  | Panic => True
  end.
Proof.
  unfold run_scenario, mbind, ST_bind.
  destruct (publish_Ok (E := Stop ScenarioResult) name "init" "start" "Scenario started" w)
    as (w1 & -> & Hl1 & Hs1).
  destruct (ends_returned _ (const False) _ (scenario_of_ends name ports) w1) as [Hl2 Hr].
  destruct (returned (scenario_of name ports) w1) as [[result|[e|]|] w2]; cbn [fst snd stops_in] in *;
    [|done..|by split; [etrans|]].
  destruct (publish_Ok (E := Stop ScenarioResult) name "done" (verdict result)
    ("Completed in " +:+ pretty (sr_elapsed_ms result) +:+ "ms") w2) as (w3 & Hp & Hl3 & Hs3).
  unfold verdict in Hp. rewrite Hp. split; [by repeat (etrans; [eassumption|])|].
  apply later_sent in Hl2 as [middle Hm]. rewrite Hs3, Hm, Hs1, <- !app_assoc. cbn [app].
  eexists _, middle, _. split; [done|]. split; (split; [done|eauto]).
Qed.
End reports.
