(* ===== verification/VisServer.v ===== *)
(** * The visualizer's server ([bcc-visualizer/src/server.rs], [main.rs], [node_client.rs])

    How a connection is told to be a WebSocket or an HTTP request, the routes,
    the URLs the tool derives from its arguments, and the relay of a node's
    events onto the bus.  The request line is bytes, as the connection delivers
    them. *)

From Stdlib Require Import Ascii.
From S2P Require Import Prelude Bytes DebugEvent Api Http EventBus.

(** ** Strings *)

(** The first character of some bytes: whether it is valid, and how many bytes it
    takes; of an invalid one, how many bytes are replaced together. *)
Definition first_char (b1 : byte) (rest : list byte) : bool * nat :=
  if between 0 0x7F b1 then (true, 1%nat)
  else match rest with
  | [] => (false, 1%nat)
  | b2 :: r2 =>
      if between 0xC2 0xDF b1 && continuation b2 then (true, 2%nat)
      else if second3 b1 b2 then
        match r2 with
        | b3 :: _ => if continuation b3 then (true, 3%nat) else (false, 2%nat)
        | [] => (false, 2%nat)
        end
      else if second4 b1 b2 then
        match r2 with
        | b3 :: r3 =>
            if continuation b3 then
              match r3 with
              | b4 :: _ => if continuation b4 then (true, 4%nat) else (false, 3%nat)
              | [] => (false, 3%nat)
              end
            else (false, 2%nat)
        | [] => (false, 2%nat)
        end
      else (false, 1%nat)
  end.

(** U+FFFD *)
Definition REPLACEMENT : list byte := [xef; xbf; xbd].

(** [String::from_utf8_lossy]; every turn takes at least a byte. *)
Fixpoint lossy (fuel : nat) (bs : list byte) : list byte :=
  match fuel, bs with
  | S fuel, b :: rest =>
      let '(valid, n) := first_char b rest in
      (if valid then take n bs else REPLACEMENT) ++ lossy fuel (drop n bs)
  | _, _ => []
  end.
Definition from_utf8_lossy (bs : list byte) : list byte := lossy (length bs) bs.

(** [s.lines().next().unwrap_or("")] *)
Definition drop_cr (l : list byte) : list byte :=
  match reverse l with b :: l' => if between 13 13 b then reverse l' else l | [] => [] end.
Definition first_line (bs : list byte) : list byte :=
  match split_line bs with
  | Some (l, _) => drop_cr (take (length l - 1) l)
  | None => bs
  end.

Definition starts_with (p l : list byte) : bool := bool_decide (take (length p) l = p).
(** [str::contains] *)
Fixpoint contains (p l : list byte) : bool :=
  starts_with p l || match l with [] => false | _ :: l' => contains p l' end.
(** [trim_end_matches('/')] *)
Fixpoint drop_slashes (l : list byte) : list byte :=
  match l with
  | b :: l' => if between 47 47 b then drop_slashes l' else l
  | [] => []
  end.
Definition trim_end_slashes (l : list byte) : list byte := reverse (drop_slashes (reverse l)).

(** [str::split(sep)] for a character of one byte. *)
Fixpoint split_on (sep : Z) (l : list byte) : list (list byte) :=
  match l with
  | [] => [[]]
  | b :: l' =>
      if between sep sep b then [] :: split_on sep l'
      else match split_on sep l' with
           | part :: parts => (b :: part) :: parts
           | [] => [[b]]
           end
  end.
(** [str::rsplit_once(sep)] *)
Fixpoint rsplit_once (sep : Z) (l : list byte) : option (list byte * list byte) :=
  match l with
  | [] => None
  | b :: l' =>
      match rsplit_once sep l' with
      | Some (before, after) => Some (b :: before, after)
      | None => if between sep sep b then Some ([], l') else None
      end
  end.
Definition strip_prefix (p l : list byte) : option (list byte) :=
  if starts_with p l then Some (drop (length p) l) else None.
Definition strip_suffix (p l : list byte) : option (list byte) :=
  if bool_decide (drop (length l - length p) l = p) then Some (take (length l - length p) l) else None.
(** [str::parse::<u16>] *)
Definition parse_u16 (l : list byte) : option Z :=
  v ← parse_usize l; if v <? 2 ^ 16 then Some v else None.

(** ** Connections ([server.rs]) *)

Definition PEEK_BUF : nat := 4096.
Definition upgrade : list byte := text "upgrade: websocket".

(** [preview.windows(18).any(|w| w.eq_ignore_ascii_case(b"upgrade: websocket"))] *)
Definition is_ws (preview : list byte) : bool := contains upgrade (lower_byte <$> preview).

Definition http_200 (content_type : string) (body : list byte) : list byte :=
  let header :=
    "HTTP/1.1 200 OK" +:+ CRLF +:+
    "Content-Type: " +:+ content_type +:+ CRLF +:+
    "Content-Length: " +:+ pretty (length body) +:+ CRLF +:+
    "Access-Control-Allow-Origin: *" +:+ CRLF +:+
    "Connection: close" +:+ CRLF +:+ CRLF in
  text header ++ body.

Definition options_204 : list byte :=
  text ("HTTP/1.1 204 No Content" +:+ CRLF +:+ "Access-Control-Allow-Origin: *" +:+ CRLF +:+
        "Access-Control-Allow-Methods: GET, POST" +:+ CRLF +:+ "Connection: close" +:+ CRLF +:+ CRLF).
Definition not_found_404 : list byte :=
  text ("HTTP/1.1 404 Not Found" +:+ CRLF +:+ "Content-Length: 0" +:+ CRLF +:+
        "Connection: close" +:+ CRLF +:+ CRLF).

Definition extract_path_tail (line prefix : list byte) : list byte :=
  let after_method := match split_space line with Some (_, rest) => rest | None => [] end in
  let path := match split_space after_method with Some (p, _) => p | None => after_method end in
  trim_end_slashes (default [] (strip_prefix prefix path)).

Definition scenario_prefix : list byte := text "/api/scenario/".

(** [{"status":"started","scenario":"NAME"}] *)
Definition quote : string := String (ascii_of_nat 34) EmptyString.
Definition quoted (s : string) : string := quote +:+ s +:+ quote.
Definition started_body (name : list byte) : list byte :=
  text ("{" +:+ quoted "status" +:+ ":" +:+ quoted "started" +:+ "," +:+ quoted "scenario" +:+ ":" +:+ quote)
  ++ name ++ text (quote +:+ "}").

Section server.
(** The page, and the rendering of events as JSON. *)
Context (INDEX_HTML : list byte) (events_to_vec : list WsEnvelope → list byte).

(** The response, and the scenario a task is spawned for. *)
Definition vis_route (line : list byte) (bus : EventBus) : list byte * option (list byte) :=
  if starts_with (text "GET / ") line || bool_decide (line = text "GET / HTTP/1.1")
  then (http_200 "text/html; charset=utf-8" INDEX_HTML, None)
  else if contains (text "/api/events") line
  then (http_200 "application/json" (events_to_vec (EventBus.recent_sync bus)), None)
  else
    let name := extract_path_tail line scenario_prefix in
    if starts_with (text "POST /api/scenario/") line && negb (bool_decide (name = []))
    then (http_200 "application/json" (started_body name), Some name)
    else if starts_with (text "OPTIONS") line then (options_204, None)
    else (not_found_404, None).
Definition handle_http (preview : list byte) (bus : EventBus) : list byte * option (list byte) :=
  vis_route (first_line (from_utf8_lossy preview)) bus.

(** What becomes of a connection on which [arrived] can be peeked. *)
Inductive Served := WebSocket | Answered (response : list byte) (scenario : option (list byte)).
Definition handle_connection (arrived : list byte) (bus : EventBus) : Served :=
  let preview := take PEEK_BUF arrived in
  if is_ws preview then WebSocket
  else let '(response, started) := handle_http preview bus in Answered response started.
End server.

(** ** Arguments ([main.rs]) *)

Definition node_name (i : nat) : string := "node" +:+ pretty (i + 1)%nat.
Definition numbered {A} (l : list A) : list (nat * A) := imap pair l.

Section arguments.
Context `{BuildProfile}.

(** [p + 1000] on [u16] *)
Definition ws_port (p : Z) : Res Empty_set Z :=
  if p + 1000 <? 2 ^ 16 then Ok (p + 1000)
  else if overflow_checks then Panic else Ok ((p + 1000) `mod` 2 ^ 16).

Definition ws_url (p : Z) : list byte := text ("ws://127.0.0.1:" +:+ pretty p +:+ "/debug").

(** The nodes' names and debug URLs. *)
Fixpoint port_urls (parts : list (nat * list byte)) : Res Empty_set (list (string * list byte)) :=
  match parts with
  | [] => Ok []
  | (i, s) :: parts' =>
      match parse_u16 (trim s) with
      | None => port_urls parts'
      | Some p =>
          wp ← ws_port p;
          rest ← port_urls parts';
          Ok ((node_name i, ws_url wp) :: rest)
      end
  end.
Definition node_urls (debug_urls : option (list byte)) (node_ports : list byte) :
    Res Empty_set (list (string * list byte)) :=
  match debug_urls with
  | Some raw => Ok ((fun iu => (node_name iu.1, trim iu.2)) <$> numbered (split_on 44 raw))
  | None => port_urls (numbered (split_on 44 node_ports))
  end.

(** [ws://HOST:PORT/debug] to [http://HOST:(PORT-1000)]; a port that is too small
    becomes zero. *)
Definition http_of_ws (url : list byte) : option (list byte) :=
  u ← strip_prefix (text "ws://") (trim url);
  let u := default u (strip_suffix (text "/debug") u) in
  '(host, port_str) ← rsplit_once 58 u;
  p ← parse_u16 port_str;
  Some (text "http://" ++ host ++ text (":" +:+ pretty (Z.max 0 (p - 1000)))).
Definition scenario_urls (debug_urls : option (list byte)) (node_ports : list byte) : list (list byte) :=
  match debug_urls with
  | Some raw => omap http_of_ws (split_on 44 raw)
  | None =>
      (fun p => text ("http://127.0.0.1:" +:+ pretty p)) <$>
        omap (fun s => parse_u16 (trim s)) (split_on 44 node_ports)
  end.
End arguments.

(** ** The relay ([node_client.rs]) *)

(** What the WebSocket stream delivers. *)
Inductive WsMessage := TextMessage (s : string) | CloseMessage | OtherMessage | StreamError.

Section relay.
(** [serde_json::from_str::<DebugEnvelope>] and the time stamp read and printed
    again by [chrono]. *)
Context (parse_envelope : string → option DebugEnvelope) (parse_ts : string → option string).

(** [run_once] after the connection; [Utc::now()] comes with each message. *)
Fixpoint relay (node : string) (messages : list (string * WsMessage)) (bus : EventBus) : EventBus :=
  match messages with
  | [] => bus
  | (now, TextMessage s) :: messages' =>
      match parse_envelope s with
      | Some env => relay node messages' (EventBus.publish node (default now (parse_ts (ts env))) (event env) bus)
      | None => relay node messages' bus
      end
  | (_, CloseMessage) :: _ | (_, StreamError) :: _ => bus
  | (_, OtherMessage) :: messages' => relay node messages' bus
  end.

Definition run_once (node : string) (connection : option (list (string * WsMessage))) (bus : EventBus) : EventBus :=
  match connection with
  | Some messages => relay node messages bus
  | None => bus
  end.

(** [spawn]: the runs over successive connections, with the waits between them in
    seconds. *)
Fixpoint spawn (node : string) (backoff : Z) (connections : list (option (list (string * WsMessage))))
    (bus : EventBus) : list Z * EventBus :=
  match connections with
  | [] => ([], bus)
  | c :: connections' =>
      let '(waits, bus') := spawn node (Z.min (backoff * 2) 30) connections' (run_once node c bus) in
      (backoff :: waits, bus')
  end.
End relay.

(** ** Request lines *)

Lemma lossy_ascii f l r :
  (length l ≤ f)%nat → Forall (fun b => between 0 0x7F b = true) l →
  lossy f (l ++ r) = l ++ lossy (f - length l) r.
Proof.
  intros Hf Hl. revert f Hf. induction Hl as [|b l Hb _ IH]; intros f Hf; [by rewrite Nat.sub_0_r|].
  destruct f as [|f]; [cbn in Hf; lia|]. cbn [app lossy]. unfold first_char. rewrite Hb.
  cbn [take drop app]. rewrite drop_0, IH by (cbn in Hf; lia). done.
Qed.

(** [from_utf8_lossy] leaves ASCII text as it is, whatever follows. *)
Lemma from_utf8_lossy_ascii l r :
  Forall (fun b => between 0 0x7F b = true) l →
  from_utf8_lossy (l ++ r) = l ++ from_utf8_lossy r.
Proof.
  intros Hl. unfold from_utf8_lossy. rewrite lossy_ascii by (done || (rewrite length_app; lia)).
  rewrite length_app. by replace (length l + length r - length l)%nat with (length r) by lia.
Qed.

Lemma printable_ascii l : printable l → Forall (fun b => between 0 0x7F b = true) l.
Proof. intros Hl. eapply Forall_impl; [exact Hl|]. intros b. rewrite !between_spec. lia. Qed.

Lemma first_line_crlf l rest : printable l → first_line (l ++ crlf ++ rest) = l.
Proof.
  intros Hl. unfold first_line. rewrite split_line_crlf by done.
  rewrite length_app. replace (length l + length crlf - 1)%nat with (length (l ++ [x0d])) by (rewrite length_app; cbn; lia).
  change crlf with ([x0d] ++ [x0a]). rewrite app_assoc, take_app_length.
  unfold drop_cr. rewrite reverse_app. change (reverse [x0d]) with [x0d]. cbn [app].
  change (between 13 13 x0d) with true. cbv iota. by rewrite reverse_involutive.
Qed.

Lemma first_line_of_request line rest :
  printable line → first_line (from_utf8_lossy (line ++ crlf ++ rest)) = line.
Proof.
  intros Hl. rewrite from_utf8_lossy_ascii by by apply printable_ascii.
  rewrite from_utf8_lossy_ascii by by repeat constructor. by apply first_line_crlf.
Qed.

(** A text with a slash after its first byte is not at the start of a word without
    slashes that a space follows. *)
Lemma starts_with_word p1 p2 name rest :
  Forall (fun b => visible b = true) p1 → Forall (fun b => between 47 47 b = false) name →
  starts_with (p1 ++ x2f :: p2) (name ++ x20 :: rest) = false.
Proof.
  intros Hp Hn. apply bool_decide_eq_false. revert p1 Hp. induction Hn as [|c name Hc _ IH]; intros p1 Hp.
  - destruct Hp as [|b p1 Hb _]; cbn; [done|]. intros [= <- _]. done.
  - destruct Hp as [|b p1 Hb Hp]; cbn [app length take].
    + intros [= -> _]. done.
    + intros [= -> He]. by apply (IH p1).
Qed.

Lemma contains_skip p2 name rest :
  Forall (fun b => between 47 47 b = false) name → contains (x2f :: p2) (x20 :: rest) = false →
  contains (x2f :: p2) (name ++ x20 :: rest) = false.
Proof.
  intros Hn Hr. induction Hn as [|c name Hc Hn IH]; [done|]. cbn [app contains]. rewrite IH, orb_false_r.
  change (x2f :: p2) with ([] ++ x2f :: p2). apply (starts_with_word [] p2 (c :: name)); [done|by constructor].
Qed.

Lemma contains_cons p b l : starts_with p (b :: l) = false → contains p l = false → contains p (b :: l) = false.
Proof. intros Hs Hc. cbn [contains]. by rewrite Hs, Hc. Qed.

Definition word (name : list byte) : Prop :=
  name ≠ [] ∧ Forall (fun b => visible b = true ∧ between 47 47 b = false) name.

Definition scenario_line (name : list byte) : list byte :=
  text "POST /api/scenario/" ++ name ++ x20 :: text "HTTP/1.1".

Lemma scenario_line_events name : word name → contains (text "/api/events") (scenario_line name) = false.
Proof.
  intros [_ Hn]. assert (Hs : Forall (fun b => between 47 47 b = false) name).
  { eapply Forall_impl; [exact Hn|]. naive_solver. }
  unfold scenario_line. change (text "POST /api/scenario/") with (text "POST /api/scenario" ++ [x2f]).
  rewrite <- app_assoc. cbn [app].
  assert (Hword : starts_with (text "/api/events") (x2f :: name ++ x20 :: text "HTTP/1.1") = false).
  { apply bool_decide_eq_false. change (text "/api/events") with (x2f :: text "api" ++ x2f :: text "events").
    cbn [length take]. intros [= He]. pose proof (starts_with_word (text "api") (text "events") name (text "HTTP/1.1")
      ltac:(by repeat constructor) Hs) as Hw. apply bool_decide_eq_false in Hw. by apply Hw. }
  assert (Hrest : contains (text "/api/events") (name ++ x20 :: text "HTTP/1.1") = false).
  { by apply contains_skip. }
  assert (Htail : contains (text "/api/events") (x2f :: name ++ x20 :: text "HTTP/1.1") = false).
  { cbn [contains]. by rewrite Hword, Hrest. }
  revert Htail. generalize (x2f :: name ++ x20 :: text "HTTP/1.1") as tl. intros tl Htail.
  change (text "/api/events") with (x2f :: text "api/events") in *.
  let t := eval vm_compute in (text "POST /api/scenario") in change (text "POST /api/scenario") with t.
  cbn [app]. repeat (apply contains_cons; [apply bool_decide_eq_false; cbn; intros [=]|]). exact Htail.
Qed.

Lemma extract_scenario name : word name → extract_path_tail (scenario_line name) scenario_prefix = name.
Proof.
  intros [Hne Hn]. unfold extract_path_tail, scenario_line.
  assert (Hv : Forall (fun b => visible b = true) name) by (eapply Forall_impl; [exact Hn|]; naive_solver).
  change (text "POST /api/scenario/") with (text "POST" ++ x20 :: scenario_prefix). rewrite <- app_assoc. cbn [app].
  rewrite split_space_visible by by repeat constructor. rewrite app_assoc, split_space_visible.
  2: { apply Forall_app. split; [by repeat constructor|done]. }
  unfold strip_prefix, starts_with. rewrite take_app_length, bool_decide_true by done.
  rewrite drop_app_length. unfold trim_end_slashes. cbn [from_option]. unfold id.
  destruct (exists_last Hne) as (name' & b & ->). apply Forall_app in Hn as [_ Hb]. inversion Hb as [|? ? [_ Hs] _]; subst.
  rewrite reverse_app. change (reverse [b]) with [b]. cbn [app drop_slashes]. rewrite Hs.
  change (b :: reverse name') with (reverse [b] ++ reverse name'). by rewrite <- reverse_app, reverse_involutive.
Qed.

Lemma scenario_line_printable name : word name → printable (scenario_line name).
Proof.
  intros [_ Hn]. unfold scenario_line. apply Forall_app. split; [by repeat constructor|].
  apply Forall_app. split; [|by repeat constructor].
  eapply Forall_impl; [exact Hn|]. intros b [Hb _]. revert Hb. unfold visible. rewrite !between_spec. lia.
Qed.

(** *** Framing *)

(** One HTTP message whose announced length, if there is one, is that of its body. *)
Definition vis_framed (resp : list byte) : Prop :=
  (∃ content_type body, split_head resp =
     Some (text ("HTTP/1.1 200 OK" +:+ CRLF +:+ "Content-Type: " +:+ content_type +:+ CRLF +:+
       "Content-Length: " +:+ pretty (length body) +:+ CRLF +:+
       "Access-Control-Allow-Origin: *" +:+ CRLF +:+ "Connection: close"), body)) ∨
  (∃ head, split_head resp = Some (head, [])).

Lemma http_200_framed content_type body : no_cr (text content_type) → vis_framed (http_200 content_type body).
Proof.
  intros Hct. left. exists content_type, body. unfold http_200. pose proof (no_cr_pretty (length body)) as Hlen.
  rewrite !text_app, <- !app_assoc.
  repeat first
    [ apply split_head_crlf; [done|]
    | apply split_head_line; [first [done|by repeat constructor]|] ].
  rewrite <- (app_nil_r (text "Connection: close")) at 2.
  apply split_head_line; [by repeat constructor|]. apply split_head_end.
Qed.

Lemma route_framed html render line bus : vis_framed (vis_route html render line bus).1.
Proof.
  unfold vis_route. cbv zeta.
  destruct (_ || _); [apply http_200_framed; by repeat constructor|].
  destruct (contains _ _); [apply http_200_framed; by repeat constructor|].
  destruct (_ && _); [apply http_200_framed; by repeat constructor|].
  destruct (starts_with _ _); right; eexists; vm_compute; reflexivity.
Qed.

Lemma route_started html render line bus name :
  (vis_route html render line bus).2 = Some name →
  name ≠ [] ∧ starts_with (text "POST /api/scenario/") line = true.
Proof.
  unfold vis_route. destruct (_ || _); [done|]. destruct (contains _ _); [done|].
  destruct (starts_with (text "POST /api/scenario/") line), (bool_decide _) eqn:Hb; cbn [andb negb];
    try (destruct (starts_with (text "OPTIONS") line); done).
  cbn [snd]. intros [= <-]. by apply bool_decide_eq_false in Hb.
Qed.

(** ** The properties *)

(** The request [POST /api/scenario/NAME], with any headers and body behind it,
    starts exactly the scenario [NAME] and is answered with one framed message
    that names it. *)
Theorem scenario_request_starts html render name rest bus :
  word name →
  handle_http html render (scenario_line name ++ crlf ++ rest) bus =
    (http_200 "application/json" (started_body name), Some name) ∧
  vis_framed (http_200 "application/json" (started_body name)).
Proof.
  intros Hn. split; [|apply http_200_framed; by repeat constructor].
  unfold handle_http. rewrite first_line_of_request by by apply scenario_line_printable.
  unfold vis_route. rewrite scenario_line_events, extract_scenario by done.
  rewrite (bool_decide_false (name = [])) by apply Hn. reflexivity.
Qed.

(** Whatever arrives on a connection, the answer is one framed message; and a
    scenario is started only by a request line that begins with its path. *)
Theorem connections_framed html render arrived bus :
  match handle_connection html render arrived bus with
  | WebSocket => is_ws (take PEEK_BUF arrived) = true
  | Answered resp started => vis_framed resp ∧
      ∀ name, started = Some name → name ≠ [] ∧
        starts_with (text "POST /api/scenario/") (first_line (from_utf8_lossy (take PEEK_BUF arrived))) = true
  end.
Proof.
  unfold handle_connection. destruct (is_ws _) eqn:Hws; [done|]. unfold handle_http.
  generalize (first_line (from_utf8_lossy (take PEEK_BUF arrived))) as line. intros line.
  pose proof (route_framed html render line bus) as Hf. pose proof (route_started html render line bus) as Hs.
  destruct (vis_route html render line bus) as [resp started]. split; [exact Hf|exact Hs].
Qed.

(** *** Derived URLs *)

Definition join_with (sep : byte) : list (list byte) → list byte :=
  fix join parts := match parts with
  | [] => []
  | [p] => p
  | p :: parts' => p ++ sep :: join parts'
  end.

Definition free_of (sep : Z) (l : list byte) : Prop := Forall (fun b => between sep sep b = false) l.

Lemma split_on_free sep l : free_of sep l → split_on sep l = [l].
Proof. induction 1 as [|b l Hb _ IH]; [done|]. cbn [split_on]. by rewrite Hb, IH. Qed.

Lemma split_on_app sep c l rest :
  free_of sep l → between sep sep c = true → split_on sep (l ++ c :: rest) = l :: split_on sep rest.
Proof.
  intros Hl Hc. induction Hl as [|b l Hb _ IH]; cbn [app split_on]; [by rewrite Hc|]. by rewrite Hb, IH.
Qed.

(** Splitting inverts joining. *)
Lemma split_on_join sep c parts :
  Forall (free_of sep) parts → between sep sep c = true → parts ≠ [] →
  split_on sep (join_with c parts) = parts.
Proof.
  intros Hp Hc Hne. induction Hp as [|p parts Hfree Hp IH]; [done|].
  destruct parts as [|q parts]; [by apply split_on_free|].
  change (join_with c (p :: q :: parts)) with (p ++ c :: join_with c (q :: parts)).
  by rewrite split_on_app, IH.
Qed.

Lemma pretty_Z_nat (n : nat) : pretty (Z.of_nat n) = pretty n.
Proof. by destruct n. Qed.

Lemma pretty_port p : 0 ≤ p < 2 ^ 16 →
  parse_u16 (text (pretty p)) = Some p ∧ decimal (text (pretty p)) ∧ text (pretty p) ≠ [].
Proof.
  intros Hp. rewrite <- (Z2Nat.id p), pretty_Z_nat by lia.
  destruct (pretty_digits (Z.to_nat p)) as (Hd & Hdec & Hne); [lia|]. split; [|done].
  unfold parse_u16. rewrite Hd. cbn [mbind option_bind]. by rewrite (proj2 (Z.ltb_lt _ _)) by lia.
Qed.

Lemma trim_tight l : tight l → trim l = l.
Proof.
  intros Hl. unfold trim. rewrite <- (app_nil_r l) at 1. rewrite trim_start_tight, app_nil_r by done.
  destruct Hl as [_ (b & l' & -> & Hb)]. unfold trim_end. rewrite length_app, Nat.add_comm.
  cbn [length Nat.add]. rewrite reverse_app. change (reverse [b]) with [b]. cbn [app strip_all].
  rewrite (strip_one_visible _ _ _ (proj2 white_space_invisible) Hb).
  by rewrite reverse_cons, reverse_involutive.
Qed.

Lemma decimal_free sep l : decimal l → sep < 48 ∨ 57 < sep → free_of sep l.
Proof.
  intros Hd Hs. eapply Forall_impl; [exact Hd|]. intros b Hb. apply (between_outside 48 57); [done|lia].
Qed.

Lemma rsplit_once_free sep c host l :
  free_of sep l → between sep sep c = true → rsplit_once sep (host ++ c :: l) = Some (host, l).
Proof.
  intros Hl Hc. assert (Hn : rsplit_once sep l = None).
  { induction Hl as [|b l Hb _ IH]; [done|]. cbn [rsplit_once]. by rewrite IH, Hb. }
  induction host as [|b host IH]; cbn [app rsplit_once]; [by rewrite Hn, Hc|]. by rewrite IH.
Qed.

Lemma starts_with_app p l : starts_with p (p ++ l) = true.
Proof. unfold starts_with. rewrite take_app_length. by apply bool_decide_eq_true. Qed.

Lemma strip_suffix_app p l : strip_suffix p (l ++ p) = Some l.
Proof.
  unfold strip_suffix. rewrite length_app. replace (length l + length p - length p)%nat with (length l) by lia.
  by rewrite drop_app_length, take_app_length, bool_decide_true.
Qed.

Section urls.
Context `{BuildProfile}.

Lemma ws_url_eq p : ws_url p = text "ws://" ++ (text "127.0.0.1" ++ x3a :: text (pretty p)) ++ text "/debug".
Proof. unfold ws_url. rewrite !text_app. change (text "ws://127.0.0.1:") with (text "ws://" ++ text "127.0.0.1" ++ [x3a]). by rewrite <- !app_assoc. Qed.

Lemma ws_url_tight p : tight (ws_url p).
Proof.
  rewrite ws_url_eq. split; [by eexists _, _|].
  exists x67, (text "ws://" ++ (text "127.0.0.1" ++ x3a :: text (pretty p)) ++ text "/debu").
  split; [|done]. change (text "/debug") with (text "/debu" ++ [x67]). by rewrite !app_assoc.
Qed.

Lemma ws_url_free p : 0 ≤ p < 2 ^ 16 → free_of 44 (ws_url p).
Proof.
  intros Hp. destruct (pretty_port p Hp) as (_ & Hd & _). rewrite ws_url_eq.
  repeat (apply Forall_app; split); try by repeat constructor.
  constructor; [done|]. apply decimal_free; [done|lia].
Qed.

(** The HTTP URL of a node's debug URL is the one 1000 ports below. *)
Lemma http_of_ws_url p : 0 ≤ p → p + 1000 < 2 ^ 16 →
  http_of_ws (ws_url (p + 1000)) = Some (text ("http://127.0.0.1:" +:+ pretty p)).
Proof.
  intros Hp Hmax. destruct (pretty_port (p + 1000)) as (Hparse & Hd & _); [lia|].
  unfold http_of_ws. rewrite trim_tight by apply ws_url_tight. rewrite ws_url_eq.
  unfold strip_prefix. rewrite starts_with_app, drop_app_length. cbn [mbind option_bind].
  rewrite strip_suffix_app. cbn [from_option]. unfold id.
  rewrite rsplit_once_free by (done || (apply decimal_free; [done|lia])).
  cbn [mbind option_bind]. rewrite Hparse. cbn [mbind option_bind].
  replace (Z.max 0 (p + 1000 - 1000)) with p by lia. by rewrite !text_app.
Qed.

Definition ports_arg (ps : list Z) : list byte := join_with x2c ((fun p => text (pretty p)) <$> ps).
Definition urls_arg (ps : list Z) : list byte := join_with x2c ((fun p => ws_url (p + 1000)) <$> ps).

Lemma split_ports ps : ps ≠ [] → Forall (fun p => 0 ≤ p < 2 ^ 16) ps →
  split_on 44 (ports_arg ps) = (fun p => text (pretty p)) <$> ps.
Proof.
  intros Hne Hp. apply split_on_join; [|done|by destruct ps]. apply Forall_fmap.
  eapply Forall_impl; [exact Hp|]. intros p Hr. destruct (pretty_port p Hr) as (_ & Hd & _).
  apply decimal_free; [done|lia].
Qed.

Lemma parse_port_part p : 0 ≤ p < 2 ^ 16 → parse_u16 (trim (text (pretty p))) = Some p.
Proof.
  intros Hr. destruct (pretty_port p Hr) as (Hp & Hd & Hne). rewrite trim_tight; [done|].
  by apply decimal_tight.
Qed.

Lemma port_urls_all k ps : Forall (fun p => 0 ≤ p ∧ p + 1000 < 2 ^ 16) ps →
  port_urls (imap (fun i s => ((k + i)%nat, s)) ((fun p => text (pretty p)) <$> ps)) =
    Ok (imap (fun i p => (node_name (k + i), ws_url (p + 1000))) ps).
Proof.
  intros Hp. revert k. induction Hp as [|p ps [H0p Hmax] _ IH]; intros k; [done|].
  rewrite fmap_cons, !imap_cons. cbn [port_urls]. rewrite parse_port_part by lia.
  unfold ws_port. rewrite (proj2 (Z.ltb_lt _ _)) by lia. cbn [mbind Res_bind].
  rewrite (imap_ext _ (fun i s => ((S k + i)%nat, s))) by (intros; cbn; f_equal; lia). rewrite IH.
  cbn [mbind Res_bind]. do 2 f_equal. apply imap_ext. intros. cbn. do 2 f_equal. lia.
Qed.
End urls.

(** The two ways to name the nodes agree: from the list of HTTP ports, and from
    the list of the debug URLs those ports stand for, the tool derives the same
    node names and debug URLs and the same URLs for the scenarios, one per port. *)
Theorem urls_agree `{BuildProfile} ps ports :
  ps ≠ [] → Forall (fun p => 0 ≤ p ∧ p + 1000 < 2 ^ 16) ps →
  node_urls None (ports_arg ps) = Ok (imap (fun i p => (node_name i, ws_url (p + 1000))) ps) ∧
  node_urls (Some (urls_arg ps)) ports = node_urls None (ports_arg ps) ∧
  scenario_urls None (ports_arg ps) = (fun p => text ("http://127.0.0.1:" +:+ pretty p)) <$> ps ∧
  scenario_urls (Some (urls_arg ps)) ports = scenario_urls None (ports_arg ps).
Proof.
  intros Hne Hp. assert (Hp' : Forall (fun p => 0 ≤ p < 2 ^ 16) ps) by (eapply Forall_impl; [exact Hp|]; cbv beta; intros p; lia).
  assert (Hnodes : node_urls None (ports_arg ps) = Ok (imap (fun i p => (node_name i, ws_url (p + 1000))) ps)).
  { unfold node_urls. rewrite split_ports by done. by apply (port_urls_all 0). }
  assert (Hports : scenario_urls None (ports_arg ps) = (fun p => text ("http://127.0.0.1:" +:+ pretty p)) <$> ps).
  { unfold scenario_urls. rewrite split_ports by done. f_equal. clear -Hp'.
    induction Hp' as [|p ps Hr _ IH]; [done|]. rewrite fmap_cons. cbn [omap list_omap].
    rewrite parse_port_part by done. f_equal. exact IH. }
  assert (Hsplit : split_on 44 (urls_arg ps) = (fun p => ws_url (p + 1000)) <$> ps).
  { apply split_on_join; [|done|by destruct ps]. apply Forall_fmap. eapply Forall_impl; [exact Hp|].
    intros p [??]. apply ws_url_free. lia. }
  split_and!; [done| |done|].
  - rewrite Hnodes. unfold node_urls, numbered. rewrite Hsplit, imap_fmap, fmap_imap. f_equal. apply imap_ext.
    intros i p _. unfold compose. cbn [fst snd]. by rewrite trim_tight by apply ws_url_tight.
  - rewrite Hports. unfold scenario_urls. rewrite Hsplit. clear -Hp.
    induction Hp as [|p ps [Hlo Hhi] _ IH]; [done|]. rewrite !fmap_cons. cbn [omap list_omap].
    rewrite http_of_ws_url by done. f_equal. exact IH.
Qed.

(** *** The relay *)

(** The messages before the end of the stream. *)
Fixpoint before_close (messages : list (string * WsMessage)) : list (string * string) :=
  match messages with
  | [] | (_, CloseMessage) :: _ | (_, StreamError) :: _ => []
  | (now, TextMessage s) :: messages' => (now, s) :: before_close messages'
  | (_, OtherMessage) :: messages' => before_close messages'
  end.

(** A connection to a node puts exactly the events the node sent, up to the
    end of the stream, onto the bus, in order and under the node's name; texts
    that are no events are skipped, and the bus keeps its invariant. *)
Theorem relay_faithful parse parse_ts node messages bus :
  (0 < bus_capacity bus)%nat → bus_ok bus →
  ∃ l, sent (relay parse parse_ts node messages bus) = sent bus ++ l ∧
    ws_event <$> l = event <$> omap parse ((before_close messages).*2) ∧
    Forall (fun e => ws_node e = node) l ∧
    bus_ok (relay parse parse_ts node messages bus).
Proof.
  revert bus. induction messages as [|[now [s| | |]] messages IH]; intros bus Hcap Hok; cbn [relay before_close].
  - exists []. by rewrite app_nil_r.
  - rewrite fmap_cons. cbn [omap list_omap snd]. destruct (parse s) as [env|]; [|by apply IH].
    destruct (IH (EventBus.publish node (default now (parse_ts (ts env))) (event env) bus)) as (l & Hs & Hev & Hn & Hb);
      [done|by apply bus_publish_ok|].
    rewrite Hs. cbn [EventBus.publish sent]. rewrite <- app_assoc. cbn [app]. eexists (_ :: l).
    split_and!; [done|by rewrite !fmap_cons, Hev|by constructor|done].
  - exists []. by rewrite app_nil_r.
  - by apply IH.
  - exists []. by rewrite app_nil_r.
Qed.

(** The waits between connections: 2, 4, 8, 16 and then always 30 seconds. *)
Theorem relay_backoff parse parse_ts node connections bus k :
  (k < length connections)%nat →
  (spawn parse parse_ts node 2 connections bus).1 !! k = Some (Z.min (2 ^ (Z.of_nat k + 1)) 30).
Proof.
  assert (Hgen : ∀ b cs bus k, 0 < b ≤ 30 → (k < length cs)%nat →
    (spawn parse parse_ts node b cs bus).1 !! k = Some (Z.min (b * 2 ^ Z.of_nat k) 30)).
  { clear. intros b cs. revert b. induction cs as [|c cs IH]; intros b bus k Hb Hk; [cbn in Hk; lia|].
    cbn [spawn]. destruct (spawn _ _ _ _ cs _) as [waits bus'] eqn:Hs. destruct k as [|k]; cbn [fst lookup list_lookup].
    - f_equal. rewrite Z.mul_1_r. lia.
    - specialize (IH (Z.min (b * 2) 30) (run_once parse parse_ts node c bus) k ltac:(lia) ltac:(cbn in Hk; lia)).
      rewrite Hs in IH. cbn [fst] in IH. change (waits !! k = Some (Z.min (b * 2 ^ Z.of_nat (S k)) 30)). rewrite IH.
      f_equal. rewrite Nat2Z.inj_succ, Z.pow_succ_r by lia.
      pose proof (Z.pow_pos_nonneg 2 (Z.of_nat k)). nia. }
  intros Hk. rewrite Hgen by lia. do 2 f_equal. by rewrite Z.pow_add_r, Z.mul_comm by lia.
Qed.
