(* ===== verification/Stream.v ===== *)
(** * The event streams ([bcc-node/src/debug_ws.rs], [bcc-visualizer/src/server.rs])

    Two WebSocket servers stream the values of a broadcast channel: the node's
    debug server sends a snapshot first, the visualizer's the recent events.  The
    channel is an interface with the documented behaviour of [tokio]'s; the
    theorems account for every event: delivered, reported as dropped, or lost. *)

From S2P Require Import Prelude Bytes DebugEvent EventBus.

(** ** The channel *)

Inductive RecvOutcome (A : Type) := Received (a : A) | LaggedBy (n : nat).
Arguments Received {A}.
Arguments LaggedBy {A}.

(** [tokio::sync::broadcast]: a receiver has a position in everything that was
    sent; [recv] waits ([None]), or delivers the value there, or reports how many
    values were overwritten before they could be read, which happens only when
    more than the capacity is outstanding. *)
Class Broadcast (A : Type) := {
  recv : nat → list A → nat → option (RecvOutcome A);
  recv_received cap sent pos a : recv cap sent pos = Some (Received a) → sent !! pos = Some a;
  recv_lagged cap sent pos n :
    recv cap sent pos = Some (LaggedBy n) → (0 < n)%nat ∧ (pos + n ≤ length sent)%nat ∧
    (cap < length sent - pos)%nat;
  recv_waits cap sent pos : recv cap sent pos = None ↔ (length sent ≤ pos)%nat;
}.

(** ** A connection *)

(** What is written to the client. *)
Inductive Frame (A : Type) := Item (a : A) | Dropped (n : nat).
Arguments Item {A}.
Arguments Dropped {A}.

(** What can happen next: an event is published, or one branch of the
    [tokio::select!] of the connection completes; [ok] says whether a write
    succeeds. *)
Inductive StreamTurn (A : Type) :=
| Publish (a : A)
| Recv (ok : bool)
| ClientMessage
| ClientGone
| SenderGone.
Arguments Publish {A}.
Arguments Recv {A}.
Arguments ClientMessage {A}.
Arguments ClientGone {A}.
Arguments SenderGone {A}.

Record Conn (A : Type) := mkConn {
  channel : list A;
  position : nat;
  frames : list (Frame A);
  is_open : bool;
}.
Arguments mkConn {A}.
Arguments channel {A}.
Arguments position {A}.
Arguments frames {A}.
Arguments is_open {A}.

Section connection.
Context {A : Type} `{!Broadcast A} (capacity : nat).

(** One turn of the loop of [handle] and of [handle_ws]; serialising an event does
    not fail. *)
Definition conn_turn (t : StreamTurn A) (c : Conn A) : Conn A :=
  match t with
  | Publish a => mkConn (channel c ++ [a]) (position c) (frames c) (is_open c)
  | ClientMessage => c
  | ClientGone | SenderGone => mkConn (channel c) (position c) (frames c) false
  | Recv ok =>
      if is_open c then
        match recv capacity (channel c) (position c) with
        | None => c
        | Some (Received a) =>
            if ok then mkConn (channel c) (S (position c)) (frames c ++ [Item a]) true
            else mkConn (channel c) (S (position c)) (frames c) false
        | Some (LaggedBy n) =>
            mkConn (channel c) (position c + n)
              (frames c ++ if ok then [Dropped n] else []) true
        end
      else c
  end.

Definition run_conn (turns : list (StreamTurn A)) (c : Conn A) : Conn A := foldl (fun c t => conn_turn t c) c turns.
End connection.

Section servers.
Context `{!Broadcast DebugEnvelope} `{!Broadcast WsEnvelope}.

(** The capacity of the channel made in [main] of the node, and of the one made
    by [EventBus::new]. *)
Definition DEBUG_CAPACITY : nat := 512.
Definition bus_channel_capacity (bus : EventBus) : nat := bus_capacity bus * 2.

(** [run_debug_ws] and [handle]: the snapshot is built before the subscription;
    [between] is what is published meanwhile. *)
Definition debug_conn (snapshot : DebugEnvelope) (snapshot_sent : bool)
    (before between : list DebugEnvelope) (turns : list (StreamTurn DebugEnvelope)) : Conn DebugEnvelope :=
  run_conn DEBUG_CAPACITY turns
    (mkConn (before ++ between) (length (before ++ between))
       (if snapshot_sent then [Item snapshot] else []) true).

(** [handle_ws]: the subscription comes before the replay of the recent events,
    which ends the connection if a write fails, after [k] frames. *)
Definition ws_conn (at_subscription at_replay : EventBus) (replay_fails : option nat)
    (turns : list (StreamTurn WsEnvelope)) : Conn WsEnvelope :=
  let pos := length (sent at_subscription) in
  let replay := Item <$> EventBus.recent_sync at_replay in
  run_conn (bus_channel_capacity at_replay) turns
    match replay_fails with
    | None => mkConn (sent at_replay) pos replay true
    | Some k => mkConn (sent at_replay) pos (take k replay) false
    end.
End servers.

(** ** Accounting *)

(** The frames tell of a sequence of values: each is delivered, in order, or is
    one of a reported number of dropped ones. *)
Inductive accounts {A} : list (Frame A) → list A → Prop :=
| accounts_nil : accounts [] []
| accounts_item a fs l : accounts fs l → accounts (Item a :: fs) (a :: l)
| accounts_dropped n fs l1 l2 :
    length l1 = n → accounts fs l2 → accounts (Dropped n :: fs) (l1 ++ l2).

Lemma accounts_app {A} (fs gs : list (Frame A)) l k :
  accounts fs l → accounts gs k → accounts (fs ++ gs) (l ++ k).
Proof.
  intros Hf Hg. induction Hf as [|a fs l Hf IH|n fs l1 l2 Hl Hf IH]; cbn [app]; [done|by constructor|].
  rewrite <- app_assoc. by constructor.
Qed.

(** Without drops the frames are the values. *)
Lemma accounts_items {A} (fs : list (Frame A)) l :
  accounts fs l → (∀ n, Dropped n ∉ fs) → fs = Item <$> l.
Proof.
  intros Hf Hn. induction Hf as [|a fs l Hf IH|n fs l1 l2 Hl Hf IH]; [done| |].
  - rewrite fmap_cons, <- IH; [done|]. intros n Hin. apply (Hn n). by right.
  - exfalso. apply (Hn n). by left.
Qed.

(** The values published by a sequence of turns. *)
Definition published {A} (turns : list (StreamTurn A)) : list A :=
  omap (fun t => match t with Publish a => Some a | _ => None end) turns.

Section accounting.
Context {A : Type} `{!Broadcast A} (capacity : nat).
Implicit Types (c : Conn A).

Definition writes_succeed (turns : list (StreamTurn A)) : Prop := Forall (fun t => t ≠ Recv false) turns.

(** What a connection whose writes succeed has told, from a position on. *)
Definition told c c' : Prop :=
  (position c ≤ position c' ≤ length (channel c'))%nat ∧
  ∃ fs, frames c' = frames c ++ fs ∧
    accounts fs (take (position c' - position c) (drop (position c) (channel c'))) ∧
    ((length (channel c') - position c ≤ capacity)%nat → ∀ n, Dropped n ∉ fs).

Lemma take_drop_snoc (l : list A) p q x :
  (p ≤ q)%nat → l !! q = Some x → take (S q - p) (drop p l) = take (q - p) (drop p l) ++ [x].
Proof.
  intros Hp Hx. replace (S q - p)%nat with (S (q - p)) by lia. apply take_S_r.
  rewrite lookup_drop. by replace (p + (q - p))%nat with q by lia.
Qed.

Lemma told_publish c c1 a :
  told c c1 → told c (conn_turn capacity (Publish a) c1).
Proof.
  intros (Hp & fs & Hfs & Hacc & Hnd). split; cbn [conn_turn channel position frames].
  { rewrite length_app. cbn. lia. }
  exists fs. split; [done|]. split.
  - rewrite drop_app_le by lia. rewrite take_app_le; [done|]. rewrite length_drop. lia.
  - rewrite length_app. cbn [length]. intros Hle. apply Hnd. lia.
Qed.

Lemma told_recv c c1 : told c c1 → told c (conn_turn capacity (Recv true) c1).
Proof.
  intros (Hp & fs & Hfs & Hacc & Hnd). cbn [conn_turn].
  destruct (is_open c1); [|by split; [lia|exists fs]].
  destruct (recv capacity (channel c1) (position c1)) as [[a|n]|] eqn:Hr; [| |by split; [lia|exists fs]].
  - apply recv_received in Hr. pose proof (lookup_lt_Some _ _ _ Hr). split; cbn [channel position frames]; [lia|].
    exists (fs ++ [Item a]). split; [by rewrite Hfs, app_assoc|]. split.
    + rewrite (take_drop_snoc _ _ _ a) by (lia || done). apply accounts_app; [done|]. repeat constructor.
    + intros Hle n Hin. apply elem_of_app in Hin as [Hin|Hin]; [by eapply Hnd|].
      by apply list_elem_of_singleton in Hin.
  - apply recv_lagged in Hr as (Hn & Hmax & Hcap). split; cbn [channel position frames]; [lia|].
    exists (fs ++ [Dropped n]). split; [by rewrite Hfs, app_assoc|]. split; [|lia].
    replace (position c1 + n - position c)%nat with ((position c1 - position c) + n)%nat by lia.
    rewrite <- take_take_drop. apply accounts_app; [done|].
    rewrite <- (app_nil_r (take n _)). constructor; [|constructor].
    rewrite length_take, !length_drop. lia.
Qed.

(** A closed connection is told nothing more, and neither is one that hears from
    its client. *)
Lemma told_other c c1 t :
  t = ClientMessage ∨ t = ClientGone ∨ t = SenderGone → told c c1 → told c (conn_turn capacity t c1).
Proof. intros [ -> | [ -> | -> ] ] Ht; exact Ht. Qed.

Lemma run_conn_told turns c :
  (position c ≤ length (channel c))%nat → writes_succeed turns →
  told c (run_conn capacity turns c) ∧ channel (run_conn capacity turns c) = channel c ++ published turns.
Proof.
  intros Hpos. induction turns as [|t turns IH] using rev_ind; intros Hw.
  { split; [|by rewrite app_nil_r]. split; [cbn; lia|]. exists []. rewrite app_nil_r. split; [done|].
    cbn [run_conn foldl]. rewrite Nat.sub_diag. split; [constructor|]. intros _ n. apply not_elem_of_nil. }
  apply Forall_app in Hw as [Hw Ht]. destruct (IH Hw) as [Htold Hch].
  unfold run_conn in *. rewrite foldl_app. cbn [foldl]. unfold published in *. rewrite omap_app.
  cbn [omap list_omap]. apply Forall_inv in Ht.
  destruct t as [a|ok| | |]; [|destruct ok| | |].
  - split; [by apply told_publish|]. cbn [conn_turn channel]. by rewrite Hch, <- app_assoc.
  - split; [by apply told_recv|]. rewrite app_nil_r, <- Hch. cbn [conn_turn].
    destruct (is_open _); [|done]. by destruct (recv _ _ _) as [[]|].
  - done.
  - split; [by apply told_other; auto|]. by rewrite app_nil_r.
  - split; [by apply told_other; auto|]. by rewrite app_nil_r.
  - split; [by apply told_other; auto|]. by rewrite app_nil_r.
Qed.

(** While its client and the channel stay, a connection stays open: neither a lag nor
    a client message ends it. *)
Definition stays (turns : list (StreamTurn A)) : Prop := ClientGone ∉ turns ∧ SenderGone ∉ turns.

Lemma run_conn_open turns c :
  writes_succeed turns → stays turns → is_open c = true → is_open (run_conn capacity turns c) = true.
Proof.
  intros Hw. revert c. induction Hw as [|t turns Ht _ IH]; intros c [Hc Hs] Ho; [done|].
  apply not_elem_of_cons in Hc as [Hc1 Hc], Hs as [Hs1 Hs]. change (is_open (run_conn capacity turns (conn_turn capacity t c)) = true).
  apply IH; [done|]. destruct t as [a|ok| | |]; cbn [conn_turn]; [done| |done..].
  destruct ok; [|done]. rewrite Ho. destruct (recv _ _ _) as [[x|n]|]; done.
Qed.

(** Every turn in which an open connection reads tells its client of at least one
    value, as long as one is left. *)
Lemma recv_advances c :
  is_open c = true → (position c < length (channel c))%nat →
  let c' := conn_turn capacity (Recv true) c in
  channel c' = channel c ∧ is_open c' = true ∧ (position c < position c')%nat.
Proof.
  intros Ho Hlt. cbn [conn_turn]. rewrite Ho. destruct (recv _ _ _) as [[x|n]|] eqn:Hr; cbn.
  - split_and!; [done..|lia].
  - apply recv_lagged in Hr as (? & _). split_and!; [done..|lia].
  - apply recv_waits in Hr. lia.
Qed.

Lemma run_conn_catches_up k c :
  is_open c = true → (position c ≤ length (channel c))%nat → (length (channel c) - position c ≤ k)%nat →
  (length (channel c) ≤ position (run_conn capacity (replicate k (Recv true)) c))%nat.
Proof.
  revert c. induction k as [|k IH]; intros c Ho Hp Hk; [cbn; lia|].
  change (run_conn capacity (replicate (S k) (Recv true)) c)
    with (run_conn capacity (replicate k (Recv true)) (conn_turn capacity (Recv true) c)).
  destruct (decide (position c < length (channel c))%nat) as [Hlt|Hge].
  - destruct (recv_advances c Ho Hlt) as (Hch & Ho' & Hlt'). rewrite <- Hch.
    destruct (run_conn_told [Recv true] c Hp) as [[Hpos _] _]; [by repeat constructor|]. cbn [run_conn foldl] in Hpos.
    apply IH; [done|lia|rewrite Hch; lia].
  - assert (conn_turn capacity (Recv true) c = c) as ->; [|apply IH; [done|done|lia]].
    cbn [conn_turn]. rewrite Ho. by rewrite (proj2 (recv_waits capacity (channel c) (position c))) by lia.
Qed.
End accounting.

(** ** The properties *)

Section properties.
Context `{!Broadcast DebugEnvelope} `{!Broadcast WsEnvelope}.

(** C31: what a client of the node's debug stream has been told: the snapshot, then
    the events published since its subscription, in order, each delivered or
    counted among the dropped ones; with at most 512 of them none is dropped.
    While the client stays the connection does too, after a lag as well, and once
    it has had a turn for each event, however many lags lie in between, all events
    are accounted for.  Events published between the snapshot and the
    subscription are in neither. *)
Theorem debug_stream_accounts snapshot before between turns :
  writes_succeed turns →
  let c := debug_conn snapshot true before between turns in
  channel c = before ++ between ++ published turns ∧
  (∃ fs read, frames c = Item snapshot :: fs ∧ accounts fs read ∧ read `prefix_of` published turns ∧
    ((length (published turns) ≤ DEBUG_CAPACITY)%nat → fs = Item <$> read)) ∧
  (stays turns → is_open c = true ∧
   ∀ k, (length (published turns) ≤ k)%nat →
     ∃ fs, frames (debug_conn snapshot true before between (turns ++ replicate k (Recv true))) = Item snapshot :: fs ∧
       accounts fs (published turns) ∧
       ((length (published turns) ≤ DEBUG_CAPACITY)%nat → fs = Item <$> published turns)).
Proof.
  intros Hw c. unfold debug_conn in c |- *.
  set (c0 := mkConn (before ++ between) (length (before ++ between)) [Item snapshot] true) in *.
  assert (Hprefix : ∀ turns', writes_succeed turns' → published turns' = published turns →
    let c' := run_conn DEBUG_CAPACITY turns' c0 in
    channel c' = (before ++ between) ++ published turns ∧
    let read := take (position c' - length (before ++ between)) (published turns) in
    ∃ fs, frames c' = Item snapshot :: fs ∧ accounts fs read ∧
      ((length (published turns) ≤ DEBUG_CAPACITY)%nat → fs = Item <$> read)).
  { intros turns' Hw' Hpub c'.
    destruct (run_conn_told DEBUG_CAPACITY turns' c0) as [(Hp & fs & Hfs & Hacc & Hnd) Hch]; [done|done|].
    fold c' in Hp, Hfs, Hacc, Hnd, Hch. cbn [c0 channel position frames] in *. rewrite Hpub in Hch.
    rewrite Hch, drop_app_length in Hacc. split; [done|]. exists fs. split_and!; [exact Hfs|exact Hacc|].
    intros Hle. eapply accounts_items; [exact Hacc|]. apply Hnd. rewrite Hch, length_app. lia. }
  destruct (Hprefix turns Hw eq_refl) as [Hch (fs & Hfs & Hacc & Hnd)]. fold c in Hch, Hfs, Hacc, Hnd.
  split; [by rewrite Hch, app_assoc|]. split.
  { eexists fs, _. split_and!; [exact Hfs|exact Hacc|apply prefix_take|exact Hnd]. }
  intros Hstay. assert (Ho : is_open c = true) by by apply run_conn_open. split; [done|]. intros k Hk.
  assert (Hr : writes_succeed (A := DebugEnvelope) (replicate k (Recv true))) by by apply Forall_replicate.
  assert (Hpub : published (turns ++ replicate k (Recv true)) = published turns).
  { unfold published. rewrite omap_app. replace (omap _ (replicate k (Recv true))) with (@nil DebugEnvelope); [apply app_nil_r|].
    clear. by induction k. }
  destruct (Hprefix (turns ++ replicate k (Recv true))) as [Hch' (fs' & Hfs' & Hacc' & Hnd')]; [by apply Forall_app|done|].
  exists fs'. split; [done|].
  enough (Hpos : (length (published turns) ≤ position (run_conn DEBUG_CAPACITY (turns ++ replicate k (Recv true)) c0) - length (before ++ between))%nat).
  { by rewrite (take_ge (published turns)) in Hacc', Hnd'. }
  unfold run_conn. rewrite foldl_app. fold (run_conn DEBUG_CAPACITY turns c0). fold c.
  pose proof (run_conn_catches_up DEBUG_CAPACITY k c Ho) as Hcatch.
  destruct (run_conn_told DEBUG_CAPACITY turns c0) as [[Hp _] _]; [done|done|]. fold c in Hp. cbn [c0 position] in Hp.
  rewrite Hch, !length_app in *. unfold run_conn in Hcatch. lia.
Qed.

(** What a client of the visualizer's stream has been told: the recent events
    at the time of the replay, then everything sent since its subscription,
    each event delivered or counted as dropped.  Nothing is missed in between,
    but what was sent between the subscription and the replay comes twice. *)
Theorem ws_stream_accounts bus0 bus1 turns :
  bus_ok bus1 → sent bus0 `prefix_of` sent bus1 → writes_succeed turns →
  let c := ws_conn bus0 bus1 None turns in
  channel c = sent bus1 ++ published turns ∧
  ∃ replay fs read, frames c = (Item <$> replay) ++ fs ∧
    replay = drop (length (sent bus1) - bus_capacity bus1) (sent bus1) ∧
    accounts fs read ∧ read `prefix_of` drop (length (sent bus0)) (sent bus1) ++ published turns.
Proof.
  intros Hok Hpre Hw c. unfold ws_conn in c. pose proof (prefix_length _ _ Hpre) as Hlen.
  set (c0 := mkConn (sent bus1) (length (sent bus0)) (Item <$> EventBus.recent_sync bus1) true) in *.
  destruct (run_conn_told (bus_channel_capacity bus1) turns c0) as [(Hp & fs & Hfs & Hacc & _) Hch]; [done|done|].
  fold c in Hp, Hfs, Hacc, Hch. cbn [c0 channel position frames] in *.
  split; [exact Hch|]. rewrite Hch, drop_app_le in Hacc by done.
  eexists _, fs, _. split; [exact Hfs|]. split; [apply Hok|]. split; [exact Hacc|apply prefix_take].
Qed.
End properties.
