(* ===== verification/Keystore.v ===== *)
(** * The key store ([bcc-client/src/keystore.rs])

    Creation, decryption and reading of the encrypted key file, over interfaces
    for the ciphers and a file system whose calls may fail. *)

From S2P Require Import Prelude Bytes Types Store Ledger Validation Wallet.

Record KeystoreFile := mkKeystoreFile {
  version : Z;
  ks_address : string;
  salt : string;
  nonce : string;
  ciphertext : string;
}.

(** ** External code *)

(** [aes_gcm] and [argon2]: authenticated decryption inverts encryption under
    the same key and nonce; [argon2_hash] has the parameters of [derive_key]. *)
Class Ciphers := {
  aes_encrypt : list byte → list byte → list byte → option (list byte);
  aes_decrypt : list byte → list byte → list byte → option (list byte);
  aes_decrypt_encrypt k n m c : aes_encrypt k n m = Some c → aes_decrypt k n c = Some m;
  argon2_hash : list byte → list byte → string + list byte;
}.

(** [serde_json::to_string_pretty] and [from_str] of the file. *)
Class KeystoreJson := {
  ks_to_string : KeystoreFile → string;
  ks_from_str : string → string + KeystoreFile;
  ks_from_to ks : ks_from_str (ks_to_string ks) = inr ks;
}.

(** ** Files

    A path is split the way [Path::with_extension] splits it. *)
Record Path := mkPath { parent : string; file_stem : string; extension : option string }.
#[global] Instance Path_eqdec : EqDecision Path.
Proof. solve_decision. Defined.
#[global] Program Instance Path_countable : Countable Path :=
  inj_countable' (fun p => (parent p, file_stem p, extension p)) (fun '(d, s, e) => mkPath d s e) _.
Next Obligation. by intros []. Qed.

Definition with_extension (e : string) (p : Path) : Path := mkPath (parent p) (file_stem p) (Some e).

Inductive Content := Text (s : string) | NotUtf8.
Notation Files := (gmap Path Content) (only parsing).

(** What the file system does with a write or a rename: a failed write leaves
    some content behind, a failed rename nothing. *)
Inductive WriteOutcome := Written | WriteFailed (msg : string) (left_behind : option Content).

Definition fs_write (o : WriteOutcome) (p : Path) (s : string) : ST Files ClientError unit := fun fs =>
  match o with
  | Written => (Ok tt, <[p := Text s]> fs)
  | WriteFailed msg c => (Err (KeystoreIo msg), partial_alter (fun _ => c) p fs)
  end.

(** [std::fs::rename] outside Windows replaces the destination. *)
Definition fs_rename (o : option string) (src dst : Path) : ST Files ClientError unit := fun fs =>
  match o with
  | Some msg => (Err (KeystoreIo msg), fs)
  | None =>
      match fs !! src with
      | Some c => (Ok tt, <[dst := c]> (delete src fs))
      | None => (Err (KeystoreIo "not found"), fs)
      end
  end.

Definition fs_read_to_string (p : Path) (fs : Files) : Res ClientError string :=
  match fs !! p with
  | Some (Text s) => Ok s
  | Some NotUtf8 => Err (KeystoreIo "stream did not contain valid UTF-8")
  | None => Err (KeystoreIo "not found")
  end.

(** ** Operations *)

(** The random bytes drawn by [create]. *)
Record Draws := mkDraws { d_seed : list byte; d_salt : list byte; d_nonce : list byte }.

Section keystore.
Context `{Crypto} `{Ciphers} `{KeystoreJson}.

Definition derive_key (passphrase : string) (salt : list byte) : Res ClientError (list byte) :=
  map_err ClientConfig (of_sum (argon2_hash (String.list_byte_of_string passphrase) salt)).

(** [KeystoreFile::create], steps 1 to 5. *)
Definition new_keystore (d : Draws) (passphrase : string) : Res ClientError (Address * KeystoreFile) :=
  let signing_key := mkSigningKey (d_seed d) in
  let address := Address.from_pubkey_bytes (vk_as_bytes (verifying_key signing_key)) in
  aes_key ← derive_key passphrase (d_salt d);
  ct ← ok_or (ClientConfig "AES-GCM encryption failed")
         (aes_encrypt aes_key (d_nonce d) (sk_to_bytes signing_key));
  Ok (address, mkKeystoreFile 1 (as_str address) (hex_encode (d_salt d)) (hex_encode (d_nonce d))
                 (hex_encode ct)).

(** [KeystoreFile::create]: step 6 writes a temporary file and renames it. *)
Definition create (path : Path) (passphrase : string) (d : Draws) (w : WriteOutcome)
    (rn : option string) : ST Files ClientError Address :=
  '(address, ks) ← reads (fun _ => new_keystore d passphrase);
  let tmp := with_extension "tmp" path in
  _ ← fs_write w tmp (ks_to_string ks);
  _ ← fs_rename rn tmp path;
  mret address.

Definition hex_field (s : string) : Res ClientError (list byte) := map_err ClientHex (of_sum (hex_decode s)).

(** [KeystoreFile::load_and_decrypt]; [Nonce::from_slice] panics on a slice that
    does not have 12 bytes. *)
Definition load_and_decrypt (path : Path) (passphrase : string) (fs : Files) : Res ClientError SigningKey :=
  json ← fs_read_to_string path fs;
  ks ← map_err KeystoreParse (of_sum (ks_from_str json));
  salt ← hex_field (salt ks);
  nonce_bytes ← hex_field (nonce ks);
  ciphertext ← hex_field (ciphertext ks);
  if negb (length nonce_bytes =? 12)%nat then Panic
  else
    aes_key ← derive_key passphrase salt;
    plaintext ← ok_or WrongPassphrase (aes_decrypt aes_key nonce_bytes ciphertext);
    if negb (length plaintext =? 32)%nat then Err (ClientConfig "decrypted seed is not 32 bytes")
    else Ok (mkSigningKey plaintext).

(** [KeystoreFile::read_address] *)
Definition read_address (path : Path) (fs : Files) : Res ClientError Address :=
  json ← fs_read_to_string path fs;
  ks ← map_err KeystoreParse (of_sum (ks_from_str json));
  map_err ClientAddress (Address.validate (ks_address ks)).

End keystore.

(** ** The properties *)

Section properties.
Context `{Crypto} `{Ciphers} `{KeystoreJson}.

(** How [create] ends: before the rename only the temporary file has changed. *)
Lemma create_cases path pass d w rn fs r fs' :
  create path pass d w rn fs = (r, fs') →
  (∃ f, fs' = partial_alter f (with_extension "tmp" path) fs ∧ ∀ a, r ≠ Ok a) ∨
  ∃ a ks, r = Ok a ∧ new_keystore d pass = Ok (a, ks) ∧
    fs' = <[path := Text (ks_to_string ks)]> (delete (with_extension "tmp" path)
            (<[with_extension "tmp" path := Text (ks_to_string ks)]> fs)).
Proof.
  assert (Hself : ∀ p, ∃ f, fs = partial_alter f p fs).
  { intros p. exists (fun _ => fs !! p). by rewrite partial_alter_self. }
  destruct (Hself (with_extension "tmp" path)) as [f Hf].
  unfold create, mbind, ST_bind, reads. intros Hc.
  destruct (new_keystore d pass) as [[a ks]|e'|]; [|left; exists f; by simplify_eq..].
  destruct w as [|msg c]; cbn [fs_write] in Hc; [|left; eexists; by simplify_eq].
  unfold fs_rename in Hc. destruct rn; [left; by eexists (fun _ => _); simplify_eq|].
  rewrite lookup_insert_eq in Hc. injection Hc as <- <-. right. by exists a, ks.
Qed.

(** C32: the key store round trip: what [create] wrote is read back as the same
    address, and decrypts under the same passphrase to the generated key, which
    is the key of that address. *)
Theorem keystore_roundtrip path pass d w rn fs a fs' :
  length (d_seed d) = 32%nat → length (d_nonce d) = 12%nat →
  create path pass d w rn fs = (Ok a, fs') →
  load_and_decrypt path pass fs' = Ok (mkSigningKey (d_seed d)) ∧
  read_address path fs' = Ok a ∧
  a = Address.from_pubkey_bytes (vk_as_bytes (verifying_key (mkSigningKey (d_seed d)))).
Proof.
  intros Hs Hn [(? & _ & Hne)|(a' & ks & [= <-] & Hk & ->)]%create_cases; [by destruct (Hne a)|].
  pose proof (lookup_insert_eq (delete (with_extension "tmp" path)
    (<[with_extension "tmp" path := Text (ks_to_string ks)]> fs)) path (Text (ks_to_string ks))) as Hf. unfold new_keystore in Hk.
  apply res_bind_Ok in Hk as (key & Hkey & Hk). apply res_bind_Ok in Hk as (ct & Hct%ok_or_Ok & Hk).
  injection Hk as <- <-. apply aes_decrypt_encrypt in Hct. cbn [sk_to_bytes] in Hct. split_and!; [| |done].
  - unfold load_and_decrypt, fs_read_to_string, hex_field. rewrite Hf. cbn [mbind Res_bind].
    rewrite ks_from_to. cbn [of_sum map_err mbind Res_bind salt nonce ciphertext].
    rewrite !hex_decode_encode.
    cbn [of_sum map_err mbind Res_bind]. rewrite Hn. cbn [Nat.eqb negb]. rewrite Hkey. cbn [mbind Res_bind].
    rewrite Hct. cbn [ok_or mbind Res_bind]. by rewrite Hs.
  - unfold read_address, fs_read_to_string. rewrite Hf. cbn [mbind Res_bind].
    rewrite ks_from_to. cbn [of_sum map_err mbind Res_bind ks_address].
    apply map_err_Ok, validate_Ok. split; [apply from_pubkey_bytes_string|done].
Qed.

(** Creation is atomic: whatever step fails, a key file at the path is either
    untouched or completely replaced, and no other file but the temporary one
    changes. *)
Theorem keystore_create_atomic path pass d w rn fs r fs' :
  path ≠ with_extension "tmp" path → create path pass d w rn fs = (r, fs') →
  (fs' !! path = fs !! path ∧ (∀ a, r ≠ Ok a) ∨
   ∃ a ks, r = Ok a ∧ new_keystore d pass = Ok (a, ks) ∧ fs' !! path = Some (Text (ks_to_string ks))) ∧
  ∀ p, p ≠ path → p ≠ with_extension "tmp" path → fs' !! p = fs !! p.
Proof.
  intros Hne [(f & -> & Hr)|(a & ks & -> & Hk & ->)]%create_cases.
  - split; [left; split; [|done]|intros p Hp Ht]; by rewrite lookup_partial_alter_ne.
  - split.
    + right. exists a, ks. by rewrite lookup_insert_eq.
    + intros p Hp Ht. by rewrite lookup_insert_ne, lookup_delete_ne, lookup_insert_ne.
Qed.

(** A file whose nonce does not have 12 bytes makes the client panic instead
    of reporting an error. *)
Theorem short_nonce_panics path pass fs ks s n c :
  fs !! path = Some (Text (ks_to_string ks)) →
  hex_decode (salt ks) = inr s → hex_decode (nonce ks) = inr n → hex_decode (ciphertext ks) = inr c →
  length n ≠ 12%nat → load_and_decrypt path pass fs = Panic.
Proof.
  intros Hf Hs Hn Hc Hl. unfold load_and_decrypt, fs_read_to_string, hex_field. rewrite Hf.
  cbn [mbind Res_bind]. rewrite ks_from_to. cbn [of_sum map_err mbind Res_bind].
  rewrite Hs. cbn [of_sum map_err mbind Res_bind]. rewrite Hn. cbn [of_sum map_err mbind Res_bind]. rewrite Hc. cbn [of_sum map_err].
  by rewrite (proj2 (Nat.eqb_neq _ _) Hl).
Qed.
End properties.
