(* ===== verification/Cli.v ===== *)
(** * The command line ([bcc-client/src/cli.rs], [bcc-client/src/config.rs])

    The commands of the client over its wallet and key store, an interface for
    the RPC client and the answers of the password prompts. *)

From S2P Require Import Prelude Bytes Types Encoding Store Ledger Validation Mempool DebugEvent Node.
From S2P Require Import Api Wallet Rpc Keystore.

(** ** Defaults ([config.rs]) *)

(** The environment variables that are read. *)
Record EnvVars := mkEnvVars { HOME : option string; APPDATA : option string; RPC_URL : option string }.

(** [PathBuf::from(..).join(..)] *)
Definition join (dir name : string) : string := dir +:+ "/" +:+ name.

Definition bcc_dir (env : EnvVars) : string :=
  match HOME env with
  | Some home => join home ".bcc"
  | None => match APPDATA env with Some appdata => join appdata "bcc" | None => "." end
  end.

Definition default_keystore_path (env : EnvVars) : Path := mkPath (bcc_dir env) "keystore" (Some "json").

Record ClientConfig := mkClientConfig { keystore_path : Path; node_url : string }.
Definition default_config (env : EnvVars) : ClientConfig :=
  mkClientConfig (default_keystore_path env) (default "http://127.0.0.1:8080" (RPC_URL env)).

(** ** Commands *)

(** [toml::to_string_pretty] and the TOML parser, on a table of fields in order: what
    is printed is read again, and only integers of 63 bits are printed. *)
Class ConfigToml := {
  toml_print : list (string * ConfigValue) → string + string;
  toml_read : string → string + ConfigTable;
  toml_read_print fields text :
    NoDup fields.*1 → toml_print fields = inr text → toml_read text = inr (list_to_map fields);
  toml_print_int fields text k n : toml_print fields = inr text → (k, ConfigInt n) ∈ fields → n < 2 ^ 63;
}.

(** [NodeConfigToml] with its derived [Serialize]. *)
Record NodeConfigToml := mkNodeConfigToml {
  nt_listen_addr : string;
  nt_bootstrap_peers : list string;
  nt_slot_duration_secs : Z;
  nt_http_addr : string;
  nt_sled_path : string;
  nt_mempool_max_size : nat;
  nt_genesis_path : string;
  nt_my_address : string;
  nt_my_signing_key : string;
}.
Definition NodeConfigToml_fields (c : NodeConfigToml) : list (string * ConfigValue) :=
  [("listen_addr"%string, ConfigString (nt_listen_addr c));
   ("bootstrap_peers"%string, ConfigStrings (nt_bootstrap_peers c));
   ("slot_duration_secs"%string, ConfigInt (nt_slot_duration_secs c));
   ("http_addr"%string, ConfigString (nt_http_addr c));
   ("sled_path"%string, ConfigString (nt_sled_path c));
   ("mempool_max_size"%string, ConfigInt (Z.of_nat (nt_mempool_max_size c)));
   ("genesis_path"%string, ConfigString (nt_genesis_path c));
   ("my_address"%string, ConfigString (nt_my_address c));
   ("my_signing_key"%string, ConfigString (nt_my_signing_key c))].

Section commands.
Context `{Crypto} `{CoreJson} `{BuildProfile} `{UnstableSort} `{Ciphers} `{KeystoreJson} `{ConfigToml}.

(** [rpassword::prompt_password] with its possible I/O error. *)
Definition prompt (answer : string + string) : Res ClientError string := map_err KeystoreIo (of_sum answer).

(** [prompt_password] twice, compared. *)
Definition new_passphrase (answer1 answer2 : string + string) : Res ClientError string :=
  pass1 ← prompt answer1;
  pass2 ← prompt answer2;
  if bool_decide (pass1 ≠ pass2) then Err PassphraseMismatch else Ok pass1.

(** [cmd_wallet_new]; [mkdir] is the outcome of [create_dir_all]. *)
Definition cmd_wallet_new (path : Path) (display : string) (answer1 answer2 mkdir : string + string)
    (d : Draws) (w : WriteOutcome) (rn : option string) : ST (gmap Path Content) ClientError Address := fun fs =>
  if bool_decide (is_Some (fs !! path)) then (Err (KeystoreExists display), fs)
  else
    (pass1 ← reads (fun _ => new_passphrase answer1 answer2);
     _ ← reads (fun _ => prompt mkdir);
     create path pass1 d w rn) fs.

(** [cmd_wallet_show]: the address it prints. *)
Definition cmd_wallet_show (path : Path) (answer : string + string) (fs : gmap Path Content) :
    Res ClientError Address :=
  passphrase ← prompt answer;
  key ← load_and_decrypt path passphrase fs;
  Ok (Address.from_pubkey_bytes (vk_as_bytes (verifying_key key))).

(** [cmd_send]: the hash it prints. *)
Definition cmd_send {N} (rpc : RpcClient N) (to_ : string) (value : Z) (path : Path)
    (answer : string + string) (fs : gmap Path Content) : ST N ClientError string :=
  passphrase ← reads (fun _ => prompt answer);
  signing_key ← reads (fun _ => load_and_decrypt path passphrase fs);
  let sender := Address.from_pubkey_bytes (vk_as_bytes (verifying_key signing_key)) in
  recipient ← reads (fun _ => map_err ClientAddress (Address.validate to_));
  utxos ← cl_utxos rpc (as_str sender);
  selection ← reads (fun _ => select_coins utxos value);
  tx ← reads (fun _ => build_transfer signing_key (selected selection) recipient value sender);
  resp ← cl_post rpc tx;
  mret (xr_tx_hash resp).

(** [cmd_balance] *)
Definition cmd_balance {N} (rpc : RpcClient N) (address : string) : ST N ClientError BalanceResponse :=
  _ ← reads (fun _ => map_err ClientAddress (Address.validate address));
  cl_balance rpc address.

(** [cmd_chain_tip] *)
Definition cmd_chain_tip {N} (rpc : RpcClient N) : ST N ClientError TipResponse := cl_tip rpc.

(** The arguments of [node init]. *)
Record NodeInitArgs := mkNodeInitArgs {
  ni_peers : list string;
  ni_listen_addr : string;
  ni_http_addr : string;
  ni_sled_path : string;
  ni_genesis_path : string;
  ni_slot_duration : Z;
  ni_mempool_max_size : nat;
}.

(** The key of [cmd_node_init]: from a key store, or freshly drawn. *)
Definition node_init_key (keystore : option (Path * (string + string))) (seed : list byte)
    (fs : gmap Path Content) : Res ClientError SigningKey :=
  match keystore with
  | Some (path, answer) => passphrase ← prompt answer; load_and_decrypt path passphrase fs
  | None => Ok (mkSigningKey seed)
  end.

(** The record [cmd_node_init] writes. *)
Definition node_config_toml (args : NodeInitArgs) (keystore : option (Path * (string + string)))
    (seed : list byte) (fs : gmap Path Content) : Res ClientError NodeConfigToml :=
  signing_key ← node_init_key keystore seed fs;
  let address := Address.from_pubkey_bytes (vk_as_bytes (verifying_key signing_key)) in
  Ok (mkNodeConfigToml (ni_listen_addr args) (ni_peers args) (ni_slot_duration args) (ni_http_addr args)
        (ni_sled_path args) (ni_mempool_max_size args) (ni_genesis_path args)
        (as_str address) (hex_encode (sk_to_bytes signing_key))).

(** [cmd_node_init]; [mkdir] is the outcome of [create_dir_all], which is called
    unless the parent of [output] is the empty path. *)
Definition cmd_node_init (output : Path) (args : NodeInitArgs) (keystore : option (Path * (string + string)))
    (seed : list byte) (mkdir : string + string) (w : WriteOutcome) : ST (gmap Path Content) ClientError unit :=
  cfg ← reads (node_config_toml args keystore seed);
  toml_str ← reads (fun _ => map_err Wallet.ClientConfig (of_sum (toml_print (NodeConfigToml_fields cfg))));
  _ ← reads (fun _ => if bool_decide (parent output = ""%string) then prompt (inr ""%string) else prompt mkdir);
  fs_write w output toml_str.

(** ** Dispatch *)

Inductive WalletCommands :=
| WalletNew (keystore : option Path)
| WalletShow (keystore : option Path).
Inductive ChainCommands := Tip.
Inductive NodeCommands := Init (output : Path) (args : NodeInitArgs) (keystore : option Path).
Inductive Commands :=
| Wallet (sub : WalletCommands)
| Balance (address : string)
| Send (to_ : string) (amount : Z) (keystore : option Path)
| Chain (sub : ChainCommands)
| Node (sub : NodeCommands).

Record Cli := mkCli { rpc_url : option string; command : Commands }.

(** What a run reads: the prompts' answers, random bytes, and the outcomes of the
    calls on the file system. *)
Record Inputs := mkInputs {
  in_answer1 : string + string;
  in_answer2 : string + string;
  in_mkdir : string + string;
  in_draws : Draws;
  in_write : WriteOutcome;
  in_rename : option string;
}.

(** What a command prints. *)
Inductive Printed :=
| PrintedAddress (a : Address)
| PrintedBalance (b : BalanceResponse)
| PrintedHash (h : string)
| PrintedTip (t : TipResponse)
| WrittenConfig (output : Path).

Definition on_files {N A} (m : ST (gmap Path Content) ClientError A) :
    ST (gmap Path Content * N) ClientError A := fun fn => let '(r, fs') := m fn.1 in (r, (fs', fn.2)).
Definition on_network {N A} (m : ST N ClientError A) : ST (gmap Path Content * N) ClientError A :=
  fun fn => let '(r, n') := m fn.2 in (r, (fn.1, n')).

(** [run]: the client of a URL is a parameter; the display of a path in the error
    for an existing key store is [display]. *)
Definition run {N} (client : string → RpcClient N) (display : Path → string) (env : EnvVars)
    (inp : Inputs) (cli : Cli) : ST (gmap Path Content * N) ClientError Printed :=
  let rpc := client (default (node_url (default_config env)) (rpc_url cli)) in
  let keystore flag := default (keystore_path (default_config env)) flag in
  match command cli with
  | Wallet (WalletNew flag) =>
      PrintedAddress <$> on_files (cmd_wallet_new (keystore flag) (display (keystore flag))
        (in_answer1 inp) (in_answer2 inp) (in_mkdir inp) (in_draws inp) (in_write inp) (in_rename inp))
  | Wallet (WalletShow flag) =>
      PrintedAddress <$> reads (fun fn => cmd_wallet_show (keystore flag) (in_answer1 inp) fn.1)
  | Balance address => PrintedBalance <$> on_network (cmd_balance rpc address)
  | Send to_ amount flag =>
      fn ← reads Ok;
      PrintedHash <$> on_network (cmd_send rpc to_ amount (keystore flag) (in_answer1 inp) fn.1)
  | Chain Tip => PrintedTip <$> on_network (cmd_chain_tip rpc)
  | Node (Init output args flag) =>
      const (WrittenConfig output) <$> on_files (cmd_node_init output args
        ((fun p => (p, in_answer1 inp)) <$> flag) (d_seed (in_draws inp)) (in_mkdir inp) (in_write inp))
  end.

End commands.

(** ** The properties *)

Section properties.
Context `{Crypto} `{CoreJson} `{BuildProfile} `{UnstableSort} `{Ciphers} `{KeystoreJson} `{ConfigToml}.

Lemma validate_not_Panic a : Address.validate a ≠ Panic.
Proof. unfold Address.validate. by repeat case_match. Qed.

Lemma load_and_decrypt_length path pass fs sk :
  load_and_decrypt path pass fs = Ok sk → length (sk_to_bytes sk) = 32%nat.
Proof.
  unfold load_and_decrypt. intros Hl.
  apply res_bind_Ok in Hl as (json & _ & Hl). apply res_bind_Ok in Hl as (ks & _ & Hl).
  apply res_bind_Ok in Hl as (s & _ & Hl). apply res_bind_Ok in Hl as (n & _ & Hl).
  apply res_bind_Ok in Hl as (c & _ & Hl). destruct (negb _); [done|].
  apply res_bind_Ok in Hl as (k & _ & Hl). apply res_bind_Ok in Hl as (p & _ & Hl).
  destruct (length p =? 32)%nat eqn:Hp; [|done]. injection Hl as <-. by apply Nat.eqb_eq in Hp.
Qed.

(** The keys of a node configuration. *)
Definition config_keys : list string :=
  ["listen_addr"; "bootstrap_peers"; "slot_duration_secs"; "http_addr"; "sled_path"; "mempool_max_size";
   "genesis_path"; "my_address"; "my_signing_key"].

Lemma fields_distinct c : NoDup (NodeConfigToml_fields c).*1.
Proof. apply (bool_decide_eq_true (NoDup _)). vm_compute. reflexivity. Qed.

Ltac in_fields :=
  first [lia | unfold config_keys, NodeConfigToml_fields;
    repeat first [apply list_elem_of_here | apply list_elem_of_further]].

(** What was written is what is read, field by field. *)
Lemma written_fields_read `{ConfigCrate} c env :
  0 ≤ nt_slot_duration_secs c < 2 ^ 63 → Z.of_nat (nt_mempool_max_size c) < 2 ^ 63 →
  (∀ k, k ∈ config_keys → env !! k = None) →
  RawConfig_deserialize (env ∪ list_to_map (NodeConfigToml_fields c))
    = Ok (mkRawConfig (nt_listen_addr c) (nt_bootstrap_peers c) (nt_slot_duration_secs c) (nt_http_addr c)
        (nt_sled_path c) (nt_mempool_max_size c) (nt_genesis_path c) (nt_my_address c) (nt_my_signing_key c)).
Proof.
  intros Hd Hm Henv.
  assert (Hf : ∀ k v, NoDup (NodeConfigToml_fields c).*1 → k ∈ config_keys → (k, v) ∈ NodeConfigToml_fields c →
    (env ∪ list_to_map (NodeConfigToml_fields c)) !! k = Some v).
  { intros k v Hnd Hk Hin. rewrite lookup_union_r by auto. by apply elem_of_list_to_map. }
  pose proof (fields_distinct c) as Hnd.
  assert (Hg : ∀ A (convert : ConfigValue → string + A) k v, k ∈ config_keys → (k, v) ∈ NodeConfigToml_fields c →
    config_field convert (env ∪ list_to_map (NodeConfigToml_fields c)) k = of_sum (convert v)).
  { intros A convert k v Hk Hin. unfold config_field. by rewrite (Hf k v Hnd Hk Hin). }
  unfold RawConfig_deserialize. clear Hf Hnd Henv.
  rewrite (Hg _ _ "listen_addr"%string (ConfigString (nt_listen_addr c))), value_string_string by in_fields. cbn [of_sum mbind Res_bind].
  rewrite (Hg _ _ "bootstrap_peers"%string (ConfigStrings (nt_bootstrap_peers c))), value_strings_list by in_fields. cbn [of_sum mbind Res_bind].
  rewrite (Hg _ _ "slot_duration_secs"%string (ConfigInt (nt_slot_duration_secs c))), value_u64_int by in_fields. cbn [of_sum mbind Res_bind].
  rewrite (Hg _ _ "http_addr"%string (ConfigString (nt_http_addr c))), value_string_string by in_fields. cbn [of_sum mbind Res_bind].
  rewrite (Hg _ _ "sled_path"%string (ConfigString (nt_sled_path c))), value_string_string by in_fields. cbn [of_sum mbind Res_bind].
  rewrite (Hg _ _ "mempool_max_size"%string (ConfigInt (Z.of_nat (nt_mempool_max_size c)))), value_u64_int by in_fields. cbn [of_sum mbind Res_bind].
  rewrite (Hg _ _ "genesis_path"%string (ConfigString (nt_genesis_path c))), value_string_string by in_fields. cbn [of_sum mbind Res_bind].
  rewrite (Hg _ _ "my_address"%string (ConfigString (nt_my_address c))), value_string_string by in_fields. cbn [of_sum mbind Res_bind].
  rewrite (Hg _ _ "my_signing_key"%string (ConfigString (nt_my_signing_key c))), value_string_string by in_fields. cbn [of_sum mbind Res_bind].
  by rewrite Nat2Z.id.
Qed.

Lemma node_config_keys args keystore seed fs c :
  length seed = 32%nat → node_config_toml args keystore seed fs = Ok c →
  ∃ sk, node_init_key keystore seed fs = Ok sk ∧ length (sk_to_bytes sk) = 32%nat ∧
    c = mkNodeConfigToml (ni_listen_addr args) (ni_peers args) (ni_slot_duration args) (ni_http_addr args)
      (ni_sled_path args) (ni_mempool_max_size args) (ni_genesis_path args)
      (as_str (Address.from_pubkey_bytes (vk_as_bytes (verifying_key sk)))) (hex_encode (sk_to_bytes sk)).
Proof.
  intros Hseed (sk & Hk & Hc)%res_bind_Ok. injection Hc as <-. exists sk. split_and!; [done| |done].
  destruct keystore as [[path answer]|]; cbn [node_init_key] in Hk.
  - apply res_bind_Ok in Hk as (pass & _ & Hk). by eapply load_and_decrypt_length.
  - by injection Hk as <-.
Qed.

(** C34: the configuration that [node init] writes.  A successful run changes one
    file only, and unless the environment overrides a field, what the node makes of
    that file is settled by the addresses alone, which [node init] does not look
    at: when the listening, HTTP and peer addresses parse, a configuration with
    the chosen key and the address that the key derives, and otherwise the error
    of the first that does not parse. *)
Theorem node_init_accepted `{ParseAddr} `{ConfigCrate} output args keystore seed mkdir w fs fs' env :
  length seed = 32%nat → 0 ≤ ni_slot_duration args →
  cmd_node_init output args keystore seed mkdir w fs = (Ok tt, fs') →
  (∀ k, k ∈ config_keys → env !! k = None) →
  ∃ sk text, node_init_key keystore seed fs = Ok sk ∧ fs' = <[output := Text text]> fs ∧
    config_from_file (toml_read text) env =
      (la ← config_error "listen_addr" (parse_addr (ni_listen_addr args));
       ha ← config_error "http_addr" (parse_addr (ni_http_addr args));
       ps ← collect_res ((fun s => config_error "bootstrap_peers" (parse_addr s)) <$> ni_peers args);
       Ok (mkNodeConfig la ps (ni_slot_duration args) ha (ni_sled_path args) (ni_mempool_max_size args)
             (ni_genesis_path args) (Address.from_pubkey_bytes (vk_as_bytes (verifying_key sk))) sk)).
Proof.
  intros Hseed Hslot Hrun Henv. unfold cmd_node_init in Hrun.
  apply st_bind_Ok in Hrun as (c & s1 & [= Hc <-] & Hrun).
  apply st_bind_Ok in Hrun as (text & s1 & [= Htext <-] & Hrun). apply map_err_Ok, of_sum_Ok in Htext.
  apply st_bind_Ok in Hrun as (? & s1 & [= _ <-] & Hrun).
  destruct w as [|msg y]; [|done]. injection Hrun as <-.
  destruct (node_config_keys _ _ _ _ _ Hseed Hc) as (sk & Hk & Hlen & ->). exists sk, text. split_and!; [done..|].
  set (cfg := mkNodeConfigToml _ _ _ _ _ _ _ _ _) in *.
  assert (Hints : nt_slot_duration_secs cfg < 2 ^ 63 ∧ Z.of_nat (nt_mempool_max_size cfg) < 2 ^ 63).
  { split; eapply (toml_print_int _ _ _ _ Htext); in_fields. }
  unfold config_from_file. rewrite (toml_read_print _ _ (fields_distinct cfg) Htext).
  rewrite config_build_inr. cbn [of_sum map_err mbind Res_bind]. rewrite written_fields_read by (done || (cbn in *; lia)).
  cbn [map_err mbind Res_bind]. unfold from_raw. cbn [raw_listen_addr raw_http_addr raw_bootstrap_peers raw_my_address
    raw_my_signing_key raw_slot_duration_secs raw_sled_path raw_mempool_max_size raw_genesis_path cfg
    nt_listen_addr nt_http_addr nt_bootstrap_peers nt_my_address nt_my_signing_key nt_slot_duration_secs nt_sled_path
    nt_mempool_max_size nt_genesis_path].
  destruct (config_error "listen_addr" _) as [la|e|]; cbn [mbind Res_bind]; [|done..].
  destruct (config_error "http_addr" _) as [ha|e|]; cbn [mbind Res_bind]; [|done..].
  destruct (collect_res _) as [ps|e|]; cbn [mbind Res_bind]; [|done..].
  rewrite (proj2 (validate_Ok _ _)) by (split; [apply from_pubkey_bytes_string|done]).
  cbn [map_err mbind Res_bind]. rewrite hex_decode_encode. cbn [config_error of_sum map_err mbind Res_bind].
  rewrite Hlen. cbn [Nat.eqb negb]. destruct sk as [bs]. cbn [sk_to_bytes].
  by rewrite bool_decide_false by (intros Hn; by apply Hn).
Qed.

(** [send] end to end: when the node answers with the outputs it holds for the
    sender, the command either fails without posting anything, or posts a
    transaction that this node's validation accepts, that pays the recipient
    the amount and the sender the rest, creates what it spends and spends no
    output twice. *)
Theorem send_posts_valid {N} {S : Type} `{!BlockStore S} `{!UtxoStore S} `{!ValidatorStore S}
    `{!StoreLaws S} (rpc : RpcClient N) (s : S) to_ value path answer pass sk l fs n n1 r n' :
  let sender := Address.from_pubkey_bytes (vk_as_bytes (verifying_key sk)) in
  answer = inr pass → load_and_decrypt path pass fs = Ok sk →
  cl_utxos rpc (as_str sender) n = (Ok (utxo_item <$> l), n1) →
  store_ok s → list_utxos sender s = Ok l → (∀ ro, ro ∈ l → ∃ o, utxo_get ro.1 s = Ok o) →
  Forall (fun ro => length (tx_hash ro.1) = 32%nat ∧ u64 (amount ro.2)) l →
  sumZ (amount <$> l.*2) < 2 ^ 64 → 0 < value < 2 ^ 64 →
  cmd_send rpc to_ value path answer fs n = (r, n') →
  ((∃ e, r = Err e) ∧ (n' = n ∨ n' = n1)) ∨
  ∃ tx recipient, (xr_tx_hash <$> cl_post rpc tx) n1 = (r, n') ∧ Address.validate to_ = Ok recipient ∧
    validate_transaction tx s = Ok tt ∧
    outputs tx = transfer_outputs recipient sender value (value_in (utxos (view s)) tx) ∧
    value_out tx = value_in (utxos (view s)) tx ∧ NoDup (spent_refs tx).
Proof.
  intros sender -> Hk Hg Hs Hlist Hread Hl Hsum Hv.
  unfold cmd_send, mbind, ST_bind, reads. cbn [prompt of_sum map_err]. rewrite Hk. subst sender.
  destruct (Address.validate to_) as [recipient|e|] eqn:Hto; cbn [map_err];
    [|intros [= <- <-]; left; eauto|by apply validate_not_Panic in Hto].
  rewrite Hg. destruct (select_coins (utxo_item <$> l) value) as [sel|e|] eqn:Hsel.
  - destruct (wallet_transfer_spec s sk l recipient value sel Hs Hlist Hread Hl Hsum Hv Hsel)
      as (tx & Hb & Hval & Hout & Hvalue & Hnd & _). rewrite Hb. intros Hr. right.
    exists tx, recipient. split_and!; [|done..]. rewrite <- Hr. unfold fmap, ST_fmap.
    destruct (cl_post rpc tx n1) as [[?|?|] ?]; reflexivity.
  - intros [= <- <-]. left. eauto.
  - pose proof (select_coins_cases (utxo_item <$> l) value) as Hc. rewrite Hsel in Hc. exfalso.
    apply Hc; [|unfold u64; lia]. apply Forall_fmap. eapply Forall_impl; [exact Hl|]. naive_solver.
Qed.

(** [wallet new] never overwrites a key file. *)
Lemma wallet_new_keeps path display a1 a2 mkdir d w rn fs r fs' :
  is_Some (fs !! path) → cmd_wallet_new path display a1 a2 mkdir d w rn fs = (r, fs') →
  r = Err (KeystoreExists display) ∧ fs' = fs.
Proof. intros Hs. unfold cmd_wallet_new. rewrite bool_decide_true by done. by intros [= <- <-]. Qed.
End properties.
