(* ===== verification/Network.v ===== *)
(** * The client against a node

    The HTTP transport of the client instantiated by the modelled node: a request
    is rendered, read and routed by the node, and the bytes of its response are
    decoded again.  The theorem follows a [send] from the command line into the
    mempool of the node and out to its peers. *)

From Stdlib Require Import Ascii.
From S2P Require Import Prelude Bytes Types Encoding Store Ledger Validation Mempool DebugEvent Node Handler.
From S2P Require Import Protocol SlotTicker Reliable Gossip Api Http Wallet Rpc Keystore Cli.

(** ** The transport *)

(** The status and the body of a response. *)
Definition decode_response (bs : list byte) : option HttpResponse :=
  '(h, body) ← split_head bs;
  status ← parse_usize (take 3 (drop 9 h));
  Some (mkHttpResponse status body).

Section transport.
Context `{Crypto} `{CoreJson} `{JsonText} `{BuildProfile} `{HashOrder} `{UnstableSort}.
Context {S : Type} `{!BlockStore S} `{!UtxoStore S} `{!ValidatorStore S}.

(** One connection to the node; a panic of the task closes it. *)
Definition serve (method path : string) (body : list byte) : ST (NodeState S) string HttpResponse := fun st =>
  match handle_conn true (render (mkRequest method path [] body)) st with
  | (Ok (Some resp), st') =>
      match decode_response resp with
      | Some r => (Ok r, st')
      | None => (Err "invalid response"%string, st')
      end
  | (Ok None, st') | (Panic, st') => (Err "connection closed"%string, st')
  | (Err e, _) => match e with end
  end.

Definition node_http (base : string) : HttpTransport (NodeState S) := {|
  http_get url := serve "GET" (path_from (String.length base) url) [];
  http_post url body := serve "POST" (path_from (String.length base) url) body;
  body_text := to_str;
|}.
End transport.

(** ** Responses on the wire *)

Lemma path_from_app a b : path_from (String.length a) (a +:+ b) = b.
Proof. apply string_substring_app. Qed.

Lemma decode_json_ok `{JsonText} v : decode_response (json_ok v) = Some (mkHttpResponse 200 (value_to_vec v)).
Proof.
  unfold decode_response, json_ok. rewrite build_response_framed by by repeat constructor.
  cbn [mbind option_bind].
  assert (take 3 (drop 9 (head_of 200 "OK" "application/json" (length (value_to_vec v)))) = text "200") as ->
    by reflexivity.
  reflexivity.
Qed.

Lemma decode_err_400 `{JsonText} msg :
  ∃ body, decode_response (err_response 400 msg) = Some (mkHttpResponse 400 body).
Proof.
  eexists. unfold decode_response, err_response. rewrite build_response_framed by (by repeat constructor).
  cbn [mbind option_bind]. change (400 =? 400) with true. cbv iota zeta.
  lazymatch goal with |- context [head_of ?a ?b ?c ?n] =>
    assert (take 3 (drop 9 (head_of a b c n)) = text "400") as -> by reflexivity end.
  reflexivity.
Qed.

(** *** Addresses in paths *)

Lemma hexdigit_visible c : is_ascii_hexdigit c = true → visible (byte_of_ascii c) = true.
Proof. destruct c as [[] [] [] [] [] [] [] []]; (reflexivity || discriminate). Qed.

Lemma address_visible s : address_string s → Forall (fun b => visible b = true) (text s).
Proof.
  intros (t & -> & _ & Ht). rewrite text_app. apply Forall_app. split; [by repeat constructor|].
  clear -Ht. induction t as [|c t IH]; [constructor|]. rewrite text_cons. inversion Ht; subst.
  constructor; [by apply hexdigit_visible|by apply IH].
Qed.

Section serving.
Context `{Crypto} `{CoreJson} `{JsonText} `{BuildProfile} `{HashOrder} `{UnstableSort}.
Context {S : Type} `{!BlockStore S} `{!UtxoStore S} `{!ValidatorStore S}.
Implicit Types (st : NodeState S).

(** What the client reads of the answer of a handler. *)
Lemma serve_response method path body st resp r st' :
  request_ok (mkRequest method path [] body) → route method path body st = (Ok resp, st') →
  decode_response resp = Some r → serve method path body st = (Ok r, st').
Proof.
  intros Hrq Hr Hd. unfold serve. rewrite <- (app_nil_r (render _)), (handle_request true _ [] st Hrq).
  cbn [rq_method rq_path rq_body]. unfold mbind, ST_bind. rewrite Hr. unfold mret, ST_ret.
  by rewrite Hd.
Qed.

Lemma serve_json method path body st v st' :
  request_ok (mkRequest method path [] body) → route method path body st = (Ok (json_ok v), st') →
  serve method path body st = (Ok (mkHttpResponse 200 (value_to_vec v)), st').
Proof. intros Hrq Hr. eapply serve_response; [done..|apply decode_json_ok]. Qed.
End serving.

(** ** The client's calls on a node *)

Section calls.
Context `{Crypto} `{CoreJson} `{JsonParse} `{BuildProfile} `{HashOrder} `{UnstableSort}.
Context {S : Type} `{!BlockStore S} `{!UtxoStore S} `{!ValidatorStore S}.
Context (base : string).
Implicit Types (st : NodeState S).

#[local] Existing Instance node_http.

Lemma check_json {A} (decode : JsonValue → option A) v a :
  json_wf v → (∀ v', json_eq v v' → decode v' = Some a) →
  check_response (N := NodeState S) (HttpTransport0 := node_http base) decode (mkHttpResponse 200 (value_to_vec v)) = Ok a.
Proof.
  intros Hwf Hd. unfold check_response. cbn [rs_status rs_body].
  destruct (value_from_to v Hwf) as (v' & -> & Hv'). cbn. by rewrite (Hd v' Hv').
Qed.

Lemma utxo_json_wf ro : entry_fits ro → json_wf (utxo_json ro).
Proof.
  intros [Hi Ha]. constructor; [names_distinct|].
  repeat constructor; cbn; unfold u64; unfold u64 in Ha; lia.
Qed.

Lemma client_utxos raw addr l st :
  Address.validate raw = Ok addr → list_utxos addr (n_store st) = Ok l → Forall entry_fits l →
  rpc_get_utxos (HttpTransport0 := node_http base) base raw st = (Ok (utxo_item <$> l), st).
Proof.
  intros Ha Hl Hfit. unfold rpc_get_utxos, call, st_map_err, mbind, ST_bind.
  cbn [http_get node_http]. rewrite path_from_app.
  erewrite (serve_json "GET" ("/utxos/" +:+ raw) [] st (JsonArray (utxo_json <$> l)) st).
  - cbn [map_err]. unfold reads. rewrite (check_json _ _ (utxo_item <$> l)); [done| |].
    + constructor. apply Forall_fmap. eapply Forall_impl; [exact Hfit|]. intros ro. apply utxo_json_wf.
    + intros v. by apply decode_utxos_eq.
  - apply validate_Ok in Ha as [Hs _]. constructor; cbn [rq_method rq_path rq_headers rq_body];
      [split; [by repeat constructor|done]| |done|unfold MAX_BODY; cbn; lia].
    rewrite text_app. apply Forall_app. split; [by repeat constructor|by apply address_visible].
  - unfold route. rewrite !(bool_decide_false (_ +:+ _ = _)) by done.
    change (String.prefix "/balance/" ("/utxos/" +:+ raw)) with false.
    rewrite string_prefix_app. change (path_from 7 ("/utxos/" +:+ raw)) with (path_from (String.length "/utxos/") ("/utxos/" +:+ raw)). rewrite path_from_app.
    rewrite (bool_decide_true ("GET" = "GET")) by done. cbn [andb]. unfold get_utxos. rewrite Ha.
    unfold attempt, read_store, reads, mbind, ST_bind. by rewrite Hl.
Qed.

Lemma post_request_ok (tx : Transaction) : Z.of_nat (length (to_vec tx)) ≤ MAX_BODY → request_ok (mkRequest "POST" "/tx" [] (to_vec tx)).
Proof.
  intros Hsize. constructor; cbn [rq_method rq_path rq_headers rq_body].
  - split; [by repeat constructor|done].
  - by repeat constructor.
  - constructor.
  - done.
Qed.

(** Posting a transaction that is neither valid nor pooled. *)
Lemma client_post_rejected tx st e :
  validate_transaction tx (n_store st) = Err e → Transaction_hash tx ∉ (mp_txs (n_mempool st)).*1 →
  Z.of_nat (length (to_vec tx)) ≤ MAX_BODY →
  ∃ ce st', rpc_post_tx (HttpTransport0 := node_http base) base tx st = (Err ce, st') ∧
    n_store st' = n_store st ∧ n_mempool st' = n_mempool st.
Proof.
  intros Hv Hno Hsize.
  set (err := NodeError_to_string (NodeValidation (TxValidationError_to_string e))).
  assert (Hpost : ∃ st', Api.post_tx (to_vec tx) st = (Ok (err_response 400 err), st') ∧
    n_store st' = n_store st ∧ n_mempool st' = n_mempool st).
  { unfold Api.post_tx. rewrite from_slice_to_vec. unfold Mempool.add.
    destruct (im_contains _ _) eqn:Hc; [by apply im_contains_spec in Hc|].
    unfold mbind, ST_bind, reads. rewrite Hv. cbn [map_err]. eexists. by split. }
  destruct Hpost as (st' & Hpost & Hs & Hm). destruct (decode_err_400 err) as [body Hd].
  exists (ClientNodeError 400 (to_str body)), st'. split; [|done].
  unfold rpc_post_tx, call, st_map_err, mbind, ST_bind. cbn [http_post node_http]. rewrite path_from_app.
  by rewrite (serve_response "POST" "/tx" (to_vec tx) st _ _ st' (post_request_ok tx Hsize) Hpost Hd).
Qed.

(** A posted transaction makes the node send transactions only. *)
Lemma post_tx_effects body st r st' : Api.post_tx body st = (r, st') →
  ∃ es, n_effects st' = n_effects st ++ es ∧ Forall tx_effect es.
Proof.
  unfold Api.post_tx. destruct (from_slice body) as [e|tx]; [intros [= _ <-]; exists []; by rewrite app_nil_r|].
  destruct (Mempool.add tx (n_store st) (n_mempool st)) as [[a|e|] m].
  - destruct (newly_added a); intros [= _ <-]; cbn; rewrite <- ?app_assoc; eexists; (split; [reflexivity|]);
      repeat apply Forall_app_2; try (by repeat constructor); try (by destruct (evicted a); repeat constructor).
    apply Forall_fmap, Forall_forall. intros at_ _. by eexists.
  - intros [= _ <-]. eexists. split; [reflexivity|]. by repeat constructor.
  - intros [= _ <-]. exists []. by rewrite app_nil_r.
Qed.

(** Posting a valid transaction for which there is room. *)
Lemma client_post tx st :
  mempool_ok (n_mempool st) → validate_transaction tx (n_store st) = Ok tt →
  (∀ r, r ∈ spent_refs tx → r ∉ in_flight (n_mempool st)) →
  (length (mp_txs (n_mempool st)) < max_size (n_mempool st))%nat →
  Z.of_nat (length (to_vec tx)) ≤ MAX_BODY →
  ∃ st', rpc_post_tx (HttpTransport0 := node_http base) base tx st =
      (Ok (mkTxResponse (hex_encode (Transaction_hash tx))), st') ∧
    n_store st' = n_store st ∧ n_peers st' = n_peers st ∧ mempool_ok (n_mempool st') ∧
    Transaction_hash tx ∈ (mp_txs (n_mempool st')).*1 ∧
    (∃ es, n_effects st' = n_effects st ++ es ∧ Forall tx_effect es) ∧
    (Transaction_hash tx ∉ (mp_txs (n_mempool st)).*1 →
     mp_txs (n_mempool st') ≡ₚ (Transaction_hash tx, tx) :: mp_txs (n_mempool st) ∧
     sends st st' ≡ₚ (fun at_ => TrySend at_.2 (NewTx tx)) <$> map_to_list (n_peers st)).
Proof.
  intros Hm Hv Hf Hroom Hsize.
  destruct (add_succeeds tx (n_store st) (n_mempool st) Hm Hv Hf Hroom) as (a & m' & Ha).
  pose proof (add_cases _ _ _ _ _ Hm Ha) as [Hm' Hadd].
  destruct (Api.post_tx (to_vec tx) st) as [r st'] eqn:Hpost. pose proof Hpost as Hout.
  apply (post_tx_cases _ tx) in Hout as [(Hm1 & Hs1 & Hp1) Hout]; [|done|apply from_slice_to_vec].
  assert (Hr : r = Ok (json_ok (JsonObject [("tx_hash", JsonString (hex_encode (Transaction_hash tx)))]))
    ∧ n_mempool st' = m').
  { revert Hpost. unfold Api.post_tx. rewrite from_slice_to_vec, Ha. cbv zeta.
    destruct (newly_added a); by intros [= <- <-]. }
  destruct Hr as [-> Hpool]. exists st'. split_and!; [|done..| |by eapply post_tx_effects|].
  - unfold rpc_post_tx, call, st_map_err, mbind, ST_bind.
    cbn [http_post node_http]. rewrite path_from_app.
    erewrite (serve_json "POST" "/tx" (to_vec tx) st); [|by apply post_request_ok|exact Hpost].
    cbn [map_err]. unfold reads.
    rewrite (check_json _ _ (mkTxResponse (hex_encode (Transaction_hash tx)))); [done| |apply decode_tx_eq].
    constructor; [names_distinct|by repeat constructor].
  - rewrite Hpool. destruct (newly_added a).
    + destruct Hadd as (_ & _ & _ & _ & [(_ & _ & Hp)|(k & old & w & _ & _ & _ & _ & _ & _ & Hin)]).
      * rewrite Hp. set_solver.
      * apply elem_of_key. exists tx. apply Hin. by left.
    + by destruct Hadd as [-> ?].
  - intros Hnew. remember (Ok (json_ok _)) as rr eqn:Hrr. destruct Hout as [a' Hadm Hsends|Hin|msg _ Hsame _|_ _].
    + split; [|done]. destruct Hadm as (_ & _ & _ & _ & [(_ & _ & Hp)|(k & old & w & _ & _ & Hcap & _)]); [done|lia].
    + done.
    + rewrite Hpool in Hsame. subst m'. destruct (newly_added a); [|by destruct Hadd].
      destruct Hadd as (_ & _ & _ & _ & [(_ & _ & Hp)|(k & old & w & _ & _ & Hcap & _)]); [|lia].
      apply Permutation_length in Hp. cbn in Hp. lia.
    + done.
Qed.
End calls.

(** ** The properties *)

Section properties.
Context `{Crypto} `{CoreJson} `{JsonParse} `{BuildProfile} `{HashOrder} `{UnstableSort}.
Context `{Ciphers} `{KeystoreJson}.
Context {S : Type} `{!BlockStore S} `{!UtxoStore S} `{!ValidatorStore S} `{!StoreLaws S}.

(** What [send] leads to; [payable] is the situation of the owner of the key:
    its outputs cover the amount and no pooled transaction spends them, there is
    room in the mempool, and the transaction is a new one of a size a request
    can have. *)
Record payable st (sk : SigningKey) (recipient : Address) (value : Z) (l : list (TxOutRef * TxOutput)) : Prop := {
  sd_store : store_ok (n_store st);
  sd_mempool : mempool_ok (n_mempool st);
  sd_listed : list_utxos (Address.from_pubkey_bytes (vk_as_bytes (verifying_key sk))) (n_store st) = Ok l;
  sd_read ro : ro ∈ l → ∃ o, utxo_get ro.1 (n_store st) = Ok o;
  sd_entries : Forall (fun ro => length (tx_hash ro.1) = 32%nat ∧ entry_fits ro) l;
  sd_total : sumZ (amount <$> l.*2) < 2 ^ 64;
  sd_covered : 0 < value ≤ sumZ (amount <$> l.*2);
  sd_unspent r : r ∈ l.*1 → r ∉ in_flight (n_mempool st);
  sd_room : (length (mp_txs (n_mempool st)) < max_size (n_mempool st))%nat;
  sd_new sel tx : select_coins (utxo_item <$> l) value = Ok sel →
    build_transfer sk (selected sel) recipient value
      (Address.from_pubkey_bytes (vk_as_bytes (verifying_key sk))) = Ok tx →
    Transaction_hash tx ∉ (mp_txs (n_mempool st)).*1 ∧ Z.of_nat (length (to_vec tx)) ≤ MAX_BODY;
}.

Lemma send_spec base st to_ recipient value path pass sk l fs :
  let sender := Address.from_pubkey_bytes (vk_as_bytes (verifying_key sk)) in
  load_and_decrypt path pass fs = Ok sk → Address.validate to_ = Ok recipient → payable st sk recipient value l →
  ∃ sel tx st',
    cmd_send (new_client (HttpTransport0 := node_http base) base) to_ value path (inr pass) fs st =
      (Ok (hex_encode (Transaction_hash tx)), st') ∧
    select_coins (utxo_item <$> l) value = Ok sel ∧
    build_transfer sk (selected sel) recipient value sender = Ok tx ∧
    validate_transaction tx (n_store st) = Ok tt ∧
    outputs tx = transfer_outputs recipient sender value (value_in (utxos (view (n_store st))) tx) ∧
    value_out tx = value_in (utxos (view (n_store st))) tx ∧
    NoDup (spent_refs tx) ∧ (∀ r, r ∈ spent_refs tx → r ∈ l.*1) ∧
    mp_txs (n_mempool st') ≡ₚ (Transaction_hash tx, tx) :: mp_txs (n_mempool st) ∧
    sends st st' ≡ₚ (fun at_ => TrySend at_.2 (NewTx tx)) <$> map_to_list (n_peers st) ∧
    (∃ es, n_effects st' = n_effects st ++ es ∧ Forall tx_effect es) ∧
    n_store st' = n_store st ∧ n_peers st' = n_peers st.
Proof.
  intros sender Hk Hto [Hs Hm Hlist Hread Hl Hsum Hv Hflight Hroom Htx].
  assert (Hfit : Forall entry_fits l) by (eapply Forall_impl; [exact Hl|]; naive_solver).
  assert (Hl' : Forall (fun ro => length (tx_hash ro.1) = 32%nat ∧ u64 (amount ro.2)) l).
  { eapply Forall_impl; [exact Hl|]. unfold entry_fits. naive_solver. }
  assert (Hsel : ∃ sel, select_coins (utxo_item <$> l) value = Ok sel).
  { pose proof (select_coins_cases (utxo_item <$> l) value) as Hc.
    destruct (select_coins _ _) as [sel|e|]; [eauto|exfalso..].
    - destruct Hc as (_ & [Hnil|Hlt]); [|unfold u64; lia| |].
      + apply Forall_fmap. eapply Forall_impl; [exact Hl'|]. naive_solver.
      + apply fmap_nil_inv in Hnil as ->. cbn in Hv. lia.
      + rewrite amounts_items in Hlt. lia.
    - apply Hc; [|unfold u64; lia]. apply Forall_fmap. eapply Forall_impl; [exact Hl'|]. naive_solver. }
  destruct Hsel as [sel Hsel].
  destruct (wallet_transfer_spec (n_store st) sk l recipient value sel Hs Hlist Hread Hl' Hsum ltac:(lia) Hsel)
    as (tx & Hb & Hval & Hout & Htotal & Hnodup & Hrefs).
  destruct (Htx sel tx Hsel Hb) as [Hnew Hsize].
  destruct (client_post base tx st) as (st' & Hpost & Hst & Hpeers & _ & _ & Heff & Hin); [done..| |done|done|].
  { intros r Hr. by apply Hflight, Hrefs. }
  destruct (Hin Hnew) as [Hpool Hsends]. exists sel, tx, st'. split_and!; try done.
  unfold cmd_send, mbind, ST_bind, reads. cbn [prompt of_sum map_err]. rewrite Hk, Hto. cbn [map_err].
  cbn [cl_utxos new_client cl_post]. fold sender.
  rewrite (client_utxos base (as_str sender) sender l st); [|by apply validate_Ok; split; [apply from_pubkey_bytes_string|]|done|done].
  rewrite Hsel. fold sender in Hb. rewrite Hb, Hpost. done.
Qed.

(** C14: a payment from the command line to the network.  The owner of a key file
    whose outputs on the node cover the amount, none of them already spent by a
    pooled transaction, runs [send] against a node with room in its mempool:
    the command succeeds and prints the hash of a transaction that is valid on
    the node, pays the recipient the amount and the sender the rest, is now in
    the mempool, and has been sent to every peer of the node exactly once;
    nothing else changed. *)
Theorem send_end_to_end base st to_ recipient value path pass sk l fs :
  let sender := Address.from_pubkey_bytes (vk_as_bytes (verifying_key sk)) in
  store_ok (n_store st) → mempool_ok (n_mempool st) →
  load_and_decrypt path pass fs = Ok sk → Address.validate to_ = Ok recipient →
  list_utxos sender (n_store st) = Ok l → (∀ ro, ro ∈ l → ∃ o, utxo_get ro.1 (n_store st) = Ok o) →
  Forall (fun ro => length (tx_hash ro.1) = 32%nat ∧ entry_fits ro) l →
  sumZ (amount <$> l.*2) < 2 ^ 64 → 0 < value ≤ sumZ (amount <$> l.*2) →
  (∀ r, r ∈ l.*1 → r ∉ in_flight (n_mempool st)) →
  (length (mp_txs (n_mempool st)) < max_size (n_mempool st))%nat →
  (∀ sel tx, select_coins (utxo_item <$> l) value = Ok sel →
     build_transfer sk (selected sel) recipient value sender = Ok tx →
     Transaction_hash tx ∉ (mp_txs (n_mempool st)).*1 ∧ Z.of_nat (length (to_vec tx)) ≤ MAX_BODY) →
  ∃ tx st',
    cmd_send (new_client (HttpTransport0 := node_http base) base) to_ value path (inr pass) fs st =
      (Ok (hex_encode (Transaction_hash tx)), st') ∧
    validate_transaction tx (n_store st) = Ok tt ∧
    outputs tx = transfer_outputs recipient sender value (value_in (utxos (view (n_store st))) tx) ∧
    mp_txs (n_mempool st') ≡ₚ (Transaction_hash tx, tx) :: mp_txs (n_mempool st) ∧
    sends st st' ≡ₚ (fun at_ => TrySend at_.2 (NewTx tx)) <$> map_to_list (n_peers st) ∧
    n_store st' = n_store st ∧ n_peers st' = n_peers st.
Proof.
  intros sender Hs Hm Hk Hto Hlist Hread Hl Hsum Hv Hflight Hroom Htx.
  destruct (send_spec base st to_ recipient value path pass sk l fs Hk Hto) as
    (sel & tx & st' & Hrun & _ & _ & Hval & Hout & _ & _ & _ & Hpool & Hsends & _ & Hst & Hp); [by constructor|].
  by exists tx, st'.
Qed.
End properties.
