(* ===== verification/Payment.v ===== *)
(** * A payment, from the command line to every balance

    The client of [Cli], the HTTP interface of [Api], block production and the
    gossip of [Gossip] in one run: a payment sent to one node changes the balances
    on all nodes that are connected to it. *)

From S2P Require Import Prelude Bytes Types Encoding Consensus Store Ledger Validation Mempool DebugEvent Node Handler.
From S2P Require Import Protocol SlotTicker Reliable Gossip Flood Api Http Wallet Rpc Keystore Cli Network.

(** ** What a transfer does to balances *)

Section transfers.
Context `{Crypto} `{CoreJson} `{BuildProfile} `{HashOrder} `{UnstableSort}.

(** A transaction with at most [2^32] outputs creates distinct references. *)
Lemma created_refs_nodup tx : Z.of_nat (length (outputs tx)) ≤ 2 ^ 32 → NoDup (created_refs tx).
Proof.
  intros Hl. unfold created_refs. apply NoDup_fmap_2_strong; [|apply NoDup_seq].
  intros i j Hi Hj. rewrite elem_of_seq in Hi, Hj. unfold output_ref, wrap_u32. intros [= Heq].
  rewrite !Z.mod_small in Heq by lia. lia.
Qed.

Lemma transfer_outputs_length recipient change value total :
  (length (transfer_outputs recipient change value total) ≤ 2)%nat.
Proof. unfold transfer_outputs. destruct (value <? total); cbn; lia. Qed.

(** The outputs of one owner count for its balance and for no other. *)
Lemma sum_in_owner a owner u tx :
  (∀ r, r ∈ spent_refs tx → ∃ o, u !! r = Some o ∧ out_address o = owner) →
  sum_in (owned_by a) u tx = if decide (a = owner) then value_in u tx else 0.
Proof.
  unfold sum_in, value_in. induction (spent_refs tx) as [|r l IH]; intros Ho; cbn; [by case_decide|].
  rewrite IH by (intros; apply Ho; by right). destruct (Ho r ltac:(by left)) as (o & Hr & Hown).
  unfold ref_sum, ref_value, owned_by. rewrite Hr, Hown. repeat case_decide; subst; done || lia.
Qed.

Lemma sum_out_transfer a recipient change value total tx :
  outputs tx = transfer_outputs recipient change value total → recipient ≠ change → value ≤ total →
  sum_out (owned_by a) tx =
    if decide (a = recipient) then value else if decide (a = change) then total - value else 0.
Proof.
  intros Ho Hne Hle. unfold sum_out, transfer_outputs in *. rewrite Ho. unfold owned_by.
  destruct (Z.ltb_spec value total); cbn; repeat case_decide; subst; done || lia.
Qed.

(** A payment moves its amount from the sender to the recipient. *)
Lemma payment_balances u tx recipient sender value :
  outputs tx = transfer_outputs recipient sender value (value_in u tx) →
  recipient ≠ sender → value ≤ value_in u tx → NoDup (spent_refs tx) →
  (∀ r, r ∈ spent_refs tx → ∃ o, u !! r = Some o ∧ out_address o = sender) →
  (∀ r, r ∈ created_refs tx → u !! r = None) →
  balance_of recipient (ledger_txs [tx] u) = balance_of recipient u + value ∧
  balance_of sender (ledger_txs [tx] u) = balance_of sender u - value.
Proof.
  intros Hout Hne Hle Hnd Hown Hfresh.
  assert (Hind : txs_independent [tx] u).
  { unfold txs_independent. cbn. rewrite !app_nil_r. split_and!; [|done..|].
    - apply created_refs_nodup. rewrite Hout. pose proof (transfer_outputs_length recipient sender value (value_in u tx)). lia.
    - intros r Hr. destruct (Hown r Hr) as (o & -> & _). by eexists. }
  rewrite !balance_ledger_txs by done. cbn.
  rewrite !(sum_in_owner _ sender), !(sum_out_transfer _ recipient sender value _ _ Hout) by done.
  repeat case_decide; subst; done || lia.
Qed.

(** The pool of a single transaction. *)
Lemma drain_single m k tx : mp_txs m = [(k, tx)] → Mempool.drain MAX_TXS_PER_BLOCK m = [tx].
Proof.
  intros Hm. unfold Mempool.drain. rewrite Hm. cbn [fmap list_fmap snd].
  set (l := [_]). set (le := fun a b => _).
  pose proof (sort_unstable_perm le l) as Hp. apply Permutation_singleton_r in Hp as ->. done.
Qed.
End transfers.

(** ** The property *)

Section payment.
Context `{Crypto} `{CoreJson} `{JsonParse} `{Json Message} `{BuildProfile} `{HashOrder} `{UnstableSort}.
Context `{Ciphers} `{KeystoreJson}.
Context {S : Type} `{!BlockStore S} `{!UtxoStore S} `{!ValidatorStore S} `{!StoreLaws S} `{!Reliable S}.
Context (configs : nat → NodeConfig) (far : nat → Sender → option (nat * SocketAddr)).

(** The block node [a] makes of a single transaction. *)
Definition block_of (a : nat) (now t : Z) (parent : Block) (tx : Transaction) : Block :=
  make_block (configs a) (Block_hash parent) (t + 1) (now `div` slot_duration_secs (configs a)) now [tx].

(** Sending a transaction keeps a network ready for its next block. *)
Lemma elected_after_send nodes a now t v parent st st' p :
  elected_net configs far nodes [] a now t v parent st p →
  n_store st' = n_store st → n_peers st' = n_peers st →
  (∃ es, n_effects st' = n_effects st ++ es ∧ Forall tx_effect es) →
  let nodes' := <[a := st']> nodes in
  elected_net configs far nodes' (new_packets far a st st') a now t v parent st' p ∧
  n_peers <$> nodes = n_peers <$> nodes' ∧
  (∀ block, deliverable nodes block → deliverable nodes' block).
Proof.
  intros [[Hw _ Hagree] Ha [Hpar Ht Htime Hel Hkey]] Hs Hp (es & He & Htx). cbv zeta.
  assert (Hlt : (a < length nodes)%nat) by by eapply lookup_lt_Some.
  assert (Hpeers : n_peers <$> nodes = n_peers <$> <[a := st']> nodes).
  { rewrite list_fmap_insert, Hp, list_insert_id; [done|]. by rewrite list_lookup_fmap, Ha. }
  assert (Hst : ∀ i x, <[a := st']> nodes !! i = Some x → ∃ y, nodes !! i = Some y ∧ n_store x = n_store y).
  { intros i x [(<- & <- & _)|(_ & Hi)]%list_lookup_insert_Some; [by exists st|by exists x]. }
  split_and!; [constructor; [constructor| |constructor]|done|]; try done.
  - by apply (wired_peers _ nodes).
  - intros q. rewrite (new_packets_app _ _ _ _ _ He). apply (other_packets _ is_tx). by apply tx_effects_other.
  - intros i x (y & Hy & ->)%Hst. by apply Hagree.
  - by apply list_lookup_insert_eq.
  - destruct Hel as [? ? ? ? ?]. constructor; by rewrite ?Hs.
  - intros block [Hfits Hnew]. split; [done|]. intros i x (y & Hy & ->)%Hst. by eapply Hnew.
Qed.

(** The transaction of a payment, and the balances once it has been applied. *)
Lemma send_balances base st to_ recipient value path pass sk l fs u :
  let sender := Address.from_pubkey_bytes (vk_as_bytes (verifying_key sk)) in
  load_and_decrypt path pass fs = Ok sk → Address.validate to_ = Ok recipient → payable st sk recipient value l →
  mp_txs (n_mempool st) = [] → recipient ≠ sender → utxos (view (n_store st)) = u →
  ∃ sel tx st', cmd_send (new_client (HttpTransport0 := node_http base) base) to_ value path (inr pass) fs st =
      (Ok (hex_encode (Transaction_hash tx)), st') ∧
    select_coins (utxo_item <$> l) value = Ok sel ∧ build_transfer sk (selected sel) recipient value sender = Ok tx ∧
    validate_transaction tx (n_store st) = Ok tt ∧
    mp_txs (n_mempool st') = [(Transaction_hash tx, tx)] ∧
    (∃ es, n_effects st' = n_effects st ++ es ∧ Forall tx_effect es) ∧
    n_store st' = n_store st ∧ n_peers st' = n_peers st ∧
    ((∀ r, r ∈ created_refs tx → u !! r = None) →
     balance_of recipient (ledger_txs [tx] u) = balance_of recipient u + value ∧
     balance_of sender (ledger_txs [tx] u) = balance_of sender u - value).
Proof.
  intros sender Hk Hto Hpay Hempty Hne Hu.
  destruct (send_spec base st to_ recipient value path pass sk l fs Hk Hto Hpay) as
    (sel & tx & st' & Hrun & Hsel & Hb & Hval & Hout & Htot & Hnd & Hrefs & Hpool & _ & Heff & Hs & Hp).
  destruct (listed_entries _ _ _ (sd_store _ _ _ _ _ Hpay) (sd_listed _ _ _ _ _ Hpay)) as [_ Hget].
  exists sel, tx, st'. split_and!; try done.
  - rewrite Hempty in Hpool. by apply Permutation_singleton_r in Hpool.
  - intros Hfresh. rewrite Hu in Hout, Htot, Hget. apply payment_balances; try done.
    + rewrite <- Htot. unfold value_out. rewrite Hout. unfold transfer_outputs.
      destruct (Z.ltb_spec value (value_in u tx)); cbn; lia.
    + intros r ([r' o] & -> & Hr)%Hrefs%list_elem_of_fmap. destruct (Hget _ Hr). by exists o.
Qed.

(** C1: a payment arrives everywhere.  In a network in agreement with no message
    under way, the owner of a key file pays with [send] at the node that is
    elected for the next slot and whose mempool is empty.  The command succeeds;
    when the slot comes, the node makes a block of the transaction; the
    deliveries of that block can be completed; and under every order of deliveries, once no
    frame with the block is left, every node connected to the first, directly
    or through others, has credited the recipient with the amount and
    debited the sender with it. *)
Theorem payment_reaches_network base nodes a now t v parent st p to_ recipient value path pass sk l fs :
  let sender := Address.from_pubkey_bytes (vk_as_bytes (verifying_key sk)) in
  elected_net configs far nodes [] a now t v parent st p →
  load_and_decrypt path pass fs = Ok sk → Address.validate to_ = Ok recipient → recipient ≠ sender →
  payable st sk recipient value l → mp_txs (n_mempool st) = [] →
  (∀ sel tx, select_coins (utxo_item <$> l) value = Ok sel →
     build_transfer sk (selected sel) recipient value sender = Ok tx →
     (∀ r, r ∈ created_refs tx → utxos v !! r = None) ∧ deliverable nodes (block_of a now t parent tx)) →
  ∃ tx st' net,
    cmd_send (new_client (HttpTransport0 := node_http base) base) to_ value path (inr pass) fs st =
      (Ok (hex_encode (Transaction_hash tx)), st') ∧
    let frame := to_vec (NewBlock (block_of a now t parent tx)) in
    net_step configs far None (mkNet (<[a := st']> nodes) (new_packets far a st st')) net ∧
    (∃ ps net', deliveries configs far ps net net' ∧ ∀ q, q ∈ net_wire net' → payload q ≠ frame) ∧
    ∀ ps net', deliveries configs far ps net net' → (∀ q, q ∈ net_wire net' → payload q ≠ frame) →
      ∀ i, rtc (linked far nodes) a i → ∃ x, net_nodes net' !! i = Some x ∧
        balance_of recipient (utxos (view (n_store x))) = balance_of recipient (utxos v) + value ∧
        balance_of sender (utxos (view (n_store x))) = balance_of sender (utxos v) - value.
Proof.
  intros sender Hel Hk Hto Hne Hpay Hempty Hnew.
  destruct (ag_nodes _ _ _ _ _ _ _ (el_agreement _ _ _ _ _ _ _ _ _ _ _ Hel) _ _ (el_node _ _ _ _ _ _ _ _ _ _ _ Hel)) as (_ & Hv & _).
  destruct (send_balances base st to_ recipient value path pass sk l fs (utxos v) Hk Hto Hpay Hempty Hne ltac:(by rewrite Hv))
    as (sel & tx & st' & Hrun & Hsel & Hb & Hval & Hpool & Heff & Hs & Hp & Hbal).
  destruct (Hnew sel tx Hsel Hb) as [Hfresh Hdel]. specialize (Hbal Hfresh).
  destruct (elected_after_send _ _ _ _ _ _ _ st' _ Hel Hs Hp Heff) as (Hel' & Hpeers & Hdel').
  assert (Hblock : next_block configs a now t parent st' = block_of a now t parent tx)
    by (unfold next_block; by rewrite (drain_single _ _ _ Hpool)).
  destruct (elected_spreading _ _ _ _ _ _ _ _ _ _ _ Hel') as (st2 & r & _ & _ & _ & Hstep & Hsp & Hinv & Hra & Hpeers' & _);
    [rewrite Hblock, Hs; by intros x ->%list_elem_of_singleton|rewrite Hblock; by apply Hdel'|].
  rewrite Hblock in *. eexists tx, st', _. split; [done|]. split; [exact Hstep|].
  split; [by eapply spreading_completes|]. intros ps net' Hps Hno i Hl.
  destruct (deliveries_spreading _ _ _ _ _ _ _ _ _ _ Hps Hinv) as (Hinv' & Hp' & Hmono & _).
  destruct (spreading_done _ _ _ _ _ _ net' a i Hinv' Hno) as (x & Hx & [_ Hview]); [|by apply Hmono|].
  - apply (rtc_congruence id (R := linked far nodes)); [|exact Hl]. intros j k. apply linked_peers. congruence.
  - exists x. split; [done|]. rewrite Hview. exact Hbal.
Qed.
End payment.
