(* ===== verification/Testnet.v ===== *)
(** * A network of modelled nodes under the visualizer

    The [World] of the scenarios made of nodes as they are modelled here: a
    request to a URL is served by the node behind it, and while the scenario
    sleeps the nodes move on in any way.  On such a network the scenario
    [invalid_tx_rejection] passes. *)

From S2P Require Import Prelude Bytes Types Encoding Store Ledger Validation Mempool DebugEvent Node Handler.
From S2P Require Import Protocol Api Http EventBus Wallet Rpc World Split Scenarios Network.

Record Testnet (S : Type) := mkTestnet {
  nodes : gmap string (NodeState S);
  clock : Z;
  tn_bus : EventBus;
}.
Arguments mkTestnet {S}.
Arguments nodes {S}.
Arguments clock {S}.
Arguments tn_bus {S}.

(** What the model leaves open: how the nodes change while time passes, the order
    of concurrent requests, and the rendering of the clock. *)
Class Surroundings (S : Type) := {
  advance : Z → gmap string (NodeState S) → gmap string (NodeState S);
  request_order : nat → list nat;
  request_order_perm n : request_order n ≡ₚ seq 0 n;
  date : Z → string;
}.

Section testnet.
Context `{Crypto} `{CoreJson} `{JsonParse} `{BuildProfile} `{HashOrder} `{UnstableSort}.
Context {S : Type} `{!BlockStore S} `{!UtxoStore S} `{!ValidatorStore S} `{!Surroundings S}.

(** A request to the node behind a URL. *)
Definition at_node {A} (url : string) (m : ST (NodeState S) ClientError A) : ST (Testnet S) ClientError A := fun w =>
  match nodes w !! url with
  | Some st => let '(r, st') := m st in (r, mkTestnet (<[url := st']> (nodes w)) (clock w) (tn_bus w))
  | None => (Err (Rpc "connection refused"), w)
  end.

Definition testnet_client (url : string) : RpcClient (Testnet S) :=
  let c := new_client (HttpTransport0 := node_http url) url in
  mkRpcClient (at_node url (cl_tip c)) (fun a => at_node url (cl_balance c a))
    (fun a => at_node url (cl_utxos c a)) (fun tx => at_node url (cl_post c tx)).

#[export] Instance testnet_world : World (Testnet S) := {|
  client_of := testnet_client;
  instant := clock;
  sleep d w := mkTestnet (advance (clock w) (nodes w)) (clock w + Z.max 0 d) (tn_bus w);
  join_order _ n := request_order n;
|}.

#[export] Instance testnet_tool : Tool (Testnet S) := {|
  utc_now w := date (clock w);
  bus := tn_bus;
  set_bus b w := mkTestnet (nodes w) (clock w) b;
|}.

(** The clock does not go back and no event is taken back. *)
Definition tn_later (w w' : Testnet S) : Prop :=
  clock w ≤ clock w' ∧ sent (tn_bus w) `prefix_of` sent (tn_bus w').

#[export] Instance tn_later_order : PreOrder tn_later.
Proof.
  split; [intros w; split; [lia|done]|].
  intros w1 w2 w3 [??] [??]. split; [lia|by etrans].
Qed.

Lemma at_node_later {A} url (m : ST (NodeState S) ClientError A) w : tn_later w (at_node url m w).2.
Proof. unfold at_node. destruct (nodes w !! url) as [st|]; [destruct (m st)|]; by split. Qed.

#[export, refine] Instance testnet_laws : WorldLaws (Testnet S) := {| later := tn_later |}.
Proof.
  - by intros w w' [].
  - intros d w. split; [cbn; lia|done].
  - intros d w. cbn. lia.
  - intros url w. apply at_node_later.
  - intros url a w. apply at_node_later.
  - intros url a w. apply at_node_later.
  - intros url tx w. apply at_node_later.
  - intros w n. apply request_order_perm.
Defined.

#[export] Instance testnet_tool_laws : ToolLaws (Testnet S).
Proof.
  constructor.
  - done.
  - intros w w' Hl. apply Hl.
  - intros b w Hb. split; [cbn; lia|done].
Qed.

(** ** Rejected transactions *)

(** The nodes keep their stores and mempools. *)
Definition at_rest (ns : gmap string (NodeState S)) (w : Testnet S) : Prop :=
  ∀ url st, ns !! url = Some st →
    ∃ st', nodes w !! url = Some st' ∧ n_store st' = n_store st ∧ n_mempool st' = n_mempool st.

(** [m] runs to a value in [Q] on nodes at rest, and leaves them so. *)
Definition passes {E A} (ns : gmap string (NodeState S)) (m : ST (Testnet S) E A) (Q : A → Prop) : Prop :=
  ∀ w, at_rest ns w → ∃ a w', m w = (Ok a, w') ∧ at_rest ns w' ∧ Q a.

Lemma passes_ret {E A} ns (a : A) (Q : A → Prop) : Q a → passes (E := E) ns (mret a) Q.
Proof. intros Hq w Hw. by exists a, w. Qed.

Lemma passes_reads {E A} ns (f : Testnet S → Res E A) (Q : A → Prop) :
  (∀ w, ∃ a, f w = Ok a ∧ Q a) → passes ns (reads f) Q.
Proof. intros Hf w Hw. destruct (Hf w) as (a & Ha & Hq). exists a, w. unfold reads. by rewrite Ha. Qed.

Lemma passes_bind {E A B} ns (m : ST (Testnet S) E A) (k : A → ST (Testnet S) E B) (P : A → Prop) (Q : B → Prop) :
  passes ns m P → (∀ a, P a → passes ns (k a) Q) → passes ns (m ≫= k) Q.
Proof.
  intros Hm Hk w Hw. destruct (Hm w Hw) as (a & w1 & Ha & Hw1 & Hp). destruct (Hk a Hp w1 Hw1) as (b & w2 & Hb & Hq).
  exists b, w2. unfold mbind, ST_bind. by rewrite Ha.
Qed.

Lemma passes_publish {E} ns a b c d : passes (E := E) ns (publish_step a b c d) (fun _ => True).
Proof. intros w Hw. eexists _, _. split; [done|]. split; [exact Hw|done]. Qed.

(** A request that the nodes of [ns] answer without changing. *)
Lemma passes_request {E A} ns url st (m : ST (NodeState S) ClientError A) (Q : Res ClientError A → Prop) :
  ns !! url = Some st →
  (∀ st1, n_store st1 = n_store st → n_mempool st1 = n_mempool st →
    ∃ r st2, m st1 = (r, st2) ∧ r ≠ Panic ∧ Q r ∧ n_store st2 = n_store st ∧ n_mempool st2 = n_mempool st) →
  passes (E := E) ns (request (at_node url m)) Q.
Proof.
  intros Hst Hm w Hw. destruct (Hw url st Hst) as (st1 & Hst1 & Hs & Hp).
  destruct (Hm st1 Hs Hp) as (r & st2 & Hr & Hnp & Hq & Hs2 & Hp2).
  unfold request, at_node. rewrite Hst1, Hr.
  set (w2 := mkTestnet (<[url := st2]> (nodes w)) (clock w) (tn_bus w)).
  exists r, w2. split; [by destruct r|]. split; [|done].
  intros url' st' Hst'. cbn [nodes w2]. destruct (decide (url' = url)) as [->|Hne].
  - rewrite lookup_insert_eq. exists st2. rewrite Hst in Hst'. by injection Hst' as <-.
  - rewrite lookup_insert_ne by done. by apply Hw.
Qed.

Lemma passes_join_all {E A} ns (futs : list (ST (Testnet S) E A)) (Q : A → Prop) :
  Forall (fun fut => passes ns fut Q) futs → passes ns (join_all futs) (Forall Q).
Proof.
  intros Hf w Hw. destruct (join_all_answers (at_rest ns) (fun _ => Q) futs w) as (rs & w' & Hj & Hw' & _ & Hq); [|done|].
  - intros i fut w1 Hi Hw1. destruct (Forall_lookup_1 _ _ _ _ Hf Hi w1 Hw1) as (a & w2 & Ha & Hw2 & Hq). by exists a, w2.
  - exists rs, w'. split_and!; [done..|]. by apply Forall_lookup.
Qed.

(** A transaction every node of the scenario turns down. *)
Definition turned_down (ns : gmap string (NodeState S)) (ports : list string) (tx : Transaction) : Prop :=
  Z.of_nat (length (to_vec tx)) ≤ MAX_BODY ∧
  ∀ url, url ∈ ports → ∃ st e, ns !! url = Some st ∧ validate_transaction tx (n_store st) = Err e ∧
    Transaction_hash tx ∉ (mp_txs (n_mempool st)).*1.

Lemma passes_reject_case ns start ports steps case tx :
  turned_down ns ports tx → passes ns (reject_case start ports steps case tx) (fun _ => True).
Proof.
  intros [Hsize Hdown]. unfold reject_case, assert_all_reject.
  apply (passes_bind _ _ _ (fun r => ∃ detail, r = Ok detail)).
  { apply (passes_bind _ _ _ (Forall (fun r => is_ok r = false))).
    - apply passes_join_all, Forall_fmap, Forall_forall. intros url Hu. unfold compose.
      destruct (Hdown url Hu) as (st & e & Hst & Hv & Hno).
      apply (passes_request _ _ st _ _ Hst). intros st1 Hs Hm.
      destruct (client_post_rejected url tx st1 e) as (ce & st2 & Hr & Hs2 & Hm2); [by rewrite Hs|by rewrite Hm|done|].
      exists (Err ce), st2. split_and!; [exact Hr|done|done|by rewrite Hs2|by rewrite Hm2].
    - intros rs Hrs. apply passes_ret. assert (filter (fun r => is_ok r = true) rs = []) as ->; [|eauto].
      apply elem_of_nil_inv. intros r [Hr Hin]%list_elem_of_filter.
      rewrite (proj1 (Forall_forall _ _) Hrs r Hin) in Hr. done. }
  intros r [detail ->]. cbn [or_else].
  apply (passes_bind _ _ _ (fun _ => True)); [by apply passes_ret|intros d _].
  apply (passes_bind _ _ _ (fun _ => True)); [by apply passes_reads; eauto|intros st _].
  apply (passes_bind _ _ _ (fun _ => True)); [apply passes_publish|intros _ _]. by apply passes_ret.
Qed.

(** The three malformed transactions for a listed output. *)
Definition bad_signature_tx (ro : TxOutRef * TxOutput) : Transaction :=
  unsigned_tx ro.1 (amount ro.2 `div` 2) (recipient_addr 0xB1).
Definition overspend_tx (ro : TxOutRef * TxOutput) : Transaction :=
  signed_by_funder (unsigned_tx ro.1 (amount ro.2 + 1) (recipient_addr 0xB2)).
Definition phantom_ref : TxOutRef := mkTxOutRef (replicate 32 xde) 0.
Definition phantom_tx : Transaction :=
  signed_by_funder (unsigned_tx phantom_ref 1000 (recipient_addr 0xB3)).

(** *** Why they are turned down *)

Lemma check_one_input (utxo : S) msg input :
  utxo_get (out_ref input) utxo ≠ Panic →
  (∃ e, check_inputs utxo msg 0 0 [input] = Err e) ∨
  ∃ o, input_ok utxo msg input o ∧ check_inputs utxo msg 0 0 [input] = Ok (saturating_add 0 (amount o)).
Proof.
  intros Hg. destruct (input_cases utxo msg 0 0 input []) as [[o Ho]|[(e & _ & He)|[_ He]]]; [|by left; exists e|].
  - right. exists o. split; [done|]. by rewrite (check_inputs_step _ _ _ _ _ _ o Ho).
  - exfalso. revert He. cbn [check_inputs]. destruct (utxo_get _ _) as [[o|]|e|]; cbn; [|done..].
    case_bool_decide; [done|]. unfold verify. by destruct (ed25519_verify _ _ _).
Qed.

Lemma bad_signature_Err ro (utxo : S) e :
  utxo_get ro.1 utxo ≠ Panic →
  verify (verifying_key funder_key) (tx_signing_bytes (bad_signature_tx ro)) placeholder_signature = Err e →
  ∃ e', validate_transaction (bad_signature_tx ro) utxo = Err e'.
Proof.
  intros Hg Hv. unfold validate_transaction. cbn [bad_signature_tx unsigned_tx outputs inputs].
  rewrite bool_decide_false by done. cbn [check_outputs].
  destruct (_ =? 0); [by eexists|]. cbn [mbind Res_bind].
  destruct (check_one_input utxo (tx_signing_bytes (bad_signature_tx ro))
    (mkTxInput ro.1 placeholder_signature (verifying_key funder_key)) Hg) as [[e' He]|(o & (_ & _ & Ho) & _)].
  - fold (bad_signature_tx ro). rewrite He. by exists e'.
  - cbn [in_pubkey in_signature] in Ho. congruence.
Qed.

Lemma overspend_Err ro (utxo : S) :
  utxo_get ro.1 utxo ≠ Panic → (∀ o, utxo_get ro.1 utxo = Ok (Some o) → amount o = amount ro.2) →
  0 ≤ amount ro.2 → amount ro.2 + 1 < 2 ^ 64 →
  ∃ e, validate_transaction (overspend_tx ro) utxo = Err e.
Proof.
  intros Hg Ha Hpos Hmax. unfold validate_transaction.
  cbn [overspend_tx signed_by_funder unsigned_tx outputs inputs kind set_signature out_ref in_pubkey].
  rewrite bool_decide_false by done. cbn [check_outputs amount].
  destruct (Z.eqb_spec (amount ro.2 + 1) 0); [lia|]. cbn [mbind Res_bind].
  lazymatch goal with |- context [check_inputs utxo ?msg 0 0 [?i]] =>
    destruct (check_one_input utxo msg i Hg) as [[e' ->]|(o & (Ho & _ & _) & ->)] end; [by exists e'|].
  apply Ha in Ho. cbn [mbind Res_bind fmap list_fmap amount]. unfold u64_sum. cbn [u64_sum_from].
  unfold u64_add, arith_u64. rewrite decide_True by (unfold u64; lia). cbn [mbind Res_bind].
  rewrite Ho. unfold saturating_add. rewrite (proj2 (Z.ltb_lt _ _)) by (unfold u64_max; lia). by eexists.
Qed.

Lemma phantom_Err (utxo : S) :
  utxo_get phantom_ref utxo = Ok None → ∃ e, validate_transaction phantom_tx utxo = Err e.
Proof.
  intros Hg. unfold validate_transaction.
  cbn [phantom_tx signed_by_funder unsigned_tx outputs inputs kind set_signature out_ref in_pubkey].
  rewrite bool_decide_false by done. cbn [check_outputs check_inputs amount out_ref].
  change (1000 =? 0) with false. cbv iota. cbn [mbind Res_bind]. unfold set_signature. cbn [out_ref]. rewrite Hg. by eexists.
Qed.

(** *** The listing of the first node *)

Lemma hex_to_hash_encode bs : length bs = 32%nat → hex_to_hash (hex_encode bs) = Ok bs.
Proof. intros Hl. unfold hex_to_hash. rewrite hex_decode_encode. cbn. by rewrite Hl. Qed.

Lemma get_elem n s c : String.get n s = Some c → c ∈ String.list_ascii_of_string s.
Proof.
  revert n. induction s as [|d s IH]; intros [|n]; cbn; [done..| |].
  - intros [= ->]. by left.
  - intros Hc%IH. by right.
Qed.

Lemma slice_to_hex {E} n bs : (n < 2 * length bs)%nat → ∃ h, slice_to (E := E) n (hex_encode bs) = Ok h.
Proof.
  intros Hn. unfold slice_to. destruct (String.get n (hex_encode bs)) as [c|] eqn:Hc.
  - assert (is_continuation c = false) as ->; [|by eexists].
    pose proof (proj1 (Forall_forall _ _) (hex_encode_digits bs) c (get_elem _ _ _ Hc)) as Hd.
    cbn in Hd. repeat (apply elem_of_cons in Hd as [->|Hd]; [done|]). by apply elem_of_nil in Hd.
  - exfalso. rewrite <- (length_hex_encode bs) in Hn. revert Hn Hc. generalize (hex_encode bs) as s.
    intros s. revert n. induction s as [|d s IH]; intros [|n]; cbn; [lia..|done|]. intros Hn. apply IH. lia.
Qed.

(** What the nodes hold about the output and the transactions of the test. *)
Record tested (ro : TxOutRef * TxOutput) (st : NodeState S) : Prop := mkTested {
  td_total : utxo_get ro.1 (n_store st) ≠ Panic;
  td_amount o : utxo_get ro.1 (n_store st) = Ok (Some o) → amount o = amount ro.2;
  td_phantom : utxo_get phantom_ref (n_store st) = Ok None;
  td_pool tx : tx ∈ [bad_signature_tx ro; overspend_tx ro; phantom_tx] →
    Transaction_hash tx ∉ (mp_txs (n_mempool st)).*1;
}.

Lemma passes_invalid ns ports url0 st0 ro l e :
  ports !! 0%nat = Some url0 → ns !! url0 = Some st0 →
  list_utxos funder_addr (n_store st0) = Ok (ro :: l) → Forall entry_fits (ro :: l) →
  length (tx_hash ro.1) = 32%nat → amount ro.2 + 1 < 2 ^ 64 →
  verify (verifying_key funder_key) (tx_signing_bytes (bad_signature_tx ro)) placeholder_signature = Err e →
  (∀ tx, tx ∈ [bad_signature_tx ro; overspend_tx ro; phantom_tx] → Z.of_nat (length (to_vec tx)) ≤ MAX_BODY) →
  (∀ url, url ∈ ports → ∃ st, ns !! url = Some st ∧ tested ro st) →
  passes ns (scenario_invalid_tx_rejection ports) (fun r => sr_status r = Pass).
Proof.
  intros Hurl Hst0 Hlist Hfit Hlen Hmax Hver Hsize Htested.
  assert (Hamount : 0 ≤ amount ro.2) by (apply Forall_cons in Hfit as [[_ ?] _]; unfold u64 in *; lia).
  assert (Hdown : ∀ tx, tx ∈ [bad_signature_tx ro; overspend_tx ro; phantom_tx] → turned_down ns ports tx).
  { intros tx Htx. split; [by apply Hsize|]. intros url Hu. destruct (Htested url Hu) as (st & Hst & [Hg Ha Hph Hpool]).
    enough (∃ e', validate_transaction tx (n_store st) = Err e') as [e' He'] by (exists st, e'; auto).
    repeat (apply elem_of_cons in Htx as [->|Htx]); [| | |by apply elem_of_nil in Htx].
    - by eapply bad_signature_Err.
    - by apply overspend_Err.
    - by apply phantom_Err. }
  unfold scenario_invalid_tx_rejection.
  apply (passes_bind _ _ _ (fun _ => True)); [apply passes_reads; eauto|intros start _].
  apply (passes_bind _ _ _ (fun _ => True)); [apply passes_publish|intros _ _].
  apply (passes_bind _ _ _ (fun u => u = url0)).
  { apply passes_reads. intros _. rewrite Hurl. eauto. }
  intros ? ->. apply (passes_bind _ _ _ (fun r => r = Ok (utxo_item <$> ro :: l))).
  { apply (passes_request _ _ st0 _ _ Hst0). intros st1 Hs Hm. eexists _, st1.
    split; [apply (client_utxos url0 (as_str funder_addr) funder_addr)|done].
    - apply validate_Ok. split; [apply from_pubkey_bytes_string|done].
    - by rewrite Hs.
    - done. }
  intros ? ->. cbn [or_else fmap list_fmap].
  apply (passes_bind _ _ _ (fun us => us = utxo_item <$> ro :: l)); [by apply passes_ret|intros us ->].
  apply (passes_bind _ _ _ (fun _ => True)); [by apply passes_ret|intros _ _].
  apply (passes_bind _ _ _ (fun u => u = utxo_item ro)); [by apply passes_reads; eauto|intros ? ->].
  change (ui_tx_hash (utxo_item ro)) with (hex_encode (tx_hash ro.1)).
  change (ui_index (utxo_item ro)) with (index ro.1). change (ui_amount (utxo_item ro)) with (amount ro.2).
  rewrite hex_to_hash_encode by done. cbn [or_else].
  apply (passes_bind _ _ _ (fun h => h = tx_hash ro.1)); [by apply passes_ret|intros ? ->].
  cbv zeta.
  replace (mkTxOutRef (tx_hash ro.1) (index ro.1)) with ro.1 by by destruct ro as [[]].
  apply (passes_bind _ _ _ (fun _ => True)).
  { apply passes_reads. intros _. destruct (slice_to_hex (E := Stop ScenarioResult) 8 (tx_hash ro.1)) as [h ->]; [lia|eauto]. }
  intros h8 _. apply (passes_bind _ _ _ (fun _ => True)); [apply passes_reads; eauto|intros steps _].
  apply (passes_bind _ _ _ (fun _ => True)); [apply passes_publish|intros _ _].
  apply (passes_bind _ _ _ (fun _ => True)); [apply passes_publish|intros _ _].
  apply (passes_bind _ _ _ (fun _ => True)); [apply passes_reject_case, Hdown; set_solver|intros steps1 _].
  apply (passes_bind _ _ _ (fun _ => True)); [apply passes_publish|intros _ _].
  apply (passes_bind _ _ _ (fun v => v = amount ro.2 + 1)).
  { apply passes_reads. intros _. unfold u64_add, arith_u64. rewrite decide_True by (unfold u64; lia). eauto. }
  intros ? ->.
  apply (passes_bind _ _ _ (fun _ => True)); [apply passes_reject_case, Hdown; set_solver|intros steps2 _].
  apply (passes_bind _ _ _ (fun _ => True)); [apply passes_publish|intros _ _].
  apply (passes_bind _ _ _ (fun _ => True)); [apply passes_reject_case, Hdown; set_solver|intros steps3 _].
  apply passes_reads. eauto.
Qed.

(** C15: on a network of modelled nodes the scenario [invalid_tx_rejection] passes:
    whatever else they hold, if the first node lists an output of the funder, no
    node knows another amount for it or the phantom output, none has one of the
    three malformed transactions in its mempool, and a zero signature does not
    verify, then every node turns every one of them down; stores and mempools
    stay as they were. *)
Theorem invalid_txs_rejected ports url0 st0 ro l e w :
  ports !! 0%nat = Some url0 → nodes w !! url0 = Some st0 →
  list_utxos funder_addr (n_store st0) = Ok (ro :: l) → Forall entry_fits (ro :: l) →
  length (tx_hash ro.1) = 32%nat → amount ro.2 + 1 < 2 ^ 64 →
  verify (verifying_key funder_key) (tx_signing_bytes (bad_signature_tx ro)) placeholder_signature = Err e →
  (∀ tx, tx ∈ [bad_signature_tx ro; overspend_tx ro; phantom_tx] → Z.of_nat (length (to_vec tx)) ≤ MAX_BODY) →
  (∀ url, url ∈ ports → ∃ st, nodes w !! url = Some st ∧ tested ro st) →
  ∃ r w', run_scenario "invalid_tx_rejection" ports w = (Ok r, w') ∧ sr_status r = Pass ∧
    at_rest (nodes w) w'.
Proof.
  intros Hurl Hst0 Hlist Hfit Hlen Hmax Hver Hsize Htested.
  assert (Hrest : at_rest (nodes w) w) by (intros url st Hst; by exists st).
  pose proof (passes_invalid (nodes w) ports url0 st0 ro l e Hurl Hst0 Hlist Hfit Hlen Hmax Hver Hsize Htested) as Hrun.
  cut (passes (nodes w) (run_scenario "invalid_tx_rejection" ports) (fun r => sr_status r = Pass)).
  { intros Hp. destruct (Hp w Hrest) as (r & w' & Hr & Hw' & Hpass). eauto. }
  unfold run_scenario. apply (passes_bind _ _ _ (fun _ => True)); [apply passes_publish|intros _ _].
  apply (passes_bind _ _ _ (fun r => sr_status r = Pass)).
  - intros w1 Hw1. destruct (Hrun w1 Hw1) as (r & w2 & Hr & Hw2 & Hq). exists r, w2.
    unfold returned, scenario_of. rewrite !bool_decide_false by done. rewrite bool_decide_true by done. by rewrite Hr.
  - intros r Hr. apply (passes_bind _ _ _ (fun _ => True)); [apply passes_publish|intros _ _]. by apply passes_ret.
Qed.
End testnet.
