(* ===== verification/Concrete.v ===== *)
(** * Concrete instances of the interfaces

    Executable functions for the external crates that satisfy the laws the
    development assumes of them, so that the theorems can be applied to concrete
    inputs.  They have the types and the laws of the real functions, not their
    security. *)

From Stdlib Require Import Ascii.
From S2P Require Import Prelude Bytes Types Encoding Store Ledger Validation MemoryStore SledStore Reliable.
From S2P Require Import Mempool DebugEvent Node Handler Api Wallet Rpc Keystore Cli.

(** ** A self-delimiting serialisation *)

Class Ser (A : Type) := {
  ser : A → list byte;
  deser : list byte → option (A * list byte);
  deser_ser x rest : deser (ser x ++ rest) = Some (x, rest);
}.

#[global] Instance ser_byte : Ser byte.
Proof. refine {|
  ser b := [b];
  deser bs := match bs with b :: bs' => Some (b, bs') | [] => None end
|}. done. Defined.

#[global] Instance ser_unit : Ser unit.
Proof.
  refine {| ser _ := []; deser bs := Some (tt, bs)
  |}.
  by intros [].
Defined.

#[global] Instance ser_prod {A B} `{Ser A} `{Ser B} : Ser (A * B).
Proof.
  refine {|
  ser ab := ser ab.1 ++ ser ab.2;
  deser bs := '(a, bs) ← deser bs; '(b, bs) ← deser bs; Some ((a, b), bs)
  |}.
  intros [a b] rest. cbn. rewrite <- app_assoc, deser_ser. cbn. by rewrite deser_ser.
Defined.

#[global] Instance ser_sum {A B} `{Ser A} `{Ser B} : Ser (A + B).
Proof.
  refine {|
  ser ab := match ab with inl a => x00 :: ser a | inr b => x01 :: ser b end;
  deser bs :=
    match bs with
    | x00 :: bs => '(a, bs) ← deser bs; Some (inl a, bs)
    | x01 :: bs => '(b, bs) ← deser bs; Some (inr b, bs)
    | _ => None
    end
  |}.
  intros [a|b] rest; cbn; by rewrite deser_ser.
Defined.

Fixpoint ser_list_aux {A} `{Ser A} (l : list A) : list byte :=
  match l with
  | [] => [x00]
  | a :: l' => x01 :: ser a ++ ser_list_aux l'
  end.
Fixpoint deser_list_aux {A} `{Ser A} (fuel : nat) (bs : list byte) : option (list A * list byte) :=
  match fuel, bs with
  | S fuel', x00 :: bs' => Some ([], bs')
  | S fuel', x01 :: bs' =>
      '(a, bs'') ← deser bs'; '(l, bs''') ← deser_list_aux fuel' bs''; Some (a :: l, bs''')
  | _, _ => None
  end.
#[global] Instance ser_list {A} `{Ser A} : Ser (list A).
Proof.
  refine {|
  ser := ser_list_aux;
  deser bs := deser_list_aux (length bs) bs
  |}.
  intros l rest. cut (∀ fuel, (length (ser_list_aux l) ≤ fuel)%nat →
    deser_list_aux fuel (ser_list_aux l ++ rest) = Some (l, rest)).
  { intros Hf. apply Hf. rewrite length_app. lia. }
  induction l as [|a l IH]; intros fuel Hf; destruct fuel as [|fuel]; cbn in *; [lia|done|lia|].
  rewrite <- app_assoc, deser_ser. cbn. rewrite length_app in Hf. by rewrite IH by lia.
Defined.

Fixpoint ser_pos (p : positive) : list byte :=
  match p with xH => [x02] | xO p => x00 :: ser_pos p | xI p => x01 :: ser_pos p end.
Fixpoint deser_pos (bs : list byte) : option (positive * list byte) :=
  match bs with
  | x02 :: bs => Some (xH, bs)
  | x00 :: bs => '(p, bs) ← deser_pos bs; Some (xO p, bs)
  | x01 :: bs => '(p, bs) ← deser_pos bs; Some (xI p, bs)
  | _ => None
  end.
Lemma deser_ser_pos p rest : deser_pos (ser_pos p ++ rest) = Some (p, rest).
Proof. induction p as [p IH|p IH|]; cbn; by rewrite ?IH. Qed.

#[global] Instance ser_Z : Ser Z.
Proof.
  refine {|
  ser z := match z with Z0 => [x00] | Zpos p => x01 :: ser_pos p | Zneg p => x02 :: ser_pos p end;
  deser bs :=
    match bs with
    | x00 :: bs => Some (0, bs)
    | x01 :: bs => '(p, bs) ← deser_pos bs; Some (Zpos p, bs)
    | x02 :: bs => '(p, bs) ← deser_pos bs; Some (Zneg p, bs)
    | _ => None
    end
  |}.
  intros [|p|p] rest; cbn; by rewrite ?deser_ser_pos.
Defined.

(** A type is serialised through a type it is isomorphic to. *)
Definition ser_iso {A B} `{Ser B} (f : A → B) (g : B → A) (Hgf : ∀ a, g (f a) = a) : Ser A.
Proof.
  refine {| ser a := ser (f a); deser bs := '(b, bs) ← deser bs; Some (g b, bs) |}.
  intros x rest. rewrite deser_ser. cbn. by rewrite Hgf.
Defined.

#[global] Instance ser_string : Ser string.
Proof.
  refine (ser_iso String.list_byte_of_string String.string_of_list_byte _).
  apply String.string_of_list_byte_of_string.
Defined.
#[global] Instance ser_vk : Ser VerifyingKey.
Proof. refine (ser_iso vk_as_bytes mkVerifyingKey _). by intros []. Defined.
#[global] Instance ser_sig : Ser Signature.
Proof. refine (ser_iso sig_to_bytes mkSignature _). by intros []. Defined.
#[global] Instance ser_address : Ser Address.
Proof. refine (ser_iso as_str mkAddress _). by intros []. Defined.
#[global] Instance ser_out_ref : Ser TxOutRef.
Proof. refine (ser_iso (fun r => (tx_hash r, index r)) (fun '(h, i) => mkTxOutRef h i) _). by intros []. Defined.
#[global] Instance ser_input : Ser TxInput.
Proof.
  refine (ser_iso (fun i => (out_ref i, in_signature i, in_pubkey i))
            (fun '(r, s, k) => mkTxInput r s k) _). by intros [].
Defined.
#[global] Instance ser_output : Ser TxOutput.
Proof. refine (ser_iso (fun o => (amount o, out_address o)) (fun '(a, b) => mkTxOutput a b) _). by intros []. Defined.
#[global] Instance ser_kind : Ser TxKind.
Proof.
  refine (ser_iso
    (fun k => match k with Transfer => inl tt | Stake a => inr (inl a) | Unstake a => inr (inr a) end)
    (fun x : unit + (Z + Z) => match x with
      | inl _ => Transfer | inr (inl a) => Stake a | inr (inr a) => Unstake a end) _).
  by intros [].
Defined.
#[global] Instance ser_tx : Ser Transaction.
Proof.
  refine (ser_iso (fun t => (kind t, inputs t, outputs t)) (fun '(k, i, o) => mkTransaction k i o) _).
  by intros [].
Defined.
#[global] Instance ser_header : Ser BlockHeader.
Proof.
  refine (ser_iso (fun h => (prev_hash h, merkle_root h, timestamp h, height h, slot h, proposer h))
    (fun '(a, b, c, d, e, f) => mkBlockHeader a b c d e f) _). by intros [].
Defined.
#[global] Instance ser_block : Ser Block.
Proof.
  refine (ser_iso (fun b => (header b, block_signature b, txs b)) (fun '(a, b, c) => mkBlock a b c) _).
  by intros [].
Defined.
#[global] Instance ser_validator : Ser Validator.
Proof.
  refine (ser_iso (fun v => (v_address v, v_pubkey v, stake v, active_since v))
    (fun '(a, b, c, d) => mkValidator a b c d) _). by intros [].
Defined.
#[global] Instance ser_signing_data : Ser TxSigningData.
Proof.
  refine (ser_iso (fun s => (sd_kind s, sd_inputs s, sd_outputs s))
    (fun '(a, b, c) => mkTxSigningData a b c) _). by intros [].
Defined.
#[global] Instance ser_addr : Ser SocketAddr.
Proof. refine (ser_iso (fun a => (ip a, port a)) (fun '(i, p) => mkSocketAddr i p) _). by intros []. Defined.
#[global] Instance ser_message : Ser Message.
Proof.
  refine (ser_iso
    (fun m => match m with
      | GetBlocks h => inl (inl (inl h))
      | Blocks bs => inl (inl (inr bs))
      | NewBlock b => inl (inr (inl b))
      | NewTx t => inl (inr (inr t))
      | GetPeers => inr (inl (inl tt))
      | Peers l => inr (inl (inr l))
      | Ping n => inr (inr (inl n))
      | Pong n => inr (inr (inr n))
      end)
    (fun x : (Z + list Block) + (Block + Transaction) + ((unit + list SocketAddr) + (Z + Z)) =>
      match x with
      | inl (inl (inl h)) => GetBlocks h
      | inl (inl (inr bs)) => Blocks bs
      | inl (inr (inl b)) => NewBlock b
      | inl (inr (inr t)) => NewTx t
      | inr (inl (inl _)) => GetPeers
      | inr (inl (inr l)) => Peers l
      | inr (inr (inl n)) => Ping n
      | inr (inr (inr n)) => Pong n
      end) _).
  by intros [].
Defined.

Definition json_of_ser {A} `{Ser A} : Json A.
Proof.
  refine {| to_vec := ser;
            from_slice bs := match deser bs with Some (x, []) => inr x | _ => inl "syntax error"%string end |}.
  intros x. rewrite <- (app_nil_r (ser x)), deser_ser. done.
Defined.

Definition toy_core_json : CoreJson := {|
  json_header := json_of_ser; json_transaction := json_of_ser; json_signing_data := json_of_ser;
  json_out_ref := json_of_ser; json_output := json_of_ser; json_block := json_of_ser;
  json_validator := json_of_ser; json_tip := json_of_ser;
|}.
Definition toy_json_message : Json Message := json_of_ser.

(** ** Hashing, signatures and hexadecimal *)

(** A polynomial hash of 32 bytes. *)
Definition toy_digest (d : list byte) : list byte :=
  to_le_bytes 32 (foldl (fun acc b => (acc * 257 + byte_to_Z b + 1) `mod` 2147483647) 5 d).

Definition toy_sign (sk : list byte) (msg : list byte) : Signature :=
  mkSignature (toy_digest (sk ++ msg) ++ toy_digest (msg ++ sk)).

Definition hex_digit (z : Z) : ascii :=
  ascii_of_N (Z.to_N (if z <? 10 then 48 + z else 87 + z)).
Definition hex_value (c : ascii) : option Z :=
  let n := Z.of_N (N_of_ascii c) in
  if (48 <=? n) && (n <=? 57) then Some (n - 48)
  else if (97 <=? n) && (n <=? 102) then Some (n - 87)
  else if (65 <=? n) && (n <=? 70) then Some (n - 55)
  else None.
Fixpoint toy_hex_encode (bs : list byte) : string :=
  match bs with
  | [] => EmptyString
  | b :: bs' => String (hex_digit (byte_to_Z b `div` 16))
                  (String (hex_digit (byte_to_Z b `mod` 16)) (toy_hex_encode bs'))
  end.
Fixpoint toy_hex_decode (s : string) : string + list byte :=
  match s with
  | EmptyString => inr []
  | String c1 (String c2 s') =>
      match hex_value c1, hex_value c2, toy_hex_decode s' with
      | Some h, Some l, inr bs => inr (byte_of_Z (16 * h + l) :: bs)
      | _, _, inl e => inl e
      | _, _, _ => inl "invalid character"%string
      end
  | String _ EmptyString => inl "odd number of digits"%string
  end.

Definition forall_nibbles (P : Z → bool) : bool := forallb P (seqZ 0 16).
Lemma nibble_check P z : forall_nibbles P = true → 0 ≤ z < 16 → P z = true.
Proof.
  unfold forall_nibbles. rewrite forallb_forall. intros HP Hz. apply HP.
  apply list_elem_of_In, elem_of_seqZ. lia.
Qed.

Lemma hex_value_digit z : 0 ≤ z < 16 → hex_value (hex_digit z) = Some z.
Proof.
  intros Hz.
  pose proof (nibble_check (fun z => bool_decide (hex_value (hex_digit z) = Some z)) z
    ltac:(by vm_compute) Hz) as Hb.
  by apply bool_decide_eq_true in Hb.
Qed.

Lemma toy_hex_decode_encode bs : toy_hex_decode (toy_hex_encode bs) = inr bs.
Proof.
  induction bs as [|b bs IH]; [done|]. cbn -[hex_digit hex_value Z.div Z.modulo Z.mul].
  pose proof (byte_to_Z_range b). pose proof (Z.mod_pos_bound (byte_to_Z b) 16 eq_refl).
  assert (0 ≤ byte_to_Z b `div` 16 < 16).
  { split; [apply Z.div_pos; lia|apply Z.div_lt_upper_bound; lia]. }
  rewrite !hex_value_digit, IH by done. do 2 f_equal.
  rewrite <- Z.div_mod by lia. apply byte_of_to_Z.
Qed.

Lemma toy_length_hex_encode bs : String.length (toy_hex_encode bs) = (2 * length bs)%nat.
Proof. induction bs as [|b bs IH]; [done|]. cbn -[hex_digit]. rewrite IH. lia. Qed.

Lemma toy_hex_encode_digits bs :
  Forall (fun c => c ∈ String.list_ascii_of_string "0123456789abcdef")
    (String.list_ascii_of_string (toy_hex_encode bs)).
Proof.
  assert (Hd : ∀ z, 0 ≤ z < 16 → hex_digit z ∈ String.list_ascii_of_string "0123456789abcdef").
  { intros z Hz.
    pose proof (nibble_check (fun z => bool_decide
      (hex_digit z ∈ String.list_ascii_of_string "0123456789abcdef")) z ltac:(by vm_compute) Hz) as Hb.
    by apply bool_decide_eq_true in Hb. }
  induction bs as [|b bs IH]; [constructor|].
  cbn [toy_hex_encode String.list_ascii_of_string].
  pose proof (byte_to_Z_range b). pose proof (Z.mod_pos_bound (byte_to_Z b) 16 eq_refl).
  apply Forall_cons; split; [apply Hd; split; [apply Z.div_pos; lia|apply Z.div_lt_upper_bound; lia]|].
  apply Forall_cons; split; [by apply Hd|done].
Qed.

Definition toy_crypto : Crypto.
Proof.
  refine {|
    sha256_digest := toy_digest;
    verifying_key sk := mkVerifyingKey (sk_to_bytes sk);
    sign sk msg := toy_sign (sk_to_bytes sk) msg;
    ed25519_verify vk msg sig :=
      if decide (sig = toy_sign (vk_as_bytes vk) msg) then inr tt else inl "signature error"%string;
    vk_from_bytes bs := inr (mkVerifyingKey bs);
    hex_encode := toy_hex_encode;
    hex_decode := toy_hex_decode;
  |}.
  - intros d. apply length_to_le_bytes.
  - intros sk msg. by rewrite decide_True.
  - done.
  - by intros bs vk [= <-].
  - apply toy_hex_decode_encode.
  - apply toy_length_hex_encode.
  - apply toy_hex_encode_digits.
Defined.

(** ** Iteration orders, sorting, build profiles *)

Definition toy_hash_order : HashOrder.
Proof. refine {| hash_iter K A _ _ m := map_to_list m |}. done. Defined.

(** Another enumeration of the same entries. *)
Definition reverse_hash_order : HashOrder.
Proof. refine {| hash_iter K A _ _ m := reverse (map_to_list m) |}. intros. apply reverse_Permutation. Defined.

Definition le_prop {A} (le : A → A → bool) (x y : A) : Prop := le x y.
#[global] Instance le_prop_dec {A} (le : A → A → bool) : RelDecision (le_prop le).
Proof. intros x y. unfold le_prop. apply _. Defined.

Definition toy_sort : UnstableSort.
Proof.
  refine {| sort_unstable A le l := merge_sort (le_prop le) l |}.
  - intros. apply merge_sort_Permutation.
  - intros A le l Ht Htr.
    assert (Total (le_prop le)) by (intros x y; apply Ht).
    assert (Transitive (le_prop le)) by (intros x y z; apply Htr).
    by apply (StronglySorted_merge_sort (le_prop le)).
Defined.

Definition checked : BuildProfile := {| overflow_checks := true |}.
Definition unchecked : BuildProfile := {| overflow_checks := false |}.

(** ** A database that never fails *)

Definition entry_le (x y : list byte * list byte) : bool := lex_le x.1 y.1.
Definition sorted_entries (t : bytes_map) : list (list byte * list byte) :=
  merge_sort (le_prop entry_le) (map_to_list t).
Lemma sorted_entries_spec t :
  sorted_entries t ≡ₚ map_to_list t ∧
  StronglySorted (fun x y => lex_le x.1 y.1) (sorted_entries t).
Proof.
  split; [apply merge_sort_Permutation|].
  assert (Total (le_prop entry_le)) by (intros x y; apply lex_le_total).
  assert (Transitive (le_prop entry_le)) by (intros x y z; apply lex_le_trans).
  by apply (StronglySorted_merge_sort (le_prop entry_le)).
Qed.

Lemma fmap_inr_inj {E A} (l k : list A) : inr (A := E) <$> l = inr <$> k → l = k.
Proof. revert k. induction l as [|x l IH]; intros [|y k]; cbn; try done. intros [= -> Hl]. f_equal. auto. Qed.

Definition toy_sled : Sled.
Proof.
  refine {|
    Tree := bytes_map;
    tree_map t := t;
    sled_get k t := inr (t !! k);
    sled_contains_key k t := inr (bool_decide (is_Some (t !! k)));
    sled_insert k v t := (inr tt, <[k := v]> t);
    sled_remove k t := (inr tt, delete k t);
    sled_iter t := inr <$> sorted_entries t;
    sled_range k t := inr <$> filter (fun kv => lex_le k kv.1) (sorted_entries t);
    sled_transaction2 f ts := (inr tt, f ts);
    sled_transaction3 f ts := (inr tt, f ts);
    Db := unit;
    sled_open _ := inr tt;
    sled_open_temporary := inr tt;
    sled_open_tree _ _ := inr ∅;
  |}; try by intros; simplify_eq.
  - intros t l <-%fmap_inr_inj. apply sorted_entries_spec.
  - intros k t l <-%fmap_inr_inj. destruct (sorted_entries_spec t) as [Hp Hs]. split.
    + by rewrite Hp.
    + by apply StronglySorted_filter.
Defined.

(** Its calls never fail, so the persistent store over it is [Reliable]. *)
Lemma toy_sled_up : @SledUp toy_sled.
Proof. split; intros; by eexists. Qed.

(** ** JSON text, ciphers and key files *)

(** A value is printed as the bits of its code as a tree. *)
Section json_values.
Variables (P : JsonValue → Prop).
Hypothesis (Hnum : ∀ n, P (JsonNumber n)) (Hstr : ∀ s, P (JsonString s)).
Hypothesis (Harr : ∀ l, Forall P l → P (JsonArray l)).
Hypothesis (Hobj : ∀ fs, Forall (fun p => P p.2) fs → P (JsonObject fs)).

Fixpoint JsonValue_nested_ind (v : JsonValue) : P v :=
  match v with
  | JsonNumber n => Hnum n
  | JsonString s => Hstr s
  | JsonArray l => Harr l ((fix go l : Forall P l :=
      match l with
      | [] => Forall_nil_2 P
      | v :: l' => Forall_cons_2 P v l' (JsonValue_nested_ind v) (go l')
      end) l)
  | JsonObject fs => Hobj fs ((fix go fs : Forall (fun p => P p.2) fs :=
      match fs with
      | [] => Forall_nil_2 (fun p => P p.2)
      | p :: fs' => Forall_cons_2 (fun p => P p.2) p fs' (JsonValue_nested_ind p.2) (go fs')
      end) fs)
  end.
End json_values.

Fixpoint json_tree (v : JsonValue) : gen_tree (Z + string) :=
  match v with
  | JsonNumber n => GenLeaf (inl n)
  | JsonString s => GenLeaf (inr s)
  | JsonArray l => GenNode 0 (map json_tree l)
  | JsonObject fs => GenNode 1 (map (fun p => GenNode 2 [GenLeaf (inr p.1); json_tree p.2]) fs)
  end.
Fixpoint tree_json (t : gen_tree (Z + string)) : JsonValue :=
  match t with
  | GenLeaf (inl n) => JsonNumber n
  | GenLeaf (inr s) => JsonString s
  | GenNode 0 l => JsonArray (map tree_json l)
  | GenNode _ l => JsonObject (map (fun t => match t with
      | GenNode _ [GenLeaf (inr k); t'] => (k, tree_json t')
      | _ => (""%string, JsonNumber 0)
      end) l)
  end.

Lemma tree_json_tree v : tree_json (json_tree v) = v.
Proof.
  induction v as [n|s|l IH|fs IH] using JsonValue_nested_ind; cbn; [done|done|..]; f_equal.
  - induction IH as [|v l Hv _ IHl]; [done|]. cbn. by rewrite Hv, IHl.
  - induction IH as [|[k v] fs Hv _ IHl]; [done|]. cbn in *. by rewrite Hv, IHl.
Qed.

Fixpoint bits (p : positive) : list byte :=
  match p with xH => [] | xO p => x00 :: bits p | xI p => x01 :: bits p end.
Fixpoint unbits (bs : list byte) : positive :=
  match bs with [] => xH | x00 :: bs' => xO (unbits bs') | _ :: bs' => xI (unbits bs') end.
Lemma unbits_bits p : unbits (bits p) = p.
Proof. induction p; cbn; congruence. Qed.

Definition toy_json_text : JsonText := {| value_to_vec v := bits (countable.encode (json_tree v)) |}.

Lemma json_eq_refl v : json_eq v v.
Proof.
  induction v as [n|s|l IH|fs IH] using JsonValue_nested_ind; constructor 1 || constructor 2 || idtac.
  - constructor 3. induction IH; by constructor.
  - apply (json_eq_object fs fs fs); [done|]. induction IH; by constructor.
Qed.

Definition toy_json_parse : @JsonParse toy_json_text.
Proof.
  refine {| value_from_slice bs :=
    match countable.decode (unbits bs) with Some t => inr (tree_json t) | None => inl "syntax error"%string end |}.
  intros v _. exists v. split; [|apply json_eq_refl]. cbn [value_to_vec toy_json_text].
  by rewrite unbits_bits, countable.decode_encode, tree_json_tree.
Defined.

(** The plain text behind a tag that depends on key and nonce. *)
Definition toy_ciphers : Ciphers.
Proof.
  refine {|
    aes_encrypt k n m := Some (toy_digest (k ++ n) ++ m);
    aes_decrypt k n c := if decide (take 32 c = toy_digest (k ++ n)) then Some (drop 32 c) else None;
    argon2_hash pass salt := inr (toy_digest (pass ++ salt));
  |}.
  intros k n m c Heq. apply Some_inj in Heq as <-.
  assert (length (toy_digest (k ++ n)) = 32%nat) as Hl by apply length_to_le_bytes.
  rewrite (take_app_length' _ _ 32 (eq_sym Hl)), (drop_app_length' _ _ 32 (eq_sym Hl)). by rewrite decide_True.
Defined.

#[global] Instance ser_keystore : Ser KeystoreFile.
Proof.
  refine (ser_iso (fun k => (version k, ks_address k, salt k, nonce k, ciphertext k))
    (fun '(a, b, c, d, e) => mkKeystoreFile a b c d e) _). by intros [].
Defined.

Definition toy_keystore_json : KeystoreJson.
Proof.
  refine {|
    ks_to_string k := String.string_of_list_byte (ser k);
    ks_from_str s := match deser (String.list_byte_of_string s) with
                     | Some (k, []) => inr k | _ => inl "syntax error"%string end;
  |}.
  intros k. rewrite String.list_byte_of_string_of_list_byte.
  rewrite <- (app_nil_r (ser k)), deser_ser. done.
Defined.

#[global] Instance ser_config_value : Ser ConfigValue.
Proof.
  refine (ser_iso (fun v => match v with
      | ConfigString s => (0, s, 0, []) | ConfigInt n => (1, ""%string, n, [])
      | ConfigStrings l => (2, ""%string, 0, l) | ConfigOther s => (3, s, 0, []) end)
    (fun '(k, s, n, l) => if k =? 0 then ConfigString s else if k =? 1 then ConfigInt n
      else if k =? 2 then ConfigStrings l else ConfigOther s) _).
  by intros [].
Defined.

Definition toy_config_crate : ConfigCrate.
Proof.
  refine {|
    config_build file env := match file with inr t => inr (env ∪ t) | inl e => inl e end;
    value_string v := match v with ConfigString s => inr s | _ => inl "invalid type"%string end;
    value_u64 v := match v with ConfigInt n => inr n | _ => inl "invalid type"%string end;
    value_strings v := match v with ConfigStrings l => inr l | _ => inl "invalid type"%string end;
    missing_field name := "missing field " +:+ name;
  |}; done.
Defined.

Definition toml_ints_ok (fields : list (string * ConfigValue)) : bool :=
  forallb (fun kv => match kv.2 with ConfigInt n => n <? 2 ^ 63 | _ => true end) fields.

Definition toy_config_toml : ConfigToml.
Proof.
  refine {|
    toml_print fields := if toml_ints_ok fields then inr (String.string_of_list_byte (ser fields))
                         else inl "out of range"%string;
    toml_read s := match deser (String.list_byte_of_string s) with
                   | Some (fields, []) => inr (list_to_map (fields : list (string * ConfigValue)))
                   | _ => inl "syntax error"%string end;
  |}.
  - intros fields text _. destruct (toml_ints_ok fields); [|done]. intros Ht.
    apply (f_equal (fun r => match r with inr t => t | inl t => t end)) in Ht.
    change (String.string_of_list_byte (ser fields) = text) in Ht.
    rewrite <- Ht, String.list_byte_of_string_of_list_byte, <- (app_nil_r (ser fields)), deser_ser. done.
  - intros fields text k n. destruct (toml_ints_ok fields) eqn:Hok; [|done]. intros _ Hin.
    unfold toml_ints_ok in Hok. rewrite forallb_forall in Hok. apply list_elem_of_In, Hok, Z.ltb_lt in Hin. done.
Defined.
