(* ===== verification/Witnesses.v ===== *)
(** * Witnesses

    A small network computed with the instances of [Concrete], and for each
    property with hypotheses an application of it there. *)

From S2P Require Import Prelude Bytes Types Consensus Encoding Store Ledger Validation MemoryStore.
From S2P Require Import SledStore Mempool DebugEvent Node Handler Protocol Genesis SlotTicker Concrete.

#[local] Existing Instances toy_crypto toy_core_json toy_json_message toy_hash_order toy_sort
  toy_sled.

(** ** The scenario *)

(** Two accounts; the first is the only validator. *)
Definition sk1 : SigningKey := mkSigningKey (replicate 32 x01).
Definition sk2 : SigningKey := mkSigningKey (replicate 32 x02).
Definition addr_of (sk : SigningKey) : Address :=
  Address.from_pubkey_bytes (vk_as_bytes (verifying_key sk)).
Definition a1 : Address := addr_of sk1.
Definition a2 : Address := addr_of sk2.

Definition sock (i : string) : SocketAddr := mkSocketAddr i 8333.
Definition config1 : NodeConfig :=
  mkNodeConfig (sock "10.0.0.1") [] 10 (sock "10.0.0.1") "db" 2 "genesis.toml" a1 sk1.

Definition gconfig : GenesisConfig :=
  mkGenesisConfig 5
    [mkGenesisValidator (as_str a1) (hex_encode (vk_as_bytes (verifying_key sk1))) 10]
    [mkGenesisAccount (as_str a1) 100; mkGenesisAccount (as_str a2) 50].

#[local] Existing Instance checked.

Definition galloc : list Transaction :=
  [mkTransaction Transfer [] [mkTxOutput 100 a1]; mkTransaction Transfer [] [mkTxOutput 50 a2]].
Definition gblock : Block := build_genesis_block 5 galloc.
Definition s0 : MemoryStore := snd (apply_genesis gconfig MemoryStore.new).

(** A transfer that spends output [r] of [sk] in full. *)
Definition signed_tx (sk : SigningKey) (r : TxOutRef) (outs : list TxOutput) : Transaction :=
  let msg := to_vec (mkTxSigningData Transfer [r] outs) in
  mkTransaction Transfer [mkTxInput r (sign sk msg) (verifying_key sk)] outs.
Definition gref (i : nat) : TxOutRef :=
  match galloc !! i with Some tx => output_ref tx 0 | None => mkTxOutRef [] 0 end.
Definition tx1 : Transaction := signed_tx sk1 (gref 0) [mkTxOutput 60 a2; mkTxOutput 40 a1].
(** Spends the second output of [tx1]. *)
Definition tx2 : Transaction := signed_tx sk1 (output_ref tx1 1) [mkTxOutput 40 a2].

Definition block_at (ts : Z) (l : list Transaction) : Block :=
  make_block config1 (Block_hash gblock) 1 (ts `div` 10) ts l.

(** ** States of the scenario *)

(** The applicability of a block, as a computation. *)
Definition block_applies_b (b : Block) (u : gmap TxOutRef TxOutput) : bool :=
  bool_decide (NoDup (block_created b)) && bool_decide (NoDup (block_spent b))
  && forallb (fun r => bool_decide (u !! r = None)) (block_created b)
  && forallb (fun r => bool_decide (is_Some (u !! r))) (block_spent b).

Lemma forallb_elem {A} (P : A → Prop) `{∀ x, Decision (P x)} (l : list A) :
  forallb (fun x => bool_decide (P x)) l = true → ∀ x, x ∈ l → P x.
Proof.
  rewrite forallb_forall. intros Hl x Hx. apply list_elem_of_In in Hx. specialize (Hl x Hx).
  by apply bool_decide_eq_true in Hl.
Qed.

Lemma block_applies_check b u : block_applies_b b u = true → block_applies b u.
Proof.
  unfold block_applies_b. intros [[[Hc Hs]%andb_prop Hf]%andb_prop He]%andb_prop.
  apply bool_decide_eq_true in Hc, Hs.
  split_and!; [done|done|..].
  - apply (forallb_elem (fun r => u !! r = None) _ Hf).
  - apply (forallb_elem (fun r => is_Some (u !! r)) _ He).
Qed.

Definition peers1 : gmap SocketAddr Sender :=
  {[sock "10.0.0.2" := 1%nat; sock "10.0.0.3" := 2%nat]}.
Definition src : SocketAddr := sock "10.0.0.2".
Definition node_with {S} (s : S) : NodeState S := mkNodeState s (Mempool.new 2) peers1 [].
Definition n0 : NodeState MemoryStore := node_with s0.

(** Competing blocks on the genesis block: [bA] with the first transfer, the
    empty [bB] with a lower hash, and [bC] with a lower hash and a transfer of
    an output that only [bA] creates. *)
Definition bA : Block := block_at 25 [tx1].
Definition bB : Block := block_at 30 [].
Definition bC : Block := block_at 31 [tx2].
Definition s1 : MemoryStore := snd (extend_calls bA s0).
Definition n1 : NodeState MemoryStore := node_with s1.

Lemma run_ok {A B} (m : A * B) a : m.1 = a → m = (a, m.2).
Proof. by destruct m; intros <-. Qed.

Lemma genesis_run : apply_genesis gconfig MemoryStore.new = (Ok tt, s0).
Proof. apply run_ok. vm_compute. reflexivity. Qed.

Lemma new_ok : store_ok MemoryStore.new.
Proof. apply map_Forall_empty. Qed.

Lemma s0_consistent : consistent s0 0.
Proof.
  destruct (genesis_spec gconfig MemoryStore.new s0 new_ok eq_refl genesis_run)
    as (? & ? & _ & _ & _ & Hc & _). exact Hc.
Qed.

Lemma s0_chain : chain (view s0) = {[0 := gblock]}.
Proof. vm_compute. reflexivity. Qed.

Lemma s0_at : store_at s0 0.
Proof. split; [exact (cs_ok _ _ s0_consistent)|split; [exact (cs_chain _ _ s0_consistent)|lia]]. Qed.

Lemma extend_bA : extend_calls bA s0 = (Ok tt, s1).
Proof. apply run_ok. vm_compute. reflexivity. Qed.

Lemma bA_valid : validate_block bA gblock s0 s0 10 = Ok tt.
Proof. vm_compute. reflexivity. Qed.

Lemma s1_facts :
  chain (view s1) = <[1 := bA]> (chain (view s0)) ∧
  undoable bA (utxos (view s0)) s1 ∧ store_ok s1.
Proof.
  destruct (extend_calls_spec bA gblock s0 0 (Ok tt) s1 s0_at)
    as (Hs & _ & [(_ & _ & Hf)|(Hc & _ & Hok)]);
    [by rewrite s0_chain|done|done|vm_compute; discriminate|exact extend_bA|done|].
  destruct (Hok eq_refl) as [_ Hun]. split_and!; [done| |done].
  apply Hun, block_applies_check. vm_compute. reflexivity.
Qed.

Lemma s1_at : store_at s1 1.
Proof.
  destruct s1_facts as (Hc & _ & Hs). split; [done|]. split; [|lia]. rewrite Hc.
  apply (chain_ok_extend _ 0 bA gblock); [exact (cs_chain _ _ s0_consistent)|by rewrite s0_chain|done|done|].
  vm_compute. discriminate.
Qed.

Lemma s1_tip : chain (view s1) !! 1 = Some bA.
Proof. vm_compute. reflexivity. Qed.

(** ** Data, election and validation *)

Lemma from_pubkey_bytes_validates_witness :
  Address.validate (as_str a1) = Ok a1.
Proof. exact (from_pubkey_bytes_validates (vk_as_bytes (verifying_key sk1))). Defined.

(** A decidable form of the absence of collisions. *)
Definition no_collision_b (l : list (list byte)) : bool :=
  forallb (fun x => forallb (fun y => bool_decide (sha256d x = sha256d y → x = y)) l) l.

Lemma no_collision_check l : no_collision_b l = true → no_collision l.
Proof.
  unfold no_collision_b. rewrite forallb_forall. intros Hl x y Hx Hy.
  specialize (Hl x (proj1 (list_elem_of_In _ _) Hx)).
  by apply (forallb_elem (fun y => sha256d x = sha256d y → x = y) l Hl).
Qed.

Lemma merkle_root_binding_witness : [tx1; tx2] = [tx1; tx2].
Proof.
  apply merkle_root_binding; [reflexivity|apply no_collision_check; vm_compute; reflexivity|reflexivity].
Defined.

Lemma merkle_root_duplicate_last_witness :
  compute_merkle_root ([tx1; tx2] ++ [tx1; tx1]) = compute_merkle_root ([tx1; tx2] ++ [tx1]).
Proof. apply merkle_root_duplicate_last; [exact I|discriminate]. Defined.

Definition val1 : Validator := mkValidator a1 (verifying_key sk1) 10 0.
Definition val2 : Validator := mkValidator a2 (verifying_key sk2) 30 0.

Lemma vals_ok : stakes_ok [val1; val2].
Proof. split; [repeat constructor; cbn; lia|cbn; lia]. Qed.

Lemma elect_proposer_total_witness :
  ∃ i v, [val1; val2] !! i = Some v ∧ 0 < stake v ∧
    elect_proposer (E := Empty_set) 7 (Block_hash gblock) [val1; val2] = Ok (Some v) ∧
    total_stake (take i [val1; val2]) ≤
      election_pick 7 (Block_hash gblock) (total_stake [val1; val2])
      < total_stake (take i [val1; val2]) + stake v.
Proof. apply elect_proposer_total; [exact vals_ok|reflexivity]. Defined.

Lemma elect_proposer_none_witness :
  elect_proposer (E := Empty_set) 7 (Block_hash gblock) [mkValidator a1 (verifying_key sk1) 0 0] = Ok None ↔
  total_stake [mkValidator a1 (verifying_key sk1) 0 0] = 0.
Proof. apply elect_proposer_none. split; [repeat constructor; cbn; lia|cbn; lia]. Defined.

Lemma elections_proportional_witness :
  Z.of_nat (length (filter (fun pick => elects (weighted_scan (E := Empty_set) pick 0 [val1; val2]) val2)
                      (seqZ 0 (total_stake [val1; val2])))) = 30.
Proof.
  apply (elections_proportional [val1; val2] val2);
    [apply (bool_decide_eq_true (NoDup [val1; val2])); vm_compute; reflexivity|exact vals_ok|set_solver].
Defined.

Lemma validate_block_iff_witness : block_valid bA gblock s0 s0 10.
Proof. apply validate_block_iff. exact bA_valid. Defined.

Lemma valid_block_no_inflation_witness :
  supply (ledger_block bA (utxos (view s0))) ≤ supply (utxos (view s0)).
Proof.
  apply (valid_block_no_inflation s0 s0 bA gblock 10);
    [exact (cs_ok _ _ s0_consistent)|exact bA_valid|left; reflexivity| | |].
  - apply (bool_decide_eq_true (NoDup (block_created bA))). vm_compute. reflexivity.
  - apply (bool_decide_eq_true (NoDup (block_spent bA))). vm_compute. reflexivity.
  - apply (forallb_elem (fun r => utxos (view s0) !! r = None)). vm_compute. reflexivity.
Defined.

Lemma duplicate_input_inflates_witness :
  let tx := double_input_tx sk1 (gref 0) 100 a2 in
  validate_transaction tx s0 = Ok tt ∧
  (utxos (view s0) !! output_ref tx 0 = None →
   supply (ledger_tx (utxos (view s0)) tx) = supply (utxos (view s0)) + 100).
Proof.
  apply (duplicate_input_inflates s0 sk1 (gref 0) (mkTxOutput 100 a1) a2);
    [exact (cs_ok _ _ s0_consistent)|vm_compute; reflexivity|reflexivity|cbn; lia|cbn; lia].
Defined.

Lemma unchecked_overflow_mints_witness :
  validate_transaction (H1 := unchecked) (overflow_tx a2) s0 = Ok tt ∧
  ((∀ r, r ∈ created_refs (overflow_tx a2) → utxos (view s0) !! r = None) →
   supply (ledger_tx (utxos (view s0)) (overflow_tx a2)) = supply (utxos (view s0)) + 2 ^ 64).
Proof.
  apply (unchecked_overflow_mints (H2 := unchecked) s0 a2). reflexivity.
Defined.

(** ** Stores *)

Lemma memory_apply_rollback_witness :
  (_ ← MemoryStore.apply_block bA; MemoryStore.rollback_block bA) s0 = (Ok tt, s0).
Proof.
  apply memory_apply_rollback; [apply block_applies_check; vm_compute; reflexivity|].
  vm_compute. reflexivity.
Defined.

Lemma memory_all_active_canonical_witness :
  @MemoryStore.all_active toy_hash_order toy_sort 3 s0 =
  @MemoryStore.all_active reverse_hash_order toy_sort 3 s0.
Proof. apply memory_all_active_canonical. exact (cs_ok _ _ s0_consistent). Defined.

Definition chained : Block := mkBlock (header bA) (block_signature bA)
  [mkTransaction Transfer [] [mkTxOutput 7 a1];
   mkTransaction Transfer
     [mkTxInput (output_ref (mkTransaction Transfer [] [mkTxOutput 7 a1]) 0) (sign sk1 [])
        (verifying_key sk1)] [mkTxOutput 7 a2]].
Definition chained_ref : TxOutRef := output_ref (mkTransaction Transfer [] [mkTxOutput 7 a1]) 0.

Lemma memory_rollback_resurrects_witness :
  ms_utxo (snd ((_ ← MemoryStore.apply_block chained; MemoryStore.rollback_block chained) s0))
    !! chained_ref = Some (mkTxOutput 7 a1).
Proof.
  refine (memory_rollback_resurrects s0 chained _ _ (mkTxInput chained_ref (sign sk1 []) (verifying_key sk1))
    _ _ _ eq_refl eq_refl eq_refl eq_refl eq_refl _ (surjective_pairing _)).
  vm_compute. reflexivity.
Defined.

Lemma memory_stale_hash_index_witness :
  (_ ← MemoryStore.insert bA; _ ← MemoryStore.insert bB;
   reads (MemoryStore.get_by_hash (Block_hash bA))) s0 =
  (Ok (Some bB), snd ((_ ← MemoryStore.insert bA; MemoryStore.insert bB) s0)).
Proof.
  apply memory_stale_hash_index; [reflexivity|].
  apply (bool_decide_eq_true (Block_hash bA ≠ Block_hash bB)). vm_compute. reflexivity.
Defined.

(** The same scenario in the persistent store. *)
Definition z_init : SledStore := mkSledStore _ ∅ ∅ ∅ ∅ ∅ ∅.
Definition z0 : SledStore := snd (apply_genesis gconfig z_init).

Lemma z_init_ok : sled_ok z_init ∧ sled_view z_init = mkLedger ∅ ∅ ∅.
Proof. apply (@new_temporary_ok toy_crypto toy_core_json toy_sled). reflexivity. Qed.

Lemma z0_consistent : consistent z0 0.
Proof.
  destruct z_init_ok as [Hok Hv].
  destruct (genesis_spec (S := SledStore) (StoreLaws0 := sled_laws) gconfig z_init z0 Hok Hv) as (? & ? & _ & _ & _ & Hc & _); [|exact Hc].
  apply run_ok. vm_compute. reflexivity.
Qed.

Lemma z0_at : store_at z0 0.
Proof. split; [exact (cs_ok _ _ z0_consistent)|split; [exact (cs_chain _ _ z0_consistent)|lia]]. Qed.

Lemma z0_tip : chain (view z0) !! 0 = Some gblock.
Proof. vm_compute. reflexivity. Qed.

(** The tip block [bA] is stored, and applied next. *)
Definition z1 : SledStore := snd (insert_block bA z0).
Definition z2 : SledStore := snd (apply_block bA z1).

Lemma z1_facts : store_ok z1 ∧ chain (view z1) = <[1 := bA]> (chain (view z0)) ∧
  utxos (view z1) = utxos (view z0).
Proof.
  destruct (insert_law (StoreLaws := sled_laws) z0 bA (Ok tt) z1) as (Hok & Hu & _ & _ & Hc).
  - exact (cs_ok _ _ z0_consistent).
  - change (u64 1). unfold u64. lia.
  - intros h Hh. apply (co_range _ _ (cs_chain _ _ z0_consistent)) in Hh. change (h ≤ 1). lia.
  - apply run_ok. vm_compute. reflexivity.
  - exact (conj Hok (conj Hc Hu)).
Qed.

Lemma z1_chain : chain_ok (chain (view z1)) 1.
Proof.
  destruct z1_facts as (_ & -> & _).
  apply (chain_ok_extend _ 0 bA gblock); [exact (cs_chain _ _ z0_consistent)|exact z0_tip|done|done|].
  vm_compute. discriminate.
Qed.

Lemma sled_apply_atomic_witness :
  sled_ok z2 ∧ sled_chain z2 = sled_chain z1 ∧ sled_validators z2 = sled_validators z1 ∧
  (sled_utxos z2 = sled_utxos z1 ∨ sled_utxos z2 = ledger_block bA (sled_utxos z1)) ∧
  (SledStore.apply_block bA z1 = (Ok tt, z2) → True).
Proof.
  destruct (sled_apply_atomic bA z1 (Ok tt) z2) as (? & ? & ? & ? & ?);
    [apply z1_facts|change (u64 1); unfold u64; lia|apply run_ok; vm_compute; reflexivity|].
  split_and!; auto.
Defined.

Lemma sled_apply_rollback_witness :
  let z3 := snd (SledStore.rollback_block bA z2) in
  sled_utxos z3 = sled_utxos z1 ∧ sled_spent z3 = sled_spent z1 ∧
  sled_chain z3 = delete 1 (sled_chain z1) ∧
  (∀ t, SledStore.tip z3 = Ok t → tip_of (delete 1 (sled_chain z1)) t).
Proof.
  apply (@sled_apply_rollback toy_crypto toy_core_json toy_sled bA z1 z2).
  - apply z1_facts.
  - change (u64 1). unfold u64. lia.
  - apply (chain_ok_tip _ _ z1_chain).
  - intros _. apply (co_range _ _ z1_chain). cbn. lia.
  - apply txs_independent_apply. apply (block_applies_check bA). vm_compute. reflexivity.
  - apply (bool_decide_eq_true (NoDup (block_spent bA))). vm_compute. reflexivity.
  - apply (forallb_elem (fun r => sled_spent z1 !! (1, r) = None) (block_spent bA)).
    vm_compute. reflexivity.
  - apply run_ok. vm_compute. reflexivity.
  - apply run_ok. vm_compute. reflexivity.
Defined.

Definition active_in {S} `{!ValidatorStore S} (s : S) : list Validator :=
  match all_active 3 s with Ok vs => vs | _ => [] end.

Lemma active_lists_agree_witness : active_in s0 = active_in z0.
Proof.
  apply (active_lists_agree s0 z0 3);
    [exact (cs_ok _ _ s0_consistent)|exact (cs_ok _ _ z0_consistent)| |vm_compute; reflexivity..].
  apply (bool_decide_eq_true (validators (view s0) = validators (view z0))). vm_compute. reflexivity.
Defined.

(** ** Mempool *)

Definition pool0 : Mempool := Mempool.new 2.
Definition pool1 : Mempool := snd (Mempool.add tx1 s0 pool0).
(** Conflicts with [tx1]. *)
Definition tx1' : Transaction := signed_tx sk1 (gref 0) [mkTxOutput 100 a2].

Lemma pool1_ok : mempool_ok pool1.
Proof.
  destruct (Mempool.add tx1 s0 pool0) as [r m] eqn:Ha.
  change pool1 with (snd (Mempool.add tx1 s0 pool0)). rewrite Ha.
  by apply (add_cases tx1 s0 pool0 r m (mempool_new_ok 2)).
Qed.

Lemma mempool_add_invariant_witness : mempool_ok (snd (Mempool.add tx1' s0 pool1)).
Proof. apply (mempool_add_invariant tx1' s0 pool1 _ _ pool1_ok (surjective_pairing _)). Defined.

Lemma mempool_add_outcome_witness :
  snd (Mempool.add tx1' s0 pool1) = pool1 ∧ Transaction_hash tx1' ∉ (mp_txs pool1).*1.
Proof.
  destruct (mempool_add_outcome tx1' s0 pool1
    (Err (NodeValidation "double spend: input already in mempool")) _ pool1_ok
    ltac:(apply run_ok; vm_compute; reflexivity)) as (? & ? & _).
  split; assumption.
Defined.

Lemma mempool_remove_exact_witness :
  mempool_ok (Mempool.remove [Transaction_hash tx1] pool1) ∧
  ∀ k tx, (k, tx) ∈ mp_txs (Mempool.remove [Transaction_hash tx1] pool1) ↔
    (k, tx) ∈ mp_txs pool1 ∧ k ∉ [Transaction_hash tx1].
Proof. apply mempool_remove_exact. exact pool1_ok. Defined.

(** ** The peer protocol *)

Lemma u64_small z : 0 ≤ z < 1000 → u64 z.
Proof. unfold u64. lia. Qed.

Definition n_after (b : Block) (n : NodeState MemoryStore) : NodeState MemoryStore :=
  snd (handle_new_block config1 b src 1%nat n).

Lemma n0_bA : handle_new_block config1 bA src 1%nat n0 = (Ok tt, n_after bA n0).
Proof. unfold n_after. apply run_ok. vm_compute. reflexivity. Qed.
Lemma n1_bB : handle_new_block config1 bB src 1%nat n1 = (Ok tt, n_after bB n1).
Proof. unfold n_after. apply run_ok. vm_compute. reflexivity. Qed.
Lemma n1_bC : handle_new_block config1 bC src 1%nat n1 = (Ok tt, n_after bC n1).
Proof. unfold n_after. apply run_ok. vm_compute. reflexivity. Qed.

Lemma new_block_safe_witness :
  store_ok (n_store (n_after bB n1)) ∧
  chain (view (n_store (n_after bB n1))) !! 0 = chain (view s1) !! 0.
Proof.
  destruct (new_block_safe config1 bB src 1%nat 1 n1 _ _ s1_at n1_bB) as (? & _ & Hlow & _).
  split; [assumption|]. apply Hlow. lia.
Defined.

Lemma new_block_consistent_witness : ∃ t', consistent (n_store (n_after bA n0)) t'.
Proof.
  apply (new_block_consistent config1 bA src 1%nat 0 n0);
    [exact s0_consistent|lia|apply block_applies_check; vm_compute; reflexivity|exact n0_bA].
Defined.

Lemma fork_choice_lower_hash_witness :
  chain (view (n_store (n_after bB n1))) = chain (view s1) ∨
  chain (view (n_store (n_after bB n1))) = <[1 := bB]> (chain (view s1)) ∧
  lex_lt (Block_hash bB) (Block_hash bA) ∧ 0 < 1 ∧
  ∃ p, chain (view s1) !! (1 - 1) = Some p ∧ prev_hash (header bB) = Block_hash p ∧
    validate_block bB p s1 s1 10 = Ok tt.
Proof.
  apply (fork_choice_lower_hash config1 bB src 1%nat 1 n1);
    [exact s1_at|exact s1_tip|reflexivity|exact n1_bB].
Defined.

(** A second node, whose tip is the block with the lower hash. *)
Definition s1' : MemoryStore := snd (extend_calls bB s0).
Definition n1' : NodeState MemoryStore := node_with s1'.

Lemma s1'_facts : store_ok s1' ∧ chain (view s1') = <[1 := bB]> (chain (view s0)).
Proof.
  destruct (extend_calls_spec bB gblock s0 0 (Ok tt) s1' s0_at)
    as (Hs & _ & [(_ & _ & Hf)|(Hc & _ & Hok)]);
    [by rewrite s0_chain|done|done|vm_compute; discriminate|apply run_ok; vm_compute; reflexivity|done|].
  by split.
Qed.

Lemma s1'_at : store_at s1' 1.
Proof.
  destruct s1'_facts as [Hs Hc]. split; [done|]. split; [|lia]. rewrite Hc.
  apply (chain_ok_extend _ 0 bB gblock); [exact (cs_chain _ _ s0_consistent)|by rewrite s0_chain|done|done|].
  vm_compute. discriminate.
Qed.

Lemma fork_convergence_witness :
  chain (view (n_store (n_after bA n1'))) = chain (view (n_store (n_after bB n1))).
Proof.
  apply (fork_convergence config1 bB bA src src 1%nat 1%nat 1 n1' n1).
  - exact s1'_at.
  - exact s1_at.
  - lia.
  - vm_compute. reflexivity.
  - exact s1_tip.
  - change (n_store n1) with s1. change (n_store n1') with s1'. rewrite (proj1 s1_facts).
    rewrite (proj2 s1'_facts). by rewrite insert_insert_eq.
  - vm_compute. exact I.
  - intros x Hx. assert (get_by_hash (Block_hash bB) (n_store n1) = Ok None) as Hn.
    { vm_compute. reflexivity. }
    rewrite Hn in Hx. by injection Hx.
  - intros p Hp. assert (chain (view (n_store n1)) !! (1 - 1) = Some gblock) as Hg.
    { vm_compute. reflexivity. }
    rewrite Hg in Hp. injection Hp as <-. vm_compute. reflexivity.
  - unfold n_after. apply run_ok. vm_compute. reflexivity.
  - exact n1_bB.
Defined.

Lemma known_block_ignored_witness : handle_new_block config1 bA src 1%nat n1 = (Ok tt, n1).
Proof. apply (known_block_ignored config1 bA src 1%nat n1 bA). vm_compute. reflexivity. Defined.

Definition ahead : Block := mkBlock
  (mkBlockHeader (Block_hash bA) zero_hash 60 9 6 a1) (block_signature bA) [].

Lemma distant_block_keeps_state_witness :
  n_store (n_after ahead n1) = n_store n1 ∧ n_mempool (n_after ahead n1) = n_mempool n1 ∧
  (n_effects (n_after ahead n1) = n_effects n1 ∨
   1 + 1 < height (header ahead) ∧ fst (handle_new_block config1 ahead src 1%nat n1) = Ok tt ∧
   n_effects (n_after ahead n1) = n_effects n1 ++ [TrySend 1%nat (GetBlocks (1 + 1))]).
Proof.
  apply (distant_block_keeps_state config1 ahead src 1%nat 1 n1 _ _ s1_at);
    [cbn; lia|cbn; lia|apply surjective_pairing].
Defined.

Lemma message_effects_witness :
  let n' := n_after bB n1 in
  n_peers n' = n_peers n1 ∧
  ∃ es, n_effects n' = n_effects n1 ++ es ∧ Forall (allowed src 1%nat (n_peers n1)) es.
Proof. apply (message_effects config1 src 1%nat (NewBlock bB) n1 _ (Ok tt)). exact n1_bB. Defined.

Lemma message_keeps_mempool_witness :
  mempool_ok (n_mempool (snd (handle_message config1 (NewTx tx2) src 1%nat n1))).
Proof.
  apply (message_keeps_mempool config1 src 1%nat (NewTx tx2) n1 _ _ (mempool_new_ok 2)
    (surjective_pairing _)).
Defined.

Lemma get_blocks_reply_witness :
  let n' := snd (handle_message config1 (GetBlocks 1) src 1%nat n1) in
  ∃ batch rest, n' = perform [TrySend 1%nat (Blocks batch)] n1 ∧
    chain_range (chain (view s1)) 1 (batch ++ rest) ∧
    (length batch ≤ 256)%nat ∧ (rest ≠ [] → length batch = 256%nat).
Proof.
  apply (get_blocks_reply config1 src 1%nat 1 n1);
    [apply s1_at|apply u64_small; lia|apply run_ok; vm_compute; reflexivity].
Defined.

Lemma reorg_mints_witness :
  supply (utxos (view (n_store (n_after bC n1)))) = supply (utxos (view s0)) + value_out tx2.
Proof.
  apply (reorg_mints config1 bC src 1%nat 1 n1 _ bA _ tx2 s1_at s1_tip (proj1 (proj2 s1_facts))).
  - apply (bool_decide_eq_true (bC ≠ bA)). vm_compute. reflexivity.
  - reflexivity.
  - reflexivity.
  - apply (forallb_elem (fun r => utxos (view s0) !! r = None)). vm_compute. reflexivity.
  - apply (bool_decide_eq_true (NoDup (created_refs tx2))). vm_compute. reflexivity.
  - apply (forallb_elem (fun r => utxos (view s0) !! r = None)). vm_compute. reflexivity.
  - exact n1_bC.
  - vm_compute. reflexivity.
Defined.

Definition n0_pool : NodeState MemoryStore :=
  mkNodeState s0 (snd (Mempool.add tx1' s0 pool0)) peers1 [].
Definition n0_ext : NodeState MemoryStore := snd (extend_tip config1 bA src 0 n0_pool).

Lemma conflicting_tx_stays_witness :
  (Transaction_hash tx1', tx1') ∈ mp_txs (n_mempool n0_ext) ∧
  utxos (view (n_store n0_ext)) !! gref 0 = None ∧
  validate_transaction tx1' (n_store n0_ext) ≠ Ok tt.
Proof.
  apply (conflicting_tx_stays config1 src bA 0 n0_pool n0_ext).
  - exact s0_at.
  - change (n_mempool n0_pool) with (snd (Mempool.add tx1' s0 pool0)).
    destruct (Mempool.add tx1' s0 pool0) as [r m] eqn:Ha.
    by apply (add_cases tx1' s0 pool0 r m (mempool_new_ok 2)).
  - reflexivity.
  - unfold n0_ext. apply run_ok. vm_compute. reflexivity.
  - vm_compute. reflexivity.
  - apply (bool_decide_eq_true ((Transaction_hash tx1', tx1') ∈ mp_txs (n_mempool n0_pool))).
    vm_compute. reflexivity.
  - apply (bool_decide_eq_true (Transaction_hash tx1' ∉ Transaction_hash <$> txs bA)).
    vm_compute. reflexivity.
  - apply (bool_decide_eq_true (gref 0 ∈ spent_refs tx1')). vm_compute. reflexivity.
  - apply (bool_decide_eq_true (gref 0 ∈ block_spent bA)). vm_compute. reflexivity.
  - apply (bool_decide_eq_true (gref 0 ∉ block_created bA)). vm_compute. reflexivity.
Defined.

Lemma peers1_distinct : distinct_ips peers1.
Proof.
  intros a b Ha Hb Hip. unfold peers1 in *.
  apply lookup_insert_is_Some in Ha as [<-|[_ Ha]], Hb as [<-|[_ Hb]];
    rewrite ?lookup_singleton_is_Some in *; subst; done.
Qed.

Definition peer_inputs : list PeerInput :=
  [Frame (to_vec (Ping 5)); Lagged 2; Frame (to_vec (NewBlock bB)); EndOfStream].

Lemma run_peer_restores_peers_witness :
  let n' := snd (run_peer config1 (sock "10.0.0.9") 3%nat true peer_inputs n1) in
  distinct_ips (n_peers n') ∧ n_peers n' = n_peers n1.
Proof.
  apply (run_peer_restores_peers config1 (sock "10.0.0.9") 3%nat true peer_inputs n1
    (Some (Ok tt)) _ peers1_distinct).
  apply run_ok. vm_compute. reflexivity.
Defined.

(** ** Genesis *)

Lemma genesis_initialises_witness :
  chain (view s0) = {[0 := gblock]} ∧ consistent s0 0.
Proof.
  destruct (genesis_initialises gconfig MemoryStore.new s0 new_ok eq_refl genesis_run)
    as (l & vs & Hl & _ & Hc & Hcs & _).
  split; [|assumption]. rewrite Hc.
  assert (collect_res (alloc_tx <$> g_accounts gconfig) = Ok galloc) as Hg.
  { vm_compute. reflexivity. }
  rewrite Hg in Hl. injection Hl as <-. reflexivity.
Defined.

(** A configuration whose validator key is not hexadecimal. *)
Definition bad_gconfig : GenesisConfig :=
  mkGenesisConfig 5 [mkGenesisValidator (as_str a1) "zz" 10] (g_accounts gconfig).
Definition s_bad : MemoryStore := snd (apply_genesis bad_gconfig MemoryStore.new).

Lemma genesis_not_resumed_witness : apply_genesis gconfig s_bad = (Ok tt, s_bad).
Proof.
  refine (proj2 (genesis_not_resumed bad_gconfig gconfig MemoryStore.new s_bad
    "genesis validator pubkey hex: invalid character" galloc (Some gblock) new_ok eq_refl _ _ _)).
  - vm_compute. reflexivity.
  - unfold s_bad. apply run_ok. vm_compute. reflexivity.
  - vm_compute. reflexivity.
Defined.

Lemma genesis_supply_witness : supply (ledger_block gblock ∅) = 150.
Proof.
  apply (genesis_supply gconfig galloc); [vm_compute; reflexivity|].
  apply (bool_decide_eq_true (NoDup (galloc ≫= created_refs))). vm_compute. reflexivity.
Defined.

Lemma genesis_equal_accounts_collide_witness :
  supply (ledger_block (build_genesis_block 5
    [mkTransaction Transfer [] [mkTxOutput 100 a1]; mkTransaction Transfer [] [mkTxOutput 100 a1]]) ∅)
  = 100.
Proof.
  apply (genesis_equal_accounts_collide 5 (mkGenesisAccount (as_str a1) 100)). vm_compute. reflexivity.
Defined.

(** ** Block production *)

Lemma range25 : slots_in_range config1 25.
Proof. split; cbn; lia. Qed.

Definition ticked (now : Z) : NodeState MemoryStore := snd (tick config1 now n0).

Lemma tick_sleeps_to_slot_end_witness : 30 = (25 `div` 10 + 1) * 10 ∧ 25 < 30 ≤ 25 + 10.
Proof.
  apply (tick_sleeps_to_slot_end config1 25 n0 30 (ticked 25) range25).
  unfold ticked. apply run_ok. vm_compute. reflexivity.
Defined.

Definition config_with (d : Z) : NodeConfig :=
  mkNodeConfig (sock "10.0.0.1") [] d (sock "10.0.0.1") "db" 2 "genesis.toml" a1 sk1.

Lemma zero_slot_duration_panics_witness : tick (config_with 0) 25 n0 = (Panic, n0).
Proof. apply zero_slot_duration_panics. reflexivity. Defined.

Lemma one_second_slots_never_propose_witness :
  let n' := snd (tick (config_with 1) 25 n0) in
  n_store n' = n_store n0 ∧ n_mempool n' = n_mempool n0 ∧
  ∃ es, n_effects n' = n_effects n0 ++ es ∧ ∀ b, AnnounceBlock b ∉ es.
Proof.
  apply (one_second_slots_never_propose (config_with 1) 25 n0 _ _ eq_refl ltac:(lia)
    (surjective_pairing _)).
Defined.

(** The node produces the empty block of slot 2. *)
Definition b25 : Block := block_at 25 [].

Lemma produced_block_validates_witness :
  height (header b25) = 0 + 1 ∧ extend_calls b25 s0 = (Ok tt, n_store (ticked 25)) ∧
  ∃ parent, chain (view s0) !! 0 = Some parent ∧
    (timestamp (header parent) ≤ 25 → validate_block b25 parent s0 s0 10 = Ok tt).
Proof.
  destruct (produced_block_validates config1 25 n0 (Ok 30) (ticked 25) 0 b25 s0_at range25)
    as (Hh & _ & He & p & Hp & Hv).
  - unfold ticked. apply run_ok. vm_compute. reflexivity.
  - exists [Emit (SlotTick 2 0); Emit (MempoolDrain 2 0); AnnounceBlock b25;
            Emit (BlockProposed 1 (hex_encode (Block_hash b25)) 2 0 (as_str a1))].
    split; [vm_compute; reflexivity|]. do 2 right. left.
  - split; [exact Hh|]. split; [exact He|]. exists p. split; [exact Hp|]. intros Hts.
    change (validate_block b25 p (n_store n0) (n_store n0) (slot_duration_secs config1) = check_transactions (n_store n0) []).
    refine (proj2 Hv Hts _).
    intros v Hval. assert (validators (view s0) !! a1 = Some val1) as Hv1.
    { vm_compute. reflexivity. }
    change (n_store n0) with s0 in Hval. change (my_address config1) with a1 in Hval.
    rewrite Hv1 in Hval. injection Hval as <-. reflexivity.
Defined.

(** Two iterations, in the slots 2 and 3: half a second passes before the first
    sleep, and the second is cancelled. *)
Definition two_slots : list (Wake * (NodeState MemoryStore → NodeState MemoryStore)) :=
  [(mkWake 500000000 20000000 false, id); (mkWake 500000000 0 true, id)].

Lemma surjective_triple {A B C} (x : A * B * C) : x = (x.1.1, x.1.2, x.2).
Proof. by destruct x as [[]]. Qed.

Lemma one_block_per_slot_witness :
  let run := run_slot_ticker config1 two_slots 25000000000 n0 in
  run.1.2 = 31020000000 ∧
  ((Types.slot ∘ header) <$> announced (n_effects run.2)) = [2; 3] ∧
  slot_of config1 <$> iterations config1 two_slots 25000000000 n0 = [2; 3] ∧
  StronglySorted Z.lt ((Types.slot ∘ header) <$> announced (n_effects run.2)).
Proof.
  intros run. split; [vm_compute; reflexivity|]. split; [vm_compute; reflexivity|].
  destruct (one_block_per_slot config1 two_slots 25000000000 n0 run.1.1 run.1.2 run.2) as (_ & Hseq & es & made & He & _ & _ & Hs).
  - constructor; [reflexivity|discriminate|vm_compute; reflexivity|]. repeat constructor; discriminate.
  - assert (Hid : silent (S := MemoryStore) id) by (intros st; exists []; by rewrite app_nil_r).
    repeat constructor; exact Hid.
  - exact (surjective_triple run).
  - change (n_effects run.2) with ([] ++ n_effects run.2) in He. apply app_inv_head in He. rewrite He. split; [|exact Hs].
    rewrite Hseq by (repeat constructor; discriminate). vm_compute. reflexivity.
Defined.

(** ** Configuration and time stamps *)

#[local] Instance parse_any : ParseAddr := {| parse_addr s := inr (mkSocketAddr s 8333) |}.
Definition raw1 : RawConfig :=
  mkRawConfig "10.0.0.1" ["10.0.0.2"] 10 "10.0.0.1" "db" 2 "genesis.toml" (as_str a1)
    (hex_encode (sk_to_bytes sk1)).

Lemma from_raw_key_matches_witness :
  match from_raw raw1 with
  | Ok c => my_address c = Address.from_pubkey_bytes (vk_as_bytes (verifying_key (my_signing_key c)))
  | _ => False
  end.
Proof.
  destruct (from_raw raw1) as [c|e|] eqn:Hc; [|vm_compute in Hc; discriminate..].
  apply (from_raw_key_matches raw1 c Hc).
Defined.

Lemma epoch_to_ymd_correct_witness : days_of (epoch_to_ymd 20514) = 20514 ∧ epoch_to_ymd 20514 = (2026, 3, 2).
Proof. split; [apply epoch_to_ymd_correct; lia|vm_compute; reflexivity]. Defined.
