(* ===== verification/AppWitnesses.v ===== *)
(** * Witnesses for the network's edges

    The properties of the download, the API, the connector, the start-up and the
    client, applied in the scenario of [Witnesses]. *)

From S2P Require Import Prelude Bytes Types Consensus Encoding Store Ledger Validation MemoryStore.
From S2P Require Import SledStore Mempool DebugEvent Node Handler Protocol Genesis SlotTicker Ibd Api.
From S2P Require Import Http Connector Startup System Concurrent Schedule EventBus Wallet Rpc Split Keystore Cli Network.
From S2P Require Import Concrete Witnesses.

#[local] Existing Instances toy_crypto toy_core_json toy_json_message toy_hash_order toy_sort
  toy_json_text toy_json_parse toy_ciphers toy_keystore_json toy_config_toml toy_config_crate checked parse_any.

(** ** Download and start-up *)

(** A node with one bootstrap peer. *)
Definition config2 : NodeConfig :=
  mkNodeConfig (sock "10.0.0.4") [sock "10.0.0.2"] 10 (sock "10.0.0.4") "db" 2 "genesis.toml" a1 sk1.
Definition tip0 : option (Z * BlockHash) := match tip s0 with Ok t => t | _ => None end.
Definition loop1 : IbdLoop := mkIbdLoop 1 1 0 0 0.

Lemma s0_tip : tip s0 = Ok tip0.
Proof. vm_compute. reflexivity. Qed.

Lemma s1_reads : ∀ h, ∃ bs, iter_from h (n_store n1) = Ok bs.
Proof. intros h. eexists. reflexivity. Qed.



Lemma ibd_gives_up_witness : run_ibd config2 (replicate 6 Refused) s0 = (Some (Ok tt), s0).
Proof.
  apply (ibd_gives_up config2 6 s0 tip0); [discriminate|exact s0_tip|].
  vm_compute. split; [discriminate|reflexivity].
Defined.



(** A block of height 0 that creates money. *)
Definition mint : Transaction := mkTransaction Transfer [] [mkTxOutput 1000 a2].
Definition mint_block : Block :=
  mkBlock (mkBlockHeader zero_hash zero_hash 0 0 0 a2) (block_signature gblock) [mint].
Definition minted : MemoryStore :=
  snd (session_turn config2 (Response (to_vec (Blocks [mint_block]))) loop1 s0).

Lemma ibd_genesis_mints_witness :
  chain (view minted) !! 0 = Some mint_block ∧
  supply (utxos (view minted)) = supply (utxos (view s0)) + 1000.
Proof.
  destruct (ibd_genesis_mints config2 loop1 s0 minted (set_from 1 loop1) mint_block mint s0_at
    eq_refl eq_refl eq_refl) as (Hc & _ & Hs).
  - unfold minted. apply run_ok. vm_compute. reflexivity.
  - split; [exact Hc|]. apply Hs.
    + apply (bool_decide_eq_true (NoDup (created_refs mint))). vm_compute. reflexivity.
    + apply (forallb_elem (fun r => utxos (view s0) !! r = None)). vm_compute. reflexivity.
Defined.

(** The connection of a starting node to a running one. *)
Definition joining : list Attempt :=
  [Accepted (node_events config2 config1 src 1%nat n1 2 (NewBlock bA) loop1 s0)].

Lemma n1_greeting : tip_greeting (n_store n1) = Some (NewBlock bA).
Proof. vm_compute. reflexivity. Qed.

(** The messages of a node with a small chain fit a frame. *)
Lemma sendable_check (server : NodeState MemoryStore) g from :
  fits_frame (NewBlock g) && from_option fits_frame true (answer config1 src 1%nat from server) = true →
  sendable config1 src 1%nat server g from.
Proof. intros [Hg Ha]%andb_prop. split; [done|]. intros msg Hm. by rewrite Hm in Ha. Qed.

Lemma new_node_joins_witness :
  match start_node gconfig config2 joining MemoryStore.new with
  | Some (Ok st) => chain (view (n_store st)) = chain (view s1) ∧ mempool_ok (n_mempool st) ∧
      n_peers st = ∅
  | _ => False
  end.
Proof.
  destruct (new_node_joins gconfig config2 config1 src 1%nat n1 MemoryStore.new s0 galloc 1 tip0 bA 0
    new_ok eq_refl genesis_run ltac:(vm_compute; reflexivity) s0_tip ltac:(discriminate) s1_at ltac:(lia) s1_reads
    ltac:(vm_compute; reflexivity) n1_greeting ltac:(apply sendable_check; vm_compute; reflexivity)) as (r & Hr & Hout).
  change (start_node gconfig config2 joining MemoryStore.new = Some r) in Hr.
  assert (match start_node gconfig config2 joining MemoryStore.new with
          | Some (Ok _) => True | _ => False end) as Hok by (vm_compute; exact I).
  rewrite Hr in *. destruct r as [st|e|]; [|destruct Hok..].
  destruct Hout as (Hc & _ & _ & Hm & _ & Hp). exact (conj Hc (conj Hm Hp)).
Defined.

(** *** A chain of 257 blocks: 255 empty blocks after [bA] *)

Definition empty_after (p : Block) : Block :=
  make_block config1 (Block_hash p) (height (header p) + 1) (Types.slot (header p) + 1)
    (timestamp (header p) + 10) [].

Fixpoint grown (n : nat) (p : Block) (s : MemoryStore) : MemoryStore :=
  match n with O => s | S n' => grown n' (empty_after p) (extend_calls (empty_after p) s).2 end.

Lemma grown_at n p s t :
  store_at s t → chain (view s) !! t = Some p → t + Z.of_nat n + 1 < 2 ^ 64 →
  store_at (grown n p s) (t + Z.of_nat n) ∧
  (∀ h, h ≤ t → chain (view (grown n p s)) !! h = chain (view s) !! h) ∧
  replay_below (chain (view (grown n p s))) (t + Z.of_nat n + 1) = replay_below (chain (view s)) (t + 1).
Proof.
  revert p s t. induction n as [|n IH]; intros p s t Hat Hp Ht; cbn [grown].
  { by rewrite Z.add_0_r. }
  pose proof Hat as (Hs & Hc & _). pose proof (co_nonneg _ _ Hc). pose proof (co_height _ _ Hc _ _ Hp) as Hph.
  set (b := empty_after p). assert (Hb : height (header b) = t + 1) by (cbn; lia).
  assert (Hts : timestamp (header p) ≤ timestamp (header b)) by (cbn; lia).
  destruct (extend_calls_spec b p s t (Ok tt) (extend_calls b s).2 Hat Hp Hb eq_refl Hts)
    as (Hs' & _ & [(_ & _ & [])|(Hc' & _ & _)]); [by apply run_ok|done|].
  set (s' := (extend_calls b s).2) in *.
  destruct (IH b s' (t + 1)) as (Hat' & Hlow & Hrep); [|by rewrite Hc', lookup_insert_eq|lia|].
  { split; [done|]. split; [|lia]. rewrite Hc'. by eapply chain_ok_extend. }
  replace (t + Z.of_nat (S n)) with (t + 1 + Z.of_nat n) by lia. split_and!; [done| |].
  - intros h Hh. rewrite Hlow, Hc' by lia. by rewrite lookup_insert_ne by lia.
  - rewrite Hrep, (replay_below_succ _ (t + 1) b) by (lia || by rewrite Hc', lookup_insert_eq).
    change (ledger_block b ?u) with u. apply replay_below_ext. intros h Hh. rewrite Hc'. by rewrite lookup_insert_ne by lia.
Qed.

Definition s256 : MemoryStore := grown 255 bA s1.
Definition n256 : NodeState MemoryStore := node_with s256.

Definition greeting256 : Block :=
  match tip_greeting (n_store n256) with Some (NewBlock b) => b | _ => gblock end.

Lemma n256_greets : tip_greeting (n_store n256) = Some (NewBlock greeting256).
Proof. vm_compute. reflexivity. Qed.

Lemma n256_sendable : sendable config1 src 1%nat n256 greeting256 1.
Proof. apply sendable_check. vm_compute. reflexivity. Qed.

Lemma long_chain_not_joined_witness :
  ∃ events r, start_node gconfig config2 [Accepted events] MemoryStore.new = Some r ∧ ∀ st, r ≠ Ok st.
Proof.
  destruct (grown_at 255 bA s1 1 s1_at s1_tip ltac:(lia)) as (Hat & Hlow & Hrep).
  destruct (long_chain_not_joined gconfig config2 config1 src 1%nat n256 MemoryStore.new s0 galloc 256 tip0 greeting256 0
    bA tx1 (mkTxInput (gref 0) (sign sk1 (to_vec (mkTxSigningData Transfer [gref 0] (outputs tx1)))) (verifying_key sk1))
    new_ok eq_refl genesis_run) as [Hr _].
  - vm_compute. reflexivity.
  - exact s0_tip.
  - discriminate.
  - exact Hat.
  - lia.
  - intros h. by eexists.
  - change (chain (view (grown 255 bA s1)) !! 0 = Some (build_genesis_block (g_timestamp gconfig) galloc)).
    rewrite Hlow by lia. vm_compute. reflexivity.
  - exact n256_greets.
  - exact n256_sendable.
  - change (chain (view (grown 255 bA s1)) !! 1 = Some bA). rewrite Hlow by lia. exact s1_tip.
  - by left.
  - by left.
  - change (replay_below (chain (view (grown 255 bA s1))) (1 + Z.of_nat 255 + 1) !! gref 0 = None).
    rewrite Hrep. vm_compute. reflexivity.
  - destruct Hr as (r & Hr & Hne). eexists _, r. exact (conj Hr Hne).
Defined.

(** *** An encoding in which every batch of blocks is longer than a frame *)

Definition padding : nat := Z.to_nat (MAX_FRAME_LEN + 1).
Lemma padding_length : Z.of_nat padding = MAX_FRAME_LEN + 1.
Proof. apply Z2Nat.id. vm_compute. discriminate. Qed.
#[local] Opaque padding.
Definition verbose_to_vec (msg : Message) : list byte :=
  match msg with
  | Blocks _ => x00 :: replicate padding x00 ++ to_vec msg
  | _ => x01 :: to_vec msg
  end.
Definition verbose_from_slice (bs : list byte) : string + Message :=
  match bs with
  | x00 :: bs' => from_slice (drop padding bs')
  | _ :: bs' => from_slice bs'
  | [] => inl "syntax error"
  end.
Definition verbose_message : Json Message.
Proof.
  refine {| to_vec := verbose_to_vec; from_slice := verbose_from_slice |}. intros msg.
  assert (Hpad : from_slice (drop padding (replicate padding x00 ++ to_vec msg)) = inr msg).
  { rewrite drop_app_length' by (by rewrite length_replicate). apply from_slice_to_vec. }
  destruct msg; lazymatch goal with |- context [Blocks _] => exact Hpad | _ => apply from_slice_to_vec end.
Defined.

Lemma verbose_batch blocks : fits_frame (H1 := verbose_message) (Blocks blocks) = false.
Proof.
  apply Z.leb_gt. change (to_vec (Json := verbose_message) (Blocks blocks)) with (verbose_to_vec (Blocks blocks)).
  unfold verbose_to_vec. rewrite length_cons, length_app, length_replicate.
  pose proof padding_length. lia.
Qed.

Lemma oversized_batch_lost_witness :
  ∃ connection, run_ibd (H1 := verbose_message) config2 (replicate 6 (Accepted connection)) s0 = (Some (Ok tt), s0).
Proof.
  eexists.
  refine (proj2 (oversized_batch_lost (H1 := verbose_message) config2 config1 src 1%nat n1 s0 0 tip0 bA (Blocks [bA]) 0 6
    _ s0_tip s0_at _ _ (verbose_batch [bA]))).
  - discriminate.
  - vm_compute. reflexivity.
  - vm_compute. reflexivity.
Defined.

(** ** API *)

Definition posted : Res Empty_set (list byte) * NodeState MemoryStore :=
  Api.post_tx (to_vec tx1) n0.
Definition routed : Res Empty_set (list byte) * NodeState MemoryStore :=
  route "POST" "/tx" (to_vec tx1) n0.

Lemma route_safe_witness :
  n_store (snd routed) = s0 ∧ n_peers (snd routed) = peers1 ∧ mempool_ok (n_mempool (snd routed)).
Proof.
  destruct (route_safe "POST" "/tx" (to_vec tx1) n0 _ _ (mempool_new_ok 2) (surjective_pairing routed))
    as (Hs & Hp & Hm & _).
  exact (conj Hs (conj Hp Hm)).
Defined.

Lemma post_tx_outcomes_witness : post_outcome tx1 n0 (snd posted) (fst posted).
Proof.
  apply (post_tx_outcomes (to_vec tx1) tx1 n0); [exact (mempool_new_ok 2)| |exact (surjective_pairing posted)].
  apply from_slice_to_vec.
Defined.

(** ** Connections *)

Lemma backoff_schedule_witness :
  sock "10.0.0.2" ∈ dial_targets [sock "10.0.0.2"] []
    (after_failures (sock "10.0.0.2") [0; 2; 6] ∅) 14 ↔ 6 + 8 ≤ 14.
Proof.
  apply (backoff_schedule [sock "10.0.0.2"] [] (sock "10.0.0.2") [0; 2] 6 14); set_solver.
Defined.

(** Sixty connections from different addresses. *)
Definition crowd : list (SocketAddr * Sender) :=
  (fun i => (mkSocketAddr (pretty i) 8333, i)) <$> seq 0 60.

Lemma inbound_limit_exceeded_witness :
  ∃ st', rtc server_step (n0, []) (st', []) ∧ PeerSet.len (n_peers st') = 62%nat.
Proof.
  apply (inbound_limit_exceeded crowd n0).
  - vm_compute. reflexivity.
  - apply (bool_decide_eq_true (NoDup (ip <$> crowd.*1))). vm_compute. reflexivity.
  - apply (forallb_elem (fun a => PeerSet.has_ip (ip a) (n_peers n0) = false)). vm_compute. reflexivity.
Defined.

(** ** The client *)

Definition coins : list UtxoItem := [mkUtxoItem "aa" 0 5; mkUtxoItem "bb" 0 1].

(** Both coins are taken although the first one is enough. *)
Lemma select_coins_spec_witness :
  match select_coins coins 5 with
  | Ok sel => 5 ≤ sumZ (ui_amount <$> selected sel) ∧ length (selected sel) = 2%nat
  | _ => False
  end.
Proof.
  pose proof (select_coins_spec coins 5 ltac:(repeat constructor; cbn; lia) ltac:(unfold u64; lia)) as Hs.
  destruct (select_coins coins 5) as [sel|e|] eqn:Hsel; [|vm_compute in Hsel; discriminate..].
  destruct Hs as (front & c & rest & _ & _ & _ & _ & Hle & _). split; [exact Hle|].
  vm_compute in Hsel. injection Hsel as <-. reflexivity.
Defined.

Definition all_well : RoundEnv := mkRoundEnv (fun _ => Ok tt) true.
Definition coin4 : UtxoItem := mkUtxoItem (hex_encode (replicate 32 x07)) 0 4.

Lemma split_reaches_target_witness :
  ∃ out, split_utxo sk1 a1 [all_well; all_well] coin4 3 = Some (Ok out) ∧ length out = 3%nat ∧
    Forall (fun u => item_ok u ∧ 1 ≤ ui_amount u) out ∧ sumZ (ui_amount <$> out) = 4.
Proof.
  apply (split_reaches_target sk1 a1 [all_well; all_well] coin4 3).
  - split; [|unfold u64; cbn; lia]. exists (replicate 32 x07). split; [apply hex_decode_encode|reflexivity].
  - repeat constructor.
  - cbn. lia.
  - cbn. lia.
Defined.

Definition key_path : Path := mkPath ".bcc" "keystore" (Some "json").
Definition draws : Draws := mkDraws (replicate 32 x01) (replicate 32 x05) (replicate 12 x06).
Definition created : Res ClientError Address * gmap Path Content :=
  create key_path "secret" draws Written None ∅.

Lemma created_Ok : created = (Ok a1, snd created).
Proof. apply run_ok. vm_compute. reflexivity. Qed.

Lemma keystore_roundtrip_witness :
  load_and_decrypt key_path "secret" (snd created) = Ok sk1 ∧
  read_address key_path (snd created) = Ok a1.
Proof.
  destruct (keystore_roundtrip key_path "secret" draws Written None ∅ a1 (snd created)
    eq_refl eq_refl created_Ok) as (Hl & Hr & _). exact (conj Hl Hr).
Defined.

(** The rename fails over an existing key file. *)
Definition old_files : gmap Path Content := {[key_path := Text "old"]}.
Definition failed_create : Res ClientError Address * gmap Path Content :=
  create key_path "secret" draws Written (Some "denied") old_files.

Lemma keystore_create_atomic_witness : snd failed_create !! key_path = Some (Text "old").
Proof.
  destruct (keystore_create_atomic key_path "secret" draws Written (Some "denied") old_files _ _
    ltac:(discriminate) (surjective_pairing failed_create)) as [[[Hf _]|(a & ks & Ha & _)] _].
  - change (snd failed_create !! key_path = old_files !! key_path) in Hf. rewrite Hf. reflexivity.
  - exfalso. vm_compute in Ha. discriminate Ha.
Defined.

Definition init_args : NodeInitArgs :=
  mkNodeInitArgs ["10.0.0.2"] "10.0.0.1" "10.0.0.1" "db" "genesis.toml" 10 2.

Definition conf_path : Path := mkPath "/etc/bcc" "node" (Some "toml").

Definition initialised : Res ClientError unit * gmap Path Content :=
  cmd_node_init conf_path init_args None (replicate 32 x01) (inr ""%string) Written old_files.

Lemma initialised_Ok : initialised = (Ok tt, initialised.2).
Proof. apply run_ok. vm_compute. reflexivity. Qed.

Lemma node_init_accepted_witness :
  ∃ sk text, initialised.2 !! conf_path = Some (Text text) ∧
    config_from_file (toml_read text) {["node_name"%string := ConfigString "node1"]}
      = Ok (mkNodeConfig (sock "10.0.0.1") [sock "10.0.0.2"] 10 (sock "10.0.0.1") "db" 2
          "genesis.toml" (addr_of sk) sk).
Proof.
  destruct (node_init_accepted conf_path init_args None (replicate 32 x01) (inr ""%string) Written
    old_files initialised.2 {["node_name"%string := ConfigString "node1"]} eq_refl ltac:(discriminate) initialised_Ok)
    as (sk & text & _ & Hfs & Hc).
  - apply (Forall_forall (fun k => ({["node_name"%string := ConfigString "node1"]} : ConfigTable) !! k = None)).
    repeat constructor.
  - exists sk, text. split; [|exact Hc]. rewrite Hfs. apply lookup_insert_eq.
Defined.

(** A node that lists its outputs and records what is posted. *)
Definition listed : list (TxOutRef * TxOutput) := match list_utxos a1 s0 with Ok l => l | _ => [] end.
Definition toy_rpc : RpcClient (list Transaction) :=
  mkRpcClient (throw (Rpc "none")) (fun _ => throw (Rpc "none"))
    (fun _ n => (Ok (utxo_item <$> listed), n)) (fun tx n => (Ok (mkTxResponse "posted"), n ++ [tx])).
Definition sent : Res ClientError string * list Transaction :=
  cmd_send toy_rpc (as_str a2) 60 key_path (inr "secret"%string) (snd created) [].

Lemma send_posts_valid_witness :
  ∃ tx, snd sent = [tx] ∧ validate_transaction tx s0 = Ok tt ∧
    outputs tx = [mkTxOutput 60 a2; mkTxOutput 40 a1].
Proof.
  destruct (send_posts_valid toy_rpc s0 (as_str a2) 60 key_path (inr "secret"%string) "secret" sk1 listed
    (snd created) [] [] (fst sent) (snd sent)) as [[_ [Hn|Hn]]|(tx & rc & Hpost & Hrc & Hval & Hout & _)].
  - reflexivity.
  - vm_compute. reflexivity.
  - reflexivity.
  - exact (cs_ok _ _ s0_consistent).
  - vm_compute. reflexivity.
  - intros ro _. eexists. reflexivity.
  - apply (bool_decide_eq_true (Forall (fun ro => length (tx_hash ro.1) = 32%nat ∧
      0 ≤ amount ro.2 < 2 ^ 64) listed)). vm_compute. reflexivity.
  - vm_compute. reflexivity.
  - lia.
  - exact (surjective_pairing sent).
  - exfalso. vm_compute in Hn. discriminate Hn.
  - exfalso. vm_compute in Hn. discriminate Hn.
  - assert (snd sent = [tx]) as Hsent.
    { unfold fmap, ST_fmap in Hpost. cbn in Hpost. congruence. }
    exists tx. split_and!; [exact Hsent|exact Hval|].
    assert (outputs <$> snd sent = [[mkTxOutput 60 a2; mkTxOutput 40 a1]]) as Ho
      by (vm_compute; reflexivity).
    rewrite Hsent in Ho. by injection Ho.
Defined.

(** ** The running node *)

(** A peer registers and sends [bA]; a transfer is posted. *)
Definition f0 : NodeState MemoryStore := new_node config1 s0.
Definition f1 : NodeState MemoryStore :=
  match register_peer src 1%nat f0 with Some st => st | None => f0 end.
Definition f2 : NodeState MemoryStore := snd (dispatch config1 (to_vec (NewBlock bA)) src 1%nat f1).
Definition f3 : NodeState MemoryStore :=
  snd (route "POST" "/tx" (to_vec (signed_tx sk2 (gref 1) [mkTxOutput 50 a1])) f2).

Lemma f3_steps : nsteps (node_step config1) 3 f0 f3.
Proof.
  apply (nsteps_l _ _ f0 f1); [by apply (step_connect _ src 1%nat)|].
  apply (nsteps_l _ _ f1 f2).
  { eapply step_frame; [|apply surjective_pairing].
    intros msg. rewrite from_slice_to_vec. intros [= <-]. vm_compute. split; [discriminate|reflexivity]. }
  apply (nsteps_l _ _ f2 f3); [|constructor]. eapply step_request, surjective_pairing.
Qed.

(** The block has been accepted and the transfer waits in the mempool. *)
Lemma f3_state : chain (view (n_store f3)) !! 1 = Some bA ∧ length (mp_txs (n_mempool f3)) = 1%nat.
Proof. split; vm_compute; reflexivity. Qed.


(** The persistent store keeps the trees of another node. *)
#[local] Existing Instance toy_sled.
Definition config3 : NodeConfig :=
  mkNodeConfig (sock "10.0.0.3") [] 10 (sock "10.0.0.3") "db" 2 "genesis.toml" a2 sk2.
Definition k0 : NodeState SledStore := new_node config3 z0.
Definition k1 : NodeState SledStore := deregister_peer src k0.

Lemma k1_steps : nsteps (node_step (order := reverse_hash_order) config3) 1 k0 k1.
Proof. apply (nsteps_l _ _ k0 k1); [apply step_disconnect|constructor]. Qed.

Definition active_of {S} `{!ValidatorStore S} (s : S) : list Validator :=
  match all_active 3 s with Ok vs => vs | _ => [] end.

Lemma nodes_agree_witness :
  chain (view s0) !! 0 = chain (view z0) !! 0 ∧
  elect_proposer (E := Empty_set) 3 zero_hash (active_of (n_store f3)) =
  elect_proposer 3 zero_hash (active_of (n_store k1)).
Proof.
  destruct z_init_ok as [Hz Hzv].
  destruct (nodes_agree (S1 := MemoryStore) (S2 := SledStore) (StoreLaws1 := sled_laws)
    toy_hash_order reverse_hash_order config1 config3 gconfig MemoryStore.new s0 z_init z0
    3 1 f3 k1 3 zero_hash (active_of (n_store f3)) (active_of (n_store k1))
    new_ok eq_refl genesis_run Hz Hzv) as [_ He].
  - apply run_ok. vm_compute. reflexivity.
  - exact f3_steps.
  - exact k1_steps.
  - reflexivity.
  - reflexivity.
  - vm_compute. reflexivity.
  - vm_compute. reflexivity.
  - split; [vm_compute; reflexivity|exact He].
Defined.

(** ** Interleaved tasks *)

(** Two connections deliver [bA] and [bB]; their handlers take turns. *)
Definition taskA : proc (NodeState MemoryStore) unit :=
  dispatch_steps config1 (to_vec (NewBlock bA)) src 1%nat.
Definition taskB : proc (NodeState MemoryStore) unit :=
  dispatch_steps config1 (to_vec (NewBlock bB)) (sock "10.0.0.3") 2%nat.
Definition turns : list nat := [0; 1; 0; 1; 0; 1; 0; 1; 0; 0; 0; 1; 1; 0; 0; 0; 1; 1; 1]%nat.
Definition start : list (proc (NodeState MemoryStore) unit) * NodeState MemoryStore :=
  ([taskA; taskB], new_node config1 s0).

Lemma frame_typed b : u64 (slot (header b)) →
  ∀ msg, from_slice (to_vec (NewBlock b)) = inr msg → message_typed msg.
Proof. intros Hb msg. rewrite from_slice_to_vec. by intros [= <-]. Qed.

Lemma start_steps : nsteps (sched_step config1) 2 ([], new_node config1 s0) start.
Proof.
  apply (nsteps_l _ _ _ ([taskA], new_node config1 s0)).
  { apply (sched_spawn config1 taskA []), task_frame, frame_typed. vm_compute. split; [discriminate|reflexivity]. }
  apply (nsteps_l _ _ _ start); [|constructor].
  apply (sched_spawn config1 taskB [taskA]), task_frame, frame_typed. vm_compute. split; [discriminate|reflexivity].
Qed.

Lemma interleavings_safe_witness :
  match play turns start with
  | Some (_, st) => chain (view (n_store st)) !! 1 = Some bB ∧ mempool_ok (n_mempool st) ∧
      ∃ g vs, lineage config1 g vs bB
  | None => False
  end.
Proof.
  assert (match play turns start with
    | Some (_, st) => chain (view (n_store st)) !! 1 = Some bB | None => False end) as Hb
    by (vm_compute; reflexivity).
  destruct (play turns start) as [[pool st]|] eqn:Hplay; [|exact Hb].
  apply (play_steps config1) in Hplay.
  destruct (interleavings_safe config1 gconfig MemoryStore.new s0 (2 + length turns) pool st
    new_ok eq_refl genesis_run) as (txs & _ & _ & _ & Hc & Hm & _).
  - intros v Hv.
    assert (v_pubkey <$> (validators (view s0) !! my_address config1) = Some (verifying_key sk1)) as Hk
      by (vm_compute; reflexivity).
    rewrite Hv in Hk. by injection Hk.
  - exact (nsteps_trans 2 (length turns) _ _ _ start_steps Hplay).
  - reflexivity.
  - destruct (Hc 1 bB Hb) as (_ & _ & Hlin). exact (conj Hb (conj Hm (ex_intro _ _ (ex_intro _ _ Hlin)))).
Defined.

Lemma extends_b b : b = bA ∨ b = bB → extends config1 b gblock 0 s0.
Proof.
  intros [-> | ->]; (split; [vm_compute; split; [discriminate|reflexivity]|vm_compute; reflexivity..]).
Qed.

(** Both blocks are taken in: the chain ends with [bB], which is empty, but the
    outputs of the transfer in [bA] exist. *)
Definition raced : MemoryStore := snd (extend_calls bB s1).

Lemma racing_blocks_diverge_witness :
  chain (view raced) = <[1 := bB]> {[0 := gblock]} ∧ ¬ consistent raced 1.
Proof.
  destruct (racing_blocks_diverge config1 bA bB gblock 0 src (sock "10.0.0.3") 1%nat 2%nat n0 s1 raced
    s0_consistent eq_refl (extends_b bA (or_introl eq_refl)) (extends_b bB (or_intror eq_refl)) extend_bA)
    as (st' & _ & _ & Hc & _ & Hbad).
  - apply run_ok. vm_compute. reflexivity.
  - split.
    + rewrite Hc. change (n_store n0) with s0. by rewrite s0_chain.
    + apply (Hbad (output_ref tx1 0)).
      * vm_compute. apply not_elem_of_nil.
      * vm_compute. apply not_elem_of_nil.
      * vm_compute. reflexivity.
      * vm_compute. by eexists.
Defined.

Lemma sequential_runs_are_schedules_witness :
  ∃ rs, rtc (sched_step config1) ([], f0) (Done <$> rs, f3).
Proof. apply (sequential_runs_are_schedules config1 f0 f3). apply rtc_nsteps. exists 3%nat. exact f3_steps. Defined.

(** ** The wire *)

Definition request0 : Request :=
  mkRequest "POST" "/tx" [text "Host: node"] (to_vec tx1).

Lemma request_served_witness :
  handle_conn true (render request0) n0 =
  (resp ← route "POST" "/tx" (to_vec tx1); mret (Some resp)) n0.
Proof.
  rewrite <- (app_nil_r (render request0)). apply (request_served true request0 [] n0).
  split.
  - split; [|discriminate]. apply (bool_decide_eq_true (Forall _ _)). vm_compute. reflexivity.
  - apply (bool_decide_eq_true (Forall _ _)). vm_compute. reflexivity.
  - constructor; [|constructor]. split_and!; [apply (bool_decide_eq_true (Forall _ _)); vm_compute; reflexivity| |reflexivity].
    split; [by eexists x48, _|by exists x65, (text "Host: nod")].
  - vm_compute. discriminate.
Defined.

(** A request whose body is cut off. *)
Definition cut : Res Empty_set (option (list byte)) * NodeState MemoryStore :=
  handle_conn true (take 60 (render request0)) n0.

Lemma connection_safe_witness : n_store (snd cut) = s0 ∧ fst cut = Ok None.
Proof.
  destruct (connection_safe true (take 60 (render request0)) n0 (fst cut) (snd cut) (mempool_new_ok 2)
    ltac:(unfold cut; apply surjective_pairing)) as (Hs & _). split; [exact Hs|vm_compute; reflexivity].
Defined.

(** The transfer of [sent], over the wire to the modelled node. *)
Definition wired : Res ClientError string * NodeState MemoryStore :=
  cmd_send (new_client (HttpTransport0 := node_http "http://node") "http://node") (as_str a2) 60 key_path
    (inr "secret"%string) (snd created) n0.
Definition selected_coins : list UtxoItem :=
  match select_coins (utxo_item <$> listed) 60 with Ok sel => selected sel | _ => [] end.
Definition transfer60 : Transaction :=
  match build_transfer sk1 selected_coins a2 60 a1 with Ok tx => tx | _ => mint end.

Lemma send_end_to_end_witness :
  match fst wired with Ok _ => True | _ => False end ∧
  length (mp_txs (n_mempool (snd wired))) = 1%nat ∧ length (sends n0 (snd wired)) = 2%nat.
Proof.
  destruct (send_end_to_end "http://node" n0 (as_str a2) a2 60 key_path "secret" sk1 listed (snd created))
    as (tx & st' & Hrun & _ & _ & Hpool & Hsends & _).
  - exact (cs_ok _ _ s0_consistent).
  - exact (mempool_new_ok 2).
  - vm_compute. reflexivity.
  - vm_compute. reflexivity.
  - vm_compute. reflexivity.
  - intros ro _. eexists. reflexivity.
  - apply (bool_decide_eq_true (Forall (fun ro => length (tx_hash ro.1) = 32%nat ∧
      entry_fits ro) listed)). vm_compute. reflexivity.
  - vm_compute. reflexivity.
  - vm_compute. split; [reflexivity|discriminate].
  - intros r _. apply not_elem_of_empty.
  - cbn. lia.
  - intros sel tx Hsel Htx.
    assert (tx = transfer60) as ->.
    { unfold transfer60, selected_coins. rewrite Hsel. change a1 with (addr_of sk1). unfold addr_of. by rewrite Htx. }
    split; [apply not_elem_of_nil|]. vm_compute. discriminate.
  - change (wired = (Ok (hex_encode (Transaction_hash tx)), st')) in Hrun. rewrite Hrun. cbn [fst snd]. split; [exact I|]. apply Permutation_length in Hpool, Hsends.
    rewrite Hpool, Hsends. split; vm_compute; reflexivity.
Defined.
