(* ===== verification/GossipWitnesses.v ===== *)
(** * Witnesses for the network of nodes

    Three nodes in a line with the genesis block of [Witnesses]: the first is
    elected, and the third hears of its block through the second. *)

From S2P Require Import Prelude Bytes Types Consensus Encoding Store Ledger Validation MemoryStore.
From S2P Require Import Mempool DebugEvent Node Handler Protocol SlotTicker Reliable Gossip Flood Fork Api Http.
From S2P Require Import System Laggard Connector Wallet Rpc Keystore Cli Network Payment Concrete Witnesses AppWitnesses.

#[local] Existing Instances toy_crypto toy_core_json toy_json_message toy_hash_order toy_sort
  toy_json_text toy_json_parse toy_ciphers toy_keystore_json checked.

Definition line_configs (i : nat) : NodeConfig := if decide (i = 0%nat) then config1 else config3.

(** The channels: 10 from the first node to the second, 11 back, 12 from the
    second to the third, 13 back. *)
Definition A : SocketAddr := sock "10.0.0.1".
Definition B : SocketAddr := sock "10.0.0.2".
Definition C : SocketAddr := sock "10.0.0.3".
Definition line_far (i : nat) (s : Sender) : option (nat * SocketAddr) :=
  match i, s with
  | 0, 10 => Some (1, A) | 1, 11 => Some (0, B) | 1, 12 => Some (2, B) | 2, 13 => Some (1, C)
  | _, _ => None
  end%nat.
Definition line_node (ps : gmap SocketAddr Sender) : NodeState MemoryStore := mkNodeState s0 (Mempool.new 2) ps [].
Definition nodeA : NodeState MemoryStore := line_node {[B := 10%nat]}.
Definition line : list (NodeState MemoryStore) :=
  [nodeA; line_node {[A := 11%nat; C := 12%nat]}; line_node {[B := 13%nat]}].

Lemma line_wired : Gossip.wired line_far line.
Proof.
  intros [|[|[|i]]] st a s Hi Ha; cbn in Hi; simplify_eq; cbn in Ha.
  - apply lookup_singleton_Some in Ha as [<- <-]. exists 1%nat, A, (line_node {[A := 11%nat; C := 12%nat]}), 11%nat. by split_and!.
  - apply lookup_insert_Some in Ha as [[<- <-]|[_ [<- <-]%lookup_singleton_Some]].
    + exists 0%nat, B, nodeA, 10%nat. by split_and!.
    + exists 2%nat, B, (line_node {[B := 13%nat]}), 13%nat. by split_and!.
  - apply lookup_singleton_Some in Ha as [<- <-]. exists 1%nat, C, (line_node {[A := 11%nat; C := 12%nat]}), 12%nat. by split_and!.
Qed.

Lemma line_store i x : line !! i = Some x → n_store x = s0.
Proof. destruct i as [|[|[|i]]]; cbn; intros Hx; by simplify_eq. Qed.

Lemma line_elected : elected_net line_configs line_far line [] 0%nat 25 0 (view s0) gblock nodeA val1.
Proof.
  constructor; [constructor|done|constructor].
  - exact line_wired.
  - by intros q ?%not_elem_of_nil.
  - intros i x ->%line_store. split; [exact s0_at|]. split; [done|]. unfold line_configs. by case_decide.
  - by rewrite s0_chain.
  - done.
  - split; [exact range25|done].
  - constructor; [vm_compute; reflexivity|exists [val1]; by split; vm_compute|done|vm_compute; reflexivity|].
    intros b Hb. assert (b = gblock) as -> by (vm_compute in Hb |- *; congruence). done.
  - intros w Hw. assert (validators (view s0) !! a1 = Some val1) as Hv1 by (vm_compute; reflexivity).
    change (my_address (line_configs 0%nat)) with a1 in Hw. rewrite Hv1 in Hw. by injection Hw as <-.
Qed.

Lemma line_linked i : i = 0%nat ∨ i = 1%nat ∨ i = 2%nat → rtc (linked line_far line) 0%nat i.
Proof.
  assert (H01 : linked line_far line 0%nat 1%nat) by (exists nodeA, B, 10%nat, A; by split_and!).
  assert (H12 : linked line_far line 1%nat 2%nat).
  { exists (line_node {[A := 11%nat; C := 12%nat]}), C, 12%nat, B. split_and!; [done|vm_compute; reflexivity|done]. }
  intros [->|[->| ->]]; [done|by apply rtc_once|by eapply rtc_l, rtc_once].
Qed.

Lemma line_deliverable block : fits_frame (NewBlock block) = true → unknown (Block_hash block) s0 →
  deliverable line block.
Proof. intros Hf Hn. split; [done|]. by intros i x ->%line_store. Qed.

(** The empty block of slot 2 reaches the third node. *)
Lemma block_reaches_network_witness :
  ∃ net, net_step line_configs line_far None (mkNet line []) net ∧
    ∃ ps net', deliveries line_configs line_far ps net net' ∧
      ∃ x, net_nodes net' !! 2%nat = Some x ∧ chain (view (n_store x)) !! 1 = Some b25.
Proof.
  destruct (block_reaches_network line_configs line_far line [] 0%nat 25 0 (view s0) gblock nodeA val1 line_elected)
    as (net & Hstep & (ps & net' & Hps & Hno) & Hall).
  - intros tx Htx. change (tx ∈ []) in Htx. destruct (not_elem_of_nil _ Htx).
  - apply line_deliverable; vm_compute; reflexivity.
  - exists net. split; [exact Hstep|]. exists ps, net'. split; [exact Hps|].
    destruct (Hall ps net' Hps) as (_ & _ & _ & Hreach).
    destruct (Hreach Hno 2%nat (line_linked 2%nat ltac:(tauto))) as (x & Hx & Hv). exists x. split; [exact Hx|].
    rewrite Hv. vm_compute. reflexivity.
Defined.

(** The same slot as a round, after which the three nodes agree again. *)
Lemma line_connected : connected line_far line.
Proof.
  assert (Hback : ∀ i, i = 0%nat ∨ i = 1%nat ∨ i = 2%nat → rtc (linked line_far line) i 0%nat).
  { assert (H10 : linked line_far line 1%nat 0%nat).
    { exists (line_node {[A := 11%nat; C := 12%nat]}), A, 11%nat, B. split_and!; [done|vm_compute; reflexivity|done]. }
    assert (H21 : linked line_far line 2%nat 1%nat) by (exists (line_node {[B := 13%nat]}), B, 13%nat, C; by split_and!).
    intros i [->|[->| ->]]; [done|by apply rtc_once|by eapply rtc_l, rtc_once]. }
  assert (Hcase : ∀ i, is_Some (line !! i) → i = 0%nat ∨ i = 1%nat ∨ i = 2%nat).
  { intros [|[|[|i]]] Hi; [tauto..|]. by destruct Hi. }
  intros i j Hi%Hcase Hj%Hcase. etransitivity; [by apply Hback|by apply line_linked].
Qed.

Lemma line_round : ∃ net, net_round line_configs line_far 0 (view s0) (mkNet line []) net b25.
Proof.
  destruct (elected_spreading line_configs line_far line [] 0%nat 25 0 (view s0) gblock nodeA val1 line_elected)
    as (st' & r & Htick & _ & _ & _ & Hsp & Hinv & _).
  - intros tx Htx. change (tx ∈ []) in Htx. destruct (not_elem_of_nil _ Htx).
  - apply line_deliverable; vm_compute; reflexivity.
  - destruct (spreading_completes _ _ _ _ _ _ _ _ Hinv) as (ps & net & Hps & Hno). exists net.
    apply (round_intro line_configs line_far 0 (view s0) (mkNet line []) net b25 0%nat 25 gblock nodeA st' r val1 ps).
    + done.
    + exact (el_leads _ _ _ _ _ _ _ _ _ _ _ line_elected).
    + reflexivity.
    + intros tx Htx. change (tx ∈ []) in Htx. destruct (not_elem_of_nil _ Htx).
    + apply line_deliverable; vm_compute; reflexivity.
    + exact Htick.
    + exact Hps.
    + exact Hno.
Qed.

Lemma network_stays_in_agreement_witness :
  ∃ net v', net_rounds line_configs line_far 0 (view s0) (mkNet line []) [b25] net ∧
    agreement line_configs line_far (net_nodes net) (net_wire net) 1 v' 10 ∧ chain v' !! 1 = Some b25.
Proof.
  destruct line_round as [net Hround].
  assert (Hrounds : net_rounds line_configs line_far 0 (view s0) (mkNet line []) [b25] net).
  { eapply rounds_cons; [exact Hround|constructor]. }
  destruct (network_stays_in_agreement line_configs line_far 0 (view s0) 10 (mkNet line []) [b25] net
    (el_agreement _ _ _ _ _ _ _ _ _ _ _ line_elected) line_connected Hrounds) as (v' & Hag & _ & _ & Hbs & _).
  exists net, v'. split; [exact Hrounds|]. split; [exact Hag|]. exact (Hbs 0%nat b25 eq_refl).
Defined.

(** *** A fork: the first and the third node share the validator's key *)

Definition fork_configs (_ : nat) : NodeConfig := config1.
Definition nodeC : NodeState MemoryStore := line_node {[B := 13%nat]}.
Definition forkA : NodeState MemoryStore := snd (tick config1 25 nodeA).
Definition forkC : NodeState MemoryStore := snd (tick config1 30 nodeC).

Lemma fork_agreement : agreement fork_configs line_far line [] 0 (view s0) 10.
Proof.
  constructor; [exact line_wired|by intros q ?%not_elem_of_nil|].
  intros i x ->%line_store. split; [exact s0_at|done].
Qed.

Lemma line_produces a now st : line !! a = Some st → n_mempool st = Mempool.new 2 →
  slots_in_range config1 now → 5 ≤ now → now + 1 < (now `div` 10 + 1) * 10 → 0 < now `div` 10 →
  all_active (now `div` 10) s0 = Ok [val1] →
  elect_proposer (E := Empty_set) (now `div` 10) (Block_hash gblock) [val1] = Ok (Some val1) →
  fits_frame (NewBlock (block_at now [])) = true → unknown (Block_hash (block_at now [])) s0 →
  (∃ r, tick config1 now st = (Ok r, (tick config1 now st).2)) →
  produces_block fork_configs line a now 0 (view s0) gblock st (tick config1 now st).2.
Proof.
  intros Ha Hm Hr Hts Hwin Hslot Hact Hel Hfits Hnew Htick. pose proof (line_store _ _ Ha) as Hs.
  assert (Hblock : next_block fork_configs a now 0 gblock st = block_at now []).
  { unfold next_block, block_at, fork_configs. rewrite Hm. reflexivity. }
  constructor; [exact Ha| | | |exact Htick].
  - exists val1. constructor; [by rewrite s0_chain|reflexivity|exact (conj Hr Hts)| |].
    + constructor; rewrite ?Hs; [vm_compute; reflexivity|exists [val1]; exact (conj Hact Hel)|reflexivity|exact Hwin|].
      intros b Hb. assert (b = gblock) as -> by (vm_compute in Hb |- *; congruence). exact Hslot.
    + intros w Hw. assert (validators (view s0) !! a1 = Some val1) as Hv1 by (vm_compute; reflexivity).
      change (my_address (fork_configs a)) with a1 in Hw. rewrite Hv1 in Hw. by injection Hw as <-.
  - rewrite Hblock. intros tx Htx. change (tx ∈ []) in Htx. destruct (not_elem_of_nil _ Htx).
  - rewrite Hblock. by apply line_deliverable.
Qed.

Lemma range30 : slots_in_range config1 30.
Proof. split; [reflexivity|split; [discriminate|reflexivity]]. Qed.

(** The block of slot 2 has the lower hash; it reaches the node that has
    produced the block of slot 3. *)
Lemma fork_settles_witness :
  ∃ ps net', deliveries fork_configs line_far ps
      (mkNet (<[0%nat := forkA]> (<[2%nat := forkC]> line)) ([mkPacket 1 C (to_vec (NewBlock bB))] ++ [mkPacket 1 A (to_vec (NewBlock b25))])) net' ∧
    ∃ x, net_nodes net' !! 2%nat = Some x ∧ chain (view (n_store x)) !! 1 = Some b25.
Proof.
  destruct (fork_settles fork_configs line_far line [] 2%nat 0%nat 30 25 0 (view s0) 10 gblock nodeC nodeA forkC forkA
    fork_agreement ltac:(discriminate)) with (wire' := [mkPacket 1 C (to_vec (NewBlock bB))] ++ [mkPacket 1 A (to_vec (NewBlock b25))])
    as [(ps & net' & Hps & Hno) Hall].
  - apply line_produces; [reflexivity|reflexivity|exact range30|lia|vm_compute; reflexivity..|].
    exists 40. apply run_ok. vm_compute. reflexivity.
  - apply line_produces; [reflexivity|reflexivity|exact range25|lia|vm_compute; reflexivity..|].
    exists 30. apply run_ok. vm_compute. reflexivity.
  - vm_compute. exact I.
  - apply block_applies_check. vm_compute. reflexivity.
  - vm_compute. reflexivity.
  - apply reflexive_eq. vm_compute. reflexivity.
  - exists ps, net'. split; [exact Hps|]. destruct (Hall ps net' Hps) as [_ Hreach].
    destruct (Hreach Hno 2%nat) as (x & Hx & Hv).
    + apply line_connected; by eexists.
    + exists x. split; [exact Hx|]. rewrite Hv. vm_compute. reflexivity.
Defined.

(** A payment of 60 from the first account to the second. *)
Lemma line_payable : payable nodeA sk1 a2 60 listed.
Proof.
  constructor.
  - exact (cs_ok _ _ s0_consistent).
  - exact (mempool_new_ok 2).
  - vm_compute. reflexivity.
  - intros ro _. eexists. reflexivity.
  - apply (bool_decide_eq_true (Forall (fun ro => length (tx_hash ro.1) = 32%nat ∧ entry_fits ro) listed)). vm_compute. reflexivity.
  - vm_compute. reflexivity.
  - vm_compute. split; [reflexivity|discriminate].
  - intros r _. apply not_elem_of_empty.
  - cbn. lia.
  - intros sel tx Hsel Htx. assert (tx = transfer60) as ->.
    { unfold transfer60, selected_coins. rewrite Hsel. change a1 with (addr_of sk1). unfold addr_of. by rewrite Htx. }
    split; [apply not_elem_of_nil|]. vm_compute. discriminate.
Qed.

Lemma payment_reaches_network_witness :
  ∃ st' net ps net', net_step line_configs line_far None
      (mkNet (<[0%nat := st']> line) (new_packets line_far 0%nat nodeA st')) net ∧
    deliveries line_configs line_far ps net net' ∧
    ∃ x, net_nodes net' !! 2%nat = Some x ∧ balance_of a2 (utxos (view (n_store x))) = 110 ∧
      balance_of a1 (utxos (view (n_store x))) = 40.
Proof.
  destruct (payment_reaches_network line_configs line_far "http://node" line 0%nat 25 0 (view s0) gblock nodeA val1
    (as_str a2) a2 60 key_path "secret" sk1 listed (snd created) line_elected)
    as (tx & st' & net & _ & Hstep & (ps & net' & Hps & Hno) & Hall).
  - vm_compute. reflexivity.
  - vm_compute. reflexivity.
  - vm_compute. discriminate.
  - exact line_payable.
  - reflexivity.
  - intros sel tx Hsel Htx. assert (tx = transfer60) as ->.
    { unfold transfer60, selected_coins. rewrite Hsel. change a1 with (addr_of sk1). unfold addr_of. by rewrite Htx. }
    split.
    + apply (forallb_elem (fun r => utxos (view s0) !! r = None)). vm_compute. reflexivity.
    + apply line_deliverable; vm_compute; reflexivity.
  - exists st', net, ps, net'. split; [exact Hstep|]. split; [exact Hps|].
    destruct (Hall ps net' Hps Hno 2%nat (line_linked 2%nat ltac:(tauto))) as (x & Hx & Hr & Hsd). exists x. split; [exact Hx|].
    split.
    + rewrite Hr. vm_compute. reflexivity.
    + change a1 with (Address.from_pubkey_bytes (vk_as_bytes (verifying_key sk1))). rewrite Hsd. vm_compute. reflexivity.
Defined.

(** ** The connector *)

(** A node without peers whose bootstrap peer refuses the first connection; the
    second round has begun. *)
Definition lonely : NodeState MemoryStore := mkNodeState s0 (Mempool.new 2) ∅ [].
Definition refused_once : Connector := mkConnector (Some []) (dial_failed B 3 ∅) [].

Lemma refused_run : connector_run config2 0 (lonely, [], connector_start) 3 (lonely, [], refused_once).
Proof.
  eapply (run_steps _ _ None); [by apply round_starts|done|].
  eapply (run_steps _ _ (Some 0)); [apply round_spawns|done|].
  eapply (run_steps _ _ (Some 3)); [apply (dial_fails config2 lonely [] None ∅ [] [] B 3)|done|].
  eapply (run_steps _ _ None); [by apply round_starts|done|]. constructor.
Qed.

Lemma bootstrap_peers_redialled_witness :
  (∃ failed served, failed ≤ 3 ∧ served ∈ [2; 4; 8; 16; 32; 64] ∧ 5 = failed + served ∧ 4 = Z.min (served * 2) 64) ∧
  ∃ dialled, connector_step config2 (Some 67) (lonely, [], refused_once)
    (lonely, [], mkConnector None (dial_failed B 3 ∅) dialled) ∧ B ∈ dialled.
Proof.
  destruct (bootstrap_peers_redialled config2 0 lonely 3 lonely [] refused_once refused_run) as [Hback Hdial].
  split; [apply (Hback B 5 4); vm_compute; reflexivity|].
  destruct (Hdial [] 67 eq_refl) as (dialled & Hstep & _ & Hall). exists dialled. split; [exact Hstep|].
  apply Hall; [lia|left|apply not_elem_of_nil].
Defined.

(** Six attempts, all of which fail after 30 seconds: the back-off is 64 seconds. *)
Lemma dials_pile_up_witness :
  ∃ c, connector_run config2 30 (lonely, [], mkConnector None ∅ (replicate 6 B)) 30 (lonely, [], c) ∧
    cn_backoff c !! B = Some (94, 64).
Proof.
  destruct (dials_pile_up config2 B lonely [] 0 6 eq_refl eq_refl ltac:(lia)) as (c & _ & Hrun & Hb).
  exists c. exact (conj Hrun Hb).
Defined.

(** ** A node that has missed a block *)

(** The block of height 1 was [bA]; the node hears of the one after it and gets
    the answer to its request. *)
Definition bD : Block := make_block config1 (Block_hash bA) 2 3 35 [].
Definition behind1 : NodeState MemoryStore := snd (dispatch config3 (to_vec (NewBlock bD)) B 10%nat nodeA).
Definition behind2 : NodeState MemoryStore := snd (dispatch config3 (to_vec (Blocks [bA; bD])) B 10%nat behind1).

Lemma missed_block_stalls_witness :
  n_store behind2 = s0 ∧ n_effects behind2 = [TrySend 10%nat (GetBlocks 1)].
Proof.
  split; [|vm_compute; reflexivity].
  apply (missed_block_stalls config3 0 nodeA behind2 s0_at (mempool_new_ok 2)); [vm_compute; reflexivity|].
  eapply rtc_l; [|eapply rtc_l; [|apply rtc_refl]].
  - apply (lag_frame config3 0 B 10%nat (to_vec (NewBlock bD)) nodeA (fst (dispatch config3 (to_vec (NewBlock bD)) B 10%nat nodeA)) behind1); [|apply surjective_pairing].
    intros b. rewrite from_slice_to_vec. intros [= <-]. reflexivity.
  - apply (lag_frame config3 0 B 10%nat (to_vec (Blocks [bA; bD])) behind1 (fst (dispatch config3 (to_vec (Blocks [bA; bD])) B 10%nat behind1)) behind2); [|apply surjective_pairing].
    intros b. rewrite from_slice_to_vec. intros [=].
Defined.
