(* ===== verification/ToolWitnesses.v ===== *)
(** * Witnesses for the visualizer

    The properties of the network as a client sees it, applied to a small world
    computed with the instances of [Concrete], and to a network of modelled nodes. *)

From S2P Require Import Prelude Bytes Types Consensus Encoding Store Ledger Validation MemoryStore.
From S2P Require Import Mempool DebugEvent Node Handler Protocol Api Http EventBus Wallet Rpc World Split.
From S2P Require Import Scenarios VisServer Stream Network Testnet Concrete Witnesses.

#[local] Existing Instances toy_crypto toy_core_json toy_json_message toy_hash_order toy_sort
  toy_json_text toy_json_parse checked.

(** ** A world that confirms what is posted *)

Record ToyWorld := mkToyWorld { tw_clock : Z; tw_bus : EventBus; tw_posted : bool }.

Definition toy_coin : UtxoItem := mkUtxoItem (hex_encode (replicate 32 x07)) 0 150000.
Definition toy_client : RpcClient ToyWorld :=
  mkRpcClient (fun w => (Ok (mkTipResponse 0 "00"), w))
    (fun a w => (Ok (mkBalanceResponse a (if tw_posted w then 100000 else 0)), w))
    (fun _ w => (Ok [toy_coin], w))
    (fun tx w => (Ok (mkTxResponse (hex_encode (Transaction_hash tx))), mkToyWorld (tw_clock w) (tw_bus w) true)).

#[local] Instance toy_world : World ToyWorld := {|
  client_of _ := toy_client;
  instant := tw_clock;
  sleep d w := mkToyWorld (tw_clock w + Z.max 0 d) (tw_bus w) (tw_posted w);
  join_order _ n := seq 0 n;
|}.
#[local] Instance toy_tool : Tool ToyWorld := {|
  utc_now w := pretty (tw_clock w);
  bus := tw_bus;
  set_bus b w := mkToyWorld (tw_clock w) b (tw_posted w);
|}.

Definition toy_later (w w' : ToyWorld) : Prop :=
  tw_clock w ≤ tw_clock w' ∧ sent (tw_bus w) `prefix_of` sent (tw_bus w').
#[local] Instance toy_later_order : PreOrder toy_later.
Proof.
  split; [intros w; split; [lia|done]|]. intros w1 w2 w3 [??] [??]. split; [lia|by etrans].
Qed.
#[local, refine] Instance toy_world_laws : WorldLaws ToyWorld := {| later := toy_later |}.
Proof.
  - by intros w w' [].
  - intros d w. split; [cbn; lia|done].
  - intros d w. cbn. lia.
  - by intros.
  - by intros.
  - by intros.
  - by intros.
  - done.
Defined.
#[local] Instance toy_tool_laws : ToolLaws ToyWorld.
Proof.
  constructor.
  - done.
  - intros w w' Hl. apply Hl.
  - intros b w Hb. split; [cbn; lia|done].
Defined.

Definition toy0 : ToyWorld := mkToyWorld 0 (EventBus.new 10) false.
Definition toy_ports : list string := ["http://127.0.0.1:8081"; "http://127.0.0.1:8082"].

Lemma split_net_refines_witness :
  match split_utxo_net sk1 a1 toy_client toy_coin 1 toy0 with
  | (Ok out, _) => sumZ (ui_amount <$> out) = 150000
  | _ => False
  end.
Proof.
  pose proof (split_net_refines (W := ToyWorld) "" sk1 a1 toy_coin 1 toy0) as Hs.
  change (client_of "") with toy_client in Hs.
  destruct (split_utxo_net sk1 a1 toy_client toy_coin 1 toy0) as [[out|e|] w'] eqn:Hr;
    [|vm_compute in Hr; discriminate..].
  destruct Hs as (_ & envs & _ & _ & _ & Ht & _). exact Ht.
Defined.

Lemma transfer_passes :
  match run_scenario "single_transfer" toy_ports toy0 with
  | (Ok r, _) => bool_decide (sr_status r = Pass)
  | _ => false
  end = true.
Proof. vm_compute. reflexivity. Qed.

Lemma run_scenario_ends_witness :
  match run_scenario "single_transfer" toy_ports toy0 with
  | (Ok r, w') => sr_status r = Pass ∧ ∃ first middle last,
      sent (tw_bus w') = first :: middle ++ [last] ∧ reports last "single_transfer" "done" (verdict r)
  | _ => False
  end.
Proof.
  pose proof (run_scenario_ends (W := ToyWorld) "single_transfer" toy_ports toy0) as He.
  pose proof transfer_passes as Hp.
  destruct (run_scenario "single_transfer" toy_ports toy0) as [[r|e|] w']; [|discriminate Hp..].
  destruct He as (_ & first & middle & last & Hs & _ & Hl).
  split; [by apply bool_decide_eq_true in Hp|]. exists first, middle, last. exact (conj Hs Hl).
Defined.

Lemma scenario_pass_seen_witness :
  match run_scenario "single_transfer" toy_ports toy0 with
  | (Ok r, w') => seen toy0 w' "http://127.0.0.1:8082" (as_str (recipient_addr 0xAA)) 100000
  | _ => False
  end.
Proof.
  pose proof transfer_passes as Hp.
  destruct (run_scenario "single_transfer" toy_ports toy0) as [[r|e|] w'] eqn:Hrun; [|discriminate Hp..].
  destruct (scenario_pass_seen (W := ToyWorld) "single_transfer" toy_ports toy0 r w' Hrun) as (_ & Hs & _).
  - by apply bool_decide_eq_true in Hp.
  - apply Hs; [by left|right; by left].
Defined.

(** ** Two modelled nodes *)

(** A store in which the funder owns one output. *)
Definition funded : TxOutRef * TxOutput := (mkTxOutRef (replicate 32 x07) 0, mkTxOutput 1000 funder_addr).
Definition funded_store : MemoryStore := mkMemoryStore ∅ ∅ {[funded.1 := funded.2]} ∅ ∅.
Definition funded_node : NodeState MemoryStore := node_with funded_store.

#[local] Instance still : Surroundings MemoryStore.
Proof.
  refine {| advance _ ns := ns; request_order n := seq 0 n; date := pretty |}. done.
Defined.

Definition testnet0 : Testnet MemoryStore :=
  mkTestnet {["http://127.0.0.1:8081" := funded_node; "http://127.0.0.1:8082" := funded_node]} 0 (EventBus.new 10).

Lemma funded_tested : tested funded funded_node.
Proof.
  constructor.
  - vm_compute. discriminate.
  - intros o Ho. vm_compute in Ho. by injection Ho as <-.
  - vm_compute. reflexivity.
  - intros tx _. apply not_elem_of_nil.
Qed.

Lemma invalid_txs_rejected_witness :
  ∃ r w', run_scenario "invalid_tx_rejection" toy_ports testnet0 = (Ok r, w') ∧ sr_status r = Pass.
Proof.
  destruct (invalid_txs_rejected toy_ports "http://127.0.0.1:8081" funded_node funded []
    (Crypto_error "signature error") testnet0) as (r & w' & Hr & Hp & _).
  - reflexivity.
  - reflexivity.
  - vm_compute. reflexivity.
  - repeat constructor; vm_compute; discriminate.
  - reflexivity.
  - reflexivity.
  - vm_compute. reflexivity.
  - apply (forallb_elem (fun tx => Z.of_nat (length (to_vec tx)) ≤ MAX_BODY)). vm_compute. reflexivity.
  - intros url Hu. exists funded_node. split; [|exact funded_tested].
    repeat (apply elem_of_cons in Hu as [->|Hu]; [reflexivity|]). by apply elem_of_nil in Hu.
  - exists r, w'. exact (conj Hr Hp).
Defined.

(** ** The event streams *)

(** A channel that reports an overflow as soon as more than its capacity is
    outstanding. *)
Definition eager_recv {A} (cap : nat) (sent : list A) (pos : nat) : option (RecvOutcome A) :=
  if (cap <? length sent - pos)%nat then Some (LaggedBy (length sent - pos - cap))
  else Received <$> sent !! pos.

#[local, refine] Instance eager_channel {A} : Broadcast A := {| recv := eager_recv |}.
Proof.
  - intros cap sent pos a. unfold eager_recv. destruct (_ <? _)%nat; [done|].
    destruct (sent !! pos); [by intros [= ->]|done].
  - intros cap sent pos n. unfold eager_recv. destruct (Nat.ltb_spec cap (length sent - pos)).
    + intros [= <-]. lia.
    + by destruct (sent !! pos).
  - intros cap sent pos. unfold eager_recv. destruct (Nat.ltb_spec cap (length sent - pos)).
    + split; [done|lia].
    + rewrite fmap_None. apply lookup_ge_None.
Defined.

Definition stopping (t : string) : DebugEnvelope := mkDebugEnvelope t NodeStopping.

Definition toy_turns : list (StreamTurn DebugEnvelope) :=
  [Publish (stopping "1"); Recv true; ClientMessage; Publish (stopping "2")].

Lemma debug_stream_accounts_witness :
  let c := debug_conn (stopping "snapshot") true [stopping "-1"] [stopping "0"] toy_turns in
  channel c = stopping <$> ["-1"; "0"; "1"; "2"] ∧
  (∃ read, frames c = Item (stopping "snapshot") :: (Item <$> read) ∧ read `prefix_of` [stopping "1"; stopping "2"]) ∧
  frames (debug_conn (stopping "snapshot") true [stopping "-1"] [stopping "0"] (toy_turns ++ replicate 2 (Recv true)))
    = Item <$> (stopping <$> ["snapshot"; "1"; "2"]).
Proof.
  intros c. destruct (debug_stream_accounts (stopping "snapshot") [stopping "-1"] [stopping "0"] toy_turns)
    as (Hc & (fs & read & Hf & _ & Hpre & Hall) & Hstay); [by repeat constructor|].
  split; [exact Hc|]. split.
  - exists read. split; [|exact Hpre]. rewrite <- Hall; [exact Hf|]. vm_compute. lia.
  - destruct Hstay as [_ Hstay]; [split; set_solver|].
    destruct (Hstay 2%nat) as (fs' & Hf' & _ & Hall'); [vm_compute; lia|]. rewrite Hf', Hall' by (vm_compute; lia). reflexivity.
Defined.

(** One event between the subscription and the replay: it comes twice. *)
Definition bus_one : EventBus := EventBus.publish "node1" "1" NodeStopping (EventBus.new 10).
Definition bus_two : EventBus := EventBus.publish "node1" "2" NodeStopping bus_one.

Lemma ws_stream_accounts_witness :
  let c := ws_conn bus_one bus_two None [Recv true; ClientGone] in
  (∃ fs read, frames c = (Item <$> sent bus_two) ++ fs ∧ accounts fs read ∧ read `prefix_of` drop 1 (sent bus_two)) ∧
  frames c = Item <$> (sent bus_two ++ drop 1 (sent bus_two)).
Proof.
  intros c. split; [|reflexivity]. destruct (ws_stream_accounts bus_one bus_two [Recv true; ClientGone])
    as (_ & replay & fs & read & Hf & -> & Hacc & Hpre).
  - apply bus_publish_ok; [cbn; lia|]. apply bus_publish_ok; [cbn; lia|apply bus_new_ok].
  - by exists (drop 1 (sent bus_two)).
  - by repeat constructor.
  - exists fs, read. exact (conj Hf (conj Hacc Hpre)).
Defined.

(** ** The HTTP server and the URLs *)

Lemma scenario_request_starts_witness :
  (handle_http [] (fun _ => []) (scenario_line (text "double_spend") ++ crlf ++ text "Host: x") (EventBus.new 10)).2 =
    Some (text "double_spend").
Proof.
  destruct (scenario_request_starts [] (fun _ => []) (text "double_spend") (text "Host: x") (EventBus.new 10)) as [Hh _].
  - split; [done|]. by repeat constructor.
  - by rewrite Hh.
Defined.

Lemma urls_agree_witness :
  node_urls (Some (text "ws://127.0.0.1:9081/debug,ws://127.0.0.1:9082/debug")) (text "ignored") =
    Ok [("node1", text "ws://127.0.0.1:9081/debug"); ("node2", text "ws://127.0.0.1:9082/debug")] ∧
  scenario_urls (Some (text "ws://127.0.0.1:9081/debug,ws://127.0.0.1:9082/debug")) (text "ignored") =
    [text "http://127.0.0.1:8081"; text "http://127.0.0.1:8082"].
Proof.
  destruct (urls_agree [8081; 8082] (text "ignored")) as (Hn & Hd & Hs & Hu); [done|by repeat constructor|].
  rewrite Hn in Hd. rewrite Hs in Hu. exact (conj Hd Hu).
Defined.

Lemma relay_faithful_witness :
  ws_node <$> sent (relay (fun s => Some (stopping s)) Some "node1"
    [("0", TextMessage "1"); ("0", OtherMessage); ("0", CloseMessage); ("0", TextMessage "2")] (EventBus.new 10)) =
  ["node1"].
Proof.
  destruct (relay_faithful (fun s => Some (stopping s)) Some "node1"
    [("0", TextMessage "1"); ("0", OtherMessage); ("0", CloseMessage); ("0", TextMessage "2")] (EventBus.new 10))
    as (l & Hs & Hev & Hn & _); [cbn; lia|apply bus_new_ok|].
  rewrite Hs. destruct l as [|e [|e' l]]; [discriminate Hev| |discriminate Hev].
  apply Forall_inv in Hn. cbn. by rewrite Hn.
Defined.
